(* ===== verification/_CoqProject ===== *)
-Q . S2P
Prelude.v
GoStrings.v
GoOrder.v
JsonNum.v
Proto.v
GoTime.v
Window.v
Drain.v
Hold.v
HoldQueue.v
WakeTimer.v
LinkedList.v
GoFloat.v
Ramp.v
Pacing.v
Storm.v
StormInv.v
StormWindow.v
Gate.v
Sched.v
Admission.v
Send.v
Drains.v
SchedSpec.v
SchedRun.v
SchedSteps.v
SchedInv.v
FairSpec.v
FairInv.v
SendInv.v
Inflight.v
Body.v
GoUtf8.v
JsonText.v
JsonScan.v
JsonCount.v
Preflight.v
TokenCap.v
Retain.v
Ring.v
Feed.v
FeedInv.v
NameSet.v
Persist.v
Headers.v
Overrides.v
Upstream.v
Pacer.v
ErrClass.v
