(* ===== verification/Prelude.v ===== *)
(** * Verification of millivolt

    millivolt is a proxy in front of LLM providers. An inbound request passes
    the process-wide admission counters, its body is read under a byte budget
    and checked by a lexical preflight; the scheduler then admits it - a slot of
    its key, the gate of its provider, operator holds and drains - and gates the
    send behind backoff windows, a retry token and outage detection; the codecs
    translate it. This library models those decisions and proves them correct.
    Paths below are under src/internal/.

    ** Files and what they model

    Foundations
    - Prelude: integers at their width, byte strings, list and map lemmas, the
      hint databases.
    - GoTime, GoFloat, GoStrings, GoOrder, GoUtf8, JsonText: what the code uses
      of Go's time, float64, strings, sorting, unicode/utf8 and encoding/json. JsonText also
      has documents as trees that keep their spelling ([render], [document]);
      [json_Valid_spec] proves that exactly the renderings are valid.

    Numbers and wire formats
    - JsonNum: jsonnum/jsonnum.go, whole file.
    - Proto: format/proto.go, whole file.

    The request's way in (proxy/)
    - Inflight: inflight.go - the lock-free limiter. A request is a program of
      atomic operations and a run interleaves them.
    - Body: request_body.go and the admission, body and error part of ServeHTTP.
    - JsonScan: metrics/content.go and SkipSpace of metrics/json_key.go - the
      lexical scanners. JsonCount: request_json_count.go's counters and the
      request keys of request_metadata.go. Preflight: boundRequestMetadata.
      TokenCap: request_tokencap.go.
    - NameSet: the nameSet of pause.go, the operator's vocabulary of keys, models
      and providers. Persist: throttle.go's durable throttle policy - generations,
      write loops, the background writer, flush and close.

    Finished requests (metrics/)
    - Retain: the records and the bounds on their text, metrics.go and retain.go.
      Ring: buffer.go's ring, its counters, revisions, removals and snapshots,
      and the cursor of http.go. Feed: the ring's publications, subscriber
      channels, HandleStream frame by frame, dashboards and the exposition cache,
      as one step relation. FeedInv: its invariant and theorems.

    The scheduler (scheduler/)
    - Drain: the error values and operator drains (scheduler.go). Hold,
      HoldQueue: hold.go - matching and overlap of holds; the policy's
      transitions and the count of parked callers. WakeTimer: wakeup.go.
      LinkedList: scheduler_list.go. Window, Gate: throttle.go - the request
      window; token bucket, provider gate, leases and the policy map. Ramp,
      Pacing: scheduler_admission.go's ramp, scheduler_pacing.go. Storm,
      StormWindow, StormInv: storm.go.
    - Sched: scheduler_groups.go and the state of scheduler.go - groups,
      provider indexes, fair sets, idle order, eviction. Admission:
      scheduler_admission.go, and the drains of throttle.go and scheduler.go.
      Send: scheduler_send.go.
    - Drains, SchedSpec, SchedRun, SchedSteps, SchedInv, FairSpec, FairInv,
      SendInv: the theory of the four files above. SchedSpec is the abstract
      machine of slots, queues and the idle order; SchedRun makes each critical
      section a step; SchedSteps simulates each step by the machine.

    ** What the theorems show

    - The scheduler as a whole: every interleaving of its critical sections is
      a run of the abstract machine (SchedInv.sched_refines); hence exact slots,
      queues and idle order, eviction that never takes a group with work, a
      refusal only when every mapped group has work (sched_slots_exact,
      eviction_safe); no stored identity dangles (FairInv.sched_no_dangling);
      the lock-free witnesses of the fast path tell the truth
      (fair_index_exact); a group's retry token is unique
      (SendInv.send_token_exact).
    - Its parts: the FIFO drain, the round robin over groups and termination of
      the drains (Drains); the provider gate's admission, its occupancy and the
      policy map (Gate); the request window (Window); storms and their probes
      (StormInv, StormWindow); holds and their counts (Hold, HoldQueue); drains,
      timers, the linked list, the ramp, the pacing store.
    - The request's way in: the counters are exact and the bounds hold under
      every interleaving (Inflight); the answer to an upload depends only on
      what was sent, and memory only on what arrived (Body); the preflight
      refuses exactly the JSON documents whose decoded collections are
      oversized (Preflight), with exact scanners (JsonScan); token ceilings are
      trusted exactly when they are unambiguous bounded integers (TokenCap).
    - Operator state: the vocabulary is a map of recency whose pinned entries
      outrank traffic (NameSet). A throttle policy that is marked persisted is the
      stored one, and no dirty policy is left without a pending wakeup or an
      alerted writer (Persist.clean_is_durable, no_lost_wakeup) - except that an
      endpoint's superseded write that gives up after a conflict is forgotten
      (failed_rewrite_forgotten).
    - Finished requests: what is kept of a record and that it stays bounded and
      valid UTF-8 (Retain); the ring is the list of its newest records, and a
      purge keeps what finishes meanwhile (Ring); under every interleaving a
      dashboard misses no record, its pending rows are the registry of some
      instant and a scrape is current (FeedInv).
    - Numbers and wire formats: integer literals are decoded exactly (JsonNum);
      varints and messages round trip, and decoding is bounded by the frame
      (Proto).

    ** Conventions

    - An [int] or [int64] is a [Z]; the wrap is written out where the source can
      wrap, and a guard that keeps a counter inside int64 is a named hypothesis
      ([fits] in Inflight, [short] in JsonNum).
    - A critical section of the scheduler is one atomic step, with one reading
      of the clock, which is its argument. Contexts and the hook callbacks are
      parameters of the steps: the theorems hold whatever they answer. A section
      that releases the lock and takes it again is as many steps, except
      makeGroupRoomLocked's pop and evict, which are one.
    - A linked list is the sequence of its values, justified by LinkedList. A
      storm controller is a state of its own beside the scheduler's; WaitSend
      calls it between two sections. Options do not carry the storm options.
    - A timer's callback is a step that may run at any time after it was armed;
      the pacing and ramp wakes are composed from it and the drain they call.
    - WaitSend's exits on a dead context after it was queued, and its re-check
      after the OnWait hook, are not branches of their own: they leave the state
      as the turn before left it.
    - A reader is any instance of [BodyReader]: its errors are final and it
      answers an empty read only finitely often in a row. Body gives an instance
      that plays a script of chunks, at which the theorems are applied.
    - A request's upload in Body runs without interruption, from any state of
      the counters; what other requests do meanwhile is Inflight's.
    - A scanner's index into its input is the tail of the input there, and -1
      is [None]. A capacity is part of a slice only where the code reads it.
      [append] on a full slice takes the smallest legal capacity.
    - Sequence numbers and revisions of the feed never reach their width. A
      fresh epoch is one there has never been: it is eight bytes of crypto/rand, and
      the step that draws one assumes it differs. A process
      restores its records before it serves. A dashboard is the protocol that
      HandleStream documents; its steps are the environment's. A frame is
      emitted when its event is received, and read any time later: batching
      only delays it, and a lost batch is a reader that stops.
    - A walk over a Go map takes the order of the walk as an argument, and the
      theorems hold for every permutation. Persist's policy document is a type
      parameter; its uint64 generations never reach their width; it starts from
      the restored policy.
    - A Go map that is only a set is a [gset]; fmt.Errorf values are
      constructors that carry what is formatted.

    ** Fuel

    Loops that do not recurse on their data take fuel. makeGroupRoomLocked's is
    one more than the idle order is long, and every turn takes one of it. A fair
    drain's is bounded by the callers queued: every pass that repeats granted
    one, and drainProvider_total proves that it returns. The pacing eviction
    starts with the size of its map, the protobuf Value decoder with more than
    the nesting bound, varint loops with the ten groups of 64 bits. The request
    readers end for any fuel above the reader's patience. Scanners and parsers
    of text start with the length of their input: every turn takes a byte, and
    the preflight's theorem quantifies over all bodies.

    ** Not modelled

    cmd/ (flags, servers, processes and files around the packages), adminjson,
    backup, config, mcp, sse, storage and web: persistence, HTTP handlers and
    rendering around the core; they call what is modelled or stand beside it.
    format beyond proto.go, and format/ir: the codecs of the provider dialects.
    The pause and limit endpoints, their headers and the JSON of the stored
    policies. metrics beyond the scanners, the records' bounds, the ring and its feed:
    usage, error classes, aggregation, the exposition's text, the JSON of
    frames. proxy beyond its admission, body reading, preflight and token
    ceilings: the typed decode through encoding/json's reflection, forwarding,
    streaming and the making of records. The scheduler's snapshots for the admin
    pages read the modelled state and decide nothing. *)

From stdpp Require Export base tactics list gmap strings.
From Stdlib Require Export ZArith Lia.

(** ** Integers at their width

    Go's [int] and [int64] are 64-bit two's complement on the supported
    targets.  They are modelled as [Z]; where the source can wrap, the wrap is
    written out with [wrap64] (signed) or [u64] (unsigned). *)

#[global] Open Scope Z_scope.

Definition int64_min : Z := - 2 ^ 63.
Definition int64_max : Z := 2 ^ 63 - 1.
Definition in_int64 (z : Z) : Prop := int64_min <= z <= int64_max.
Definition in_uint64 (z : Z) : Prop := 0 <= z < 2 ^ 64.

Definition u64 (z : Z) : Z := z mod 2 ^ 64.
Definition wrap64 (z : Z) : Z := (z + 2 ^ 63) mod 2 ^ 64 - 2 ^ 63.

#[global] Instance in_int64_dec z : Decision (in_int64 z).
Proof. unfold in_int64. apply _. Defined.
#[global] Instance in_uint64_dec z : Decision (in_uint64 z).
Proof. unfold in_uint64. apply _. Defined.

Lemma wrap64_id z : in_int64 z -> wrap64 z = z.
Proof.
  unfold in_int64, int64_min, int64_max, wrap64. intros H.
  rewrite Z.mod_small; lia.
Qed.

Lemma wrap64_range z : in_int64 (wrap64 z).
Proof.
  unfold in_int64, int64_min, int64_max, wrap64.
  pose proof (Z.mod_pos_bound (z + 2 ^ 63) (2 ^ 64) ltac:(lia)). lia.
Qed.

Lemma u64_id z : in_uint64 z -> u64 z = z.
Proof. unfold in_uint64, u64. intros. apply Z.mod_small. lia. Qed.

Lemma u64_range z : in_uint64 (u64 z).
Proof. unfold in_uint64, u64. apply Z.mod_pos_bound. lia. Qed.

(** ** Fallible code

    A Go function returning [(T, error)] is modelled by [result E T]. *)

Inductive result (E A : Type) : Type :=
  | Ok (a : A)
  | Err (e : E).
Arguments Ok {E A} a.
Arguments Err {E A} e.

Declare Scope go_scope.
Delimit Scope go_scope with go.
Notation "'try' x <- e ; k" :=
  (match e with Ok x => k | Err err => Err err end)
  (at level 10, x pattern, e at level 100, k at level 200) : go_scope.
#[global] Open Scope go_scope.

Definition is_ok {E A} (r : result E A) : bool :=
  match r with Ok _ => true | Err _ => false end.

(** ** Bytes

    A Go [string] or [[]byte] is a list of byte values. *)

Abbreviation bytes := (list Z).

Definition byte_ok (b : Z) : Prop := 0 <= b < 256.
Definition bytes_ok (l : bytes) : Prop := Forall byte_ok l.

Fixpoint str (s : String.string) : bytes :=
  match s with
  | String.EmptyString => []
  | String.String a s => Z.of_N (Ascii.N_of_ascii a) :: str s
  end.

(** The longest prefix whose elements satisfy [f], and the rest: the shape of
    every [for i < len(s) && f(s[i]) { i++ }] loop of the source. *)
Fixpoint span {A} (f : A -> bool) (l : list A) : list A * list A :=
  match l with
  | [] => ([], [])
  | x :: r => if f x then let '(a, b) := span f r in (x :: a, b) else ([], l)
  end.

Fixpoint drop_while {A} (f : A -> bool) (l : list A) : list A :=
  match l with
  | [] => []
  | x :: r => if f x then drop_while f r else l
  end.

Lemma span_app {A} (f : A -> bool) l : (span f l).1 ++ (span f l).2 = l.
Proof.
  induction l as [|x r IH]; [done|]. simpl. destruct (f x); [|done].
  destruct (span f r). simpl in *. by rewrite IH.
Qed.

Lemma span_forall {A} (f : A -> bool) l :
  Forall (fun x => f x = true) (span f l).1.
Proof.
  induction l as [|x r IH]; simpl; [constructor|].
  destruct (f x) eqn:E; [|constructor]. destruct (span f r). simpl in *.
  by constructor.
Qed.

(** [stops f l]: a scanning loop with condition [f] does not advance on [l]. *)
Definition stops {A} (f : A -> bool) (l : list A) : Prop :=
  match l with [] => True | x :: _ => f x = false end.

Lemma span_stops {A} (f : A -> bool) l : stops f (span f l).2.
Proof.
  induction l as [|x r IH]; simpl; [done|].
  destruct (f x) eqn:E; [|done]. by destruct (span f r).
Qed.

Lemma span_exact {A} (f : A -> bool) a b :
  Forall (fun x => f x = true) a -> stops f b -> span f (a ++ b) = (a, b).
Proof.
  intros Ha Hb. induction Ha as [|x a Hx Ha IH]; simpl.
  - destruct b as [|y b]; [done|]. simpl in *. by rewrite Hb.
  - by rewrite Hx, IH.
Qed.

Lemma drop_while_suffix {A} (f : A -> bool) l :
  exists p, l = p ++ drop_while f l /\ Forall (fun x => f x = true) p.
Proof.
  induction l as [|x r IH]; simpl; [by exists []|].
  destruct (f x) eqn:E.
  - destruct IH as (p & Hl & Hp). exists (x :: p).
    split; [simpl; by rewrite <- Hl | by constructor].
  - by exists [].
Qed.

Lemma drop_while_stops {A} (f : A -> bool) l : stops f (drop_while f l).
Proof.
  induction l as [|x r IH]; simpl; [done|]. by destruct (f x) eqn:E.
Qed.

Lemma drop_while_id {A} (f : A -> bool) l : stops f l -> drop_while f l = l.
Proof. destruct l as [|x r]; [done|]. simpl. by intros ->. Qed.

Lemma filter_all {A} (P : A -> Prop) `{!forall x, Decision (P x)} (l : list A) :
  Forall P l -> filter P l = l.
Proof.
  induction 1 as [|x l Hx _ IH]; [done|]. rewrite filter_cons, decide_True by done. by rewrite IH.
Qed.

(** ** Totals over a heap

    Objects with identity live in a [gmap]; [total f m] adds [f] over them. *)

Definition total {K} `{Countable K} {A} (f : A -> Z) (m : gmap K A) : Z :=
  map_fold (fun _ x acc => f x + acc) 0 m.

Section total.
Context {K} `{Countable K} {A : Type}.
Implicit Types (f : A -> Z) (m : gmap K A).

Lemma total_empty f : total f (∅ : gmap K A) = 0.
Proof. apply map_fold_empty. Qed.

Lemma total_insert_fresh f m i x : m !! i = None -> total f (<[i := x]> m) = f x + total f m.
Proof. intros Hi. unfold total. rewrite map_fold_insert_L; [done|intros; lia|done]. Qed.

Lemma total_delete f m i x : m !! i = Some x -> total f m = f x + total f (delete i m).
Proof.
  intros Hi. rewrite <- (insert_id m i x) at 1 by done. rewrite <- insert_delete_eq.
  apply total_insert_fresh, lookup_delete_eq.
Qed.

Lemma total_insert f m i x y :
  m !! i = Some x -> total f (<[i := y]> m) = total f m - f x + f y.
Proof.
  intros Hi. rewrite <- insert_delete_eq, total_insert_fresh by apply lookup_delete_eq.
  rewrite (total_delete f m i x) by done. lia.
Qed.

Lemma total_alter f m i g x :
  m !! i = Some x -> total f (alter g i m) = total f m - f x + f (g x).
Proof.
  intros Hi. rewrite alter_alt, Hi. by apply total_insert.
Qed.

Lemma total_alter_same f m i g :
  (forall x, f (g x) = f x) -> total f (alter g i m) = total f m.
Proof.
  intros Hg. destruct (m !! i) as [x|] eqn:Hi.
  - rewrite (total_alter f m i g x Hi), Hg. lia.
  - by rewrite alter_alt, Hi.
Qed.

Lemma total_ext f g m : (forall i x, m !! i = Some x -> f x = g x) -> total f m = total g m.
Proof.
  induction m as [|i x m Hi IH] using map_ind; intros Hfg; [by rewrite !total_empty|].
  rewrite !total_insert_fresh by done. rewrite (Hfg i x) by apply lookup_insert_eq.
  rewrite IH; [done|]. intros j y Hj. apply (Hfg j y). rewrite lookup_insert_ne; congruence.
Qed.

Lemma total_zero f m : (forall i x, m !! i = Some x -> f x = 0) -> total f m = 0.
Proof.
  intros Hz. rewrite (total_ext f (fun _ => 0)) by done. unfold total.
  apply (map_fold_weak_ind (fun acc _ => acc = 0)); [done|]. intros; lia.
Qed.

Lemma total_nonneg f m : (forall x, 0 <= f x) -> 0 <= total f m.
Proof.
  intros Hf. unfold total.
  apply (map_fold_weak_ind (fun acc _ => 0 <= acc)); [lia|]. intros i x m' acc _ ?.
  specialize (Hf x). lia.
Qed.
End total.

Lemma total_fmap `{Countable K} {A B} (h : A -> B) (f : B -> Z) (m : gmap K A) :
  total f (h <$> m) = total (fun x => f (h x)) m.
Proof.
  induction m as [|i x m Hi IH] using map_ind; [by rewrite fmap_empty, !total_empty|].
  rewrite fmap_insert, !total_insert_fresh by (rewrite ?lookup_fmap, Hi; done). by rewrite IH.
Qed.

(** ** Automation *)

Create HintDb mv.
#[export] Hint Resolve wrap64_range u64_range span_forall span_stops
  drop_while_stops : mv.

(** Split every boolean conjunction and pair in sight, then try arithmetic. *)
Ltac mv_split :=
  repeat match goal with
  | H : _ /\ _ |- _ => destruct H
  | H : exists _, _ |- _ => destruct H
  | H : andb _ _ = true |- _ => apply andb_true_iff in H
  | H : orb _ _ = false |- _ => apply orb_false_iff in H
  | H : negb _ = true |- _ => apply negb_true_iff in H
  | H : negb _ = false |- _ => apply negb_false_iff in H
  | H : (_, _) = (_, _) |- _ => injection H as H; subst
  end.

Ltac mv_case :=
  match goal with
  | |- context [match ?x with _ => _ end] => destruct x eqn:?
  end.
