(* ===== verification/GoStrings.v ===== *)
(** Go's [strings] functions the components use, on byte strings. *)

From S2P Require Import Prelude.

(** The UTF-8 encodings of the white space runes of [unicode.IsSpace], as the
    number of bytes such a rune takes at the front of [l] (0: none). *)
Definition space_prefix (l : bytes) : nat :=
  match l with
  | a :: r =>
      if (9 <=? a) && (a <=? 13) || (a =? 32) then 1%nat else
      match r with
      | b :: r' =>
          if (a =? 194) && ((b =? 133) || (b =? 160)) then 2%nat else
          match r' with
          | c :: _ =>
              if (a =? 225) && (b =? 154) && (c =? 128) then 3%nat
              else if (a =? 226) && (b =? 128) &&
                      ((128 <=? c) && (c <=? 138) || (c =? 168) || (c =? 169) || (c =? 175)) then 3%nat
              else if (a =? 226) && (b =? 129) && (c =? 159) then 3%nat
              else if (a =? 227) && (b =? 128) && (c =? 128) then 3%nat
              else 0%nat
          | [] => 0%nat
          end
      | [] => 0%nat
      end
  | [] => 0%nat
  end.

(** The same test on the reversed string, for the trailing rune. *)
Definition space_suffix (rev : bytes) : nat :=
  match rev with
  | a :: r =>
      if Nat.eqb (space_prefix [a]) 1 then 1%nat else
      match r with
      | b :: r' =>
          if Nat.eqb (space_prefix [b; a]) 2 then 2%nat else
          match r' with
          | c :: _ => if Nat.eqb (space_prefix [c; b; a]) 3 then 3%nat else 0%nat
          | [] => 0%nat
          end
      | [] => 0%nat
      end
  | [] => 0%nat
  end.

Fixpoint trim_by (f : bytes -> nat) (fuel : nat) (l : bytes) : bytes :=
  match fuel with
  | O => l
  | S fuel => match f l with O => l | n => trim_by f fuel (drop n l) end
  end.

Definition TrimSpace (l : bytes) : bytes :=
  let l := trim_by space_prefix (length l) l in
  rev (trim_by space_suffix (length l) (rev l)).

Example trim_ex : TrimSpace (str "  a b ") = str "a b". Proof. reflexivity. Qed.
Example trim_nbsp : TrimSpace ([194; 160] ++ str "x" ++ [226; 128; 168]) = str "x".
Proof. reflexivity. Qed.

(** ** Trimming ASCII text *)

Definition graphic (c : Z) : Prop := 33 <= c <= 126.
Definition ascii_blank (c : Z) : Prop := c = 32 \/ 9 <= c <= 13.

Lemma space_prefix_graphic c l : graphic c -> space_prefix (c :: l) = 0%nat.
Proof.
  unfold graphic. intros Hc. unfold space_prefix.
  replace ((9 <=? c) && (c <=? 13) || (c =? 32)) with false
    by (symmetry; rewrite orb_false_iff, andb_false_iff, Z.leb_gt, Z.leb_gt, Z.eqb_neq; lia).
  destruct l as [|b l]; [done|].
  replace (c =? 194) with false by (symmetry; apply Z.eqb_neq; lia). cbn [andb].
  destruct l as [|d l]; [done|].
  replace (c =? 225) with false by (symmetry; apply Z.eqb_neq; lia).
  replace (c =? 226) with false by (symmetry; apply Z.eqb_neq; lia).
  by replace (c =? 227) with false by (symmetry; apply Z.eqb_neq; lia).
Qed.

(** Seen from the end: a blank is dropped, and a graphic byte is never part of
    what is dropped. *)
Lemma space_suffix_blank w l : ascii_blank w -> space_suffix (w :: l) = 1%nat.
Proof.
  unfold ascii_blank, space_suffix, space_prefix. intros Hw.
  by replace ((9 <=? w) && (w <=? 13) || (w =? 32)) with true
    by (symmetry; rewrite orb_true_iff, andb_true_iff, !Z.leb_le, Z.eqb_eq; lia).
Qed.
Lemma space_prefix_last2 b c : graphic c -> Nat.eqb (space_prefix [b; c]) 2 = false.
Proof.
  unfold graphic, space_prefix. intros Hc. destruct (_ || _); [done|].
  replace ((c =? 133) || (c =? 160)) with false by (symmetry; rewrite orb_false_iff, !Z.eqb_neq; lia).
  by rewrite andb_false_r.
Qed.
Lemma space_prefix_last3 a b c : graphic c -> Nat.eqb (space_prefix [a; b; c]) 3 = false.
Proof.
  unfold graphic, space_prefix. intros Hc. destruct ((9 <=? a) && (a <=? 13) || (a =? 32)); [done|].
  destruct ((a =? 194) && ((b =? 133) || (b =? 160))); [done|].
  replace (c =? 128) with false by (symmetry; apply Z.eqb_neq; lia). rewrite !andb_false_r.
  replace ((128 <=? c) && (c <=? 138) || (c =? 168) || (c =? 169) || (c =? 175)) with false
    by (symmetry; rewrite !orb_false_iff, andb_false_iff, !Z.eqb_neq, Z.leb_gt, Z.leb_gt; lia).
  rewrite andb_false_r. by replace (c =? 159) with false by (symmetry; apply Z.eqb_neq; lia); rewrite andb_false_r.
Qed.

Lemma space_suffix_graphic c l : graphic c -> space_suffix (c :: l) = 0%nat.
Proof.
  intros Hc. unfold space_suffix. rewrite space_prefix_graphic by done. cbn [Nat.eqb].
  destruct l as [|b l]; [done|]. rewrite space_prefix_last2 by done.
  destruct l as [|a l]; [done|]. by rewrite space_prefix_last3.
Qed.

(** The first byte of the text stays when it is graphic. *)
Lemma space_suffix_keeps c x : graphic c -> (space_suffix (x ++ [c]) <= length x)%nat.
Proof.
  intros Hc. destruct x as [|a x]; [cbn [app length]; by rewrite space_suffix_graphic|].
  cbn [app length]. unfold space_suffix. destruct (Nat.eqb (space_prefix [a]) 1); [lia|].
  destruct x as [|b x]; cbn [app length].
  - rewrite space_prefix_graphic by done. cbn. lia.
  - destruct (Nat.eqb (space_prefix [b; a]) 2); [lia|]. destruct x as [|d x]; cbn [app length].
    + rewrite space_prefix_graphic by done. cbn. lia.
    + destruct (Nat.eqb (space_prefix [d; b; a]) 3); lia.
Qed.

Lemma trim_by_keeps c fuel : graphic c -> forall x, exists y, trim_by space_suffix fuel (x ++ [c]) = y ++ [c].
Proof.
  intros Hc. induction fuel as [|fuel IH]; intros x; [by exists x|]. cbn [trim_by].
  pose proof (space_suffix_keeps c x Hc) as Hk. destruct (space_suffix (x ++ [c])) as [|n]; [by exists x|].
  rewrite drop_app_le by done. apply IH.
Qed.

Lemma TrimSpace_head c l : graphic c -> exists l', TrimSpace (c :: l) = c :: l'.
Proof.
  intros Hc. unfold TrimSpace. cbn [length trim_by]. rewrite space_prefix_graphic by done. cbn [rev].
  destruct (trim_by_keeps c (length (c :: l)) Hc (rev l)) as [y Hy]. rewrite Hy, rev_app_distr. cbn. eauto.
Qed.

Lemma TrimSpace_blanks b w : b <> [] -> Forall graphic b -> Forall ascii_blank w -> TrimSpace (b ++ w) = b.
Proof.
  intros Hne Hb Hw. unfold TrimSpace.
  assert (Hp : forall n, trim_by space_prefix n (b ++ w) = b ++ w).
  { intros n. destruct b as [|c b]; [done|]. apply Forall_cons in Hb as [Hc _]. destruct n; [done|].
    cbn [app trim_by]. by rewrite space_prefix_graphic. }
  rewrite Hp. clear Hp. rewrite rev_app_distr, length_app. rewrite <- (rev_involutive b) at 3. f_equal.
  assert (Hs : forall n, trim_by space_suffix n (rev b) = rev b).
  { intros n. destruct b as [|c b] using rev_ind; [done|]. rewrite rev_app_distr. cbn [rev app].
    apply Forall_app in Hb as [_ Hb]. apply Forall_cons in Hb as [Hc _]. destruct n; [done|].
    cbn [trim_by]. by rewrite space_suffix_graphic. }
  rewrite (Nat.add_comm (length b)), <- (length_rev w).
  apply Forall_rev in Hw.
  revert Hw. generalize (length b) as n. generalize (rev w) as u. intros u n Hu.
  induction u as [|c u IH]; [apply Hs|]. cbn [length Nat.add app trim_by].
  apply Forall_cons in Hu as [Hc Hu]. rewrite space_suffix_blank by done. cbn [drop]. by apply IH.
Qed.

(** ** Trimming twice *)

Lemma space_prefix_app t u : space_prefix t <> 0%nat -> space_prefix (t ++ u) = space_prefix t.
Proof.
  destruct t as [|a [|b [|c t]]]; cbn; try done; destruct (_ || _); try done.
  by destruct ((a =? 194) && _).
Qed.

Lemma trim_by_done f l : (forall x, (f x <= length x)%nat) -> forall fuel, (length l <= fuel)%nat -> f (trim_by f fuel l) = 0%nat.
Proof.
  intros Hf fuel. revert l. induction fuel as [|fuel IH]; intros l Hl; cbn.
  - specialize (Hf l). lia.
  - destruct (f l) eqn:E; [done|]. apply IH. rewrite length_drop. lia.
Qed.

Lemma trim_by_id f l fuel : f l = 0%nat -> trim_by f fuel l = l.
Proof. intros Hl. destruct fuel; cbn; [done|]. by rewrite Hl. Qed.

Lemma trim_by_suffix f fuel l : exists p, l = p ++ trim_by f fuel l.
Proof.
  revert l. induction fuel as [|fuel IH]; intros l; cbn; [by exists []|]. destruct (f l) as [|n]; [by exists []|].
  destruct (IH (drop (S n) l)) as [p Hp]. exists (take (S n) l ++ p). rewrite <- app_assoc, <- Hp. by rewrite take_drop.
Qed.

Lemma space_prefix_length l : (space_prefix l <= length l)%nat.
Proof. destruct l as [|a [|b [|c l]]]; cbn; repeat case_match; lia. Qed.
Lemma space_suffix_length l : (space_suffix l <= length l)%nat.
Proof. unfold space_suffix. destruct l as [|a [|b [|c l]]]; repeat case_match; cbn; lia. Qed.

Lemma TrimSpace_idem l : TrimSpace (TrimSpace l) = TrimSpace l.
Proof.
  unfold TrimSpace at 2 3. cbv zeta. set (p := trim_by space_prefix (length l) l).
  assert (Hp : space_prefix p = 0%nat) by (apply trim_by_done; [apply space_prefix_length|lia]).
  set (r := trim_by space_suffix (length p) (rev p)).
  assert (Hr : space_suffix r = 0%nat) by (apply trim_by_done; [apply space_suffix_length|rewrite length_rev; lia]).
  assert (Hpr : space_prefix (rev r) = 0%nat).
  { destruct (trim_by_suffix space_suffix (length p) (rev p)) as [q Hq]. fold r in Hq.
    apply (f_equal (@rev Z)) in Hq. rewrite rev_involutive, rev_app_distr in Hq.
    destruct (decide (space_prefix (rev r) = 0%nat)) as [|Hne]; [done|].
    by rewrite Hq, space_prefix_app in Hp. }
  unfold TrimSpace. rewrite (trim_by_id space_prefix) by done. cbv zeta. rewrite rev_involutive, trim_by_id by done. done.
Qed.
