(* ===== verification/GoOrder.v ===== *)
(** Go's order on strings (strings.Compare, slices.Sorted) and the sorted keys
    of a map. *)

From stdpp Require Import sorting.
From S2P Require Import Prelude.

Definition bytes_le (a b : bytes) : bool :=
  (fix le (a b : bytes) : bool :=
     match a, b with
     | [], _ => true
     | _ :: _, [] => false
     | x :: a, y :: b => if x <? y then true else if y <? x then false else le a b
     end) a b.

Definition before (a b : bytes) : Prop := bytes_le a b = true.
#[export] Instance before_dec a b : Decision (before a b).
Proof. unfold before. apply _. Defined.

Lemma bytes_le_cons x a y b : bytes_le (x :: a) (y :: b) = true <-> x < y \/ x = y /\ bytes_le a b = true.
Proof.
  change (bytes_le (x :: a) (y :: b)) with (if x <? y then true else if y <? x then false else bytes_le a b).
  destruct (Z.ltb_spec x y), (Z.ltb_spec y x); intuition (done || lia).
Qed.

#[export] Instance before_trans : Transitive before.
Proof.
  intros a. unfold before. induction a as [|x a IH]; intros [|y b] [|z c]; try done. rewrite !bytes_le_cons.
  intros [?|[-> ?]] [?|[-> ?]]; try (left; lia). right. eauto.
Qed.
#[export] Instance before_antisymm : AntiSymm (=) before.
Proof.
  intros a. unfold before. induction a as [|x a IH]; intros [|y b]; try done. rewrite !bytes_le_cons.
  intros [?|[-> ?]] [?|[? ?]]; try lia. f_equal. eauto.
Qed.
#[export] Instance before_total : Total before.
Proof.
  intros a. unfold before. induction a as [|x a IH]; intros [|y b]; auto. rewrite !bytes_le_cons.
  destruct (Z.lt_trichotomy x y) as [|[->|]]; [auto| |auto]. destruct (IH b); auto.
Qed.

(** [slices.Sorted(maps.Keys(s))]: the walk of the map does not matter. *)
Definition sorted_keys (s : gset bytes) : list bytes := merge_sort before (elements s).

Lemma elem_of_sorted_keys x s : x ∈ sorted_keys s <-> x ∈ s.
Proof. unfold sorted_keys. by rewrite merge_sort_Permutation, elem_of_elements. Qed.
Lemma sorted_keys_sorted s : StronglySorted before (sorted_keys s).
Proof. apply StronglySorted_merge_sort; apply _. Qed.
Lemma sorted_keys_walk l s : l ≡ₚ elements s -> merge_sort before l = sorted_keys s.
Proof.
  intros Hl. apply (StronglySorted_unique before); [apply StronglySorted_merge_sort; apply _|apply sorted_keys_sorted|].
  unfold sorted_keys. by rewrite !merge_sort_Permutation.
Qed.
Lemma NoDup_sorted_keys s : NoDup (sorted_keys s).
Proof. unfold sorted_keys. rewrite merge_sort_Permutation. apply NoDup_elements. Qed.
