(* ===== verification/JsonNum.v ===== *)
(** internal/jsonnum: exact decoding of JSON number literals that must be
    integers, and the parts of strings and strconv it uses. *)

From S2P Require Import Prelude GoStrings.

(** ** The standard library functions the package calls *)

Definition is_digit (c : Z) : bool := (48 <=? c) && (c <=? 57).
Definition is_zero_char (c : Z) : bool := c =? 48.

Definition digits_value (ds : bytes) : Z :=
  foldl (fun acc c => acc * 10 + (c - 48)) 0 ds.
#[global] Arguments digits_value : simpl never.

(** An optional sign: whether it is [-], and the rest. *)
Definition optional_sign (s : bytes) : bool * bytes :=
  match s with
  | c :: r => if c =? 45 then (true, r) else
              if c =? 43 then (false, r) else (false, s)
  | [] => (false, [])
  end.

(** [strconv.ParseInt s 10 64] (and [strconv.Atoi] on a 64-bit platform):
    an optional sign, at least one digit, only digits, and a value in range. *)
Definition strconv_ParseInt (s : bytes) : option Z :=
  let '(neg, ds) := optional_sign s in
  if bool_decide (ds = []) then None else
  if negb (forallb is_digit ds) then None else
  let v := if neg then - digits_value ds else digits_value ds in
  if bool_decide (in_int64 v) then Some v else None.

(** ** jsonnum.go *)

Inductive num_err := ErrNotNumber | ErrNotInteger | ErrOutOfRange | ErrNegative.

#[global] Instance num_err_eq : EqDecision num_err.
Proof. solve_decision. Defined.

Definition exponentClamp : Z := 2 ^ 30.

(** The optional fraction: its digits, the scale it contributes, the rest. *)
Definition fractionPart (rest : bytes) : option (bytes * Z * bytes) :=
  match rest with
  | c :: r =>
      if c =? 46 then
        let '(frac, r) := span is_digit r in
        if bool_decide (frac = []) then None
        else Some (frac, - Z.of_nat (length frac), r)
      else Some ([], 0, rest)
  | [] => Some ([], 0, [])
  end.

(** The optional exponent, clamped, and the rest. *)
Definition exponentPart (rest : bytes) : option (Z * bytes) :=
  match rest with
  | c :: r =>
      if (c =? 101) || (c =? 69) then
        let '(expNegative, r) := optional_sign r in
        let '(ds, r) := span is_digit r in
        if bool_decide (ds = []) then None else
        let exp := match strconv_ParseInt ds with
                   | Some e => e
                   | None => exponentClamp
                   end in
        let exp := if exponentClamp <? exp then exponentClamp else exp in
        let exp := if exp <? - exponentClamp then - exponentClamp else exp in
        Some (if expNegative then - exp else exp, r)
      else Some (0, rest)
  | [] => Some (0, [])
  end.

(** decimalParts: digits, base-10 scale and sign of one JSON number literal;
    [None] is the code's [ok = false]. *)
Definition decimalParts (lit : bytes) : option (bytes * Z * bool) :=
  if bool_decide (lit = []) then None else
  let '(negative, r) :=
    match lit with
    | c :: r => if c =? 45 then (true, r) else (false, lit)
    | [] => (false, lit)
    end in
  let '(digits, r) := span is_digit r in
  if bool_decide (digits = []) then None else
  if (1 <? Z.of_nat (length digits)) && bool_decide (head digits = Some 48)
  then None else
  match fractionPart r with
  | None => None
  | Some (frac, scale, r) =>
      match exponentPart r with
      | None => None
      | Some (exp, r) =>
          if bool_decide (r = []) then Some (digits ++ frac, scale + exp, negative)
          else None
      end
  end.

Definition with_sign (negative : bool) (sig : bytes) : bytes :=
  if negative then 45 :: sig else sig.

Definition integerLiteral (raw : bytes) : result num_err bytes :=
  let lit := TrimSpace raw in
  if bool_decide (lit = []) then Err ErrNotNumber else
  match decimalParts lit with
  | None => Err ErrNotNumber
  | Some (digits, scale, negative) =>
      let sig := drop_while is_zero_char digits in
      if bool_decide (sig = []) then Ok [48] else
      if scale <? 0 then
        let drop_ := - scale in
        if Z.of_nat (length sig) <=? drop_ then Err ErrNotInteger else
        let keep := (length sig - Z.to_nat drop_)%nat in
        if negb (forallb is_zero_char (drop keep sig)) then Err ErrNotInteger
        else Ok (with_sign negative (take keep sig))
      else if 0 <? scale then
        if 19 <? Z.of_nat (length sig) + scale then Err ErrOutOfRange
        else Ok (with_sign negative (sig ++ replicate (Z.to_nat scale) 48))
      else Ok (with_sign negative sig)
  end.

Definition ParseInt64 (raw : bytes) : result num_err Z :=
  try signed <- integerLiteral raw;
  match strconv_ParseInt signed with
  | None => Err ErrOutOfRange
  | Some n => Ok n
  end.

(** [int] is 64 bits wide on the supported platforms, so [strconv.Atoi] is
    [strconv.ParseInt] at base 10. *)
Definition Parse (raw : bytes) : result num_err Z :=
  try signed <- integerLiteral raw;
  match strconv_ParseInt signed with
  | None => Err ErrOutOfRange
  | Some n => Ok n
  end.

(** UnixSeconds.UnmarshalJSON: the stored value, or the error. *)
Definition UnixSeconds_UnmarshalJSON (raw : bytes) : result num_err Z :=
  let lit := TrimSpace raw in
  if bool_decide (lit = []) then Err ErrNotNumber else
  match decimalParts lit with
  | None => Err ErrNotNumber
  | Some (digits, scale, negative) =>
      let sig := drop_while is_zero_char digits in
      if bool_decide (sig = []) then Ok 0 else
      if negative then Err ErrNegative else
      let truncated : result num_err (option bytes) :=
        if scale <? 0 then
          let drop_ := - scale in
          if Z.of_nat (length sig) <=? drop_ then Ok None else
          let sig := take (length sig - Z.to_nat drop_) sig in
          if bool_decide (sig = []) then Ok None else Ok (Some sig)
        else if 0 <? scale then
          if 19 <? Z.of_nat (length sig) + scale then Err ErrOutOfRange
          else Ok (Some (sig ++ replicate (Z.to_nat scale) 48))
        else Ok (Some sig) in
      try o <- truncated;
      match o with
      | None => Ok 0
      | Some sig => match strconv_ParseInt sig with
                    | None => Err ErrOutOfRange
                    | Some n => Ok n
                    end
      end
  end.

Definition Int64_UnmarshalJSON (raw : bytes) : result num_err Z :=
  try value <- ParseInt64 raw; Ok value.

(** OptionalInt and OptionalInt64: [Ok None] is the nil pointer, and the error
    carries the field name it reports. *)
Definition OptionalInt (raw field : bytes) : result (bytes * num_err) (option Z) :=
  let trimmed := TrimSpace raw in
  if bool_decide (trimmed = []) || bool_decide (trimmed = str "null")
  then Ok None
  else match Parse raw with
       | Err e => Err (field, e)
       | Ok n => Ok (Some n)
       end.

Definition OptionalInt64 (raw field : bytes) : result (bytes * num_err) (option Z) :=
  let trimmed := TrimSpace raw in
  if bool_decide (trimmed = []) || bool_decide (trimmed = str "null")
  then Ok None
  else match ParseInt64 raw with
       | Err e => Err (field, e)
       | Ok n => Ok (Some n)
       end.

(** ** The JSON number grammar

    An independent reading of RFC 8259's number production, with its printer;
    [decimalParts] is proved to accept exactly its image. *)

Record json_num := JNum {
  jn_neg : bool;
  jn_int : bytes;
  jn_frac : option bytes;
  jn_exp : option (Z * option bool * bytes);  (* e/E, sign ([true] is -), digits *)
}.

Definition digits (l : bytes) : Prop := Forall (fun c => is_digit c = true) l.

Definition wf_frac (f : option bytes) : Prop :=
  match f with None => True | Some d => d <> [] /\ digits d end.
Definition wf_exp (e : option (Z * option bool * bytes)) : Prop :=
  match e with
  | None => True
  | Some (c, _, d) => (c = 101 \/ c = 69) /\ d <> [] /\ digits d
  end.

Definition wf_num (n : json_num) : Prop :=
  jn_int n <> [] /\ digits (jn_int n) /\
  (length (jn_int n) = 1%nat \/ head (jn_int n) <> Some 48) /\
  wf_frac (jn_frac n) /\ wf_exp (jn_exp n).

Definition render_frac (f : option bytes) : bytes :=
  match f with None => [] | Some d => 46 :: d end.
Definition render_exp (e : option (Z * option bool * bytes)) : bytes :=
  match e with
  | None => []
  | Some (c, sg, d) =>
      c :: match sg with None => [] | Some true => [45] | Some false => [43] end
        ++ d
  end.
Definition render (n : json_num) : bytes :=
  with_sign (jn_neg n) (jn_int n ++ render_frac (jn_frac n) ++ render_exp (jn_exp n)).

(** The mathematical value: [mantissa * 10 ^ exponent], with its sign. *)
Definition frac_digits (n : json_num) : bytes := default [] (jn_frac n).
Definition exp_value (e : option (Z * option bool * bytes)) : Z :=
  match e with
  | None => 0
  | Some (_, Some true, d) => - digits_value d
  | Some (_, _, d) => digits_value d
  end.
Definition mantissa (n : json_num) : Z := digits_value (jn_int n ++ frac_digits n).
Definition exponent (n : json_num) : Z :=
  exp_value (jn_exp n) - Z.of_nat (length (frac_digits n)).

(** [denotes n z]: the literal's exact value is the integer [z]. *)
Definition denotes (n : json_num) (z : Z) : Prop :=
  mantissa n * 10 ^ Z.max 0 (exponent n) =
  (if jn_neg n then - z else z) * 10 ^ Z.max 0 (- exponent n).

Definition clamp_exp (e : Z) : Z := Z.max (- exponentClamp) (Z.min exponentClamp e).

Definition parts (n : json_num) : bytes * Z * bool :=
  (jn_int n ++ frac_digits n,
   - Z.of_nat (length (frac_digits n)) + clamp_exp (exp_value (jn_exp n)),
   jn_neg n).

(** ** Digit strings *)

Lemma digits_value_app a b :
  digits_value (a ++ b) =
  digits_value a * 10 ^ Z.of_nat (length b) + digits_value b.
Proof.
  unfold digits_value. rewrite foldl_app.
  generalize (foldl (fun acc c : Z => acc * 10 + (c - 48)) 0 a) as v. intros v.
  induction b as [|c b IH] using rev_ind; [simpl; lia|].
  rewrite !foldl_app, length_app. simpl. rewrite IH.
  replace (Z.of_nat (length b + 1)) with (Z.of_nat (length b) + 1) by lia.
  rewrite Z.pow_add_r by lia. lia.
Qed.

Lemma digits_value_one c : digits_value [c] = c - 48.
Proof. unfold digits_value. simpl. lia. Qed.

Lemma is_digit_range c : is_digit c = true -> 48 <= c <= 57.
Proof. unfold is_digit. lia. Qed.

Lemma digits_value_bound a :
  digits a -> 0 <= digits_value a < 10 ^ Z.of_nat (length a).
Proof.
  intros H. induction H as [|c a Hc Ha IH] using Forall_ind; [by vm_compute|].
  change (c :: a) with ([c] ++ a).
  rewrite digits_value_app, digits_value_one, length_app. simpl length.
  apply is_digit_range in Hc.
  replace (Z.of_nat (1 + length a)) with (1 + Z.of_nat (length a)) by lia.
  rewrite Z.pow_add_r by lia. nia.
Qed.

Lemma digits_value_head a c r :
  digits a -> a = c :: r -> c <> 48 -> 10 ^ Z.of_nat (length r) <= digits_value a.
Proof.
  intros H -> Hc. apply Forall_cons in H as [Hd Hr].
  change (c :: r) with ([c] ++ r).
  rewrite digits_value_app, digits_value_one.
  apply is_digit_range in Hd. pose proof (digits_value_bound r Hr). nia.
Qed.

Lemma digits_value_zeros k : digits_value (replicate k 48) = 0.
Proof.
  induction k as [|k IH]; [done|]. simpl.
  change (48 :: replicate k 48) with ([48] ++ replicate k 48).
  rewrite digits_value_app, digits_value_one, IH. lia.
Qed.

Lemma is_zero_digit c : is_zero_char c = true -> is_digit c = true.
Proof. unfold is_zero_char, is_digit. lia. Qed.

Lemma zeros_value a :
  Forall (fun c => is_zero_char c = true) a -> digits_value a = 0.
Proof.
  intros H. induction H as [|c a Hc Ha IH]; [done|].
  change (c :: a) with ([c] ++ a).
  rewrite digits_value_app, digits_value_one, IH.
  unfold is_zero_char in Hc. lia.
Qed.

Lemma digits_zero_value a :
  digits a -> digits_value a = 0 -> Forall (fun c => is_zero_char c = true) a.
Proof.
  intros H. induction H as [|c a Hc Ha IH]; [constructor|].
  change (c :: a) with ([c] ++ a).
  rewrite digits_value_app, digits_value_one. intros Hv.
  apply is_digit_range in Hc. pose proof (digits_value_bound a Ha) as Hb.
  assert (0 < 10 ^ Z.of_nat (length a)) by (apply Z.pow_pos_nonneg; lia).
  assert (c = 48) by nia. subst c. constructor; [done|]. apply IH. lia.
Qed.

Lemma digits_forallb a : digits a -> forallb is_digit a = true.
Proof. intros H. induction H as [|c a Hc Ha IH]; [done|]. simpl. by rewrite Hc. Qed.

Lemma forallb_digits a : forallb is_digit a = true -> digits a.
Proof.
  induction a as [|c a IH]; simpl; [constructor|].
  intros [? ?]%andb_true_iff. constructor; [done|by apply IH].
Qed.

(** ** decimalParts accepts exactly the grammar *)

Lemma fractionPart_render f r :
  wf_frac f -> stops is_digit r -> head r <> Some 46 ->
  fractionPart (render_frac f ++ r) =
  Some (default [] f, - Z.of_nat (length (default [] f)), r).
Proof.
  intros Hf Hr Hdot. destruct f as [d|]; simpl.
  - destruct Hf as [Hne Hd]. rewrite span_exact by done.
    rewrite bool_decide_eq_false_2; done.
  - destruct r as [|c r]; [done|]. simpl in *.
    destruct (Z.eqb_spec c 46); [congruence|done].
Qed.

Lemma fractionPart_inv rest frac scale r :
  fractionPart rest = Some (frac, scale, r) ->
  exists f, wf_frac f /\ rest = render_frac f ++ r /\ frac = default [] f /\
    scale = - Z.of_nat (length frac).
Proof.
  unfold fractionPart. intros H.
  destruct rest as [|c t]; [injection H as <- <- <-; by exists None|].
  destruct (Z.eqb_spec c 46) as [->|Hc];
    [|injection H as <- <- <-; by exists None].
  pose proof (span_app is_digit t) as Ha. pose proof (span_forall is_digit t) as Hf.
  destruct (span is_digit t) as [fd r'].
  case_bool_decide; [done|]. injection H as <- <- <-.
  exists (Some fd). simpl in *. by subst t.
Qed.

Definition sign_bytes (sg : option bool) : bytes :=
  match sg with None => [] | Some true => [45] | Some false => [43] end.

Lemma optional_sign_digits sg d :
  digits d -> optional_sign (sign_bytes sg ++ d) = (bool_decide (sg = Some true), d).
Proof.
  intros Hd. destruct sg as [[]|]; [done..|]. simpl.
  destruct Hd as [|x d Hx Hd]; [done|]. apply is_digit_range in Hx. simpl.
  destruct (Z.eqb_spec x 45), (Z.eqb_spec x 43); (lia || done).
Qed.

Lemma optional_sign_inv l neg r :
  optional_sign l = (neg, r) ->
  exists sg, l = sign_bytes sg ++ r /\ neg = bool_decide (sg = Some true).
Proof.
  unfold optional_sign. intros H.
  destruct l as [|x t]; [injection H as <- <-; by exists None|].
  destruct (Z.eqb_spec x 45) as [->|]; [injection H as <- <-; by exists (Some true)|].
  destruct (Z.eqb_spec x 43) as [->|]; injection H as <- <-;
    [by exists (Some false)|by exists None].
Qed.

Lemma parse_signed sg ds :
  ds <> [] -> digits ds ->
  strconv_ParseInt (sign_bytes sg ++ ds) =
  let v := if bool_decide (sg = Some true) then - digits_value ds else digits_value ds in
  if bool_decide (in_int64 v) then Some v else None.
Proof.
  intros Hne Hd. unfold strconv_ParseInt.
  rewrite optional_sign_digits, bool_decide_eq_false_2, (digits_forallb _ Hd) by done.
  done.
Qed.

Lemma parse_digits ds :
  ds <> [] -> digits ds ->
  strconv_ParseInt ds =
  if bool_decide (in_int64 (digits_value ds)) then Some (digits_value ds) else None.
Proof. intros Hne Hd. by apply (parse_signed None ds). Qed.

(** The clamped exponent of the code is the clamp of the true exponent. *)
Lemma clamp_digits ds :
  ds <> [] -> digits ds ->
  (let exp := match strconv_ParseInt ds with Some e => e | None => exponentClamp end in
   let exp := if exponentClamp <? exp then exponentClamp else exp in
   if exp <? - exponentClamp then - exponentClamp else exp)
  = Z.min exponentClamp (digits_value ds).
Proof.
  intros Hne Hd. rewrite parse_digits by done.
  pose proof (digits_value_bound ds Hd).
  unfold in_int64, int64_min, int64_max, exponentClamp.
  case_bool_decide; simpl; repeat case_match; lia.
Qed.

Lemma exponentPart_render e r :
  wf_exp e -> stops is_digit r -> e <> None \/ r = [] ->
  exponentPart (render_exp e ++ r) = Some (clamp_exp (exp_value e), r).
Proof.
  intros He Hr Hor. destruct e as [[[c sg] d]|]; simpl; last first.
  { destruct Hor as [? | ->]; done. }
  destruct He as (Hc & Hne & Hd).
  assert (((c =? 101) || (c =? 69)) = true) as -> by lia.
  fold (sign_bytes sg).
  assert (optional_sign ((sign_bytes sg ++ d) ++ r) =
          (bool_decide (sg = Some true), d ++ r)) as ->.
  { destruct sg as [[]|]; [done..|]. destruct d as [|x d]; [done|].
    apply Forall_cons in Hd as [Hx%is_digit_range _]. simpl.
    destruct (Z.eqb_spec x 45), (Z.eqb_spec x 43); (lia || done). }
  rewrite span_exact, bool_decide_eq_false_2 by done.
  pose proof (clamp_digits d Hne Hd) as Hclamp. cbv zeta in Hclamp. rewrite Hclamp.
  pose proof (digits_value_bound d Hd).
  unfold clamp_exp, exponentClamp in *. destruct sg as [[]|]; simpl; do 2 f_equal; lia.
Qed.

Lemma exponentPart_inv rest exp :
  exponentPart rest = Some (exp, []) ->
  exists e, wf_exp e /\ rest = render_exp e /\ exp = clamp_exp (exp_value e).
Proof.
  intros H. pose proof H as H0. unfold exponentPart in H.
  destruct rest as [|c r]; [injection H as <-; by exists None|].
  destruct ((c =? 101) || (c =? 69)) eqn:Hc; [|done].
  destruct (optional_sign r) as [neg t] eqn:Hsg.
  apply optional_sign_inv in Hsg as (sg & -> & ->).
  pose proof (span_app is_digit t) as Ha. pose proof (span_forall is_digit t) as Hf.
  destruct (span is_digit t) as [ds r'].
  case_bool_decide as Hne; [done|]. injection H as _ ->.
  simpl in Ha, Hf. rewrite app_nil_r in Ha. subst t.
  exists (Some (c, sg, ds)).
  assert (Hwf : wf_exp (Some (c, sg, ds))) by (split; [lia|done]).
  split; [done|]. split; [done|].
  pose proof (exponentPart_render (Some (c, sg, ds)) [] Hwf I ltac:(by left)) as Hr.
  rewrite app_nil_r in Hr. simpl in Hr, H0. fold (sign_bytes sg) in Hr.
  rewrite Hr in H0. by injection H0 as <-.
Qed.

Lemma render_exp_stops e : wf_exp e -> stops is_digit (render_exp e).
Proof.
  destruct e as [[[c sg] d]|]; [|done]. intros [[-> | ->] _]; done.
Qed.

Lemma render_exp_not_dot e : wf_exp e -> head (render_exp e) <> Some 46.
Proof.
  destruct e as [[[c sg] d]|]; [|done]. intros [[-> | ->] _]; done.
Qed.

Lemma render_tail_stops f e :
  wf_frac f -> wf_exp e -> stops is_digit (render_frac f ++ render_exp e).
Proof.
  intros Hf He. destruct f as [d|]; simpl; [done|]. by apply render_exp_stops.
Qed.

Lemma decimalParts_render n : wf_num n -> decimalParts (render n) = Some (parts n).
Proof.
  destruct n as [ng i f e]. intros (Hne & Hd & Hz & Hf & He). simpl in *.
  unfold decimalParts, render, with_sign; simpl.
  set (tl := render_frac f ++ render_exp e).
  assert (Hsg : match (if ng then 45 :: i ++ tl else i ++ tl) with
                | c :: r => if c =? 45 then (true, r)
                            else (false, if ng then 45 :: i ++ tl else i ++ tl)
                | [] => (false, if ng then 45 :: i ++ tl else i ++ tl)
                end = (ng, i ++ tl)).
  { destruct ng; [done|]. destruct i as [|x i]; [done|].
    apply Forall_cons in Hd as [Hx%is_digit_range _]. simpl.
    destruct (Z.eqb_spec x 45); [lia|done]. }
  rewrite bool_decide_eq_false_2 by (destruct ng, i; done).
  rewrite Hsg, span_exact by (done || by apply render_tail_stops).
  rewrite bool_decide_eq_false_2 by done.
  assert (((1 <? Z.of_nat (length i)) && bool_decide (head i = Some 48)) = false) as ->.
  { destruct Hz as [-> | Hh]; [done|].
    rewrite bool_decide_eq_false_2 by done. by rewrite andb_false_r. }
  unfold tl. rewrite fractionPart_render
    by (done || by apply render_exp_stops || by apply render_exp_not_dot).
  rewrite <- (app_nil_r (render_exp e)), exponentPart_render
    by (done || by right). done.
Qed.

Lemma decimalParts_inv lit p :
  decimalParts lit = Some p -> exists n, wf_num n /\ render n = lit /\ parts n = p.
Proof.
  unfold decimalParts. case_bool_decide; [done|].
  destruct (match lit with
            | c :: r => if c =? 45 then (true, r) else (false, lit)
            | [] => (false, lit) end) as [ng r0] eqn:Hsg.
  assert (Hlit : lit = with_sign ng r0).
  { destruct lit as [|c r]; [done|].
    destruct (Z.eqb_spec c 45) as [->|]; injection Hsg as <- <-; done. }
  pose proof (span_app is_digit r0) as Ha. pose proof (span_forall is_digit r0) as Hd.
  destruct (span is_digit r0) as [i r1]. simpl in Ha, Hd.
  case_bool_decide as Hne; [done|].
  destruct ((1 <? _) && _) eqn:Hz; [done|].
  destruct (fractionPart r1) as [[[fr sc] r2]|] eqn:Hfr; [|done].
  destruct (exponentPart r2) as [[ex r3]|] eqn:Hex; [|done].
  destruct (decide (r3 = [])) as [-> | ];
    [rewrite bool_decide_eq_true_2 by done | by rewrite bool_decide_eq_false_2].
  intros [= <-].
  apply fractionPart_inv in Hfr as (f & Hf & -> & -> & ->).
  apply exponentPart_inv in Hex as (e & He & -> & ->).
  exists (JNum ng i f e). unfold wf_num. split_and!; simpl; try done.
  - apply andb_false_iff in Hz as [Hz|Hz].
    + left. apply Z.ltb_ge in Hz. destruct i; [done|]. cbn [length] in *. lia.
    + right. by apply bool_decide_eq_false in Hz.
  - rewrite Hlit, <- Ha. done.
Qed.

(** ** From the literal to the integer *)

(** [sig] is the significand [integerLiteral] and [UnixSeconds] work on. *)
Definition sig_of (n : json_num) : bytes :=
  drop_while is_zero_char (jn_int n ++ frac_digits n).

Lemma wf_digits n : wf_num n -> digits (jn_int n ++ frac_digits n).
Proof.
  intros (_ & Hd & _ & Hf & _). apply Forall_app. split; [done|].
  unfold frac_digits. destruct (jn_frac n); [apply Hf|constructor].
Qed.

Lemma sig_props n :
  wf_num n ->
  digits (sig_of n) /\ digits_value (sig_of n) = mantissa n /\
  (sig_of n = [] <-> mantissa n = 0) /\
  (sig_of n <> [] -> 10 ^ (Z.of_nat (length (sig_of n)) - 1) <= mantissa n).
Proof.
  intros Hwf. pose proof (wf_digits n Hwf) as Hd. unfold sig_of, mantissa.
  set (ds := jn_int n ++ frac_digits n) in *.
  destruct (drop_while_suffix is_zero_char ds) as (p & Hp & Hz).
  pose proof (drop_while_stops is_zero_char ds) as Hst.
  set (sg := drop_while is_zero_char ds) in *. clearbody sg ds. subst ds.
  apply Forall_app in Hd as [_ Hsg].
  rewrite digits_value_app, (zeros_value p Hz), Z.mul_0_l, Z.add_0_l.
  split_and!; [done..| |].
  - split; [by intros ->|]. intros H0.
    pose proof (digits_zero_value sg Hsg H0) as Hall.
    destruct sg as [|c sg]; [done|]. apply Forall_cons in Hall as [Hc _].
    simpl in Hst. congruence.
  - intros Hne. destruct sg as [|c sg]; [done|].
    replace (Z.of_nat (length (c :: sg)) - 1) with (Z.of_nat (length sg))
      by (simpl; lia).
    eapply digits_value_head; [done|done|].
    simpl in Hst. unfold is_zero_char in Hst. lia.
Qed.

Lemma split_value sg k :
  digits sg -> (k <= length sg)%nat ->
  digits_value sg =
  digits_value (take k sg) * 10 ^ Z.of_nat (length sg - k) + digits_value (drop k sg)
  /\ 0 <= digits_value (drop k sg) < 10 ^ Z.of_nat (length sg - k).
Proof.
  intros Hd Hk. split.
  - rewrite <- (take_drop k sg) at 1. rewrite digits_value_app, length_drop. lia.
  - rewrite <- length_drop. apply digits_value_bound. by apply Forall_drop.
Qed.

(** The canonical spelling [integerLiteral] hands to [strconv] spells [z]. *)
Definition spells (s : bytes) (z : Z) : Prop :=
  exists sg ds, s = sign_bytes sg ++ ds /\ ds <> [] /\ digits ds /\
    z = if bool_decide (sg = Some true) then - digits_value ds else digits_value ds.

Lemma spells_parse s z :
  spells s z -> strconv_ParseInt s = if bool_decide (in_int64 z) then Some z else None.
Proof. intros (sg & ds & -> & Hne & Hd & ->). by rewrite parse_signed. Qed.

Lemma with_sign_spells ng ds :
  ds <> [] -> digits ds ->
  spells (with_sign ng ds) (if ng then - digits_value ds else digits_value ds).
Proof.
  intros Hne Hd. exists (if ng then Some true else None), ds.
  destruct ng; split_and!; done.
Qed.

(** The true scale and the clamped one agree wherever either is decisive, for
    a literal shorter than the clamp. *)
Definition scale_of (n : json_num) : Z :=
  - Z.of_nat (length (frac_digits n)) + clamp_exp (exp_value (jn_exp n)).

Definition short (n : json_num) : Prop :=
  Z.of_nat (length (jn_int n ++ frac_digits n)) < 2 ^ 29.

Lemma scale_cases n :
  short n ->
  scale_of n = exponent n \/
  (2 ^ 29 < scale_of n /\ 2 ^ 29 < exponent n) \/
  (scale_of n < - 2 ^ 29 /\ exponent n < - 2 ^ 29).
Proof.
  unfold short, scale_of, exponent, clamp_exp, exponentClamp.
  rewrite length_app. lia.
Qed.

Lemma sig_length n : Z.of_nat (length (sig_of n)) <= Z.of_nat (length (jn_int n ++ frac_digits n)).
Proof.
  unfold sig_of. generalize (jn_int n ++ frac_digits n) as ds. intros ds.
  destruct (drop_while_suffix is_zero_char ds) as (p & Hp & _).
  apply (f_equal length) in Hp. rewrite length_app in Hp. lia.
Qed.

(** What [integerLiteral] must answer for the number [n]. *)
Inductive literal_spec (n : json_num) : result num_err bytes -> Prop :=
  | lit_value s z : denotes n z -> spells s z -> literal_spec n (Ok s)
  | lit_fraction : (forall z, ~ denotes n z) -> literal_spec n (Err ErrNotInteger)
  | lit_range z : denotes n z -> ~ in_int64 z -> literal_spec n (Err ErrOutOfRange).

Lemma denotes_zero n : mantissa n = 0 -> denotes n 0.
Proof. intros H. unfold denotes. rewrite H. by destruct (jn_neg n). Qed.

Lemma denotes_neg n m :
  mantissa n * 10 ^ Z.max 0 (exponent n) = m * 10 ^ Z.max 0 (- exponent n) ->
  denotes n (if jn_neg n then - m else m).
Proof. unfold denotes. destruct (jn_neg n); by rewrite ?Z.opp_involutive. Qed.

Lemma pow10_pos k : 0 < 10 ^ Z.max 0 k.
Proof. apply Z.pow_pos_nonneg; lia. Qed.

(** Resolve every [Z.max 0 e] whose sign the context decides. *)
Ltac max0 :=
  repeat match goal with
  | |- context [Z.max 0 ?e] =>
      first [replace (Z.max 0 e) with e by lia | replace (Z.max 0 e) with 0 by lia]
  | H : context [Z.max 0 ?e] |- _ =>
      first [replace (Z.max 0 e) with e in H by lia
            |replace (Z.max 0 e) with 0 in H by lia]
  end.

(** A nonzero number below one in magnitude is not an integer. *)
Lemma small_not_integer n :
  0 < mantissa n < 10 ^ (- exponent n) -> exponent n < 0 ->
  forall z, ~ denotes n z.
Proof.
  unfold denotes. intros Hm He z.
  max0.
  set (P := 10 ^ - exponent n) in *. clearbody P. set (w := if jn_neg n then - z else z).
  clearbody w. rewrite Z.mul_1_r. intros Hz.
  assert (0 < w) by nia. assert (w < 1) by nia. lia.
Qed.

Lemma large_out_of_range n :
  10 ^ 19 <= mantissa n * 10 ^ exponent n -> 0 <= exponent n ->
  exists z, denotes n z /\ ~ in_int64 z.
Proof.
  intros Hm He. exists (if jn_neg n then - (mantissa n * 10 ^ exponent n)
                       else mantissa n * 10 ^ exponent n).
  split.
  - apply denotes_neg. max0. lia.
  - unfold in_int64, int64_min, int64_max.
    assert (2 ^ 63 < 10 ^ 19) by done. destruct (jn_neg n); lia.
Qed.

Lemma forallb_zero l : digits l ->
  forallb is_zero_char l = true <-> digits_value l = 0.
Proof.
  intros Hd. split.
  - intros H. apply zeros_value. apply Forall_forall. intros x Hx.
    rewrite forallb_forall in H. apply H. by apply list_elem_of_In.
  - intros H. apply forallb_forall. intros x Hx%list_elem_of_In.
    pose proof (digits_zero_value l Hd H) as Hz.
    by eapply Forall_forall in Hz.
Qed.

(** The branch of [integerLiteral] with a negative scale. *)
Lemma integerLiteral_negative n :
  wf_num n -> short n -> sig_of n <> [] -> scale_of n < 0 ->
  literal_spec n
    (if Z.of_nat (length (sig_of n)) <=? - scale_of n then Err ErrNotInteger else
     let keep := (length (sig_of n) - Z.to_nat (- scale_of n))%nat in
     if negb (forallb is_zero_char (drop keep (sig_of n))) then Err ErrNotInteger
     else Ok (with_sign (jn_neg n) (take keep (sig_of n)))).
Proof.
  intros Hwf Hs Hne Hsc.
  destruct (sig_props n Hwf) as (Hd & Hv & H0 & Hlo). specialize (Hlo Hne).
  pose proof (digits_value_bound _ Hd) as Hb. rewrite Hv in Hb.
  assert (0 < 10 ^ (Z.of_nat (length (sig_of n)) - 1)) as Hpos.
  { apply Z.pow_pos_nonneg; [lia|]. destruct (sig_of n); [done|]. cbn [length]. lia. }
  pose proof (sig_length n) as Hl. pose proof (scale_cases n Hs) as Hc.
  unfold short in Hs.
  case_match eqn:Hle.
  - constructor. apply small_not_integer; [|lia]. split; [lia|].
    eapply Z.lt_le_trans; [apply Hb|]. apply Z.pow_le_mono_r; lia.
  - assert (scale_of n = exponent n) as He by lia. rewrite He in *.
    set (keep := (length (sig_of n) - Z.to_nat (- exponent n))%nat).
    destruct (split_value (sig_of n) keep Hd ltac:(lia)) as [Hsp Hdr].
    assert (Z.of_nat (length (sig_of n) - keep) = - exponent n) as Hk by lia.
    rewrite Hk, Hv in *. cbv zeta.
    assert (Hdd : digits (drop keep (sig_of n))) by by apply Forall_drop.
    assert (0 < 10 ^ (- exponent n)) by (apply Z.pow_pos_nonneg; lia).
    destruct (forallb is_zero_char (drop keep (sig_of n))) eqn:Hz; simpl.
    + apply forallb_zero in Hz; [|done]. rewrite Hz, Z.add_0_r in Hsp.
      eapply lit_value; [|apply with_sign_spells].
      * apply denotes_neg. max0. rewrite Hsp. lia.
      * intros Hnil. apply (f_equal length) in Hnil. rewrite length_take in Hnil.
        simpl in Hnil. lia.
      * by apply Forall_take.
    + constructor. intros z Hden. unfold denotes in Hden.
      max0.
      assert (digits_value (drop keep (sig_of n)) <> 0) as Hnz.
      { intros Hc0. apply forallb_zero in Hc0; [congruence|done]. }
      set (w := if jn_neg n then - z else z) in *. clearbody w.
      set (P := 10 ^ (- exponent n)) in *. clearbody P.
      set (a := digits_value (take keep (sig_of n))) in *. clearbody a.
      set (b := digits_value (drop keep (sig_of n))) in *. clearbody b.
      rewrite Hsp, Z.pow_0_r, Z.mul_1_r in Hden.
      assert (b = (w - a) * P) as Hbw by lia. clear - Hbw Hdr Hnz.
      destruct (Z.lt_trichotomy (w - a) 0) as [|[|]]; nia.
Qed.

Lemma integerLiteral_positive n :
  wf_num n -> short n -> sig_of n <> [] -> 0 <= scale_of n ->
  literal_spec n
    (if 0 <? scale_of n then
       if 19 <? Z.of_nat (length (sig_of n)) + scale_of n then Err ErrOutOfRange
       else Ok (with_sign (jn_neg n)
                  (sig_of n ++ replicate (Z.to_nat (scale_of n)) 48))
     else Ok (with_sign (jn_neg n) (sig_of n))).
Proof.
  intros Hwf Hs Hne Hsc.
  destruct (sig_props n Hwf) as (Hd & Hv & H0 & Hlo). specialize (Hlo Hne).
  pose proof (sig_length n) as Hl. pose proof (scale_cases n Hs) as Hc.
  unfold short in Hs.
  assert (0 < Z.of_nat (length (sig_of n))) by (destruct (sig_of n); [done|simpl length; lia]).
  assert (Hval : scale_of n = exponent n ->
    denotes n (if jn_neg n then - (mantissa n * 10 ^ exponent n)
               else mantissa n * 10 ^ exponent n)).
  { intros He. apply denotes_neg.
    max0. lia. }
  destruct (Z.ltb_spec 0 (scale_of n)); [destruct (Z.ltb_spec 19 (Z.of_nat (length (sig_of n)) + scale_of n))|].
  - destruct (large_out_of_range n) as (z & ? & ?); [|lia|by eapply lit_range].
    assert (10 ^ 19 <= 10 ^ (Z.of_nat (length (sig_of n)) - 1 + exponent n))
      by (apply Z.pow_le_mono_r; lia).
    rewrite Z.pow_add_r in * by lia.
    assert (0 < 10 ^ exponent n) by (apply Z.pow_pos_nonneg; lia). nia.
  - assert (scale_of n = exponent n) as He by lia.
    eapply lit_value; [by apply Hval|].
    replace (mantissa n * 10 ^ exponent n) with
      (digits_value (sig_of n ++ replicate (Z.to_nat (scale_of n)) 48)).
    + apply with_sign_spells; [by destruct (sig_of n)|]. apply Forall_app.
      split; [done|]. by apply Forall_replicate.
    + rewrite digits_value_app, digits_value_zeros, length_replicate, Hv.
      rewrite Z2Nat.id, He by lia. lia.
  - assert (scale_of n = exponent n) as He by lia.
    eapply lit_value; [by apply Hval|].
    replace (exponent n) with 0 by lia. rewrite Z.pow_0_r, Z.mul_1_r, <- Hv.
    by apply with_sign_spells.
Qed.

Lemma number_nonempty n : wf_num n -> render n <> [].
Proof.
  intros (Hne & _). unfold render, with_sign.
  destruct (jn_neg n); [done|]. by destruct (jn_int n).
Qed.

Lemma integerLiteral_spec raw n :
  wf_num n -> short n -> TrimSpace raw = render n ->
  literal_spec n (integerLiteral raw).
Proof.
  intros Hwf Hs Hraw. unfold integerLiteral. rewrite Hraw.
  rewrite bool_decide_eq_false_2 by by apply number_nonempty.
  rewrite decimalParts_render by done. unfold parts. fold (scale_of n). fold (sig_of n).
  destruct (sig_props n Hwf) as (_ & _ & H0 & _).
  case_bool_decide as Hsig.
  - eapply (lit_value _ _ 0); [by apply denotes_zero, H0|].
    exists None, [48]. split_and!; try done. by repeat constructor.
  - destruct (Z.ltb_spec (scale_of n) 0).
    + by apply integerLiteral_negative.
    + by apply integerLiteral_positive.
Qed.

Lemma denotes_inj n z z' : denotes n z -> denotes n z' -> z = z'.
Proof.
  unfold denotes. pose proof (pow10_pos (- exponent n)).
  intros Hz Hz'. rewrite Hz in Hz'. apply Z.mul_cancel_r in Hz'; [|lia].
  destruct (jn_neg n); lia.
Qed.

(** ** Printing (strconv.FormatInt), for the round trip *)

Fixpoint format_nat_aux (fuel : nat) (v : Z) (acc : bytes) : bytes :=
  match fuel with
  | O => acc
  | S fuel =>
      let acc := (48 + v mod 10) :: acc in
      if v <? 10 then acc else format_nat_aux fuel (v / 10) acc
  end.

(** [strconv.FormatInt z 10]; twenty digits cover every 64-bit value. *)
Definition FormatInt (z : Z) : bytes :=
  if z <? 0 then 45 :: format_nat_aux 20 (- z) [] else format_nat_aux 20 z [].

Lemma format_nat_aux_spec fuel v acc :
  0 <= v < 10 ^ Z.of_nat fuel -> (0 < fuel)%nat ->
  exists ds, format_nat_aux fuel v acc = ds ++ acc /\ ds <> [] /\ digits ds /\
    digits_value ds = v /\ (length ds = 1%nat \/ head ds <> Some 48).
Proof.
  revert v acc. induction fuel as [|fuel IH]; intros v acc Hv Hf; [lia|].
  cbn [format_nat_aux].
  pose proof (Z.mod_pos_bound v 10 ltac:(lia)) as Hm.
  assert (Hd : is_digit (48 + v mod 10) = true) by (unfold is_digit; lia).
  destruct (Z.ltb_spec v 10).
  - exists [48 + v mod 10]. split_and!; [done|done|by constructor| |by left].
    rewrite digits_value_one, Z.mod_small by lia. lia.
  - destruct (IH (v / 10) ((48 + v mod 10) :: acc)) as (ds & He & Hne & Hds & Hval & Hh).
    { split; [apply Z.div_pos; lia|]. apply Z.div_lt_upper_bound; [lia|].
      rewrite <- Z.pow_succ_r, <- Nat2Z.inj_succ by lia. lia. }
    { destruct fuel; [|lia]. cbn in Hv. lia. }
    exists (ds ++ [48 + v mod 10]). rewrite He, <- app_assoc.
    split_and!; [done|by destruct ds|by apply Forall_app; split; [|constructor]| |].
    + rewrite digits_value_app, digits_value_one, Hval. cbn [length].
      pose proof (Z.div_mod v 10 ltac:(lia)). lia.
    + right. destruct ds as [|d ds]; [done|]. cbn. destruct Hh as [Hl|Hh]; [|done].
      destruct ds; [|done]. intros [= ->]. rewrite digits_value_one in Hval.
      assert (1 <= v / 10) by (apply Z.div_le_lower_bound; lia). lia.
Qed.

Lemma FormatInt_render z :
  in_int64 z -> exists ds, wf_num (JNum (z <? 0) ds None None) /\
    FormatInt z = render (JNum (z <? 0) ds None None) /\
    digits_value ds = Z.abs z /\ Z.of_nat (length ds) <= 20.
Proof.
  unfold in_int64, int64_min, int64_max. intros Hz.
  destruct (format_nat_aux_spec 20 (Z.abs z) [] ltac:(lia) ltac:(lia))
    as (ds & He & Hne & Hds & Hv & Hh).
  exists ds. rewrite app_nil_r in He.
  assert (Hlen : forall fuel v acc,
    Z.of_nat (length (format_nat_aux fuel v acc)) <= Z.of_nat fuel + Z.of_nat (length acc)).
  { clear. induction fuel as [|fuel IH]; intros v acc; cbn [format_nat_aux]; [lia|].
    case_match; [cbn [length]; lia|]. specialize (IH (v / 10) ((48 + v mod 10) :: acc)).
    cbn [length] in IH. lia. }
  split_and!; [by split_and!| |done|].
  - unfold FormatInt, render; cbn. rewrite app_nil_r.
    destruct (Z.ltb_spec z 0); cbn [with_sign].
    + by rewrite <- He, Z.abs_neq by lia.
    + by rewrite <- He, Z.abs_eq by lia.
  - rewrite <- He. specialize (Hlen 20%nat (Z.abs z) []). cbn [length] in Hlen. lia.
Qed.

(** [TrimSpace] leaves a literal alone: no byte of a JSON number is a space. *)
Lemma digits_graphic d : digits d -> Forall graphic d.
Proof. intros Hd. eapply Forall_impl; [exact Hd|]. intros c Hc%is_digit_range. unfold graphic. lia. Qed.

Lemma render_graphic n : wf_num n -> Forall graphic (render n).
Proof.
  destruct n as [ng i f e]. intros (_ & Hd & _ & Hf & He). cbn in *. unfold render. cbn.
  assert (H : Forall graphic (i ++ render_frac f ++ render_exp e)).
  { rewrite !Forall_app. split; [by apply digits_graphic|]. split.
    - destruct f as [d|]; [|done]. destruct Hf. constructor; [done|by apply digits_graphic].
    - destruct e as [[[c sg] d]|]; [|done]. destruct He as (Hc & _ & Hdd). constructor.
      + unfold graphic. destruct Hc; lia.
      + apply Forall_app. split; [destruct sg as [[]|]; by repeat constructor|by apply digits_graphic]. }
  destruct ng; [by constructor|done].
Qed.

Lemma render_trimmed n : wf_num n -> TrimSpace (render n) = render n.
Proof.
  intros Hwf. rewrite <- (app_nil_r (render n)) at 1. apply TrimSpace_blanks; [|by apply render_graphic|done].
  by apply number_nonempty.
Qed.

Lemma integerLiteral_not_number raw :
  integerLiteral raw = Err ErrNotNumber <-> decimalParts (TrimSpace raw) = None.
Proof.
  unfold integerLiteral. case_bool_decide as Hl; [by rewrite Hl|].
  destruct (decimalParts (TrimSpace raw)) as [[[ds sc] ng]|]; [|done].
  repeat case_match; split; done.
Qed.

(** The whole truncated value of a non-negative number. *)
Definition whole (n : json_num) : Z :=
  mantissa n * 10 ^ Z.max 0 (exponent n) / 10 ^ Z.max 0 (- exponent n).

Lemma whole_negative n k :
  exponent n < 0 -> (k <= length (sig_of n))%nat -> wf_num n ->
  Z.of_nat (length (sig_of n) - k) = - exponent n ->
  whole n = digits_value (take k (sig_of n)).
Proof.
  intros He Hk Hwf Hlen. destruct (sig_props n Hwf) as (Hd & Hv & _).
  destruct (split_value (sig_of n) k Hd Hk) as [Hsp Hb].
  unfold whole. max0. rewrite Z.pow_0_r, Z.mul_1_r, <- Hv, Hsp, Hlen.
  rewrite Hlen in Hb.
  rewrite Z.div_add_l by lia. rewrite Z.div_small by lia. lia.
Qed.

Lemma parse_range sg v :
  sg <> [] -> digits sg -> digits_value sg = v ->
  match strconv_ParseInt sg with None => @Err num_err Z ErrOutOfRange | Some n => Ok n end =
  if bool_decide (in_int64 v) then Ok v else Err ErrOutOfRange.
Proof. intros Hne Hd <-. rewrite parse_digits by done. by case_bool_decide. Qed.

Lemma whole_small n : 0 <= mantissa n < 10 ^ (- exponent n) -> exponent n < 0 -> whole n = 0.
Proof.
  intros H He. unfold whole. max0. rewrite Z.pow_0_r, Z.mul_1_r. by apply Z.div_small.
Qed.

(** UnixSeconds past the sign and zero checks. *)
Lemma UnixSeconds_value raw n :
  wf_num n -> short n -> TrimSpace raw = render n -> sig_of n <> [] ->
  jn_neg n = false ->
  UnixSeconds_UnmarshalJSON raw =
  if bool_decide (in_int64 (whole n)) then Ok (whole n) else Err ErrOutOfRange.
Proof.
  intros Hwf Hs Hraw Hsig Hpos. unfold UnixSeconds_UnmarshalJSON. rewrite Hraw.
  rewrite bool_decide_eq_false_2 by by apply number_nonempty.
  rewrite decimalParts_render by done. unfold parts. fold (scale_of n) (sig_of n).
  rewrite Hpos, bool_decide_eq_false_2 by done.
  destruct (sig_props n Hwf) as (Hd & Hv & _ & Hlo). specialize (Hlo Hsig).
  pose proof (digits_value_bound _ Hd) as Hb. rewrite Hv in Hb.
  pose proof (sig_length n) as Hl. pose proof (scale_cases n Hs) as Hc. unfold short in Hs.
  assert (0 < Z.of_nat (length (sig_of n))) by (destruct (sig_of n); [done|cbn [length]; lia]).
  assert (Hz : forall v, v = 0 -> bool_decide (in_int64 v) = true).
  { intros v ->. by apply bool_decide_eq_true_2. }
  destruct (Z.ltb_spec (scale_of n) 0); [destruct (Z.leb_spec (Z.of_nat (length (sig_of n))) (- scale_of n))|].
  - assert (whole n = 0) as Hw0.
    { apply whole_small; [|lia]. split; [lia|].
      eapply Z.lt_le_trans; [apply Hb|]. apply Z.pow_le_mono_r; lia. }
    by rewrite Hz, Hw0.
  - assert (scale_of n = exponent n) as He by lia.
    set (k := (length (sig_of n) - Z.to_nat (- scale_of n))%nat).
    assert (Hne : take k (sig_of n) <> []).
    { intros Hn%(f_equal length). rewrite length_take in Hn. simpl in Hn. lia. }
    rewrite bool_decide_eq_false_2 by done.
    apply parse_range; [done|by apply Forall_take|].
    symmetry. apply whole_negative; [lia|lia|done|lia].
  - destruct (Z.ltb_spec 0 (scale_of n)); [destruct (Z.ltb_spec 19 (Z.of_nat (length (sig_of n)) + scale_of n))|].
    + rewrite bool_decide_eq_false_2; [done|].
      assert (10 ^ 19 <= whole n); [|unfold in_int64, int64_max; assert (2 ^ 63 < 10 ^ 19) by done; lia].
      unfold whole. max0. rewrite Z.pow_0_r, Z.div_1_r.
      assert (10 ^ 19 <= 10 ^ (Z.of_nat (length (sig_of n)) - 1 + exponent n))
        by (apply Z.pow_le_mono_r; lia).
      rewrite Z.pow_add_r in * by lia.
      assert (0 < 10 ^ exponent n) by (apply Z.pow_pos_nonneg; lia). nia.
    + assert (scale_of n = exponent n) as He by lia.
      apply parse_range; [by destruct (sig_of n)|apply Forall_app; split; [done|by apply Forall_replicate]|].
      rewrite digits_value_app, digits_value_zeros, length_replicate, Hv, Z2Nat.id, He by lia.
      unfold whole. max0. rewrite Z.pow_0_r, Z.div_1_r. lia.
    + assert (scale_of n = exponent n) as He by lia.
      apply parse_range; [done..|].
      unfold whole. replace (exponent n) with 0 by lia. simpl. rewrite Z.mul_1_r, Z.div_1_r. done.
Qed.

(** ** Properties *)

(** [decimalParts] accepts exactly the JSON number grammar: it answers
    digits, scale and sign precisely on the printed image of a well-formed
    number, and they are that number's parts. *)
Theorem decimalParts_grammar lit p :
  decimalParts lit = Some p <-> exists n, wf_num n /\ render n = lit /\ parts n = p.
Proof.
  split; [apply decimalParts_inv|]. intros (n & Hwf & <- & <-).
  by apply decimalParts_render.
Qed.

(** [ParseInt64] is exact: on any JSON number (surrounded by spaces or
    not) it returns the literal's mathematical value when that is an integer
    that fits int64, [ErrNotInteger] exactly for a fractional value and
    [ErrOutOfRange] exactly for an integral value outside int64. The exponent
    clamp never changes the verdict. *)
Theorem ParseInt64_exact raw n :
  wf_num n -> short n -> TrimSpace raw = render n ->
  match ParseInt64 raw with
  | Ok z => denotes n z /\ in_int64 z
  | Err ErrNotInteger => forall z, ~ denotes n z
  | Err ErrOutOfRange => exists z, denotes n z /\ ~ in_int64 z
  | Err _ => False
  end.
Proof.
  intros Hwf Hs Hraw. unfold ParseInt64.
  destruct (integerLiteral_spec raw n Hwf Hs Hraw) as [s z Hden Hsp | Hno | z Hden Hr].
  - rewrite (spells_parse s z Hsp). case_bool_decide; [done|by exists z].
  - done.
  - by exists z.
Qed.

(** [ErrNotNumber] is answered exactly on what is not a JSON number. *)
Theorem ParseInt64_not_number raw :
  ParseInt64 raw = Err ErrNotNumber <->
  ~ exists n, wf_num n /\ render n = TrimSpace raw.
Proof.
  transitivity (integerLiteral raw = Err ErrNotNumber).
  { unfold ParseInt64. destruct (integerLiteral raw); [|naive_solver].
    case_match; split; done. }
  rewrite integerLiteral_not_number. split.
  - intros Hd (n & Hwf & Hr). rewrite <- Hr, decimalParts_render in Hd by done. done.
  - intros Hno. destruct (decimalParts (TrimSpace raw)) as [p|] eqn:E; [|done].
    apply decimalParts_inv in E as (n & ? & ? & _). destruct Hno. by exists n.
Qed.

(** Printing an int64 in decimal and parsing it back is the identity. *)
Theorem ParseInt64_FormatInt z : in_int64 z -> ParseInt64 (FormatInt z) = Ok z.
Proof.
  intros Hz. destruct (FormatInt_render z Hz) as (ds & Hwf & Hr & Hv & Hlen).
  set (n := JNum (z <? 0) ds None None) in *. rewrite Hr.
  assert (Hden : denotes n z).
  { unfold denotes, mantissa, exponent. subst n; cbn. rewrite app_nil_r, Hv, !Z.mul_1_r.
    destruct (Z.ltb_spec z 0); lia. }
  unfold ParseInt64.
  destruct (integerLiteral_spec (render n) n Hwf) as [s z' Hden' Hsp | Hno | z' Hden' Hout].
  - unfold short. subst n; cbn. rewrite app_nil_r. lia.
  - by apply render_trimmed.
  - rewrite (spells_parse s z' Hsp), <- (denotes_inj n z z' Hden Hden').
    by rewrite bool_decide_eq_true_2.
  - by destruct (Hno z).
  - by rewrite <- (denotes_inj n z z' Hden Hden') in Hout.
Qed.

(** A Unix-seconds member truncates toward zero: zero in any spelling is
    0, a negative value is refused before truncation, and any other value is
    its whole part when that fits int64. *)
Theorem UnixSeconds_truncates raw n :
  wf_num n -> short n -> TrimSpace raw = render n ->
  UnixSeconds_UnmarshalJSON raw =
  if bool_decide (mantissa n = 0) then Ok 0 else
  if jn_neg n then Err ErrNegative else
  if bool_decide (in_int64 (whole n)) then Ok (whole n) else Err ErrOutOfRange.
Proof.
  intros Hwf Hs Hraw. destruct (sig_props n Hwf) as (_ & _ & H0 & _).
  destruct (decide (mantissa n = 0)) as [Hm|Hm].
  - rewrite bool_decide_eq_true_2 by done. apply H0 in Hm.
    unfold UnixSeconds_UnmarshalJSON. rewrite Hraw.
    rewrite bool_decide_eq_false_2 by by apply number_nonempty.
    rewrite decimalParts_render by done. unfold parts. fold (sig_of n).
    by rewrite bool_decide_eq_true_2.
  - rewrite bool_decide_eq_false_2 by done.
    destruct (jn_neg n) eqn:Hn; [|by apply UnixSeconds_value; naive_solver].
    unfold UnixSeconds_UnmarshalJSON. rewrite Hraw.
    rewrite bool_decide_eq_false_2 by by apply number_nonempty.
    rewrite decimalParts_render by done. unfold parts. fold (sig_of n).
    rewrite bool_decide_eq_false_2 by naive_solver. by rewrite Hn.
Qed.

(** ** Witnesses *)

(** [" 1.5e1\n"] is the number 15. *)
Lemma ParseInt64_exact_witness :
  ParseInt64 (str " 1.5e1 ") = Ok 15 /\
  denotes (JNum false (str "1") (Some (str "5")) (Some (101, None, str "1"))) 15.
Proof.
  assert (ParseInt64 (str " 1.5e1 ") = Ok 15) as E by by vm_compute.
  pose proof (ParseInt64_exact (str " 1.5e1 ")
    (JNum false (str "1") (Some (str "5")) (Some (101, None, str "1")))) as H.
  rewrite E in H. split; [done|]. apply H.
  - unfold wf_num, digits; simpl. split_and!; try done; try (by left); repeat constructor.
  - by unfold short.
  - by vm_compute.
Defined.

Lemma ParseInt64_FormatInt_witness :
  ParseInt64 (FormatInt (-9223372036854775808)) = Ok (-9223372036854775808).
Proof. apply ParseInt64_FormatInt. by unfold in_int64, int64_min, int64_max. Defined.

Lemma UnixSeconds_truncates_witness :
  UnixSeconds_UnmarshalJSON (str "1.9") = Ok 1.
Proof.
  rewrite (UnixSeconds_truncates (str "1.9") (JNum false (str "1") (Some (str "9")) None)).
  - by vm_compute.
  - unfold wf_num, digits; simpl. split_and!; try done; try (by left); repeat constructor.
  - by unfold short.
  - by vm_compute.
Defined.

(** ** Parse, for its callers *)

Lemma short_render n : Z.of_nat (length (render n)) < 2 ^ 29 -> short n.
Proof.
  unfold short, render, frac_digits. intros Hl. rewrite length_app. destruct n as [ng i f e]. cbn in *.
  assert (Hw : forall s, (length s <= length (with_sign ng s))%nat) by (intros s; destruct ng; cbn; lia).
  specialize (Hw (i ++ render_frac f ++ render_exp e)). rewrite !length_app in Hw.
  assert (length (default [] f) <= length (render_frac f))%nat by (destruct f; cbn; lia). lia.
Qed.

(** Parse answers [z] exactly on the spellings of a JSON number whose value is
    the int64 [z]. *)
Lemma Parse_Ok raw z : Z.of_nat (length (TrimSpace raw)) < 2 ^ 29 ->
  Parse raw = Ok z <->
  exists n, wf_num n /\ render n = TrimSpace raw /\ denotes n z /\ in_int64 z.
Proof.
  intros Hl. unfold Parse. split.
  - intros Hp. destruct (decimalParts (TrimSpace raw)) as [p|] eqn:Ep.
    2: { apply integerLiteral_not_number in Ep. by rewrite Ep in Hp. }
    destruct (decimalParts_inv _ _ Ep) as (n & Hwf & Hr & _). exists n. split; [done|]. split; [done|].
    assert (Hs : short n) by (apply short_render; by rewrite Hr).
    destruct (integerLiteral_spec raw n Hwf Hs (eq_sym Hr)) as [s z' Hden Hsp| |]; try done. cbn in Hp.
    rewrite (spells_parse s z' Hsp) in Hp. case_bool_decide; [|done]. by injection Hp as <-.
  - intros (n & Hwf & Hr & Hden & Hin). assert (Hs : short n) by (apply short_render; by rewrite Hr).
    destruct (integerLiteral_spec raw n Hwf Hs (eq_sym Hr)) as [s z' Hden' Hsp|Hno|z' Hden' Hout].
    + cbn. rewrite (spells_parse s z' Hsp), <- (denotes_inj n z z' Hden Hden'). by rewrite bool_decide_true.
    + by destruct (Hno z).
    + by rewrite <- (denotes_inj n z z' Hden Hden') in Hout.
Qed.
