(* ===== verification/Proto.v ===== *)
(** internal/format/proto.go: protobuf wire-format primitives, the field
    parser with its frame-wide budget, and the google.protobuf.Value shim. *)

From S2P Require Import Prelude.

Set Warnings "-register-all".

(** ** Writing *)

Definition wireVarint : Z := 0.
Definition wireBytes : Z := 2.
Definition protoValueMaxDepth : Z := 128.
Definition protoFieldCountMax : Z := 2 ^ 16.

(** The loop of appendVarint; ten groups of seven bits cover a uint64. *)
Fixpoint varint_groups (fuel : nat) (v : Z) : bytes :=
  match fuel with
  | O => []
  | S fuel =>
      if 128 <=? v
      then Z.lor (v mod 256) 128 :: varint_groups fuel (Z.shiftr v 7)
      else [v mod 256]
  end.
Definition appendVarint (dst : bytes) (v : Z) : bytes := dst ++ varint_groups 10 v.

Definition tag_key (field wire : Z) : Z := u64 (Z.lor (wrap64 (Z.shiftl field 3)) wire).
Definition appendTag (dst : bytes) (field wire : Z) : bytes :=
  appendVarint dst (tag_key field wire).

Definition appendString (dst : bytes) (field : Z) (s : bytes) : bytes :=
  if bool_decide (s = []) then dst else
  let dst := appendTag dst field wireBytes in
  let dst := appendVarint dst (Z.of_nat (length s)) in
  dst ++ s.

Definition appendBytes (dst : bytes) (field : Z) (b : bytes) : bytes :=
  let dst := appendTag dst field wireBytes in
  let dst := appendVarint dst (Z.of_nat (length b)) in
  dst ++ b.

Definition appendMessage (dst : bytes) (field : Z) (msg : bytes) : bytes :=
  appendBytes dst field msg.

Definition appendBool (dst : bytes) (field : Z) (b : bool) : bytes :=
  if negb b then dst else appendTag dst field wireVarint ++ [1].

(** [uint64(uint32(v))] of an int32. *)
Definition appendInt32 (dst : bytes) (field v : Z) : bytes :=
  if v =? 0 then dst else
  appendVarint (appendTag dst field wireVarint) (v mod 2 ^ 32).

Definition appendUint32 (dst : bytes) (field v : Z) : bytes :=
  if v =? 0 then dst else appendVarint (appendTag dst field wireVarint) v.

Fixpoint varintLen_loop (fuel : nat) (v n : Z) : Z :=
  match fuel with
  | O => n
  | S fuel => if 128 <=? v then varintLen_loop fuel (Z.shiftr v 7) (n + 1) else n
  end.
Definition varintLen (v : Z) : Z := varintLen_loop 10 v 1.
Definition tagLen (field wire : Z) : Z := varintLen (tag_key field wire).
Definition bytesFieldLen (field n : Z) : Z := tagLen field wireBytes + varintLen n + n.
Definition uint32FieldLen (field v : Z) : Z :=
  if v =? 0 then 0 else tagLen field wireVarint + varintLen v.
Definition stringFieldLen (field : Z) (s : bytes) : Z :=
  if bool_decide (s = []) then 0 else bytesFieldLen field (Z.of_nat (length s)).

(** ** Reading *)

(** consumeVarint's loop: [i] counts the bytes read, [v] accumulates. *)
Fixpoint consume_loop (fuel : nat) (b : bytes) (i v : Z) : Z * Z :=
  match fuel, b with
  | S fuel, c :: r =>
      if c <? 128 then
        if (i =? 9) && (1 <? c) then (0, -1)
        else (Z.lor v (u64 (Z.shiftl c (7 * i))), i + 1)
      else consume_loop fuel r (i + 1)
             (Z.lor v (u64 (Z.shiftl (Z.land c 127) (7 * i))))
  | _, _ => (0, -1)
  end.
Definition consumeVarint (b : bytes) : Z * Z := consume_loop 10 b 0 0.

Record protoField := ProtoField {
  pf_num : Z;
  pf_wire : Z;
  pf_raw : bytes;
  pf_n : Z;
}.

Inductive proto_err :=
  | ErrProtoFieldCount
  | ErrBadKey (off : Z)
  | ErrBadVarint (num off : Z)
  | ErrBadLength (num off : Z)
  | ErrOverrun (num len : Z)
  | ErrTruncatedFixed64 (num : Z)
  | ErrTruncatedFixed32 (num : Z)
  | ErrUnsupportedWire (wire num : Z)
  | ErrNotEmbedded.

#[global] Instance proto_err_eq : EqDecision proto_err.
Proof. solve_decision. Defined.

(** protoFieldBudget.consume: [None] is the refusal. *)
Definition consume (remaining : Z) : option Z :=
  if remaining <=? 0 then None else Some (remaining - 1).

(** One turn of the parser's loop, after the budget was charged: the field at
    the front of [m] (which sits at offset [i]), and what follows it. *)
Definition parseField (fixedNumbers : bool) (i : Z) (m : bytes)
  : result proto_err (protoField * bytes) :=
  let '(key, n) := consumeVarint m in
  if n <=? 0 then Err (ErrBadKey i) else
  let m := drop (Z.to_nat n) m in
  let i := i + n in
  let num := Z.shiftr key 3 in
  let wire := Z.land key 7 in
  if wire =? wireVarint then
    let '(v, k) := consumeVarint m in
    if k <=? 0 then Err (ErrBadVarint num i)
    else Ok (ProtoField num wire [] v, drop (Z.to_nat k) m)
  else if wire =? wireBytes then
    let '(l, k) := consumeVarint m in
    if k <=? 0 then Err (ErrBadLength num i) else
    let m := drop (Z.to_nat k) m in
    if Z.of_nat (length m) <? l then Err (ErrOverrun num l)
    else Ok (ProtoField num wire (take (Z.to_nat l) m) 0, drop (Z.to_nat l) m)
  else if wire =? 1 then
    if negb fixedNumbers then Err (ErrUnsupportedWire wire num) else
    if Z.of_nat (length m) <? 8 then Err (ErrTruncatedFixed64 num)
    else Ok (ProtoField num wire (take 8 m) 0, drop 8 m)
  else if wire =? 5 then
    if negb fixedNumbers then Err (ErrUnsupportedWire wire num) else
    if Z.of_nat (length m) <? 4 then Err (ErrTruncatedFixed32 num)
    else Ok (ProtoField num wire (take 4 m) 0, drop 4 m)
  else Err (ErrUnsupportedWire wire num).

(** The loop of parseProtoFieldsWire. The budget is the caller's shared cell:
    what is left of it is returned on every path. *)
Fixpoint parse_loop (fuel : nat) (fixedNumbers : bool) (i : Z) (m : bytes)
    (fields : list protoField) (budget : Z)
  : result proto_err (list protoField) * Z :=
  match m with
  | [] => (Ok fields, budget)
  | _ =>
    match fuel with
    | O => (Ok fields, budget)
    | S fuel =>
      match consume budget with
      | None => (Err ErrProtoFieldCount, budget)
      | Some budget =>
          match parseField fixedNumbers i m with
          | Err e => (Err e, budget)
          | Ok (f, m') =>
              parse_loop fuel fixedNumbers
                (i + (Z.of_nat (length m) - Z.of_nat (length m'))) m'
                (fields ++ [f]) budget
          end
      end
    end
  end.

(** The fuel is the message length: every turn consumes at least the key. *)
Definition parseProtoFieldsWire (msg : bytes) (fixedNumbers : bool) (budget : Z)
  : result proto_err (list protoField) * Z :=
  parse_loop (length msg) fixedNumbers 0 msg [] budget.

Definition parseProtoFields (msg : bytes) : result proto_err (list protoField) :=
  (parseProtoFieldsWire msg false protoFieldCountMax).1.
Definition parseProtoFieldsLenient (msg : bytes) : result proto_err (list protoField) :=
  (parseProtoFieldsWire msg true protoFieldCountMax).1.

Definition firstField (fields : list protoField) (num : Z) : option protoField :=
  find (fun f => pf_num f =? num) fields.

(** subFields: without a caller's budget the embedded message starts a fresh
    one, which is then dropped. *)
Definition subFields (f : option protoField) (budget : option Z)
  : result proto_err (list protoField) * option Z :=
  match f with
  | None => (Err ErrNotEmbedded, budget)
  | Some f =>
      if negb (pf_wire f =? wireBytes) then (Err ErrNotEmbedded, budget) else
      match budget with
      | None => ((parseProtoFieldsWire (pf_raw f) false protoFieldCountMax).1, None)
      | Some b => let '(r, b) := parseProtoFieldsWire (pf_raw f) false b in (r, Some b)
      end
  end.

(** decodeMapEntry: key, value and ok; the last field 1 and field 2 win. *)
Definition decodeMapEntry (raw : bytes) (budget : Z)
  : result proto_err (bytes * bytes * bool) * Z :=
  let '(r, budget) := parseProtoFieldsWire raw false budget in
  match r with
  | Err e => (Err e, budget)
  | Ok fields =>
      let '(key, val) :=
        foldl (fun '(key, val) f =>
                 if pf_num f =? 1 then (pf_raw f, val)
                 else if pf_num f =? 2 then (key, pf_raw f) else (key, val))
              ([], []) fields in
      (Ok (key, val, negb (bool_decide (key = []))), budget)
  end.

(** The Go value a Value shim decodes to. A number keeps its IEEE bits; a
    struct is its entries with a later key replacing an earlier one. *)
Inductive pvalue :=
  | VNil
  | VString (s : bytes)
  | VBool (b : bool)
  | VNumber (bits : Z)
  | VRaw (b : bytes)
  | VStruct (entries : list (bytes * pvalue))
  | VList (items : list pvalue).

Definition le64 (raw : bytes) : Z :=
  match raw with
  | [b0; b1; b2; b3; b4; b5; b6; b7] =>
      Z.lor b0 (Z.lor (Z.shiftl b1 8) (Z.lor (Z.shiftl b2 16) (Z.lor (Z.shiftl b3 24)
        (Z.lor (Z.shiftl b4 32) (Z.lor (Z.shiftl b5 40) (Z.lor (Z.shiftl b6 48)
          (Z.shiftl b7 56)))))))
  | _ => 0
  end.

(** [out[k] = v] on a Go map, kept as an association list. *)
Fixpoint map_set {A} (k : bytes) (v : A) (out : list (bytes * A)) : list (bytes * A) :=
  match out with
  | [] => [(k, v)]
  | (k', v') :: r => if bool_decide (k = k') then (k, v) :: r else (k', v') :: map_set k v r
  end.

(** The first field whose number the switch of decodeProtoValue knows. *)
Definition value_field (fields : list protoField) : option protoField :=
  find (fun f => (1 <=? pf_num f) && (pf_num f <=? 6)) fields.

Section Containers.
(** [value] decodes a nested Value at the container's own depth. *)
Context (value : bytes -> Z -> option pvalue * Z).

(** decodeProtoStruct after its fields were parsed. *)
Fixpoint struct_entries (fields : list protoField) (out : list (bytes * pvalue))
    (budget : Z) : option pvalue * Z :=
  match fields with
  | [] => (Some (VStruct out), budget)
  | f :: fields =>
      if negb (pf_num f =? 1) then struct_entries fields out budget else
      let '(r, budget) := decodeMapEntry (pf_raw f) budget in
      match r with
      | Err e => if bool_decide (e = ErrProtoFieldCount) then (None, budget)
                 else struct_entries fields out budget
      | Ok (k, vb, ok) =>
          if negb ok then struct_entries fields out budget else
          let '(v, budget) := value vb budget in
          match v with
          | None => (None, budget)
          | Some v => struct_entries fields (map_set k v out) budget
          end
      end
  end.
Definition decodeProtoStruct (b : bytes) (budget : Z) : option pvalue * Z :=
  let '(r, budget) := parseProtoFieldsWire b false budget in
  match r with
  | Err _ => (None, budget)
  | Ok fields => struct_entries fields [] budget
  end.

(** decodeProtoList after its fields were parsed. *)
Fixpoint list_items (fields : list protoField) (out : list pvalue) (budget : Z)
  : option pvalue * Z :=
  match fields with
  | [] => (Some (VList out), budget)
  | f :: fields =>
      if negb (pf_num f =? 1) then list_items fields out budget else
      let '(v, budget) := value (pf_raw f) budget in
      match v with
      | None => (None, budget)
      | Some v => list_items fields (out ++ [v]) budget
      end
  end.
Definition decodeProtoList (b : bytes) (budget : Z) : option pvalue * Z :=
  let '(r, budget) := parseProtoFieldsWire b false budget in
  match r with
  | Err _ => (None, budget)
  | Ok fields => list_items fields [] budget
  end.
End Containers.

(** decodeProtoValue; [None] is ok = false. Each container hop adds one level
    of depth and spends one unit of fuel, so [value_fuel] is never reached. *)
Fixpoint decodeProtoValue_fuel (fuel : nat) (b : bytes) (depth budget : Z)
  : option pvalue * Z :=
  match fuel with
  | O => (None, budget)
  | S fuel =>
      if protoValueMaxDepth <? depth then (None, budget) else
      if bool_decide (b = []) then (Some VNil, budget) else
      let '(r, budget) := parseProtoFieldsWire b true budget in
      match r with
      | Err e => if bool_decide (e = ErrProtoFieldCount) then (None, budget)
                 else (Some (VString b), budget)
      | Ok fields =>
          match value_field fields with
          | None => (Some (VString b), budget)
          | Some f =>
              if pf_num f =? 3 then (Some (VString (pf_raw f)), budget)
              else if pf_num f =? 4 then (Some (VBool (negb (pf_n f =? 0))), budget)
              else if pf_num f =? 2 then
                if Z.of_nat (length (pf_raw f)) =? 8
                then (Some (VNumber (le64 (pf_raw f))), budget)
                else (Some (VRaw (pf_raw f)), budget)
              else if pf_num f =? 5 then
                decodeProtoStruct (fun vb => decodeProtoValue_fuel fuel vb (depth + 1))
                  (pf_raw f) budget
              else if pf_num f =? 6 then
                decodeProtoList (fun vb => decodeProtoValue_fuel fuel vb (depth + 1))
                  (pf_raw f) budget
              else (Some VNil, budget)
          end
      end
  end.

Definition value_fuel : nat := 130.
Definition decodeProtoValue (b : bytes) (depth budget : Z) : option pvalue * Z :=
  decodeProtoValue_fuel value_fuel b depth budget.

Definition decodeStringValueMapEntry (entry : bytes) (budget : Z)
  : option (bytes * pvalue) * Z :=
  let '(r, budget) := decodeMapEntry entry budget in
  match r with
  | Err _ => (None, budget)
  | Ok (key, valBytes, ok) =>
      if negb ok then (None, budget) else
      let '(v, budget) := decodeProtoValue valBytes 0 budget in
      (match v with Some v => Some (key, v) | None => None end, budget)
  end.

(** ** Varints *)

Lemma shiftr7 v : 0 <= v -> 0 <= Z.shiftr v 7 /\ Z.shiftr v 7 = v / 128.
Proof. intros. rewrite Z.shiftr_div_pow2 by lia. split; [apply Z.div_pos; lia|done]. Qed.

Lemma mod_ones v k : 0 <= k -> v mod 2 ^ k = Z.land v (Z.ones k).
Proof. intros. by rewrite Z.land_ones. Qed.

Lemma low7 v : Z.land (Z.lor (v mod 256) 128) 127 = v mod 128.
Proof.
  change 256 with (2 ^ 8). change 128 with (2 ^ 7) at 2. change 127 with (Z.ones 7).
  rewrite !mod_ones by lia. rewrite Z.land_lor_distr_l, <- Z.land_assoc.
  change (Z.land 128 (Z.ones 7)) with 0. rewrite Z.lor_0_r. done.
Qed.

Lemma high_bit v : 0 <= v -> 128 <= Z.lor (v mod 256) 128 < 256.
Proof.
  intros Hv. pose proof (Z.mod_pos_bound v 256 ltac:(lia)) as Hm.
  replace (Z.lor (v mod 256) 128) with
    (if v mod 256 <? 128 then v mod 256 + 128 else v mod 256).
  { case_match; lia. }
  generalize dependent (v mod 256). intros m Hm.
  assert (forallb (fun k => Z.eqb (if Z.of_nat k <? 128 then Z.of_nat k + 128 else Z.of_nat k)
                     (Z.lor (Z.of_nat k) 128)) (seq 0 256) = true) as H by by vm_compute.
  rewrite forallb_forall in H. specialize (H (Z.to_nat m)).
  rewrite Z2Nat.id in H by lia. apply Z.eqb_eq, H, in_seq. lia.
Qed.

Lemma group_split v k :
  0 <= k ->
  Z.lor (Z.shiftl (v mod 128) k) (Z.shiftl (Z.shiftr v 7) (k + 7)) = Z.shiftl v k.
Proof.
  intros Hk. rewrite Z.add_comm, <- Z.shiftl_shiftl by lia.
  rewrite <- Z.shiftl_lor. f_equal. change 128 with (2 ^ 7). rewrite mod_ones by lia.
  apply Z.bits_inj'. intros i Hi. rewrite Z.lor_spec, Z.land_spec.
  destruct (Z.ltb_spec i 7).
  - rewrite Z.ones_spec_low, andb_true_r, Z.shiftl_spec_low by lia. by rewrite orb_false_r.
  - rewrite Z.ones_spec_high, andb_false_r, Z.shiftl_spec, Z.shiftr_spec by lia.
    simpl. f_equal. lia.
Qed.

Lemma shiftl_u64 c k : 0 <= k -> 0 <= c -> c * 2 ^ k < 2 ^ 64 ->
  u64 (Z.shiftl c k) = Z.shiftl c k.
Proof. intros. apply u64_id. rewrite Z.shiftl_mul_pow2 by lia. unfold in_uint64. nia. Qed.

Lemma consume_groups fuel v i acc rest :
  0 <= v -> 0 <= i -> Z.of_nat fuel + i = 10 -> v * 2 ^ (7 * i) < 2 ^ 64 ->
  v < 2 ^ (7 * Z.of_nat fuel) -> (0 < fuel)%nat ->
  consume_loop fuel (varint_groups fuel v ++ rest) i acc =
  (Z.lor acc (Z.shiftl v (7 * i)), i + Z.of_nat (length (varint_groups fuel v))).
Proof.
  revert v i acc. induction fuel as [|fuel IH]; intros v i acc Hv Hi Hf H64 Hlt Hpos; [lia|].
  cbn [varint_groups consume_loop].
  destruct (Z.leb_spec 128 v) as [Hge|Hsmall].
  - destruct (shiftr7 v Hv) as [Hs0 Hs]. pose proof (Z.mod_pos_bound v 128 ltac:(lia)).
    pose proof (Z.div_mod v 128 ltac:(lia)) as Hdm.
    cbn [app consume_loop]. pose proof (high_bit v Hv).
    assert ((Z.lor (v mod 256) 128 <? 128) = false) as -> by lia.
    assert (0 < 2 ^ (7 * i)) by (apply Z.pow_pos_nonneg; lia).
    rewrite low7, shiftl_u64 by (lia || nia).
    assert (Hpow : 2 ^ (7 * (i + 1)) = 128 * 2 ^ (7 * i)).
    { replace (7 * (i + 1)) with (7 + 7 * i) by lia. by rewrite Z.pow_add_r by lia. }
    assert (Hpow2 : 2 ^ (7 * Z.of_nat (S fuel)) = 128 * 2 ^ (7 * Z.of_nat fuel)).
    { replace (7 * Z.of_nat (S fuel)) with (7 + 7 * Z.of_nat fuel) by lia.
      by rewrite Z.pow_add_r by lia. }
    assert (0 < fuel)%nat.
    { destruct fuel; [|lia]. cbn in Hlt. lia. }
    rewrite IH; [|lia|lia|lia| | |done].
    + rewrite <- Z.lor_assoc. replace (7 * (i + 1)) with (7 * i + 7) by lia.
      rewrite group_split by lia. f_equal. cbn [length]. lia.
    + rewrite Hs, Hpow. nia.
    + rewrite Hs. apply Z.div_lt_upper_bound; lia.
  - cbn [app consume_loop]. rewrite Z.mod_small by lia.
    assert ((v <? 128) = true) as -> by lia.
    destruct (Z.eqb_spec i 9) as [->|].
    + assert ((1 <? v) = false) as -> by (change (7 * 9) with 63 in H64; lia).
      cbn [andb length]. by rewrite shiftl_u64 by lia.
    + cbn [andb length]. by rewrite shiftl_u64 by lia.
Qed.

Lemma varint_groups_length fuel v :
  0 <= v < 2 ^ (7 * Z.of_nat fuel) -> (0 < fuel)%nat ->
  forall n, varintLen_loop fuel v n = n + Z.of_nat (length (varint_groups fuel v)) - 1.
Proof.
  revert v. induction fuel as [|fuel IH]; intros v Hv Hf n; [lia|].
  cbn [varintLen_loop varint_groups]. destruct (Z.leb_spec 128 v).
  - destruct (shiftr7 v ltac:(lia)) as [Hs0 Hs].
    assert (Hpow2 : 2 ^ (7 * Z.of_nat (S fuel)) = 128 * 2 ^ (7 * Z.of_nat fuel)).
    { replace (7 * Z.of_nat (S fuel)) with (7 + 7 * Z.of_nat fuel) by lia.
      by rewrite Z.pow_add_r by lia. }
    assert (0 < fuel)%nat.
    { destruct fuel; [|lia]. cbn in Hv. lia. }
    rewrite IH; [cbn [length]; lia| |done].
    split; [done|]. rewrite Hs. apply Z.div_lt_upper_bound; lia.
  - cbn [length]. lia.
Qed.

Lemma varint_read v rest :
  in_uint64 v ->
  consumeVarint (varint_groups 10 v ++ rest) =
  (v, Z.of_nat (length (varint_groups 10 v))).
Proof.
  unfold in_uint64. intros Hv. unfold consumeVarint.
  rewrite consume_groups by (cbn; lia).
  by rewrite Z.lor_0_l, Z.shiftl_0_r.
Qed.

Lemma varintLen_spec v : in_uint64 v ->
  varintLen v = Z.of_nat (length (varint_groups 10 v)).
Proof.
  unfold in_uint64. intros. unfold varintLen. rewrite varint_groups_length by (cbn; lia). lia.
Qed.

Lemma consume_loop_bounds fuel b i v r n :
  consume_loop fuel b i v = (r, n) -> 0 < n -> 0 <= i ->
  i < n <= i + Z.of_nat (Nat.min fuel (length b)).
Proof.
  revert b i v. induction fuel as [|fuel IH]; intros b i v H Hn Hi; cbn in H;
    [injection H as <- <-; lia|].
  destruct b as [|c b]; [injection H as <- <-; lia|].
  destruct (c <? 128).
  - destruct (_ && _); injection H as <- <-; cbn [length]; lia.
  - apply IH in H; [cbn [length]|lia..]. lia.
Qed.

Lemma uint64_land z : in_uint64 z <-> Z.land z (Z.ones 64) = z.
Proof.
  rewrite Z.land_ones by lia. unfold in_uint64. split; intros H.
  - by apply Z.mod_small.
  - rewrite <- H. apply Z.mod_pos_bound. lia.
Qed.

Lemma lor_uint64 a b : in_uint64 a -> in_uint64 b -> in_uint64 (Z.lor a b).
Proof.
  rewrite !uint64_land. intros Ha Hb. by rewrite Z.land_lor_distr_l, Ha, Hb.
Qed.

Lemma consume_loop_value fuel b i v :
  in_uint64 v -> in_uint64 (consume_loop fuel b i v).1.
Proof.
  revert b i v. induction fuel as [|fuel IH]; intros b i v Hv; [done|].
  destruct b as [|c b]; [done|]. cbn [consume_loop].
  destruct (c <? 128).
  - destruct (_ && _); [done|]. apply lor_uint64; [done|apply u64_range].
  - apply IH. apply lor_uint64; [done|apply u64_range].
Qed.

Lemma consumeVarint_value b : in_uint64 (consumeVarint b).1.
Proof. by apply consume_loop_value. Qed.

Lemma consumeVarint_bounds b v n :
  consumeVarint b = (v, n) -> 0 < n -> 1 <= n <= 10 /\ n <= Z.of_nat (length b).
Proof. intros H Hn. apply consume_loop_bounds in H; lia. Qed.

(** ** Encoded fields *)

(** A field as the writer emits it. *)
Definition encode_field (f : protoField) : bytes :=
  if pf_wire f =? wireVarint
  then appendVarint (appendTag [] (pf_num f) wireVarint) (pf_n f)
  else appendBytes [] (pf_num f) (pf_raw f).

Definition encode_fields (fs : list protoField) : bytes := concat (map encode_field fs).

Definition wf_field (f : protoField) : Prop :=
  0 <= pf_num f < 2 ^ 60 /\
  ((pf_wire f = wireVarint /\ pf_raw f = [] /\ in_uint64 (pf_n f)) \/
   (pf_wire f = wireBytes /\ pf_n f = 0 /\ Z.of_nat (length (pf_raw f)) < 2 ^ 63)).

Lemma tag_key_small field wire :
  0 <= field < 2 ^ 60 -> 0 <= wire < 8 ->
  tag_key field wire = 8 * field + wire /\ in_uint64 (8 * field + wire) /\
  Z.shiftr (8 * field + wire) 3 = field /\ Z.land (8 * field + wire) 7 = wire.
Proof.
  intros Hf Hw. unfold tag_key.
  rewrite Z.shiftl_mul_pow2, wrap64_id by (unfold in_int64, int64_min, int64_max; lia).
  assert (Z.land (field * 2 ^ 3) wire = 0) as Hland.
  { apply Z.bits_inj'. intros i Hi. rewrite Z.land_spec, Z.bits_0.
    destruct (Z.ltb_spec i 3).
    - rewrite <- Z.shiftl_mul_pow2, Z.shiftl_spec_low by lia. done.
    - rewrite (Z.bits_above_log2 wire i), andb_false_r; [done|lia|].
      destruct (decide (wire = 0)) as [->|]; [cbn; lia|].
      apply Z.log2_lt_pow2; [lia|]. eapply Z.lt_le_trans; [apply Hw|].
      change 8 with (2 ^ 3). apply Z.pow_le_mono_r; lia. }
  assert (Z.lor (field * 2 ^ 3) wire = 8 * field + wire) as ->.
  { rewrite <- Z.lxor_lor, <- Z.add_nocarry_lxor by done. lia. }
  assert (in_uint64 (8 * field + wire)) as Hr by (unfold in_uint64; lia).
  split; [by apply u64_id|]. split; [done|]. split.
  - rewrite Z.shiftr_div_pow2 by lia. change (2 ^ 3) with 8.
    rewrite Z.mul_comm, Z.div_add_l, Z.div_small by lia. lia.
  - change 7 with (Z.ones 3). rewrite Z.land_ones by lia. change (2 ^ 3) with 8.
    rewrite Z.add_comm, Z.mul_comm, Z.mod_add by lia. apply Z.mod_small. lia.
Qed.

Lemma drop_prefix {A} (a b : list A) : drop (Z.to_nat (Z.of_nat (length a))) (a ++ b) = b.
Proof. by rewrite Nat2Z.id, drop_app_length. Qed.

Lemma varint_groups_nonempty v : (0 < length (varint_groups 10 v))%nat.
Proof. cbn [varint_groups]. case_match; cbn [length]; lia. Qed.

Lemma parseField_encode fx i f rest :
  wf_field f -> parseField fx i (encode_field f ++ rest) = Ok (f, rest).
Proof.
  destruct f as [num wire raw n]. intros [Hnum Hcase]. simpl in *.
  unfold parseField, encode_field; simpl.
  pose proof (varint_groups_nonempty (tag_key num wire)) as Hne.
  destruct Hcase as [(-> & -> & Hn) | (-> & -> & Hl)]; unfold wireVarint, wireBytes in *.
  - destruct (tag_key_small num 0 Hnum ltac:(lia)) as (Hk & Hr & Hs & Hw).
    unfold appendTag, appendVarint. cbn [app Z.eqb]. rewrite <- app_assoc.
    rewrite Hk in *. rewrite varint_read by done.
    destruct (Z.leb_spec (Z.of_nat (length (varint_groups 10 (8 * num + 0)))) 0); [lia|].
    rewrite drop_prefix, Hs, Hw. cbn [Z.eqb].
    rewrite varint_read by done. pose proof (varint_groups_nonempty n).
    destruct (Z.leb_spec (Z.of_nat (length (varint_groups 10 n))) 0); [lia|].
    by rewrite drop_prefix.
  - destruct (tag_key_small num 2 Hnum ltac:(lia)) as (Hk & Hr & Hs & Hw).
    unfold appendBytes, appendTag, appendVarint, wireBytes. cbn [app Z.eqb].
    rewrite <- !app_assoc. rewrite Hk in *. rewrite varint_read by done.
    destruct (Z.leb_spec (Z.of_nat (length (varint_groups 10 (8 * num + 2)))) 0); [lia|].
    rewrite drop_prefix, Hs, Hw. cbn [Z.eqb Pos.eqb].
    rewrite varint_read by (unfold in_uint64; lia).
    pose proof (varint_groups_nonempty (Z.of_nat (length raw))).
    destruct (Z.leb_spec (Z.of_nat (length (varint_groups 10 (Z.of_nat (length raw))))) 0); [lia|].
    rewrite drop_prefix, length_app.
    destruct (Z.ltb_spec (Z.of_nat (length raw + length rest)) (Z.of_nat (length raw))); [lia|].
    by rewrite drop_prefix, Nat2Z.id, take_app_length.
Qed.

(** ** The parser's loop *)

Lemma parseField_shrinks fx i m f m' :
  parseField fx i m = Ok (f, m') -> (length m' < length m)%nat.
Proof.
  unfold parseField. intros H.
  destruct (consumeVarint m) as [key n] eqn:Hc.
  destruct (Z.leb_spec n 0); [done|].
  apply consumeVarint_bounds in Hc; [|lia].
  assert (Hd : forall k, (length (drop k (drop (Z.to_nat n) m)) < length m)%nat).
  { intros k. rewrite !length_drop. lia. }
  repeat (case_match; try done); injection H as _ <-; rewrite ?drop_drop in *; try apply Hd;
    rewrite ?length_drop in *; lia.
Qed.

Lemma parse_loop_fuel fuel fuel' fx i m fs b :
  (length m <= fuel)%nat -> (length m <= fuel')%nat ->
  parse_loop fuel fx i m fs b = parse_loop fuel' fx i m fs b.
Proof.
  revert fuel' i m fs b. induction fuel as [|fuel IH]; intros fuel' i m fs b H1 H2.
  - destruct m; [by destruct fuel'|cbn in H1; lia].
  - destruct m as [|c m]; [by destruct fuel'|].
    destruct fuel' as [|fuel']; [cbn in H2; lia|]. cbn [parse_loop].
    destruct (consume b) as [b'|]; [|done].
    destruct (parseField fx i (c :: m)) as [[f m']|] eqn:E; [|done].
    apply parseField_shrinks in E. apply IH; lia.
Qed.

Lemma encode_field_nonempty f : encode_field f <> [].
Proof.
  unfold encode_field, appendVarint, appendBytes, appendTag, appendVarint.
  pose proof (varint_groups_nonempty (tag_key (pf_num f) wireVarint)).
  pose proof (varint_groups_nonempty (tag_key (pf_num f) wireBytes)).
  intros H1. case_match; apply (f_equal length) in H1; rewrite !length_app in H1;
    cbn [length] in H1; lia.
Qed.

Lemma parse_loop_encode fx fs : Forall wf_field fs ->
  forall fuel i acc b, (length (encode_fields fs) <= fuel)%nat -> 0 <= b ->
  parse_loop fuel fx i (encode_fields fs) acc b =
  if Z.of_nat (length fs) <=? b
  then (Ok (acc ++ fs), b - Z.of_nat (length fs)) else (Err ErrProtoFieldCount, 0).
Proof.
  induction 1 as [|f fs Hf Hfs IH]; intros fuel i acc b Hlen Hb.
  - change (encode_fields []) with (@nil Z). cbn [length]. change (Z.of_nat 0) with 0.
    rewrite app_nil_r, Z.sub_0_r. destruct (Z.leb_spec 0 b); [|lia]. by destruct fuel.
  - change (encode_fields (f :: fs)) with (encode_field f ++ encode_fields fs) in *.
    pose proof (encode_field_nonempty f) as Hne.
    rewrite length_app in Hlen.
    destruct fuel as [|fuel].
    { destruct (encode_field f); [done|cbn in Hlen; lia]. }
    assert (parse_loop (S fuel) fx i (encode_field f ++ encode_fields fs) acc b =
      match consume b with
      | None => (Err ErrProtoFieldCount, b)
      | Some b => parse_loop fuel fx
          (i + (Z.of_nat (length (encode_field f ++ encode_fields fs))
                - Z.of_nat (length (encode_fields fs)))) (encode_fields fs) (acc ++ [f]) b
      end) as ->.
    { destruct (encode_field f ++ encode_fields fs) as [|c m] eqn:E.
      { apply app_eq_nil in E as [? _]. done. }
      cbn [parse_loop]. rewrite <- E. destruct (consume b); [|done].
      by rewrite parseField_encode. }
    unfold consume. destruct (Z.leb_spec b 0); cbn [length].
    { destruct (Z.leb_spec (Z.of_nat (S (length fs))) b); [lia|]. f_equal. lia. }
    rewrite IH; [|destruct (encode_field f); [done|]; cbn in Hlen; lia|lia].
    destruct (Z.leb_spec (Z.of_nat (length fs)) (b - 1)),
      (Z.leb_spec (Z.of_nat (S (length fs))) b); try lia; [|done].
    rewrite <- app_assoc. f_equal. lia.
Qed.

Lemma parse_loop_budget fuel fx i m fs b r b' :
  parse_loop fuel fx i m fs b = (r, b') -> 0 <= b ->
  0 <= b' <= b /\
  (forall fs', r = Ok fs' -> Z.of_nat (length fs') = Z.of_nat (length fs) + (b - b')).
Proof.
  revert i m fs b. induction fuel as [|fuel IH]; intros i m fs b H Hb.
  - destruct m; injection H as <- <-; (split; [lia|intros fs' [= <-]; lia]).
  - destruct m as [|c m]; [injection H as <- <-; split; [lia|intros fs' [= <-]; lia]|].
    cbn [parse_loop] in H. unfold consume in H.
    destruct (Z.leb_spec b 0); [injection H as <- <-; split; [lia|done]|].
    destruct (parseField fx i (c :: m)) as [[f m']|e];
      [|injection H as <- <-; split; [lia|done]].
    apply IH in H; [|lia]. destruct H as [Hr Hl]. split; [lia|].
    intros fs' Hfs. rewrite (Hl fs' Hfs), length_app. cbn [length]. lia.
Qed.

Lemma parse_budget m fx b r b' :
  parseProtoFieldsWire m fx b = (r, b') -> 0 <= b ->
  0 <= b' <= b /\ (forall fs, r = Ok fs -> Z.of_nat (length fs) = b - b').
Proof. intros H Hb. by apply parse_loop_budget in H. Qed.

(** ** The Value shim: size and depth of what it decodes *)

Fixpoint pvalue_size (v : pvalue) : Z :=
  match v with
  | VStruct es => 1 + foldr (fun '(_, v) acc => pvalue_size v + acc) 0 es
  | VList vs => 1 + foldr (fun v acc => pvalue_size v + acc) 0 vs
  | _ => 1
  end.

Fixpoint pvalue_depth (v : pvalue) : Z :=
  match v with
  | VStruct es => 1 + foldr (fun '(_, v) acc => Z.max (pvalue_depth v) acc) 0 es
  | VList vs => 1 + foldr (fun v acc => Z.max (pvalue_depth v) acc) 0 vs
  | _ => 0
  end.

Definition entries_size (es : list (bytes * pvalue)) : Z :=
  foldr (fun '(_, v) acc => pvalue_size v + acc) 0 es.
Definition items_size (vs : list pvalue) : Z :=
  foldr (fun v acc => pvalue_size v + acc) 0 vs.
Definition entries_depth (es : list (bytes * pvalue)) : Z :=
  foldr (fun '(_, v) acc => Z.max (pvalue_depth v) acc) 0 es.
Definition items_depth (vs : list pvalue) : Z :=
  foldr (fun v acc => Z.max (pvalue_depth v) acc) 0 vs.

Lemma pvalue_size_pos : forall v, 1 <= pvalue_size v.
Proof.
  fix IH 1. intros [| | | | |es|vs]; cbn; try lia.
  - enough (0 <= foldr (fun '(_, v) acc => pvalue_size v + acc) 0 es) by lia.
    induction es as [|[k v] es IHes]; cbn; [lia|]. specialize (IH v). lia.
  - enough (0 <= foldr (fun v acc => pvalue_size v + acc) 0 vs) by lia.
    induction vs as [|v vs IHvs]; cbn; [lia|]. specialize (IH v). lia.
Qed.

Lemma map_set_size k v es : entries_size (map_set k v es) <= entries_size es + pvalue_size v.
Proof.
  induction es as [|[k' v'] es IH]; cbn; [lia|].
  case_bool_decide; cbn; [pose proof (pvalue_size_pos v')|]; unfold entries_size in *; lia.
Qed.

Lemma map_set_depth k v es d :
  entries_depth es <= d -> pvalue_depth v <= d -> 0 <= d -> entries_depth (map_set k v es) <= d.
Proof.
  intros. induction es as [|[k' v'] es IH]; cbn in *; [lia|].
  case_bool_decide; cbn; unfold entries_depth in *; lia.
Qed.

Lemma items_size_app a b : items_size (a ++ b) = items_size a + items_size b.
Proof. induction a as [|v a IH]; cbn; unfold items_size in *; lia. Qed.

Lemma items_depth_app a v d :
  items_depth a <= d -> pvalue_depth v <= d -> 0 <= d -> items_depth (a ++ [v]) <= d.
Proof. intros. induction a as [|u a IH]; cbn in *; unfold items_depth in *; lia. Qed.

(** What one nested decode promises to the container that calls it. *)
Definition value_ok (d : Z) (value : bytes -> Z -> option pvalue * Z) : Prop :=
  forall b bud r bud', value b bud = (r, bud') -> 0 <= bud ->
    0 <= bud' <= bud /\
    forall v, r = Some v -> pvalue_size v <= 1 + (bud - bud') /\ pvalue_depth v <= d.

Lemma list_items_ok d value : 0 <= d -> value_ok d value ->
  forall fs out bud r bud', list_items value fs out bud = (r, bud') -> 0 <= bud ->
    items_depth out <= d ->
    0 <= bud' <= bud /\
    forall v, r = Some v ->
      pvalue_size v <= 1 + items_size out + Z.of_nat (length fs) + (bud - bud') /\
      pvalue_depth v <= 1 + d.
Proof.
  intros Hd0 Hv fs. induction fs as [|f fs IH]; intros out bud r bud' H Hb Hd; cbn in H.
  - injection H as <- <-. split; [lia|]. intros v [= <-].
    cbn. fold (items_size out) (items_depth out). lia.
  - destruct (negb (pf_num f =? 1)).
    + apply IH in H as [Hr Hs]; [|done..]. split; [done|].
      intros v E. specialize (Hs v E). cbn [length]. lia.
    + destruct (value (pf_raw f) bud) as [[v|] b1] eqn:E.
      * destruct (Hv _ _ _ _ E Hb) as [Hb1 Hv1]. destruct (Hv1 v eq_refl) as [Hsz Hdp].
        apply IH in H as [Hr Hs]; [|lia|by apply items_depth_app]. split; [lia|].
        intros v' E'. specialize (Hs v' E'). rewrite items_size_app in Hs. cbn in Hs.
        cbn [length]. lia.
      * destruct (Hv _ _ _ _ E Hb) as [Hb1 _]. injection H as <- <-. by split.
Qed.

Lemma decodeMapEntry_budget raw bud r bud' :
  decodeMapEntry raw bud = (r, bud') -> 0 <= bud -> 0 <= bud' <= bud.
Proof.
  unfold decodeMapEntry. intros H Hb.
  destruct (parseProtoFieldsWire raw false bud) as [p b1] eqn:E.
  apply parse_budget in E as [? _]; [|done].
  destruct p; [destruct (foldl _ _ _)|]; by injection H as _ <-.
Qed.

Lemma struct_entries_ok d value : 0 <= d -> value_ok d value ->
  forall fs out bud r bud', struct_entries value fs out bud = (r, bud') -> 0 <= bud ->
    entries_depth out <= d ->
    0 <= bud' <= bud /\
    forall v, r = Some v ->
      pvalue_size v <= 1 + entries_size out + Z.of_nat (length fs) + (bud - bud') /\
      pvalue_depth v <= 1 + d.
Proof.
  intros Hd0 Hv fs. induction fs as [|f fs IH]; intros out bud r bud' H Hb Hd; cbn in H.
  - injection H as <- <-. split; [lia|]. intros v [= <-].
    cbn. fold (entries_size out) (entries_depth out). lia.
  - assert (Hskip : forall b1, 0 <= b1 <= bud ->
      struct_entries value fs out b1 = (r, bud') ->
      0 <= bud' <= bud /\ forall v, r = Some v ->
      pvalue_size v <= 1 + entries_size out + Z.of_nat (length (f :: fs)) + (bud - bud') /\
      pvalue_depth v <= 1 + d).
    { intros b1 Hb1 H1. apply IH in H1 as [Hr Hs]; [|lia|done]. split; [lia|].
      intros v E. specialize (Hs v E). cbn [length]. lia. }
    destruct (negb (pf_num f =? 1)); [by apply (Hskip bud)|].
    destruct (decodeMapEntry (pf_raw f) bud) as [[[[k vb] ok]|e] b1] eqn:Em;
      apply decodeMapEntry_budget in Em as Hb1; [|done| |done]; last first.
    { case_bool_decide; [injection H as <- <-; by split|by apply (Hskip b1)]. }
    destruct (negb ok); [by apply (Hskip b1)|].
    destruct (value vb b1) as [[v|] b2] eqn:E.
    + destruct (Hv _ _ _ _ E ltac:(lia)) as [Hb2 Hv1]. destruct (Hv1 v eq_refl) as [Hsz Hdp].
      apply IH in H as [Hr Hs]; [|lia|by apply map_set_depth]. split; [lia|].
      intros v' E'. specialize (Hs v' E'). pose proof (map_set_size k v out).
      cbn [length]. lia.
    + destruct (Hv _ _ _ _ E ltac:(lia)) as [Hb2 _]. injection H as <- <-. split; [lia|done].
Qed.

Lemma decodeProtoValue_ok fuel b depth : 0 <= depth ->
  forall bud r bud', decodeProtoValue_fuel fuel b depth bud = (r, bud') -> 0 <= bud ->
  0 <= bud' <= bud /\
  forall v, r = Some v -> pvalue_size v <= 1 + (bud - bud') /\ pvalue_depth v <= 129 - depth.
Proof.
  revert b depth. induction fuel as [|fuel IH]; intros b depth Hdp bud r bud' H Hb; cbn in H.
  { injection H as <- <-. by split. }
  unfold protoValueMaxDepth in H.
  destruct (Z.ltb_spec 128 depth); [injection H as <- <-; by split|].
  assert (Hscalar : forall v b1, (Some v, b1) = (r, bud') ->
    0 <= b1 <= bud -> pvalue_size v = 1 -> pvalue_depth v = 0 ->
    0 <= bud' <= bud /\ forall v, r = Some v ->
      pvalue_size v <= 1 + (bud - bud') /\ pvalue_depth v <= 129 - depth).
  { intros v b1 [= <- <-] Hb1 Hs Hd. split; [lia|]. intros v' [= <-]. lia. }
  case_bool_decide; [by apply (Hscalar _ _ H)|].
  destruct (parseProtoFieldsWire b true bud) as [[fields|e] b1] eqn:Ep;
    apply parse_budget in Ep as [Hb1 Hl]; [|done| |done]; last first.
  { case_bool_decide; [injection H as <- <-; by split|by apply (Hscalar _ _ H)]. }
  specialize (Hl _ eq_refl).
  destruct (value_field fields) as [f|] eqn:Hf; [|by apply (Hscalar _ _ H)].
  assert (1 <= Z.of_nat (length fields)).
  { destruct fields; [done|cbn [length]; lia]. }
  destruct (pf_num f =? 3); [by apply (Hscalar _ _ H)|].
  destruct (pf_num f =? 4); [by apply (Hscalar _ _ H)|].
  destruct (pf_num f =? 2); [case_match; by apply (Hscalar _ _ H)|].
  assert (Hval : depth < 129 -> value_ok (128 - depth)
            (fun vb => decodeProtoValue_fuel fuel vb (depth + 1))).
  { intros _ vb bud0 r0 bud0' E0 Hb0. apply IH in E0 as [? Hs]; [|lia|done].
    split; [done|]. intros v Ev. specialize (Hs v Ev). lia. }
  specialize (Hval ltac:(lia)).
  destruct (pf_num f =? 5); [|destruct (pf_num f =? 6); [|by apply (Hscalar _ _ H)]].
  - unfold decodeProtoStruct in H.
    destruct (parseProtoFieldsWire (pf_raw f) false b1) as [[fs|e] b2] eqn:E2;
      apply parse_budget in E2 as [Hb2 Hl2]; [|lia| |lia];
      [|injection H as <- <-; split; [lia|done]].
    specialize (Hl2 _ eq_refl).
    eapply (struct_entries_ok (128 - depth)) in H as [Hr Hs]; [|lia|exact Hval|lia|cbn; lia].
    split; [lia|]. intros v Ev. specialize (Hs v Ev). cbn in Hs. lia.
  - unfold decodeProtoList in H.
    destruct (parseProtoFieldsWire (pf_raw f) false b1) as [[fs|e] b2] eqn:E2;
      apply parse_budget in E2 as [Hb2 Hl2]; [|lia| |lia];
      [|injection H as <- <-; split; [lia|done]].
    specialize (Hl2 _ eq_refl).
    eapply (list_items_ok (128 - depth)) in H as [Hr Hs]; [|lia|exact Hval|lia|cbn; lia].
    split; [lia|]. intros v Ev. specialize (Hs v Ev). cbn in Hs. lia.
Qed.

Lemma struct_entries_ext value value' fs :
  (forall b bud, value b bud = value' b bud) ->
  forall out bud, struct_entries value fs out bud = struct_entries value' fs out bud.
Proof.
  intros Hv. induction fs as [|f fs IH]; intros out bud; [done|]. cbn.
  destruct (negb (pf_num f =? 1)); [apply IH|].
  destruct (decodeMapEntry (pf_raw f) bud) as [[[[k vb] ok]|e] b1]; [|by rewrite IH].
  destruct (negb ok); [apply IH|]. rewrite Hv.
  destruct (value' vb b1) as [[v|] b2]; [apply IH|done].
Qed.

Lemma list_items_ext value value' fs :
  (forall b bud, value b bud = value' b bud) ->
  forall out bud, list_items value fs out bud = list_items value' fs out bud.
Proof.
  intros Hv. induction fs as [|f fs IH]; intros out bud; [done|]. cbn.
  destruct (negb (pf_num f =? 1)); [apply IH|]. rewrite Hv.
  destruct (value' (pf_raw f) bud) as [[v|] b2]; [apply IH|done].
Qed.

Lemma decodeProtoValue_eq b depth bud :
  decodeProtoValue b depth bud = decodeProtoValue_fuel value_fuel b depth bud.
Proof. reflexivity. Qed.

Lemma value_fuel_eq : Z.of_nat value_fuel = 130.
Proof. reflexivity. Qed.

Lemma decode_too_deep fuel b depth bud :
  protoValueMaxDepth < depth -> decodeProtoValue_fuel fuel b depth bud = (None, bud).
Proof. intros H. destruct fuel; [done|]. cbn. by destruct (Z.ltb_spec protoValueMaxDepth depth); [|lia]. Qed.

(** Any fuel past the depth bound gives the same answer. *)
Lemma decodeProtoValue_fuel_enough fuel fuel' b depth bud :
  0 <= depth -> 130 <= depth + Z.of_nat fuel -> 130 <= depth + Z.of_nat fuel' ->
  decodeProtoValue_fuel fuel b depth bud = decodeProtoValue_fuel fuel' b depth bud.
Proof.
  revert fuel' b depth bud. induction fuel as [|fuel IH]; intros fuel' b depth bud Hd H1 H2.
  - destruct fuel' as [|fuel']; [done|]. cbn. unfold protoValueMaxDepth.
    destruct (Z.ltb_spec 128 depth); [done|lia].
  - cbn. unfold protoValueMaxDepth. destruct (Z.ltb_spec 128 depth).
    { destruct fuel'; [done|]. cbn. unfold protoValueMaxDepth.
      by destruct (Z.ltb_spec 128 depth); [|lia]. }
    destruct fuel' as [|fuel']; [lia|]. cbn. unfold protoValueMaxDepth.
    destruct (Z.ltb_spec 128 depth); [lia|].
    case_bool_decide; [done|].
    destruct (parseProtoFieldsWire b true bud) as [[fields|e] b1]; [|done].
    destruct (value_field fields) as [f|]; [|done].
    assert (Hext : forall vb bd, decodeProtoValue_fuel fuel vb (depth + 1) bd =
                                 decodeProtoValue_fuel fuel' vb (depth + 1) bd)
      by (intros; apply IH; lia).
    unfold decodeProtoStruct, decodeProtoList.
    repeat (case_match; try done); by (apply struct_entries_ext || apply list_items_ext).
Qed.

(** ** Properties *)

(** Varint round trip: reading an encoded uint64 in front of any bytes
    gives the value back and consumes exactly the encoding, whose size is
    [varintLen]. *)
Theorem varint_roundtrip v rest :
  in_uint64 v ->
  consumeVarint (appendVarint [] v ++ rest) = (v, varintLen v) /\
  varintLen v = Z.of_nat (length (appendVarint [] v)).
Proof.
  intros Hv. unfold appendVarint; cbn [app].
  by rewrite varint_read, (varintLen_spec v Hv).
Qed.

(** Reading a varint is bounded: on any input it either refuses or
    consumes between one and ten bytes that are there, and the value is a
    uint64 (the tenth byte can carry only one bit). *)
Theorem consumeVarint_safe b :
  let '(v, n) := consumeVarint b in
  in_uint64 v /\ (n <= 0 \/ (1 <= n <= 10 /\ n <= Z.of_nat (length b))).
Proof.
  pose proof (consumeVarint_value b) as Hv.
  destruct (consumeVarint b) as [v n] eqn:E. split; [done|].
  destruct (Z.leb_spec n 0); [by left|]. right. by apply (consumeVarint_bounds b v).
Qed.

(** C40. Message round trip: the parser reads back exactly the fields that were
    written, in order, charging one budget unit each; a message with more
    fields than the budget fails closed with the field-count error. *)
Theorem parse_encode fs fixedNumbers budget :
  Forall wf_field fs -> 0 <= budget ->
  parseProtoFieldsWire (encode_fields fs) fixedNumbers budget =
  if Z.of_nat (length fs) <=? budget
  then (Ok fs, budget - Z.of_nat (length fs)) else (Err ErrProtoFieldCount, 0).
Proof. intros Hf Hb. unfold parseProtoFieldsWire. by rewrite parse_loop_encode. Qed.

(** The frame budget is honest: whatever the bytes, a parse never raises
    it or drives it negative, and a successful parse returns exactly as many
    fields as it charged. *)
Theorem parse_charges msg fixedNumbers budget :
  0 <= budget ->
  let '(r, budget') := parseProtoFieldsWire msg fixedNumbers budget in
  0 <= budget' <= budget /\
  match r with Ok fs => Z.of_nat (length fs) = budget - budget' | Err _ => True end.
Proof.
  intros Hb. destruct (parseProtoFieldsWire msg fixedNumbers budget) as [r b'] eqn:E.
  apply parse_budget in E as [? Hl]; [|done]. split; [done|]. destruct r; auto.
Qed.

(** Decoding a Value is bounded by the frame: nesting a container cannot
    buy a fresh allowance (the decoded tree has at most one node more than the
    fields charged), the tree is never deeper than the depth bound allows, and
    a Value below the bound is refused outright. *)
Theorem decodeProtoValue_bounded b depth budget :
  0 <= depth -> 0 <= budget ->
  let '(r, budget') := decodeProtoValue b depth budget in
  0 <= budget' <= budget /\
  match r with
  | Some v => depth <= protoValueMaxDepth /\ pvalue_size v <= 1 + (budget - budget') /\
              pvalue_depth v <= protoValueMaxDepth + 1 - depth
  | None => True
  end.
Proof.
  intros Hd Hb. destruct (decodeProtoValue b depth budget) as [r b'] eqn:E.
  assert (Hdeep : protoValueMaxDepth < depth -> r = None).
  { intros Hgt. rewrite decodeProtoValue_eq in E. rewrite (decode_too_deep value_fuel) in E by done.
    by injection E as <-. }
  rewrite decodeProtoValue_eq in E. apply decodeProtoValue_ok in E as [Hr Hs]; [|done..].
  split; [done|]. destruct r as [v|]; [|done].
  destruct (Hs v eq_refl). unfold protoValueMaxDepth in *.
  split; [|lia]. destruct (Z.ltb_spec 128 depth) as [Hgt|]; [by specialize (Hdeep Hgt)|lia].
Qed.

(** The recursion terminates by its depth bound: any fuel that covers the
    remaining levels gives the answer of [decodeProtoValue]. *)
Theorem decodeProtoValue_total fuel b depth budget :
  0 <= depth -> protoValueMaxDepth + 2 <= depth + Z.of_nat fuel ->
  decodeProtoValue_fuel fuel b depth budget = decodeProtoValue b depth budget.
Proof.
  unfold protoValueMaxDepth. intros. rewrite decodeProtoValue_eq.
  pose proof value_fuel_eq. apply decodeProtoValue_fuel_enough; lia.
Qed.

(** The size functions predict the writers exactly. *)
Theorem field_lengths field b s v :
  0 <= field < 2 ^ 60 -> Z.of_nat (length b) < 2 ^ 63 ->
  Z.of_nat (length s) < 2 ^ 63 -> 0 <= v < 2 ^ 32 ->
  Z.of_nat (length (appendBytes [] field b)) = bytesFieldLen field (Z.of_nat (length b)) /\
  Z.of_nat (length (appendString [] field s)) = stringFieldLen field s /\
  Z.of_nat (length (appendUint32 [] field v)) = uint32FieldLen field v.
Proof.
  intros Hf Hb Hs Hv.
  assert (Htag : forall wire, 0 <= wire < 8 ->
    tagLen field wire = Z.of_nat (length (varint_groups 10 (tag_key field wire)))).
  { intros wire Hw. unfold tagLen. destruct (tag_key_small field wire Hf Hw) as (-> & Hr & _).
    by apply varintLen_spec. }
  unfold stringFieldLen, uint32FieldLen, bytesFieldLen, appendBytes, appendString,
    appendUint32, appendTag, appendVarint, wireBytes, wireVarint.
  rewrite !Htag by lia. split_and!.
  - rewrite varintLen_spec by (unfold in_uint64; lia). rewrite !length_app. cbn [length]. lia.
  - case_bool_decide; [done|].
    rewrite varintLen_spec by (unfold in_uint64; lia). rewrite !length_app. cbn [length]. lia.
  - destruct (Z.eqb_spec v 0); [done|].
    rewrite varintLen_spec by (unfold in_uint64; lia). rewrite !length_app. cbn [length]. lia.
Qed.

(** ** Witnesses *)

Lemma varint_roundtrip_witness :
  consumeVarint (appendVarint [] 300 ++ [7]) = (300, varintLen 300).
Proof. apply (varint_roundtrip 300 [7]). by unfold in_uint64. Defined.

Definition sample_fields : list protoField :=
  [ProtoField 1 0 [] 300; ProtoField 2 2 [104; 105] 0].

Lemma parse_encode_witness :
  parseProtoFieldsWire (encode_fields sample_fields) false 5 = (Ok sample_fields, 3) /\
  parseProtoFieldsWire (encode_fields sample_fields) false 1 = (Err ErrProtoFieldCount, 0).
Proof.
  assert (Forall wf_field sample_fields).
  { constructor; [|constructor; [|constructor]]; (split; [cbn; lia|]); [left|right];
      (split; [done|]); (split; [done|]); cbn; unfold in_uint64; lia. }
  split; by rewrite parse_encode.
Defined.

Lemma parse_charges_witness :
  let '(r, b) := parseProtoFieldsWire [8; 1; 8] false 5 in 0 <= b <= 5.
Proof. pose proof (parse_charges [8; 1; 8] false 5 ltac:(lia)) as H. by destruct H. Defined.

(** A list holding one string: two fields charged for two nodes. *)
Lemma decodeProtoValue_bounded_witness :
  decodeProtoValue [50; 5; 10; 3; 26; 1; 97] 0 10 = (Some (VList [VString [97]]), 7) /\
  0 <= 7 <= 10.
Proof.
  pose proof (decodeProtoValue_bounded [50; 5; 10; 3; 26; 1; 97] 0 10
    ltac:(lia) ltac:(lia)) as H.
  assert (decodeProtoValue [50; 5; 10; 3; 26; 1; 97] 0 10 =
          (Some (VList [VString [97]]), 7)) as E by (vm_compute; reflexivity).
  rewrite E in H. split; [done|]. apply H.
Defined.

Lemma decodeProtoValue_total_witness :
  decodeProtoValue_fuel 200 [26; 1; 97] 0 10 = decodeProtoValue [26; 1; 97] 0 10.
Proof. apply decodeProtoValue_total; unfold protoValueMaxDepth; lia. Defined.

Lemma field_lengths_witness :
  Z.of_nat (length (appendUint32 [] 3 70000)) = uint32FieldLen 3 70000.
Proof. apply (field_lengths 3 [] []); cbn; lia. Defined.
