(* ===== verification/GoTime.v ===== *)
(** Go's [time] package as the scheduler uses it: instants, durations, and
    the comparisons and arithmetic between them. *)

From S2P Require Import Prelude.

(** An instant is a count of nanoseconds from the zero [time.Time] (January 1,
    year 1, UTC), so the zero value is 0 and [IsZero] is a test against it. A
    duration is an int64 count of nanoseconds. *)
Abbreviation Time := Z.
Abbreviation Duration := Z.

Definition zeroTime : Time := 0.
Definition IsZero (t : Time) : bool := t =? 0.
Definition Before (t u : Time) : bool := t <? u.
Definition After (t u : Time) : bool := u <? t.
Definition Add (t : Time) (d : Duration) : Time := t + d.

(** [Sub] saturates at the int64 range, as Go's does. *)
Definition saturate64 (z : Z) : Z := Z.max int64_min (Z.min int64_max z).
Definition Sub (t u : Time) : Duration := saturate64 (t - u).

(** Seconds from year 1 to the Unix epoch, in nanoseconds. *)
Definition unixEpoch : Time := 62135596800 * 10 ^ 9.
Definition UnixNano (t : Time) : Z := wrap64 (t - unixEpoch).

Definition Nanosecond : Duration := 1.
Definition Millisecond : Duration := 10 ^ 6.
Definition Second : Duration := 10 ^ 9.
Definition Hour : Duration := 3600 * 10 ^ 9.

(** Go's integer division and remainder truncate toward zero. *)
Definition godiv (a b : Z) : Z := Z.quot a b.
Definition gomod (a b : Z) : Z := Z.rem a b.

Lemma Sub_exact t u : in_int64 (t - u) -> Sub t u = t - u.
Proof. unfold Sub, saturate64, in_int64. lia. Qed.

Lemma Sub_range t u : in_int64 (Sub t u).
Proof. unfold Sub, saturate64, in_int64, int64_min, int64_max. lia. Qed.

Lemma Sub_mono t t' u : t <= t' -> Sub t u <= Sub t' u.
Proof. unfold Sub, saturate64. lia. Qed.

Lemma gomod_pos a b : 0 <= a -> 0 < b -> gomod a b = a mod b.
Proof. intros. unfold gomod. apply Z.rem_mod_nonneg; lia. Qed.

Lemma godiv_pos a b : 0 <= a -> 0 < b -> godiv a b = a / b.
Proof. intros. unfold godiv. apply Z.quot_div_nonneg; lia. Qed.

#[export] Hint Resolve Sub_range : mv.
