(* ===== verification/Window.v ===== *)
(** internal/scheduler/throttle.go, strictWindow: the sliding request window. *)

From S2P Require Import Prelude GoTime.

Definition maxWindowSlots : Z := 65536.

Record strictWindow := StrictWindow {
  sw_enabled : bool;
  sw_count : Z;
  sw_window : Duration;
  sw_stamps : list Time;
  sw_head : Z;
  sw_filled : Z;
  sw_interval : Duration;
  sw_next : Time;
}.

Definition zeroWindow : strictWindow := StrictWindow false 0 0 [] 0 0 0 zeroTime.

Definition sw_set_filled (f : Z) (w : strictWindow) : strictWindow :=
  StrictWindow (sw_enabled w) (sw_count w) (sw_window w) (sw_stamps w)
    (sw_head w) f (sw_interval w) (sw_next w).
Definition sw_set_next (t : Time) (w : strictWindow) : strictWindow :=
  StrictWindow (sw_enabled w) (sw_count w) (sw_window w) (sw_stamps w)
    (sw_head w) (sw_filled w) (sw_interval w) t.

Definition paced (w : strictWindow) : bool := sw_enabled w && (0 <? sw_interval w).

Definition window_reset (count : Z) (window : Duration) (now : Time) : strictWindow :=
  if (count <=? 0) || (window <=? 0) then zeroWindow
  else if maxWindowSlots <? count
  then StrictWindow true count window [] 0 0 (godiv window count + 1) now
  else StrictWindow true count window (replicate (Z.to_nat count) zeroTime) 0 0 0 zeroTime.

(** The stamp at ring position [i]; every index the code computes is in range. *)
Definition stamp_at (w : strictWindow) (i : Z) : Time :=
  default zeroTime (sw_stamps w !! Z.to_nat i).
Definition ring_len (w : strictWindow) : Z := Z.of_nat (length (sw_stamps w)).
Definition oldest (w : strictWindow) : Time :=
  stamp_at w (gomod (sw_head w - sw_filled w + ring_len w) (ring_len w)).

Fixpoint prune_loop (fuel : nat) (cutoff : Time) (w : strictWindow) : strictWindow :=
  match fuel with
  | O => w
  | S fuel =>
      if 0 <? sw_filled w then
        if After (oldest w) cutoff then w
        else prune_loop fuel cutoff (sw_set_filled (sw_filled w - 1) w)
      else w
  end.

Definition prune (w : strictWindow) (now : Time) : strictWindow :=
  if negb (sw_enabled w) || paced w then w
  else prune_loop (Z.to_nat (sw_filled w)) (Add now (- sw_window w)) w.

(** waitFor: the window after its prune, the wait, and whether it blocks. *)
Definition window_waitFor (w : strictWindow) (now : Time) : strictWindow * Duration * bool :=
  if negb (sw_enabled w) then (w, 0, false) else
  if paced w then
    if Before now (sw_next w) then (w, Sub (sw_next w) now, true) else (w, 0, false)
  else
    let w := prune w now in
    if sw_filled w <? sw_count w then (w, 0, false) else
    let d := Sub (Add (oldest w) (sw_window w)) now in
    (w, if d <? 0 then 0 else d, true).

Definition window_admit (w : strictWindow) (now : Time) : strictWindow :=
  if negb (sw_enabled w) then w else
  if paced w then
    let next := if Before (sw_next w) now then now else sw_next w in
    sw_set_next (Add next (sw_interval w)) w
  else
    let w := prune w now in
    StrictWindow (sw_enabled w) (sw_count w) (sw_window w)
      (<[Z.to_nat (sw_head w) := now]> (sw_stamps w))
      (gomod (sw_head w + 1) (ring_len w))
      (if sw_filled w <? ring_len w then sw_filled w + 1 else sw_filled w)
      (sw_interval w) (sw_next w).

(** remaining and capacity report a float64 of an integer; the integer is what
    is modelled. *)
Definition window_remaining (w : strictWindow) (now : Time) : strictWindow * Z :=
  if negb (sw_enabled w) then (w, 0) else
  if paced w then (w, if Before now (sw_next w) then 0 else sw_count w)
  else let w := prune w now in (w, sw_count w - sw_filled w).
Definition window_capacity (w : strictWindow) : Z :=
  if negb (sw_enabled w) then 0 else sw_count w.

(** ** The log's abstraction: the live stamps, oldest first *)

Definition ring_pos (w : strictWindow) (i : Z) : Z :=
  (sw_head w - sw_filled w + i) mod ring_len w.
Definition live (w : strictWindow) : list Time :=
  map (fun i => stamp_at w (ring_pos w (Z.of_nat i))) (seq 0 (Z.to_nat (sw_filled w))).

Record log_wf (w : strictWindow) : Prop := {
  lw_enabled : sw_enabled w = true;
  lw_interval : sw_interval w = 0;
  lw_len : ring_len w = sw_count w;
  lw_count : 0 < sw_count w;
  lw_head : 0 <= sw_head w < sw_count w;
  lw_filled : 0 <= sw_filled w <= sw_count w;
  lw_window : 0 < sw_window w;
}.

Lemma log_not_paced w : log_wf w -> paced w = false.
Proof. intros H. unfold paced. rewrite (lw_interval w H). by rewrite andb_false_r. Qed.

Lemma live_length w : Z.of_nat (length (live w)) = Z.max 0 (sw_filled w).
Proof. unfold live. rewrite length_map, length_seq. lia. Qed.

Lemma set_filled_wf f w : log_wf w -> 0 <= f <= sw_count w -> log_wf (sw_set_filled f w).
Proof. intros [] Hf. by constructor. Qed.

Lemma live_pop w :
  log_wf w -> 0 < sw_filled w ->
  live w = oldest w :: live (sw_set_filled (sw_filled w - 1) w).
Proof.
  intros Hwf Hf. destruct Hwf. unfold live.
  replace (Z.to_nat (sw_filled w)) with (S (Z.to_nat (sw_filled w - 1))) by lia.
  cbn [seq map sw_set_filled sw_filled]. f_equal.
  - unfold oldest, ring_pos. rewrite gomod_pos by lia. f_equal.
    replace (sw_head w - sw_filled w + ring_len w)
      with (sw_head w - sw_filled w + Z.of_nat 0 + 1 * ring_len w) by lia.
    by rewrite Z.mod_add by lia.
  - rewrite <- seq_shift, map_map. apply map_ext. intros i.
    unfold stamp_at, ring_pos, ring_len. cbn [sw_set_filled sw_head sw_filled sw_stamps].
    by replace (sw_head w - sw_filled w + Z.of_nat (S i))
      with (sw_head w - (sw_filled w - 1) + Z.of_nat i) by lia.
Qed.

Lemma prune_loop_spec fuel cutoff w :
  log_wf w -> Z.to_nat (sw_filled w) = fuel ->
  exists f, prune_loop fuel cutoff w = sw_set_filled f w /\ 0 <= f <= sw_filled w /\
    live (prune_loop fuel cutoff w) = drop_while (fun t => t <=? cutoff) (live w).
Proof.
  revert w. induction fuel as [|fuel IH]; intros w Hwf Hf; cbn [prune_loop].
  - assert (sw_filled w = 0) by (destruct Hwf; lia).
    exists 0. unfold live. rewrite H. split_and!; [destruct w; cbn in *; by subst|lia..|done].
  - destruct (Z.ltb_spec 0 (sw_filled w)); [|destruct Hwf; lia].
    rewrite (live_pop w) by done. unfold After. cbn [drop_while].
    destruct (Z.ltb_spec cutoff (oldest w)), (Z.leb_spec (oldest w) cutoff); try lia.
    + exists (sw_filled w). split_and!; [by destruct w|lia..|by rewrite <- live_pop].
    + destruct (IH (sw_set_filled (sw_filled w - 1) w)) as (f & He & Hr & Hl).
      * apply set_filled_wf; [done|]. destruct Hwf. lia.
      * cbn. lia.
      * exists f. split_and!; [by rewrite He|cbn in Hr; lia..|done].
Qed.

Lemma prune_spec w now :
  log_wf w ->
  exists f, prune w now = sw_set_filled f w /\ 0 <= f <= sw_filled w /\
    live (prune w now) = drop_while (fun t => t <=? now - sw_window w) (live w).
Proof.
  intros Hwf. unfold prune. rewrite (lw_enabled w Hwf), (log_not_paced w Hwf). cbn [negb orb].
  destruct (prune_loop_spec (Z.to_nat (sw_filled w)) (Add now (- sw_window w)) w Hwf eq_refl)
    as (f & He & Hf & Hl).
  exists f. by replace (now - sw_window w) with (Add now (- sw_window w)) by (unfold Add; lia).
Qed.

Lemma prune_wf w now : log_wf w -> log_wf (prune w now).
Proof.
  intros Hwf. destruct (prune_spec w now Hwf) as (f & -> & Hf & _).
  apply set_filled_wf; [done|]. destruct Hwf. lia.
Qed.

Lemma ring_shift h f i n : 0 < n -> ((h + 1) mod n - (f + 1) + i) mod n = (h - f + i) mod n.
Proof.
  intros Hn. rewrite (Z.mod_eq (h + 1) n) by lia.
  replace (h + 1 - n * ((h + 1) / n) - (f + 1) + i)
    with (h - f + i + - ((h + 1) / n) * n) by lia.
  apply Z.mod_add. lia.
Qed.

(** Admitting below the cap appends the instant to the live log. *)
Lemma admit_live w now :
  log_wf w -> sw_filled (prune w now) < sw_count w ->
  log_wf (window_admit w now) /\
  live (window_admit w now) = live (prune w now) ++ [now] /\
  sw_count (window_admit w now) = sw_count w /\ sw_window (window_admit w now) = sw_window w.
Proof.
  intros Hwf Hlt. unfold window_admit.
  rewrite (lw_enabled w Hwf), (log_not_paced w Hwf). cbn [negb].
  pose proof (prune_wf w now Hwf) as Hp.
  assert (sw_count (prune w now) = sw_count w /\ sw_window (prune w now) = sw_window w) as [Hc Hw].
  { destruct (prune_spec w now Hwf) as (f & -> & _). done. }
  set (p := prune w now) in *. clearbody p. destruct Hp.
  rewrite <- Hc in Hlt. cbv zeta.
  destruct (Z.ltb_spec (sw_filled p) (ring_len p)); [|lia].
  assert (Hlen : Z.of_nat (length (<[Z.to_nat (sw_head p):=now]> (sw_stamps p))) = ring_len p).
  { by rewrite length_insert. }
  rewrite (gomod_pos _ (ring_len p)) by lia.
  split; [|split; [|done]].
  - pose proof (Z.mod_pos_bound (sw_head p + 1) (ring_len p) ltac:(lia)).
    assert (ring_len p = sw_count p) as Hrc by done.
    constructor; cbn [sw_enabled sw_interval sw_count sw_head sw_filled sw_window]; try done; try lia.
    unfold ring_len; cbn [sw_stamps]. lia.
  - unfold live at 1. cbn [sw_filled].
    replace (Z.to_nat (sw_filled p + 1)) with (Z.to_nat (sw_filled p) + 1)%nat by lia.
    rewrite seq_app, map_app. f_equal.
    + apply map_ext_in. intros i Hi%in_seq.
      unfold stamp_at, ring_pos, ring_len; cbn [sw_head sw_filled sw_stamps].
      rewrite Hlen. fold (ring_len p).
      assert (((sw_head p + 1) mod ring_len p - (sw_filled p + 1) + Z.of_nat i) mod ring_len p
              = (sw_head p - sw_filled p + Z.of_nat i) mod ring_len p) as ->.
      { by apply ring_shift; lia. }
      rewrite list_lookup_insert_ne; [done|]. intros Heq.
      pose proof (Z.mod_pos_bound (sw_head p - sw_filled p + Z.of_nat i) (ring_len p) ltac:(lia)).
      apply Z2Nat.inj in Heq; [|lia..].
      assert (((sw_head p - sw_filled p + Z.of_nat i) - sw_head p) mod ring_len p = 0) as Hz.
      { rewrite <- Zminus_mod_idemp_l, <- Heq, Z.sub_diag. done. }
      apply Z.mod_divide in Hz; [|lia]. destruct Hz as [k Hk].
      destruct (Z.lt_trichotomy k 0) as [?|[->|?]]; nia.
    + cbn [seq map plus]. f_equal. unfold stamp_at, ring_pos, ring_len; cbn.
      rewrite Hlen. fold (ring_len p).
      replace ((sw_head p + 1) mod ring_len p - (sw_filled p + 1)
               + Z.of_nat (Z.to_nat (sw_filled p)))
        with ((sw_head p + 1) mod ring_len p - 1) by lia.
      rewrite Zminus_mod_idemp_l.
      replace (sw_head p + 1 - 1) with (sw_head p) by lia.
      rewrite Z.mod_small by lia.
      rewrite list_lookup_insert_eq; [done|]. unfold ring_len in *. lia.
Qed.

Lemma waitFor_log w now :
  log_wf w ->
  window_waitFor w now =
    let p := prune w now in
    if sw_filled p <? sw_count p then (p, 0, false) else
    let d := Sub (Add (oldest p) (sw_window p)) now in
    (p, if d <? 0 then 0 else d, true).
Proof.
  intros H. unfold window_waitFor. by rewrite (lw_enabled w H), (log_not_paced w H).
Qed.

Record paced_wf (w : strictWindow) : Prop := {
  pw_enabled : sw_enabled w = true;
  pw_interval : 0 < sw_interval w <= sw_window w;
  pw_count : 0 < sw_count w;
  pw_window : 0 < sw_window w;
  pw_fits : sw_window w < sw_interval w * sw_count w;
}.

Lemma paced_wf_paced w : paced_wf w -> paced w = true.
Proof. intros H. unfold paced. rewrite (pw_enabled w H). apply Z.ltb_lt, (pw_interval w H). Qed.

Lemma waitFor_paced w now :
  paced_wf w ->
  window_waitFor w now =
    if Before now (sw_next w) then (w, Sub (sw_next w) now, true) else (w, 0, false).
Proof.
  intros H. unfold window_waitFor. by rewrite (pw_enabled w H), (paced_wf_paced w H).
Qed.

Lemma reset_wf count window now :
  0 < count -> 0 < window ->
  let w := window_reset count window now in
  sw_count w = count /\ sw_window w = window /\
  (if count <=? maxWindowSlots then log_wf w /\ sw_filled w = 0
   else paced_wf w /\ sw_next w = now).
Proof.
  intros Hc Hw. unfold window_reset.
  destruct (Z.leb_spec count 0), (Z.leb_spec window 0); try lia. cbn [orb].
  destruct (Z.ltb_spec maxWindowSlots count), (Z.leb_spec count maxWindowSlots); try lia;
    cbn [sw_count sw_window sw_next sw_filled]; split_and!; try done.
  - constructor; cbn [sw_enabled sw_interval sw_window sw_count]; try done.
    + rewrite godiv_pos by lia. pose proof (Z.div_pos window count ltac:(lia) ltac:(lia)).
      pose proof (Z.div_lt window count ltac:(lia) ltac:(unfold maxWindowSlots in *; lia)). lia.
    + rewrite godiv_pos by lia. pose proof (Z.mul_succ_div_gt window count ltac:(lia)). lia.
  - constructor; cbn [sw_enabled sw_interval sw_window sw_count sw_head sw_filled];
      try done; try lia.
    unfold ring_len; cbn [sw_stamps]. rewrite length_replicate. lia.
Qed.

(** ** Runs of a budget

    The code asks [waitFor] and admits only when it does not block; the clock
    does not run backwards. The history is every admitted instant, newest
    first. *)
Inductive windowRun (count : Z) (window : Duration) :
  strictWindow -> list Time -> Time -> Prop :=
  | run_reset now : windowRun count window (window_reset count window now) [] now
  | run_look w h last now w' d b :
      windowRun count window w h last -> last <= now ->
      window_waitFor w now = (w', d, b) ->
      windowRun count window w' h now
  | run_admit w h last now w' d now' :
      windowRun count window w h last -> last <= now -> now <= now' ->
      window_waitFor w now = (w', d, false) ->
      windowRun count window (window_admit w' now') (now' :: h) now'.

(** Admits in the half-open span (lo, hi]. *)
Definition admits_in (h : list Time) (lo hi : Time) : Z :=
  Z.of_nat (length (filter (fun t => lo < t /\ t <= hi) h)).

Lemma admits_in_cons t h lo hi :
  admits_in (t :: h) lo hi =
    admits_in h lo hi + (if decide (lo < t /\ t <= hi) then 1 else 0).
Proof. unfold admits_in. rewrite filter_cons. case_decide; cbn [length]; lia. Qed.

Lemma admits_in_app h k lo hi :
  admits_in (h ++ k) lo hi = admits_in h lo hi + admits_in k lo hi.
Proof. unfold admits_in. rewrite filter_app, length_app. lia. Qed.

Lemma admits_in_le h lo hi : admits_in h lo hi <= Z.of_nat (length h).
Proof. unfold admits_in. pose proof (length_filter (fun t => lo < t /\ t <= hi) h). lia. Qed.

Lemma admits_in_old h lo hi : Forall (fun t => t <= lo) h -> admits_in h lo hi = 0.
Proof.
  induction 1; [done|]. rewrite admits_in_cons, IHForall. case_decide; lia.
Qed.

Lemma admits_in_cap h lo hi b :
  Forall (fun t => t <= b) h -> b <= hi -> admits_in h lo hi = admits_in h lo b.
Proof.
  intros H Hb. induction H; [done|]. rewrite !admits_in_cons, IHForall.
  repeat case_decide; lia.
Qed.

(** Instants spaced by at least [i], newest first. *)
Inductive spaced (i : Z) : list Time -> Prop :=
  | spaced_nil : spaced i []
  | spaced_cons t h : Forall (fun u => u <= t - i) h -> spaced i h -> spaced i (t :: h).

Lemma spaced_admits i h lo hi :
  0 < i -> spaced i h ->
  admits_in h lo hi = 0 \/ (admits_in h lo hi - 1) * i < hi - lo.
Proof.
  intros Hi H. revert hi. induction H as [|t h Ht _ IH]; intros hi; [by left|].
  rewrite admits_in_cons. case_decide as Hin; [|rewrite Z.add_0_r; apply IH].
  right. rewrite (admits_in_cap h lo hi (t - i)) by (done || lia).
  destruct (IH (t - i)) as [-> | Hn]; nia.
Qed.

Record run_inv (count : Z) (window : Duration) (w : strictWindow) (h : list Time)
    (last : Time) : Prop := {
  ri_count : sw_count w = count;
  ri_window : sw_window w = window;
  ri_bound : forall t, admits_in h (t - window) t <= count;
  ri_mode : (log_wf w /\ exists old, h = reverse (live w) ++ old /\
               Forall (fun t => t <= last - window) old /\ Forall (fun t => t <= last) (live w))
            \/ (paced_wf w /\ spaced (sw_interval w) h /\ sw_next w <= last + sw_interval w /\
                Forall (fun t => t <= sw_next w - sw_interval w) h);
}.

Lemma run_inv_prune count window w h last now :
  run_inv count window w h last -> log_wf w -> last <= now ->
  run_inv count window (prune w now) h now.
Proof.
  intros [Hc Hw Hb Hm] Hwf Hle.
  destruct Hm as [(_ & old & -> & Ho & Hl) | (Hp & _)].
  2: { pose proof (log_not_paced w Hwf). pose proof (paced_wf_paced w Hp). congruence. }
  destruct (prune_spec w now Hwf) as (f & He & Hf & Hlive).
  destruct (drop_while_suffix (fun t => t <=? now - sw_window w) (live w)) as (p & Hsplit & Hp).
  rewrite <- Hlive in Hsplit.
  split; [by rewrite He|by rewrite He|done|left].
  split; [by apply prune_wf|]. exists (reverse p ++ old).
  rewrite Hsplit in Hl. apply Forall_app in Hl as [_ Hl].
  split_and!.
  - rewrite Hsplit at 1. by rewrite reverse_app, app_assoc.
  - apply Forall_app. split.
    + apply Forall_reverse. eapply Forall_impl; [exact Hp|]. cbn. intros t Ht%Z.leb_le. lia.
    + eapply Forall_impl; [exact Ho|]. cbn. lia.
  - eapply Forall_impl; [exact Hl|]. cbn. lia.
Qed.

Lemma run_inv_later count window w h last now :
  run_inv count window w h last -> paced_wf w -> last <= now -> run_inv count window w h now.
Proof.
  intros [Hc Hw Hb Hm] Hp Hle. split; [done..|right].
  destruct Hm as [(Hwf & _) | (_ & ? & ? & ?)].
  - pose proof (log_not_paced w Hwf). pose proof (paced_wf_paced w Hp). congruence.
  - split_and!; [done..|lia|done].
Qed.

Lemma run_inv_look count window w h last now w' d b :
  run_inv count window w h last -> last <= now -> window_waitFor w now = (w', d, b) ->
  run_inv count window w' h now.
Proof.
  intros Hi Hle E. destruct (ri_mode _ _ _ _ _ Hi) as [(Hwf & _) | (Hp & _)].
  - rewrite waitFor_log in E by done. cbv zeta in E.
    assert (w' = prune w now) as ->
      by (destruct (sw_filled (prune w now) <? sw_count (prune w now)); congruence).
    by eapply run_inv_prune.
  - rewrite waitFor_paced in E by done.
    assert (w' = w) as -> by (destruct (Before now (sw_next w)); congruence).
    by eapply run_inv_later.
Qed.

(** An admit at [now] joins only admits less than one window old, so a span of
    one window that contains it holds at most [n] admits when at most [n - 1]
    live ones precede it. *)
Lemma bound_cons count window h now :
  0 < window ->
  (forall t, admits_in h (t - window) t <= count) ->
  Forall (fun u => u <= now) h ->
  (forall t, now <= t < now + window -> admits_in h (t - window) t < count) ->
  forall t, admits_in (now :: h) (t - window) t <= count.
Proof.
  intros Hw Hb Hn Hlt t. rewrite admits_in_cons. case_decide.
  - specialize (Hlt t ltac:(lia)). lia.
  - rewrite Z.add_0_r. apply Hb.
Qed.

Lemma run_inv_admit_log count window w h last now :
  run_inv count window w h last -> log_wf w -> last <= now ->
  sw_filled (prune w now) < sw_count w ->
  run_inv count window (window_admit w now) (now :: h) now.
Proof.
  intros Hi Hwf Hle Hlt.
  destruct (admit_live w now Hwf Hlt) as (Hwf' & Hl' & Hc' & Hw').
  pose proof (prune_wf w now Hwf) as Hpw.
  destruct (run_inv_prune _ _ _ _ _ _ Hi Hwf Hle) as [Hc Hw Hb Hm].
  destruct Hm as [(_ & old & Hh & Ho & Hl) | (Hp & _)].
  2: { pose proof (log_not_paced _ Hpw). pose proof (paced_wf_paced _ Hp). congruence. }
  destruct (prune_spec w now Hwf) as (f & He & _).
  assert (sw_count w = count) as Hcw by (rewrite <- Hc, He; done).
  assert (sw_window w = window) as Hww by (rewrite <- Hw, He; done).
  pose proof (lw_window w Hwf) as Hwpos.
  split; [congruence|congruence| |left].
  - apply bound_cons; [lia|exact Hb| |].
    + rewrite Hh. apply Forall_app. split; [by apply Forall_reverse|].
      eapply Forall_impl; [exact Ho|]. cbn. lia.
    + intros t Ht. rewrite Hh, admits_in_app, (admits_in_old old).
      * pose proof (admits_in_le (reverse (live (prune w now))) (t - window) t) as Hle'.
        rewrite length_reverse in Hle'. rewrite (live_length (prune w now)) in Hle'.
        destruct Hpw. lia.
      * eapply Forall_impl; [exact Ho|]. cbn. lia.
  - split; [done|]. exists old. split_and!.
    + by rewrite Hl', reverse_app, Hh.
    + done.
    + rewrite Hl'. apply Forall_app. split; [done|]. by constructor.
Qed.

Lemma run_inv_admit_paced count window w h last now :
  run_inv count window w h last -> paced_wf w -> sw_next w <= now ->
  run_inv count window (window_admit w now) (now :: h) now.
Proof.
  intros [Hc Hw Hb Hm] Hp Hn.
  destruct Hm as [(Hwf & _) | (_ & Hs & Hnx & Hall)].
  { pose proof (log_not_paced w Hwf). pose proof (paced_wf_paced w Hp). congruence. }
  assert (window_admit w now = sw_set_next (now + sw_interval w) w) as ->.
  { unfold window_admit, Before, Add. rewrite (pw_enabled w Hp), (paced_wf_paced w Hp). cbn [negb].
    destruct (Z.ltb_spec (sw_next w) now); [done|]. by replace (sw_next w) with now by lia. }
  destruct Hp as [He [Hi Hiw] Hcp Hwp Hfit].
  assert (spaced (sw_interval w) (now :: h)) as Hs'.
  { constructor; [|done]. eapply Forall_impl; [exact Hall|]. cbn. lia. }
  split; [done|done| |right].
  - intros t. destruct (spaced_admits (sw_interval w) (now :: h) (t - window) t) as [E|E];
      [lia|done|rewrite E; lia|].
    destruct (Z.le_gt_cases (admits_in (now :: h) (t - window) t) count); [done|].
    subst. nia.
  - split_and!; [by constructor|done| |]; cbn [sw_set_next sw_next sw_interval]; [lia|].
    replace (now + sw_interval w - sw_interval w) with now by lia.
    constructor; [lia|]. eapply Forall_impl; [exact Hall|]. cbn. lia.
Qed.

Lemma run_inv_run count window w h last :
  0 < count -> 0 < window -> windowRun count window w h last ->
  run_inv count window w h last.
Proof.
  intros Hc Hw Hr. induction Hr as [now|w h last now w' d b _ IH Hle E
                                   |w h last now w' d now' _ IH Hle Hle' E].
  - destruct (reset_wf count window now Hc Hw) as (Ec & Ew & Hm). split; [done|done| |].
    + intros t. change (admits_in [] (t - window) t) with 0. lia.
    + destruct (count <=? maxWindowSlots).
      * destruct Hm as [Hwf Hz]. left. split; [done|]. exists [].
        unfold live. rewrite Hz. done.
      * destruct Hm as [Hp Hn]. right. split_and!; [done|constructor| |constructor].
        destruct Hp. lia.
  - by eapply run_inv_look.
  - pose proof (run_inv_look _ _ _ _ _ _ _ _ _ IH Hle E) as Hi.
    destruct (ri_mode _ _ _ _ _ IH) as [(Hwf & _) | (Hp & _)].
    + rewrite waitFor_log in E by done. cbv zeta in E.
      destruct (Z.ltb_spec (sw_filled (prune w now)) (sw_count (prune w now))); [|congruence].
      injection E as <- _. pose proof (prune_wf w now Hwf).
      eapply run_inv_admit_log; [done..|].
      destruct (prune_spec (prune w now) now') as (f & -> & Hf & _); [done|]. cbn. lia.
    + rewrite waitFor_paced in E by done. unfold Before in E.
      destruct (Z.ltb_spec now (sw_next w)); [congruence|]. injection E as <- _.
      eapply run_inv_admit_paced; [exact Hi|done|lia].
Qed.

(** ** Properties *)

(** C32. A request budget is never exceeded: along any run in which admits
    follow an unblocked [waitFor] and the clock does not go back, every
    half-open span (t - Window, t] holds at most Count admits. It holds in both
    representations, the log of stamps and, above [maxWindowSlots], even
    spacing. *)
Theorem window_never_exceeded count window w h last :
  0 < count -> 0 < window -> windowRun count window w h last ->
  forall t, admits_in h (t - window) t <= count.
Proof. intros Hc Hw Hr. apply (ri_bound _ _ _ _ _ (run_inv_run _ _ _ _ _ Hc Hw Hr)). Qed.

Definition demo_window : strictWindow :=
  window_admit (window_admit (window_reset 2 10 0) 1) 3.

Lemma demo_window_run : windowRun 2 10 demo_window [3; 1] 3.
Proof.
  assert (windowRun 2 10 (window_admit (window_reset 2 10 0) 1) [1] 1) as H.
  - apply (run_admit 2 10 (window_reset 2 10 0) [] 0 1 (window_reset 2 10 0) 0 1);
      [constructor|lia|lia|vm_compute; reflexivity].
  - apply (run_admit 2 10 _ [1] 1 3 (window_admit (window_reset 2 10 0) 1) 0 3 H);
      [lia|lia|vm_compute; reflexivity].
Qed.

Lemma window_never_exceeded_witness : admits_in [3; 1] (12 - 10) 12 <= 2.
Proof.
  apply (window_never_exceeded 2 10 demo_window [3; 1] 3); [lia|lia|apply demo_window_run].
Defined.

Lemma waitFor_log_blocked p t :
  log_wf p -> sw_filled p = sw_count p -> 0 < sw_filled p ->
  (window_waitFor p t).2 = (t <? oldest p + sw_window p).
Proof.
  intros Hwf Hfull Hpos. rewrite waitFor_log by done. cbv zeta.
  destruct (prune_spec p t Hwf) as (f & He & Hf & Hlive).
  pose proof (live_length (prune p t)) as Hlen. rewrite Hlive, (live_pop p) in Hlen by done.
  pose proof (live_length (sw_set_filled (sw_filled p - 1) p)) as Htl. cbn [sw_set_filled sw_filled] in Htl.
  rewrite He in *. cbn [sw_set_filled sw_filled sw_count] in *. cbn [drop_while] in Hlen.
  destruct (Z.ltb_spec t (oldest p + sw_window p)), (Z.leb_spec (oldest p) (t - sw_window p)); try lia.
  - cbn [length] in Hlen. destruct (Z.ltb_spec f (sw_count p)); [lia|done].
  - pose proof (drop_while_suffix (fun t0 => t0 <=? t - sw_window p)
      (live (sw_set_filled (sw_filled p - 1) p))) as (q & Hq & _).
    apply (f_equal length) in Hq. rewrite length_app in Hq.
    unfold sw_set_filled in *.
    destruct (Z.ltb_spec f (sw_count p)); [done|lia].
Qed.

(** The wait a blocked budget reports is exact: the next admit is legal at
    [now + d] and at no earlier instant from [now] on. *)
Theorem window_wait_exact count window w h last now w' d :
  0 < count -> 0 < window <= int64_max ->
  windowRun count window w h last -> last <= now ->
  window_waitFor w now = (w', d, true) ->
  0 < d <= window /\
  (window_waitFor w' (now + d)).2 = false /\
  forall t, now <= t < now + d -> (window_waitFor w' t).2 = true.
Proof.
  intros Hc Hw Hr Hle E.
  pose proof (run_inv_run _ _ _ _ _ Hc (proj1 Hw) Hr) as Hi.
  destruct (ri_mode _ _ _ _ _ Hi) as [(Hwf & _) | (Hp & _ & Hnx & _)].
  - destruct (run_inv_prune _ _ _ _ _ _ Hi Hwf Hle) as [Ec Ew _ Hm].
    pose proof (prune_wf w now Hwf) as Hpw.
    rewrite waitFor_log in E by done. cbv zeta in E.
    destruct (prune_spec w now Hwf) as (f & Ep & _ & Hlive).
    destruct Hm as [(_ & old & _ & _ & Hl) | (Hpp & _)].
    2: { pose proof (log_not_paced _ Hpw). pose proof (paced_wf_paced _ Hpp). congruence. }
    pose proof (drop_while_stops (fun t => t <=? now - sw_window w) (live w)) as Hstop.
    rewrite <- Hlive in Hstop. assert (sw_window w = window) as Eww by (rewrite <- Ew, Ep; done).
    clear Hlive Ep. set (p := prune w now) in *. clearbody p.
    destruct (Z.ltb_spec (sw_filled p) (sw_count p)) as [|Hfull]; [congruence|].
    assert (0 < sw_filled p) by lia.
    rewrite (live_pop p) in Hl, Hstop by done. cbn in Hstop.
    apply Z.leb_gt in Hstop. apply Forall_cons in Hl as [Hl _].
    unfold Add in E. rewrite Sub_exact in E by (unfold in_int64, int64_min; lia).
    destruct (Z.ltb_spec (oldest p + sw_window p - now) 0); [lia|].
    injection E as <- <-. destruct Hpw.
    split_and!; [lia|lia| |intros t Ht]; rewrite waitFor_log_blocked by (done || lia).
    + apply Z.ltb_ge. lia.
    + apply Z.ltb_lt. lia.
  - rewrite waitFor_paced in E by done. unfold Before in E.
    destruct (Z.ltb_spec now (sw_next w)); [|congruence].
    destruct Hp as [He [Hi1 Hi2] Hcp Hwp Hfit]. pose proof (ri_window _ _ _ _ _ Hi) as Ew.
    rewrite Sub_exact in E by (unfold in_int64, int64_min; lia).
    injection E as <- <-.
    split_and!; [lia|lia| |intros t Ht]; (rewrite waitFor_paced by done); unfold Before.
    + destruct (Z.ltb_spec (now + (sw_next w - now)) (sw_next w)); [lia|done].
    + destruct (Z.ltb_spec t (sw_next w)); [done|lia].
Qed.

Lemma window_wait_exact_witness :
  (window_waitFor demo_window 5).2 = true /\ 0 < 6 <= 10.
Proof.
  split; [reflexivity|].
  destruct (window_wait_exact 2 10 demo_window [3; 1] 3 5 demo_window 6) as (H & _);
    [lia|unfold int64_max; lia|apply demo_window_run|lia|reflexivity|exact H].
Defined.
