(* ===== verification/Drain.v ===== *)
(** internal/scheduler/scheduler.go: the scheduler's errors, and operator
    drains as published tickets. *)

From S2P Require Import Prelude.

Inductive errorString :=
  | ErrQueueFull
  | ErrQueueDrained
  | ErrGroupLimit
  | ErrOverlap
  | ErrHoldNotFound
  | errMaxWait
  | errGroupRetired.

#[export] Instance errorString_eq_dec : EqDecision errorString.
Proof. solve_decision. Defined.

Record DrainScope := { ds_Provider : string; ds_Model : string; ds_Client : string }.

Definition drain_matches (scope : DrainScope) (provider model client : string) : bool :=
  if bool_decide (ds_Provider scope <> ""%string) && bool_decide (ds_Provider scope <> provider)
  then false
  else if bool_decide (ds_Model scope <> ""%string) && bool_decide (ds_Model scope <> model)
  then false
  else if bool_decide (ds_Client scope <> ""%string) && bool_decide (ds_Client scope <> client)
  then false
  else true.

Definition drainTicketHistory : nat := 8.

Record drainTicket := { dt_seq : Z; dt_scope : DrainScope }.

(** The two atomics: the last generation, and the published tickets, newest
    first ([None] before the first drain). *)
Record drainState := { dr_seq : Z; dr_tickets : option (list drainTicket) }.

Definition newDrainState : drainState := {| dr_seq := 0; dr_tickets := None |}.

(** The loop that copies the previous tickets until the history is full. *)
Fixpoint keep_tickets (kept prev : list drainTicket) : list drainTicket :=
  match prev with
  | [] => kept
  | ticket :: prev =>
      if Nat.eqb (length kept) drainTicketHistory then kept
      else keep_tickets (kept ++ [ticket]) prev
  end.

(** The ticket half of DrainQueue; it then kicks and drains every waiter. *)
Definition publishDrain (d : drainState) (scope : DrainScope) : drainState * Z :=
  let seq := u64 (dr_seq d + 1) in
  let kept := [{| dt_seq := seq; dt_scope := scope |}] in
  let kept := match dr_tickets d with
              | Some prev => keep_tickets kept prev
              | None => kept
              end in
  ({| dr_seq := seq; dr_tickets := Some kept |}, seq).

Definition queueDrained (d : drainState) (snapshot : Z) (provider model client : string) : bool :=
  if dr_seq d <=? snapshot then false else
  match dr_tickets d with
  | None => false
  | Some tickets =>
      existsb (fun t => (snapshot <? dt_seq t) &&
                        drain_matches (dt_scope t) provider model client) tickets
  end.

(** ** The drains issued so far, newest first *)

Fixpoint publishAll (scopes : list DrainScope) : drainState :=
  match scopes with
  | [] => newDrainState
  | s :: older => (publishDrain (publishAll older) s).1
  end.

Fixpoint numbered (scopes : list DrainScope) : list drainTicket :=
  match scopes with
  | [] => []
  | s :: older => {| dt_seq := Z.of_nat (length scopes); dt_scope := s |} :: numbered older
  end.

Lemma keep_tickets_take kept prev :
  (length kept <= drainTicketHistory)%nat ->
  keep_tickets kept prev = take drainTicketHistory (kept ++ prev).
Proof.
  revert kept. induction prev as [|t prev IH]; intros kept Hk; cbn [keep_tickets].
  - rewrite app_nil_r, take_ge; done.
  - destruct (Nat.eqb_spec (length kept) drainTicketHistory) as [He|Hne].
    + by rewrite <- He, take_app_length.
    + rewrite IH by (rewrite length_app; cbn [length]; lia).
      by rewrite <- app_assoc.
Qed.

Lemma numbered_seq scopes t :
  t ∈ numbered scopes -> 1 <= dt_seq t <= Z.of_nat (length scopes).
Proof.
  induction scopes as [|s r IH]; cbn [numbered]; [by intros ?%elem_of_nil|].
  intros [-> | H]%elem_of_cons; cbn [dt_seq length]; [lia|]. specialize (IH H). lia.
Qed.

Lemma publishAll_state scopes :
  Z.of_nat (length scopes) < 2 ^ 64 ->
  publishAll scopes =
    {| dr_seq := Z.of_nat (length scopes);
       dr_tickets := match scopes with
                     | [] => None
                     | _ => Some (take drainTicketHistory (numbered scopes))
                     end |}.
Proof.
  induction scopes as [|s r IH]; [done|]. intros Hlen. cbn [length] in Hlen.
  cbn [publishAll]. rewrite IH by lia. unfold publishDrain. cbn [dr_seq dr_tickets fst].
  rewrite u64_id by (unfold in_uint64; lia).
  replace (Z.of_nat (length r) + 1) with (Z.of_nat (length (s :: r))) by (cbn [length]; lia).
  f_equal. destruct r as [|s' r]; [done|].
  rewrite keep_tickets_take by (cbn [length]; unfold drainTicketHistory; lia). f_equal.
  change (take drainTicketHistory (numbered (s :: s' :: r))) with
    ({| dt_seq := Z.of_nat (length (s :: s' :: r)); dt_scope := s |}
       :: take 7 (numbered (s' :: r))).
  unfold drainTicketHistory. cbn [app take]. f_equal. by rewrite take_take.
Qed.

Lemma field_passes (x y : string) :
  bool_decide (x <> ""%string) && bool_decide (x <> y) = false <-> x = ""%string \/ x = y.
Proof.
  destruct (decide (x = ""%string)) as [->|H1]; [by split; [left|]|].
  rewrite (bool_decide_eq_true_2 (x <> ""%string)) by done. cbn [andb].
  destruct (decide (x = y)) as [->|H2].
  - rewrite bool_decide_eq_false_2 by (intros H; by apply H). split; [by right|done].
  - rewrite bool_decide_eq_true_2 by done. split; [done|]. intros [?|?]; congruence.
Qed.

Lemma drain_matches_spec scope p m c :
  drain_matches scope p m c = true <->
  (ds_Provider scope = ""%string \/ ds_Provider scope = p) /\
  (ds_Model scope = ""%string \/ ds_Model scope = m) /\
  (ds_Client scope = ""%string \/ ds_Client scope = c).
Proof.
  unfold drain_matches. rewrite <- !field_passes.
  destruct (bool_decide (ds_Provider scope <> ""%string) && _); [by split; [|intros [? _]]|].
  destruct (bool_decide (ds_Model scope <> ""%string) && _); [by split; [|intros (_ & ? & _)]|].
  destruct (bool_decide (ds_Client scope <> ""%string) && _); [by split; [|intros (_ & _ & ?)]|].
  done.
Qed.

Lemma numbered_lookup scopes i t :
  numbered scopes !! i = Some t ->
  scopes !! i = Some (dt_scope t) /\ dt_seq t = Z.of_nat (length scopes) - Z.of_nat i.
Proof.
  revert i. induction scopes as [|s r IH]; intros i; [done|].
  destruct i as [|i]; cbn [numbered lookup list_lookup].
  - intros [= <-]. cbn [dt_scope dt_seq length]. split; [done|]. lia.
  - intros [Hs Hq]%IH. split; [done|]. rewrite Hq. cbn [length]. lia.
Qed.

Lemma numbered_lookup_some scopes i s :
  scopes !! i = Some s ->
  numbered scopes !! i =
    Some {| dt_seq := Z.of_nat (length scopes) - Z.of_nat i; dt_scope := s |}.
Proof.
  revert i. induction scopes as [|s' r IH]; intros i; [done|].
  destruct i as [|i]; cbn [numbered lookup list_lookup].
  - intros [= ->]. do 2 f_equal; cbn [length]; lia.
  - intros H%IH. cbn [length].
    replace (Z.of_nat (S (length r)) - Z.of_nat (S i))
      with (Z.of_nat (length r) - Z.of_nat i) by lia. exact H.
Qed.

(** A parked waiter is released by operator drains exactly: with [before]
    the drains issued when it parked and [after] those since, [queueDrained]
    answers whether one of the last eight drains since then selects it. A drain
    that ran before it parked never releases it, and no drain is lost until
    eight newer ones have been issued. *)
Theorem queueDrained_exact before after p m c :
  Z.of_nat (length (after ++ before)) < 2 ^ 64 ->
  queueDrained (publishAll (after ++ before)) (dr_seq (publishAll before)) p m c = true <->
  exists i s, after !! i = Some s /\ (i < 8)%nat /\ drain_matches s p m c = true.
Proof.
  intros Hlen. rewrite (publishAll_state (after ++ before)) by done.
  rewrite length_app in Hlen. rewrite publishAll_state by lia.
  unfold queueDrained. cbn [dr_seq dr_tickets].
  destruct after as [|a after'].
  { cbn [app]. destruct (Z.leb_spec (Z.of_nat (length before)) (Z.of_nat (length before))); [|lia].
    split; [done|]. by intros (i & s & ? & _). }
  destruct (Z.leb_spec (Z.of_nat (length ((a :: after') ++ before))) (Z.of_nat (length before)))
    as [Hle|_]; [rewrite length_app in Hle; cbn [length] in Hle; lia|].
  remember (a :: after') as after eqn:Ea.
  replace (match after ++ before with [] => None
           | _ => Some (take drainTicketHistory (numbered (after ++ before))) end)
    with (Some (take drainTicketHistory (numbered (after ++ before)))) by (by subst).
  rewrite existsb_exists. split.
  - intros (t & Ht & Hm). apply list_elem_of_In, list_elem_of_lookup in Ht as [i Hi].
    apply lookup_take_Some in Hi as [Hi Hi8].
    apply numbered_lookup in Hi as [Hs Hq].
    apply andb_true_iff in Hm as [Hq'%Z.ltb_lt Hm].
    rewrite length_app in Hq. exists i, (dt_scope t). split_and!; [|exact Hi8|done].
    rewrite lookup_app_l in Hs; [done|lia].
  - intros (i & s & Hs & Hi & Hm).
    assert (Hl : (i < length after)%nat) by (by apply lookup_lt_Some in Hs).
    assert (Hs' : (after ++ before) !! i = Some s) by (by rewrite lookup_app_l).
    apply numbered_lookup_some in Hs'.
    eexists. split.
    + apply list_elem_of_In, list_elem_of_lookup. exists i.
      rewrite lookup_take_lt by done. exact Hs'.
    + cbn [dt_seq dt_scope]. rewrite Hm, andb_true_r. apply Z.ltb_lt.
      rewrite length_app. lia.
Qed.

Lemma queueDrained_exact_witness :
  queueDrained (publishAll [Build_DrainScope "" "m" ""; Build_DrainScope "p" "" ""]) 1
    "q" "m" "c" = true.
Proof.
  apply (queueDrained_exact [Build_DrainScope "p" "" ""] [Build_DrainScope "" "m" ""] "q" "m" "c").
  - cbn [app length]. lia.
  - exists 0%nat, (Build_DrainScope "" "m" ""). split; [reflexivity|].
    split; [lia|reflexivity].
Defined.
