(* ===== verification/Hold.v ===== *)
(** internal/scheduler/hold.go: operator holds - matching, the overlap test,
    the policy transitions that add, replace and remove a hold. *)

From stdpp Require Import sorting.
From S2P Require Import Prelude GoTime Drain.

Record Hold := {
  ID : string;
  All : bool;
  New : bool;
  Clients : list string;
  Providers : list string;
  KnownAtNew : list string;
  Until : Time;
  MaxQueued : Z;
}.

(** [now] is the reading of the clock the test makes. *)
Definition holdExpired (until now : Time) : bool := negb (IsZero until) && negb (Before now until).

Definition nonempty {A} (l : list A) : bool := match l with [] => false | _ => true end.

Definition Hold_Active (h : Hold) (now : Time) : bool :=
  if holdExpired (Until h) now then false
  else All h || New h || nonempty (Clients h) || nonempty (Providers h).

Record holdSnap := {
  hs_id : string;
  hs_all : bool;
  hs_new : bool;
  hs_clients : gset string;
  hs_providers : gset string;
  hs_knownNew : gset string;
  hs_until : Time;
  hs_maxQueued : Z;
}.

Record policySnap := { ps_holds : list holdSnap }.

(** setFrom: a nil map and an empty one answer every later question alike. *)
Definition setFrom (ss : list string) : gset string :=
  list_to_set (filter (fun s => s <> ""%string) ss).

Definition string_le (a b : string) : Prop := Is_true (String.leb a b).
Definition keysOf (m : gset string) : list string := merge_sort string_le (elements m).

(** The decimal digits of the sequence number. *)
Fixpoint digits (fuel : nat) (n : Z) : string :=
  match fuel with
  | O => EmptyString
  | S fuel =>
      let d := String (Ascii.ascii_of_nat (48 + Z.to_nat (n mod 10))) EmptyString in
      if n <? 10 then d else (digits fuel (n / 10) ++ d)%string
  end.
Definition FormatUint (n : Z) : string := digits 20 n.

(** newHoldID: the process-wide counter, and the id it names. *)
Definition newHoldID (holdSeq : Z) : Z * string :=
  let n := u64 (holdSeq + 1) in (n, ("p" ++ FormatUint n)%string).

Definition snapHold (holdSeq : Z) (h : Hold) : Z * holdSnap :=
  let '(holdSeq, id) :=
    if bool_decide (ID h = ""%string) then newHoldID holdSeq else (holdSeq, ID h) in
  (holdSeq,
   {| hs_id := id; hs_all := All h; hs_new := New h;
      hs_clients := setFrom (Clients h); hs_providers := setFrom (Providers h);
      hs_knownNew := setFrom (KnownAtNew h); hs_until := Until h;
      hs_maxQueued := MaxQueued h |}).

Definition hold_of (h : holdSnap) : Hold :=
  {| ID := hs_id h; All := hs_all h; New := hs_new h;
     Clients := keysOf (hs_clients h); Providers := keysOf (hs_providers h);
     KnownAtNew := keysOf (hs_knownNew h); Until := hs_until h;
     MaxQueued := hs_maxQueued h |}.

Definition has_members (m : gset string) : bool := bool_decide (m <> ∅).

Definition holdSnap_active (h : holdSnap) (now : Time) : bool :=
  if holdExpired (hs_until h) now then false
  else hs_all h || hs_new h || has_members (hs_clients h) || has_members (hs_providers h).

Definition clientOK (h : holdSnap) (client : string) : bool :=
  if hs_all h then true else
  let hasNamed := has_members (hs_clients h) in
  if hasNamed && bool_decide (client ∈ hs_clients h) then true else
  if hs_new h then negb (bool_decide (client ∈ hs_knownNew h)) else
  if hasNamed then false else has_members (hs_providers h).

Definition providerOK (h : holdSnap) (provider : string) : bool :=
  if hs_all h || negb (has_members (hs_providers h)) then true else
  if bool_decide (provider = ""%string) then false else
  bool_decide (provider ∈ hs_providers h).

Definition hold_matches (h : holdSnap) (now : Time) (client provider : string) : bool :=
  if negb (holdSnap_active h now) then false else
  if hs_all h then true else
  if negb (clientOK h client) then false else
  providerOK h provider.

Fixpoint first_match (hs : list holdSnap) (now : Time) (client provider : string)
    : option holdSnap :=
  match hs with
  | [] => None
  | h :: hs => if hold_matches h now client provider then Some h
               else first_match hs now client provider
  end.
Definition policy_match (p : policySnap) (now : Time) (client provider : string)
    : option holdSnap := first_match (ps_holds p) now client provider.

Definition policy_active (p : policySnap) (now : Time) : bool :=
  existsb (fun h => holdSnap_active h now) (ps_holds p).

Definition policy_list (p : policySnap) (now : Time) : list Hold :=
  map hold_of (filter (fun h => holdSnap_active h now) (ps_holds p)).

Fixpoint snapHolds (holdSeq : Z) (now : Time) (holds : list Hold) : Z * list holdSnap :=
  match holds with
  | [] => (holdSeq, [])
  | h :: holds =>
      if negb (Hold_Active h now) then snapHolds holdSeq now holds else
      let '(holdSeq, s) := snapHold holdSeq h in
      let '(holdSeq, rest) := snapHolds holdSeq now holds in
      (holdSeq, s :: rest)
  end.
Definition snapFromHolds (holdSeq : Z) (now : Time) (holds : list Hold) : Z * policySnap :=
  let '(holdSeq, hs) := snapHolds holdSeq now holds in (holdSeq, {| ps_holds := hs |}).

(** Every key of [a] is a key of [b]. *)
Definition keysIn (a b : gset string) : bool :=
  forallb (fun k => bool_decide (k ∈ b)) (elements a).

Definition holdEqual (a b : holdSnap) : bool :=
  if negb (bool_decide (hs_id a = hs_id b)) || negb (Bool.eqb (hs_all a) (hs_all b)) ||
     negb (Bool.eqb (hs_new a) (hs_new b)) || negb (hs_maxQueued a =? hs_maxQueued b) ||
     negb (hs_until a =? hs_until b)
  then false
  else if negb (Nat.eqb (size (hs_clients a)) (size (hs_clients b))) ||
          negb (Nat.eqb (size (hs_providers a)) (size (hs_providers b))) ||
          negb (Nat.eqb (size (hs_knownNew a)) (size (hs_knownNew b)))
  then false
  else keysIn (hs_clients a) (hs_clients b) && keysIn (hs_providers a) (hs_providers b) &&
       keysIn (hs_knownNew a) (hs_knownNew b).

Fixpoint holdsEqual (a b : list holdSnap) : bool :=
  match a, b with
  | [], [] => true
  | x :: a, y :: b => if negb (holdEqual x y) then false else holdsEqual a b
  | _, _ => false
  end.
Definition snapEqual (a b : policySnap) : bool := holdsEqual (ps_holds a) (ps_holds b).

(** ** The overlap test *)

Record holdScope := {
  sc_allClients : bool;
  sc_newClients : bool;
  sc_clients : gset string;
  sc_knownNew : gset string;
  sc_allProviders : bool;
  sc_providers : gset string;
}.

Definition scopeOf (h : Hold) : holdScope :=
  if All h then
    {| sc_allClients := true; sc_newClients := false; sc_clients := ∅;
       sc_knownNew := setFrom (KnownAtNew h); sc_allProviders := true; sc_providers := ∅ |}
  else
    {| sc_allClients := negb (New h) && negb (nonempty (Clients h));
       sc_newClients := New h;
       sc_clients := setFrom (Clients h);
       sc_knownNew := setFrom (KnownAtNew h);
       sc_allProviders := negb (nonempty (Providers h));
       sc_providers := if nonempty (Providers h) then setFrom (Providers h) else ∅ |}.

Definition namedOverlap (a b : gset string) : bool :=
  if negb (has_members a) || negb (has_members b) then false else
  let '(a, b) := if Nat.ltb (size b) (size a) then (b, a) else (a, b) in
  existsb (fun k => bool_decide (k ∈ b)) (elements a).

(** Some client of [named] is new to [known]. *)
Definition someUnknown (named known : gset string) : bool :=
  existsb (fun c => negb (bool_decide (c ∈ known))) (elements named).

Definition clientsOverlap (a b : holdScope) : bool :=
  if sc_allClients a || sc_allClients b then true else
  if namedOverlap (sc_clients a) (sc_clients b) then true else
  if sc_newClients a && sc_newClients b then true else
  if sc_newClients a && someUnknown (sc_clients b) (sc_knownNew a) then true else
  if sc_newClients b && someUnknown (sc_clients a) (sc_knownNew b) then true else
  false.

Definition providersOverlap (a b : holdScope) : bool :=
  if sc_allProviders a || sc_allProviders b then true
  else namedOverlap (sc_providers a) (sc_providers b).

Definition HoldsOverlap (a b : Hold) (now : Time) : bool :=
  if negb (Hold_Active a now) || negb (Hold_Active b now) then false else
  clientsOverlap (scopeOf a) (scopeOf b) && providersOverlap (scopeOf a) (scopeOf b).

(** ** Lemmas *)

(** Names as the operator boundary passes them: none is empty. *)
Definition clean (h : Hold) : Prop :=
  ""%string ∉ Clients h /\ ""%string ∉ Providers h.

(** The requests a hold parks. *)
Definition parks (h : Hold) (now : Time) (client provider : string) : bool :=
  hold_matches (snapHold 0 h).2 now client provider.

Definition scope_client (s : holdScope) (c : string) : Prop :=
  sc_allClients s = true \/ c ∈ sc_clients s \/ (sc_newClients s = true /\ c ∉ sc_knownNew s).
Definition scope_provider (s : holdScope) (p : string) : Prop :=
  sc_allProviders s = true \/ p ∈ sc_providers s.
Definition scope_ok (s : holdScope) : Prop :=
  (sc_allClients s = true \/ sc_newClients s = true \/ sc_clients s <> ∅) /\
  (sc_allProviders s = true \/ sc_providers s <> ∅).

Lemma elem_of_setFrom x ss : x ∈ setFrom ss <-> x ∈ ss /\ x <> ""%string.
Proof. unfold setFrom. rewrite elem_of_list_to_set, list_elem_of_filter. tauto. Qed.

Lemma elem_of_keysOf x m : x ∈ keysOf m <-> x ∈ m.
Proof. unfold keysOf. by rewrite merge_sort_Permutation, elem_of_elements. Qed.

Lemma has_members_true m : has_members m = true <-> exists x, x ∈ m.
Proof.
  unfold has_members. rewrite bool_decide_eq_true. split.
  - apply set_choose_L.
  - intros [x Hx] ->. set_solver.
Qed.

Lemma has_members_false m : has_members m = false <-> m = ∅.
Proof. unfold has_members. rewrite bool_decide_eq_false. split; [apply dec_stable|by intros -> ?]. Qed.

Lemma namedOverlap_spec a b : namedOverlap a b = true <-> exists k, k ∈ a /\ k ∈ b.
Proof.
  unfold namedOverlap.
  destruct (has_members a) eqn:Ha; [|apply has_members_false in Ha; subst; split; [done|]; intros (k & ? & ?); set_solver].
  destruct (has_members b) eqn:Hb; [|apply has_members_false in Hb; subst; cbn; split; [by destruct (has_members a)|]; intros (k & ? & ?); set_solver].
  cbn [negb orb].
  destruct (Nat.ltb (size b) (size a)); rewrite existsb_exists;
    split; intros (k & H1 & H2); exists k;
    rewrite <- ?list_elem_of_In, elem_of_elements, ?bool_decide_eq_true in *; tauto.
Qed.

Lemma someUnknown_spec named known :
  someUnknown named known = true <-> exists c, c ∈ named /\ c ∉ known.
Proof.
  unfold someUnknown. rewrite existsb_exists. split; intros (k & H1 & H2); exists k;
    rewrite <- ?list_elem_of_In, elem_of_elements, negb_true_iff, bool_decide_eq_false in *; tauto.
Qed.

Lemma clientsOverlap_spec a b :
  scope_ok a -> scope_ok b ->
  clientsOverlap a b = true <-> exists c, scope_client a c /\ scope_client b c.
Proof.
  intros [Ha _] [Hb _]. unfold clientsOverlap.
  pose proof (is_fresh (sc_knownNew a ∪ sc_knownNew b)) as Hfr.
  rewrite not_elem_of_union in Hfr. destruct Hfr as [Hfa Hfb].
  set (f := fresh _) in *. clearbody f.
  destruct (sc_allClients a) eqn:Ea.
  { split; [intros _|done]. destruct Hb as [Hb|[Hb|[c Hc]%set_choose_L]].
    - exists ""%string. by split; left.
    - exists f. split; [by left|]. right; right. done.
    - exists c. split; [by left|]. right; by left. }
  destruct (sc_allClients b) eqn:Eb.
  { split; [intros _|done]. destruct Ha as [Ha|[Ha|[c Hc]%set_choose_L]]; [done| |].
    - exists f. split; [|by left]. right; right. done.
    - exists c. split; [|by left]. right; by left. }
  cbn [orb].
  destruct (namedOverlap _ _) eqn:En.
  { apply namedOverlap_spec in En as (k & ? & ?). split; [intros _|done].
    exists k. unfold scope_client. tauto. }
  destruct (sc_newClients a && sc_newClients b) eqn:Enn.
  { apply andb_true_iff in Enn as [??]. split; [intros _|done].
    exists f. unfold scope_client. tauto. }
  destruct (sc_newClients a && someUnknown _ _) eqn:E1.
  { apply andb_true_iff in E1 as [? (c & ? & ?)%someUnknown_spec]. split; [intros _|done].
    exists c. unfold scope_client. tauto. }
  destruct (sc_newClients b && someUnknown _ _) eqn:E2.
  { apply andb_true_iff in E2 as [? (c & ? & ?)%someUnknown_spec]. split; [intros _|done].
    exists c. unfold scope_client. tauto. }
  split; [done|]. intros (c & [?|[Hc|[Hn Hk]]] & [?|[Hc'|[Hn' Hk']]]); try congruence.
  - assert (namedOverlap (sc_clients a) (sc_clients b) = true) by (apply namedOverlap_spec; eauto).
    congruence.
  - rewrite Hn' in E2. cbn [andb] in E2.
    assert (someUnknown (sc_clients a) (sc_knownNew b) = true) by (apply someUnknown_spec; eauto).
    congruence.
  - rewrite Hn in E1. cbn [andb] in E1.
    assert (someUnknown (sc_clients b) (sc_knownNew a) = true) by (apply someUnknown_spec; eauto).
    congruence.
  - by rewrite Hn, Hn' in Enn.
Qed.

Lemma providersOverlap_spec a b :
  scope_ok a -> scope_ok b ->
  providersOverlap a b = true <-> exists p, scope_provider a p /\ scope_provider b p.
Proof.
  intros [_ Ha] [_ Hb]. unfold providersOverlap, scope_provider.
  destruct (sc_allProviders a) eqn:Ea.
  { split; [intros _|done]. destruct Hb as [Hb|[p Hp]%set_choose_L];
      [exists ""%string; tauto|exists p; tauto]. }
  destruct (sc_allProviders b) eqn:Eb.
  { split; [intros _|done]. destruct Ha as [Ha|[p Hp]%set_choose_L]; [done|exists p; tauto]. }
  cbn [orb]. rewrite namedOverlap_spec. split; intros (k & H); exists k; [tauto|].
  destruct H as [[?|?] [?|?]]; (done || congruence).
Qed.

Lemma setFrom_members ss :
  ""%string ∉ ss -> has_members (setFrom ss) = nonempty ss.
Proof.
  intros H. destruct ss as [|x ss]; [done|]. apply has_members_true. exists x.
  apply elem_of_setFrom. split; [by left|]. intros ->. apply H. by left.
Qed.

Lemma scopeOf_ok h : clean h -> scope_ok (scopeOf h).
Proof.
  intros [Hc Hp]. unfold scope_ok, scopeOf.
  destruct (All h); [split; by left|]. cbn.
  pose proof (setFrom_members _ Hc) as E1. pose proof (setFrom_members _ Hp) as E2.
  split.
  - destruct (New h); [right; by left|]. destruct (nonempty (Clients h)); [|by left].
    right; right. intros E. by rewrite E in E1.
  - destruct (nonempty (Providers h)); [|by left]. right. intros E. by rewrite E in E2.
Qed.

Lemma snapHold_active seq h now :
  clean h -> holdSnap_active (snapHold seq h).2 now = Hold_Active h now.
Proof.
  intros [Hc Hp]. unfold snapHold.
  destruct (if bool_decide _ then _ else _) as [? ?].
  unfold holdSnap_active, Hold_Active. cbn [snd hs_until hs_all hs_new hs_clients hs_providers].
  by rewrite !setFrom_members.
Qed.

Lemma matches_indep seq h now c p :
  hold_matches (snapHold seq h).2 now c p = parks h now c p.
Proof.
  unfold parks, snapHold.
  by destruct (if bool_decide _ then _ else _) as [? ?],
    (if bool_decide (ID h = ""%string) then newHoldID 0 else _) as [? ?].
Qed.

Lemma parks_spec h now c p :
  clean h ->
  parks h now c p = true <->
  Hold_Active h now = true /\ scope_client (scopeOf h) c /\ scope_provider (scopeOf h) p.
Proof.
  intros Hcl. unfold parks, hold_matches. rewrite snapHold_active by done.
  destruct (Hold_Active h now) eqn:Eact; cbn [negb]; [|by split; [|intros [? _]]].
  destruct Hcl as [Hc Hp].
  pose proof (setFrom_members _ Hc) as E1. pose proof (setFrom_members _ Hp) as E2.
  unfold snapHold. destruct (if bool_decide _ then _ else _) as [? ?].
  unfold clientOK, providerOK, scope_client, scope_provider, scopeOf.
  cbn [snd hs_until hs_all hs_new hs_clients hs_providers hs_knownNew].
  destruct (All h) eqn:EA; cbn; [tauto|].
  rewrite E1, E2.
  unfold Hold_Active in Eact. rewrite EA in Eact. destruct (holdExpired _ _); [done|]. cbn in Eact.
  destruct (nonempty (Clients h)) eqn:EC, (nonempty (Providers h)) eqn:EP, (New h) eqn:EN;
    cbn in *; try done.
  all: try (assert (Hne : c ∉ setFrom (Clients h)) by
    (intros Hin; assert (has_members (setFrom (Clients h)) = true)
       by (apply has_members_true; eauto); congruence)).
  all: assert (Hpe : ""%string ∉ setFrom (Providers h)) by (rewrite elem_of_setFrom; tauto).
  all: destruct (decide (p = ""%string)) as [->|Hp0];
    [rewrite ?(bool_decide_eq_true_2 (""%string = ""%string)) by done
    |rewrite ?(bool_decide_eq_false_2 (p = ""%string)) by done].
  all: destruct (decide (c ∈ setFrom (Clients h)));
    [rewrite ?(bool_decide_eq_true_2 (c ∈ setFrom (Clients h))) by done
    |rewrite ?(bool_decide_eq_false_2 (c ∈ setFrom (Clients h))) by done]; cbn.
  all: destruct (decide (c ∈ setFrom (KnownAtNew h)));
    [rewrite ?(bool_decide_eq_true_2 (c ∈ setFrom (KnownAtNew h))) by done
    |rewrite ?(bool_decide_eq_false_2 (c ∈ setFrom (KnownAtNew h))) by done]; cbn.
  all: rewrite ?bool_decide_eq_true; try tauto; try (intuition congruence).
Qed.

Lemma parks_active h now c p : parks h now c p = true -> holdSnap_active (snapHold 0 h).2 now = true.
Proof. unfold parks, hold_matches. by destruct (holdSnap_active _ _). Qed.

(** The overlap test is exact: two holds overlap precisely when some
    (client, provider) pair is parked by both, so the test rejects no pair of
    holds that could coexist and admits none that could not. *)
Theorem HoldsOverlap_exact a b now :
  clean a -> clean b ->
  HoldsOverlap a b now = true <->
  exists client provider,
    parks a now client provider = true /\ parks b now client provider = true.
Proof.
  intros Ha Hb. unfold HoldsOverlap.
  pose proof (scopeOf_ok a Ha). pose proof (scopeOf_ok b Hb).
  destruct (Hold_Active a now) eqn:Ea, (Hold_Active b now) eqn:Eb; cbn [negb orb].
  2-4: split; [done|]; intros (c & p & Hpa & Hpb);
    apply parks_spec in Hpa, Hpb; [intuition congruence|done..].
  rewrite andb_true_iff, clientsOverlap_spec, providersOverlap_spec by done. split.
  - intros [(c & ? & ?) (p & ? & ?)]. exists c, p. by rewrite !parks_spec by done.
  - intros (c & p & Hpa & Hpb). apply parks_spec in Hpa, Hpb; [|done..].
    split; [exists c|exists p]; tauto.
Qed.

(** The hypothesis is needed: a hold whose provider list is one empty name
    overlaps every hold on all providers, and parks nobody. *)
Example HoldsOverlap_unclean :
  let a := Build_Hold "1" false false [] [""%string] [] 0 0 in
  let b := Build_Hold "2" true false [] [] [] 0 0 in
  HoldsOverlap a b 5 = true /\ forall client provider, parks a 5 client provider = false.
Proof. split; [vm_compute; done|]. intros. vm_compute. done. Qed.

Lemma HoldsOverlap_exact_witness :
  exists client provider,
    parks (Build_Hold "1" false true [] [] ["old"%string] 0 0) 5 client provider = true /\
    parks (Build_Hold "2" false false ["fresh"%string] ["p"%string] [] 9 0) 5 client provider = true.
Proof.
  apply (HoldsOverlap_exact (Build_Hold "1" false true [] [] ["old"%string] 0 0)
           (Build_Hold "2" false false ["fresh"%string] ["p"%string] [] 9 0) 5).
  - split; intros H; vm_compute in H; by apply not_elem_of_nil in H.
  - split; apply (bool_decide_unpack _); vm_compute; exact I.
  - vm_compute. reflexivity.
Defined.
