(* ===== verification/HoldQueue.v ===== *)
(** internal/scheduler/hold.go: the hold policy's transitions, and the count of
    waiters each hold parks. Each definition is one critical section of
    [holdCountMu] (or of [pauseMu]), so a run of the scheduler is a sequence of
    them in some order. *)

From S2P Require Import Prelude GoTime Drain Hold.

(** The hold fields of a [waiter], and whether it carries the two hooks. *)
Record HoldWaiter := {
  hw_client : string;
  hw_provider : string;
  hw_holdID : string;
  hw_holding : bool;
  hw_onHold : bool;
  hw_onUnhold : bool;
}.

Inductive HoldEvent :=
  | OnHold (w : nat)
  | OnUnhold (w : nat).

(** The policy, the process-wide id counter, how often the policy kick was
    closed, the counts, the waiters by identity, and the hooks fired so far
    (newest first). *)
Record HoldState := {
  hst_policy : policySnap;
  hst_holdSeq : Z;
  hst_kicks : nat;
  hst_count : gmap string Z;
  hst_waiters : gmap nat HoldWaiter;
  hst_events : list HoldEvent;
}.

Definition set_policy (p : policySnap) (s : HoldState) : HoldState :=
  Build_HoldState p (hst_holdSeq s) (hst_kicks s) (hst_count s) (hst_waiters s) (hst_events s).
Definition set_holdSeq (n : Z) (s : HoldState) : HoldState :=
  Build_HoldState (hst_policy s) n (hst_kicks s) (hst_count s) (hst_waiters s) (hst_events s).
Definition set_count (c : gmap string Z) (s : HoldState) : HoldState :=
  Build_HoldState (hst_policy s) (hst_holdSeq s) (hst_kicks s) c (hst_waiters s) (hst_events s).
Definition fire_event (e : HoldEvent) (s : HoldState) : HoldState :=
  Build_HoldState (hst_policy s) (hst_holdSeq s) (hst_kicks s) (hst_count s) (hst_waiters s)
    (e :: hst_events s).
Definition upd_waiter (w : nat) (f : HoldWaiter -> HoldWaiter) (s : HoldState) : HoldState :=
  Build_HoldState (hst_policy s) (hst_holdSeq s) (hst_kicks s) (hst_count s)
    (alter f w (hst_waiters s)) (hst_events s).

Definition with_holdID (id : string) (w : HoldWaiter) : HoldWaiter :=
  Build_HoldWaiter (hw_client w) (hw_provider w) id (hw_holding w) (hw_onHold w) (hw_onUnhold w).
Definition with_holding (b : bool) (w : HoldWaiter) : HoldWaiter :=
  Build_HoldWaiter (hw_client w) (hw_provider w) (hw_holdID w) b (hw_onHold w) (hw_onUnhold w).

Definition kickPolicyLocked (s : HoldState) : HoldState :=
  Build_HoldState (hst_policy s) (hst_holdSeq s) (S (hst_kicks s)) (hst_count s)
    (hst_waiters s) (hst_events s).

(** An absent key reads as 0. *)
Definition count_of (c : gmap string Z) (id : string) : Z := default 0 (c !! id).
Definition add_count (id : string) (n : Z) (c : gmap string Z) : gmap string Z :=
  <[id := count_of c id + n]> c.

Definition matchingHold (s : HoldState) (now : Time) (client provider : string)
    : option holdSnap := policy_match (hst_policy s) now client provider.

Definition HoldQueued (s : HoldState) (id : string) : Z :=
  if bool_decide (id = ""%string) then 0 else count_of (hst_count s) id.

(** The uncount both attribution changes share. *)
Definition uncount (id : string) (c : gmap string Z) : gmap string Z :=
  if bool_decide (id <> ""%string) && (0 <? count_of c id) then add_count id (-1) c else c.

Definition moveHoldCountLocked (s : HoldState) (wid : nat) (w : HoldWaiter) (h : holdSnap)
    : HoldState :=
  if bool_decide (hw_holdID w = hs_id h) then s else
  let s := set_count (add_count (hs_id h) 1 (uncount (hw_holdID w) (hst_count s))) s in
  upd_waiter wid (with_holdID (hs_id h)) s.

Definition clearHoldCountLocked (s : HoldState) (wid : nat) (w : HoldWaiter) : HoldState :=
  if bool_decide (hw_holdID w = ""%string) then s else
  let s := set_count (uncount (hw_holdID w) (hst_count s)) s in
  upd_waiter wid (with_holdID ""%string) s.

Definition reserveHold (s : HoldState) (wid : nat) (h : holdSnap) : HoldState * bool :=
  match hst_waiters s !! wid with
  | None => (s, true)
  | Some w =>
      if bool_decide (hw_holdID w = hs_id h) then (s, true) else
      if (0 <? hs_maxQueued h) && (hs_maxQueued h <=? count_of (hst_count s) (hs_id h))
      then (s, false)
      else (moveHoldCountLocked s wid w h, true)
  end.

Definition fireHoldLocked (s : HoldState) (wid : nat) (w : HoldWaiter) : HoldState :=
  if hw_holding w then s else
  let s := upd_waiter wid (with_holding true) s in
  if hw_onHold w then fire_event (OnHold wid) s else s.

Definition fireUnholdLocked (s : HoldState) (wid : nat) (w : HoldWaiter) : HoldState :=
  if hw_holding w then
    let s := upd_waiter wid (with_holding false) s in
    if hw_onUnhold w then fire_event (OnUnhold wid) s else s
  else s.

Definition dropHold (s : HoldState) (wid : nat) : HoldState :=
  match hst_waiters s !! wid with
  | None => s
  | Some w => fireUnholdLocked (clearHoldCountLocked s wid w) wid w
  end.

Definition adoptHold (s : HoldState) (wid : nat) (h : option holdSnap) : HoldState :=
  match h with
  | None => dropHold s wid
  | Some h =>
      match hst_waiters s !! wid with
      | None => s
      | Some w => fireHoldLocked (moveHoldCountLocked s wid w h) wid w
      end
  end.

Definition syncUnhold (s : HoldState) (now : Time) (wid : nat) : HoldState * bool :=
  match hst_waiters s !! wid with
  | None => (s, false)
  | Some w =>
      match matchingHold s now (hw_client w) (hw_provider w) with
      | Some h => (fireHoldLocked (moveHoldCountLocked s wid w h) wid w, true)
      | None => (fireUnholdLocked (clearHoldCountLocked s wid w) wid w, false)
      end
  end.

(** One waiter of seedQueuedHolds' scan: the attribution, and the hook call it
    owes once the scan has let go of the group. *)
Definition seedOne (s : HoldState) (now : Time) (wid : nat)
    : HoldState * list (nat * holdSnap) :=
  match hst_waiters s !! wid with
  | None => (s, [])
  | Some w =>
      match matchingHold s now (hw_client w) (hw_provider w) with
      | None => (clearHoldCountLocked s wid w, [])
      | Some h =>
          let s := moveHoldCountLocked s wid w h in
          if hw_holding w then (s, [])
          else (upd_waiter wid (with_holding true) s, if hw_onHold w then [(wid, h)] else [])
      end
  end.

Fixpoint seedScan (s : HoldState) (now : Time) (queue : list nat)
    : HoldState * list (nat * holdSnap) :=
  match queue with
  | [] => (s, [])
  | wid :: queue =>
      let '(s, fire) := seedOne s now wid in
      let '(s, rest) := seedScan s now queue in
      (s, fire ++ rest)
  end.

Definition fireSeededHold (s : HoldState) (wid : nat) (h : holdSnap) : HoldState :=
  match hst_waiters s !! wid with
  | Some w =>
      if hw_holding w && bool_decide (hw_holdID w = hs_id h) && hw_onHold w
      then fire_event (OnHold wid) s else s
  | None => s
  end.

(** [queue] is the waiters of every group, in the order of the snapshot. *)
Definition seedQueuedHolds (s : HoldState) (now : Time) (queue : list nat) : HoldState :=
  let '(s, fire) := seedScan s now queue in
  fold_left (fun s p => fireSeededHold s p.1 p.2) fire s.

(** ** Policy transitions *)

Definition commitPolicyLocked (s : HoldState) (next : policySnap) : HoldState * bool :=
  if snapEqual (hst_policy s) next then (s, false)
  else (kickPolicyLocked (set_policy next s), true).

Definition pruneHoldCounts (s : HoldState) (next : policySnap) : HoldState :=
  set_count (filter (fun kv => existsb (fun h => bool_decide (hs_id h = kv.1)) (ps_holds next) = true)
               (hst_count s)) s.

(** The flag says whether the policy changed, and so whether drainAll runs. *)
Definition commitHolds (s : HoldState) (now : Time) (queue : list nat) (next : policySnap)
    (seedQueued : bool) : HoldState * bool :=
  let '(s, changed) := commitPolicyLocked s next in
  if negb changed then (s, false) else
  let s := pruneHoldCounts s next in
  let s := if seedQueued then seedQueuedHolds s now queue else s in
  (s, true).

Definition commitAppendedHolds (s : HoldState) (now : Time) (queue : list nat)
    (nextHolds : list Hold) (h : Hold) : HoldState * bool :=
  let '(seq, next) := snapFromHolds (hst_holdSeq s) now (nextHolds ++ [h]) in
  commitHolds (set_holdSeq seq s) now queue next true.

Definition replaceHolds (s : HoldState) (now : Time) (queue : list nat) (holds : list Hold)
    : HoldState * bool :=
  let '(seq, next) := snapFromHolds (hst_holdSeq s) now holds in
  commitHolds (set_holdSeq seq s) now queue next true.

Definition RestoreHolds := replaceHolds.

Definition with_ID (id : string) (h : Hold) : Hold :=
  Build_Hold id (All h) (New h) (Clients h) (Providers h) (KnownAtNew h) (Until h) (MaxQueued h).

Definition AddHold (s : HoldState) (now : Time) (queue : list nat) (h : Hold)
    : HoldState * bool * result errorString unit :=
  if negb (Hold_Active h now) then (s, false, Ok tt) else
  let '(s, h) :=
    if bool_decide (ID h = ""%string) then
      let '(seq, id) := newHoldID (hst_holdSeq s) in (set_holdSeq seq s, with_ID id h)
    else (s, h) in
  let cur := policy_list (hst_policy s) now in
  if existsb (fun c => HoldsOverlap c h now) cur then (s, false, Err ErrOverlap) else
  (commitAppendedHolds s now queue cur h, Ok tt).

(** The policy's holds but the ones with [id], and whether there was one. *)
Fixpoint holdsWithoutID (holds : list holdSnap) (id : string) : list Hold * bool :=
  match holds with
  | [] => ([], false)
  | sh :: holds =>
      let '(next, found) := holdsWithoutID holds id in
      if bool_decide (hs_id sh = id) then (next, true) else (hold_of sh :: next, found)
  end.

Definition RemoveHold (s : HoldState) (now : Time) (queue : list nat) (id : string)
    : HoldState * bool :=
  if bool_decide (id = ""%string) then (s, false) else
  let '(nextHolds, found) := holdsWithoutID (ps_holds (hst_policy s)) id in
  if negb found then (s, false) else
  let '(seq, next) := snapFromHolds (hst_holdSeq s) now nextHolds in
  commitHolds (set_holdSeq seq s) now queue next false.

Definition ReplaceHold (s : HoldState) (now : Time) (queue : list nat) (h : Hold)
    : HoldState * bool * result errorString unit :=
  if bool_decide (ID h = ""%string) then (s, false, Err ErrHoldNotFound) else
  if negb (Hold_Active h now) then (RemoveHold s now queue (ID h), Ok tt) else
  let '(nextHolds, found) := holdsWithoutID (ps_holds (hst_policy s)) (ID h) in
  if negb found then (s, false, Err ErrHoldNotFound) else
  if existsb (fun c => HoldsOverlap c h now) nextHolds then (s, false, Err ErrOverlap) else
  (commitAppendedHolds s now queue nextHolds h, Ok tt).

(** ** The count is exact *)

(** Waiters attributed to a hold. *)
Definition attributed (s : HoldState) (id : string) : Z :=
  total (fun w => if bool_decide (hw_holdID w = id) then 1 else 0) (hst_waiters s).

Definition exact (id : string) (s : HoldState) : Prop :=
  count_of (hst_count s) id = attributed s id.

Definition keeps (id : string) (p : policySnap) : Prop :=
  exists h, h ∈ ps_holds p /\ hs_id h = id.

Lemma attributed_one s id wid w :
  hst_waiters s !! wid = Some w ->
  0 <= attributed s id /\ (hw_holdID w = id -> 1 <= attributed s id).
Proof.
  intros Hw. unfold attributed.
  assert (forall m : gmap nat HoldWaiter,
    0 <= total (fun w => if bool_decide (hw_holdID w = id) then 1 else 0) m) as Hnn
    by (intros; apply total_nonneg; intros; by case_bool_decide).
  split; [done|]. intros Hid. rewrite (total_delete _ _ _ _ Hw).
  rewrite bool_decide_eq_true_2 by done. specialize (Hnn (delete wid (hst_waiters s))). lia.
Qed.

Lemma count_of_add id n c id' :
  count_of (add_count id n c) id' = count_of c id' + (if bool_decide (id = id') then n else 0).
Proof.
  unfold add_count, count_of at 1. case_bool_decide as H.
  - subst. by rewrite lookup_insert_eq.
  - rewrite lookup_insert_ne by done. unfold count_of. lia.
Qed.

Lemma count_of_uncount id c id' :
  id' <> ""%string -> (id = id' -> 1 <= count_of c id) ->
  count_of (uncount id c) id' = count_of c id' - (if bool_decide (id = id') then 1 else 0).
Proof.
  intros Hid' Hpos. unfold uncount.
  destruct (decide (id = id')) as [->|Hne].
  - specialize (Hpos eq_refl). rewrite !bool_decide_eq_true_2 by done.
    destruct (Z.ltb_spec 0 (count_of c id')); [|lia]. cbn [andb].
    rewrite count_of_add, bool_decide_eq_true_2 by done. lia.
  - rewrite (bool_decide_eq_false_2 (id = id')) by done.
    destruct (_ && _); [|lia]. rewrite count_of_add, bool_decide_eq_false_2 by done. lia.
Qed.

Lemma exact_upd_holding id wid b s : exact id s -> exact id (upd_waiter wid (with_holding b) s).
Proof. unfold exact, attributed. cbn. by rewrite total_alter_same. Qed.

Lemma exact_fire id e s : exact id s -> exact id (fire_event e s).
Proof. done. Qed.

#[local] Hint Resolve exact_upd_holding exact_fire : core.

Lemma move_exact id s wid w h :
  hst_waiters s !! wid = Some w -> id <> ""%string -> exact id s ->
  exact id (moveHoldCountLocked s wid w h).
Proof.
  intros Hw Hid He. unfold moveHoldCountLocked. case_bool_decide; [done|].
  destruct (attributed_one s id wid w Hw) as [_ Hone].
  unfold exact, attributed in *. cbn [set_count upd_waiter hst_count hst_waiters].
  rewrite (total_alter _ _ _ _ _ Hw). cbn [with_holdID hw_holdID].
  rewrite count_of_add, count_of_uncount, He; [lia|done|].
  intros <-. rewrite He. by apply Hone.
Qed.

Lemma clear_exact id s wid w :
  hst_waiters s !! wid = Some w -> id <> ""%string -> exact id s ->
  exact id (clearHoldCountLocked s wid w).
Proof.
  intros Hw Hid He. unfold clearHoldCountLocked. case_bool_decide; [done|].
  destruct (attributed_one s id wid w Hw) as [_ Hone].
  unfold exact, attributed in *. cbn [set_count upd_waiter hst_count hst_waiters].
  rewrite (total_alter _ _ _ _ _ Hw). cbn [with_holdID hw_holdID].
  rewrite count_of_uncount, He; [|done|intros <-; rewrite He; by apply Hone].
  rewrite (bool_decide_eq_false_2 (""%string = id)) by done. lia.
Qed.

Lemma fireHold_exact id s wid w : exact id s -> exact id (fireHoldLocked s wid w).
Proof. intros. unfold fireHoldLocked. repeat case_match; auto. Qed.
Lemma fireUnhold_exact id s wid w : exact id s -> exact id (fireUnholdLocked s wid w).
Proof. intros. unfold fireUnholdLocked. repeat case_match; auto. Qed.

#[local] Hint Resolve move_exact clear_exact fireHold_exact fireUnhold_exact : core.

Lemma reserve_exact id s wid h :
  id <> ""%string -> exact id s -> exact id (reserveHold s wid h).1.
Proof. intros. unfold reserveHold. repeat case_match; cbn [fst]; auto. Qed.

Lemma drop_exact id s wid : id <> ""%string -> exact id s -> exact id (dropHold s wid).
Proof. intros. unfold dropHold. case_match; auto. Qed.

Lemma adopt_exact id s wid h : id <> ""%string -> exact id s -> exact id (adoptHold s wid h).
Proof. intros. unfold adoptHold. repeat case_match; auto using drop_exact. Qed.

Lemma sync_exact id s now wid : id <> ""%string -> exact id s -> exact id (syncUnhold s now wid).1.
Proof. intros. unfold syncUnhold. repeat case_match; cbn [fst]; auto. Qed.

Lemma seedOne_exact id s now wid : id <> ""%string -> exact id s -> exact id (seedOne s now wid).1.
Proof. intros. unfold seedOne. repeat case_match; cbn [fst]; auto. Qed.

Lemma fireSeeded_exact id s wid h : exact id s -> exact id (fireSeededHold s wid h).
Proof. intros. unfold fireSeededHold. repeat case_match; auto. Qed.

Lemma seed_exact id s now queue :
  id <> ""%string -> exact id s -> exact id (seedQueuedHolds s now queue).
Proof.
  intros Hid He. unfold seedQueuedHolds.
  assert (exact id (seedScan s now queue).1) as H1.
  { revert s He. induction queue as [|wid queue IH]; intros s He; [done|]. cbn [seedScan].
    pose proof (seedOne_exact id s now wid Hid He) as H1. destruct (seedOne s now wid) as [s1 f].
    specialize (IH s1 H1). by destruct (seedScan s1 now queue). }
  destruct (seedScan s now queue) as [s1 fire]. cbn [fst] in H1. clear He s.
  revert s1 H1. induction fire as [|p fire IH]; intros s1 H1; [done|].
  apply IH. by apply fireSeeded_exact.
Qed.

Lemma prune_exact id s next : keeps id next -> exact id s -> exact id (pruneHoldCounts s next).
Proof.
  intros (h & Hh & Hid) He. unfold exact. rewrite <- He. unfold count_of. f_equal.
  cbn [pruneHoldCounts set_count hst_count].
  destruct (hst_count s !! id) as [n|] eqn:E.
  - apply map_lookup_filter_Some. split; [done|]. cbn [fst].
    apply existsb_exists. exists h. split; [by apply list_elem_of_In|].
    by apply bool_decide_eq_true_2.
  - apply map_lookup_filter_None. by left.
Qed.

Lemma commit_exact id s now queue next seed :
  id <> ""%string -> keeps id next -> exact id s -> exact id (commitHolds s now queue next seed).1.
Proof.
  intros Hid Hk He. unfold commitHolds, commitPolicyLocked.
  destruct (snapEqual _ _); cbn [negb fst]; [done|].
  destruct seed; [apply seed_exact; [done|]|]; by apply prune_exact.
Qed.

(** No count transition touches the policy. *)
Lemma move_policy s wid w h : hst_policy (moveHoldCountLocked s wid w h) = hst_policy s.
Proof. unfold moveHoldCountLocked. by case_match. Qed.
Lemma clear_policy s wid w : hst_policy (clearHoldCountLocked s wid w) = hst_policy s.
Proof. unfold clearHoldCountLocked. by case_match. Qed.
Lemma fireSeeded_policy s wid h : hst_policy (fireSeededHold s wid h) = hst_policy s.
Proof. unfold fireSeededHold. by repeat case_match. Qed.
Lemma seedOne_policy s now wid : hst_policy (seedOne s now wid).1 = hst_policy s.
Proof.
  unfold seedOne. repeat case_match; cbn; auto using move_policy, clear_policy.
Qed.
Lemma seedScan_policy s now queue : hst_policy (seedScan s now queue).1 = hst_policy s.
Proof.
  revert s. induction queue as [|wid queue IH]; intros s; [done|]. cbn [seedScan].
  pose proof (seedOne_policy s now wid) as H1. destruct (seedOne s now wid) as [s1 f].
  specialize (IH s1). destruct (seedScan s1 now queue). cbn in *. congruence.
Qed.
Lemma seed_policy s now queue : hst_policy (seedQueuedHolds s now queue) = hst_policy s.
Proof.
  unfold seedQueuedHolds. pose proof (seedScan_policy s now queue) as H.
  destruct (seedScan s now queue) as [s1 fire]. cbn [fst] in H. rewrite <- H. clear H s.
  revert s1. induction fire as [|p fire IH]; intros s1; [done|]. cbn [fold_left].
  by rewrite IH, fireSeeded_policy.
Qed.

Lemma commit_cases s now queue next seed :
  commitHolds s now queue next seed = (s, false) \/
  (hst_policy (commitHolds s now queue next seed).1 = next /\
   (commitHolds s now queue next seed).2 = true).
Proof.
  unfold commitHolds, commitPolicyLocked.
  destruct (snapEqual _ _); cbn [negb fst]; [by left|right].
  destruct seed; cbn [fst]; split; try done. by rewrite seed_policy.
Qed.

(** ** Runs: the critical sections, in any order *)

Inductive holdStep : HoldState -> HoldState -> Prop :=
  | hs_enqueue s wid client provider on un :
      hst_waiters s !! wid = None ->
      holdStep s (Build_HoldState (hst_policy s) (hst_holdSeq s) (hst_kicks s) (hst_count s)
        (<[wid := Build_HoldWaiter client provider ""%string false on un]> (hst_waiters s))
        (hst_events s))
  | hs_reserve s wid h : holdStep s (reserveHold s wid h).1
  | hs_adopt s wid h : holdStep s (adoptHold s wid h)
  | hs_sync s now wid : holdStep s (syncUnhold s now wid).1
  | hs_drop s wid : holdStep s (dropHold s wid)
  | hs_seed s now wid : holdStep s (seedOne s now wid).1
  | hs_fire s wid h : holdStep s (fireSeededHold s wid h)
  | hs_add s now queue h : holdStep s (AddHold s now queue h).1.1
  | hs_replace s now queue h : holdStep s (ReplaceHold s now queue h).1.1
  | hs_remove s now queue id : holdStep s (RemoveHold s now queue id).1
  | hs_restore s now queue holds : holdStep s (RestoreHolds s now queue holds).1.

(** A run during which the hold [id] is not removed. *)
Inductive holdRun (id : string) : HoldState -> HoldState -> Prop :=
  | hr_refl s : holdRun id s s
  | hr_step s s1 s2 :
      holdRun id s s1 -> holdStep s1 s2 ->
      hst_policy s2 = hst_policy s1 \/ keeps id (hst_policy s2) ->
      holdRun id s s2.

Lemma commit_exact' id s now queue next seed :
  id <> ""%string -> exact id s ->
  hst_policy (commitHolds s now queue next seed).1 = hst_policy s \/
    keeps id (hst_policy (commitHolds s now queue next seed).1) ->
  exact id (commitHolds s now queue next seed).1.
Proof.
  intros Hid He Hk. destruct (snapEqual (hst_policy s) next) eqn:E.
  { unfold commitHolds, commitPolicyLocked. by rewrite E. }
  destruct (commit_cases s now queue next seed) as [-> | [Hp _]]; [done|].
  rewrite Hp in Hk. destruct Hk as [Hk | Hk]; [|by apply commit_exact].
  exfalso. rewrite Hk in E. clear -E. unfold snapEqual in E.
  assert (forall l, holdsEqual l l = true) as Hr; [|by rewrite Hr in E].
  assert (forall g, keysIn g g = true) as Hkeys.
  { intros g. unfold keysIn. apply forallb_forall. intros x Hx%list_elem_of_In%elem_of_elements.
    by apply bool_decide_eq_true_2. }
  induction l as [|h l IH]; [done|]. cbn [holdsEqual]. rewrite IH. unfold holdEqual.
  rewrite bool_decide_eq_true_2, !Bool.eqb_reflx, !Z.eqb_refl, !Nat.eqb_refl, !Hkeys by done.
  done.
Qed.

Lemma holdStep_exact id s s' :
  id <> ""%string -> holdStep s s' -> exact id s ->
  hst_policy s' = hst_policy s \/ keeps id (hst_policy s') -> exact id s'.
Proof.
  intros Hid Hs He. destruct Hs; intros Hk;
    eauto using reserve_exact, adopt_exact, sync_exact, drop_exact, seedOne_exact, fireSeeded_exact.
  - unfold exact, attributed in *. cbn [hst_count hst_waiters].
    rewrite total_insert_fresh by done. cbn [hw_holdID].
    rewrite (bool_decide_eq_false_2 (""%string = id)) by done. lia.
  - unfold AddHold in *. destruct (Hold_Active h now); cbn [negb fst] in *; [|done].
    destruct (if bool_decide _ then _ else _) as [s1 h1] eqn:E1.
    assert (exact id s1 /\ hst_policy s1 = hst_policy s) as [He1 Hp1].
    { destruct (bool_decide _); [destruct (newHoldID _)|]; by simplify_eq. }
    destruct (existsb _ _); cbn [fst] in *; [done|].
    unfold commitAppendedHolds in *. destruct (snapFromHolds _ _ _) as [q next].
    rewrite <- Hp1 in Hk. by apply commit_exact'.
  - unfold ReplaceHold in *. destruct (bool_decide _); [done|].
    destruct (Hold_Active h now); cbn [negb fst] in *.
    + destruct (holdsWithoutID _ _) as [nx found]. destruct found; cbn [negb fst] in *; [|done].
      destruct (existsb _ _); cbn [fst] in *; [done|].
      unfold commitAppendedHolds in *. destruct (snapFromHolds _ _ _) as [q next].
      by apply commit_exact'.
    + unfold RemoveHold in *. destruct (bool_decide _); [done|].
      destruct (holdsWithoutID _ _) as [nx found]. destruct found; cbn [negb fst] in *; [|done].
      destruct (snapFromHolds _ _ _) as [q next]. by apply commit_exact'.
  - unfold RemoveHold in *. destruct (bool_decide _); [done|].
    destruct (holdsWithoutID _ _) as [nx found]. destruct found; cbn [negb fst] in *; [|done].
    destruct (snapFromHolds _ _ _) as [q next]. by apply commit_exact'.
  - unfold RestoreHolds, replaceHolds in *. destruct (snapFromHolds _ _ _) as [q next].
    by apply commit_exact'.
Qed.


Definition demo_hold (id : string) (cap : Z) : Hold :=
  Build_Hold id true false [] [] [] 0 cap.
Definition holds0 : HoldState :=
  Build_HoldState (Build_policySnap []) 0 0 ∅ ∅ [].
Definition holds1 : HoldState := (AddHold holds0 5 [] (demo_hold "p1" 1)).1.1.


(** MaxQueued bounds the queue: while a hold's count is exact, a
    reservation is refused precisely when the waiter is not yet counted and the
    hold already parks MaxQueued waiters, so the waiters attributed to it never
    grow past MaxQueued by reservations. *)
Theorem reserveHold_bounded s wid w h :
  hs_id h <> ""%string -> exact (hs_id h) s -> hst_waiters s !! wid = Some w ->
  let '(s', ok) := reserveHold s wid h in
  (ok = false <-> hw_holdID w <> hs_id h /\ 0 < hs_maxQueued h <= attributed s (hs_id h)) /\
  (ok = true -> hw_holdID w <> hs_id h -> 0 < hs_maxQueued h ->
   attributed s' (hs_id h) <= hs_maxQueued h).
Proof.
  intros Hid He Hw. pose proof (reserve_exact _ s wid h Hid He) as He'.
  revert He'. unfold reserveHold. rewrite Hw.
  destruct (decide (hw_holdID w = hs_id h)) as [Heq|Hne].
  { rewrite bool_decide_eq_true_2 by done. intros _. split; [split; [done|tauto]|done]. }
  rewrite bool_decide_eq_false_2 by done. rewrite He.
  destruct (Z.ltb_spec 0 (hs_maxQueued h)), (Z.leb_spec (hs_maxQueued h) (attributed s (hs_id h)));
    cbn [andb fst]; intros He'; (split; [split; [done||(intros; lia)|try tauto; lia] || (split; [tauto|done])|]); try done; try lia.
  all: intros _ _ Hpos; try lia.
  all: unfold attributed in *; unfold moveHoldCountLocked; rewrite bool_decide_eq_false_2 by done;
    cbn [upd_waiter set_count hst_waiters]; rewrite (total_alter _ _ _ _ _ Hw);
    cbn [with_holdID hw_holdID]; rewrite bool_decide_eq_false_2, bool_decide_eq_true_2 by done; lia.
Qed.

(** ** At most one hold parks a request *)

Definition snap_wf (s : holdSnap) : Prop :=
  ""%string ∉ hs_clients s /\ ""%string ∉ hs_providers s /\ ""%string ∉ hs_knownNew s.
Definition apart (now : Time) (a b : holdSnap) : Prop :=
  forall c p, hold_matches a now c p = true -> hold_matches b now c p = true -> False.
Definition holds_apart (now : Time) (a b : Hold) : Prop :=
  forall c p, parks a now c p = true -> parks b now c p = true -> False.

Record policy_ok (now : Time) (p : policySnap) : Prop := {
  pk_wf : Forall snap_wf (ps_holds p);
  pk_apart : ForallOrdPairs (apart now) (ps_holds p);
}.

Lemma matches_earlier h t t' c p :
  t <= t' -> hold_matches h t' c p = true -> hold_matches h t c p = true.
Proof.
  intros Hle. unfold hold_matches, holdSnap_active, holdExpired, IsZero, Before.
  destruct (Z.eqb_spec (hs_until h) 0), (Z.ltb_spec t' (hs_until h)), (Z.ltb_spec t (hs_until h));
    cbn [negb andb]; try done; lia.
Qed.

Lemma FOP_impl {A} (R R' : A -> A -> Prop) l :
  (forall a b, R a b -> R' a b) -> ForallOrdPairs R l -> ForallOrdPairs R' l.
Proof.
  intros Hi. induction 1; constructor; [|done].
  eapply List.Forall_impl; [|done]. auto.
Qed.

Lemma FOP_map {A B} (R : B -> B -> Prop) (f : A -> B) l :
  ForallOrdPairs (fun a b => R (f a) (f b)) l -> ForallOrdPairs R (map f l).
Proof. induction 1; cbn; constructor; [by apply Forall_map|done]. Qed.

Lemma FOP_filter {A} (R : A -> A -> Prop) (P : A -> Prop) `{forall x, Decision (P x)} l :
  ForallOrdPairs R l -> ForallOrdPairs R (filter P l).
Proof.
  induction 1 as [|a l Ha _ IH]; [constructor|]. rewrite filter_cons.
  case_decide; [|done]. constructor; [|done].
  apply Forall_forall. intros x [_ Hx]%list_elem_of_filter.
  rewrite Forall_forall in Ha. auto.
Qed.

Lemma FOP_snoc {A} (R : A -> A -> Prop) l x :
  ForallOrdPairs R l -> Forall (fun a => R a x) l -> ForallOrdPairs R (l ++ [x]).
Proof.
  induction 1 as [|a l Ha _ IH]; intros Hx; cbn; [by repeat constructor|].
  apply Forall_cons in Hx as [Hax Hx]. constructor; [|by apply IH].
  apply Forall_app. split; [done|by constructor].
Qed.

Lemma policy_ok_later t t' p : t <= t' -> policy_ok t p -> policy_ok t' p.
Proof.
  intros Hle [Hw Ha]. split; [done|]. eapply FOP_impl; [|exact Ha].
  intros a b Hab c pr H1 H2. eapply Hab; eapply matches_earlier; done.
Qed.

Lemma setFrom_keysOf m : ""%string ∉ m -> setFrom (keysOf m) = m.
Proof.
  intros H. apply set_eq. intros x. rewrite elem_of_setFrom, elem_of_keysOf.
  split; [tauto|]. intros Hx. split; [done|]. by intros ->.
Qed.

Lemma hold_of_clean s : snap_wf s -> clean (hold_of s).
Proof.
  intros (H1 & H2 & _). split; cbn [hold_of Clients Providers]; by rewrite elem_of_keysOf.
Qed.

Lemma hold_of_parks s now c p : snap_wf s -> parks (hold_of s) now c p = hold_matches s now c p.
Proof.
  intros (H1 & H2 & H3). unfold parks, snapHold. cbn [hold_of ID].
  destruct (if bool_decide _ then _ else _) as [? ?].
  unfold hold_matches, holdSnap_active, clientOK, providerOK, hold_of.
  cbn [snd hs_all hs_new hs_clients hs_providers hs_knownNew hs_until
    All New Clients Providers KnownAtNew Until].
  by rewrite !setFrom_keysOf.
Qed.

Lemma snapHold_wf seq h : snap_wf (snapHold seq h).2.
Proof.
  unfold snapHold. destruct (if bool_decide _ then _ else _) as [? ?].
  unfold snap_wf; cbn [snd hs_clients hs_providers hs_knownNew].
  rewrite !elem_of_setFrom. tauto.
Qed.

Lemma snapHolds_origin seq now L s :
  s ∈ (snapHolds seq now L).2 ->
  snap_wf s /\ exists h, h ∈ L /\ forall c p, hold_matches s now c p = parks h now c p.
Proof.
  revert seq. induction L as [|h L IH]; intros seq; cbn [snapHolds]; [by intros ?%elem_of_nil|].
  destruct (Hold_Active h now); cbn [negb].
  - pose proof (snapHold_wf seq h) as Hwf. pose proof (matches_indep seq h now) as Hm.
    destruct (snapHold seq h) as [seq1 s1]. specialize (IH seq1).
    destruct (snapHolds seq1 now L) as [seq2 rest]. cbn [snd] in *.
    intros [-> | Hin]%elem_of_cons.
    + split; [done|]. exists h. split; [by left|done].
    + destruct (IH Hin) as (? & h' & ? & ?). split; [done|]. exists h'. split; [by right|done].
  - intros Hin. destruct (IH seq Hin) as (? & h' & ? & ?). split; [done|].
    exists h'. split; [by right|done].
Qed.

Lemma snapFromHolds_ok seq now L :
  ForallOrdPairs (holds_apart now) L -> policy_ok now (snapFromHolds seq now L).2.
Proof.
  intros HL. unfold snapFromHolds.
  assert (policy_ok now {| ps_holds := (snapHolds seq now L).2 |}) as H;
    [|by destruct (snapHolds seq now L)].
  split; cbn [ps_holds].
  - apply Forall_forall. intros s Hs. by apply snapHolds_origin in Hs as [? _].
  - revert seq. induction HL as [|h L Hh _ IH]; intros seq; cbn [snapHolds]; [constructor|].
    destruct (Hold_Active h now); cbn [negb]; [|apply IH].
    pose proof (matches_indep seq h now) as Hm.
    destruct (snapHold seq h) as [seq1 s1]. specialize (IH seq1).
    pose proof (snapHolds_origin seq1 now L) as Ho.
    destruct (snapHolds seq1 now L) as [seq2 rest]. cbn [snd] in *. constructor; [|done].
    apply Forall_forall. intros s Hs c p. destruct (Ho s Hs) as (_ & h' & Hin & Hs').
    rewrite Hm, Hs'. rewrite Forall_forall in Hh. by apply Hh.
Qed.

Lemma hold_of_apart now l :
  Forall snap_wf l -> ForallOrdPairs (apart now) l ->
  ForallOrdPairs (holds_apart now) (map hold_of l).
Proof.
  intros Hwf Hl. apply FOP_map. induction Hl as [|s l Hs _ IH]; [constructor|].
  apply Forall_cons in Hwf as [Hsw Hwf]. constructor; [|by apply IH].
  rewrite Forall_forall in Hs, Hwf. apply Forall_forall. intros s' Hs' c p.
  rewrite !hold_of_parks by auto. by apply Hs.
Qed.

Lemma appended_ok seq now L h :
  Forall clean L -> clean h -> ForallOrdPairs (holds_apart now) L ->
  existsb (fun c => HoldsOverlap c h now) L = false ->
  policy_ok now (snapFromHolds seq now (L ++ [h])).2.
Proof.
  intros HL Hh Hap Hex. apply snapFromHolds_ok, FOP_snoc; [done|].
  rewrite Forall_forall in *. intros a Ha c p H1 H2.
  assert (HoldsOverlap a h now = true) as Ho by (apply HoldsOverlap_exact; eauto).
  assert (existsb (fun c => HoldsOverlap c h now) L = true); [|congruence].
  apply existsb_exists. exists a. split; [by apply list_elem_of_In|done].
Qed.

Lemma without_filter holds id :
  (holdsWithoutID holds id).1 = map hold_of (filter (fun h => hs_id h <> id) holds).
Proof.
  induction holds as [|h holds IH]; [done|]. cbn [holdsWithoutID].
  destruct (holdsWithoutID holds id) as [next found]. cbn [fst] in IH.
  rewrite filter_cons. case_bool_decide; case_decide; try done. cbn. by rewrite IH.
Qed.

Lemma selected_ok now p (P : holdSnap -> Prop) `{forall h, Decision (P h)} :
  policy_ok now p ->
  Forall clean (map hold_of (filter P (ps_holds p))) /\
  ForallOrdPairs (holds_apart now) (map hold_of (filter P (ps_holds p))).
Proof.
  intros [Hwf Hap].
  assert (Forall snap_wf (filter P (ps_holds p))) as Hwf'.
  { apply Forall_forall. intros s [_ Hs]%list_elem_of_filter. rewrite Forall_forall in Hwf. auto. }
  split; [|by apply hold_of_apart, FOP_filter].
  apply Forall_map. eapply Forall_impl; [exact Hwf'|]. apply hold_of_clean.
Qed.

(** Operator edits of the policy, at increasing times, with clean names, and
    any other transition in between. *)
Inductive policyReach : HoldState -> Time -> Prop :=
  | pr_init s now : ps_holds (hst_policy s) = [] -> policyReach s now
  | pr_other s s' t : policyReach s t -> hst_policy s' = hst_policy s -> policyReach s' t
  | pr_add s t now queue h :
      policyReach s t -> t <= now -> clean h -> policyReach (AddHold s now queue h).1.1 now
  | pr_replace s t now queue h :
      policyReach s t -> t <= now -> clean h -> policyReach (ReplaceHold s now queue h).1.1 now
  | pr_remove s t now queue id :
      policyReach s t -> t <= now -> policyReach (RemoveHold s now queue id).1 now.

Lemma commit_ok s now queue next seed :
  policy_ok now (hst_policy s) -> policy_ok now next ->
  policy_ok now (hst_policy (commitHolds s now queue next seed).1).
Proof. intros H1 H2. by destruct (commit_cases s now queue next seed) as [-> | [-> _]]. Qed.

Lemma remove_ok s now queue id :
  policy_ok now (hst_policy s) -> policy_ok now (hst_policy (RemoveHold s now queue id).1).
Proof.
  intros Hok. unfold RemoveHold. case_bool_decide; [done|].
  pose proof (without_filter (ps_holds (hst_policy s)) id) as Hw.
  destruct (holdsWithoutID _ _) as [nx found]. destruct found; cbn [negb]; [|done].
  pose proof (snapFromHolds_ok (hst_holdSeq s) now nx) as Hn.
  destruct (snapFromHolds _ _ _) as [q next]. apply commit_ok; [done|]. apply Hn.
  cbn [fst] in Hw. rewrite Hw. by apply selected_ok.
Qed.

Lemma policyReach_ok s t : policyReach s t -> policy_ok t (hst_policy s).
Proof.
  induction 1 as [s now E|s s' t _ IH E|s t now queue h _ IH Hle Hc
                 |s t now queue h _ IH Hle Hc|s t now queue id _ IH Hle].
  - split; rewrite E; constructor.
  - by rewrite E.
  - apply (policy_ok_later t now) in IH; [|done].
    unfold AddHold. destruct (Hold_Active h now); cbn [negb fst]; [|done].
    destruct (if bool_decide _ then _ else _) as [s1 h1] eqn:E1.
    assert (hst_policy s1 = hst_policy s /\ clean h1) as [Hp1 Hc1].
    { destruct (bool_decide _); [destruct (newHoldID _)|]; by simplify_eq. }
    destruct (existsb _ _) eqn:Eov; cbn [fst]; [by rewrite Hp1|].
    unfold commitAppendedHolds, policy_list in *.
    destruct (selected_ok now _ (fun h => holdSnap_active h now = true) IH) as [HL Hap].
    pose proof (appended_ok (hst_holdSeq s1) now _ h1 HL Hc1 Hap) as Happ.
    rewrite Hp1 in *.
    assert (filter (fun h => Is_true (holdSnap_active h now)) (ps_holds (hst_policy s)) =
            filter (fun h => holdSnap_active h now = true) (ps_holds (hst_policy s))) as Ef.
    { apply list_filter_iff. intros x. apply Is_true_true. }
    rewrite Ef in *. specialize (Happ Eov).
    destruct (snapFromHolds _ _ _) as [q next].
    apply commit_ok; [cbn [set_holdSeq hst_policy]; by rewrite Hp1|done].
  - apply (policy_ok_later t now) in IH; [|done].
    unfold ReplaceHold. case_bool_decide; [done|].
    destruct (Hold_Active h now); cbn [negb fst]; [|by apply remove_ok].
    pose proof (without_filter (ps_holds (hst_policy s)) (ID h)) as Hw.
    destruct (holdsWithoutID _ _) as [nx found]. destruct found; cbn [negb fst] in *; [|done].
    destruct (existsb _ _) eqn:Eov; cbn [fst]; [done|].
    unfold commitAppendedHolds. subst nx.
    destruct (selected_ok now _ (fun h' => hs_id h' <> ID h) IH) as [HL Hap].
    pose proof (appended_ok (hst_holdSeq s) now _ h HL Hc Hap Eov) as Happ.
    destruct (snapFromHolds _ _ _) as [q next]. by apply commit_ok.
  - apply remove_ok. by apply (policy_ok_later t now).
Qed.

Lemma FOP_unique {A} (R : A -> A -> Prop) l i j a b :
  ForallOrdPairs R l -> l !! i = Some a -> l !! j = Some b -> ~ R a b -> ~ R b a -> i = j.
Proof.
  intros H. revert i j. induction H as [|x l Hx _ IH]; intros i j; [done|].
  rewrite Forall_lookup in Hx.
  destruct i as [|i], j as [|j]; cbn; intros Ha Hb H1 H2; simplify_eq; [done| | |].
  - by destruct (H1 (Hx _ _ Hb)).
  - by destruct (H2 (Hx _ _ Ha)).
  - f_equal. eauto.
Qed.

(** At most one hold parks a request: however operators add, replace and
    remove holds, and whatever expires meanwhile, no (client, provider) is ever
    matched by two holds of the policy - so the first match a waiter is counted
    against is the only one. *)
Theorem one_hold_per_request s t now i j a b client provider :
  policyReach s t -> t <= now ->
  ps_holds (hst_policy s) !! i = Some a -> ps_holds (hst_policy s) !! j = Some b ->
  hold_matches a now client provider = true -> hold_matches b now client provider = true ->
  i = j.
Proof.
  intros Hr Hle Ha Hb Hma Hmb.
  pose proof (policy_ok_later t now _ Hle (policyReach_ok s t Hr)) as [_ Hap].
  eapply FOP_unique; [exact Hap|done|done| |]; intros H; by eapply (H client provider).
Qed.

Definition holds2 : HoldState :=
  (AddHold (AddHold holds0 5 [] (Build_Hold "a" false false ["c"%string] [] [] 0 0)).1.1 6 []
     (Build_Hold "b" false true [] [] ["c"%string] 9 2)).1.1.

Lemma one_hold_per_request_witness :
  exists i, ps_holds (hst_policy holds2) !! i <> None /\ i = 1%nat.
Proof.
  assert (clean (Build_Hold "a" false false ["c"%string] [] [] 0 0)) as H1
    by (split; apply (bool_decide_unpack _); vm_compute; exact I).
  assert (clean (Build_Hold "b" false true [] [] ["c"%string] 9 2)) as H2
    by (split; apply (bool_decide_unpack _); vm_compute; exact I).
  assert ((fun h => hold_matches h 7 "d" "p") <$> ps_holds (hst_policy holds2) !! 1%nat
          = Some true) as Em by (vm_compute; reflexivity).
  destruct (ps_holds (hst_policy holds2) !! 1%nat) as [h|] eqn:E; [|discriminate].
  injection Em as Em. exists 1%nat. split; [congruence|].
  apply (one_hold_per_request holds2 6 7 1 1 h h "d" "p"); [|lia|exact E|exact E|exact Em|exact Em].
  apply (pr_add _ 5); [|lia|done]. apply (pr_add _ 5); [by apply pr_init|lia|done].
Defined.

Definition full_hold : holdSnap := (snapHold 0 (demo_hold "p1" 1)).2.
Definition holds_full : HoldState :=
  Build_HoldState (Build_policySnap [full_hold]) 0 0 {["p1"%string := 1]}
    (<[1%nat := Build_HoldWaiter "c" "p" "p1" true true true]>
       {[2%nat := Build_HoldWaiter "d" "p" "" false true true]}) [].

Lemma reserveHold_bounded_witness :
  (reserveHold holds_full 2 full_hold).2 = false <->
  ""%string <> "p1"%string /\ 0 < 1 <= attributed holds_full "p1".
Proof.
  apply (reserveHold_bounded holds_full 2 (Build_HoldWaiter "d" "p" "" false true true) full_hold);
    [discriminate|vm_compute; reflexivity|vm_compute; reflexivity].
Defined.
