(* ===== verification/WakeTimer.v ===== *)
(** internal/scheduler/wakeup.go: one outstanding wakeup, re-armed and stopped
    under a mutex while a callback that already started may still run. *)

From S2P Require Import Prelude GoTime.

(** A callback of [time.AfterFunc]: the generation its closure captured, its
    deadline, and whether the runtime has started it (after which [Stop] can no
    longer prevent it). *)
Record callback := { cb_gen : Z; cb_at : Time; cb_started : bool }.

(** The struct, the timers the runtime still holds for it, and the deadlines
    [fn] was called for, newest first. [wt_timer] names a timer by identity. *)
Record wakeTimer := WakeTimer {
  wt_timer : option nat;
  wt_at : Time;
  wt_generation : Z;
  wt_runtime : gmap nat callback;
  wt_fired : list Time;
}.

Definition newWakeTimer : wakeTimer := WakeTimer None zeroTime 0 ∅ [].

(** [Timer.Stop]: prevents the callback unless it already started. *)
Definition Timer_Stop (id : nat) (rt : gmap nat callback) : gmap nat callback :=
  match rt !! id with
  | Some cb => if cb_started cb then rt else delete id rt
  | None => rt
  end.

Definition stopLocked (w : wakeTimer) : wakeTimer :=
  let rt := match wt_timer w with
            | Some id => Timer_Stop id (wt_runtime w)
            | None => wt_runtime w
            end in
  WakeTimer None zeroTime (u64 (wt_generation w + 1)) rt (wt_fired w).

Definition arm (w : wakeTimer) (at_ : Time) (earliest : bool) : wakeTimer :=
  if match wt_timer w with
     | Some _ => (wt_at w =? at_) || (earliest && negb (Before at_ (wt_at w)))
     | None => false
     end
  then w
  else
    let w := stopLocked w in
    let id := fresh (dom (wt_runtime w)) in
    WakeTimer (Some id) at_ (wt_generation w)
      (<[id := {| cb_gen := wt_generation w; cb_at := at_; cb_started := false |}]>
         (wt_runtime w)) (wt_fired w).

Definition stop (w : wakeTimer) : wakeTimer := stopLocked w.

(** The runtime starts a due callback. *)
Definition startCallback (w : wakeTimer) (now : Time) (id : nat) : wakeTimer :=
  match wt_runtime w !! id with
  | Some cb =>
      if Before now (cb_at cb) then w else
      WakeTimer (wt_timer w) (wt_at w) (wt_generation w)
        (<[id := {| cb_gen := cb_gen cb; cb_at := cb_at cb; cb_started := true |}]>
           (wt_runtime w)) (wt_fired w)
  | None => w
  end.

(** The body of a started callback; the flag says whether it calls [fn]. *)
Definition runCallback (w : wakeTimer) (id : nat) : wakeTimer * bool :=
  match wt_runtime w !! id with
  | Some cb =>
      if negb (cb_started cb) then (w, false) else
      let rt := delete id (wt_runtime w) in
      if negb (cb_gen cb =? wt_generation w)
      then (WakeTimer (wt_timer w) (wt_at w) (wt_generation w) rt (wt_fired w), false)
      else (WakeTimer None zeroTime (wt_generation w) rt (cb_at cb :: wt_fired w), true)
  | None => (w, false)
  end.

(** ** Reachable states; the generation counter does not wrap *)

Inductive timerReach : wakeTimer -> Prop :=
  | tr_new : timerReach newWakeTimer
  | tr_arm w at_ earliest :
      timerReach w -> wt_generation w + 1 < 2 ^ 64 -> timerReach (arm w at_ earliest)
  | tr_stop w : timerReach w -> wt_generation w + 1 < 2 ^ 64 -> timerReach (stop w)
  | tr_start w now id : timerReach w -> timerReach (startCallback w now id)
  | tr_run w id : timerReach w -> timerReach (runCallback w id).1.

(** The armed timer is the one callback of the current generation; every other
    callback is stale. *)
Record timer_inv (w : wakeTimer) : Prop := {
  ti_gen : 0 <= wt_generation w < 2 ^ 64;
  ti_old : forall id cb, wt_runtime w !! id = Some cb -> cb_gen cb <= wt_generation w;
  ti_current : forall id cb, wt_runtime w !! id = Some cb ->
    cb_gen cb = wt_generation w <-> wt_timer w = Some id;
  ti_armed : forall id, wt_timer w = Some id ->
    exists cb, wt_runtime w !! id = Some cb /\ cb_at cb = wt_at w;
}.

Lemma stop_subset id rt i (cb : callback) : Timer_Stop id rt !! i = Some cb -> rt !! i = Some cb.
Proof.
  unfold Timer_Stop. destruct (rt !! id) as [c|]; [|done]. destruct (cb_started c); [done|].
  rewrite lookup_delete_Some. tauto.
Qed.

Lemma stopLocked_inv w :
  timer_inv w -> wt_generation w + 1 < 2 ^ 64 ->
  timer_inv (stopLocked w) /\ wt_timer (stopLocked w) = None /\
  wt_generation (stopLocked w) = wt_generation w + 1 /\
  (forall id cb, wt_runtime (stopLocked w) !! id = Some cb -> cb_gen cb <= wt_generation w).
Proof.
  intros [Hg Ho Hc Ha] Hb. unfold stopLocked. rewrite u64_id by (unfold in_uint64; lia).
  assert (forall id cb,
    match wt_timer w with Some i => Timer_Stop i (wt_runtime w) | None => wt_runtime w end !! id
      = Some cb -> cb_gen cb <= wt_generation w) as Hold.
  { intros id cb H. apply (Ho id). destruct (wt_timer w); [|done]. by eapply stop_subset. }
  cbn [wt_timer wt_generation wt_runtime wt_at]. split_and!; [|done..|exact Hold].
  split; cbn [wt_timer wt_generation wt_runtime]; [lia| | |done].
  - intros id cb H. specialize (Hold id cb H). lia.
  - intros id cb H. specialize (Hold id cb H). split; [lia|done].
Qed.

Lemma arm_inv w at_ earliest :
  timer_inv w -> wt_generation w + 1 < 2 ^ 64 -> timer_inv (arm w at_ earliest).
Proof.
  intros Hi Hb. unfold arm. destruct (match wt_timer w with Some _ => _ | None => _ end); [done|].
  destruct (stopLocked_inv w Hi Hb) as (Hi' & _ & Hg & Hold).
  set (w1 := stopLocked w) in *. clearbody w1.
  pose proof (is_fresh (dom (wt_runtime w1))) as Hf. set (id := fresh _) in *. clearbody id.
  apply not_elem_of_dom in Hf.
  split; cbn [wt_timer wt_generation wt_runtime wt_at]; [apply Hi'| | |].
  - intros i cb. destruct (decide (id = i)) as [<-|Hne].
    + rewrite lookup_insert_eq. intros [= <-]. done.
    + rewrite lookup_insert_ne by done. intros H. specialize (Hold i cb H). lia.
  - intros i cb. destruct (decide (id = i)) as [<-|Hne].
    + rewrite lookup_insert_eq. intros [= <-]. done.
    + rewrite lookup_insert_ne by done. intros H. specialize (Hold i cb H).
      split; [lia|congruence].
  - intros i [= <-]. rewrite lookup_insert_eq. eauto.
Qed.

Lemma start_inv w now id : timer_inv w -> timer_inv (startCallback w now id).
Proof.
  intros [Hg Ho Hc Ha]. unfold startCallback.
  destruct (wt_runtime w !! id) as [cb|] eqn:E; [|done]. destruct (Before now (cb_at cb)); [done|].
  split; cbn [wt_timer wt_generation wt_runtime wt_at]; [done| | |].
  - intros i c. destruct (decide (id = i)) as [<-|Hne].
    + rewrite lookup_insert_eq. intros [= <-]. exact (Ho id cb E).
    + rewrite lookup_insert_ne by done. apply Ho.
  - intros i c. destruct (decide (id = i)) as [<-|Hne].
    + rewrite lookup_insert_eq. intros [= <-]. exact (Hc id cb E).
    + rewrite lookup_insert_ne by done. apply Hc.
  - intros i Hi. destruct (Ha i Hi) as (c & Hl & Hat). destruct (decide (id = i)) as [<-|Hne].
    + rewrite lookup_insert_eq. eexists. split; [done|]. cbn. congruence.
    + rewrite lookup_insert_ne by done. eauto.
Qed.

Lemma run_inv w id : timer_inv w -> timer_inv (runCallback w id).1.
Proof.
  intros [Hg Ho Hc Ha]. unfold runCallback.
  destruct (wt_runtime w !! id) as [cb|] eqn:E; [|done]. destruct (cb_started cb); cbn [negb fst]; [|done].
  destruct (Z.eqb_spec (cb_gen cb) (wt_generation w)) as [Heq|Hne]; cbn [negb fst];
    split; cbn [wt_timer wt_generation wt_runtime wt_at]; try done.
  - intros i c [_ H]%lookup_delete_Some. by apply (Ho i).
  - intros i c [Hi H]%lookup_delete_Some. split; [|done]. intros Hcg.
    apply (Hc _ _ H) in Hcg. apply (Hc _ _ E) in Heq. congruence.
  - intros i c [_ H]%lookup_delete_Some. by apply (Ho i).
  - intros i c [_ H]%lookup_delete_Some. by apply (Hc i).
  - intros i Hi. destruct (Ha i Hi) as (c & Hl & Hat). exists c. split; [|done].
    apply lookup_delete_Some. split; [|done]. intros <-. apply Hne. apply (Hc _ _ E). done.
Qed.

Lemma timerReach_inv w : timerReach w -> timer_inv w.
Proof.
  induction 1; [|by apply arm_inv|by apply stopLocked_inv|by apply start_inv|by apply run_inv].
  split; cbn; [lia|..]; intros id; [intros ? ?%lookup_empty_Some|intros ? ?%lookup_empty_Some|]; done.
Qed.

(** A wakeup is neither lost nor stolen: in every reachable state a running
    callback calls [fn] exactly when it is the armed timer, and it then calls it
    for the armed deadline and leaves the timer disarmed; and an armed timer
    always has its callback pending in the runtime. A callback that started
    before a Stop or a re-arm never fires or clears the replacement. *)
Theorem wakeTimer_exact w id :
  timerReach w ->
  (forall cb, wt_runtime w !! id = Some cb -> cb_started cb = true ->
     ((runCallback w id).2 = true <-> wt_timer w = Some id) /\
     (wt_timer w = Some id ->
        wt_fired (runCallback w id).1 = wt_at w :: wt_fired w /\
        wt_timer (runCallback w id).1 = None) /\
     (wt_timer w <> Some id ->
        wt_timer (runCallback w id).1 = wt_timer w /\ wt_at (runCallback w id).1 = wt_at w)) /\
  (wt_timer w = Some id ->
     exists cb, wt_runtime w !! id = Some cb /\ cb_at cb = wt_at w).
Proof.
  intros Hr. destruct (timerReach_inv w Hr) as [Hg Ho Hc Ha]. split; [|apply Ha].
  intros cb E Hs. unfold runCallback. rewrite E, Hs. cbn [negb].
  pose proof (Hc _ _ E) as Hcur.
  destruct (Z.eqb_spec (cb_gen cb) (wt_generation w)) as [Heq|Hne]; cbn [negb fst snd].
  - pose proof (proj1 Hcur Heq) as Ht. split_and!; [done| |done].
    intros _. destruct (Ha _ Ht) as (c & Hl & Hat). split; [|done]. cbn. congruence.
  - split_and!; [|tauto|done]. split; [done|]. tauto.
Qed.

Lemma wakeTimer_exact_witness :
  let w := startCallback (arm (arm newWakeTimer 5 false) 9 true) 6 0 in
  (runCallback w 0).2 = true /\ wt_fired (runCallback w 0).1 = [5].
Proof.
  cbv zeta. set (w := startCallback _ _ _).
  assert (timerReach w) as Hr by (repeat constructor).
  destruct (wakeTimer_exact w 0%nat Hr) as [H _].
  specialize (H (Build_callback 1 5 true) eq_refl eq_refl). destruct H as (H1 & H2 & _).
  split; [apply H1; reflexivity|]. rewrite (proj1 (H2 eq_refl)). reflexivity.
Defined.

(** Arming sets the deadline as documented: the earlier of the two when
    [earliest] is set and a wakeup is outstanding, the new one otherwise; and
    the timer is armed afterwards. *)
Theorem arm_deadline w at_ earliest :
  wt_timer (arm w at_ earliest) <> None /\
  wt_at (arm w at_ earliest) =
    if earliest && bool_decide (wt_timer w <> None) then Z.min (wt_at w) at_ else at_.
Proof.
  unfold arm, Before. destruct (wt_timer w) as [i|] eqn:E.
  - rewrite bool_decide_eq_true_2 by done.
    destruct (Z.eqb_spec (wt_at w) at_), (Z.ltb_spec at_ (wt_at w)), earliest; cbn;
      rewrite ?E; (split; [done|lia]).
  - rewrite bool_decide_eq_false_2 by (intros H; by apply H).
    rewrite andb_false_r. done.
Qed.
