(* ===== verification/LinkedList.v ===== *)
(** internal/scheduler/scheduler_list.go: the intrusive doubly linked FIFO, over
    a heap of nodes, and its refinement to a sequence. *)

From S2P Require Import Prelude.

Section linkedList.
Context {V : Type}.

(** Pointers are [nat]; [None] is nil. *)
Record listNode := ListNode {
  ln_value : option V;
  ln_prev : option nat;
  ln_next : option nat;
  ln_owner : option nat;
}.

Record linkedList := LinkedList { ll_head : option nat; ll_tail : option nat; ll_live : Z }.

Record listHeap := ListHeap {
  lh_nodes : gmap nat listNode;
  lh_lists : gmap nat linkedList;
}.

(** The zero values. *)
Definition zeroNode : listNode := ListNode None None None None.
Definition zeroList : linkedList := LinkedList None None 0.

Definition node_at (h : listHeap) (n : nat) : listNode := default zeroNode (lh_nodes h !! n).
Definition list_at (h : listHeap) (l : nat) : linkedList := default zeroList (lh_lists h !! l).
Definition set_node (n : nat) (x : listNode) (h : listHeap) : listHeap :=
  ListHeap (<[n := x]> (lh_nodes h)) (lh_lists h).
Definition set_list (l : nat) (x : linkedList) (h : listHeap) : listHeap :=
  ListHeap (lh_nodes h) (<[l := x]> (lh_lists h)).

Definition with_next (p : option nat) (x : listNode) : listNode :=
  ListNode (ln_value x) (ln_prev x) p (ln_owner x).
Definition with_prev (p : option nat) (x : listNode) : listNode :=
  ListNode (ln_value x) p (ln_next x) (ln_owner x).
Definition with_head (p : option nat) (x : linkedList) : linkedList :=
  LinkedList p (ll_tail x) (ll_live x).
Definition with_tail (p : option nat) (x : linkedList) : linkedList :=
  LinkedList (ll_head x) p (ll_live x).
Definition add_live (n : Z) (x : linkedList) : linkedList :=
  LinkedList (ll_head x) (ll_tail x) (ll_live x + n).

(** [None] is the panic. *)
Definition list_push (h : listHeap) (l n : nat) (v : V) : option listHeap :=
  match ln_owner (node_at h n) with
  | Some _ => None
  | None =>
      let tail := ll_tail (list_at h l) in
      let h := set_node n (ListNode (Some v) tail None (Some l)) h in
      let h := match tail with
               | Some t => set_node t (with_next (Some n) (node_at h t)) h
               | None => set_list l (with_head (Some n) (list_at h l)) h
               end in
      let h := set_list l (with_tail (Some n) (list_at h l)) h in
      Some (set_list l (add_live 1 (list_at h l)) h)
  end.

Definition list_remove (h : listHeap) (l n : nat) : listHeap * bool :=
  if negb (bool_decide (ln_owner (node_at h n) = Some l)) then (h, false) else
  let h := match ln_prev (node_at h n) with
           | Some p => set_node p (with_next (ln_next (node_at h n)) (node_at h p)) h
           | None => set_list l (with_head (ln_next (node_at h n)) (list_at h l)) h
           end in
  let h := match ln_next (node_at h n) with
           | Some q => set_node q (with_prev (ln_prev (node_at h n)) (node_at h q)) h
           | None => set_list l (with_tail (ln_prev (node_at h n)) (list_at h l)) h
           end in
  let h := set_node n zeroNode h in
  (set_list l (add_live (-1) (list_at h l)) h, true).

Definition list_first (h : listHeap) (l : nat) : option V :=
  match ll_head (list_at h l) with
  | None => None
  | Some n => ln_value (node_at h n)
  end.

(** The walk of forEach and appendTo; [fuel] bounds a cyclic heap. *)
Fixpoint walk (fuel : nat) (h : listHeap) (n : option nat) (dst : list (option V))
    : list (option V) :=
  match fuel, n with
  | S fuel, Some n => walk fuel h (ln_next (node_at h n)) (dst ++ [ln_value (node_at h n)])
  | _, _ => dst
  end.
Definition appendTo (h : listHeap) (l : nat) (dst : list (option V)) : list (option V) :=
  walk (Z.to_nat (ll_live (list_at h l))) h (ll_head (list_at h l)) dst.

(** ** The sequence a list holds *)

(** Neighbours in a sequence of nodes. *)
Definition before {A} (xs : list A) (i : nat) : option A :=
  match i with O => None | S i => xs !! i end.
Definition after {A} (xs : list A) (i : nat) : option A := xs !! S i.

(** [l] holds exactly the nodes and values [xs], oldest first. *)
Record Rep (h : listHeap) (l : nat) (xs : list (nat * V)) : Prop := {
  rep_nodup : NoDup xs.*1;
  rep_list : list_at h l = LinkedList (head xs.*1) (last xs.*1) (Z.of_nat (length xs));
  rep_node : forall i n v, xs !! i = Some (n, v) ->
    node_at h n = ListNode (Some v) (before xs.*1 i) (after xs.*1 i) (Some l);
  rep_owner : forall n, ln_owner (node_at h n) = Some l -> n ∈ xs.*1;
}.

Lemma node_set h n x m : node_at (set_node n x h) m = if decide (n = m) then x else node_at h m.
Proof.
  unfold node_at, set_node. cbn. case_decide; [subst; by rewrite lookup_insert_eq|].
  by rewrite lookup_insert_ne.
Qed.
Lemma node_set_list h l x m : node_at (set_list l x h) m = node_at h m.
Proof. done. Qed.
Lemma list_set h l x k : list_at (set_list l x h) k = if decide (l = k) then x else list_at h k.
Proof.
  unfold list_at, set_list. cbn. case_decide; [subst; by rewrite lookup_insert_eq|].
  by rewrite lookup_insert_ne.
Qed.
Lemma list_set_node h n x k : list_at (set_node n x h) k = list_at h k.
Proof. done. Qed.

Lemma fst_lookup (xs : list (nat * V)) i n :
  xs.*1 !! i = Some n <-> exists v, xs !! i = Some (n, v).
Proof.
  rewrite list_lookup_fmap. destruct (xs !! i) as [[m w]|]; cbn; split.
  - intros [= ->]. eauto.
  - intros [v [= -> ->]]. done.
  - done.
  - by intros [v ?].
Qed.

Lemma rep_at h l xs i n : Rep h l xs -> xs.*1 !! i = Some n ->
  ln_prev (node_at h n) = before xs.*1 i /\ ln_next (node_at h n) = after xs.*1 i /\
  ln_owner (node_at h n) = Some l.
Proof.
  intros HR Hi. apply fst_lookup in Hi as [v Hv]. by rewrite (rep_node _ _ _ HR _ _ _ Hv).
Qed.

Lemma rep_inj h l xs i j n : Rep h l xs -> xs.*1 !! i = Some n -> xs.*1 !! j = Some n -> i = j.
Proof. intros HR. apply NoDup_lookup, HR. Qed.

Lemma rep_not_in h l xs n : Rep h l xs -> ln_owner (node_at h n) <> Some l -> n ∉ xs.*1.
Proof.
  intros HR Ho [i Hi]%list_elem_of_lookup. by destruct (rep_at _ _ _ _ _ HR Hi) as (_ & _ & ?).
Qed.

(** ** push *)

Lemma list_push_heap h l n v :
  ln_owner (node_at h n) = None ->
  exists h', list_push h l n v = Some h' /\
    (ll_tail (list_at h l) <> Some n ->
     forall m, node_at h' m =
      if decide (n = m) then ListNode (Some v) (ll_tail (list_at h l)) None (Some l)
      else if decide (ll_tail (list_at h l) = Some m) then with_next (Some n) (node_at h m)
      else node_at h m) /\
    (forall k, list_at h' k =
      if decide (l = k)
      then LinkedList (match ll_tail (list_at h l) with Some _ => ll_head (list_at h l) | None => Some n end)
             (Some n) (ll_live (list_at h l) + 1)
      else list_at h k).
Proof.
  intros Ho. unfold list_push. rewrite Ho. destruct (ll_tail (list_at h l)) as [t|] eqn:Et.
  - eexists. split; [done|]. split.
    + intros Hne m. rewrite !node_set_list, !node_set.
      destruct (decide (t = m)) as [<-|], (decide (n = t)); try congruence;
        repeat case_decide; try done; congruence.
    + intros k. rewrite !list_set, !list_set_node. case_decide; [subst|done].
      rewrite !decide_True by done. cbn. by destruct (list_at h k).
  - eexists. split; [done|]. split.
    + intros _ m. rewrite !node_set_list, !node_set. repeat case_decide; congruence.
    + intros k. rewrite !list_set, !list_set_node. case_decide; [subst|done].
      rewrite !decide_True by done. done.
Qed.

Lemma rep_tail h l xs : Rep h l xs -> ll_tail (list_at h l) = xs.*1 !! pred (length xs).
Proof. intros HR. rewrite (rep_list _ _ _ HR). cbn. by rewrite last_lookup, length_fmap. Qed.
Lemma rep_head h l xs : Rep h l xs -> ll_head (list_at h l) = xs.*1 !! 0%nat.
Proof. intros HR. rewrite (rep_list _ _ _ HR). cbn. by rewrite head_lookup. Qed.
Lemma rep_live h l xs : Rep h l xs -> ll_live (list_at h l) = Z.of_nat (length xs).
Proof. intros HR. by rewrite (rep_list _ _ _ HR). Qed.

Lemma push_rep h l n v xs :
  Rep h l xs -> ln_owner (node_at h n) = None ->
  exists h', list_push h l n v = Some h' /\ Rep h' l (xs ++ [(n, v)]).
Proof.
  intros HR Ho. destruct (list_push_heap h l n v Ho) as (h' & Hp & Hn & Hl).
  exists h'. split; [done|].
  assert (n ∉ xs.*1) as Hnin by (eapply rep_not_in; [done|by rewrite Ho]).
  rewrite (rep_tail _ _ _ HR) in Hn, Hl.
  assert (xs.*1 !! pred (length xs) <> Some n) as Hnt.
  { intros H. apply Hnin, list_elem_of_lookup. eauto. }
  specialize (Hn Hnt). split.
  - rewrite fmap_app, NoDup_app. split; [apply HR|]. split; [|apply NoDup_singleton].
    intros x Hx ->%list_elem_of_singleton. done.
  - rewrite Hl, decide_True, fmap_app by done. rewrite (rep_head _ _ _ HR), (rep_live _ _ _ HR).
    change ([(n, v)].*1) with [n]. rewrite last_snoc, head_lookup. destruct xs as [|x xs]; [done|].
    rewrite <- length_fmap with (f := fst). rewrite <- last_lookup.
    destruct (last ((x :: xs).*1)) eqn:E; [|by apply last_None in E].
    rewrite length_app, length_fmap. f_equal. cbn [length]. lia.
  - intros i m w Hi. rewrite Hn, fmap_app. change ([(n, v)].*1) with [n].
    assert (length xs.*1 = length xs) as Hlen by apply length_fmap.
    apply lookup_snoc_Some in Hi as [[Hlt Hi]|[-> Heq]].
    + assert (m ∈ xs.*1) by (apply list_elem_of_lookup; exists i; apply fst_lookup; eauto).
      rewrite decide_False by (intros ->; done).
      rewrite (rep_node _ _ _ HR _ _ _ Hi).
      assert (before (xs.*1 ++ [n]) i = before xs.*1 i) as ->.
      { destruct i; [done|]. cbn [before]. apply lookup_app_l. lia. }
      case_decide as Ht.
      * assert (i = pred (length xs)) as -> by
          (eapply rep_inj; [done| |done]; apply fst_lookup; eauto).
        unfold with_next, after. cbn [ln_value ln_prev ln_owner].
        rewrite lookup_app_r by lia. rewrite Hlen.
        replace (S (pred (length xs)) - length xs)%nat with 0%nat by lia. done.
      * assert (S i < length xs)%nat.
        { destruct (decide (S i = length xs)) as [He|]; [|lia]. exfalso. apply Ht.
          rewrite <- He. apply fst_lookup. eauto. }
        unfold after. rewrite lookup_app_l by lia. done.
    + injection Heq as <- <-. rewrite decide_True by done. f_equal.
      * destruct xs as [|x xs]; [done|]. cbn [length before pred].
        cbn [length] in Hlen. rewrite lookup_app_l by lia. done.
      * unfold after. rewrite lookup_app_r by lia.
        rewrite Hlen. replace (S (length xs) - length xs)%nat with 1%nat by lia. done.
  - intros m. rewrite Hn, fmap_app, elem_of_app. case_decide; [subst|].
    + intros _. right. by left.
    + case_decide; cbn; intros; left; by apply (rep_owner _ _ _ HR).
Qed.

(** Pushing on one list leaves every other list as it is. *)
Lemma push_frame h l n v h' k ys :
  list_push h l n v = Some h' -> k <> l ->
  (ll_tail (list_at h l) = None \/ exists xs, Rep h l xs) ->
  Rep h k ys -> Rep h' k ys.
Proof.
  intros Hp Hk Hlt HR.
  assert (ln_owner (node_at h n) = None) as Ho
    by (unfold list_push in Hp; by destruct (ln_owner (node_at h n))).
  destruct (list_push_heap h l n v Ho) as (h2 & Hp' & Hn & Hl). rewrite Hp in Hp'.
  injection Hp' as <-.
  assert (forall t, ll_tail (list_at h l) = Some t -> ln_owner (node_at h t) = Some l) as Hto.
  { intros t Ht. destruct Hlt as [?|[xs HRl]]; [congruence|].
    rewrite (rep_tail _ _ _ HRl) in Ht. by destruct (rep_at _ _ _ _ _ HRl Ht) as (_ & _ & ?). }
  assert (ll_tail (list_at h l) <> Some n) as Hnt.
  { intros H. rewrite (Hto n H) in Ho. done. }
  specialize (Hn Hnt). split; [apply HR| | |].
  - rewrite Hl, decide_False by done. apply HR.
  - intros i m w Hi. rewrite Hn, <- (rep_node _ _ _ HR _ _ _ Hi).
    assert (ln_owner (node_at h m) = Some k) as Hm by (by rewrite (rep_node _ _ _ HR _ _ _ Hi)).
    rewrite decide_False by congruence. rewrite decide_False; [done|].
    intros Ht. rewrite (Hto m Ht) in Hm. congruence.
  - intros m. rewrite Hn. case_decide; [cbn; congruence|].
    case_decide; cbn; apply (rep_owner _ _ _ HR).
Qed.

(** ** remove *)

Lemma list_remove_heap h l n :
  ln_owner (node_at h n) = Some l ->
  ln_prev (node_at h n) <> Some n -> ln_next (node_at h n) <> Some n ->
  (forall m, ln_prev (node_at h n) = Some m -> ln_next (node_at h n) <> Some m) ->
  (list_remove h l n).2 = true /\
  (forall m, node_at (list_remove h l n).1 m =
     if decide (n = m) then zeroNode
     else if decide (ln_prev (node_at h n) = Some m)
     then with_next (ln_next (node_at h n)) (node_at h m)
     else if decide (ln_next (node_at h n) = Some m)
     then with_prev (ln_prev (node_at h n)) (node_at h m)
     else node_at h m) /\
  (forall k, list_at (list_remove h l n).1 k =
     if decide (l = k)
     then LinkedList
            (match ln_prev (node_at h n) with Some _ => ll_head (list_at h l) | None => ln_next (node_at h n) end)
            (match ln_next (node_at h n) with Some _ => ll_tail (list_at h l) | None => ln_prev (node_at h n) end)
            (ll_live (list_at h l) - 1)
     else list_at h k).
Proof.
  intros Ho Hp Hq Hpq. unfold list_remove. rewrite bool_decide_eq_true_2 by done. cbn [negb].
  destruct (ln_prev (node_at h n)) as [p|] eqn:Ep, (ln_next (node_at h n)) as [q|] eqn:Eq;
    rewrite ?node_set_list, ?node_set, ?(decide_False (P := p = n)) by congruence;
    rewrite ?Ep, ?Eq; cbn [fst snd]; (split; [done|]);
    (split;
     [intros m; rewrite ?node_set_list, ?node_set, ?node_set_list, ?node_set;
      repeat case_decide; subst; try done; try congruence;
      exfalso; eapply Hpq; eauto
     |intros k; rewrite ?list_set, ?list_set_node, ?list_set, ?list_set_node;
      case_decide; [subst; rewrite ?decide_True by done; cbn; try done; destruct (list_at h k); done
                   |by rewrite ?decide_False by done]]).
Qed.

Lemma rep_neighbours h l xs i n v :
  Rep h l xs -> xs !! i = Some (n, v) ->
  ln_owner (node_at h n) = Some l /\
  ln_prev (node_at h n) <> Some n /\ ln_next (node_at h n) <> Some n /\
  (forall m, ln_prev (node_at h n) = Some m -> ln_next (node_at h n) <> Some m).
Proof.
  intros HR Hi. assert (Hi' : xs.*1 !! i = Some n) by (apply fst_lookup; eauto).
  rewrite (rep_node _ _ _ HR _ _ _ Hi). cbn [ln_prev ln_next ln_owner]. split_and!; [done|..].
  - destruct i as [|i]; cbn [before]; [done|]. intros H.
    pose proof (rep_inj _ _ _ _ _ _ HR H Hi'). lia.
  - unfold after. intros H. pose proof (rep_inj _ _ _ _ _ _ HR H Hi'). lia.
  - intros m Hm Hm'. destruct i as [|i]; cbn [before] in Hm; [done|].
    pose proof (rep_inj _ _ _ _ _ _ HR Hm Hm'). lia.
Qed.

Lemma remove_rep h l xs i n v :
  Rep h l xs -> xs !! i = Some (n, v) ->
  (list_remove h l n).2 = true /\ Rep (list_remove h l n).1 l (delete i xs) /\
  node_at (list_remove h l n).1 n = zeroNode.
Proof.
  intros HR Hi. pose proof (rep_node _ _ _ HR _ _ _ Hi) as Hnode.
  assert (Hi' : xs.*1 !! i = Some n) by (apply fst_lookup; eauto).
  assert (Hlen : length xs.*1 = length xs) by apply length_fmap.
  assert (Hlt : (i < length xs)%nat) by (by apply lookup_lt_Some in Hi).
  destruct (rep_neighbours h l xs i n v HR Hi) as (Ho & Hprev & Hq & Hpq).
  destruct (list_remove_heap h l n Ho Hprev Hq Hpq) as (Hok & Hn & Hl).
  rewrite Hnode in Hn, Hl. cbn [ln_prev ln_next] in Hn, Hl.
  split; [done|]. split; [|by rewrite Hn, decide_True].
  assert (Hfst : (delete i xs).*1 = delete i xs.*1) by apply list_fmap_delete.
  split.
  - rewrite Hfst. eapply sublist_NoDup; [apply HR|apply sublist_delete].
  - rewrite Hl, decide_True by done. rewrite (rep_head _ _ _ HR), (rep_tail _ _ _ HR), (rep_live _ _ _ HR).
    rewrite Hfst, head_lookup, last_lookup, length_delete by eauto.
    f_equal.
    + destruct i as [|i]; cbn [before].
      * by rewrite list_lookup_delete_ge by lia.
      * rewrite list_lookup_delete_lt by lia.
        destruct (xs.*1 !! i) eqn:E; [done|]. apply lookup_ge_None in E. lia.
    + unfold after. destruct (xs.*1 !! S i) as [q|] eqn:E.
      * apply lookup_lt_Some in E. rewrite list_lookup_delete_ge by lia. f_equal. lia.
      * apply lookup_ge_None in E. destruct i as [|i]; cbn [before].
        -- symmetry. apply lookup_ge_None. rewrite length_delete by eauto. lia.
        -- rewrite list_lookup_delete_lt by lia. f_equal. lia.
    + rewrite length_delete by eauto. lia.
  - intros j m w Hj. rewrite Hn, Hfst.
    destruct (decide (j < i)%nat) as [Hji|Hji].
    + rewrite list_lookup_delete_lt in Hj by done.
      assert (Hj' : xs.*1 !! j = Some m) by (apply fst_lookup; eauto).
      rewrite decide_False by (intros ->; pose proof (rep_inj _ _ _ _ _ _ HR Hi' Hj'); lia).
      rewrite (rep_node _ _ _ HR _ _ _ Hj).
      assert (before (delete i xs.*1) j = before xs.*1 j) as ->.
      { destruct j; [done|]. cbn [before]. apply list_lookup_delete_lt. lia. }
      case_decide as Hb.
      * destruct i as [|i]; cbn [before] in Hb; [done|].
        pose proof (rep_inj _ _ _ _ _ _ HR Hb Hj') as <-.
        unfold with_next, after. cbn [ln_value ln_prev ln_owner].
        by rewrite list_lookup_delete_ge by lia.
      * assert (HSj : (S j < i)%nat).
        { destruct (decide (S j = i)) as [<-|]; [|lia]. by cbn [before] in Hb. }
        unfold after in *. rewrite list_lookup_delete_lt by lia.
        rewrite decide_False; [done|]. intros H.
        pose proof (rep_inj _ _ _ _ _ _ HR H Hj'). lia.
    + rewrite list_lookup_delete_ge in Hj by lia.
      assert (Hj' : xs.*1 !! S j = Some m) by (apply fst_lookup; eauto).
      rewrite decide_False by (intros ->; pose proof (rep_inj _ _ _ _ _ _ HR Hi' Hj'); lia).
      rewrite (rep_node _ _ _ HR _ _ _ Hj).
      rewrite decide_False.
      2: { intros H. destruct i as [|i]; cbn [before] in H; [done|].
           pose proof (rep_inj _ _ _ _ _ _ HR H Hj'). lia. }
      assert (after (delete i xs.*1) j = after xs.*1 (S j)) as ->.
      { unfold after. apply list_lookup_delete_ge. lia. }
      case_decide as Ha.
      * unfold after in Ha. pose proof (rep_inj _ _ _ _ _ _ HR Ha Hj') as Heq.
        injection Heq as ->. unfold with_prev. cbn [ln_value ln_next ln_owner]. f_equal.
        destruct j as [|j]; [done|]. cbn [before]. by rewrite list_lookup_delete_lt by lia.
      * f_equal. assert (i < j)%nat.
        { destruct (decide (i = j)) as [->|]; [|lia]. done. }
        cbn [before]. destruct j as [|j]; [lia|]. cbn [before].
        by rewrite list_lookup_delete_ge by lia.
  - intros m. rewrite Hn. case_decide; [done|].
    intros Hom. assert (ln_owner (node_at h m) = Some l) as Hm by (by repeat case_decide).
    apply (rep_owner _ _ _ HR) in Hm. apply list_elem_of_lookup in Hm as [j Hj].
    rewrite Hfst. apply list_elem_of_lookup.
    destruct (decide (j < i)%nat).
    + exists j. by rewrite list_lookup_delete_lt.
    + assert (j <> i) by congruence. exists (pred j).
      rewrite list_lookup_delete_ge by lia. by replace (S (pred j)) with j by lia.
Qed.

Lemma remove_owner h l xs i n v m :
  Rep h l xs -> xs !! i = Some (n, v) -> m <> n ->
  ln_owner (node_at (list_remove h l n).1 m) = ln_owner (node_at h m).
Proof.
  intros HR Hi Hm. destruct (rep_neighbours h l xs i n v HR Hi) as (Ho & Hp & Hq & Hpq).
  destruct (list_remove_heap h l n Ho Hp Hq Hpq) as (_ & Hn & _). rewrite Hn.
  rewrite decide_False by done. by repeat case_decide.
Qed.

Lemma remove_absent h l xs n :
  Rep h l xs -> n ∉ xs.*1 -> list_remove h l n = (h, false).
Proof.
  intros HR Hn. unfold list_remove. rewrite bool_decide_eq_false_2; [done|].
  intros H. by apply Hn, (rep_owner _ _ _ HR).
Qed.

Lemma first_rep h l xs : Rep h l xs -> list_first h l = snd <$> head xs.
Proof.
  intros HR. unfold list_first. rewrite (rep_head _ _ _ HR).
  destruct xs as [|[n v] xs]; [done|]. cbn. by rewrite (rep_node _ _ _ HR 0 n v eq_refl).
Qed.

Lemma walk_rep h l xs i fuel dst :
  Rep h l xs -> (length xs - i <= fuel)%nat -> (i <= length xs)%nat ->
  walk fuel h (xs.*1 !! i) dst = dst ++ (Some <$> (drop i xs).*2).
Proof.
  intros HR. revert i dst. induction fuel as [|fuel IH]; intros i dst Hf Hi.
  - rewrite drop_ge by lia. by rewrite app_nil_r.
  - cbn [walk]. destruct (xs.*1 !! i) as [n|] eqn:E.
    + apply fst_lookup in E as [v Hv]. pose proof (rep_node _ _ _ HR _ _ _ Hv) as Hn.
      rewrite Hn. cbn [ln_next ln_value]. unfold after.
      assert (i < length xs)%nat by (by apply lookup_lt_Some in Hv).
      rewrite IH by lia. rewrite (drop_S _ _ _ Hv), <- app_assoc. done.
    + apply lookup_ge_None in E. rewrite length_fmap in E. rewrite drop_ge by lia.
      by rewrite app_nil_r.
Qed.

Lemma appendTo_rep h l xs dst : Rep h l xs -> appendTo h l dst = dst ++ (Some <$> xs.*2).
Proof.
  intros HR. unfold appendTo. rewrite (rep_live _ _ _ HR), (rep_head _ _ _ HR).
  rewrite (walk_rep h l xs 0) by (done || lia). done.
Qed.

Lemma zero_rep l : Rep (ListHeap ∅ ∅) l [].
Proof.
  split; [constructor| | |].
  - done.
  - intros i n v H. by rewrite lookup_nil in H.
  - intros n. done.
Qed.
End linkedList.

Arguments listNode : clear implicits.
Arguments listHeap : clear implicits.

(** The pointer structure is a FIFO: on a list that holds the sequence
    [xs], push appends (and panics exactly on a node that is already linked),
    remove deletes the node wherever it stands and reports membership, first
    answers the oldest value and appendTo every live value in order - no removed
    or nil value is ever seen. *)
Theorem linkedList_refines {V} (h : listHeap V) l xs :
  Rep h l xs ->
  (forall n v, match list_push h l n v with
               | Some h' => ln_owner (node_at h n) = None /\ Rep h' l (xs ++ [(n, v)])
               | None => ln_owner (node_at h n) <> None
               end) /\
  (forall i n v, xs !! i = Some (n, v) ->
     (list_remove h l n).2 = true /\ Rep (list_remove h l n).1 l (delete i xs) /\
     ln_owner (node_at (list_remove h l n).1 n) = None) /\
  (forall n, n ∉ xs.*1 -> list_remove h l n = (h, false)) /\
  list_first h l = snd <$> head xs /\
  (forall dst, appendTo h l dst = dst ++ (Some <$> xs.*2)).
Proof.
  intros HR. split_and!.
  - intros n v. destruct (ln_owner (node_at h n)) as [k|] eqn:E.
    + unfold list_push. by rewrite E.
    + by destruct (push_rep h l n v xs HR E) as (h' & -> & ?).
  - intros i n v Hi. destruct (remove_rep h l xs i n v HR Hi) as (? & ? & Hz).
    by rewrite Hz.
  - intros n. by apply remove_absent.
  - by apply first_rep.
  - intros dst. by apply appendTo_rep.
Qed.

Lemma linkedList_refines_witness :
  exists h, Rep h 0 [(3%nat, "a"%string); (5%nat, "b"%string)] /\
    list_first h 0 = Some "a"%string.
Proof.
  destruct (push_rep _ 0 3 "a"%string [] (zero_rep 0) eq_refl) as (h1 & E1 & H1).
  assert (ln_owner (node_at h1 5) = None) as Ho.
  { injection E1 as <-. reflexivity. }
  destruct (push_rep _ 0 5 "b"%string _ H1 Ho) as (h2 & E2 & H2).
  exists h2. split; [exact H2|].
  destruct (linkedList_refines h2 0 _ H2) as (_ & _ & _ & Hf & _). rewrite Hf. reflexivity.
Defined.

(** ** The interface the collections are proved against *)

(** A collection of values in arrival order; a value is named by its node. *)
Class Fifo (V F : Type) := {
  fifo_holds : F -> list (nat * V) -> Prop;
  fifo_empty : F;
  fifo_push : nat -> V -> F -> F;
  fifo_remove : nat -> F -> F;
  fifo_first : F -> option V;
  fifo_empty_holds : fifo_holds fifo_empty [];
  fifo_push_holds f xs n v :
    fifo_holds f xs -> n ∉ xs.*1 -> fifo_holds (fifo_push n v f) (xs ++ [(n, v)]);
  fifo_remove_holds f xs i n v :
    fifo_holds f xs -> xs !! i = Some (n, v) -> fifo_holds (fifo_remove n f) (delete i xs);
  fifo_first_holds f xs : fifo_holds f xs -> fifo_first f = snd <$> head xs;
}.

(** The linked list, on a heap in which only this list links nodes. *)
Definition alone {V} (h : listHeap V) (xs : list (nat * V)) : Prop :=
  Rep h 0 xs /\ forall n, n ∉ xs.*1 -> ln_owner (node_at h n) = None.

#[export, refine] Instance linkedList_fifo V : Fifo V (listHeap V) := {|
  fifo_holds := alone;
  fifo_empty := ListHeap ∅ ∅;
  fifo_push n v h := default h (list_push h 0 n v);
  fifo_remove n h := (list_remove h 0 n).1;
  fifo_first h := list_first h 0;
|}.
Proof.
  - split; [apply zero_rep|done].
  - intros h xs n v [HR Ha] Hn. pose proof (Ha n Hn) as Ho.
    destruct (push_rep h 0 n v xs HR Ho) as (h' & Hp & HR'). rewrite Hp. cbn.
    split; [done|]. intros m Hm. destruct (list_push_heap h 0 n v Ho) as (h2 & Hp2 & Hnd & _).
    rewrite Hp in Hp2. injection Hp2 as <-. rewrite fmap_app, not_elem_of_app in Hm.
    destruct Hm as [Hm Hmn]. rewrite Hnd.
    2: { rewrite (rep_tail _ _ _ HR). intros Ht. apply Hn, list_elem_of_lookup. eauto. }
    rewrite decide_False by (intros <-; apply Hmn; by left).
    case_decide; cbn; by apply Ha.
  - intros h xs i n v [HR Ha] Hi. destruct (remove_rep h 0 xs i n v HR Hi) as (_ & HR' & Hz).
    split; [done|]. intros m Hm. destruct (decide (m = n)) as [->|Hne]; [by rewrite Hz|].
    rewrite (remove_owner h 0 xs i n v m) by done. apply Ha. intros Hin. apply Hm.
    rewrite list_fmap_delete. apply list_elem_of_lookup in Hin as [j Hj].
    assert (j <> i) by (intros ->; apply fst_lookup in Hj as [w Hw]; congruence).
    apply list_elem_of_lookup. destruct (decide (j < i)%nat).
    + exists j. by rewrite list_lookup_delete_lt.
    + exists (pred j). rewrite list_lookup_delete_ge by lia. by replace (S (pred j)) with j by lia.
  - intros h xs [HR _]. by apply first_rep.
Defined.
