(* ===== verification/GoFloat.v ===== *)
(** Go's float64 as the Standard Library's executable IEEE 754 semantics
    (binary64, round to nearest even), and the conversions the scheduler makes.
    A Go compiler may fuse a multiply and an add on some architectures; the
    model is the unfused amd64 behaviour. *)

From Stdlib Require Export SpecFloat.
From S2P Require Import Prelude.

Abbreviation float64 := spec_float.

Definition fprec : Z := 53.
Definition femax : Z := 1024.

Definition fadd : float64 -> float64 -> float64 := SFadd fprec femax.
Definition fsub : float64 -> float64 -> float64 := SFsub fprec femax.
Definition fmul : float64 -> float64 -> float64 := SFmul fprec femax.
Definition fdiv : float64 -> float64 -> float64 := SFdiv fprec femax.
Definition fltb : float64 -> float64 -> bool := SFltb.
Definition fleb : float64 -> float64 -> bool := SFleb.

(** [m * 2^e], rounded. *)
Definition fscale (m e : Z) : float64 := binary_normalize fprec femax m e false.
(** float64(n) for an integer. *)
Definition of_int (n : Z) : float64 := fscale n 0.

Definition fzero : float64 := S754_zero false.
Definition fhalf : float64 := fscale 1 (-1).
Definition f3quarters : float64 := fscale 3 (-2).

(** The truncation of a finite float toward zero. *)
Definition ftrunc (f : float64) : option Z :=
  match f with
  | S754_zero _ => Some 0
  | S754_finite s m e =>
      let a := if 0 <=? e then Zpos m * 2 ^ e else Zpos m / 2 ^ (- e) in
      Some (if s then - a else a)
  | _ => None
  end.

(** int64(f): out of range (or NaN) gives the amd64 indefinite value. *)
Definition to_int64 (f : float64) : Z :=
  match ftrunc f with
  | Some z => if decide (in_int64 z) then z else int64_min
  | None => int64_min
  end.

(** Duration.Seconds: whole seconds plus the fraction, in float64. *)
Definition Seconds (d : Z) : float64 :=
  fadd (of_int (Z.quot d (10 ^ 9))) (fdiv (of_int (Z.rem d (10 ^ 9))) (of_int (10 ^ 9))).

Definition notNaN (f : float64) : Prop := f <> S754_nan.

Lemma fltb_irrefl f : fltb f f = false.
Proof.
  destruct f as [[]|[]| |[] m e]; try reflexivity; unfold fltb, SFltb; cbn;
    rewrite Z.compare_refl; cbn; by rewrite ?Pos.compare_cont_refl, ?Pos.compare_refl.
Qed.

Lemma to_int64_range f : in_int64 (to_int64 f).
Proof.
  unfold to_int64. destruct (ftrunc f); [case_decide; [done|]|]; unfold in_int64, int64_min, int64_max; lia.
Qed.

Example seconds_ex : Seconds 1500000000 = fscale 3 (-1). Proof. vm_compute. reflexivity. Qed.
Example to_int64_ex : to_int64 (fmul (of_int 1000) (fadd (fmul fhalf fhalf) f3quarters)) = 1000.
Proof. vm_compute. reflexivity. Qed.
