(* ===== verification/Ramp.v ===== *)
(** internal/scheduler/scheduler_admission.go: the anti-burst ramp - the
    allowance a key has at a time of its epoch, and when it next grows. *)

From S2P Require Import Prelude GoTime.

(** bits.Mul64 and bits.Div64; [None] is Div64's panic. *)
Definition Mul64 (x y : Z) : Z * Z := ((x * y) / 2 ^ 64, (x * y) mod 2 ^ 64).
Definition Div64 (hi lo y : Z) : option (Z * Z) :=
  if (y =? 0) || (y <=? hi) then None
  else Some ((hi * 2 ^ 64 + lo) / y, (hi * 2 ^ 64 + lo) mod y).

Definition rampSteps (elapsed duration target : Z) : option Z :=
  if (target <? 2) || (duration <=? 0) || (elapsed <=? 0) then Some 0 else
  if duration <=? elapsed then Some (target - 1) else
  let '(hi, lo) := Mul64 (u64 (target - 1)) (u64 elapsed) in
  match Div64 hi lo (u64 duration) with
  | None => None
  | Some (steps, _) => Some (wrap64 steps)
  end.

Definition rampStepDuration (steps target duration : Z) : option Z :=
  if (steps <=? 0) || (target <? 2) || (duration <=? 0) then Some 0 else
  let '(hi, lo) := Mul64 (u64 steps) (u64 duration) in
  match Div64 hi lo (u64 (target - 1)) with
  | None => None
  | Some (q, r) => Some (wrap64 (if negb (r =? 0) then u64 (q + 1) else q))
  end.

(** The ramp fields of a group. *)
Record rampState := { rp_start : Time; rp_idleSince : Time }.

Definition rampAllowance (r : rampState) (now : Time) (target duration : Z) : option Z :=
  if IsZero (rp_start r) || (target <? 2) || (duration <=? 0) then Some 1 else
  match rampSteps (Sub now (rp_start r)) duration target with
  | None => None
  | Some steps =>
      let allowance := wrap64 (1 + steps) in
      Some (if allowance <? 1 then 1 else if target <? allowance then target else allowance)
  end.

(** [Some zeroTime]: no increase is due. *)
Definition nextRampStep (r : rampState) (now : Time) (target duration : Z) : option Time :=
  if IsZero (rp_start r) || (target <? 2) || (duration <=? 0) then Some zeroTime else
  match rampAllowance r now target duration with
  | None => None
  | Some allowance =>
      if target <=? allowance then Some zeroTime else
      match rampStepDuration allowance target duration with
      | None => None
      | Some d =>
          let next := Add (rp_start r) d in
          Some (if Before next (Add now Millisecond) then Add now Millisecond else next)
      end
  end.

Definition startRamp (r : rampState) (inFlight : Z) (now : Time) (duration : Z) : rampState :=
  if negb (inFlight =? 0) then r else
  {| rp_start :=
       if IsZero (rp_start r) ||
          (negb (IsZero (rp_idleSince r)) && (duration <=? Sub now (rp_idleSince r)))
       then now else rp_start r;
     rp_idleSince := zeroTime |}.

Definition anchorRamp (r : rampState) (inFlight : Z) (now : Time) (target duration : Z)
    : option rampState :=
  if negb (IsZero (rp_start r)) || (inFlight <=? 0) || (target <? 2) || (duration <=? 0)
  then Some r else
  let occupancy := Z.min inFlight (target - 1) in
  match rampStepDuration occupancy target duration with
  | None => None
  | Some d => Some {| rp_start := Add now (- d); rp_idleSince := zeroTime |}
  end.

Definition resetRamp : rampState := {| rp_start := zeroTime; rp_idleSince := zeroTime |}.

(** ** The arithmetic *)

Lemma mul_div_exact x y d q r :
  0 <= x -> 0 <= y -> 0 < d -> x * y < d * 2 ^ 64 ->
  let '(hi, lo) := Mul64 x y in
  Div64 hi lo d = Some (q, r) <-> q = x * y / d /\ r = (x * y) mod d.
Proof.
  intros Hx Hy Hd Hlt. unfold Mul64, Div64.
  assert (x * y / 2 ^ 64 < d) by (apply Z.div_lt_upper_bound; lia).
  destruct (Z.eqb_spec d 0), (Z.leb_spec d (x * y / 2 ^ 64)); try lia. cbn [orb].
  replace (x * y / 2 ^ 64 * 2 ^ 64 + (x * y) mod 2 ^ 64) with (x * y)
    by (rewrite (Z.div_mod (x * y) (2 ^ 64)) at 1; lia).
  split; [intros [= <- <-]; done|intros [-> ->]; done].
Qed.

(** Legal inputs: a concurrency target and a duration as the policy holds them. *)
Definition ramp_ok (target duration : Z) : Prop :=
  2 <= target <= int64_max /\ 0 < duration <= int64_max.

Lemma rampSteps_eq target duration e :
  ramp_ok target duration -> in_int64 e ->
  rampSteps e duration target =
    Some (if e <=? 0 then 0 else if duration <=? e then target - 1
          else (target - 1) * e / duration).
Proof.
  unfold ramp_ok, in_int64, int64_min, int64_max. intros [Ht Hd] He. unfold rampSteps.
  destruct (Z.ltb_spec target 2), (Z.leb_spec duration 0); try lia. cbn [orb].
  destruct (Z.leb_spec e 0); [done|]. destruct (Z.leb_spec duration e); [done|].
  rewrite !u64_id by (unfold in_uint64; lia).
  pose proof (mul_div_exact (target - 1) e duration ((target - 1) * e / duration)
    (((target - 1) * e) mod duration)) as H'.
  destruct (Mul64 (target - 1) e) as [hi lo]. rewrite (proj2 (H' ltac:(lia) ltac:(lia) ltac:(lia) ltac:(nia)) (conj eq_refl eq_refl)).
  rewrite wrap64_id; [done|]. unfold in_int64, int64_min, int64_max.
  assert (0 <= (target - 1) * e / duration) by (apply Z.div_pos; nia).
  assert ((target - 1) * e / duration <= target - 1) by (apply Z.div_le_upper_bound; nia). lia.
Qed.

Lemma rampStepDuration_eq target duration s :
  ramp_ok target duration -> s <= target - 1 ->
  rampStepDuration s target duration =
    Some (if s <=? 0 then 0 else (s * duration + (target - 2)) / (target - 1)).
Proof.
  unfold ramp_ok, int64_max. intros [Ht Hd] Hs. unfold rampStepDuration.
  destruct (Z.ltb_spec target 2), (Z.leb_spec duration 0); try lia.
  rewrite !orb_false_r. destruct (Z.leb_spec s 0); [done|].
  rewrite !u64_id by (unfold in_uint64; lia).
  set (q := s * duration / (target - 1)). set (r := (s * duration) mod (target - 1)).
  pose proof (mul_div_exact s duration (target - 1) q r) as H'.
  destruct (Mul64 s duration) as [hi lo]. rewrite (proj2 (H' ltac:(lia) ltac:(lia) ltac:(lia) ltac:(nia)) (conj eq_refl eq_refl)).
  assert (Hqr : s * duration = (target - 1) * q + r) by (apply Z.div_mod; lia).
  assert (0 <= r < target - 1) by (apply Z.mod_pos_bound; lia).
  assert (0 <= q <= duration).
  { split; [apply Z.div_pos; nia|apply Z.div_le_upper_bound; nia]. }
  rewrite Hqr. f_equal. destruct (Z.eqb_spec r 0) as [Hr|Hr]; cbn [negb].
  - rewrite wrap64_id by (unfold in_int64, int64_min, int64_max; lia).
    replace ((target - 1) * q + r + (target - 2)) with (q * (target - 1) + (target - 2)) by lia.
    rewrite Z.div_add_l by lia. rewrite Z.div_small by lia. lia.
  - assert (q < duration) by nia.
    rewrite u64_id by (unfold in_uint64; lia).
    rewrite wrap64_id by (unfold in_int64, int64_min, int64_max; lia).
    replace ((target - 1) * q + r + (target - 2)) with ((q + 1) * (target - 1) + (r - 1)) by lia.
    rewrite Z.div_add_l by lia. rewrite Z.div_small by lia. lia.
Qed.

Lemma ceil_div a b c : 0 < b -> (a + (b - 1)) / b <= c <-> a <= b * c.
Proof.
  intros Hb. split; intros H.
  - assert (a + (b - 1) < b * ((a + (b - 1)) / b) + b).
    { pose proof (Z.mul_succ_div_gt (a + (b - 1)) b Hb). lia. }
    nia.
  - apply Z.lt_succ_r, Z.div_lt_upper_bound; nia.
Qed.

(** Step counting and step deadlines are adjoint: the allowance has grown
    by [s] steps exactly from the instant rampStepDuration gives, for every
    legal target and duration - in particular the 128-bit products never panic
    and a wake scheduled at a boundary observes the increment. *)
Theorem ramp_adjoint target duration s e :
  ramp_ok target duration -> 1 <= s <= target - 1 -> in_int64 e ->
  exists n d, rampSteps e duration target = Some n /\
    rampStepDuration s target duration = Some d /\
    0 < d <= duration /\ (s <= n <-> d <= e).
Proof.
  intros Hok Hs He. rewrite rampSteps_eq, rampStepDuration_eq by (done || lia).
  eexists _, _. split; [done|]. split; [done|]. destruct Hok as [Ht Hd].
  destruct (Z.leb_spec s 0); [lia|].
  set (d := (s * duration + (target - 2)) / (target - 1)).
  assert (Hdd : forall c, d <= c <-> s * duration <= (target - 1) * c).
  { intros c. unfold d. replace (target - 2) with (target - 1 - 1) by lia. apply ceil_div. lia. }
  assert (Hd1 : 0 < d <= duration).
  { split; [apply Z.lt_nge; rewrite Hdd; nia|apply Hdd; nia]. }
  split; [done|]. rewrite Hdd.
  destruct (Z.leb_spec e 0); [split; nia|]. destruct (Z.leb_spec duration e); [split; nia|].
  split; intros H'.
  - assert (duration * ((target - 1) * e / duration) <= (target - 1) * e) by (apply Z.mul_div_le; lia).
    nia.
  - apply Z.div_le_lower_bound; lia.
Qed.

Lemma ramp_adjoint_witness :
  exists n d, rampSteps (5 * 10 ^ 17) (10 ^ 18) (2 ^ 62) = Some n /\
    rampStepDuration 1 (2 ^ 62) (10 ^ 18) = Some d /\ (1 <= n <-> d <= 5 * 10 ^ 17).
Proof.
  destruct (ramp_adjoint (2 ^ 62) (10 ^ 18) 1 (5 * 10 ^ 17)) as (n & d & H1 & H2 & _ & H3).
  - vm_compute. repeat split; discriminate.
  - lia.
  - vm_compute. split; discriminate.
  - exists n, d. split; [exact H1|]. split; [exact H2|exact H3].
Defined.

Lemma allowance_eq r now target duration :
  ramp_ok target duration -> rp_start r <> 0 ->
  rampAllowance r now target duration =
    Some (1 + (if Sub now (rp_start r) <=? 0 then 0
               else if duration <=? Sub now (rp_start r) then target - 1
               else (target - 1) * Sub now (rp_start r) / duration)).
Proof.
  intros Hok Hr. unfold rampAllowance, IsZero.
  rewrite (rampSteps_eq target duration) by (done || apply Sub_range).
  destruct Hok as [Ht Hd].
  destruct (Z.eqb_spec (rp_start r) 0), (Z.ltb_spec target 2), (Z.leb_spec duration 0); try lia.
  cbn [orb]. set (e := Sub now (rp_start r)).
  set (steps := if e <=? 0 then 0 else if duration <=? e then target - 1 else _).
  assert (0 <= steps <= target - 1).
  { unfold steps. destruct (Z.leb_spec e 0); [lia|]. destruct (Z.leb_spec duration e); [lia|].
    split; [apply Z.div_pos; nia|apply Z.div_le_upper_bound; nia]. }
  unfold int64_max in *. rewrite wrap64_id by (unfold in_int64, int64_min, int64_max; lia).
  destruct (Z.ltb_spec (1 + steps) 1), (Z.ltb_spec target (1 + steps)); try lia. done.
Qed.

(** The allowance never leaves [1, target], never shrinks as time passes,
    starts at 1 and is the full target once the duration has elapsed. *)
Theorem allowance_bounds r target duration now later :
  ramp_ok target duration -> now <= later ->
  exists a b, rampAllowance r now target duration = Some a /\
    rampAllowance r later target duration = Some b /\
    1 <= a <= b /\ b <= target /\
    (now <= rp_start r -> a = 1) /\
    (rp_start r <> 0 -> rp_start r + duration <= later -> b = target).
Proof.
  intros Hok Hle. destruct (decide (rp_start r = 0)) as [Hz|Hz].
  - unfold rampAllowance, IsZero. rewrite (proj2 (Z.eqb_eq _ _) Hz). cbn [orb].
    exists 1, 1. destruct Hok. split_and!; try done; lia.
  - rewrite !allowance_eq by done. eexists _, _. split; [done|]. split; [done|].
    pose proof (Sub_mono now later (rp_start r) Hle) as Hm.
    assert (H1 : now <= rp_start r -> Sub now (rp_start r) <= 0)
      by (unfold Sub, saturate64, int64_min, int64_max; lia).
    assert (H2 : rp_start r + duration <= later -> duration <= Sub later (rp_start r)).
    { unfold ramp_ok in Hok. unfold Sub, saturate64. lia. }
    set (e := Sub now (rp_start r)) in *. set (e' := Sub later (rp_start r)) in *.
    clearbody e e'. destruct Hok as [Ht Hd].
    assert (Hb : forall x, 0 < x < duration -> 0 <= (target - 1) * x / duration <= target - 1).
    { intros x Hx. split; [apply Z.div_pos; nia|apply Z.div_le_upper_bound; nia]. }
    assert (Hdm : 0 < e -> e' < duration ->
      (target - 1) * e / duration <= (target - 1) * e' / duration).
    { intros. apply Z.div_le_mono; nia. }
    pose proof (Hb e). pose proof (Hb e').
    split_and!.
    + destruct (Z.leb_spec e 0); [lia|]. destruct (Z.leb_spec duration e); lia.
    + destruct (Z.leb_spec e 0), (Z.leb_spec e' 0), (Z.leb_spec duration e), (Z.leb_spec duration e'); lia.
    + destruct (Z.leb_spec e' 0); [lia|]. destruct (Z.leb_spec duration e'); lia.
    + intros Hns. specialize (H1 Hns). destruct (Z.leb_spec e 0); lia.
    + intros _ Hns. specialize (H2 Hns).
      destruct (Z.leb_spec e' 0), (Z.leb_spec duration e'); lia.
Qed.

Lemma allowance_bounds_witness :
  exists a b, rampAllowance (Build_rampState 100 0) 130 5 100 = Some a /\
    rampAllowance (Build_rampState 100 0) 200 5 100 = Some b /\ 1 <= a <= b /\ b = 5.
Proof.
  destruct (allowance_bounds (Build_rampState 100 0) 5 100 130 200)
    as (a & b & Ha & Hb & Hab & _ & _ & Hfull);
    [vm_compute; repeat split; discriminate|lia|].
  exists a, b. split; [exact Ha|]. split; [exact Hb|]. split; [exact Hab|].
  apply Hfull; cbn; lia.
Defined.

(** The ramp's wake makes progress: when an increase is still due, the
    reported instant is at least one millisecond ahead, the allowance there is
    larger than now, and - unless the millisecond floor applied - nothing grew
    before it, so the timer neither spins nor oversleeps. *)
Theorem nextRampStep_progress r target duration now :
  ramp_ok target duration -> rp_start r <> 0 -> rp_start r <= now ->
  now + Millisecond - rp_start r <= int64_max ->
  exists a next, rampAllowance r now target duration = Some a /\
    nextRampStep r now target duration = Some next /\
    (a = target -> next = zeroTime) /\
    (a < target ->
       now + Millisecond <= next /\
       (exists b, rampAllowance r next target duration = Some b /\ a < b) /\
       forall t, now <= t < next -> now + Millisecond < next ->
         rampAllowance r t target duration = Some a).
Proof.
  intros Hok Hz Hsn Hfit.
  destruct (allowance_bounds r target duration now now Hok ltac:(lia))
    as (a & ? & Ha & _ & Ha1 & Hat & _).
  unfold nextRampStep, IsZero. rewrite Ha. pose proof Hok as [Ht Hd].
  destruct (Z.eqb_spec (rp_start r) 0), (Z.ltb_spec target 2), (Z.leb_spec duration 0); try lia.
  cbn [orb]. destruct (Z.leb_spec target a).
  { eexists _, _. split; [done|]. split; [done|]. split; [done|lia]. }
  assert (Hadj : forall t, rp_start r <= t -> t - rp_start r <= int64_max ->
    exists n d, rampAllowance r t target duration = Some (1 + n) /\
      rampStepDuration a target duration = Some d /\ 0 < d <= duration /\
      (a <= n <-> d <= t - rp_start r)).
  { intros t Ht1 Ht2.
    assert (Sub t (rp_start r) = t - rp_start r) as HS
      by (apply Sub_exact; unfold in_int64, int64_min; lia).
    destruct (ramp_adjoint target duration a (Sub t (rp_start r)) Hok ltac:(lia) (Sub_range _ _))
      as (n0 & d & Hn & Hdd & Hdr & Hiff).
    exists n0, d. rewrite allowance_eq by done. rewrite rampSteps_eq in Hn by (done || apply Sub_range).
    injection Hn as <-. rewrite HS in *. split_and!; try done; lia. }
  destruct (Hadj now Hsn ltac:(unfold Millisecond in *; lia)) as (n1 & d & Hn1 & Hdd & Hdr & Hiff).
  rewrite Hdd. rewrite Ha in Hn1. injection Hn1 as ->.
  eexists _, _. split; [done|]. split; [done|]. split; [lia|]. intros _.
  unfold Before, Add. set (next := if rp_start r + d <? now + Millisecond then now + Millisecond else rp_start r + d).
  assert (Hnx : next = Z.max (rp_start r + d) (now + Millisecond)).
  { unfold next. destruct (Z.ltb_spec (rp_start r + d) (now + Millisecond)); lia. }
  clearbody next. subst next. unfold Millisecond in *. split; [lia|]. split.
  - destruct (Hadj (Z.max (rp_start r + d) (now + 10 ^ 6)) ltac:(lia) ltac:(lia))
      as (n2 & d2 & Hn2 & Hdd2 & _ & Hiff2).
    exists (1 + n2). split; [done|]. rewrite Hdd in Hdd2. injection Hdd2 as <-. lia.
  - intros t Ht1 Ht2.
    destruct (Hadj t ltac:(lia) ltac:(lia)) as (n2 & d2 & Hn2 & Hdd2 & _ & Hiff2).
    rewrite Hdd in Hdd2. injection Hdd2 as <-.
    destruct (allowance_bounds r target duration now t Hok ltac:(lia))
      as (a' & b' & Ha' & Hb' & Hab & _).
    rewrite Ha in Ha'. injection Ha' as <-. rewrite Hn2 in Hb'. injection Hb' as <-.
    rewrite Hn2. f_equal. lia.
Qed.

Lemma nextRampStep_progress_witness :
  exists a next, rampAllowance (Build_rampState 100 0) 130 5 (10 ^ 9) = Some a /\
    nextRampStep (Build_rampState 100 0) 130 5 (10 ^ 9) = Some next /\ 130 + Millisecond <= next.
Proof.
  destruct (nextRampStep_progress (Build_rampState 100 0) 5 (10 ^ 9) 130)
    as (a & next & Ha & Hn & _ & Hlt);
    [vm_compute; repeat split; discriminate|cbn; lia|cbn; lia|vm_compute; discriminate|].
  exists a, next. split; [exact Ha|]. split; [exact Hn|].
  apply Hlt. assert (rampAllowance (Build_rampState 100 0) 130 5 (10 ^ 9) = Some 1) as E
    by (vm_compute; reflexivity).
  rewrite E in Ha. injection Ha as <-. lia.
Defined.
