(* ===== verification/Pacing.v ===== *)
(** internal/scheduler/scheduler_pacing.go: backoff arithmetic, and the LRU of
    pacing states kept for evicted groups. *)

From S2P Require Import Prelude GoTime GoFloat LinkedList.

Definition maxSchedulerPacingStates : Z := 4096.

Record pacingState := {
  pst_key : string;
  pst_nextAllowedAt : Time;
  pst_backoff : Duration;
  pst_requestBackoff : Duration;
  pst_tripped : bool;
}.

(** ** Backoff *)

Definition backoffMultiplier : Z := 2.

(** [r] is the random draw, in [0, 1). *)
Definition jitterBackoff (d : Duration) (r : float64) : Duration :=
  if d <=? 0 then 0
  else to_int64 (fmul (of_int d) (fadd (fmul r fhalf) f3quarters)).

Definition growBackoff (cur base cap : Duration) : Duration :=
  let cur := if cur <=? 0 then base else wrap64 (cur * backoffMultiplier) in
  if (0 <? cap) && (cap <? cur) then cap else cur.

Definition MaxRetryHint : Duration := 24 * Hour.

Definition ClampRetryHint (d : Duration) : Duration :=
  if d <=? 0 then 0 else if MaxRetryHint <? d then MaxRetryHint else d.

(** The arithmetic of BackoffFor: the group's new backoff, and the delay. *)
Definition backoff_step (backoff base cap retryAfter : Duration) (r : float64)
    : Duration * Duration :=
  let backoff := growBackoff backoff base cap in
  let adaptive := jitterBackoff backoff r in
  let retryAfter := ClampRetryHint retryAfter in
  (backoff, if adaptive <? retryAfter then retryAfter else adaptive).

Fixpoint grown (n : nat) (base cap : Duration) : Duration :=
  match n with O => 0 | S n => growBackoff (grown n base cap) base cap end.

Lemma ClampRetryHint_spec d :
  ClampRetryHint d = Z.max 0 (Z.min d MaxRetryHint).
Proof.
  unfold ClampRetryHint. assert (0 < MaxRetryHint) by (vm_compute; done).
  destruct (Z.leb_spec d 0), (Z.ltb_spec MaxRetryHint d); lia.
Qed.

(** Backoff doubles from the base up to the cap: the n-th consecutive
    failure paces min(base * 2^(n-1), cap), for every cap whose double an int64
    holds, and never leaves (0, cap]. *)
Theorem backoff_doubles n base cap :
  0 < base <= cap -> 2 * cap <= int64_max ->
  grown (S n) base cap = Z.min cap (base * 2 ^ Z.of_nat n).
Proof.
  intros Hb Hc. induction n as [|n IH]; cbn [grown].
  - unfold growBackoff. cbn [Z.leb Z.compare]. change (0 <=? 0) with true. cbv iota.
    rewrite Z.pow_0_r, Z.mul_1_r.
    destruct (Z.ltb_spec 0 cap), (Z.ltb_spec cap base); cbn [andb]; lia.
  - cbn [grown] in IH. rewrite IH. rewrite Nat2Z.inj_succ, Z.pow_succ_r by lia.
    assert (0 < 2 ^ Z.of_nat n) by (apply Z.pow_pos_nonneg; lia).
    set (p := 2 ^ Z.of_nat n) in *. unfold growBackoff, backoffMultiplier.
    assert (0 < Z.min cap (base * p)) by nia.
    destruct (Z.leb_spec (Z.min cap (base * p)) 0); [lia|].
    rewrite wrap64_id by (unfold in_int64, int64_min in *; lia).
    destruct (Z.ltb_spec 0 cap), (Z.ltb_spec cap (Z.min cap (base * p) * 2)); cbn [andb]; nia.
Qed.

Lemma backoff_doubles_witness : grown 4 (500 * Millisecond) (3 * Second) = 3 * Second.
Proof.
  rewrite (backoff_doubles 3 (500 * Millisecond) (3 * Second)); [reflexivity| |];
    vm_compute; intuition discriminate.
Defined.

(** ** The LRU *)

Section pacingLRU.
Context {F : Type} `{!Fifo nat F}.

(** Entries are objects on a heap; the recent list links them by identity. *)
Record pacingLRU := PacingLRU {
  pl_entries : gmap nat pacingState;
  pl_states : gmap string nat;
  pl_recent : F;
}.

Definition newPacingLRU : pacingLRU := PacingLRU ∅ ∅ fifo_empty.

Definition drop_entry (p : pacingLRU) (e : nat) (key : string) : pacingLRU :=
  PacingLRU (pl_entries p) (delete key (pl_states p)) (fifo_remove e (pl_recent p)).

(** The eviction loop; each round drops one state. *)
Fixpoint evict_loop (fuel : nat) (p : pacingLRU) : pacingLRU :=
  match fuel with
  | O => p
  | S fuel =>
      if maxSchedulerPacingStates <? Z.of_nat (size (pl_states p)) then
        match fifo_first (pl_recent p) with
        | None => p
        | Some oldest =>
            match pl_entries p !! oldest with
            | None => p
            | Some st => evict_loop fuel (drop_entry p oldest (pst_key st))
            end
        end
      else p
  end.

Definition pacing_put (p : pacingLRU) (key : string) (st : pacingState) : pacingLRU :=
  let p := match pl_states p !! key with
           | Some old => drop_entry p old key
           | None => p
           end in
  let entry := fresh (dom (pl_entries p)) in
  let st := {| pst_key := key; pst_nextAllowedAt := pst_nextAllowedAt st;
               pst_backoff := pst_backoff st; pst_requestBackoff := pst_requestBackoff st;
               pst_tripped := pst_tripped st |} in
  let p := PacingLRU (<[entry := st]> (pl_entries p)) (<[key := entry]> (pl_states p))
             (fifo_push entry entry (pl_recent p)) in
  evict_loop (size (pl_states p)) p.

Definition pacing_take (p : pacingLRU) (key : string) : pacingLRU * option pacingState :=
  match pl_states p !! key with
  | None => (p, None)
  | Some e => (drop_entry p e key, pl_entries p !! e)
  end.

(** ** The specification: states in order of recency, one per key *)

Definition lru_drop (key : string) (l : list pacingState) : list pacingState :=
  filter (fun st => pst_key st <> key) l.
Definition lru_put (key : string) (st : pacingState) (l : list pacingState) : list pacingState :=
  let l := lru_drop key l ++
    [{| pst_key := key; pst_nextAllowedAt := pst_nextAllowedAt st;
        pst_backoff := pst_backoff st; pst_requestBackoff := pst_requestBackoff st;
        pst_tripped := pst_tripped st |}] in
  drop (length l - Z.to_nat maxSchedulerPacingStates) l.
Definition lru_find (key : string) (l : list pacingState) : option pacingState :=
  head (filter (fun st => pst_key st = key) l).

(** [p] holds exactly the states [es], oldest first, each with its entry. *)
Record Holds (p : pacingLRU) (es : list (nat * pacingState)) : Prop := {
  ho_recent : fifo_holds (pl_recent p) ((fun e => (e.1, e.1)) <$> es);
  ho_entries : forall e st, (e, st) ∈ es -> pl_entries p !! e = Some st;
  ho_states : forall k e, pl_states p !! k = Some e <-> exists st, (e, st) ∈ es /\ pst_key st = k;
  ho_ids : NoDup es.*1;
  ho_keys : NoDup (pst_key <$> es.*2);
}.

Lemma holds_size p es : Holds p es -> size (pl_states p) = length es.
Proof.
  intros H. assert (pl_states p = list_to_map ((fun e => (pst_key e.2, e.1)) <$> es)) as E.
  { apply map_eq. intros k. apply option_eq. intros e. rewrite (ho_states _ _ H).
    rewrite <- elem_of_list_to_map.
    - rewrite list_elem_of_fmap. split.
      + intros (st & Hin & <-). by exists (e, st).
      + intros ([e' st] & [= -> ->] & Hin). eauto.
    - rewrite <- list_fmap_compose. cbn. pose proof (ho_keys _ _ H) as Hk.
      rewrite <- list_fmap_compose in Hk. exact Hk. }
  rewrite E, map_size_list_to_map, length_fmap; [done|].
  rewrite <- list_fmap_compose. pose proof (ho_keys _ _ H) as Hk.
  rewrite <- list_fmap_compose in Hk. exact Hk.
Qed.

Lemma fst_recent (es : list (nat * pacingState)) :
  ((fun e => (e.1, e.1)) <$> es).*1 = es.*1.
Proof. by rewrite <- list_fmap_compose. Qed.

Lemma holds_drop p es i e st :
  Holds p es -> es !! i = Some (e, st) -> Holds (drop_entry p e (pst_key st)) (delete i es).
Proof.
  intros H Hi. pose proof (list_elem_of_lookup_2 _ _ _ Hi) as Hin. split; cbn [drop_entry pl_recent pl_entries pl_states].
  - rewrite list_fmap_delete. eapply fifo_remove_holds; [apply H|].
    rewrite list_lookup_fmap, Hi. done.
  - intros e' st' H'. apply (ho_entries _ _ H). by eapply list_elem_of_delete_inv.
  - intros k e'. rewrite lookup_delete_Some, (ho_states _ _ H). split.
    + intros (Hk & st' & Hin' & <-). exists st'. split; [|done].
      apply list_elem_of_lookup in Hin' as [j Hj]. assert (j <> i) by congruence.
      apply list_elem_of_lookup. destruct (decide (j < i)%nat).
      * exists j. by rewrite list_lookup_delete_lt.
      * exists (pred j). rewrite list_lookup_delete_ge by lia. by replace (S (pred j)) with j by lia.
    + intros (st' & Hin' & <-). split; [|exists st'; split; [by eapply list_elem_of_delete_inv|done]].
      intros Heq. apply list_elem_of_lookup in Hin' as [j Hj].
      rewrite list_lookup_delete in Hj. pose proof (ho_keys _ _ H) as Hk.
      assert (forall j', es !! j' = Some (e', st') -> j' = i) as Hu.
      { intros j' Hj'. eapply NoDup_lookup; [exact Hk| |].
        - rewrite <- list_fmap_compose, list_lookup_fmap, Hj'. done.
        - rewrite <- list_fmap_compose, list_lookup_fmap, Hi. cbn. by rewrite Heq. }
      case_decide; apply Hu in Hj; lia.
  - rewrite list_fmap_delete. eapply sublist_NoDup; [apply H|apply sublist_delete].
  - rewrite !list_fmap_delete. eapply sublist_NoDup; [apply H|apply sublist_delete].
Qed.

Lemma drop_unique l i st :
  NoDup (pst_key <$> l) -> l !! i = Some st -> lru_drop (pst_key st) l = delete i l.
Proof.
  revert i. induction l as [|s l IH]; intros i Hnd Hi; [done|].
  cbn in Hnd. apply NoDup_cons in Hnd as [Hs Hnd]. unfold lru_drop. rewrite filter_cons.
  destruct i as [|i]; cbn in Hi |- *.
  - injection Hi as <-. case_decide; [done|]. fold (lru_drop (pst_key s) l).
    apply filter_all. apply Forall_forall. intros x Hx Heq. apply Hs.
    rewrite <- Heq. by apply list_elem_of_fmap_2.
  - case_decide as Hk.
    + f_equal. by apply IH.
    + exfalso. apply Hs. rewrite Hk. apply list_elem_of_fmap_2. by eapply list_elem_of_lookup_2.
Qed.

Lemma drop_absent l key :
  (forall st, st ∈ l -> pst_key st <> key) -> lru_drop key l = l.
Proof. intros H. apply filter_all. apply Forall_forall. auto. Qed.
Lemma find_unique l st :
  NoDup (pst_key <$> l) -> st ∈ l -> lru_find (pst_key st) l = Some st.
Proof.
  unfold lru_find. induction l as [|x l IH]; intros Hnd Hin; [by apply elem_of_nil in Hin|].
  rewrite filter_cons. cbn in Hnd. apply NoDup_cons in Hnd as [Hx Hnd].
  apply elem_of_cons in Hin as [->|Hin]; [by rewrite decide_True|].
  rewrite decide_False; [by apply IH|]. intros Heq. apply Hx. rewrite Heq.
  by apply list_elem_of_fmap_2.
Qed.

Lemma find_absent l key : (forall st, st ∈ l -> pst_key st <> key) -> lru_find key l = None.
Proof.
  unfold lru_find. induction l as [|x l IH]; intros H; [done|]. rewrite filter_cons.
  rewrite decide_False by (apply H; by left). apply IH. intros st Hst. apply H. by right.
Qed.

Lemma keys_snd (es : list (nat * pacingState)) : pst_key <$> es.*2 = (fun e => pst_key e.2) <$> es.
Proof. by rewrite <- list_fmap_compose. Qed.

(** Dropping a key, through the index. *)
Lemma holds_drop_key p es key :
  Holds p es ->
  let p' := match pl_states p !! key with Some old => drop_entry p old key | None => p end in
  exists es', Holds p' es' /\ es'.*2 = lru_drop key es.*2 /\ (length es' <= length es)%nat /\
    pl_entries p' = pl_entries p /\ pl_states p' !! key = None.
Proof.
  intros H. cbv zeta. destruct (pl_states p !! key) as [e|] eqn:E.
  - apply (ho_states _ _ H) in E as (st & Hin & <-).
    apply list_elem_of_lookup in Hin as [i Hi]. exists (delete i es).
    split; [by apply holds_drop|]. rewrite list_fmap_delete. split; [|split; [|split; [done|]]].
    + symmetry. apply drop_unique; [apply H|]. by rewrite list_lookup_fmap, Hi.
    + rewrite length_delete by eauto. lia.
    + apply lookup_delete_eq.
  - exists es. split_and!; try done. symmetry. apply drop_absent. intros st Hst Hk.
    apply list_elem_of_fmap in Hst as ([e st'] & -> & Hin). cbn in Hk.
    assert (pl_states p !! key = Some e) by (apply (ho_states _ _ H); eauto). congruence.
Qed.

Lemma holds_push p es n st :
  Holds p es -> pl_entries p !! n = None -> pl_states p !! pst_key st = None ->
  Holds (PacingLRU (<[n := st]> (pl_entries p)) (<[pst_key st := n]> (pl_states p))
           (fifo_push n n (pl_recent p))) (es ++ [(n, st)]).
Proof.
  intros H Hn Hk.
  assert (n ∉ es.*1) as Hnin.
  { intros ([e st'] & -> & Hin)%list_elem_of_fmap. cbn in Hn.
    by rewrite (ho_entries _ _ H _ _ Hin) in Hn. }
  assert (forall e st', (e, st') ∈ es -> pst_key st' <> pst_key st) as Hkin.
  { intros e st' Hin Heq. assert (pl_states p !! pst_key st = Some e); [|congruence].
    apply (ho_states _ _ H). eauto. }
  split; cbn [pl_recent pl_entries pl_states].
  - rewrite fmap_app. apply (fifo_push_holds _ ((fun e => (e.1, e.1)) <$> es)); [apply H|].
    by rewrite fst_recent.
  - intros e st' [Hin|[= -> ->]%list_elem_of_singleton]%elem_of_app; [|by rewrite lookup_insert_eq].
    rewrite lookup_insert_ne; [by apply (ho_entries _ _ H)|]. intros <-. apply Hnin.
    by apply (list_elem_of_fmap_2 fst) in Hin.
  - intros k e. split.
    + intros [[<- <-]|[Hne Hs]]%lookup_insert_Some.
      * exists st. split; [|done]. apply elem_of_app. right. by left.
      * apply (ho_states _ _ H) in Hs as (st' & ? & ?). exists st'. split; [|done].
        apply elem_of_app. by left.
    + intros (st' & [Hin|[= -> ->]%list_elem_of_singleton]%elem_of_app & <-);
        [|by rewrite lookup_insert_eq].
      rewrite lookup_insert_ne by (symmetry; by eapply Hkin). apply (ho_states _ _ H). eauto.
  - rewrite fmap_app, NoDup_app. split; [apply H|]. split; [|apply NoDup_singleton].
    intros x Hx ->%list_elem_of_singleton. done.
  - rewrite !fmap_app, NoDup_app. split; [apply H|]. split; [|apply NoDup_singleton].
    intros x Hx ->%list_elem_of_singleton. rewrite keys_snd in Hx.
    apply list_elem_of_fmap in Hx as ([e st'] & Heq & Hin). cbn in Heq. by eapply Hkin.
Qed.

Lemma evict_loop_holds fuel p es :
  Holds p es -> (length es <= fuel)%nat ->
  Holds (evict_loop fuel p) (drop (length es - Z.to_nat maxSchedulerPacingStates) es).
Proof.
  revert p es. induction fuel as [|fuel IH]; intros p es H Hf; cbn [evict_loop].
  - by replace (length es - _)%nat with 0%nat by lia.
  - rewrite (holds_size _ _ H).
    destruct (Z.ltb_spec maxSchedulerPacingStates (Z.of_nat (length es))) as [Hlt|].
    2: { by replace (length es - Z.to_nat maxSchedulerPacingStates)%nat with 0%nat by lia. }
    destruct es as [|[e st] es]; [unfold maxSchedulerPacingStates in Hlt; cbn in Hlt; lia|].
    rewrite (fifo_first_holds _ _ (ho_recent _ _ H)). cbn [fmap list_fmap head option_fmap option_map snd].
cbn [fst].     rewrite (ho_entries _ _ H e st) by (by left).
    pose proof (holds_drop p _ 0 e st H eq_refl) as Hd. cbn [delete list_delete] in Hd.
    specialize (IH _ _ Hd). cbn [length] in *.
    replace (S (length es) - Z.to_nat maxSchedulerPacingStates)%nat
      with (S (length es - Z.to_nat maxSchedulerPacingStates)) by lia.
    apply IH. lia.
Qed.

(** The pacing LRU implements its specification: put moves the key to the
    most recent end and then forgets the oldest states past the bound, take
    removes and returns the key's state, and at most 4096 states are kept - for
    any list that keeps the FIFO interface. *)
Theorem pacingLRU_refines p es key st :
  Holds p es -> (length es <= Z.to_nat maxSchedulerPacingStates)%nat ->
  (exists es', Holds (pacing_put p key st) es' /\ es'.*2 = lru_put key st es.*2 /\
     (length es' <= Z.to_nat maxSchedulerPacingStates)%nat) /\
  (pacing_take p key).2 = lru_find key es.*2 /\
  (exists es', Holds (pacing_take p key).1 es' /\ es'.*2 = lru_drop key es.*2).
Proof.
  intros H Hlen. pose proof (holds_drop_key p es key H) as Hd. cbv zeta in Hd.
  destruct Hd as (es1 & H1 & Hes1 & Hlen1 & He1 & Hk1). split; [|split].
  - unfold pacing_put.
    set (p1 := match pl_states p !! key with Some _ => _ | None => _ end) in *. clearbody p1.
    pose proof (is_fresh (dom (pl_entries p1))) as Hf. set (n := fresh _) in *. clearbody n.
    apply not_elem_of_dom in Hf.
    set (st' := Build_pacingState _ _ _ _ _).
    pose proof (holds_push p1 es1 n st' H1 Hf Hk1) as Hp. cbn [pst_key st'] in Hp.
    set (p2 := PacingLRU _ _ _) in *.
    pose proof (evict_loop_holds (size (pl_states p2)) p2 _ Hp) as He.
    rewrite (holds_size _ _ Hp) in *. specialize (He ltac:(lia)).
    eexists. split; [exact He|]. split.
    + rewrite fmap_drop. unfold lru_put. rewrite <- Hes1.
      replace (length (es1.*2 ++ [_])) with (length (es1 ++ [(n, st')]))
        by (rewrite !length_app, length_fmap; done).
      f_equal. by rewrite fmap_app.
    + rewrite length_drop. lia.
  - unfold pacing_take, lru_find. destruct (pl_states p !! key) as [e|] eqn:E; cbn [snd].
    + apply (ho_states _ _ H) in E as (s & Hin & <-). rewrite (ho_entries _ _ H _ _ Hin).
      symmetry. apply find_unique; [apply H|]. by apply (list_elem_of_fmap_2 snd) in Hin.
    + symmetry. apply find_absent. intros s ([e s'] & -> & Hin)%list_elem_of_fmap Hk. cbn in Hk.
      assert (pl_states p !! key = Some e); [|congruence]. apply (ho_states _ _ H). eauto.
  - unfold pacing_take. destruct (pl_states p !! key) as [e|]; cbn [fst]; eauto.
Qed.
End pacingLRU.

Arguments pacingLRU : clear implicits.

Definition demo_pacing (k : string) (at_ : Time) : pacingState := Build_pacingState k at_ 7 0 true.

Lemma pacingLRU_refines_witness :
  let p := pacing_put (newPacingLRU (F := listHeap nat)) "a" (demo_pacing "a" 10) in
  (pacing_take p "a").2 = Some (demo_pacing "a" 10) /\ (pacing_take p "b").2 = None.
Proof.
  cbv zeta.
  assert (Holds (newPacingLRU (F := listHeap nat)) []) as H0.
  { split; [apply fifo_empty_holds|intros e st Hin; by apply elem_of_nil in Hin| |constructor|constructor].
    intros k e. split; [intros Hs; cbn in Hs; by rewrite lookup_empty in Hs|]. by intros (st & ?%elem_of_nil & _). }
  destruct (pacingLRU_refines _ [] "a" (demo_pacing "a" 10) H0 ltac:(cbn; lia))
    as ((es & He & Hs & Hl) & _).
  destruct (pacingLRU_refines _ es "a" (demo_pacing "a" 10) He Hl) as (_ & Ht & _).
  destruct (pacingLRU_refines _ es "b" (demo_pacing "a" 10) He Hl) as (_ & Ht' & _).
  rewrite Ht, Ht', Hs. split; vm_compute; reflexivity.
Defined.
