(* ===== verification/Storm.v ===== *)
(** internal/scheduler/storm.go: attempt-based outage detection - rolling error
    samples, storm and quota gates, half-open probes. *)

From S2P Require Import Prelude GoTime GoFloat GoStrings WakeTimer Pacing.

Record StormOptions := {
  so_PolicyKey : string;
  so_Enabled : bool;
  so_ProviderEnabled : bool;
  so_ModelEnabled : bool;
  so_Window : Duration;
  so_MinSamples : Z;
  so_ErrorPercent : Z;
  so_InitialBackoff : Duration;
  so_MaxBackoff : Duration;
  so_BackoffMultiplier : Z;
  so_JitterPercent : Z;
  so_RecoverySuccesses : Z;
  so_MaxQueue : Z;
  so_MaxScopes : Z;
  so_MaxWait : Duration;
  so_QuotaEnabled : bool;
  so_QuotaRecoverySuccesses : Z;
}.

#[export] Instance StormOptions_eq_dec : EqDecision StormOptions.
Proof. solve_decision. Defined.

Definition stormBucketCount : Z := 64.
Definition maxStormLabelBytes : Z := 512.
Definition maxStormReasonBytes : nat := 96.

Inductive stormError := ErrStormQueueFull | ErrStormMaxWait | ErrStormCapacity | ErrStormCtx.

Record stormKey := { sk_provider : string; sk_model : string; sk_modelScope : bool }.

#[export] Instance stormKey_eq_dec : EqDecision stormKey.
Proof. solve_decision. Defined.
#[export] Instance stormKey_countable : Countable stormKey.
Proof.
  apply (inj_countable' (fun k => (sk_provider k, sk_model k, sk_modelScope k))
    (fun t => Build_stormKey t.1.1 t.1.2 t.2)). by intros [].
Defined.

Record stormBucket := StormBucket {
  sb_epoch : Z;
  sb_samples : Z;
  sb_failures : Z;
  sb_errorRequests : Z;
}.
Definition zeroBucket : stormBucket := StormBucket 0 0 0 0.
Definition zeroBuckets : list stormBucket := replicate 64 zeroBucket.

Record stormScope := StormScope {
  sc_key : stormKey;
  sc_buckets : list stormBucket;
  sc_cachedEpoch : Z;
  sc_cachedSamples : Z;
  sc_cachedFailures : Z;
  sc_cachedErrorRequests : Z;
  sc_reset : Z;
  sc_lastActivity : Time;
  sc_active : bool;
  sc_probing : bool;
  sc_quota : bool;
  sc_epoch : Z;
  sc_backoff : Duration;
  sc_retryAt : Time;
  sc_recovered : Z;
  sc_queued : Z;
  sc_refs : Z;
  sc_reason : bytes;
  sc_timer : wakeTimer;
}.

Definition set_sc_key (v : stormKey) (x : stormScope) : stormScope :=
  StormScope v (sc_buckets x) (sc_cachedEpoch x) (sc_cachedSamples x) (sc_cachedFailures x)
    (sc_cachedErrorRequests x) (sc_reset x) (sc_lastActivity x) (sc_active x) (sc_probing x)
    (sc_quota x) (sc_epoch x) (sc_backoff x) (sc_retryAt x) (sc_recovered x) (sc_queued x)
    (sc_refs x) (sc_reason x) (sc_timer x).
Definition set_sc_buckets (v : list stormBucket) (x : stormScope) : stormScope :=
  StormScope (sc_key x) v (sc_cachedEpoch x) (sc_cachedSamples x) (sc_cachedFailures x)
    (sc_cachedErrorRequests x) (sc_reset x) (sc_lastActivity x) (sc_active x) (sc_probing x)
    (sc_quota x) (sc_epoch x) (sc_backoff x) (sc_retryAt x) (sc_recovered x) (sc_queued x)
    (sc_refs x) (sc_reason x) (sc_timer x).
Definition set_sc_cachedEpoch (v : Z) (x : stormScope) : stormScope :=
  StormScope (sc_key x) (sc_buckets x) v (sc_cachedSamples x) (sc_cachedFailures x)
    (sc_cachedErrorRequests x) (sc_reset x) (sc_lastActivity x) (sc_active x) (sc_probing x)
    (sc_quota x) (sc_epoch x) (sc_backoff x) (sc_retryAt x) (sc_recovered x) (sc_queued x)
    (sc_refs x) (sc_reason x) (sc_timer x).
Definition set_sc_cachedSamples (v : Z) (x : stormScope) : stormScope :=
  StormScope (sc_key x) (sc_buckets x) (sc_cachedEpoch x) v (sc_cachedFailures x)
    (sc_cachedErrorRequests x) (sc_reset x) (sc_lastActivity x) (sc_active x) (sc_probing x)
    (sc_quota x) (sc_epoch x) (sc_backoff x) (sc_retryAt x) (sc_recovered x) (sc_queued x)
    (sc_refs x) (sc_reason x) (sc_timer x).
Definition set_sc_cachedFailures (v : Z) (x : stormScope) : stormScope :=
  StormScope (sc_key x) (sc_buckets x) (sc_cachedEpoch x) (sc_cachedSamples x) v
    (sc_cachedErrorRequests x) (sc_reset x) (sc_lastActivity x) (sc_active x) (sc_probing x)
    (sc_quota x) (sc_epoch x) (sc_backoff x) (sc_retryAt x) (sc_recovered x) (sc_queued x)
    (sc_refs x) (sc_reason x) (sc_timer x).
Definition set_sc_cachedErrorRequests (v : Z) (x : stormScope) : stormScope :=
  StormScope (sc_key x) (sc_buckets x) (sc_cachedEpoch x) (sc_cachedSamples x)
    (sc_cachedFailures x) v (sc_reset x) (sc_lastActivity x) (sc_active x) (sc_probing x)
    (sc_quota x) (sc_epoch x) (sc_backoff x) (sc_retryAt x) (sc_recovered x) (sc_queued x)
    (sc_refs x) (sc_reason x) (sc_timer x).
Definition set_sc_reset (v : Z) (x : stormScope) : stormScope :=
  StormScope (sc_key x) (sc_buckets x) (sc_cachedEpoch x) (sc_cachedSamples x)
    (sc_cachedFailures x) (sc_cachedErrorRequests x) v (sc_lastActivity x) (sc_active x)
    (sc_probing x) (sc_quota x) (sc_epoch x) (sc_backoff x) (sc_retryAt x) (sc_recovered x)
    (sc_queued x) (sc_refs x) (sc_reason x) (sc_timer x).
Definition set_sc_lastActivity (v : Time) (x : stormScope) : stormScope :=
  StormScope (sc_key x) (sc_buckets x) (sc_cachedEpoch x) (sc_cachedSamples x)
    (sc_cachedFailures x) (sc_cachedErrorRequests x) (sc_reset x) v (sc_active x) (sc_probing x)
    (sc_quota x) (sc_epoch x) (sc_backoff x) (sc_retryAt x) (sc_recovered x) (sc_queued x)
    (sc_refs x) (sc_reason x) (sc_timer x).
Definition set_sc_active (v : bool) (x : stormScope) : stormScope :=
  StormScope (sc_key x) (sc_buckets x) (sc_cachedEpoch x) (sc_cachedSamples x)
    (sc_cachedFailures x) (sc_cachedErrorRequests x) (sc_reset x) (sc_lastActivity x) v
    (sc_probing x) (sc_quota x) (sc_epoch x) (sc_backoff x) (sc_retryAt x) (sc_recovered x)
    (sc_queued x) (sc_refs x) (sc_reason x) (sc_timer x).
Definition set_sc_probing (v : bool) (x : stormScope) : stormScope :=
  StormScope (sc_key x) (sc_buckets x) (sc_cachedEpoch x) (sc_cachedSamples x)
    (sc_cachedFailures x) (sc_cachedErrorRequests x) (sc_reset x) (sc_lastActivity x)
    (sc_active x) v (sc_quota x) (sc_epoch x) (sc_backoff x) (sc_retryAt x) (sc_recovered x)
    (sc_queued x) (sc_refs x) (sc_reason x) (sc_timer x).
Definition set_sc_quota (v : bool) (x : stormScope) : stormScope :=
  StormScope (sc_key x) (sc_buckets x) (sc_cachedEpoch x) (sc_cachedSamples x)
    (sc_cachedFailures x) (sc_cachedErrorRequests x) (sc_reset x) (sc_lastActivity x)
    (sc_active x) (sc_probing x) v (sc_epoch x) (sc_backoff x) (sc_retryAt x) (sc_recovered x)
    (sc_queued x) (sc_refs x) (sc_reason x) (sc_timer x).
Definition set_sc_epoch (v : Z) (x : stormScope) : stormScope :=
  StormScope (sc_key x) (sc_buckets x) (sc_cachedEpoch x) (sc_cachedSamples x)
    (sc_cachedFailures x) (sc_cachedErrorRequests x) (sc_reset x) (sc_lastActivity x)
    (sc_active x) (sc_probing x) (sc_quota x) v (sc_backoff x) (sc_retryAt x) (sc_recovered x)
    (sc_queued x) (sc_refs x) (sc_reason x) (sc_timer x).
Definition set_sc_backoff (v : Duration) (x : stormScope) : stormScope :=
  StormScope (sc_key x) (sc_buckets x) (sc_cachedEpoch x) (sc_cachedSamples x)
    (sc_cachedFailures x) (sc_cachedErrorRequests x) (sc_reset x) (sc_lastActivity x)
    (sc_active x) (sc_probing x) (sc_quota x) (sc_epoch x) v (sc_retryAt x) (sc_recovered x)
    (sc_queued x) (sc_refs x) (sc_reason x) (sc_timer x).
Definition set_sc_retryAt (v : Time) (x : stormScope) : stormScope :=
  StormScope (sc_key x) (sc_buckets x) (sc_cachedEpoch x) (sc_cachedSamples x)
    (sc_cachedFailures x) (sc_cachedErrorRequests x) (sc_reset x) (sc_lastActivity x)
    (sc_active x) (sc_probing x) (sc_quota x) (sc_epoch x) (sc_backoff x) v (sc_recovered x)
    (sc_queued x) (sc_refs x) (sc_reason x) (sc_timer x).
Definition set_sc_recovered (v : Z) (x : stormScope) : stormScope :=
  StormScope (sc_key x) (sc_buckets x) (sc_cachedEpoch x) (sc_cachedSamples x)
    (sc_cachedFailures x) (sc_cachedErrorRequests x) (sc_reset x) (sc_lastActivity x)
    (sc_active x) (sc_probing x) (sc_quota x) (sc_epoch x) (sc_backoff x) (sc_retryAt x) v
    (sc_queued x) (sc_refs x) (sc_reason x) (sc_timer x).
Definition set_sc_queued (v : Z) (x : stormScope) : stormScope :=
  StormScope (sc_key x) (sc_buckets x) (sc_cachedEpoch x) (sc_cachedSamples x)
    (sc_cachedFailures x) (sc_cachedErrorRequests x) (sc_reset x) (sc_lastActivity x)
    (sc_active x) (sc_probing x) (sc_quota x) (sc_epoch x) (sc_backoff x) (sc_retryAt x)
    (sc_recovered x) v (sc_refs x) (sc_reason x) (sc_timer x).
Definition set_sc_refs (v : Z) (x : stormScope) : stormScope :=
  StormScope (sc_key x) (sc_buckets x) (sc_cachedEpoch x) (sc_cachedSamples x)
    (sc_cachedFailures x) (sc_cachedErrorRequests x) (sc_reset x) (sc_lastActivity x)
    (sc_active x) (sc_probing x) (sc_quota x) (sc_epoch x) (sc_backoff x) (sc_retryAt x)
    (sc_recovered x) (sc_queued x) v (sc_reason x) (sc_timer x).
Definition set_sc_reason (v : bytes) (x : stormScope) : stormScope :=
  StormScope (sc_key x) (sc_buckets x) (sc_cachedEpoch x) (sc_cachedSamples x)
    (sc_cachedFailures x) (sc_cachedErrorRequests x) (sc_reset x) (sc_lastActivity x)
    (sc_active x) (sc_probing x) (sc_quota x) (sc_epoch x) (sc_backoff x) (sc_retryAt x)
    (sc_recovered x) (sc_queued x) (sc_refs x) v (sc_timer x).
Definition set_sc_timer (v : wakeTimer) (x : stormScope) : stormScope :=
  StormScope (sc_key x) (sc_buckets x) (sc_cachedEpoch x) (sc_cachedSamples x)
    (sc_cachedFailures x) (sc_cachedErrorRequests x) (sc_reset x) (sc_lastActivity x)
    (sc_active x) (sc_probing x) (sc_quota x) (sc_epoch x) (sc_backoff x) (sc_retryAt x)
    (sc_recovered x) (sc_queued x) (sc_refs x) (sc_reason x) v.

Definition newScope (key : stormKey) (now : Time) : stormScope :=
  StormScope key zeroBuckets 0 0 0 0 0 now false false false 0 0 zeroTime 0 0 0 [] newWakeTimer.

Definition clearCooldown (x : stormScope) : stormScope :=
  set_sc_timer (stop (sc_timer x)) (set_sc_retryAt zeroTime (set_sc_backoff 0 x)).

(** ** Rolling samples *)

Definition stormEpoch (now : Time) (window : Duration) : Z :=
  let width := godiv window stormBucketCount in
  let width := if width <? Nanosecond then Nanosecond else width in
  godiv (UnixNano now) width.

Definition stormAdd (a b : Z) : Z := if int64_max - b <? a then int64_max else wrap64 (a + b).

(** The bucket counter and its cached mirror after the adjustment. *)
Definition foldCounters (bucket cached n : Z) : Z * Z :=
  if 0 <=? n then (stormAdd bucket n, stormAdd cached n)
  else if 0 <? bucket then (bucket - 1, if 0 <? cached then cached - 1 else cached)
  else (bucket, cached).

(** [buckets[epoch % 64]]. *)
Definition bucket_index (epoch : Z) : nat := Z.to_nat (gomod epoch stormBucketCount).
Definition bucket_at (x : stormScope) (epoch : Z) : stormBucket :=
  default zeroBucket (sc_buckets x !! bucket_index epoch).
Definition set_bucket (epoch : Z) (b : stormBucket) (x : stormScope) : stormScope :=
  set_sc_buckets (<[bucket_index epoch := b]> (sc_buckets x)) x.

Definition in_window (epoch : Z) (b : stormBucket) : bool :=
  (epoch - stormBucketCount <? sb_epoch b) && (sb_epoch b <=? epoch).

(** The sum over the buckets inside the window. *)
Definition sum_buckets (f : stormBucket -> Z) (epoch : Z) (bs : list stormBucket) : Z :=
  fold_left (fun acc b => if in_window epoch b then stormAdd acc (f b) else acc) bs 0.

Definition totals (x : stormScope) (now : Time) (window : Duration) : stormScope * Z * Z :=
  let epoch := stormEpoch now window in
  if sc_cachedEpoch x =? epoch then (x, sc_cachedSamples x, sc_cachedFailures x) else
  let samples := sum_buckets sb_samples epoch (sc_buckets x) in
  let failures := sum_buckets sb_failures epoch (sc_buckets x) in
  let errorRequests := sum_buckets sb_errorRequests epoch (sc_buckets x) in
  (set_sc_cachedErrorRequests errorRequests (set_sc_cachedFailures failures
     (set_sc_cachedSamples samples (set_sc_cachedEpoch epoch x))), samples, failures).

(** One slot of a request's observation: the scope by identity. *)
Record stormObservationSlot := { os_scope : option nat; os_reset : Z; os_epoch : Z }.
Definition zeroSlot : stormObservationSlot := Build_stormObservationSlot None 0 0.
Definition StormObservation := list stormObservationSlot.
Definition zeroObservation : StormObservation := [zeroSlot; zeroSlot].

Definition add_errorRequests (n : Z) (epoch : Z) (x : stormScope) : stormScope :=
  let b := bucket_at x epoch in
  let '(bucket, cached) := foldCounters (sb_errorRequests b) (sc_cachedErrorRequests x) n in
  set_sc_cachedErrorRequests cached
    (set_bucket epoch (StormBucket (sb_epoch b) (sb_samples b) (sb_failures b) bucket) x).

(** observeRequest, on the scope at [sid]. *)
Definition observeRequest (sid : nat) (x : stormScope) (now : Time) (window : Duration)
    (observation : option StormObservation) (index : nat)
    : stormScope * option StormObservation :=
  let epoch := stormEpoch now window in
  match observation with
  | None => (add_errorRequests 1 epoch x, None)
  | Some slots =>
      let slot := default zeroSlot (slots !! index) in
      let mine := bool_decide (os_scope slot = Some sid) && (os_reset slot =? sc_reset x) in
      if mine && (os_epoch slot =? epoch) then (x, Some slots) else
      let x := if mine && (epoch - stormBucketCount <? os_epoch slot) &&
                  (sb_epoch (bucket_at x (os_epoch slot)) =? os_epoch slot)
               then add_errorRequests (-1) (os_epoch slot) x else x in
      (add_errorRequests 1 epoch x,
       Some (<[index := {| os_scope := Some sid; os_reset := sc_reset x; os_epoch := epoch |}]> slots))
  end.

Definition resetSamples (x : stormScope) : stormScope :=
  set_sc_reset (u64 (sc_reset x + 1)) (set_sc_cachedErrorRequests 0 (set_sc_cachedFailures 0
    (set_sc_cachedSamples 0 (set_sc_cachedEpoch 0 (set_sc_buckets zeroBuckets x))))).

Definition sample (x : stormScope) (now : Time) (window : Duration) (failed : bool) : stormScope :=
  let '(x, _, _) := totals x now window in
  let epoch := stormEpoch now window in
  let x := if sb_epoch (bucket_at x epoch) =? epoch then x
           else set_bucket epoch (StormBucket epoch 0 0 0) x in
  let b := bucket_at x epoch in
  let '(samples, cachedSamples) := foldCounters (sb_samples b) (sc_cachedSamples x) 1 in
  let b := StormBucket (sb_epoch b) samples (sb_failures b) (sb_errorRequests b) in
  let x := set_sc_cachedSamples cachedSamples (set_bucket epoch b x) in
  let x :=
    if failed then
      let '(failures, cachedFailures) := foldCounters (sb_failures b) (sc_cachedFailures x) 1 in
      let b := StormBucket (sb_epoch b) (sb_samples b) failures (sb_errorRequests b) in
      set_sc_cachedFailures cachedFailures (set_bucket epoch b x)
    else x in
  set_sc_lastActivity now x.

(** 100*float64(failures)/float64(samples) >= float64(opts.ErrorPercent). *)
Definition error_rate_reached (failures samples percent : Z) : bool :=
  fleb (of_int percent) (fdiv (fmul (of_int 100) (of_int failures)) (of_int samples)).

Definition threshold (x : stormScope) (now : Time) (opts : StormOptions) : stormScope * bool :=
  let '(x, samples, failures) := totals x now (so_Window opts) in
  (x, (so_MinSamples opts <=? samples) && (0 <? samples) && (0 <? failures) &&
      error_rate_reached failures samples (so_ErrorPercent opts)).

(** ** State *)

Record stormClaim := { cl_scope : nat; cl_epoch : Z; cl_probe : bool }.

Record StormPermit := MkPermit {
  pm_generation : Z;
  pm_claims : list stormClaim;
  pm_once : bool;
  pm_active : bool;
}.

Definition set_pm_generation (v : Z) (x : StormPermit) : StormPermit :=
  MkPermit v (pm_claims x) (pm_once x) (pm_active x).
Definition set_pm_claims (v : list stormClaim) (x : StormPermit) : StormPermit :=
  MkPermit (pm_generation x) v (pm_once x) (pm_active x).
Definition set_pm_once (v : bool) (x : StormPermit) : StormPermit :=
  MkPermit (pm_generation x) (pm_claims x) v (pm_active x).
Definition set_pm_active (v : bool) (x : StormPermit) : StormPermit :=
  MkPermit (pm_generation x) (pm_claims x) (pm_once x) v.

(** The state under [stormState.mu]: the options, the scope map, the scopes by
    identity (a permit can outlive its scope's map entry), how often the kick was
    replaced (0: still nil), the generation, the count of queued callers; then
    the permits handed out and the scopes each parked caller is queued on. *)
Record stormState := StormState {
  ss_opts : StormOptions;
  ss_scopes : gmap stormKey nat;
  ss_heap : gmap nat stormScope;
  ss_kick : nat;
  ss_generation : Z;
  ss_queued : Z;
  ss_permits : gmap nat StormPermit;
  ss_parked : gmap nat (list nat);
}.

Definition set_ss_opts (v : StormOptions) (x : stormState) : stormState :=
  StormState v (ss_scopes x) (ss_heap x) (ss_kick x) (ss_generation x) (ss_queued x)
    (ss_permits x) (ss_parked x).
Definition set_ss_scopes (v : gmap stormKey nat) (x : stormState) : stormState :=
  StormState (ss_opts x) v (ss_heap x) (ss_kick x) (ss_generation x) (ss_queued x) (ss_permits x)
    (ss_parked x).
Definition set_ss_heap (v : gmap nat stormScope) (x : stormState) : stormState :=
  StormState (ss_opts x) (ss_scopes x) v (ss_kick x) (ss_generation x) (ss_queued x)
    (ss_permits x) (ss_parked x).
Definition set_ss_kick (v : nat) (x : stormState) : stormState :=
  StormState (ss_opts x) (ss_scopes x) (ss_heap x) v (ss_generation x) (ss_queued x)
    (ss_permits x) (ss_parked x).
Definition set_ss_generation (v : Z) (x : stormState) : stormState :=
  StormState (ss_opts x) (ss_scopes x) (ss_heap x) (ss_kick x) v (ss_queued x) (ss_permits x)
    (ss_parked x).
Definition set_ss_queued (v : Z) (x : stormState) : stormState :=
  StormState (ss_opts x) (ss_scopes x) (ss_heap x) (ss_kick x) (ss_generation x) v (ss_permits x)
    (ss_parked x).
Definition set_ss_permits (v : gmap nat StormPermit) (x : stormState) : stormState :=
  StormState (ss_opts x) (ss_scopes x) (ss_heap x) (ss_kick x) (ss_generation x) (ss_queued x) v
    (ss_parked x).
Definition set_ss_parked (v : gmap nat (list nat)) (x : stormState) : stormState :=
  StormState (ss_opts x) (ss_scopes x) (ss_heap x) (ss_kick x) (ss_generation x) (ss_queued x)
    (ss_permits x) v.

Definition zeroStormOptions : StormOptions :=
  Build_StormOptions "" false false false 0 0 0 0 0 0 0 0 0 0 0 false 0.
Definition zeroStormState : stormState :=
  StormState zeroStormOptions ∅ ∅ 0 0 0 ∅ ∅.

Definition upd_scope (sid : nat) (f : stormScope -> stormScope) (s : stormState) : stormState :=
  set_ss_heap (alter f sid (ss_heap s)) s.
Definition scope_of (s : stormState) (sid : nat) : stormScope :=
  default (newScope (Build_stormKey "" "" false) zeroTime) (ss_heap s !! sid).

Definition wakeLocked (s : stormState) : stormState := set_ss_kick (S (ss_kick s)) s.

Definition storm_configure (s : stormState) (opts : StormOptions) : stormState :=
  if negb (Nat.eqb (ss_kick s) 0) && bool_decide (ss_opts s = opts) then s else
  let s := fold_left (fun s kv => upd_scope kv.2 (fun x => set_sc_timer (stop (sc_timer x)) x) s)
             (map_to_list (ss_scopes s)) s in
  let s := set_ss_scopes ∅ (set_ss_opts opts s) in
  wakeLocked (set_ss_generation (u64 (ss_generation s + 1)) s).

(** *** Scopes *)

Definition requested (keys : list stormKey) (key : stormKey) : bool :=
  existsb (fun target => bool_decide (key = target)) keys.

Definition evictable (opts : StormOptions) (now : Time) (keys : list stormKey)
    (key : stormKey) (x : stormScope) : bool :=
  negb (sc_active x) && negb (sc_quota x) && (sc_refs x =? 0) && (sc_queued x =? 0) &&
  (so_Window opts <=? Sub now (sc_lastActivity x)) && negb (requested keys key).

Definition evict_scopes (s : stormState) (now : Time) (keys : list stormKey) : stormState :=
  fold_left (fun s kv =>
    if evictable (ss_opts s) now keys kv.1 (scope_of s kv.2) then
      set_ss_scopes (delete kv.1 (ss_scopes s))
        (upd_scope kv.2 (fun x => set_sc_timer (stop (sc_timer x)) x) s)
    else s) (map_to_list (ss_scopes s)) s.

(** The scope of a key, created when the map has none. *)
Definition scope_for_key (s : stormState) (now : Time) (key : stormKey) : stormState * nat :=
  match ss_scopes s !! key with
  | Some sid => (s, sid)
  | None =>
      let sid := fresh (dom (ss_heap s)) in
      (set_ss_scopes (<[key := sid]> (ss_scopes s))
         (set_ss_heap (<[sid := newScope key now]> (ss_heap s)) s), sid)
  end.

Fixpoint scopes_for_keys (s : stormState) (now : Time) (keys : list stormKey)
    : stormState * list nat :=
  match keys with
  | [] => (s, [])
  | key :: keys =>
      let '(s, sid) := scope_for_key s now key in
      let '(s, rest) := scopes_for_keys s now keys in
      (s, sid :: rest)
  end.

Definition storm_keys (opts : StormOptions) (provider model : string) : list stormKey :=
  {| sk_provider := provider; sk_model := model; sk_modelScope := true |} ::
  (if so_ProviderEnabled opts || so_QuotaEnabled opts
   then [{| sk_provider := provider; sk_model := ""; sk_modelScope := false |}] else []).

Definition missing (s : stormState) (keys : list stormKey) : Z :=
  Z.of_nat (length (filter (fun key => ss_scopes s !! key = None) keys)).

Definition scopesFor (s : stormState) (provider model : string) (now : Time)
    : stormState * result stormError (list nat) :=
  if (maxStormLabelBytes <? Z.of_nat (String.length provider)) ||
     (maxStormLabelBytes <? Z.of_nat (String.length model))
  then (s, Err ErrStormCapacity) else
  let keys := storm_keys (ss_opts s) provider model in
  let needed := missing s keys in
  let over (s : stormState) :=
    so_MaxScopes (ss_opts s) <? Z.of_nat (size (ss_scopes s)) + needed in
  let '(s, full) :=
    if over s then let s := evict_scopes s now keys in (s, over s) else (s, false) in
  if full then (s, Err ErrStormCapacity) else
  let '(s, sids) := scopes_for_keys s now keys in
  (s, Ok sids).

(** *** Gates *)

Definition storm_gates (s : stormState) (x : stormScope) : bool :=
  negb (sk_modelScope (sc_key x)) || so_ModelEnabled (ss_opts s).

Definition facet_open (s : stormState) (x : stormScope) : bool :=
  storm_gates s x && sc_active x || sc_quota x.

Definition gateHeld (s : stormState) (x : stormScope) (now : Time) : bool :=
  if negb (facet_open s x) then false else sc_probing x || Before now (sc_retryAt x).

Definition unqueue (s : stormState) (scopes : list nat) : stormState :=
  fold_left (fun s sid => upd_scope sid (fun x => set_sc_queued (sc_queued x - 1) x) s) scopes
    (set_ss_queued (ss_queued s - 1) s).

(** *** One turn of waitStorm's loop *)

Inductive waitOutcome :=
  | WaitErr (e : stormError)
  | WaitDisabled
  | WaitReady
  | WaitPermit (pid : nat)
  | WaitPark (waitStarted : Time) (activityGeneration : Z).

(** The caller's own park is undone first, and on every way out. *)
Definition leave_queue (s : stormState) (wid : nat) : stormState :=
  match ss_parked s !! wid with
  | None => s
  | Some scopes => set_ss_parked (delete wid (ss_parked s)) (unqueue s scopes)
  end.

Definition claim_scope (s : stormState) (sid : nat) : stormState * stormClaim :=
  let x := scope_of s sid in
  let probe := facet_open s x in
  let s := if probe then upd_scope sid (set_sc_probing true) s else s in
  (upd_scope sid (fun x => set_sc_refs (sc_refs x + 1) x) s,
   {| cl_scope := sid; cl_epoch := sc_epoch x; cl_probe := probe |}).

Fixpoint claim_scopes (s : stormState) (sids : list nat) : stormState * list stormClaim :=
  match sids with
  | [] => (s, [])
  | sid :: sids =>
      let '(s, c) := claim_scope s sid in
      let '(s, cs) := claim_scopes s sids in
      (s, c :: cs)
  end.

Definition waitStorm_turn (s : stormState) (wid : nat) (ctxErr : bool) (now waitStarted : Time)
    (activityGeneration : Z) (provider model : string) (reserve : bool)
    : stormState * waitOutcome :=
  let s := leave_queue s wid in
  if ctxErr then (s, WaitErr ErrStormCtx) else
  let opts := ss_opts s in
  if (negb (so_Enabled opts) || (negb (so_ProviderEnabled opts) && negb (so_ModelEnabled opts))) &&
     negb (so_QuotaEnabled opts)
  then (s, WaitDisabled) else
  if negb (IsZero waitStarted) && (0 <? so_MaxWait opts) && (so_MaxWait opts <=? Sub now waitStarted)
  then (s, WaitErr ErrStormMaxWait) else
  match scopesFor s provider model now with
  | (s, Err e) => (s, WaitErr e)
  | (s, Ok scopes) =>
      let '(s, activityGeneration) :=
        if activityGeneration =? ss_generation s then (s, activityGeneration)
        else (fold_left (fun s sid => upd_scope sid (set_sc_lastActivity now) s) scopes s,
              ss_generation s) in
      if negb (existsb (fun sid => gateHeld s (scope_of s sid) now) scopes) then
        if negb reserve then (s, WaitReady) else
        let '(s, claims) := claim_scopes s scopes in
        let pid := fresh (dom (ss_permits s)) in
        (set_ss_permits (<[pid := MkPermit (ss_generation s) claims false false]> (ss_permits s)) s,
         WaitPermit pid)
      else if so_MaxQueue opts <=? ss_queued s then (s, WaitErr ErrStormQueueFull)
      else
        let s := set_ss_queued (ss_queued s + 1) s in
        let s := fold_left (fun s sid => upd_scope sid (fun x => set_sc_queued (sc_queued x + 1) x) s)
                   scopes s in
        let s := set_ss_parked (<[wid := scopes]> (ss_parked s)) s in
        (s, WaitPark (if IsZero waitStarted then now else waitStarted) activityGeneration)
  end.

(** *** Folds over the models of a provider *)

Definition modelFold (s : stormState) (sid : nat) (now : Time) : stormState * bool * bool :=
  let x := scope_of s sid in
  if negb (sk_modelScope (sc_key x)) || (so_Window (ss_opts s) <=? Sub now (sc_lastActivity x))
  then (s, false, false)
  else let '(x, affected) := threshold x now (ss_opts s) in
       (upd_scope sid (fun _ => x) s, true, affected).

Definition affectedModels (s : stormState) (provider : string) (now : Time)
    : stormState * Z * Z :=
  fold_left (fun acc kv =>
    let '(s, active, affected) := acc in
    if bool_decide (sk_provider kv.1 <> provider) then acc else
    let '(s, isActive, isAffected) := modelFold s kv.2 now in
    (s, if isActive then active + 1 else active,
     if isActive && isAffected then affected + 1 else affected))
    (map_to_list (ss_scopes s)) (s, 0, 0).

Definition allActiveModelsAffected (s : stormState) (provider : string) (now : Time)
    : stormState * bool :=
  let '(s, active, affected) := affectedModels s provider now in
  (s, (0 <? active) && (active =? affected)).

(** *** Settling *)

(** [r] is the random draw. *)
Definition storm_delay (opts : StormOptions) (x : stormScope) (now : Time)
    (retryAfter : Duration) (grow : bool) (r : float64) : stormScope :=
  let backoff :=
    if negb grow || (sc_backoff x <=? 0) then so_InitialBackoff opts
    else if (0 <? so_BackoffMultiplier opts) &&
            (sc_backoff x <=? godiv (so_MaxBackoff opts) (so_BackoffMultiplier opts))
    then wrap64 (sc_backoff x * so_BackoffMultiplier opts)
    else so_MaxBackoff opts in
  let backoff := if so_MaxBackoff opts <? backoff then so_MaxBackoff opts else backoff in
  let delay := backoff in
  let delay :=
    if 0 <? so_JitterPercent opts then
      let factor := fadd (of_int 1)
        (fdiv (fmul (fsub (fmul (of_int 2) r) (of_int 1)) (of_int (so_JitterPercent opts)))
              (of_int 100)) in
      let value := fmul (of_int delay) factor in
      if fleb (of_int (so_MaxBackoff opts)) value then so_MaxBackoff opts
      else if fltb fzero value then to_int64 value
      else 0
    else delay in
  let retryAfter := ClampRetryHint retryAfter in
  let delay := if delay <? retryAfter then retryAfter else delay in
  let until := Add now delay in
  let retryAt := if After until (sc_retryAt x) then until else sc_retryAt x in
  set_sc_timer (arm (sc_timer x) retryAt false) (set_sc_retryAt retryAt (set_sc_backoff backoff x)).

Definition bound_reason (reason : bytes) : bytes := take maxStormReasonBytes (TrimSpace reason).

Definition drop_refs (s : stormState) (claims : list stormClaim) : stormState :=
  fold_left (fun s c => upd_scope (cl_scope c) (fun x => set_sc_refs (sc_refs x - 1) x) s) claims s.

Definition quota_settle_scope (opts : StormOptions) (x : stormScope) (claim : stormClaim)
    (now : Time) (reason : bytes) (retryAfter : Duration) (r : float64) : stormScope * bool :=
  let '(x, changed) :=
    if cl_probe claim && sc_probing x then (set_sc_probing false x, true) else (x, false) in
  if sk_modelScope (sc_key x) then (x, changed) else
  if cl_probe claim && (cl_epoch claim =? sc_epoch x) && sc_quota x then
    (storm_delay opts (set_sc_reason reason (set_sc_recovered 0 x)) now retryAfter true r, changed)
  else if negb (sc_quota x) then
    let x := set_sc_quota true x in
    let x := set_sc_epoch (u64 (sc_epoch x + 1)) x in
    (storm_delay opts (set_sc_reason reason (set_sc_recovered 0 x)) now retryAfter false r, changed)
  else (x, changed).

Fixpoint quota_settle_claims (s : stormState) (claims : list stormClaim) (now : Time)
    (reason : bytes) (retryAfter : Duration) (rs : list float64) : stormState * bool :=
  match claims with
  | [] => (s, false)
  | claim :: claims =>
      let '(x, changed) := quota_settle_scope (ss_opts s) (scope_of s (cl_scope claim)) claim now
                             reason retryAfter (default fzero (head rs)) in
      let s := upd_scope (cl_scope claim) (fun _ => x) s in
      let '(s, more) := quota_settle_claims s claims now reason retryAfter (tail rs) in
      (s, changed || more)
  end.

Definition settleQuota (s : stormState) (p : StormPermit) (now : Time) (reason : bytes)
    (retryAfter : Duration) (rs : list float64) : stormState :=
  let s := drop_refs s (pm_claims p) in
  if negb (pm_generation p =? ss_generation s) then s else
  let '(s, changed) := quota_settle_claims s (pm_claims p) now (bound_reason reason)
                         (ClampRetryHint retryAfter) rs in
  if changed then wakeLocked s else s.

(** The samples of one attempt, on both scopes. *)
Fixpoint record_samples (s : stormState) (claims : list stormClaim) (now : Time) (failed : bool)
    (observation : option StormObservation) (index : nat)
    : stormState * option StormObservation :=
  match claims with
  | [] => (s, observation)
  | claim :: claims =>
      let x := sample (scope_of s (cl_scope claim)) now (so_Window (ss_opts s)) failed in
      let '(x, observation) :=
        if failed then observeRequest (cl_scope claim) x now (so_Window (ss_opts s)) observation index
        else (x, observation) in
      record_samples (upd_scope (cl_scope claim) (fun _ => x) s) claims now failed observation (S index)
  end.

(** A probe's verdict on its own scope. *)
Definition probe_verdict (opts : StormOptions) (x : stormScope) (now : Time)
    (observe failed : bool) (reason : bytes) (retryAfter : Duration) (r : float64) : stormScope :=
  if observe && failed then
    storm_delay opts (set_sc_reason reason (set_sc_recovered 0 x)) now retryAfter true r
  else if observe then
    let x := set_sc_recovered (sc_recovered x + 1) x in
    let quotaClosed := sc_quota x && (so_QuotaRecoverySuccesses opts <=? sc_recovered x) in
    let stormClosed := sc_active x && (so_RecoverySuccesses opts <=? sc_recovered x) in
    let x := if quotaClosed then set_sc_quota false x else x in
    let x := if stormClosed then resetSamples (set_sc_active false x) else x in
    if negb (sc_active x) && negb (sc_quota x) then clearCooldown x
    else storm_delay opts x now 0 false r
  else x.

(** The condition that opens a storm; it re-reads the rolling totals. *)
Definition opens (s : stormState) (sid : nat) (now : Time) (observe failed : bool)
    : stormState * bool :=
  let x := scope_of s sid in
  if so_Enabled (ss_opts s) && (sk_modelScope (sc_key x) || so_ProviderEnabled (ss_opts s)) &&
     observe && failed && negb (sc_active x) then
    let '(x', reached) := threshold x now (ss_opts s) in
    let s := upd_scope sid (fun _ => x') s in
    if negb reached then (s, false)
    else if sk_modelScope (sc_key x) then (s, true)
    else allActiveModelsAffected s (sk_provider (sc_key x)) now
  else (s, false).

(** One claim: the state, whether waiters must wake, and the scope's storm gate
    when the claim was not skipped. *)
Definition settle_claim (s : stormState) (claim : stormClaim) (now : Time)
    (observe failed : bool) (reason : bytes) (retryAfter : Duration) (r : float64)
    : stormState * bool * bool :=
  let sid := cl_scope claim in
  let x := scope_of s sid in
  if negb (storm_gates s x) && negb (sc_quota x) then (s, false, false) else
  let '(s, changed) :=
    if cl_probe claim && sc_probing x then (upd_scope sid (set_sc_probing false) s, true)
    else (s, false) in
  let x := scope_of s sid in
  let '(s, changed) :=
    if cl_probe claim && (cl_epoch claim =? sc_epoch x) && (sc_active x || sc_quota x) then
      (upd_scope sid (fun x => probe_verdict (ss_opts s) x now observe failed reason retryAfter r) s,
       changed)
    else
      let '(s, open) := opens s sid now observe failed in
      if open then
        (upd_scope sid (fun x =>
           let x := set_sc_active true x in
           let x := set_sc_epoch (u64 (sc_epoch x + 1)) x in
           storm_delay (ss_opts s) (set_sc_reason reason (set_sc_recovered 0 x)) now retryAfter false r) s,
         true)
      else
        let x := scope_of s sid in
        if observe && failed && sc_active x && (0 <? retryAfter) &&
           After (Add now retryAfter) (sc_retryAt x) then
          (upd_scope sid (fun x =>
             let x := set_sc_reason reason (set_sc_retryAt (Add now retryAfter) x) in
             set_sc_timer (arm (sc_timer x) (sc_retryAt x) false) x) s, true)
        else (s, changed) in
  (s, changed, sc_active (scope_of s sid)).

Fixpoint settle_claims (s : stormState) (claims : list stormClaim) (now : Time)
    (observe failed : bool) (reason : bytes) (retryAfter : Duration) (rs : list float64)
    : stormState * bool * bool :=
  match claims with
  | [] => (s, false, false)
  | claim :: claims =>
      let '(s, c1, a1) := settle_claim s claim now observe failed reason retryAfter
                            (default fzero (head rs)) in
      let '(s, c2, a2) := settle_claims s claims now observe failed reason retryAfter (tail rs) in
      (s, c1 || c2, a1 || a2)
  end.

(** The new state, the permit's [active] flag and the request's observation. *)
Definition settle (s : stormState) (p : StormPermit) (now : Time) (observe failed : bool)
    (reason : bytes) (retryAfter : Duration) (observation : option StormObservation)
    (rs : list float64) : stormState * bool * option StormObservation :=
  let s := drop_refs s (pm_claims p) in
  if negb (pm_generation p =? ss_generation s) then (s, pm_active p, observation) else
  let retryAfter := ClampRetryHint retryAfter in
  let '(s, observation) :=
    if observe then record_samples s (pm_claims p) now failed observation 0 else (s, observation) in
  let '(s, changed, active) := settle_claims s (pm_claims p) now observe failed (bound_reason reason)
                                 retryAfter rs in
  (if changed then wakeLocked s else s, pm_active p || active, observation).

(** *** The permit's methods; the disabled permit has no entry *)

Definition Observe (s : stormState) (pid : nat) (now : Time) (failed : bool) (reason : bytes)
    (retryAfter : Duration) (observation : option StormObservation) (rs : list float64)
    : stormState * bool * option StormObservation :=
  match ss_permits s !! pid with
  | None => (s, false, observation)
  | Some p =>
      if pm_once p then (s, pm_active p, observation) else
      let '(s, active, observation) := settle s p now true failed reason retryAfter observation rs in
      (set_ss_permits (<[pid := set_pm_active active (set_pm_once true p)]> (ss_permits s)) s,
       active, observation)
  end.

Definition Cancel (s : stormState) (pid : nat) (now : Time) : stormState :=
  match ss_permits s !! pid with
  | None => s
  | Some p =>
      if pm_once p then s else
      let '(s, active, _) := settle s p now false false [] 0 None [] in
      set_ss_permits (<[pid := set_pm_active active (set_pm_once true p)]> (ss_permits s)) s
  end.

Definition ObserveQuota (s : stormState) (pid : nat) (now : Time) (reason : bytes)
    (retryAfter : Duration) (rs : list float64) : stormState :=
  match ss_permits s !! pid with
  | None => s
  | Some p =>
      if pm_once p then s else
      let s := settleQuota s p now reason retryAfter rs in
      set_ss_permits (<[pid := set_pm_once true p]> (ss_permits s)) s
  end.

Definition ReleaseQuota (s : stormState) (provider : string) : stormState * bool :=
  match ss_scopes s !! {| sk_provider := provider; sk_model := ""; sk_modelScope := false |} with
  | None => (s, false)
  | Some sid =>
      let x := scope_of s sid in
      if negb (sc_quota x) then (s, false) else
      let x := set_sc_recovered 0 (set_sc_quota false x) in
      let x := if negb (sc_active x) then clearCooldown x else x in
      (wakeLocked (upd_scope sid (fun _ => x) s), true)
  end.
