(* ===== verification/StormInv.v ===== *)
(** The storm state's bookkeeping: probes, references and queues are counted
    exactly, whatever the order of sends, outcomes and reconfigurations. *)

From S2P Require Import Prelude GoTime GoFloat WakeTimer Pacing Storm.

(** The part of a scope the bookkeeping is about. *)
Record view := View { v_key : stormKey; v_probing : bool; v_refs : Z; v_queued : Z }.

Definition view_of (x : stormScope) : view :=
  View (sc_key x) (sc_probing x) (sc_refs x) (sc_queued x).
Definition views (s : stormState) : gmap nat view := view_of <$> ss_heap s.

Definition v_set_probing (b : bool) (v : view) : view := View (v_key v) b (v_refs v) (v_queued v).
Definition v_add_refs (n : Z) (v : view) : view := View (v_key v) (v_probing v) (v_refs v + n) (v_queued v).
Definition v_add_queued (n : Z) (v : view) : view := View (v_key v) (v_probing v) (v_refs v) (v_queued v + n).

(** Everything the bookkeeping reads. *)
Record skel := Skel {
  sl_opts : StormOptions;
  sl_scopes : gmap stormKey nat;
  sl_views : gmap nat view;
  sl_generation : Z;
  sl_queued : Z;
  sl_permits : gmap nat StormPermit;
  sl_parked : gmap nat (list nat);
}.
Definition skel_of (s : stormState) : skel :=
  Skel (ss_opts s) (ss_scopes s) (views s) (ss_generation s) (ss_queued s) (ss_permits s) (ss_parked s).

Definition sl_upd (sid : nat) (g : view -> view) (k : skel) : skel :=
  Skel (sl_opts k) (sl_scopes k) (alter g sid (sl_views k)) (sl_generation k) (sl_queued k)
    (sl_permits k) (sl_parked k).

Lemma skel_upd sid f g s :
  (forall x, view_of (f x) = g (view_of x)) ->
  skel_of (upd_scope sid f s) = sl_upd sid g (skel_of s).
Proof.
  intros H. unfold skel_of, sl_upd, views, upd_scope. cbn. f_equal.
  apply map_eq. intros i. rewrite lookup_fmap. destruct (decide (sid = i)) as [<-|].
  - rewrite !lookup_alter_eq, lookup_fmap. destruct (ss_heap s !! sid); cbn; [by rewrite H|done].
  - by rewrite !lookup_alter_ne, lookup_fmap by done.
Qed.

Lemma sl_upd_id sid k : sl_upd sid (fun v => v) k = k.
Proof. unfold sl_upd. rewrite alter_id by done. by destruct k. Qed.

Lemma skel_upd_same sid f s :
  (forall x, view_of (f x) = view_of x) -> skel_of (upd_scope sid f s) = skel_of s.
Proof. intros H. rewrite (skel_upd sid f (fun v => v)) by done. apply sl_upd_id. Qed.

Lemma scope_of_some s sid x : ss_heap s !! sid = Some x -> scope_of s sid = x.
Proof. intros H. unfold scope_of. by rewrite H. Qed.

(** Writing back a scope that was read and changed outside the view. *)
Lemma skel_write s sid y g :
  view_of y = g (view_of (scope_of s sid)) ->
  skel_of (upd_scope sid (fun _ => y) s) = sl_upd sid g (skel_of s).
Proof.
  intros Hy. unfold skel_of, sl_upd, views, upd_scope. cbn. f_equal.
  apply map_eq. intros i. rewrite lookup_fmap. destruct (decide (sid = i)) as [<-|].
  - rewrite !lookup_alter_eq, lookup_fmap. destruct (ss_heap s !! sid) eqn:E; cbn; [|done].
    by rewrite Hy, (scope_of_some _ _ _ E).
  - by rewrite !lookup_alter_ne, lookup_fmap by done.
Qed.

Lemma skel_write_same s sid y :
  view_of y = view_of (scope_of s sid) -> skel_of (upd_scope sid (fun _ => y) s) = skel_of s.
Proof. intros Hy. rewrite (skel_write s sid y (fun v => v)) by done. apply sl_upd_id. Qed.

(** ** Transitions outside the bookkeeping *)

Lemma totals_view x now window : view_of (totals x now window).1.1 = view_of x.
Proof. unfold totals. by destruct (_ =? _). Qed.
Lemma threshold_view x now opts : view_of (threshold x now opts).1 = view_of x.
Proof.
  unfold threshold. pose proof (totals_view x now (so_Window opts)) as H.
  by destruct (totals x now (so_Window opts)) as [[??]?].
Qed.
Lemma add_errorRequests_view n e x : view_of (add_errorRequests n e x) = view_of x.
Proof. unfold add_errorRequests. by destruct (foldCounters _ _ _). Qed.
Lemma observeRequest_view sid x now w o i : view_of (observeRequest sid x now w o i).1 = view_of x.
Proof.
  unfold observeRequest. destruct o as [slots|]; cbn [fst]; [|apply add_errorRequests_view].
  destruct (_ && _); cbn [fst]; [done|]. rewrite add_errorRequests_view.
  destruct (_ && _); [apply add_errorRequests_view|done].
Qed.
Lemma sample_view x now w failed : view_of (sample x now w failed) = view_of x.
Proof.
  unfold sample. pose proof (totals_view x now w) as H. destruct (totals x now w) as [[y ?] ?].
  cbn [fst] in H. rewrite <- H.
  destruct (sb_epoch (bucket_at y (stormEpoch now w)) =? stormEpoch now w);
    destruct (foldCounters _ _ _), failed; try destruct (foldCounters _ _ _); done.
Qed.
Lemma delay_view opts x now ra grow r : view_of (storm_delay opts x now ra grow r) = view_of x.
Proof. done. Qed.
Lemma clearCooldown_view x : view_of (clearCooldown x) = view_of x.
Proof. done. Qed.
Lemma verdict_view opts x now o f reason ra r :
  view_of (probe_verdict opts x now o f reason ra r) = view_of x.
Proof.
  unfold probe_verdict. destruct (o && f); [done|]. destruct o; [|done].
  repeat case_match; try done.
Qed.

Lemma skel_wake s : skel_of (wakeLocked s) = skel_of s.
Proof. done. Qed.

Lemma modelFold_skel s sid now : skel_of (modelFold s sid now).1.1 = skel_of s.
Proof.
  unfold modelFold. destruct (_ || _); [done|].
  pose proof (threshold_view (scope_of s sid) now (ss_opts s)) as H.
  destruct (threshold _ _ _). cbn [fst] in *. by apply skel_write_same.
Qed.

Lemma affectedModels_skel s provider now : skel_of (affectedModels s provider now).1.1 = skel_of s.
Proof.
  unfold affectedModels. generalize (map_to_list (ss_scopes s)). intros l.
  assert (forall acc, skel_of acc.1.1 = skel_of s ->
    skel_of (fold_left (fun acc kv =>
      let '(s, active, affected) := acc in
      if bool_decide (sk_provider kv.1 <> provider) then acc else
      let '(s, isActive, isAffected) := modelFold s kv.2 now in
      (s, if isActive then active + 1 else active,
       if isActive && isAffected then affected + 1 else affected)) l acc).1.1 = skel_of s) as H;
    [|by apply (H (s, 0, 0))].
  induction l as [|kv l IH]; intros [[s1 a] b] Hs; [done|]. cbn [fold_left]. apply IH.
  case_match; [done|]. pose proof (modelFold_skel s1 kv.2 now) as Hm.
  destruct (modelFold s1 kv.2 now) as [[s2 ia] ib]. cbn [fst] in *. congruence.
Qed.

Lemma allActive_skel s provider now : skel_of (allActiveModelsAffected s provider now).1 = skel_of s.
Proof.
  unfold allActiveModelsAffected. pose proof (affectedModels_skel s provider now) as H.
  by destruct (affectedModels s provider now) as [[??]?].
Qed.

Lemma opens_skel s sid now o f : skel_of (opens s sid now o f).1 = skel_of s.
Proof.
  unfold opens. destruct (_ && _); [|done].
  pose proof (threshold_view (scope_of s sid) now (ss_opts s)) as H.
  destruct (threshold _ _ _) as [x' reached]. cbn [fst] in H.
  pose proof (skel_write_same s sid x' H) as H'.
  destruct reached; cbn [negb]; [|done]. destruct (sk_modelScope _); [done|].
  by rewrite allActive_skel.
Qed.

Lemma record_samples_skel s claims now failed o i :
  skel_of (record_samples s claims now failed o i).1 = skel_of s.
Proof.
  revert s o i. induction claims as [|c cs IH]; intros s o i; [done|]. cbn [record_samples].
  pose proof (sample_view (scope_of s (cl_scope c)) now (so_Window (ss_opts s)) failed) as H1.
  set (y := sample _ _ _ _) in *. clearbody y.
  destruct failed.
  - pose proof (observeRequest_view (cl_scope c) y now (so_Window (ss_opts s)) o i) as H2.
    destruct (observeRequest _ _ _ _ _ _) as [z o']. cbn [fst] in H2.
    rewrite IH. apply skel_write_same. congruence.
  - rewrite IH. by apply skel_write_same.
Qed.

(** ** Transitions on the bookkeeping *)

(** What settling a list of claims does to the views. *)
Definition drop_ref (k : skel) (c : stormClaim) : skel := sl_upd (cl_scope c) (v_add_refs (-1)) k.
Definition end_probe (k : skel) (c : stormClaim) : skel :=
  if cl_probe c then sl_upd (cl_scope c) (v_set_probing false) k else k.

Lemma fold_skel {A} (f : stormState -> A -> stormState) (g : skel -> A -> skel) l s :
  (forall s a, skel_of (f s a) = g (skel_of s) a) ->
  skel_of (fold_left f l s) = fold_left g l (skel_of s).
Proof.
  intros H. revert s. induction l as [|a l IH]; intros s; [done|]. cbn. by rewrite IH, H.
Qed.

Lemma drop_refs_skel s claims :
  skel_of (drop_refs s claims) = fold_left drop_ref claims (skel_of s).
Proof. apply fold_skel. intros. by apply skel_upd. Qed.

Lemma set_probing_skel s sid b :
  skel_of (upd_scope sid (set_sc_probing b) s) = sl_upd sid (v_set_probing b) (skel_of s).
Proof. by apply skel_upd. Qed.

(** Clearing a flag that is already clear changes nothing. *)
Lemma clear_noop s sid :
  sc_probing (scope_of s sid) = false -> sl_upd sid (v_set_probing false) (skel_of s) = skel_of s.
Proof.
  intros Hp. unfold sl_upd, skel_of. cbn. f_equal. apply map_eq. intros i.
  destruct (decide (sid = i)) as [<-|]; [|by rewrite lookup_alter_ne].
  rewrite lookup_alter_eq. unfold views. rewrite lookup_fmap.
  destruct (ss_heap s !! sid) as [x|] eqn:E; [|done]. cbn.
  rewrite (scope_of_some _ _ _ E) in Hp. unfold v_set_probing, view_of. cbn. by rewrite Hp.
Qed.

Lemma settle_claim_skel s c now o f reason ra r :
  (cl_probe c = true -> storm_gates s (scope_of s (cl_scope c)) = true) ->
  skel_of (settle_claim s c now o f reason ra r).1.1 = end_probe (skel_of s) c.
Proof.
  intros Hg. unfold settle_claim, end_probe.
  destruct (negb (storm_gates s _) && _) eqn:Eskip.
  { apply andb_true_iff in Eskip as [E _]. destruct (cl_probe c); [|done].
    by rewrite Hg in E. }
  set (s1 := if cl_probe c && sc_probing _ then _ else _).
  assert (skel_of s1.1 = if cl_probe c then sl_upd (cl_scope c) (v_set_probing false) (skel_of s)
                         else skel_of s) as <-.
  { unfold s1. destruct (cl_probe c); cbn [andb]; [|done].
    destruct (sc_probing _) eqn:Ep; cbn [fst]; [apply set_probing_skel|by rewrite clear_noop]. }
  destruct s1 as [s1 ch]. cbn [fst]. clear Hg Eskip.
  destruct (cl_probe c && _ && _); cbn [fst].
  { apply skel_upd_same. intros. apply verdict_view. }
  pose proof (opens_skel s1 (cl_scope c) now o f) as Ho.
  destruct (opens s1 (cl_scope c) now o f) as [s2 open]. cbn [fst] in Ho. rewrite <- Ho.
  destruct open; cbn [fst]; [by apply skel_upd_same|].
  destruct (_ && _); cbn [fst]; [by apply skel_upd_same|done].
Qed.

Lemma quota_scope_view opts x c now reason ra r :
  view_of (quota_settle_scope opts x c now reason ra r).1 =
    if cl_probe c then v_set_probing false (view_of x) else view_of x.
Proof.
  unfold quota_settle_scope.
  set (x1 := if cl_probe c && sc_probing x then _ else _).
  assert (view_of x1.1 = if cl_probe c then v_set_probing false (view_of x) else view_of x) as <-.
  { unfold x1. destruct (cl_probe c); cbn [andb]; [|done].
    destruct (sc_probing x) eqn:Ep; [done|]. cbn. unfold v_set_probing, view_of. cbn. by rewrite Ep. }
  destruct x1 as [x1 ch]. cbn [fst]. repeat case_match; done.
Qed.

Lemma quota_claims_skel s claims now reason ra rs :
  skel_of (quota_settle_claims s claims now reason ra rs).1 = fold_left end_probe claims (skel_of s).
Proof.
  revert s rs. induction claims as [|c cs IH]; intros s rs; [done|].
  cbn [quota_settle_claims fold_left].
  pose proof (quota_scope_view (ss_opts s) (scope_of s (cl_scope c)) c now reason ra
    (default fzero (head rs))) as Hv.
  destruct (quota_settle_scope _ _ _ _ _ _ _) as [x ch]. cbn [fst] in Hv.
  assert (skel_of (upd_scope (cl_scope c) (fun _ => x) s) = end_probe (skel_of s) c) as E.
  { unfold end_probe. destruct (cl_probe c); [by apply skel_write|by apply skel_write_same]. }
  rewrite <- E. specialize (IH (upd_scope (cl_scope c) (fun _ => x) s) (tail rs)).
  by destruct (quota_settle_claims _ _ _ _ _ _).
Qed.

(** ** Counting *)

Definition claims_on (P : stormClaim -> bool) (cs : list stormClaim) : Z :=
  Z.of_nat (length (filter (fun c => P c = true) cs)).
Definition on_scope (sid : nat) (c : stormClaim) : bool := bool_decide (cl_scope c = sid).
Definition probe_on (sid : nat) (c : stormClaim) : bool := on_scope sid c && cl_probe c.

(** Unsettled claims on a scope, and unsettled probes of this generation. *)
Definition refs_on (k : skel) (sid : nat) : Z :=
  total (fun p => if pm_once p then 0 else claims_on (on_scope sid) (pm_claims p)) (sl_permits k).
Definition probes_on (k : skel) (sid : nat) : Z :=
  total (fun p => if pm_once p || negb (pm_generation p =? sl_generation k) then 0
                  else claims_on (probe_on sid) (pm_claims p)) (sl_permits k).
Definition count_in (sid : nat) (l : list nat) : Z :=
  Z.of_nat (length (filter (fun i => i = sid) l)).
Definition parked_on (k : skel) (sid : nat) : Z := total (count_in sid) (sl_parked k).

Definition gated (k : skel) (c : stormClaim) : Prop :=
  cl_probe c = true -> forall v, sl_views k !! cl_scope c = Some v ->
  negb (sk_modelScope (v_key v)) || so_ModelEnabled (sl_opts k) = true.

Definition live (k : skel) (sid : nat) : Prop := exists key, sl_scopes k !! key = Some sid.

Record storm_inv (k : skel) : Prop := {
  si_map : forall key sid, sl_scopes k !! key = Some sid ->
    exists v, sl_views k !! sid = Some v /\ v_key v = key;
  si_refs : forall sid v, sl_views k !! sid = Some v -> v_refs v = refs_on k sid;
  si_queued : forall sid v, sl_views k !! sid = Some v -> v_queued v = parked_on k sid;
  si_total : sl_queued k = Z.of_nat (size (sl_parked k));
  si_parked : forall wid l sid, sl_parked k !! wid = Some l -> sid ∈ l -> is_Some (sl_views k !! sid);
  si_claims : forall pid p c, sl_permits k !! pid = Some p -> pm_once p = false ->
    c ∈ pm_claims p -> is_Some (sl_views k !! cl_scope c);
  si_gen : forall pid p, sl_permits k !! pid = Some p -> pm_generation p <= sl_generation k;
  si_pos : 0 <= sl_generation k;
  si_live : forall pid p c, sl_permits k !! pid = Some p -> pm_once p = false ->
    pm_generation p = sl_generation k -> c ∈ pm_claims p ->
    live k (cl_scope c) /\ gated k c;
  si_probe : forall sid v, live k sid -> sl_views k !! sid = Some v ->
    Z.b2z (v_probing v) = probes_on k sid;
}.

Lemma claims_on_cons P c cs : claims_on P (c :: cs) = (if P c then 1 else 0) + claims_on P cs.
Proof.
  unfold claims_on. rewrite filter_cons.
  destruct (P c); [rewrite decide_True by done|rewrite decide_False by done]; cbn [length]; lia.
Qed.

Lemma claims_on_zero P cs : (forall c, c ∈ cs -> P c = false) -> claims_on P cs = 0.
Proof.
  induction cs as [|c cs IH]; intros H; [done|]. rewrite claims_on_cons.
  rewrite (H c) by (by left). rewrite IH; [done|]. intros c' Hc'. apply H. by right.
Qed.

Lemma claims_on_nonneg P cs : 0 <= claims_on P cs.
Proof. unfold claims_on. lia. Qed.

Lemma fold_fields {A} (f : skel -> A -> skel) l k :
  (forall k a, sl_opts (f k a) = sl_opts k /\ sl_scopes (f k a) = sl_scopes k /\
     sl_generation (f k a) = sl_generation k /\ sl_queued (f k a) = sl_queued k /\
     sl_permits (f k a) = sl_permits k /\ sl_parked (f k a) = sl_parked k) ->
  sl_opts (fold_left f l k) = sl_opts k /\ sl_scopes (fold_left f l k) = sl_scopes k /\
  sl_generation (fold_left f l k) = sl_generation k /\ sl_queued (fold_left f l k) = sl_queued k /\
  sl_permits (fold_left f l k) = sl_permits k /\ sl_parked (fold_left f l k) = sl_parked k.
Proof.
  intros H. revert k. induction l as [|a l IH]; intros k; [done|]. cbn.
  destruct (IH (f k a)) as (-> & -> & -> & -> & -> & ->). apply H.
Qed.

Lemma drop_ref_views cs k sid :
  sl_views (fold_left drop_ref cs k) !! sid =
    v_add_refs (- claims_on (on_scope sid) cs) <$> sl_views k !! sid.
Proof.
  revert k. induction cs as [|c cs IH]; intros k; cbn [fold_left].
  - change (claims_on (on_scope sid) []) with 0.
    destruct (sl_views k !! sid) as [[]|]; cbn; [|done]. unfold v_add_refs. cbn. do 2 f_equal. lia.
  - rewrite IH, claims_on_cons. unfold drop_ref, sl_upd. cbn [sl_views].
    change (on_scope sid c) with (bool_decide (cl_scope c = sid)).
    destruct (decide (cl_scope c = sid)) as [<-|Hne].
    + rewrite lookup_alter_eq, bool_decide_eq_true_2 by done.
      destruct (sl_views k !! cl_scope c); cbn; [|done]. unfold v_add_refs. cbn. do 2 f_equal. lia.
    + by rewrite lookup_alter_ne, bool_decide_eq_false_2 by done.
Qed.

Lemma end_probe_views cs k sid :
  sl_views (fold_left end_probe cs k) !! sid =
    (fun v => if 0 <? claims_on (probe_on sid) cs then v_set_probing false v else v)
      <$> sl_views k !! sid.
Proof.
  revert k. induction cs as [|c cs IH]; intros k; cbn [fold_left].
  - by destruct (sl_views k !! sid).
  - rewrite IH, claims_on_cons. unfold end_probe.
    change (probe_on sid c) with (bool_decide (cl_scope c = sid) && cl_probe c).
    pose proof (claims_on_nonneg (probe_on sid) cs) as Hnn.
    destruct (cl_probe c); rewrite ?andb_false_r, ?andb_true_r; [|done].
    unfold sl_upd. cbn [sl_views]. destruct (decide (cl_scope c = sid)) as [<-|Hne].
    + rewrite lookup_alter_eq, bool_decide_eq_true_2 by done.
      destruct (sl_views k !! cl_scope c); cbn [fmap option_fmap option_map]; [|done].
      destruct (Z.ltb_spec 0 (claims_on (probe_on (cl_scope c)) cs)),
        (Z.ltb_spec 0 (1 + claims_on (probe_on (cl_scope c)) cs)); try lia; done.
    + by rewrite lookup_alter_ne, bool_decide_eq_false_2 by done.
Qed.

Lemma drop_ref_fields cs k :
  sl_opts (fold_left drop_ref cs k) = sl_opts k /\ sl_scopes (fold_left drop_ref cs k) = sl_scopes k /\
  sl_generation (fold_left drop_ref cs k) = sl_generation k /\
  sl_queued (fold_left drop_ref cs k) = sl_queued k /\
  sl_permits (fold_left drop_ref cs k) = sl_permits k /\ sl_parked (fold_left drop_ref cs k) = sl_parked k.
Proof. by apply fold_fields. Qed.
Lemma end_probe_fields cs k :
  sl_opts (fold_left end_probe cs k) = sl_opts k /\ sl_scopes (fold_left end_probe cs k) = sl_scopes k /\
  sl_generation (fold_left end_probe cs k) = sl_generation k /\
  sl_queued (fold_left end_probe cs k) = sl_queued k /\
  sl_permits (fold_left end_probe cs k) = sl_permits k /\ sl_parked (fold_left end_probe cs k) = sl_parked k.
Proof. apply fold_fields. intros k' c. unfold end_probe. by destruct (cl_probe c). Qed.

Lemma gated_same k k' c :
  sl_opts k' = sl_opts k ->
  (forall sid v', sl_views k' !! sid = Some v' -> exists v, sl_views k !! sid = Some v /\ v_key v = v_key v') ->
  gated k c -> gated k' c.
Proof.
  intros Ho Hv Hg Hp v' Hv'. destruct (Hv _ _ Hv') as (v & Hvl & <-). rewrite Ho. by apply Hg.
Qed.

Lemma settle_claims_skel s cs now o f reason ra rs :
  Forall (gated (skel_of s)) cs ->
  skel_of (settle_claims s cs now o f reason ra rs).1.1 = fold_left end_probe cs (skel_of s).
Proof.
  revert s rs. induction cs as [|c cs IH]; intros s rs Hg; [done|].
  apply Forall_cons in Hg as [Hc Hg]. cbn [settle_claims fold_left].
  pose proof (settle_claim_skel s c now o f reason ra (default fzero (head rs))) as E.
  destruct (settle_claim _ _ _ _ _ _ _ _) as [[s1 c1] a1]. cbn [fst] in E.
  assert (skel_of s1 = end_probe (skel_of s) c) as E1.
  { apply E. intros Hp. unfold scope_of, storm_gates.
    destruct (ss_heap s !! cl_scope c) as [x|] eqn:Ex; [|done]. cbn [default].
    assert (sl_views (skel_of s) !! cl_scope c = Some (view_of x)) as Hv
      by (cbn; unfold views; by rewrite lookup_fmap, Ex).
    exact (Hc Hp _ Hv). }
  specialize (IH s1 (tail rs)). rewrite E1 in IH.
  destruct (settle_claims s1 cs now o f reason ra (tail rs)) as [[s2 c2] a2]. cbn [fst] in *.
  apply IH. eapply Forall_impl; [exact Hg|]. intros c' Hg'.
  pose proof (end_probe_fields [c] (skel_of s)) as Hf. cbn [fold_left] in Hf.
  eapply gated_same; [apply Hf| |exact Hg']. intros sid v' Hv'.
  pose proof (end_probe_views [c] (skel_of s) sid) as Hv. cbn [fold_left] in Hv. rewrite Hv in Hv'.
  destruct (sl_views (skel_of s) !! sid) as [v|]; [|done]. injection Hv' as <-. exists v.
  split; [done|]. by destruct (_ <? _).
Qed.

Definition sl_set_permits (m : gmap nat StormPermit) (k : skel) : skel :=
  Skel (sl_opts k) (sl_scopes k) (sl_views k) (sl_generation k) (sl_queued k) m (sl_parked k).

(** Settling a permit: references dropped, probes ended, the permit spent. *)
Definition settled (k : skel) (pid : nat) (p p' : StormPermit) : skel :=
  let k1 := fold_left drop_ref (pm_claims p) k in
  let k1 := if pm_generation p =? sl_generation k then fold_left end_probe (pm_claims p) k1 else k1 in
  sl_set_permits (<[pid := p']> (sl_permits k)) k1.

Lemma settled_fields k pid p p' :
  sl_opts (settled k pid p p') = sl_opts k /\ sl_scopes (settled k pid p p') = sl_scopes k /\
  sl_generation (settled k pid p p') = sl_generation k /\
  sl_queued (settled k pid p p') = sl_queued k /\
  sl_permits (settled k pid p p') = <[pid := p']> (sl_permits k) /\
  sl_parked (settled k pid p p') = sl_parked k.
Proof.
  unfold settled. destruct (drop_ref_fields (pm_claims p) k) as (E1 & E2 & E3 & E4 & E5 & E6).
  destruct (_ =? _); cbn.
  - destruct (end_probe_fields (pm_claims p) (fold_left drop_ref (pm_claims p) k))
      as (-> & -> & -> & -> & _ & ->). by rewrite E1, E2, E3, E4, E6.
  - by rewrite E1, E2, E3, E4, E6.
Qed.

Lemma settled_views k pid p p' sid :
  sl_views (settled k pid p p') !! sid =
    (fun v => View (v_key v)
       (if (pm_generation p =? sl_generation k) && (0 <? claims_on (probe_on sid) (pm_claims p))
        then false else v_probing v)
       (v_refs v - claims_on (on_scope sid) (pm_claims p)) (v_queued v)) <$> sl_views k !! sid.
Proof.
  unfold settled. destruct (_ =? _); cbn [sl_set_permits sl_views andb];
    rewrite ?end_probe_views, drop_ref_views; destruct (sl_views k !! sid) as [v|]; cbn; try done;
    try destruct (0 <? _); unfold v_set_probing, v_add_refs; cbn; do 2 f_equal; lia.
Qed.

Lemma views_same_keys k k' sid v' :
  (forall sid v', sl_views k' !! sid = Some v' -> exists v, sl_views k !! sid = Some v /\ v_key v = v_key v') ->
  sl_views k' !! sid = Some v' -> exists v, sl_views k !! sid = Some v /\ v_key v = v_key v'.
Proof. eauto. Qed.

Lemma settled_inv k pid p p' :
  storm_inv k -> sl_permits k !! pid = Some p -> pm_once p = false ->
  pm_once p' = true -> pm_generation p' = pm_generation p ->
  storm_inv (settled k pid p p').
Proof.
  intros Hi Hp Ho Ho' Hg'.
  destruct (settled_fields k pid p p') as (E1 & E2 & E3 & E4 & E5 & E6).
  pose proof (settled_views k pid p p') as Hv.
  assert (Hback : forall sid v', sl_views (settled k pid p p') !! sid = Some v' ->
    exists v, sl_views k !! sid = Some v /\ v_key v = v_key v').
  { intros sid v' H. rewrite Hv in H. destruct (sl_views k !! sid) as [v|]; [|done].
    injection H as <-. eauto. }
  assert (Hfwd : forall sid, is_Some (sl_views k !! sid) -> is_Some (sl_views (settled k pid p p') !! sid)).
  { intros sid [v Hs]. rewrite Hv, Hs. by eexists. }
  assert (Hother : forall pid' q, sl_permits (settled k pid p p') !! pid' = Some q ->
    pm_once q = false -> sl_permits k !! pid' = Some q).
  { intros pid' q Hq Hqo. rewrite E5 in Hq. destruct (decide (pid = pid')) as [<-|Hne].
    - rewrite lookup_insert_eq in Hq. injection Hq as <-. congruence.
    - by rewrite lookup_insert_ne in Hq. }
  split.
  - intros key sid Hk. rewrite E2 in Hk. destruct (si_map _ Hi _ _ Hk) as (v & Hvl & Hkey).
    rewrite Hv, Hvl. by eexists.
  - intros sid v' H. rewrite Hv in H. destruct (sl_views k !! sid) as [v|] eqn:Evs; [|done].
    injection H as <-. cbn [v_refs]. rewrite (si_refs _ Hi _ _ Evs).
    unfold refs_on. rewrite E5, (total_insert _ _ _ _ _ Hp), Ho, Ho'. lia.
  - intros sid v' H. rewrite Hv in H. destruct (sl_views k !! sid) as [v|] eqn:Evs; [|done].
    injection H as <-. cbn [v_queued]. rewrite (si_queued _ Hi _ _ Evs). unfold parked_on. by rewrite E6.
  - rewrite E4, E6. apply Hi.
  - intros wid l sid Hl Hin. rewrite E6 in Hl. by eapply Hfwd, si_parked.
  - intros pid' q c Hq Hqo Hc. apply Hfwd. apply (si_claims _ Hi pid' q); auto.
  - intros pid' q Hq. rewrite E3. rewrite E5 in Hq. destruct (decide (pid = pid')) as [<-|Hne].
    + rewrite lookup_insert_eq in Hq. injection Hq as <-. rewrite Hg'. by eapply si_gen.
    + rewrite lookup_insert_ne in Hq by done. by eapply si_gen.
  - rewrite E3. apply Hi.
  - intros pid' q c Hq Hqo Hqg Hc. rewrite E3 in Hqg.
    destruct (si_live _ Hi pid' q c (Hother _ _ Hq Hqo) Hqo Hqg Hc) as [[key Hl] Hgt]. split.
    + exists key. by rewrite E2.
    + by apply (gated_same k).
  - intros sid v' [key Hl] H. rewrite E2 in Hl. rewrite Hv in H.
    destruct (sl_views k !! sid) as [v|] eqn:Evs; [|done]. injection H as <-. cbn [v_probing].
    pose proof (si_probe _ Hi sid v (ex_intro _ key Hl) Evs) as Hpr.
    assert (Hafter : probes_on (settled k pid p p') sid =
      probes_on k sid - (if pm_generation p =? sl_generation k
                         then claims_on (probe_on sid) (pm_claims p) else 0)).
    { unfold probes_on. rewrite E5, E3, (total_insert _ _ _ _ _ Hp), Ho, Ho'. cbn [orb].
      destruct (pm_generation p =? sl_generation k); cbn [negb]; lia. }
    rewrite Hafter.
    assert (Hnn : 0 <= probes_on (settled k pid p p') sid).
    { apply total_nonneg. intros q. destruct (_ || _); [done|]. unfold claims_on. lia. }
    rewrite Hafter in Hnn. destruct (pm_generation p =? sl_generation k); cbn [andb]; [|lia].
    pose proof (claims_on_nonneg (probe_on sid) (pm_claims p)).
    destruct (v_probing v); cbn [Z.b2z] in *;
      destruct (Z.ltb_spec 0 (claims_on (probe_on sid) (pm_claims p))); cbn [Z.b2z]; lia.
Qed.

(** ** Creating and dropping map entries *)

Definition sl_alloc (key : stormKey) (sid : nat) (k : skel) : skel :=
  Skel (sl_opts k) (<[key := sid]> (sl_scopes k)) (<[sid := View key false 0 0]> (sl_views k))
    (sl_generation k) (sl_queued k) (sl_permits k) (sl_parked k).

Lemma unclaimed k sid pid p c :
  storm_inv k -> sl_views k !! sid = None -> sl_permits k !! pid = Some p -> pm_once p = false ->
  c ∈ pm_claims p -> cl_scope c <> sid.
Proof. intros Hi Hn Hp Ho Hc <-. destruct (si_claims _ Hi _ _ _ Hp Ho Hc). congruence. Qed.

Lemma count_in_cons sid i l : count_in sid (i :: l) = (if decide (i = sid) then 1 else 0) + count_in sid l.
Proof. unfold count_in. rewrite filter_cons. case_decide; cbn [length]; lia. Qed.

Lemma count_in_zero sid l : sid ∉ l -> count_in sid l = 0.
Proof.
  induction l as [|i l IH]; intros Hn; [done|]. rewrite count_in_cons.
  apply not_elem_of_cons in Hn as [Hn1 Hn2]. rewrite decide_False by done. rewrite IH; done.
Qed.

Lemma alloc_inv k key sid :
  storm_inv k -> sl_scopes k !! key = None -> sl_views k !! sid = None ->
  storm_inv (sl_alloc key sid k).
Proof.
  intros Hi Hk Hs.
  assert (Hlive : forall sid', live (sl_alloc key sid k) sid' -> sid' = sid \/ live k sid').
  { intros sid' [key' H]. cbn in H. apply lookup_insert_Some in H as [[_ <-]|[_ H]]; [by left|].
    right. by exists key'. }
  assert (Hne : forall sid', live k sid' -> sid' <> sid).
  { intros sid' [key' H] ->. destruct (si_map _ Hi _ _ H) as (v & ? & _). congruence. }
  split; cbn [sl_alloc sl_scopes sl_views sl_generation sl_queued sl_permits sl_parked].
  - intros key' sid' [[<- <-]|[Hn H]]%lookup_insert_Some.
    + rewrite lookup_insert_eq. by eexists.
    + rewrite lookup_insert_ne; [by apply (si_map _ Hi)|].
      symmetry. apply Hne. by exists key'.
  - intros sid' v [[<- <-]|[Hn H]]%lookup_insert_Some; [|by apply (si_refs _ Hi)].
    cbn. symmetry. apply total_zero. intros pid p Hp. destruct (pm_once p) eqn:Eo; [done|].
    apply claims_on_zero. intros c Hc. apply bool_decide_eq_false_2. by eapply unclaimed.
  - intros sid' v [[<- <-]|[Hn H]]%lookup_insert_Some; [|by apply (si_queued _ Hi)].
    cbn. symmetry. apply total_zero. intros wid l Hl. apply count_in_zero. intros Hin.
    destruct (si_parked _ Hi _ _ _ Hl Hin). congruence.
  - apply Hi.
  - intros wid l sid' Hl Hin. destruct (si_parked _ Hi _ _ _ Hl Hin) as [v Hv].
    destruct (decide (sid = sid')) as [->|]; [by rewrite lookup_insert_eq; eexists|].
    rewrite lookup_insert_ne by done. by eexists.
  - intros pid p c Hp Ho Hc. destruct (si_claims _ Hi _ _ _ Hp Ho Hc) as [v Hv].
    rewrite lookup_insert_ne by (symmetry; by eapply unclaimed). by eexists.
  - apply Hi.
  - apply Hi.
  - intros pid p c Hp Ho Hg Hc. destruct (si_live _ Hi _ _ _ Hp Ho Hg Hc) as [[key' Hl] Hgt].
    split.
    + exists key'. cbn. rewrite lookup_insert_ne; congruence.
    + intros Hpr v. cbn. rewrite lookup_insert_ne by (symmetry; by eapply unclaimed). by apply Hgt.
  - intros sid' v Hl [[<- <-]|[Hn H]]%lookup_insert_Some.
    + cbn. symmetry. apply total_zero. intros pid p Hp.
      destruct (pm_once p) eqn:Eo; [done|]. cbn [orb]. destruct (negb _); [done|].
      apply claims_on_zero. intros c Hc. unfold probe_on, on_scope.
      rewrite bool_decide_eq_false_2; [done|]. by eapply unclaimed.
    + destruct (Hlive _ Hl) as [->|Hl']; [done|]. by apply (si_probe _ Hi).
Qed.

Lemma shrink_inv k m :
  storm_inv k -> (forall key sid, m !! key = Some sid -> sl_scopes k !! key = Some sid) ->
  (forall key sid, sl_scopes k !! key = Some sid -> m !! key = None ->
     exists v, sl_views k !! sid = Some v /\ v_refs v = 0) ->
  storm_inv (Skel (sl_opts k) m (sl_views k) (sl_generation k) (sl_queued k) (sl_permits k) (sl_parked k)).
Proof.
  intros Hi Hsub Hgone.
  split; cbn [sl_scopes sl_views sl_generation sl_queued sl_permits sl_parked]; try apply Hi.
  - intros key sid H. apply (si_map _ Hi). by apply Hsub.
  - intros pid p c Hp Ho Hg Hc. destruct (si_live _ Hi _ _ _ Hp Ho Hg Hc) as [[key Hl] Hgt].
    split; [|done]. exists key. cbn. destruct (m !! key) as [sid'|] eqn:E.
    + pose proof (Hsub _ _ E). congruence.
    + exfalso. destruct (Hgone _ _ Hl E) as (v & Hv & Hz). rewrite (si_refs _ Hi _ _ Hv) in Hz.
      unfold refs_on in Hz. rewrite (total_delete _ _ _ _ Hp), Ho in Hz.
      assert (1 <= claims_on (on_scope (cl_scope c)) (pm_claims p)).
      { apply list_elem_of_In, in_split in Hc as (l1 & l2 & ->).
        unfold claims_on. rewrite filter_app, length_app, filter_cons, decide_True.
        - cbn [length]. lia.
        - apply bool_decide_eq_true_2. done. }
      match type of Hz with _ + ?t = 0 => assert (0 <= t) end; [|lia].
      apply total_nonneg. intros q. destruct (pm_once q); [done|]. apply claims_on_nonneg.
  - intros sid v [key Hl] Hv. apply (si_probe _ Hi); [|done]. exists key. by apply Hsub.
Qed.

(** A new generation: no scope is live and no permit is current. *)
Lemma configure_inv k opts :
  storm_inv k ->
  storm_inv (Skel opts ∅ (sl_views k) (sl_generation k + 1) (sl_queued k) (sl_permits k) (sl_parked k)).
Proof.
  intros Hi. split; cbn [sl_scopes sl_views sl_generation sl_queued sl_permits sl_parked]; try apply Hi.
  - intros key sid H. by rewrite lookup_empty in H.
  - intros pid p Hp. pose proof (si_gen _ Hi _ _ Hp). lia.
  - pose proof (si_pos _ Hi). lia.
  - intros pid p c Hp Ho Hg Hc. pose proof (si_gen _ Hi _ _ Hp). lia.
  - intros sid v [key Hl]. cbn in Hl. by rewrite lookup_empty in Hl.
Qed.

(** ** Parking *)

Definition sl_park (wid : nat) (l : list nat) (k : skel) : skel :=
  let k := fold_left (fun k sid => sl_upd sid (v_add_queued 1) k) l k in
  Skel (sl_opts k) (sl_scopes k) (sl_views k) (sl_generation k) (sl_queued k + 1)
    (sl_permits k) (<[wid := l]> (sl_parked k)).
Definition sl_unpark (wid : nat) (l : list nat) (k : skel) : skel :=
  let k := fold_left (fun k sid => sl_upd sid (v_add_queued (-1)) k) l k in
  Skel (sl_opts k) (sl_scopes k) (sl_views k) (sl_generation k) (sl_queued k - 1)
    (sl_permits k) (delete wid (sl_parked k)).

Lemma queued_views n l k sid :
  sl_views (fold_left (fun k sid => sl_upd sid (v_add_queued n) k) l k) !! sid =
    v_add_queued (n * count_in sid l) <$> sl_views k !! sid.
Proof.
  revert k. induction l as [|i l IH]; intros k; cbn [fold_left].
  - change (count_in sid []) with 0. rewrite Z.mul_0_r.
    destruct (sl_views k !! sid) as [[]|]; cbn; [|done]. unfold v_add_queued. cbn. do 2 f_equal. lia.
  - rewrite IH, count_in_cons. unfold sl_upd. cbn [sl_views].
    case_decide as Hd; [subst i; rewrite lookup_alter_eq|by rewrite lookup_alter_ne].
    destruct (sl_views k !! sid); cbn; [|done]. unfold v_add_queued. cbn. do 2 f_equal. lia.
Qed.

Lemma requeue_inv k n l q pk :
  storm_inv k ->
  (forall sid v, sl_views k !! sid = Some v ->
     v_queued v + n * count_in sid l = total (count_in sid) pk) ->
  q = Z.of_nat (size pk) ->
  (forall wid l' sid, pk !! wid = Some l' -> sid ∈ l' -> is_Some (sl_views k !! sid)) ->
  storm_inv (let k1 := fold_left (fun k sid => sl_upd sid (v_add_queued n) k) l k in
             Skel (sl_opts k1) (sl_scopes k1) (sl_views k1) (sl_generation k1) q (sl_permits k1) pk).
Proof.
  intros Hi Hq Hsz Hpk. cbv zeta.
  destruct (fold_fields (fun k sid => sl_upd sid (v_add_queued n) k) l k) as (E1 & E2 & E3 & E4 & E5 & E6);
    [done|].
  pose proof (queued_views n l k) as Hv. rewrite E1, E2, E3, E5.
  set (k1 := fold_left _ l k) in *. clearbody k1. clear E1 E2 E3 E4 E5 E6.
  assert (Hback : forall sid v', sl_views k1 !! sid = Some v' ->
    exists v, sl_views k !! sid = Some v /\ v_key v = v_key v' /\ v_refs v = v_refs v' /\
      v_probing v = v_probing v' /\ v_queued v' = v_queued v + n * count_in sid l).
  { intros sid v' H. rewrite Hv in H. destruct (sl_views k !! sid) as [v|]; [|done].
    injection H as <-. by exists v. }
  assert (Hfwd : forall sid, is_Some (sl_views k !! sid) -> is_Some (sl_views k1 !! sid)).
  { intros sid [v Hs]. rewrite Hv, Hs. by eexists. }
  split; cbn [sl_scopes sl_views sl_generation sl_queued sl_permits sl_parked].
  - intros key sid Hk. destruct (si_map _ Hi _ _ Hk) as (v & Hvl & Hkey).
    rewrite Hv, Hvl. by eexists.
  - intros sid v' H. destruct (Hback _ _ H) as (v & Hvl & _ & <- & _).
    rewrite (si_refs _ Hi _ _ Hvl). done.
  - intros sid v' H. destruct (Hback _ _ H) as (v & Hvl & _ & _ & _ & ->). by apply Hq.
  - done.
  - intros wid l' sid Hl Hin. by eapply Hfwd, Hpk.
  - intros pid p c Hp Ho Hc. apply Hfwd. by apply (si_claims _ Hi pid p).
  - apply Hi.
  - apply Hi.
  - intros pid p c Hp Ho Hg Hc. destruct (si_live _ Hi _ _ _ Hp Ho Hg Hc) as [Hl Hgt].
    split; [done|]. apply (gated_same k); [done| |exact Hgt]. cbn. intros sid v' H.
    destruct (Hback _ _ H) as (v & ? & ? & _). eauto.
  - intros sid v' Hl H. destruct (Hback _ _ H) as (v & Hvl & _ & _ & <- & _).
    by rewrite (si_probe _ Hi sid v Hl Hvl).
Qed.

Lemma park_inv k wid l :
  storm_inv k -> sl_parked k !! wid = None -> (forall sid, sid ∈ l -> is_Some (sl_views k !! sid)) ->
  storm_inv (sl_park wid l k).
Proof.
  intros Hi Hn Hl. unfold sl_park.
  destruct (fold_fields (fun k sid => sl_upd sid (v_add_queued 1) k) l k) as (_ & _ & _ & E4 & _ & E6);
    [done|]. rewrite E4, E6.
  apply (requeue_inv k 1 l); [done| | |].
  - intros sid v Hv. rewrite total_insert_fresh by done. rewrite (si_queued _ Hi _ _ Hv).
    unfold parked_on. lia.
  - rewrite map_size_insert_None by done. rewrite (si_total _ Hi). lia.
  - intros w l' sid [[_ <-]|[_ H]]%lookup_insert_Some Hin; [by apply Hl|by eapply si_parked].
Qed.

Lemma unpark_inv k wid l :
  storm_inv k -> sl_parked k !! wid = Some l -> storm_inv (sl_unpark wid l k).
Proof.
  intros Hi Hs. unfold sl_unpark.
  destruct (fold_fields (fun k sid => sl_upd sid (v_add_queued (-1)) k) l k) as (_ & _ & _ & E4 & _ & E6);
    [done|]. rewrite E4, E6.
  apply (requeue_inv k (-1) l); [done| | |].
  - intros sid v Hv. rewrite (si_queued _ Hi _ _ Hv). unfold parked_on.
    rewrite (total_delete _ _ _ _ Hs). lia.
  - rewrite map_size_delete_Some by eauto. rewrite (si_total _ Hi).
    assert (size (sl_parked k) <> 0%nat) by (intros E; apply map_size_empty_inv in E; by rewrite E in Hs).
    lia.
  - intros w l' sid [_ H]%lookup_delete_Some Hin. by eapply si_parked.
Qed.

(** ** Granting a permit *)

(** What claiming a list of scopes does, given which facets are open. *)
Definition claim_view (c : stormClaim) (k : skel) : skel :=
  sl_upd (cl_scope c) (v_add_refs 1)
    (if cl_probe c then sl_upd (cl_scope c) (v_set_probing true) k else k).

Lemma claim_views cs k sid :
  sl_views (fold_left (fun k c => claim_view c k) cs k) !! sid =
    (fun v => View (v_key v) (if 0 <? claims_on (probe_on sid) cs then true else v_probing v)
       (v_refs v + claims_on (on_scope sid) cs) (v_queued v)) <$> sl_views k !! sid.
Proof.
  revert k. induction cs as [|c cs IH]; intros k; cbn [fold_left].
  - change (claims_on (on_scope sid) []) with 0. destruct (sl_views k !! sid) as [[]|]; cbn; [|done].
    do 2 f_equal. lia.
  - rewrite IH, !claims_on_cons. unfold claim_view, sl_upd.
    pose proof (claims_on_nonneg (probe_on sid) cs) as Hnn.
    change (probe_on sid c) with (on_scope sid c && cl_probe c).
    change (on_scope sid c) with (bool_decide (cl_scope c = sid)).
    destruct (decide (cl_scope c = sid)) as [<-|Hne].
    + rewrite bool_decide_eq_true_2 by done. cbn [andb].
      destruct (cl_probe c); cbn [sl_views]; rewrite !lookup_alter_eq;
        destruct (sl_views k !! cl_scope c); cbn; try done; do 2 f_equal; try lia;
        destruct (Z.ltb_spec 0 (claims_on (probe_on (cl_scope c)) cs)); try done;
        destruct (Z.ltb_spec 0 (1 + claims_on (probe_on (cl_scope c)) cs)); (done || lia).
    + rewrite bool_decide_eq_false_2 by done. cbn [andb].
      destruct (cl_probe c); cbn [sl_views]; by rewrite !lookup_alter_ne.
Qed.

Lemma claim_inv k pid p cs :
  storm_inv k -> sl_permits k !! pid = None ->
  p = MkPermit (sl_generation k) cs false false ->
  NoDup (cl_scope <$> cs) ->
  (forall c, c ∈ cs -> live k (cl_scope c) /\ is_Some (sl_views k !! cl_scope c) /\ gated k c) ->
  (forall c v, c ∈ cs -> cl_probe c = true -> sl_views k !! cl_scope c = Some v -> v_probing v = false) ->
  storm_inv (sl_set_permits (<[pid := p]> (sl_permits k)) (fold_left (fun k c => claim_view c k) cs k)).
Proof.
  intros Hi Hn Hp Hnd Hcs Hidle.
  destruct (fold_fields (fun k c => claim_view c k) cs k) as (E1 & E2 & E3 & E4 & E5 & E6);
    [intros k' c; unfold claim_view; by destruct (cl_probe c)|].
  pose proof (claim_views cs k) as Hv.
  unfold sl_set_permits. rewrite E1, E2, E3, E4, E6.
  set (k1 := fold_left _ cs k) in *. clearbody k1. clear E1 E2 E3 E4 E5 E6.
  assert (Hback : forall sid v', sl_views k1 !! sid = Some v' ->
    exists v, sl_views k !! sid = Some v /\ v_key v = v_key v').
  { intros sid v' H. rewrite Hv in H. destruct (sl_views k !! sid) as [v|]; [|done].
    injection H as <-. by exists v. }
  assert (Hfwd : forall sid, is_Some (sl_views k !! sid) -> is_Some (sl_views k1 !! sid)).
  { intros sid [v Hs]. rewrite Hv, Hs. by eexists. }
  assert (Hone : forall sid, claims_on (probe_on sid) cs <= 1).
  { intros sid. clear -Hnd. induction cs as [|c cs IH]; [done|]. cbn in Hnd.
    apply NoDup_cons in Hnd as [Hc Hnd]. rewrite claims_on_cons.
    change (probe_on sid c) with (bool_decide (cl_scope c = sid) && cl_probe c).
    destruct (decide (cl_scope c = sid)) as [<-|Hne].
    - rewrite bool_decide_eq_true_2 by done. rewrite claims_on_zero; [destruct (cl_probe c); cbn; lia|].
      intros c' Hc'. unfold probe_on, on_scope. rewrite bool_decide_eq_false_2; [done|].
      intros Heq. apply Hc. rewrite <- Heq. by apply list_elem_of_fmap_2.
    - rewrite bool_decide_eq_false_2 by done. cbn. apply IH. done. }
  assert (Hgated : forall c, gated k c ->
    gated (Skel (sl_opts k) (sl_scopes k) (sl_views k1) (sl_generation k) (sl_queued k)
      (<[pid:=p]> (sl_permits k)) (sl_parked k)) c).
  { intros c. apply (gated_same k); [done|exact Hback]. }
  split; cbn [sl_scopes sl_views sl_generation sl_queued sl_permits sl_parked].
  - intros key sid Hk. destruct (si_map _ Hi _ _ Hk) as (v & Hvl & Hkey).
    rewrite Hv, Hvl. by eexists.
  - intros sid v' H. rewrite Hv in H. destruct (sl_views k !! sid) as [v|] eqn:Evs; [|done].
    injection H as <-. cbn [v_refs]. rewrite (si_refs _ Hi _ _ Evs).
    unfold refs_on. cbn [sl_permits]. rewrite total_insert_fresh by done. subst p. cbn. lia.
  - intros sid v' H. rewrite Hv in H. destruct (sl_views k !! sid) as [v|] eqn:Evs; [|done].
    injection H as <-. by rewrite (si_queued _ Hi _ _ Evs).
  - apply Hi.
  - intros wid l sid Hl Hin. by eapply Hfwd, si_parked.
  - intros pid' q c Hq Ho Hc. apply Hfwd. apply lookup_insert_Some in Hq as [[<- <-]|[_ Hq]].
    + subst p. by apply Hcs.
    + by apply (si_claims _ Hi pid' q).
  - intros pid' q [[<- <-]|[_ Hq]]%lookup_insert_Some; [by subst p|by apply (si_gen _ Hi pid')].
  - apply Hi.
  - intros pid' q c Hq Ho Hg Hc. apply lookup_insert_Some in Hq as [[<- <-]|[_ Hq]].
    + subst p. destruct (Hcs c Hc) as (Hl & _ & Hgt). split; [done|]. by apply Hgated.
    + destruct (si_live _ Hi _ _ _ Hq Ho Hg Hc) as [Hl Hgt]. split; [done|]. by apply Hgated.
  - intros sid v' Hl H. rewrite Hv in H. destruct (sl_views k !! sid) as [v|] eqn:Evs; [|done].
    injection H as <-. cbn [v_probing]. pose proof (si_probe _ Hi sid v Hl Evs) as Hpr.
    unfold probes_on. cbn [sl_permits sl_generation]. rewrite total_insert_fresh by done.
    fold (probes_on k sid). rewrite <- Hpr. subst p. cbn [pm_once pm_generation pm_claims orb].
    rewrite Z.eqb_refl. cbn [negb].
    destruct (Z.ltb_spec 0 (claims_on (probe_on sid) cs)) as [Hpos|Hneg].
    + assert (v_probing v = false) as ->; [|specialize (Hone sid); cbn; lia].
      unfold claims_on in Hpos. destruct (filter _ cs) as [|c fl] eqn:Ef; [cbn in Hpos; lia|].
      assert (c ∈ filter (fun c => probe_on sid c = true) cs) as Hc by (rewrite Ef; by left).
      apply list_elem_of_filter in Hc as [Hc Hin]. unfold probe_on, on_scope in Hc.
      apply andb_true_iff in Hc as [Hc1%bool_decide_eq_true Hc2]. subst sid.
      by eapply Hidle.
    + pose proof (claims_on_nonneg (probe_on sid) cs). lia.
Qed.

(** ** Model scopes never carry the quota facet *)

Definition nq (x : stormScope) : Prop := sk_modelScope (sc_key x) = true -> sc_quota x = false.
Definition all_nq (s : stormState) : Prop := forall sid x, ss_heap s !! sid = Some x -> nq x.

Lemma nq_scope_of s sid : all_nq s -> nq (scope_of s sid).
Proof. intros H. unfold scope_of. destruct (ss_heap s !! sid) eqn:E; [by eapply H|done]. Qed.

Lemma nq_upd s sid f : (forall x, nq x -> nq (f x)) -> all_nq s -> all_nq (upd_scope sid f s).
Proof.
  intros Hf H i x Hx. cbn in Hx. apply lookup_alter_Some in Hx as [(<- & y & Hy & ->)|[_ Hx]].
  - apply Hf. by eapply H.
  - by eapply H.
Qed.

Lemma nq_write s sid y : nq y -> all_nq s -> all_nq (upd_scope sid (fun _ => y) s).
Proof. intros Hy. by apply nq_upd. Qed.

Lemma nq_fold {A} (f : stormState -> A -> stormState) l s :
  (forall s a, all_nq s -> all_nq (f s a)) -> all_nq s -> all_nq (fold_left f l s).
Proof. intros Hf. revert s. induction l; intros s H; cbn; auto. Qed.

Definition kq (x : stormScope) := (sc_key x, sc_quota x).
Lemma nq_kq x y : kq x = kq y -> nq y -> nq x.
Proof. unfold nq. intros [= -> ->]. done. Qed.

Lemma totals_kq x now w : kq (totals x now w).1.1 = kq x.
Proof. unfold totals. by destruct (_ =? _). Qed.
Lemma threshold_kq x now opts : kq (threshold x now opts).1 = kq x.
Proof.
  unfold threshold. pose proof (totals_kq x now (so_Window opts)) as H.
  by destruct (totals x now (so_Window opts)) as [[??]?].
Qed.
Lemma add_errorRequests_kq n e x : kq (add_errorRequests n e x) = kq x.
Proof. unfold add_errorRequests. by destruct (foldCounters _ _ _). Qed.
Lemma observeRequest_kq sid x now w o i : kq (observeRequest sid x now w o i).1 = kq x.
Proof.
  unfold observeRequest. destruct o as [slots|]; cbn [fst]; [|apply add_errorRequests_kq].
  destruct (_ && _); cbn [fst]; [done|]. rewrite add_errorRequests_kq.
  destruct (_ && _); [apply add_errorRequests_kq|done].
Qed.
Lemma sample_kq x now w failed : kq (sample x now w failed) = kq x.
Proof.
  unfold sample. pose proof (totals_kq x now w) as H. destruct (totals x now w) as [[y ?] ?].
  cbn [fst] in H. rewrite <- H.
  destruct (sb_epoch (bucket_at y (stormEpoch now w)) =? stormEpoch now w);
    destruct (foldCounters _ _ _), failed; try destruct (foldCounters _ _ _); done.
Qed.

Lemma modelFold_nq s sid now : all_nq s -> all_nq (modelFold s sid now).1.1.
Proof.
  intros H. unfold modelFold. destruct (_ || _); [done|].
  pose proof (threshold_kq (scope_of s sid) now (ss_opts s)) as E.
  destruct (threshold _ _ _). cbn [fst] in *. apply nq_write; [|done].
  eapply nq_kq; [exact E|]. by apply nq_scope_of.
Qed.

Lemma allActive_nq s provider now : all_nq s -> all_nq (allActiveModelsAffected s provider now).1.
Proof.
  intros H. unfold allActiveModelsAffected.
  assert (all_nq (affectedModels s provider now).1.1) as H'.
  2: { by destruct (affectedModels s provider now) as [[??]?]. }
  unfold affectedModels. generalize (map_to_list (ss_scopes s)). intros l.
  change (all_nq s) with (all_nq (s, 0, 0).1.1) in H. revert H. generalize (s, 0, 0). clear s.
  induction l as [|kv l IH]; intros [[s1 a] b] Hs; [done|]. cbn [fold_left]. apply IH.
  case_match; [done|]. pose proof (modelFold_nq s1 kv.2 now Hs) as Hm.
  by destruct (modelFold s1 kv.2 now) as [[s2 ia] ib].
Qed.

Lemma opens_nq s sid now o f : all_nq s -> all_nq (opens s sid now o f).1.
Proof.
  intros H. unfold opens. destruct (_ && _); [|done].
  pose proof (threshold_kq (scope_of s sid) now (ss_opts s)) as E.
  destruct (threshold _ _ _) as [x' reached]. cbn [fst] in E.
  assert (all_nq (upd_scope sid (fun _ => x') s)).
  { apply nq_write; [|done]. eapply nq_kq; [exact E|]. by apply nq_scope_of. }
  destruct reached; cbn [negb]; [|done]. destruct (sk_modelScope _); [done|]. by apply allActive_nq.
Qed.

Lemma record_samples_nq s claims now failed o i :
  all_nq s -> all_nq (record_samples s claims now failed o i).1.
Proof.
  revert s o i. induction claims as [|c cs IH]; intros s o i H; [done|]. cbn [record_samples].
  pose proof (sample_kq (scope_of s (cl_scope c)) now (so_Window (ss_opts s)) failed) as H1.
  pose proof (nq_scope_of s (cl_scope c) H) as H0.
  set (y := sample _ _ _ _) in *. clearbody y.
  assert (nq y) as Hy by (by eapply nq_kq).
  destruct failed; [|by apply IH, nq_write].
  pose proof (observeRequest_kq (cl_scope c) y now (so_Window (ss_opts s)) o i) as H2.
  destruct (observeRequest _ _ _ _ _ _) as [z o']. cbn [fst] in H2.
  apply IH, nq_write; [|done]. by eapply nq_kq.
Qed.

Lemma verdict_nq opts x now o f reason ra r : nq x -> nq (probe_verdict opts x now o f reason ra r).
Proof.
  unfold nq, probe_verdict. intros H. destruct (o && f); [done|]. destruct o; [|done].
  repeat case_match; cbn; intros; simplify_eq/=; auto.
Qed.

Lemma settle_claim_nq s c now o f reason ra r :
  all_nq s -> all_nq (settle_claim s c now o f reason ra r).1.1.
Proof.
  intros H. unfold settle_claim. destruct (negb (storm_gates s _) && _); [done|].
  set (s1 := if cl_probe c && sc_probing _ then _ else _).
  assert (all_nq s1.1) as H1.
  { unfold s1. destruct (_ && _); cbn [fst]; [|done]. by apply nq_upd. }
  destruct s1 as [s1 ch]. cbn [fst] in H1.
  destruct (cl_probe c && _ && _); cbn [fst].
  { apply nq_upd; [|done]. intros x. apply verdict_nq. }
  pose proof (opens_nq s1 (cl_scope c) now o f H1) as Ho.
  destruct (opens s1 (cl_scope c) now o f) as [s2 open]. cbn [fst] in Ho.
  destruct open; cbn [fst]; [by apply nq_upd|]. destruct (_ && _); cbn [fst]; [by apply nq_upd|done].
Qed.

Lemma settle_claims_nq s cs now o f reason ra rs :
  all_nq s -> all_nq (settle_claims s cs now o f reason ra rs).1.1.
Proof.
  revert s rs. induction cs as [|c cs IH]; intros s rs H; [done|]. cbn [settle_claims].
  pose proof (settle_claim_nq s c now o f reason ra (default fzero (head rs)) H) as H1.
  destruct (settle_claim _ _ _ _ _ _ _ _) as [[s1 c1] a1]. cbn [fst] in H1.
  specialize (IH s1 (tail rs) H1). by destruct (settle_claims s1 _ _ _ _ _ _ _) as [[??]?].
Qed.

Lemma quota_claims_nq s cs now reason ra rs :
  all_nq s -> all_nq (quota_settle_claims s cs now reason ra rs).1.
Proof.
  revert s rs. induction cs as [|c cs IH]; intros s rs H; [done|]. cbn [quota_settle_claims].
  pose proof (nq_scope_of s (cl_scope c) H) as Hx.
  assert (nq (quota_settle_scope (ss_opts s) (scope_of s (cl_scope c)) c now reason ra
    (default fzero (head rs))).1) as Hy.
  { revert Hx. generalize (scope_of s (cl_scope c)) as x. intros x Hx. unfold quota_settle_scope.
    set (x1 := if cl_probe c && sc_probing x then _ else _).
    assert (nq x1.1) as H1 by (unfold x1; by destruct (_ && _)).
    destruct x1 as [x1 ch]. cbn [fst] in H1.
    destruct (sk_modelScope (sc_key x1)) eqn:E; cbn [fst]; [done|].
    repeat case_match; unfold nq; cbn; intros; try congruence. }
  destruct (quota_settle_scope _ _ _ _ _ _ _) as [x ch]. cbn [fst] in Hy.
  specialize (IH (upd_scope (cl_scope c) (fun _ => x) s) (tail rs) (nq_write _ _ _ Hy H)).
  by destruct (quota_settle_claims _ _ _ _ _ _).
Qed.

(** ** The operations *)

Definition sl_set_queued (q : Z) (k : skel) : skel :=
  Skel (sl_opts k) (sl_scopes k) (sl_views k) (sl_generation k) q (sl_permits k) (sl_parked k).
Definition sl_set_parked (m : gmap nat (list nat)) (k : skel) : skel :=
  Skel (sl_opts k) (sl_scopes k) (sl_views k) (sl_generation k) (sl_queued k) (sl_permits k) m.

Lemma fold_set_queued n q l k :
  fold_left (fun k sid => sl_upd sid (v_add_queued n) k) l (sl_set_queued q k) =
  sl_set_queued q (fold_left (fun k sid => sl_upd sid (v_add_queued n) k) l k).
Proof. revert k. induction l as [|i l IH]; intros k; [done|]. cbn [fold_left]. by rewrite <- IH. Qed.

Lemma skel_leave s wid :
  skel_of (leave_queue s wid) =
    match ss_parked s !! wid with Some l => sl_unpark wid l (skel_of s) | None => skel_of s end.
Proof.
  unfold leave_queue. destruct (ss_parked s !! wid) as [l|]; [|done].
  change (skel_of (set_ss_parked (delete wid (ss_parked s)) (unqueue s l)))
    with (sl_set_parked (delete wid (ss_parked s)) (skel_of (unqueue s l))).
  unfold unqueue.
  rewrite (fold_skel _ (fun k sid => sl_upd sid (v_add_queued (-1)) k)) by (intros; by apply skel_upd).
  change (skel_of (set_ss_queued (ss_queued s - 1) s))
    with (sl_set_queued (ss_queued s - 1) (skel_of s)).
  rewrite fold_set_queued. unfold sl_unpark.
  destruct (fold_fields (fun k sid => sl_upd sid (v_add_queued (-1)) k) l (skel_of s))
    as (_ & _ & _ & -> & _ & ->); done.
Qed.

Lemma leave_inv s wid : storm_inv (skel_of s) -> storm_inv (skel_of (leave_queue s wid)).
Proof.
  intros H. rewrite skel_leave. destruct (ss_parked s !! wid) as [l|] eqn:E; [|done].
  by apply unpark_inv.
Qed.

Lemma leave_nq s wid : all_nq s -> all_nq (leave_queue s wid).
Proof.
  intros H. unfold leave_queue. destruct (ss_parked s !! wid); [|done].
  assert (all_nq (unqueue s l)); [|done]. unfold unqueue. apply nq_fold; [|done].
  intros s' sid H'. by apply nq_upd.
Qed.

Lemma leave_parked s wid : ss_parked (leave_queue s wid) !! wid = None.
Proof.
  unfold leave_queue. destruct (ss_parked s !! wid) eqn:E; [|done]. cbn. apply lookup_delete_eq.
Qed.

(** *** scopesFor *)

Definition sl_set_scopes (m : gmap stormKey nat) (k : skel) : skel :=
  Skel (sl_opts k) m (sl_views k) (sl_generation k) (sl_queued k) (sl_permits k) (sl_parked k).

(** A scope that eviction may drop: no open gate, no reference, nobody queued. *)
Definition idle (x : stormScope) : Prop :=
  sc_active x = false /\ sc_quota x = false /\ sc_refs x = 0 /\ sc_queued x = 0.

Definition same_but_timer (x y : stormScope) : Prop :=
  exists t, x = set_sc_timer t y.

Record evicted (keys : list stormKey) (s0 s : stormState) : Prop := {
  ev_skel : exists m, skel_of s = sl_set_scopes m (skel_of s0);
  ev_sub : forall key sid, ss_scopes s !! key = Some sid -> ss_scopes s0 !! key = Some sid;
  ev_gone : forall key sid, ss_scopes s0 !! key = Some sid -> ss_scopes s !! key = None ->
    idle (scope_of s0 sid);
  ev_heap : forall sid, same_but_timer (scope_of s sid) (scope_of s0 sid);
  ev_req : forall key sid, ss_scopes s0 !! key = Some sid -> requested keys key = true ->
    ss_scopes s !! key = Some sid;
}.

Lemma evicted_refl keys s : evicted keys s s.
Proof.
  split; [by exists (ss_scopes s)|done|congruence| |done].
  intros sid. exists (sc_timer (scope_of s sid)). by destruct (scope_of s sid).
Qed.

Lemma evict_step s0 s now keys key sid :
  evicted keys s0 s -> ss_scopes s0 !! key = Some sid ->
  evicted keys s0 (if evictable (ss_opts s) now keys key (scope_of s sid) then
      set_ss_scopes (delete key (ss_scopes s))
        (upd_scope sid (fun x => set_sc_timer (stop (sc_timer x)) x) s)
    else s).
Proof.
  intros [[m Hsk] Hsub Hgone Hheap Hreq] Hkey. destruct (evictable _ _ _ _ _) eqn:Ev; [|by split; eauto].
  split.
  - exists (delete key (ss_scopes s)).
    pose proof (skel_upd_same sid (fun x => set_sc_timer (stop (sc_timer x)) x) s) as E.
    rewrite Hsk in E. specialize (E ltac:(done)). revert E. unfold skel_of, sl_set_scopes. cbn.
    intros [= -> _ -> -> -> -> ->]. done.
  - intros key' sid' H. cbn in H. apply lookup_delete_Some in H as [_ H]. by apply Hsub.
  - intros key' sid' H0 Hn. cbn in Hn. apply lookup_delete_None in Hn as [<-|Hn]; [|by apply (Hgone key')].
    assert (sid' = sid) as -> by congruence. destruct (Hheap sid) as [t Ht].
    rewrite Ht in Ev. unfold evictable in Ev. cbn in Ev. mv_split.
    repeat match goal with H : _ && _ = true |- _ => apply andb_true_iff in H as [? ?] end. mv_split.
    unfold idle. split_and!; try done; by apply Z.eqb_eq.
  - intros i. cbn. destruct (Hheap i) as [t Ht].
    unfold scope_of, set_ss_scopes, upd_scope in *. cbn.
    destruct (decide (sid = i)) as [<-|].
    + rewrite lookup_alter_eq. destruct (ss_heap s !! sid) as [x|]; cbn in *; [|by exists t].
      rewrite Ht. by exists (stop t).
    + rewrite lookup_alter_ne by done. by exists t.
  - intros key' sid' H0 Hr. cbn. rewrite lookup_delete_ne; [by apply Hreq|]. intros <-.
    unfold evictable in Ev. rewrite Hr in Ev. by rewrite andb_false_r in Ev.
Qed.

Lemma evict_spec s now keys : evicted keys s (evict_scopes s now keys).
Proof.
  unfold evict_scopes.
  assert (forall l s', (forall kv, kv ∈ l -> ss_scopes s !! kv.1 = Some kv.2) -> evicted keys s s' ->
    evicted keys s (fold_left (fun s kv =>
      if evictable (ss_opts s) now keys kv.1 (scope_of s kv.2) then
        set_ss_scopes (delete kv.1 (ss_scopes s))
          (upd_scope kv.2 (fun x => set_sc_timer (stop (sc_timer x)) x) s)
      else s) l s')) as H.
  { induction l as [|[key sid] l IH]; intros s' Hl He; [done|]. cbn [fold_left fst snd]. apply IH.
    - intros kv Hkv. apply Hl. by right.
    - apply evict_step; [done|]. apply (Hl (key, sid)). by left. }
  apply H; [|apply evicted_refl]. intros [key sid] Hkv. by apply elem_of_map_to_list in Hkv.
Qed.

Lemma views_lookup s sid x : ss_heap s !! sid = Some x -> sl_views (skel_of s) !! sid = Some (view_of x).
Proof. intros H. cbn. unfold views. by rewrite lookup_fmap, H. Qed.
Lemma views_none s sid : ss_heap s !! sid = None -> sl_views (skel_of s) !! sid = None.
Proof. intros H. cbn. unfold views. by rewrite lookup_fmap, H. Qed.

Lemma evicted_inv keys s0 s : evicted keys s0 s -> storm_inv (skel_of s0) -> storm_inv (skel_of s).
Proof.
  intros [[m Hsk] Hsub Hgone Hheap _] Hi. rewrite Hsk.
  assert (m = ss_scopes s) as -> by (by injection Hsk).
  apply shrink_inv; [done|exact Hsub|]. intros key sid H Hn.
  destruct (si_map _ Hi _ _ H) as (v & Hv & _). exists v. split; [done|].
  destruct (Hgone _ _ H Hn) as (_ & _ & Hr & _). revert Hv Hr. cbn. unfold views, scope_of.
  rewrite lookup_fmap. destruct (ss_heap s0 !! sid); [|done]. cbn. by intros [= <-].
Qed.

Lemma evicted_nq keys s0 s : evicted keys s0 s -> all_nq s0 -> all_nq s.
Proof.
  intros [_ _ _ Hheap _] H sid x Hx. destruct (Hheap sid) as [t Ht].
  rewrite (scope_of_some _ _ _ Hx) in Ht. subst x.
  exact (nq_scope_of s0 sid H).
Qed.

(** Allocating the requested scopes. *)
Record allocated (s0 s : stormState) (keys : list stormKey) (sids : list nat) : Prop := {
  al_inv : storm_inv (skel_of s);
  al_nq : all_nq s;
  al_keys : Forall2 (fun key sid => ss_scopes s !! key = Some sid) keys sids;
  al_old : forall key sid, ss_scopes s0 !! key = Some sid -> ss_scopes s !! key = Some sid;
  al_size : Z.of_nat (size (ss_scopes s)) <= Z.of_nat (size (ss_scopes s0)) + missing s0 keys;
  al_opts : ss_opts s = ss_opts s0;
  al_parked : ss_parked s = ss_parked s0;
  al_permits : ss_permits s = ss_permits s0;
  al_gen : ss_generation s = ss_generation s0;
  al_heap : forall sid x, ss_heap s0 !! sid = Some x -> ss_heap s !! sid = Some x;
}.

Lemma scope_for_key_spec s now key :
  storm_inv (skel_of s) -> all_nq s ->
  let '(s', sid) := scope_for_key s now key in
  allocated s s' [key] [sid].
Proof.
  intros Hi Hnq. unfold scope_for_key. destruct (ss_scopes s !! key) as [sid|] eqn:E.
  - split; try done; [by repeat constructor|].
    unfold missing. lia.
  - pose proof (is_fresh (dom (ss_heap s))) as Hf. set (sid := fresh _) in *. clearbody sid.
    apply not_elem_of_dom in Hf.
    split; cbn [ss_scopes ss_heap set_ss_scopes set_ss_heap]; try done.
    + assert (skel_of (set_ss_scopes (<[key:=sid]> (ss_scopes s))
        (set_ss_heap (<[sid:=newScope key now]> (ss_heap s)) s)) = sl_alloc key sid (skel_of s)) as ->.
      { unfold skel_of, sl_alloc, views. cbn. by rewrite fmap_insert. }
      apply alloc_inv; [done|done|]. by apply views_none.
    + intros i x Hx. cbn in Hx. apply lookup_insert_Some in Hx as [[<- <-]|[_ Hx]];
        [done|by eapply Hnq].
    + repeat constructor. cbn. apply lookup_insert_eq.
    + intros key' sid' H. rewrite lookup_insert_ne; congruence.
    + unfold missing. rewrite map_size_insert_None by done. rewrite filter_cons, decide_True by done.
      cbn [length]. lia.
    + intros i x Hx. rewrite lookup_insert_ne; congruence.
Qed.

Lemma scopes_for_keys_spec s now keys :
  storm_inv (skel_of s) -> all_nq s ->
  let '(s', sids) := scopes_for_keys s now keys in
  allocated s s' keys sids.
Proof.
  revert s. induction keys as [|key keys IH]; intros s Hi Hnq; cbn [scopes_for_keys].
  - split; try done. unfold missing. lia.
  - pose proof (scope_for_key_spec s now key Hi Hnq) as H1. destruct (scope_for_key s now key) as [s1 sid].
    destruct H1 as [A1 A2 A3 A4 A5 A6 A7 A8 A9 A10]. specialize (IH s1 A1 A2).
    destruct (scopes_for_keys s1 now keys) as [s2 sids]. destruct IH as [B1 B2 B3 B4 B5 B6 B7 B8 B9 B10].
    split; try done; try congruence.
    + constructor; [|done]. apply B4. by inversion A3.
    + intros key' sid' H. by apply B4, A4.
    + etransitivity; [exact B5|]. revert A5. unfold missing. rewrite !filter_cons, filter_nil.
      assert (length (filter (fun key0 => ss_scopes s1 !! key0 = None) keys) <=
              length (filter (fun key0 => ss_scopes s !! key0 = None) keys))%nat.
      { clear -A4. induction keys as [|k l IH]; [done|]. rewrite !filter_cons.
        repeat case_decide; cbn; try lia.
        exfalso. destruct (ss_scopes s !! k) as [sid|] eqn:E; [|done].
        apply A4 in E. congruence. }
      case_decide; cbn [length]; lia.
    + intros i x Hx. by apply B10, A10.
Qed.

(** A scope with an open gate or an unsettled permit. *)
Definition pinned (x : stormScope) : Prop :=
  sc_active x = true \/ sc_quota x = true \/ sc_refs x <> 0.
Definition kept (s0 s : stormState) : Prop :=
  forall key sid, ss_scopes s0 !! key = Some sid -> pinned (scope_of s0 sid) ->
    ss_scopes s !! key = Some sid.

Record prepared (s0 s : stormState) : Prop := {
  pp_inv : storm_inv (skel_of s);
  pp_nq : all_nq s;
  pp_kept : kept s0 s;
  pp_opts : ss_opts s = ss_opts s0;
  pp_parked : ss_parked s = ss_parked s0;
  pp_permits : ss_permits s = ss_permits s0;
  pp_gen : ss_generation s = ss_generation s0;
  pp_size : Z.of_nat (size (ss_scopes s0)) <= so_MaxScopes (ss_opts s0) ->
    Z.of_nat (size (ss_scopes s)) <= so_MaxScopes (ss_opts s0);
}.

Lemma prepared_refl s : storm_inv (skel_of s) -> all_nq s -> prepared s s.
Proof. intros Hi Hq. split; [done|done|intros key sid H _; done|done|done|done|done|done]. Qed.

Lemma evicted_prepared keys s0 s :
  evicted keys s0 s -> storm_inv (skel_of s0) -> all_nq s0 -> prepared s0 s.
Proof.
  intros He Hi Hq. pose proof (evicted_inv _ _ _ He Hi). pose proof (evicted_nq _ _ _ He Hq).
  destruct He as [[m Hsk] Hsub Hgone Hheap Hreq].
  injection Hsk as E1 E2 E3 E4 E5 E6 E7. split; try done.
  - intros key sid Hk Hid. destruct (ss_scopes s !! key) as [sid'|] eqn:E.
    + pose proof (Hsub _ _ E). congruence.
    + exfalso. destruct (Hgone _ _ Hk E) as (Ha & Hb & Hr & _).
      destruct Hid as [?|[?|?]]; congruence.
  - intros Hsz. etransitivity; [|exact Hsz]. apply inj_le, map_subseteq_size.
    apply map_subseteq_spec. exact Hsub.
Qed.

Lemma missing_evicted keys s0 s : evicted keys s0 s -> missing s keys = missing s0 keys.
Proof.
  intros [_ Hsub _ _ Hreq]. unfold missing. do 2 f_equal.
  assert (forall key, requested keys key = true ->
    (ss_scopes s !! key = None <-> ss_scopes s0 !! key = None)) as H.
  { intros key Hr. destruct (ss_scopes s0 !! key) as [sid|] eqn:E0.
    - rewrite (Hreq _ _ E0 Hr). done.
    - split; [done|]. intros _. destruct (ss_scopes s !! key) as [sid|] eqn:E; [|done].
      apply Hsub in E. congruence. }
  assert (Forall (fun key => requested keys key = true) keys) as Hall.
  { apply Forall_forall. intros key Hk. apply existsb_exists. exists key.
    split; [by apply list_elem_of_In|by apply bool_decide_eq_true_2]. }
  revert Hall. generalize keys at 2 3 4. intros l Hall.
  induction Hall as [|key l Hk _ IH]; [done|]. rewrite !filter_cons.
  specialize (H key Hk). repeat case_decide; try tauto; by rewrite IH.
Qed.

Lemma storm_keys_nodup opts p m : NoDup (storm_keys opts p m).
Proof.
  unfold storm_keys. destruct (_ || _); repeat constructor;
    rewrite ?not_elem_of_cons; try split; try apply not_elem_of_nil. congruence.
Qed.

Lemma lookups_nodup s keys sids :
  storm_inv (skel_of s) -> NoDup keys ->
  Forall2 (fun key sid => ss_scopes s !! key = Some sid) keys sids -> NoDup sids.
Proof.
  intros Hi Hnd H. induction H as [|key sid keys sids Hk Hr IH]; [constructor|].
  apply NoDup_cons in Hnd as [Hn Hnd]. constructor; [|by apply IH].
  intros Hin. apply Hn. clear IH Hnd Hn. induction Hr as [|key' sid' keys sids Hk' Hr IH];
    [by apply elem_of_nil in Hin|].
  apply elem_of_cons in Hin as [->|Hin]; [|right; auto].
  destruct (si_map _ Hi _ _ Hk) as (v & Hv & <-). destruct (si_map _ Hi _ _ Hk') as (v' & Hv' & <-).
  assert (v' = v) as -> by congruence. by left.
Qed.

Lemma scopesFor_spec s provider model now :
  storm_inv (skel_of s) -> all_nq s ->
  let '(s', r) := scopesFor s provider model now in
  prepared s s' /\
  match r with
  | Ok sids =>
      Forall2 (fun key sid => ss_scopes s' !! key = Some sid)
        (storm_keys (ss_opts s) provider model) sids /\ NoDup sids
  | Err _ => True
  end.
Proof.
  intros Hi Hq. unfold scopesFor. destruct (_ || _); [split; [by apply prepared_refl|done]|].
  set (keys := storm_keys (ss_opts s) provider model).
  cbv zeta. fold keys.
  match goal with |- context [if ?b then (evict_scopes s now keys, ?x) else (s, false)] =>
    set (e := if b then (evict_scopes s now keys, x) else (s, false)) end.
  assert (evicted keys s e.1 /\
    e.2 = (so_MaxScopes (ss_opts e.1) <? Z.of_nat (size (ss_scopes e.1)) + missing s keys))
    as [He Hfull].
  { unfold e. destruct (so_MaxScopes (ss_opts s) <? _) eqn:Eo; cbn [fst snd]; split; try done;
      [apply evict_spec|apply evicted_refl]. }
  clearbody e. destruct e as [s1 full]. cbn [fst snd] in *.
  pose proof (evicted_prepared _ _ _ He Hi Hq) as Hp.
  destruct full; [by split|].
  pose proof (scopes_for_keys_spec s1 now keys (pp_inv _ _ Hp) (pp_nq _ _ Hp)) as Ha.
  destruct (scopes_for_keys s1 now keys) as [s2 sids].
  destruct Ha as [A1 A2 A3 A4 A5 A6 A7 A8 A9 A10]. destruct Hp as [P1 P2 P3 P4 P5 P6 P7 P8].
  split; [|split; [done|by eapply lookups_nodup; [exact A1|apply storm_keys_nodup|]]].
  split; try done; try congruence.
  - intros key sid Hk Hid. by apply A4, P3.
  - intros _. symmetry in Hfull. apply Z.ltb_ge in Hfull.
    rewrite (missing_evicted _ _ _ He) in A5. rewrite <- P4. lia.
Qed.

(** *** Granting *)

Lemma upd_scope_of s sid f i :
  scope_of (upd_scope sid f s) i =
    if decide (sid = i) then (match ss_heap s !! i with Some x => f x | None => scope_of s i end)
    else scope_of s i.
Proof.
  unfold scope_of, upd_scope. cbn. case_decide as Hd.
  - subst. rewrite lookup_alter_eq. by destruct (ss_heap s !! i).
  - by rewrite lookup_alter_ne.
Qed.

Lemma claim_scope_facet s sid i :
  facet_open (claim_scope s sid).1 (scope_of (claim_scope s sid).1 i) = facet_open s (scope_of s i).
Proof.
  unfold claim_scope. cbn [fst].
  set (s1 := if facet_open s (scope_of s sid) then upd_scope sid (set_sc_probing true) s else s).
  assert (ss_opts s1 = ss_opts s /\ forall j, sc_key (scope_of s1 j) = sc_key (scope_of s j) /\
    sc_active (scope_of s1 j) = sc_active (scope_of s j) /\
    sc_quota (scope_of s1 j) = sc_quota (scope_of s j)) as [Ho Hj].
  { unfold s1. destruct (facet_open s (scope_of s sid)); [|done]. split; [done|].
    intros j. rewrite upd_scope_of. case_decide; [|done].
    destruct (ss_heap s !! j) eqn:E; [|done]. by rewrite (scope_of_some _ _ _ E). }
  clearbody s1. unfold facet_open, storm_gates.
  destruct (Hj i) as (<- & <- & <-). rewrite <- Ho.
  rewrite upd_scope_of. case_decide; [|done].
  destruct (ss_heap s1 !! i) eqn:E; [|done]. by rewrite (scope_of_some _ _ _ E).
Qed.

Lemma claim_scope_skel s sid :
  skel_of (claim_scope s sid).1 = claim_view (claim_scope s sid).2 (skel_of s).
Proof.
  unfold claim_scope, claim_view. cbn [fst snd cl_probe cl_scope].
  rewrite (skel_upd _ _ (v_add_refs 1)) by done.
  destruct (facet_open s (scope_of s sid)); [|done]. by rewrite set_probing_skel.
Qed.

Lemma claim_scope_nq s sid : all_nq s -> all_nq (claim_scope s sid).1.
Proof.
  intros H. unfold claim_scope. cbn [fst]. apply nq_upd; [done|].
  destruct (facet_open _ _); [by apply nq_upd|done].
Qed.

Lemma claim_scopes_spec s sids :
  all_nq s ->
  let '(s', cs) := claim_scopes s sids in
  skel_of s' = fold_left (fun k c => claim_view c k) cs (skel_of s) /\
  cl_scope <$> cs = sids /\ all_nq s' /\
  (forall c, c ∈ cs -> cl_probe c = facet_open s (scope_of s (cl_scope c))).
Proof.
  revert s. induction sids as [|sid sids IH]; intros s Hq; cbn [claim_scopes].
  - split_and!; try done. by intros c ?%elem_of_nil.
  - pose proof (claim_scope_skel s sid) as Hsk. pose proof (claim_scope_nq s sid Hq) as Hq1.
    pose proof (claim_scope_facet s sid) as Hf.
    assert (cl_scope (claim_scope s sid).2 = sid /\
      cl_probe (claim_scope s sid).2 = facet_open s (scope_of s sid)) as [Hc Hp] by done.
    destruct (claim_scope s sid) as [s1 c]. cbn [fst snd] in *.
    specialize (IH s1 Hq1). destruct (claim_scopes s1 sids) as [s2 cs].
    destruct IH as (E & Hs & Hq2 & Hpr). split_and!.
    + cbn [fold_left]. by rewrite E, Hsk.
    + cbn. by rewrite Hc, Hs.
    + done.
    + intros c' [->|Hin]%elem_of_cons; [by rewrite Hc|]. rewrite Hpr by done. apply Hf.
Qed.

Lemma kept_trans s0 s1 s2 :
  kept s0 s1 -> (forall key sid, ss_scopes s1 !! key = Some sid -> ss_scopes s2 !! key = Some sid) ->
  kept s0 s2.
Proof. intros H1 H2 key sid Hk Hi. by apply H2, H1. Qed.

(** The facts of a turn: the bookkeeping is kept, nothing live is dropped, and a
    permit is granted only when no relevant gate is held. *)
Record turn_ok (s0 s : stormState) : Prop := {
  to_inv : storm_inv (skel_of s);
  to_nq : all_nq s;
  to_kept : kept s0 s;
  to_opts : ss_opts s = ss_opts s0;
  to_size : Z.of_nat (size (ss_scopes s0)) <= so_MaxScopes (ss_opts s0) ->
    Z.of_nat (size (ss_scopes s)) <= so_MaxScopes (ss_opts s0);
}.

Lemma leave_fields s wid :
  ss_opts (leave_queue s wid) = ss_opts s /\ ss_scopes (leave_queue s wid) = ss_scopes s /\
  forall i, sc_active (scope_of (leave_queue s wid) i) = sc_active (scope_of s i) /\
    sc_quota (scope_of (leave_queue s wid) i) = sc_quota (scope_of s i) /\
    sc_refs (scope_of (leave_queue s wid) i) = sc_refs (scope_of s i).
Proof.
  unfold leave_queue. destruct (ss_parked s !! wid) as [l|]; [|done]. unfold unqueue.
  set (f := fun s sid => upd_scope sid (fun x => set_sc_queued (sc_queued x - 1) x) s).
  assert (forall s', let s2 := fold_left f l s' in
    ss_opts s2 = ss_opts s' /\ ss_scopes s2 = ss_scopes s' /\
    forall i, sc_active (scope_of s2 i) = sc_active (scope_of s' i) /\
      sc_quota (scope_of s2 i) = sc_quota (scope_of s' i) /\
      sc_refs (scope_of s2 i) = sc_refs (scope_of s' i)) as H;
    [|exact (H (set_ss_queued (ss_queued s - 1) s))].
  cbv zeta. induction l as [|j l IH]; intros s'; [done|]. cbn [fold_left].
  destruct (IH (f s' j)) as (E1 & E2 & E3). split_and!; [by rewrite E1|by rewrite E2|].
  intros i. destruct (E3 i) as (-> & -> & ->). unfold f. rewrite upd_scope_of.
  case_decide; [|done]. destruct (ss_heap s' !! i) eqn:E; [|done]. by rewrite (scope_of_some _ _ _ E).
Qed.

Lemma not_held_idle s sid now :
  gateHeld s (scope_of s sid) now = false -> facet_open s (scope_of s sid) = true ->
  sc_probing (scope_of s sid) = false.
Proof. unfold gateHeld. intros H Hf. rewrite Hf in H. by apply orb_false_iff in H as [? _]. Qed.

Lemma grant_spec s now sids keys :
  storm_inv (skel_of s) -> all_nq s ->
  Forall2 (fun key sid => ss_scopes s !! key = Some sid) keys sids -> NoDup sids ->
  existsb (fun sid => gateHeld s (scope_of s sid) now) sids = false ->
  let '(s', cs) := claim_scopes s sids in
  let pid := fresh (dom (ss_permits s')) in
  let s'' := set_ss_permits (<[pid := MkPermit (ss_generation s') cs false false]> (ss_permits s')) s' in
  storm_inv (skel_of s'') /\ all_nq s'' /\ ss_opts s' = ss_opts s /\ ss_scopes s' = ss_scopes s /\
  ss_generation s' = ss_generation s /\ ss_permits s' = ss_permits s /\
  Forall2 (fun key c => ss_scopes s !! key = Some (cl_scope c)) keys cs.
Proof.
  intros Hi Hq Hkeys Hnd Hgate. pose proof (claim_scopes_spec s sids Hq) as Hc.
  destruct (claim_scopes s sids) as [s' cs]. destruct Hc as (E & Hs & Hq' & Hpr). cbv zeta.
  destruct (fold_fields (fun k c => claim_view c k) cs (skel_of s)) as (F1 & F2 & F3 & F4 & F5 & F6);
    [intros k' c; unfold claim_view; by destruct (cl_probe c)|].
  rewrite <- E in F1, F2, F3, F4, F5, F6.
  pose proof (is_fresh (dom (ss_permits s'))) as Hf. set (pid := fresh _) in *. clearbody pid.
  apply not_elem_of_dom in Hf. cbn in F1, F2, F3, F4, F5, F6.
  assert (Hin : forall c, c ∈ cs -> exists key, ss_scopes s !! key = Some (cl_scope c)).
  { intros c Hc. assert (cl_scope c ∈ sids) as Hc' by (rewrite <- Hs; by apply list_elem_of_fmap_2).
    apply list_elem_of_lookup in Hc' as [i Hi']. destruct (Forall2_lookup_r _ _ _ _ _ Hkeys Hi')
      as (key & _ & ?). by exists key. }
  assert (Hopen : forall c, c ∈ cs -> gateHeld s (scope_of s (cl_scope c)) now = false).
  { intros c Hc. destruct (gateHeld s (scope_of s (cl_scope c)) now) eqn:Eg; [|done].
    rewrite <- Hgate. symmetry. apply existsb_exists. exists (cl_scope c). split; [|done].
    apply list_elem_of_In. rewrite <- Hs. by apply list_elem_of_fmap_2. }
  split_and!; try done.
  - change (skel_of (set_ss_permits (<[pid:=MkPermit (ss_generation s') cs false false]> (ss_permits s')) s'))
      with (sl_set_permits (<[pid:=MkPermit (ss_generation s') cs false false]> (ss_permits s')) (skel_of s')).
    rewrite E, F5. apply (claim_inv (skel_of s)); [done|cbn; by rewrite <- F5|cbn; by rewrite F3| | |].
    + by rewrite Hs.
    + intros c Hc. destruct (Hin c Hc) as [key Hk]. split; [by exists key|].
      destruct (si_map _ Hi _ _ Hk) as (v & Hv & _). split; [by eexists|].
      intros Hp v' Hv'. rewrite Hpr in Hp by done. unfold facet_open in Hp.
      pose proof (nq_scope_of s (cl_scope c) Hq) as Hn. revert Hv' Hp Hn.
      cbn. unfold views, scope_of. rewrite lookup_fmap.
      destruct (ss_heap s !! cl_scope c) as [x|]; [|done]. cbn. intros [= <-]. cbn.
      unfold storm_gates, nq. destruct (sk_modelScope (sc_key x)); [|done]. cbn.
      intros Hp Hn. rewrite Hn in Hp by done. rewrite orb_false_r in Hp.
      by apply andb_true_iff in Hp as [? _].
    + intros c v Hc Hp Hv. rewrite Hpr in Hp by done.
      pose proof (not_held_idle _ _ _ (Hopen c Hc) Hp) as Hpb. revert Hv Hpb.
      cbn. unfold views, scope_of. rewrite lookup_fmap.
      destruct (ss_heap s !! cl_scope c) as [x|]; [|done]. cbn. by intros [= <-].
  - clear -Hkeys Hs. subst sids. by apply Forall2_fmap_r in Hkeys.
Qed.

Definition park (s : stormState) (wid : nat) (sids : list nat) : stormState :=
  let s := set_ss_queued (ss_queued s + 1) s in
  let s := fold_left (fun s sid => upd_scope sid (fun x => set_sc_queued (sc_queued x + 1) x) s)
             sids s in
  set_ss_parked (<[wid := sids]> (ss_parked s)) s.

Lemma park_spec s wid sids :
  storm_inv (skel_of s) -> all_nq s -> ss_parked s !! wid = None ->
  (forall sid, sid ∈ sids -> is_Some (sl_views (skel_of s) !! sid)) ->
  storm_inv (skel_of (park s wid sids)) /\ all_nq (park s wid sids) /\
  ss_opts (park s wid sids) = ss_opts s /\ ss_scopes (park s wid sids) = ss_scopes s.
Proof.
  intros Hi Hq Hpk Hs. pose proof (park_inv (skel_of s) wid sids Hi Hpk Hs) as Hp.
  destruct (fold_fields (fun k sid => sl_upd sid (v_add_queued 1) k) sids (skel_of s))
    as (F1 & F2 & F3 & F4 & F5 & F6); [done|].
  assert (E : skel_of (park s wid sids) = sl_park wid sids (skel_of s)).
  { unfold park. set (f := fun s sid => upd_scope sid (fun x => set_sc_queued (sc_queued x + 1) x) s).
    set (s1 := fold_left f sids _).
    assert (E1 : skel_of s1 = sl_set_queued (ss_queued s + 1)
      (fold_left (fun k sid => sl_upd sid (v_add_queued 1) k) sids (skel_of s))).
    { unfold s1. rewrite (fold_skel _ (fun k sid => sl_upd sid (v_add_queued 1) k))
        by (intros; by apply skel_upd).
      rewrite <- fold_set_queued. done. }
    change (skel_of (set_ss_parked (<[wid:=sids]> (ss_parked s1)) s1))
      with (sl_set_parked (<[wid:=sids]> (sl_parked (skel_of s1))) (skel_of s1)).
    rewrite E1. unfold sl_park, sl_set_parked, sl_set_queued.
    cbn [sl_opts sl_scopes sl_views sl_generation sl_queued sl_permits sl_parked]. by rewrite F4. }
  rewrite E. split; [done|]. split.
  - unfold park. assert (all_nq (fold_left (fun s sid => upd_scope sid (fun x =>
      set_sc_queued (sc_queued x + 1) x) s) sids (set_ss_queued (ss_queued s + 1) s))) as H; [|done].
    apply nq_fold; [|done]. intros s' sid H. by apply nq_upd.
  - injection E as E1 E2 _ _ _ _ _. split; [etransitivity; [exact E1|exact F1]|etransitivity; [exact E2|exact F2]].
Qed.

Lemma turn_spec s wid ctxErr now waitStarted gen provider model reserve :
  storm_inv (skel_of s) -> all_nq s ->
  let '(s', o) := waitStorm_turn s wid ctxErr now waitStarted gen provider model reserve in
  turn_ok s s' /\
  match o with
  | WaitPermit pid =>
      ss_permits s !! pid = None /\
      exists cs, ss_permits s' !! pid = Some (MkPermit (ss_generation s) cs false false) /\
        Forall2 (fun key c => ss_scopes s' !! key = Some (cl_scope c))
          (storm_keys (ss_opts s) provider model) cs
  | _ => True
  end.
Proof.
  intros Hi Hq. unfold waitStorm_turn.
  pose proof (leave_inv s wid Hi) as Hi1. pose proof (leave_nq s wid Hq) as Hq1.
  pose proof (leave_parked s wid) as Hpk. destruct (leave_fields s wid) as (Eo & Es & Ef).
  assert (Egp : ss_permits (leave_queue s wid) = ss_permits s /\
                ss_generation (leave_queue s wid) = ss_generation s).
  { pose proof (skel_leave s wid) as E. destruct (ss_parked s !! wid) as [l|]; [|by injection E].
    unfold sl_unpark in E. destruct (fold_fields (fun k sid => sl_upd sid (v_add_queued (-1)) k) l (skel_of s))
      as (_ & _ & E3 & _ & E5 & _); [done|]. injection E as _ _ _ -> _ -> _. by rewrite E3, E5. }
  assert (Hk1 : kept s (leave_queue s wid)) by (intros key sid Hk _; by rewrite Es).
  assert (Hok1 : turn_ok s (leave_queue s wid)) by (split; try done; by rewrite Es).
  set (s1 := leave_queue s wid) in *. clearbody s1.
  destruct ctxErr; [by split|].
  destruct (_ && _); [by split|]. destruct (_ && _); [by split|].
  pose proof (scopesFor_spec s1 provider model now Hi1 Hq1) as Hsf.
  destruct (scopesFor s1 provider model now) as [s2 r]. destruct Hsf as [Hp Hr].
  assert (Hok2 : turn_ok s s2).
  { destruct Hp as [P1 P2 P3 P4 P5 P6 P7 P8].
    split; try done; [|congruence|intros; rewrite <- Eo; apply P8; by rewrite Es, Eo].
    intros key sid Hk Hpin. apply P3; [by rewrite Es|].
    destruct (Ef sid) as (E1 & E2 & E3). unfold pinned in *. by rewrite E1, E2, E3. }
  destruct r as [sids|e]; [|by split]. destruct Hr as [Hkeys Hnd].
  destruct (if gen =? ss_generation s2 then (s2, gen) else _) as [s3 gen'] eqn:E3.
  assert (H3 : skel_of s3 = skel_of s2 /\ all_nq s3).
  { destruct (gen =? ss_generation s2); injection E3 as <- <-; [split; [done|apply Hok2]|].
    split; [|apply nq_fold; [intros; by apply nq_upd|apply Hok2]].
    rewrite (fold_skel _ (fun k _ => k)) by (intros; by apply skel_upd_same).
    clear. induction sids; [done|]. done. }
  clear E3. destruct H3 as [Hsk3 Hq3]. pose proof Hsk3 as Hsk. injection Hsk as F1 F2 F3 F4 F5 F6 F7.
  assert (Hok3 : turn_ok s s3).
  { destruct Hok2 as [T1 T2 T3 T4 T5]. split; [by rewrite Hsk3|done| |congruence|by rewrite F2].
    intros key sid Hk Hpin. rewrite F2. by apply T3. }
  clear Hok2. rewrite <- Eo in *.
  assert (Hkeys3 : Forall2 (fun key sid => ss_scopes s3 !! key = Some sid)
    (storm_keys (ss_opts s1) provider model) sids) by (by rewrite F2).
  destruct Egp as [Egp1 Egp2]. pose proof (pp_permits _ _ Hp) as Hpp. pose proof (pp_gen _ _ Hp) as Hpg.
  pose proof (pp_parked _ _ Hp) as Hppk.
  clear Hkeys Hp Hi Hq Hi1 Hq1.
  destruct (negb (existsb _ sids)) eqn:Egate.
  - destruct (negb reserve); [by split|]. apply negb_true_iff in Egate.
    pose proof (grant_spec s3 now sids (storm_keys (ss_opts s1) provider model)
      (to_inv _ _ Hok3) Hq3 Hkeys3 Hnd Egate) as Hg.
    destruct (claim_scopes s3 sids) as [s4 cs]. destruct Hg as (G1 & G2 & G3 & G4 & G5 & G6 & G7).
    cbv zeta. split.
    + destruct Hok3 as [T1 T2 T3 T4 T5].
      split; [exact G1|exact G2| |cbn; congruence|cbn; by rewrite G4].
      intros key sid Hk Hpin. cbn. rewrite G4. by apply T3.
    + pose proof (is_fresh (dom (ss_permits s4))) as Hf. apply not_elem_of_dom in Hf.
      split; [rewrite <- Egp1, <- Hpp, <- F6, <- G6; exact Hf|].
      exists cs. cbn. rewrite lookup_insert_eq. split; [do 2 f_equal; congruence|].
      rewrite G4. exact G7.
  - destruct (so_MaxQueue _ <=? _); [by split|]. split; [|done].
    destruct (park_spec s3 wid sids) as (G1 & G2 & G3 & G4);
      [apply Hok3|done|cbn in *; by rewrite F7, Hppk| |].
    { intros sid Hin. apply list_elem_of_lookup in Hin as [i Hi].
      destruct (Forall2_lookup_r _ _ _ _ _ Hkeys3 Hi) as (key & _ & Hk).
      destruct (si_map _ (to_inv _ _ Hok3) _ _ Hk) as (v & Hv & _). by eexists. }
    change (turn_ok s (park s3 wid sids)).
    destruct Hok3 as [T1 T2 T3 T4 T5]. split; [exact G1|exact G2| |by rewrite G3|by rewrite G4].
    intros key sid Hk Hpin. rewrite G4. by apply T3.
Qed.

(** *** Settling *)

Definition settle_skel (k : skel) (p : StormPermit) : skel :=
  let k1 := fold_left drop_ref (pm_claims p) k in
  if pm_generation p =? sl_generation k then fold_left end_probe (pm_claims p) k1 else k1.

Lemma drop_refs_gen s cs : ss_generation (drop_refs s cs) = ss_generation s.
Proof.
  pose proof (drop_refs_skel s cs) as E. destruct (drop_ref_fields cs (skel_of s)) as (_ & _ & F & _).
  rewrite <- E in F. exact F.
Qed.

Lemma drop_refs_nq s cs : all_nq s -> all_nq (drop_refs s cs).
Proof. intros H. unfold drop_refs. apply nq_fold; [|done]. intros. by apply nq_upd. Qed.

Lemma settle_gated s pid p :
  storm_inv (skel_of s) -> ss_permits s !! pid = Some p -> pm_once p = false ->
  pm_generation p = ss_generation s ->
  Forall (gated (skel_of (drop_refs s (pm_claims p)))) (pm_claims p).
Proof.
  intros Hi Hp Ho Hg. apply Forall_forall. intros c Hc.
  destruct (si_live _ Hi pid p c Hp Ho Hg Hc) as [_ Hgt]. rewrite drop_refs_skel.
  apply (gated_same (skel_of s)); [apply drop_ref_fields| |done].
  intros sid v' Hv. rewrite drop_ref_views in Hv.
  destruct (sl_views (skel_of s) !! sid) as [v|]; [|done]. injection Hv as <-. by exists v.
Qed.

Lemma settle_skel_eq s pid p now o f reason ra obs rs :
  storm_inv (skel_of s) -> ss_permits s !! pid = Some p -> pm_once p = false ->
  skel_of (settle s p now o f reason ra obs rs).1.1 = settle_skel (skel_of s) p.
Proof.
  intros Hi Hp Ho. unfold settle, settle_skel. rewrite drop_refs_gen.
  change (sl_generation (skel_of s)) with (ss_generation s).
  destruct (Z.eqb_spec (pm_generation p) (ss_generation s)) as [Hg|_]; cbn [negb fst];
    [|apply drop_refs_skel].
  pose proof (settle_gated s pid p Hi Hp Ho Hg) as Hgt.
  set (s1 := drop_refs s (pm_claims p)) in *.
  assert (Hs2 : forall s2, skel_of s2 = skel_of s1 ->
    skel_of (settle_claims s2 (pm_claims p) now o f (bound_reason reason) (ClampRetryHint ra) rs).1.1 =
      fold_left end_probe (pm_claims p) (fold_left drop_ref (pm_claims p) (skel_of s))).
  { intros s2 E. rewrite settle_claims_skel by (by rewrite E). rewrite E. unfold s1.
    by rewrite drop_refs_skel. }
  pose proof (record_samples_skel s1 (pm_claims p) now f obs 0) as Hr.
  destruct o.
  - destruct (record_samples _ _ _ _ _ _) as [s2 obs']. cbn [fst] in Hr. specialize (Hs2 s2 Hr).
    destruct (settle_claims _ _ _ _ _ _ _ _) as [[s3 ch] act]. cbn [fst] in *. by destruct ch.
  - specialize (Hs2 s1 eq_refl).
    destruct (settle_claims _ _ _ _ _ _ _ _) as [[s3 ch] act]. cbn [fst] in *. by destruct ch.
Qed.

Lemma settle_nq s p now o f reason ra obs rs :
  all_nq s -> all_nq (settle s p now o f reason ra obs rs).1.1.
Proof.
  intros H. unfold settle. pose proof (drop_refs_nq s (pm_claims p) H) as H1.
  destruct (negb _); [done|].
  assert (Hs2 : forall s2, all_nq s2 -> all_nq
    (let '(s, changed, active) := settle_claims s2 (pm_claims p) now o f (bound_reason reason)
       (ClampRetryHint ra) rs in if changed then wakeLocked s else s)).
  { intros s2 H2. pose proof (settle_claims_nq s2 (pm_claims p) now o f (bound_reason reason)
      (ClampRetryHint ra) rs H2) as H3.
    destruct (settle_claims _ _ _ _ _ _ _ _) as [[s3 ch] act]. by destruct ch. }
  pose proof (record_samples_nq _ (pm_claims p) now f obs 0 H1) as Hr.
  destruct o; [destruct (record_samples _ _ _ _ _ _) as [s2 obs']; specialize (Hs2 s2 Hr)
              |specialize (Hs2 _ H1)];
    by destruct (settle_claims _ _ _ _ _ _ _ _) as [[s3 ch] act].
Qed.

Lemma settleQuota_skel s p now reason ra rs :
  skel_of (settleQuota s p now reason ra rs) = settle_skel (skel_of s) p.
Proof.
  unfold settleQuota, settle_skel. rewrite drop_refs_gen.
  change (sl_generation (skel_of s)) with (ss_generation s).
  destruct (_ =? _); cbn [negb]; [|apply drop_refs_skel].
  pose proof (quota_claims_skel (drop_refs s (pm_claims p)) (pm_claims p) now (bound_reason reason)
    (ClampRetryHint ra) rs) as E. rewrite drop_refs_skel in E.
  destruct (quota_settle_claims _ _ _ _ _ _) as [s2 ch]. cbn [fst] in E. by destruct ch.
Qed.

Lemma settleQuota_nq s p now reason ra rs : all_nq s -> all_nq (settleQuota s p now reason ra rs).
Proof.
  intros H. unfold settleQuota. pose proof (drop_refs_nq s (pm_claims p) H) as H1.
  destruct (negb _); [done|].
  pose proof (quota_claims_nq _ (pm_claims p) now (bound_reason reason) (ClampRetryHint ra) rs H1) as H2.
  destruct (quota_settle_claims _ _ _ _ _ _) as [s2 ch]. by destruct ch.
Qed.

Lemma spend_inv s s' pid p p' :
  storm_inv (skel_of s) -> ss_permits s !! pid = Some p -> pm_once p = false ->
  pm_once p' = true -> pm_generation p' = pm_generation p ->
  skel_of s' = settle_skel (skel_of s) p ->
  storm_inv (skel_of (set_ss_permits (<[pid := p']> (ss_permits s')) s')) /\
  ss_scopes s' = ss_scopes s /\ ss_opts s' = ss_opts s.
Proof.
  intros Hi Hp Ho Ho' Hg E.
  destruct (settled_fields (skel_of s) pid p p') as (E1 & E2 & _ & _ & _ & _).
  assert (Es : skel_of s' = sl_set_permits (ss_permits s) (settle_skel (skel_of s) p)).
  { rewrite E. unfold settle_skel. destruct (drop_ref_fields (pm_claims p) (skel_of s)) as (_ & _ & _ & _ & F & _).
    destruct (end_probe_fields (pm_claims p) (fold_left drop_ref (pm_claims p) (skel_of s)))
      as (_ & _ & _ & _ & F' & _).
    destruct (_ =? _); unfold sl_set_permits.
    - rewrite F in F'. change (sl_permits (skel_of s)) with (ss_permits s) in F'. rewrite <- F'.
      by destruct (fold_left end_probe _ _).
    - change (sl_permits (skel_of s)) with (ss_permits s) in F. rewrite <- F.
      by destruct (fold_left drop_ref _ _). }
  assert (Eset : skel_of (set_ss_permits (<[pid := p']> (ss_permits s')) s') = settled (skel_of s) pid p p').
  { change (skel_of (set_ss_permits (<[pid := p']> (ss_permits s')) s'))
      with (sl_set_permits (<[pid := p']> (sl_permits (skel_of s'))) (skel_of s')).
    rewrite Es. unfold settled, settle_skel. by destruct (_ =? _). }
  split; [rewrite Eset; by apply settled_inv|].
  unfold settled in E1, E2. rewrite Es in *. unfold settle_skel in *.
  split; [transitivity (sl_scopes (skel_of s')); [done|]|transitivity (sl_opts (skel_of s')); [done|]];
    rewrite Es; unfold settle_skel; destruct (_ =? _); cbn in *; congruence.
Qed.

Lemma Observe_spec s pid now f reason ra obs rs :
  storm_inv (skel_of s) -> all_nq s ->
  let s' := (Observe s pid now f reason ra obs rs).1.1 in
  storm_inv (skel_of s') /\ all_nq s' /\ ss_scopes s' = ss_scopes s /\ ss_opts s' = ss_opts s.
Proof.
  intros Hi Hq. unfold Observe. destruct (ss_permits s !! pid) as [p|] eqn:Hp; [|done].
  destruct (pm_once p) eqn:Ho; [done|].
  pose proof (settle_skel_eq s pid p now true f reason ra obs rs Hi Hp Ho) as E.
  pose proof (settle_nq s p now true f reason ra obs rs Hq) as Hn.
  destruct (settle s p now true f reason ra obs rs) as [[s' act] obs']. cbn [fst] in *.
  destruct (spend_inv s s' pid p (set_pm_active act (set_pm_once true p)) Hi Hp Ho
    eq_refl eq_refl E) as (? & ? & ?). by split_and!.
Qed.

Lemma Cancel_spec s pid now :
  storm_inv (skel_of s) -> all_nq s ->
  let s' := Cancel s pid now in
  storm_inv (skel_of s') /\ all_nq s' /\ ss_scopes s' = ss_scopes s /\ ss_opts s' = ss_opts s.
Proof.
  intros Hi Hq. unfold Cancel. destruct (ss_permits s !! pid) as [p|] eqn:Hp; [|done].
  destruct (pm_once p) eqn:Ho; [done|].
  pose proof (settle_skel_eq s pid p now false false [] 0 None [] Hi Hp Ho) as E.
  pose proof (settle_nq s p now false false [] 0 None [] Hq) as Hn.
  destruct (settle s p now false false [] 0 None []) as [[s' act] obs']. cbn [fst] in *.
  destruct (spend_inv s s' pid p (set_pm_active act (set_pm_once true p)) Hi Hp Ho
    eq_refl eq_refl E) as (? & ? & ?). by split_and!.
Qed.

Lemma ObserveQuota_spec s pid now reason ra rs :
  storm_inv (skel_of s) -> all_nq s ->
  let s' := ObserveQuota s pid now reason ra rs in
  storm_inv (skel_of s') /\ all_nq s' /\ ss_scopes s' = ss_scopes s /\ ss_opts s' = ss_opts s.
Proof.
  intros Hi Hq. unfold ObserveQuota. destruct (ss_permits s !! pid) as [p|] eqn:Hp; [|done].
  destruct (pm_once p) eqn:Ho; [done|]. cbv zeta.
  pose proof (settleQuota_skel s p now reason ra rs) as E.
  pose proof (settleQuota_nq s p now reason ra rs Hq) as Hn.
  destruct (spend_inv s _ pid p (set_pm_once true p) Hi Hp Ho eq_refl eq_refl E) as (? & ? & ?).
  by split_and!.
Qed.

Lemma ReleaseQuota_spec s provider :
  storm_inv (skel_of s) -> all_nq s ->
  let s' := (ReleaseQuota s provider).1 in
  storm_inv (skel_of s') /\ all_nq s' /\ ss_scopes s' = ss_scopes s /\ ss_opts s' = ss_opts s.
Proof.
  intros Hi Hq. unfold ReleaseQuota. destruct (ss_scopes s !! _) as [sid|]; [|done].
  destruct (negb _); [done|]. cbn [fst].
  set (x := if negb _ then _ else _).
  assert (view_of x = view_of (scope_of s sid)) as Hv by (unfold x; by destruct (negb _)).
  assert (nq x) as Hn.
  { unfold x. pose proof (nq_scope_of s sid Hq) as H. unfold nq in *. by destruct (negb _). }
  split_and!; try done.
  - rewrite skel_wake, skel_write_same by done. done.
  - assert (all_nq (upd_scope sid (fun _ => x) s)); [by apply nq_write|done].
Qed.

(** *** The gate a caller reads *)

Definition gate_view (x : stormScope) :=
  (sc_key x, sc_active x, sc_quota x, sc_probing x, sc_retryAt x).

Lemma gateHeld_view s s' x x' now :
  ss_opts s = ss_opts s' -> gate_view x = gate_view x' -> gateHeld s x now = gateHeld s' x' now.
Proof.
  unfold gateHeld, facet_open, storm_gates. intros -> [= -> -> -> -> ->]. done.
Qed.

Lemma leave_gate s wid i : gate_view (scope_of (leave_queue s wid) i) = gate_view (scope_of s i).
Proof.
  unfold leave_queue. destruct (ss_parked s !! wid) as [l|]; [|done]. unfold unqueue.
  change (scope_of (set_ss_parked _ ?s2) i) with (scope_of s2 i).
  change (scope_of s i) with (scope_of (set_ss_queued (ss_queued s - 1) s) i).
  generalize (set_ss_queued (ss_queued s - 1) s). clear s. intros s. revert s.
  induction l as [|j l IH]; intros s; [done|]. cbn [fold_left]. rewrite IH, upd_scope_of.
  case_decide; [|done]. destruct (ss_heap s !! i) eqn:E; [|done]. by rewrite (scope_of_some _ _ _ E).
Qed.

Lemma touch_gate s now sids i :
  gate_view (scope_of (fold_left (fun s sid => upd_scope sid (set_sc_lastActivity now) s) sids s) i) =
  gate_view (scope_of s i).
Proof.
  revert s. induction sids as [|j l IH]; intros s; [done|]. cbn [fold_left]. rewrite IH, upd_scope_of.
  case_decide; [|done]. destruct (ss_heap s !! i) eqn:E; [|done]. by rewrite (scope_of_some _ _ _ E).
Qed.

Lemma scopesFor_gate s provider model now s' sids :
  storm_inv (skel_of s) -> all_nq s -> scopesFor s provider model now = (s', Ok sids) ->
  forall key sid, key ∈ storm_keys (ss_opts s) provider model -> ss_scopes s !! key = Some sid ->
    ss_scopes s' !! key = Some sid /\ gate_view (scope_of s' sid) = gate_view (scope_of s sid).
Proof.
  intros Hi Hq E key sid Hin Hk. unfold scopesFor in E. destruct (_ || _) in E; [done|]. cbv zeta in E.
  set (keys := storm_keys (ss_opts s) provider model) in *.
  match type of E with context [if ?b then (evict_scopes s now keys, ?x) else (s, false)] =>
    set (e := if b then (evict_scopes s now keys, x) else (s, false)) in E end.
  assert (evicted keys s e.1) as He.
  { unfold e. destruct (so_MaxScopes (ss_opts s) <? _); [apply evict_spec|apply evicted_refl]. }
  clearbody e. destruct e as [s1 full]. destruct full; [done|]. cbn [fst] in He.
  pose proof (scopes_for_keys_spec s1 now keys (evicted_inv _ _ _ He Hi) (evicted_nq _ _ _ He Hq)) as Ha.
  destruct (scopes_for_keys s1 now keys) as [s2 sids']. injection E as -> ->.
  assert (requested keys key = true) as Hr.
  { apply existsb_exists. exists key. split; [by apply list_elem_of_In|by apply bool_decide_eq_true_2]. }
  pose proof (ev_req _ _ _ He _ _ Hk Hr) as Hk1. split; [by apply (al_old _ _ _ _ Ha)|].
  pose proof (evicted_inv _ _ _ He Hi) as Hi1.
  destruct (si_map _ Hi1 _ _ Hk1) as (v & Hv & _).
  destruct (ss_heap s1 !! sid) as [x|] eqn:Ex; [|by rewrite views_none in Hv].
  rewrite (scope_of_some _ _ _ (al_heap _ _ _ _ Ha _ _ Ex)).
  destruct (ev_heap _ _ _ He sid) as [t Ht]. rewrite (scope_of_some _ _ _ Ex) in Ht. by rewrite Ht.
Qed.

(** ** Runs *)

Inductive stormStep : stormState -> stormState -> Prop :=
  | ss_turn s wid ctxErr now waitStarted gen provider model reserve :
      stormStep s (waitStorm_turn s wid ctxErr now waitStarted gen provider model reserve).1
  | ss_leave s wid : stormStep s (leave_queue s wid)
  | ss_observe s pid now failed reason ra obs rs :
      stormStep s (Observe s pid now failed reason ra obs rs).1.1
  | ss_cancel s pid now : stormStep s (Cancel s pid now)
  | ss_quota s pid now reason ra rs : stormStep s (ObserveQuota s pid now reason ra rs)
  | ss_release s provider : stormStep s (ReleaseQuota s provider).1
  | ss_wake s : stormStep s (wakeLocked s).

(** Any interleaving of sends, outcomes, releases and reconfigurations. *)
Inductive stormReach : stormState -> Prop :=
  | sr_zero : stormReach zeroStormState
  | sr_step s s' : stormReach s -> stormStep s s' -> stormReach s'
  | sr_configure s opts :
      stormReach s -> ss_generation s + 1 < 2 ^ 64 -> 0 <= so_MaxScopes opts ->
      stormReach (storm_configure s opts).

Lemma stormStep_ok s s' :
  stormStep s s' -> storm_inv (skel_of s) -> all_nq s -> turn_ok s s'.
Proof.
  intros Hs Hi Hq. destruct Hs.
  - pose proof (turn_spec s wid ctxErr now waitStarted gen provider model reserve Hi Hq) as H.
    destruct (waitStorm_turn _ _ _ _ _ _ _ _ _) as [s' o]. by destruct H.
  - destruct (leave_fields s wid) as (Eo & Es & _).
    split; [by apply leave_inv|by apply leave_nq|intros key sid Hk _; by rewrite Es|done|by rewrite Es].
  - destruct (Observe_spec s pid now failed reason ra obs rs Hi Hq) as (H1 & H2 & H3 & H4).
    split; [done|done|intros key sid Hk _; by rewrite H3|done|by rewrite H3].
  - destruct (Cancel_spec s pid now Hi Hq) as (H1 & H2 & H3 & H4).
    split; [done|done|intros key sid Hk _; by rewrite H3|done|by rewrite H3].
  - destruct (ObserveQuota_spec s pid now reason ra rs Hi Hq) as (H1 & H2 & H3 & H4).
    split; [done|done|intros key sid Hk _; by rewrite H3|done|by rewrite H3].
  - destruct (ReleaseQuota_spec s provider Hi Hq) as (H1 & H2 & H3 & H4).
    split; [done|done|intros key sid Hk _; by rewrite H3|done|by rewrite H3].
  - split; try done. by intros key sid Hk _.
Qed.

Record reach_ok (s : stormState) : Prop := {
  rk_inv : storm_inv (skel_of s);
  rk_nq : all_nq s;
  rk_size : Z.of_nat (size (ss_scopes s)) <= so_MaxScopes (ss_opts s);
}.

Lemma configure_ok s opts :
  reach_ok s -> ss_generation s + 1 < 2 ^ 64 -> 0 <= so_MaxScopes opts ->
  reach_ok (storm_configure s opts).
Proof.
  intros [Hi Hq Hs] Hb Hm. pose proof (si_pos _ Hi) as Hg. cbn in Hg. unfold storm_configure. destruct (_ && _); [done|].
  set (f := fun s (kv : stormKey * nat) => upd_scope kv.2 (fun x => set_sc_timer (stop (sc_timer x)) x) s).
  set (s1 := fold_left f _ s).
  assert (E : skel_of s1 = skel_of s /\ all_nq s1).
  { unfold s1. generalize (map_to_list (ss_scopes s)). intros l. split.
    - rewrite (fold_skel _ (fun k _ => k)) by (intros; by apply skel_upd_same). by induction l.
    - apply nq_fold; [|done]. intros s0 a H0. unfold f. by apply nq_upd. }
  destruct E as [E Hq1]. clearbody s1. pose proof E as E'. injection E' as E1 E2 E3 E4 E5 E6 E7.
  assert (Hgen : u64 (ss_generation s1 + 1) = ss_generation s + 1)
    by (rewrite E4; apply u64_id; unfold in_uint64; lia).
  split; cbn; [|done|done].
  pose proof (configure_inv (skel_of s) opts Hi) as H.
  match goal with |- storm_inv ?k => replace k with
    (Skel opts ∅ (sl_views (skel_of s)) (sl_generation (skel_of s) + 1) (sl_queued (skel_of s))
       (sl_permits (skel_of s)) (sl_parked (skel_of s))) end; [done|].
  unfold skel_of. cbn. rewrite Hgen. unfold views in *. cbn in *. by rewrite E3, E5, E6, E7.
Qed.

Lemma stormReach_ok s : stormReach s -> reach_ok s.
Proof.
  induction 1 as [|s s' _ [Hi Hq Hs] Hst|s opts _ IH Hb Hm].
  - split; [|by intros ? ? ?|done].
    split; cbn; try done.
    all: intros *; unfold views; rewrite ?fmap_empty, ?lookup_empty; try done.
  - destruct (stormStep_ok s s' Hst Hi Hq) as [T1 T2 T3 T4 T5].
    split; [done|done|]. rewrite T4. by apply T5.
  - by apply configure_ok.
Qed.

(** ** Properties *)

(** Unsettled probes and claims of a scope, as the permits show them. *)
Definition outstanding_probes (s : stormState) (sid : nat) : Z :=
  total (fun p => if pm_once p || negb (pm_generation p =? ss_generation s) then 0
                  else claims_on (probe_on sid) (pm_claims p)) (ss_permits s).
Definition outstanding_claims (s : stormState) (sid : nat) : Z :=
  total (fun p => if pm_once p then 0 else claims_on (on_scope sid) (pm_claims p)) (ss_permits s).
Definition parked_callers (s : stormState) (sid : nat) : Z := total (count_in sid) (ss_parked s).

(** C33. The storm state's counters are exact in every reachable state: for each
    scope of the map, the probing flag says whether one unsettled permit holds
    its probe - so there is never a second probe, and no settled, cancelled or
    reconfigured permit leaves the flag behind - its refs count its unsettled
    permits and its queued count the callers parked on it; and the queue bound
    counts exactly the parked callers. *)
Theorem storm_counts_exact s key sid x :
  stormReach s -> ss_scopes s !! key = Some sid -> ss_heap s !! sid = Some x ->
  Z.b2z (sc_probing x) = outstanding_probes s sid /\
  sc_refs x = outstanding_claims s sid /\
  sc_queued x = parked_callers s sid /\
  ss_queued s = Z.of_nat (size (ss_parked s)) /\
  sc_key x = key.
Proof.
  intros Hr Hk Hx. destruct (stormReach_ok s Hr) as [Hi _ _].
  pose proof (views_lookup _ _ _ Hx) as Hv. split_and!.
  - exact (si_probe _ Hi sid _ (ex_intro _ key Hk) Hv).
  - exact (si_refs _ Hi sid _ Hv).
  - exact (si_queued _ Hi sid _ Hv).
  - exact (si_total _ Hi).
  - destruct (si_map _ Hi _ _ Hk) as (v & Hv' & <-). rewrite Hv in Hv'. by injection Hv' as <-.
Qed.

(** C35. A gate cannot be bypassed: a turn that grants a permit found none of
    the provider's and model's known gates held at that instant (an open storm
    or quota gate with a probe out or its cooldown running), and no step other
    than a reconfiguration drops a scope whose gate is open or that an
    unsettled permit references; the scope map never outgrows MaxScopes. *)
Theorem storm_gate_enforced s :
  stormReach s ->
  (forall wid ctxErr now waitStarted gen provider model reserve s' pid key sid,
     waitStorm_turn s wid ctxErr now waitStarted gen provider model reserve = (s', WaitPermit pid) ->
     key ∈ storm_keys (ss_opts s) provider model -> ss_scopes s !! key = Some sid ->
     gateHeld s (scope_of s sid) now = false) /\
  (forall s' key sid, stormStep s s' -> ss_scopes s !! key = Some sid ->
     sc_active (scope_of s sid) = true \/ sc_quota (scope_of s sid) = true \/
       sc_refs (scope_of s sid) <> 0 ->
     ss_scopes s' !! key = Some sid) /\
  Z.of_nat (size (ss_scopes s)) <= so_MaxScopes (ss_opts s).
Proof.
  intros Hr. destruct (stormReach_ok s Hr) as [Hi Hq Hsz]. split_and!; [|intros s' key sid Hst|done].
  - intros wid ctxErr now waitStarted gen provider model reserve s' pid key sid E Hin Hk.
    unfold waitStorm_turn in E.
    pose proof (leave_inv s wid Hi) as Hi1. pose proof (leave_nq s wid Hq) as Hq1.
    destruct (leave_fields s wid) as (Eo & Es & _). pose proof (leave_gate s wid sid) as Hg1.
    set (s1 := leave_queue s wid) in *. clearbody s1.
    destruct ctxErr; [done|]. destruct (_ && _) in E; [done|]. destruct (_ && _) in E; [done|].
    rewrite <- Eo in Hin. rewrite <- Es in Hk.
    pose proof (scopesFor_spec s1 provider model now Hi1 Hq1) as Hsp.
    pose proof (scopesFor_gate s1 provider model now) as Hg.
    destruct (scopesFor s1 provider model now) as [s2 [sids|e]]; [|done].
    destruct (Hg s2 sids Hi1 Hq1 eq_refl key sid Hin Hk) as [Hk2 Hg2].
    destruct Hsp as [Hp [Hkeys _]].
    destruct (if gen =? ss_generation s2 then _ else _) as [s3 gen'] eqn:E3.
    assert (gate_view (scope_of s3 sid) = gate_view (scope_of s2 sid) /\ ss_opts s3 = ss_opts s2)
      as [Hg3 Ho3].
    { destruct (gen =? ss_generation s2); injection E3 as <- <-; [done|].
      split; [apply touch_gate|]. generalize s2. clear. induction sids as [|i l IH]; intros s2; [done|].
      cbn [fold_left]. by rewrite IH. }
    destruct (negb (existsb _ sids)) eqn:Eg.
    2: { destruct (so_MaxQueue _ <=? _) in E; done. }
    apply negb_true_iff in Eg.
    assert (sid ∈ sids) as Hsid.
    { apply list_elem_of_lookup in Hin as [i Hi']. 
      destruct (Forall2_lookup_l _ _ _ _ _ Hkeys Hi') as (sid' & Hl & Hk').
      apply list_elem_of_lookup. exists i. congruence. }
    rewrite (gateHeld_view s s3 _ (scope_of s3 sid)).
    + destruct (gateHeld s3 (scope_of s3 sid) now) eqn:E'; [|done]. rewrite <- Eg. symmetry.
      apply existsb_exists. exists sid. split; [by apply list_elem_of_In|done].
    + rewrite Ho3, (pp_opts _ _ Hp). done.
    + congruence.
  - intros Hk Hpin. by apply (to_kept _ _ (stormStep_ok s s' Hst Hi Hq)).
Qed.

(** ** Witnesses: a model storm opens on a failure and grants one probe *)

Definition demo_opts : StormOptions :=
  Build_StormOptions "k" true true true (60 * Second) 1 50 Second (60 * Second) 2 0 2 10 100 0 true 1.
Definition t0 : Time := unixEpoch + 1000 * Second.
Definition demo1 : stormState := storm_configure zeroStormState demo_opts.
Definition demo2 : stormState := (waitStorm_turn demo1 0 false t0 0 0 "p" "m" true).1.
Definition demo3 : stormState := (Observe demo2 0 t0 true [] 0 None []).1.1.
Definition demo4 : stormState := (waitStorm_turn demo3 0 false (t0 + Second) 0 1 "p" "m" true).1.

Lemma demo4_reach : stormReach demo3 /\ stormReach demo4.
Proof.
  assert (stormReach demo3) as H3.
  { apply (sr_step demo2); [|apply ss_observe]. apply (sr_step demo1); [|apply ss_turn].
    apply sr_configure; [constructor|vm_compute; reflexivity|vm_compute; discriminate]. }
  split; [exact H3|]. apply (sr_step demo3); [exact H3|apply ss_turn].
Qed.

Definition demo_key : stormKey := Build_stormKey "p" "m" true.

Lemma storm_counts_exact_witness :
  outstanding_probes demo4 0 = 1 /\ outstanding_claims demo4 0 = 1.
Proof.
  assert (ss_scopes demo4 !! demo_key = Some 0%nat) as Hk by (vm_compute; reflexivity).
  assert ((fun x => (sc_probing x, sc_refs x)) <$> ss_heap demo4 !! 0%nat = Some (true, 1)) as Hx
    by (vm_compute; reflexivity).
  destruct (ss_heap demo4 !! 0%nat) as [x|] eqn:E; [|discriminate].
  injection Hx as H1 H2.
  destruct (storm_counts_exact demo4 demo_key 0 x (proj2 demo4_reach) Hk E) as (Hp & Hr & _).
  rewrite <- Hp, <- Hr, H1, H2. split; reflexivity.
Defined.

Lemma storm_gate_enforced_witness :
  gateHeld demo3 (scope_of demo3 0) (t0 + Second) = false /\
  gateHeld demo3 (scope_of demo3 0) t0 = true.
Proof.
  destruct (storm_gate_enforced demo3 (proj1 demo4_reach)) as (H & _).
  split; [|vm_compute; reflexivity].
  destruct (waitStorm_turn demo3 0 false (t0 + Second) 0 1 "p" "m" true) as [s' o] eqn:E.
  assert (o = WaitPermit 1) as -> by (apply (f_equal snd) in E; cbn [snd] in E; rewrite <- E;
    vm_compute; reflexivity).
  refine (H _ _ _ _ _ _ _ _ _ _ demo_key 0%nat E _ _).
  - vm_compute. left.
  - vm_compute. reflexivity.
Defined.
