(* ===== verification/StormWindow.v ===== *)
(** The rolling window of a storm scope: the 64 buckets and their cached totals
    count exactly the attempts of the last 64 time slices. *)

From S2P Require Import Prelude GoTime GoFloat Storm.

Fixpoint zsum (l : list Z) : Z := match l with [] => 0 | x :: l => x + zsum l end.

Lemma zsum_app a b : zsum (a ++ b) = zsum a + zsum b.
Proof. induction a as [|x a IH]; cbn; lia. Qed.

Lemma zsum_imap_add {A} (g h : nat -> A -> Z) l :
  zsum (imap (fun i x => g i x + h i x) l) = zsum (imap g l) + zsum (imap h l).
Proof.
  revert g h. induction l as [|x l IH]; intros g h; [done|].
  rewrite !imap_cons. cbn [zsum]. specialize (IH (g ∘ S) (h ∘ S)). unfold compose in *.
  cbn beta in *. lia.
Qed.

Lemma zsum_imap_zero {A} (g : nat -> A -> Z) l :
  (forall i x, l !! i = Some x -> g i x = 0) -> zsum (imap g l) = 0.
Proof.
  revert g. induction l as [|x l IH]; intros g Hg; [done|]. rewrite imap_cons. cbn [zsum].
  rewrite (Hg 0%nat x eq_refl). rewrite IH; [done|]. intros i y Hi. apply (Hg (S i) y Hi).
Qed.

Lemma zsum_imap_single {A} (g : nat -> A -> Z) l j x :
  l !! j = Some x -> (forall i y, l !! i = Some y -> i <> j -> g i y = 0) ->
  zsum (imap g l) = g j x.
Proof.
  revert g j. induction l as [|y l IH]; intros g j Hj Hg; [done|]. rewrite imap_cons. cbn [zsum].
  destruct j as [|j]; cbn in Hj.
  - injection Hj as ->. rewrite zsum_imap_zero; [lia|]. intros i z Hi. by apply (Hg (S i) z).
  - rewrite (Hg 0%nat y eq_refl) by done. rewrite (IH _ j Hj); [done|].
    intros i z Hi Hne. apply (Hg (S i) z); [done|]. by intros [= ->].
Qed.

Lemma zsum_imap_insert {A} (g : nat -> A -> Z) l j x y :
  l !! j = Some x -> zsum (imap g (<[j := y]> l)) = zsum (imap g l) - g j x + g j y.
Proof.
  revert g j. induction l as [|z l IH]; intros g j Hj; [done|]. destruct j as [|j]; cbn in Hj.
  - injection Hj as ->. cbn [insert list_insert]. rewrite !imap_cons. cbn [zsum]. lia.
  - change (<[S j:=y]> (z :: l)) with (z :: <[j:=y]> l). rewrite !imap_cons. cbn [zsum].
    rewrite (IH _ j Hj). unfold compose. lia.
Qed.

Lemma zsum_imap_nonneg {A} (g : nat -> A -> Z) l :
  (forall i x, l !! i = Some x -> 0 <= g i x) -> 0 <= zsum (imap g l).
Proof.
  revert g. induction l as [|x l IH]; intros g Hg; [done|]. rewrite imap_cons. cbn [zsum].
  pose proof (Hg 0%nat x eq_refl).
  assert (0 <= zsum (imap (g ∘ S) l)); [|lia].
  apply IH. intros i y Hi. apply (Hg (S i) y Hi).
Qed.

(** ** Recorded attempts *)

(** An attempt: the slice it fell in, and whether it failed. *)
Definition attempt : Type := Z * bool.

(** Attempts of [h] in the slices [P], each weighed by [wt]. *)
Definition hcount (wt : bool -> Z) (P : Z -> bool) (h : list attempt) : Z :=
  zsum (map (fun a => if P a.1 then wt a.2 else 0) h).

Definition all_wt (_ : bool) : Z := 1.
Definition fail_wt (f : bool) : Z := if f then 1 else 0.

Definition slice_in (E e : Z) : bool := (E - stormBucketCount <? e) && (e <=? E).

(** The plain sum over the buckets of the window. *)
Definition psum (get : stormBucket -> Z) (E : Z) (bs : list stormBucket) : Z :=
  zsum (imap (fun _ b => if in_window E b then get b else 0) bs).

Record buckets_ok (bs : list stormBucket) (h : list attempt) (L : Z) : Prop := {
  bo_len : length bs = 64%nat;
  bo_epoch : forall i b, bs !! i = Some b -> 0 <= sb_epoch b <= L;
  bo_samples : forall i b, bs !! i = Some b ->
    sb_samples b = hcount all_wt (fun e => (e =? sb_epoch b) && (e mod 64 =? Z.of_nat i)) h;
  bo_failures : forall i b, bs !! i = Some b ->
    sb_failures b = hcount fail_wt (fun e => (e =? sb_epoch b) && (e mod 64 =? Z.of_nat i)) h;
  bo_hist : forall e f, (e, f) ∈ h -> 0 <= e <= L /\
    (e <= L - 64 \/ exists b, bs !! Z.to_nat (e mod 64) = Some b /\ sb_epoch b = e);
}.

Lemma hcount_nonneg wt P h : (forall f, 0 <= wt f) -> 0 <= hcount wt P h.
Proof.
  intros Hw. unfold hcount. induction h as [|a h IH]; cbn; [done|].
  specialize (Hw a.2). destruct (P a.1); lia.
Qed.

Lemma hcount_le wt P h : (forall f, 0 <= wt f <= 1) -> hcount wt P h <= Z.of_nat (length h).
Proof.
  intros Hw. unfold hcount. induction h as [|a h IH]; cbn [map zsum length]; [done|].
  specialize (Hw a.2). destruct (P a.1); lia.
Qed.

Lemma hcount_none wt P h : (forall e f, (e, f) ∈ h -> P e = false) -> hcount wt P h = 0.
Proof.
  unfold hcount. induction h as [|[e f] h IH]; intros HP; [done|]. cbn.
  rewrite (HP e f) by (by left). rewrite IH; [done|]. intros e' f' Hin. apply (HP e' f'). by right.
Qed.

Lemma window_exchange wt (get : stormBucket -> Z) bs h E L :
  buckets_ok bs h L -> L <= E ->
  (forall i b, bs !! i = Some b ->
     get b = hcount wt (fun e => (e =? sb_epoch b) && (e mod 64 =? Z.of_nat i)) h) ->
  psum get E bs = hcount wt (slice_in E) h.
Proof.
  intros [Hlen _ _ _ Hh] HLE Hget. unfold psum.
  transitivity (zsum (imap (fun i b => if in_window E b
    then hcount wt (fun e => (e =? sb_epoch b) && (e mod 64 =? Z.of_nat i)) h else 0) bs)).
  { f_equal. apply imap_ext. intros i b Hb. by rewrite (Hget i b Hb). }
  clear Hget. induction h as [|[e f] h IH].
  - apply zsum_imap_zero. intros i b _. by destruct (in_window E b).
  - change (hcount wt (slice_in E) ((e, f) :: h))
      with ((if slice_in E e then wt f else 0) + hcount wt (slice_in E) h).
    rewrite <- IH by (intros e' f' Hin; apply (Hh e' f'); by right). clear IH.
    transitivity (zsum (imap (fun i b =>
      (if in_window E b && ((e =? sb_epoch b) && (e mod 64 =? Z.of_nat i)) then wt f else 0) +
      (if in_window E b
       then hcount wt (fun e => (e =? sb_epoch b) && (e mod 64 =? Z.of_nat i)) h else 0)) bs)).
    { f_equal. apply imap_ext. intros i b _. unfold hcount. cbn. by destruct (in_window E b). }
    rewrite zsum_imap_add. f_equal.
    destruct (Hh e f ltac:(by left)) as [He Hor].
    assert (0 <= e mod 64 < 64) as Hm by (apply Z.mod_pos_bound; lia).
    destruct (bs !! Z.to_nat (e mod 64)) as [b|] eqn:Eb.
    2: { apply lookup_ge_None in Eb. lia. }
    rewrite (zsum_imap_single _ _ _ _ Eb).
    + rewrite Z2Nat.id by lia. rewrite Z.eqb_refl, andb_true_r.
      unfold in_window, slice_in, stormBucketCount in *.
      destruct (Z.eqb_spec e (sb_epoch b)) as [->|Hne]; [by rewrite andb_true_r|].
      rewrite andb_false_r. destruct Hor as [Hold|(b' & Hb' & He')]; [|congruence].
      destruct (Z.ltb_spec (E - 64) e); [lia|done].
    + intros i b' _ Hne. destruct (Z.eqb_spec (e mod 64) (Z.of_nat i)) as [Heq|]; [lia|].
      by rewrite !andb_false_r.
Qed.

(** ** The code's sums *)

Lemma stormAdd_exact a b : 0 <= a -> 0 <= b -> a + b <= int64_max -> stormAdd a b = a + b.
Proof.
  intros. unfold stormAdd. destruct (Z.ltb_spec (int64_max - b) a); [lia|].
  apply wrap64_id. unfold in_int64, int64_min. lia.
Qed.

Lemma sum_buckets_exact (get : stormBucket -> Z) E bs :
  (forall i b, bs !! i = Some b -> 0 <= get b) -> psum get E bs <= int64_max ->
  sum_buckets get E bs = psum get E bs.
Proof.
  intros Hnn Hmax. unfold sum_buckets.
  assert (forall acc, 0 <= acc -> acc + psum get E bs <= int64_max ->
    fold_left (fun acc b => if in_window E b then stormAdd acc (get b) else acc) bs acc =
    acc + psum get E bs) as H; [|by apply (H 0)].
  clear Hmax. induction bs as [|b bs IH]; intros acc Ha Hm; [unfold psum; cbn; lia|].
  assert (psum get E (b :: bs) = (if in_window E b then get b else 0) + psum get E bs) as E1 by done.
  pose proof (Hnn 0%nat b eq_refl) as Hb.
  assert (0 <= psum get E bs).
  { apply zsum_imap_nonneg. intros i x Hi. destruct (in_window E x); [|done]. apply (Hnn (S i) x Hi). }
  cbn [fold_left]. rewrite IH; [| |by destruct (in_window E b); [rewrite stormAdd_exact|]; lia|].
  - rewrite E1. destruct (in_window E b); [rewrite stormAdd_exact by lia|]; lia.
  - intros i x Hi. apply (Hnn (S i) x Hi).
  - rewrite E1 in Hm. destruct (in_window E b); [rewrite stormAdd_exact by lia|]; lia.
Qed.

(** ** The scope's invariant *)

Record scope_ok (x : stormScope) (h : list attempt) (L : Z) : Prop := {
  so_buckets : buckets_ok (sc_buckets x) h L;
  so_epoch : 0 <= sc_cachedEpoch x <= L;
  so_samples : sc_cachedSamples x = psum sb_samples (sc_cachedEpoch x) (sc_buckets x);
  so_failures : sc_cachedFailures x = psum sb_failures (sc_cachedEpoch x) (sc_buckets x);
}.

Lemma buckets_later bs h L E : buckets_ok bs h L -> L <= E -> buckets_ok bs h E.
Proof.
  intros [H1 H2 H3 H4 H5] HLE. split; try done.
  - intros i b Hb. specialize (H2 i b Hb). lia.
  - intros e f Hin. destruct (H5 e f Hin) as [He [Hold|Hb]]; (split; [lia|]); [left; lia|by right].
Qed.

Lemma psum_samples bs h L E :
  buckets_ok bs h L -> L <= E -> psum sb_samples E bs = hcount all_wt (slice_in E) h.
Proof. intros Hb HLE. eapply window_exchange; [done|done|apply Hb]. Qed.
Lemma psum_failures bs h L E :
  buckets_ok bs h L -> L <= E -> psum sb_failures E bs = hcount fail_wt (slice_in E) h.
Proof. intros Hb HLE. eapply window_exchange; [done|done|apply Hb]. Qed.

Lemma code_sums bs h L E :
  buckets_ok bs h L -> L <= E -> Z.of_nat (length h) <= int64_max ->
  sum_buckets sb_samples E bs = hcount all_wt (slice_in E) h /\
  sum_buckets sb_failures E bs = hcount fail_wt (slice_in E) h.
Proof.
  intros Hb HLE Hlen.
  assert (forall f, 0 <= all_wt f <= 1) as Hw1 by done.
  assert (forall f, 0 <= fail_wt f <= 1) as Hw2 by (by intros []).
  rewrite <- (psum_samples bs h L E), <- (psum_failures bs h L E) by done.
  split; apply sum_buckets_exact.
  - intros i b Hi. rewrite (bo_samples _ _ _ Hb i b Hi). apply hcount_nonneg. intros f. apply Hw1.
  - rewrite (psum_samples bs h L E) by done. etransitivity; [by apply hcount_le|done].
  - intros i b Hi. rewrite (bo_failures _ _ _ Hb i b Hi). apply hcount_nonneg. intros f. apply Hw2.
  - rewrite (psum_failures bs h L E) by done. etransitivity; [by apply hcount_le|done].
Qed.

Lemma totals_ok x h L now w :
  scope_ok x h L -> L <= stormEpoch now w -> Z.of_nat (length h) <= int64_max ->
  let E := stormEpoch now w in
  let '(x', samples, failures) := totals x now w in
  scope_ok x' h E /\ sc_cachedEpoch x' = E /\ sc_buckets x' = sc_buckets x /\
  samples = hcount all_wt (slice_in E) h /\ failures = hcount fail_wt (slice_in E) h.
Proof.
  intros [Hb He Hs Hf] HLE Hlen. unfold totals. set (E := stormEpoch now w) in *. cbv zeta.
  destruct (code_sums _ h L E Hb HLE Hlen) as [C1 C2].
  pose proof (psum_samples _ h L E Hb HLE) as P1. pose proof (psum_failures _ h L E Hb HLE) as P2.
  destruct (Z.eqb_spec (sc_cachedEpoch x) E) as [Heq|Hne].
  - rewrite Heq in Hs, Hf.
    split_and!; [|done|done|exact (eq_trans Hs P1)|exact (eq_trans Hf P2)].
    split; [by eapply buckets_later|lia|by rewrite Heq|by rewrite Heq].
  - cbn. split_and!; try done.
    split; cbn; [by eapply buckets_later|lia|exact (eq_trans C1 (eq_sym P1))|
      exact (eq_trans C2 (eq_sym P2))].
Qed.

Lemma hcount_cons wt P e f h :
  hcount wt P ((e, f) :: h) = (if P e then wt f else 0) + hcount wt P h.
Proof. done. Qed.

(** Recycling the slot of the current slice. *)
Lemma recycle_ok x h E :
  scope_ok x h E -> sc_cachedEpoch x = E ->
  let x' := if sb_epoch (bucket_at x E) =? E then x
            else set_bucket E (StormBucket E 0 0 0) x in
  scope_ok x' h E /\ sc_cachedEpoch x' = E /\
  exists b, sc_buckets x' !! bucket_index E = Some b /\ sb_epoch b = E.
Proof.
  intros [Hb He Hs Hf] Hc. cbv zeta. destruct Hb as [B1 B2 B3 B4 B5].
  assert (Hm : 0 <= E mod 64 < 64) by (apply Z.mod_pos_bound; lia).
  assert (Hi : bucket_index E = Z.to_nat (E mod 64)).
  { unfold bucket_index, stormBucketCount. rewrite gomod_pos by lia. done. }
  unfold bucket_at, set_bucket. rewrite Hi.
  destruct (sc_buckets x !! Z.to_nat (E mod 64)) as [b|] eqn:Eb.
  2: { apply lookup_ge_None in Eb. lia. }
  change (default zeroBucket (Some b)) with b. destruct (Z.eqb_spec (sb_epoch b) E) as [Heq|Hne].
  { split; [by split|]. split; [done|]. exists b. by rewrite Eb. }
  pose proof (B2 _ _ Eb) as Hbe.
  assert (Hfar : sb_epoch b mod 64 = E mod 64 -> sb_epoch b <= E - 64).
  { intros Heq. rewrite (Z.div_mod (sb_epoch b) 64), (Z.div_mod E 64) in Hne, Hbe |- * by lia. lia. }
  assert (Hzero : in_window E b = true -> sb_samples b = 0 /\ sb_failures b = 0).
  { unfold in_window, stormBucketCount. intros [Hw _]%andb_true_iff. apply Z.ltb_lt in Hw.
    rewrite (B3 _ _ Eb), (B4 _ _ Eb), Z2Nat.id by lia.
    split; apply hcount_none; intros e f _;
      (destruct (Z.eqb_spec e (sb_epoch b)) as [->|]; [|done]);
      (destruct (Z.eqb_spec (sb_epoch b mod 64) (E mod 64)); [lia|done]). }
  assert (Hps : forall get : stormBucket -> Z, (in_window E b = true -> get b = 0) ->
    get (StormBucket E 0 0 0) = 0 ->
    psum get E (<[Z.to_nat (E mod 64) := StormBucket E 0 0 0]> (sc_buckets x)) = psum get E (sc_buckets x)).
  { intros get Hg Hg0. unfold psum. rewrite (zsum_imap_insert _ _ _ _ _ Eb). rewrite Hg0.
    destruct (in_window E b); [rewrite (Hg eq_refl)|]; destruct (in_window E _); lia. }
  split_and!; [|done|].
  - split; cbn; [|lia| |].
    + split.
      * by rewrite length_insert.
      * intros i c [(<- & <- & _)|[_ Hcc]]%list_lookup_insert_Some; [cbn; lia|by eapply B2].
      * intros i c [(<- & <- & _)|[_ Hcc]]%list_lookup_insert_Some; [|by apply B3].
        cbn. symmetry. apply hcount_none. intros e f Hin.
        destruct (Z.eqb_spec e E) as [->|]; [|done]. exfalso.
        destruct (B5 E f Hin) as [_ [?|(c & Hcc & ?)]]; [lia|]. congruence.
      * intros i c [(<- & <- & _)|[_ Hcc]]%list_lookup_insert_Some; [|by apply B4].
        cbn. symmetry. apply hcount_none. intros e f Hin.
        destruct (Z.eqb_spec e E) as [->|]; [|done]. exfalso.
        destruct (B5 E f Hin) as [_ [?|(c & Hcc & ?)]]; [lia|]. congruence.
      * intros e f Hin. destruct (B5 e f Hin) as [Hee [Hold|(c & Hcc & Hce)]]; (split; [done|]);
          [by left|].
        destruct (decide (Z.to_nat (e mod 64) = Z.to_nat (E mod 64))) as [Heq|Hneq].
        -- left. assert (0 <= e mod 64 < 64) by (apply Z.mod_pos_bound; lia).
           rewrite Heq in Hcc. assert (c = b) as -> by congruence. subst e. apply Hfar. lia.
        -- right. exists c. split; [|done]. by rewrite list_lookup_insert_ne.
    + rewrite Hs, Hc. symmetry. apply Hps; [|done]. intros Hw. by apply Hzero.
    + rewrite Hf, Hc. symmetry. apply Hps; [|done]. intros Hw. by apply Hzero.
  - eexists. cbn. rewrite list_lookup_insert_eq; [done|]. by eapply lookup_lt_Some.
Qed.

(** Counting one attempt into the current slot. *)
Lemma count_ok x h E b failed :
  scope_ok x h E -> sc_cachedEpoch x = E -> sc_buckets x !! bucket_index E = Some b ->
  sb_epoch b = E -> Z.of_nat (length h) < int64_max ->
  let b1 := StormBucket E (sb_samples b + 1) (sb_failures b + fail_wt failed) (sb_errorRequests b) in
  forall x', sc_buckets x' = <[bucket_index E := b1]> (sc_buckets x) ->
    sc_cachedEpoch x' = E -> sc_cachedSamples x' = sc_cachedSamples x + 1 ->
    sc_cachedFailures x' = sc_cachedFailures x + fail_wt failed ->
    scope_ok x' ((E, failed) :: h) E.
Proof.
  intros [[B1 B2 B3 B4 B5] He Hs Hf] Hc Hb Hbe Hlen b1 x' Hx1 Hx2 Hx3 Hx4.
  assert (Hm : 0 <= E mod 64 < 64) by (apply Z.mod_pos_bound; lia).
  assert (Hi : bucket_index E = Z.to_nat (E mod 64)).
  { unfold bucket_index, stormBucketCount. rewrite gomod_pos by lia. done. }
  assert (Hps : forall get : stormBucket -> Z, psum get E (sc_buckets x') =
    psum get E (sc_buckets x) - get b + get b1).
  { intros get. unfold psum. rewrite Hx1, (zsum_imap_insert _ _ _ _ _ Hb).
    unfold in_window, b1, stormBucketCount. cbn [sb_epoch]. rewrite Hbe.
    replace (E - 64 <? E) with true by (symmetry; apply Z.ltb_lt; lia).
    rewrite Z.leb_refl. cbn [andb]. lia. }
  split.
  - split.
    + by rewrite Hx1, length_insert.
    + rewrite Hx1. intros i c [(<- & <- & _)|[_ Hcc]]%list_lookup_insert_Some; [unfold b1; cbn; lia|by eapply B2].
    + rewrite Hx1. intros i c [(<- & <- & _)|[Hne Hcc]]%list_lookup_insert_Some; rewrite hcount_cons.
      * unfold b1. cbn [sb_samples sb_failures sb_epoch]. rewrite Z.eqb_refl, Hi, Z2Nat.id, Z.eqb_refl by lia. cbn.
        rewrite (B3 _ _ Hb), Hbe, Hi, Z2Nat.id by lia. unfold all_wt. lia.
      * rewrite (B3 _ _ Hcc). rewrite Hi in Hne.
        destruct (Z.eqb_spec (E mod 64) (Z.of_nat i)); [lia|]. by rewrite andb_false_r.
    + rewrite Hx1. intros i c [(<- & <- & _)|[Hne Hcc]]%list_lookup_insert_Some; rewrite hcount_cons.
      * unfold b1. cbn [sb_samples sb_failures sb_epoch]. rewrite Z.eqb_refl, Hi, Z2Nat.id, Z.eqb_refl by lia. cbn.
        rewrite (B4 _ _ Hb), Hbe, Hi, Z2Nat.id by lia. lia.
      * rewrite (B4 _ _ Hcc). rewrite Hi in Hne.
        destruct (Z.eqb_spec (E mod 64) (Z.of_nat i)); [lia|]. by rewrite andb_false_r.
    + intros e f [[= -> ->]|Hin]%elem_of_cons.
      * split; [lia|]. right. exists b1. rewrite Hx1, <- Hi, list_lookup_insert_eq; [done|].
        by eapply lookup_lt_Some.
      * destruct (B5 e f Hin) as [Hee [Hold|(c & Hcc & Hce)]]; (split; [done|]); [by left|right].
        rewrite Hx1. destruct (decide (bucket_index E = Z.to_nat (e mod 64))) as [Heq|Hneq].
        -- exists b1. rewrite <- Heq, list_lookup_insert_eq by (by eapply lookup_lt_Some).
           split; [done|]. cbn. rewrite <- Heq, Hb in Hcc. injection Hcc as <-. congruence.
        -- exists c. by rewrite list_lookup_insert_ne.
  - lia.
  - rewrite Hx2, Hx3, Hs, Hc, Hps. cbn. lia.
  - rewrite Hx2, Hx4, Hf, Hc, Hps. cbn. lia.
Qed.

(** ** Epochs advance with the clock *)

Definition in_clock (now : Time) : Prop := unixEpoch <= now <= unixEpoch + int64_max.

Lemma UnixNano_clock now : in_clock now -> UnixNano now = now - unixEpoch.
Proof.
  unfold in_clock, UnixNano, int64_max. intros. apply wrap64_id.
  unfold in_int64, int64_min, int64_max. lia.
Qed.

Lemma stormEpoch_mono now now' w :
  in_clock now -> in_clock now' -> now <= now' -> 0 <= stormEpoch now w <= stormEpoch now' w.
Proof.
  intros H1 H2 Hle. unfold stormEpoch. rewrite !UnixNano_clock by done.
  unfold in_clock in *. set (d := godiv w stormBucketCount).
  assert (0 < (if d <? Nanosecond then Nanosecond else d)) as Hw.
  { unfold Nanosecond. destruct (Z.ltb_spec d 1); lia. }
  rewrite !godiv_pos by lia. split; [apply Z.div_pos; lia|apply Z.div_le_mono; lia].
Qed.

(** ** The operations on a scope *)

Lemma sample_ok x h L now w failed :
  scope_ok x h L -> L <= stormEpoch now w -> Z.of_nat (length h) < int64_max ->
  scope_ok (sample x now w failed) ((stormEpoch now w, failed) :: h) (stormEpoch now w).
Proof.
  intros Hx HLE Hlen. pose proof (totals_ok x h L now w Hx HLE ltac:(lia)) as Ht.
  unfold sample. destruct (totals x now w) as [[x1 smp] flr].
  cbv zeta in Ht. destruct Ht as (Hx1 & Hc1 & _). set (E := stormEpoch now w) in *.
  destruct (recycle_ok x1 h E Hx1 Hc1) as (Hx2 & Hc2 & b & Hb & Hbe).
  set (x2 := if sb_epoch (bucket_at x1 E) =? E then x1
             else set_bucket E (StormBucket E 0 0 0) x1) in *.
  assert (bucket_at x2 E = b) as Hat by (unfold bucket_at; by rewrite Hb).
  cbv zeta. rewrite Hat.
  destruct Hx2 as [HB He Hs Hf].
  assert (Hcs : 0 <= sb_samples b <= Z.of_nat (length h)).
  { rewrite (bo_samples _ _ _ HB _ _ Hb). split; [apply hcount_nonneg|apply hcount_le]; done. }
  assert (Hcf : 0 <= sb_failures b <= Z.of_nat (length h)).
  { rewrite (bo_failures _ _ _ HB _ _ Hb).
    split; [apply hcount_nonneg|apply hcount_le]; by intros []. }
  assert (Hss : 0 <= sc_cachedSamples x2 <= Z.of_nat (length h)).
  { rewrite Hs, Hc2, (psum_samples _ h E E) by done.
    split; [apply hcount_nonneg|apply hcount_le]; done. }
  assert (Hsf : 0 <= sc_cachedFailures x2 <= Z.of_nat (length h)).
  { rewrite Hf, Hc2, (psum_failures _ h E E) by done.
    split; [apply hcount_nonneg|apply hcount_le]; by intros []. }
  unfold foldCounters. cbn [Z.leb Z.compare]. clearbody x2.
  rewrite (stormAdd_exact (sb_samples b) 1), (stormAdd_exact (sc_cachedSamples x2) 1) by lia.
  assert (bucket_index E < length (sc_buckets x2))%nat as Hlt by (by eapply lookup_lt_Some).
  assert (HX : scope_ok x2 h E) by done.
  destruct failed; cbv beta iota zeta; cbn [sb_failures sb_samples sb_epoch sb_errorRequests].
  - change (sc_cachedFailures (set_sc_cachedSamples _ _)) with (sc_cachedFailures x2).
    rewrite (stormAdd_exact (sb_failures b) 1), (stormAdd_exact (sc_cachedFailures x2) 1) by lia.
    apply (count_ok x2 h E b true HX Hc2 Hb Hbe Hlen); try done.
    cbn. rewrite list_insert_insert_eq, Hbe. done.
  - apply (count_ok x2 h E b false HX Hc2 Hb Hbe Hlen); cbn; [|done|done|lia].
    rewrite Hbe, Z.add_0_r. done.
Qed.

Lemma psum_errorRequests (get : stormBucket -> Z) E bs j b n :
  (forall e s f n1 n2, get (StormBucket e s f n1) = get (StormBucket e s f n2)) ->
  bs !! j = Some b ->
  psum get E (<[j := StormBucket (sb_epoch b) (sb_samples b) (sb_failures b) n]> bs) = psum get E bs.
Proof.
  intros Hg Hb. unfold psum. rewrite (zsum_imap_insert _ _ _ _ _ Hb).
  unfold in_window. cbn [sb_epoch]. destruct b as [e s f n0]. cbn.
  rewrite (Hg e s f n n0). lia.
Qed.

Lemma add_errorRequests_ok n e x h L :
  0 <= e -> scope_ok x h L -> scope_ok (add_errorRequests n e x) h L.
Proof.
  intros He0 [[B1 B2 B3 B4 B5] He Hs Hf].
  assert (Hm : 0 <= e mod 64 < 64) by (apply Z.mod_pos_bound; lia).
  assert (Hi : bucket_index e = Z.to_nat (e mod 64)).
  { unfold bucket_index, stormBucketCount. rewrite gomod_pos by lia. done. }
  unfold add_errorRequests, bucket_at. rewrite Hi.
  destruct (sc_buckets x !! Z.to_nat (e mod 64)) as [b|] eqn:Eb.
  2: { apply lookup_ge_None in Eb. lia. }
  change (default zeroBucket (Some b)) with b.
  destruct (foldCounters (sb_errorRequests b) (sc_cachedErrorRequests x) n) as [nb nc].
  unfold set_bucket. rewrite Hi. split; cbn; [|done| |].
  - split.
    + by rewrite length_insert.
    + intros i c [(<- & <- & _)|[_ Hcc]]%list_lookup_insert_Some; [exact (B2 _ _ Eb)|by eapply B2].
    + intros i c [(<- & <- & _)|[_ Hcc]]%list_lookup_insert_Some; [|by apply B3].
      exact (B3 _ _ Eb).
    + intros i c [(<- & <- & _)|[_ Hcc]]%list_lookup_insert_Some; [|by apply B4].
      exact (B4 _ _ Eb).
    + intros e1 f1 Hin. destruct (B5 e1 f1 Hin) as [Hee [Hold|(c & Hcc & Hce)]];
        (split; [done|]); [by left|right].
      destruct (decide (Z.to_nat (e mod 64) = Z.to_nat (e1 mod 64))) as [Heq|Hne].
      * rewrite <- Heq in Hcc |- *. rewrite list_lookup_insert_eq by (by eapply lookup_lt_Some).
        eexists; split; [done|]. cbn. congruence.
      * exists c. by rewrite list_lookup_insert_ne.
  - rewrite Hs. symmetry. by apply psum_errorRequests.
  - rewrite Hf. symmetry. by apply psum_errorRequests.
Qed.

(** What the request dedup slots of an observation hold. *)
Definition slots_ok (obs : option StormObservation) : Prop :=
  forall slots, obs = Some slots -> Forall (fun s => 0 <= os_epoch s) slots.

Lemma observeRequest_ok sid x h L now w obs i :
  in_clock now -> slots_ok obs -> scope_ok x h L ->
  scope_ok (observeRequest sid x now w obs i).1 h L /\ slots_ok (observeRequest sid x now w obs i).2.
Proof.
  intros Hclk Hsl Hx. destruct (stormEpoch_mono now now w Hclk Hclk ltac:(lia)) as [HE _].
  unfold observeRequest. set (E := stormEpoch now w) in *. cbv zeta.
  destruct obs as [slots|]; cbn [fst snd]; [|split; [by apply add_errorRequests_ok|done]].
  specialize (Hsl slots eq_refl).
  assert (H0 : 0 <= os_epoch (default zeroSlot (slots !! i))).
  { destruct (slots !! i) as [s|] eqn:Es; [|done]. cbn. rewrite Forall_forall in Hsl.
    apply Hsl. by eapply list_elem_of_lookup_2. }
  set (slot := default zeroSlot (slots !! i)) in *.
  destruct (bool_decide _ && _ && (os_epoch slot =? E)); [split; [done|by intros ? [= <-]]|].
  split.
  - destruct (_ && _ && (sb_epoch _ =? _)); cbn [fst]; [|by apply add_errorRequests_ok].
    by apply add_errorRequests_ok, add_errorRequests_ok.
  - intros ? [= <-]. by apply Forall_insert.
Qed.

(** ** Histories of a scope *)

(** What can happen to a scope's sampler: an attempt is recorded, its totals
    are read, a request is counted, its samples are cleared. *)
Inductive scopeEvent :=
  | EvSample (failed : bool)
  | EvTotals
  | EvRequest (sid : nat) (obs : option StormObservation) (index : nat)
  | EvReset.

Definition scope_event (w : Duration) (x : stormScope) (now : Time) (ev : scopeEvent) : stormScope :=
  match ev with
  | EvSample failed => sample x now w failed
  | EvTotals => (totals x now w).1.1
  | EvRequest sid obs i => (observeRequest sid x now w obs i).1
  | EvReset => resetSamples x
  end.

Definition scope_events (w : Duration) (x : stormScope) (evs : list (Time * scopeEvent)) : stormScope :=
  fold_left (fun x e => scope_event w x e.1 e.2) evs x.

(** The attempts recorded since the last reset, with the slice each fell in. *)
Definition attempts (w : Duration) (evs : list (Time * scopeEvent)) : list attempt :=
  fold_left (fun h e => match e.2 with
    | EvSample failed => (stormEpoch e.1 w, failed) :: h
    | EvReset => []
    | _ => h
    end) evs [].

(** Attempts in the last 64 slices, and the failed ones among them. *)
Definition recent_samples (E : Z) (h : list attempt) : Z := hcount all_wt (slice_in E) h.
Definition recent_failures (E : Z) (h : list attempt) : Z := hcount fail_wt (slice_in E) h.

(** The clock readings of the events, in order, between [from] and [to]. *)
Fixpoint clock_order (from to : Time) (evs : list (Time * scopeEvent)) : Prop :=
  match evs with
  | [] => from <= to
  | e :: evs => from <= e.1 /\ clock_order e.1 to evs
  end.

Definition event_ok (e : Time * scopeEvent) : Prop :=
  match e.2 with EvRequest _ obs _ => slots_ok obs | _ => True end.

Lemma zero_buckets_ok L : 0 <= L -> buckets_ok zeroBuckets [] L.
Proof.
  intros HL. split; [done| | | |].
  - intros i b Hb%lookup_replicate. destruct Hb as [-> _]. cbn. lia.
  - intros i b Hb%lookup_replicate. by destruct Hb as [-> _].
  - intros i b Hb%lookup_replicate. by destruct Hb as [-> _].
  - intros e f Hin. by apply elem_of_nil in Hin.
Qed.

Lemma psum_zero_buckets get E : get zeroBucket = 0 -> psum get E zeroBuckets = 0.
Proof.
  intros Hg. apply zsum_imap_zero. intros i b Hb%lookup_replicate. destruct Hb as [-> _].
  rewrite Hg. by destruct (in_window E zeroBucket).
Qed.

Lemma fresh_scope_ok x L :
  0 <= L -> sc_buckets x = zeroBuckets -> sc_cachedEpoch x = 0 -> sc_cachedSamples x = 0 ->
  sc_cachedFailures x = 0 -> scope_ok x [] L.
Proof.
  intros HL H1 H2 H3 H4. split; rewrite ?H1, ?H2, ?H3, ?H4; [by apply zero_buckets_ok|lia| |];
    symmetry; by apply psum_zero_buckets.
Qed.

Lemma scope_ok_later x h L E : scope_ok x h L -> L <= E -> scope_ok x h E.
Proof. intros [H1 H2 H3 H4] HL. split; [by eapply buckets_later|lia|done|done]. Qed.

Lemma scope_event_ok w x h L now ev :
  in_clock now -> event_ok (now, ev) -> L <= stormEpoch now w ->
  Z.of_nat (length h) < int64_max -> scope_ok x h L ->
  scope_ok (scope_event w x now ev)
    (match ev with EvSample failed => (stormEpoch now w, failed) :: h | EvReset => [] | _ => h end)
    (stormEpoch now w).
Proof.
  intros Hc Hev HL Hlen Hx. destruct (stormEpoch_mono now now w Hc Hc ltac:(lia)) as [H0 _].
  destruct ev as [failed| |sid obs i|]; cbn [scope_event].
  - by eapply sample_ok.
  - pose proof (totals_ok x h L now w Hx HL ltac:(lia)) as Ht.
    destruct (totals x now w) as [[x1 s1] f1]. by destruct Ht as [Ht _].
  - apply scope_ok_later with (L := L); [|done]. by apply observeRequest_ok.
  - by apply fresh_scope_ok.
Qed.

Lemma clock_order_le from to evs : clock_order from to evs -> from <= to.
Proof. revert from. induction evs as [|e evs IH]; intros from; cbn; [done|]. intros [? ?%IH]. lia. Qed.

Lemma attempts_length w evs h :
  (length (fold_left (fun h e => match e.2 with
    | EvSample failed => (stormEpoch e.1 w, failed) :: h
    | EvReset => []
    | _ => h
    end) evs h) <= length evs + length h)%nat.
Proof.
  revert h. induction evs as [|[t ev] evs IH]; intros h; cbn [fold_left length]; [lia|].
  etransitivity; [apply IH|]. destruct ev; cbn; lia.
Qed.

Lemma scope_events_ok w evs : forall x h from to,
  scope_ok x h (stormEpoch from w) -> in_clock from -> in_clock to ->
  clock_order from to evs -> Forall event_ok evs ->
  Z.of_nat (length evs) + Z.of_nat (length h) <= int64_max ->
  scope_ok (scope_events w x evs)
    (fold_left (fun h e => match e.2 with
      | EvSample failed => (stormEpoch e.1 w, failed) :: h
      | EvReset => []
      | _ => h
      end) evs h) (stormEpoch to w).
Proof.
  induction evs as [|[t ev] evs IH]; intros x h from to Hx Hf Ht Ho Hev Hlen; cbn in Ho.
  - eapply scope_ok_later; [done|]. by apply stormEpoch_mono.
  - destruct Ho as [Hle Ho]. pose proof (clock_order_le _ _ _ Ho) as Hto.
    apply Forall_cons in Hev as [He Hev]. cbn [length] in Hlen. cbn [fold_left fst snd].
    assert (in_clock t) as Hct by (unfold in_clock in *; lia).
    assert (stormEpoch from w <= stormEpoch t w) as Hm by (by apply stormEpoch_mono).
    apply (IH _ _ t); try done.
    + apply (scope_event_ok w x h (stormEpoch from w) t ev); try done. lia.
    + destruct ev; cbn [length]; lia.
Qed.

(** The rolling window is exact: whatever sequence of recorded attempts,
    reads, request counts and clearings a fresh scope goes through under a
    clock that does not run backwards, the totals it then reports are the
    number of attempts, and of failed ones, recorded since the last clearing
    that fell in the last 64 time slices; nothing is lost when a slot is
    recycled, counted twice, or kept past its slice. *)
Theorem storm_window_exact key start w evs now :
  in_clock start -> in_clock now -> clock_order start now evs -> Forall event_ok evs ->
  Z.of_nat (length evs) <= int64_max ->
  let E := stormEpoch now w in
  (totals (scope_events w (newScope key start) evs) now w).1.2 =
    recent_samples E (attempts w evs) /\
  (totals (scope_events w (newScope key start) evs) now w).2 =
    recent_failures E (attempts w evs).
Proof.
  intros Hs Hn Ho Hev Hlen E.
  destruct (stormEpoch_mono start start w Hs Hs (Z.le_refl _)) as [H0 _].
  pose proof (scope_events_ok w evs (newScope key start) [] start now
    ltac:(by apply fresh_scope_ok) Hs Hn Ho Hev ltac:(cbn; lia)) as Hx.
  assert (Z.of_nat (length (attempts w evs)) <= int64_max) as Hl.
  { assert (length (attempts w evs) <= length evs + 0)%nat as Hl by apply attempts_length. lia. }
  pose proof (totals_ok _ _ _ now w Hx (Z.le_refl _) Hl) as Ht.
  destruct (totals _ now w) as [[x' s'] f']. by destruct Ht as (_ & _ & _ & -> & ->).
Qed.

Definition window_key : stormKey := Build_stormKey "p" "" false.
Definition window_t (s : Z) : Time := unixEpoch + s * Second.
Definition window_evs : list (Time * scopeEvent) :=
  [(window_t 1, EvSample true); (window_t 2, EvSample false); (window_t 60, EvTotals);
   (window_t 63, EvRequest 0 None 0); (window_t 65, EvSample true)].

(** A window of 64 s: the first attempt has left it 64 s later. *)
Lemma storm_window_exact_witness :
  (totals (scope_events (64 * Second) (newScope window_key (window_t 0)) window_evs)
     (window_t 65) (64 * Second)).1.2 = 2 /\
  (totals (scope_events (64 * Second) (newScope window_key (window_t 0)) window_evs)
     (window_t 65) (64 * Second)).2 = 1.
Proof.
  assert (in_clock (window_t 0)) by (vm_compute; split; discriminate).
  assert (in_clock (window_t 65)) by (vm_compute; split; discriminate).
  assert (clock_order (window_t 0) (window_t 65) window_evs)
    by (cbn; repeat split; vm_compute; discriminate).
  assert (Forall event_ok window_evs) by (repeat constructor; intros ? [=]).
  assert (Z.of_nat (length window_evs) <= int64_max) by (vm_compute; discriminate).
  destruct (storm_window_exact window_key (window_t 0) (64 * Second) window_evs (window_t 65))
    as [G1 G2]; [done..|].
  rewrite G1, G2. split; vm_compute; reflexivity.
Defined.
