(* ===== verification/Gate.v ===== *)
(** internal/scheduler/throttle.go, the rest: the token bucket, the live gate of
    a provider (concurrency, request window, token bucket), the leases it grants
    and settles, and the policy map the gates live in. *)

From S2P Require Import Prelude GoTime GoFloat WakeTimer Pacing Window.

Definition TokensUnavailable : Z := -1.
Definition maxProviderGates : Z := 4096.

Record Limit := {
  lim_Concurrency : Z;
  lim_Requests : Z;
  lim_ReqWindow : Duration;
  lim_Tokens : Z;
  lim_TokWindow : Duration;
  lim_AntiBurst : bool;
  lim_RampDuration : Duration;
}.

#[export] Instance Limit_eq_dec : EqDecision Limit.
Proof. solve_decision. Defined.

Definition zeroLimit : Limit := Build_Limit 0 0 0 0 0 false 0.

Definition Limit_Active (l : Limit) : bool :=
  (0 <? lim_Concurrency l) ||
  ((0 <? lim_Requests l) && (0 <? lim_ReqWindow l)) ||
  ((0 <? lim_Tokens l) && (0 <? lim_TokWindow l)).

Definition rampActive (l : Limit) : bool :=
  lim_AntiBurst l && (2 <=? lim_Concurrency l) && (0 <? lim_RampDuration l).

Definition normalized (l : Limit) : Limit :=
  Build_Limit (lim_Concurrency l) (lim_Requests l)
    (if lim_Requests l =? 0 then 0 else lim_ReqWindow l) (lim_Tokens l)
    (if lim_Tokens l =? 0 then 0 else lim_TokWindow l) (lim_AntiBurst l) (lim_RampDuration l).

Record Throttle := MkThrottle {
  th_Provider : string;
  th_Limit : Limit;
  th_Source : string;
  th_UpdatedBy : string;
  th_UpdatedAt : Time;
}.

Definition zeroThrottle : Throttle := MkThrottle "" zeroLimit "" "" zeroTime.

(** ** The token bucket *)

Record bucket := Bucket {
  bk_enabled : bool;
  bk_rate : float64;
  bk_capacity : float64;
  bk_tokens : float64;
  bk_last : Time;
}.

Definition set_bk_enabled (v : bool) (x : bucket) : bucket :=
  Bucket v (bk_rate x) (bk_capacity x) (bk_tokens x) (bk_last x).
Definition set_bk_rate (v : float64) (x : bucket) : bucket :=
  Bucket (bk_enabled x) v (bk_capacity x) (bk_tokens x) (bk_last x).
Definition set_bk_capacity (v : float64) (x : bucket) : bucket :=
  Bucket (bk_enabled x) (bk_rate x) v (bk_tokens x) (bk_last x).
Definition set_bk_tokens (v : float64) (x : bucket) : bucket :=
  Bucket (bk_enabled x) (bk_rate x) (bk_capacity x) v (bk_last x).
Definition set_bk_last (v : Time) (x : bucket) : bucket :=
  Bucket (bk_enabled x) (bk_rate x) (bk_capacity x) (bk_tokens x) v.

Definition zeroBucketTok : bucket := Bucket false fzero fzero fzero zeroTime.

Definition refill (b : bucket) (now : Time) : bucket :=
  if negb (bk_enabled b) || fleb (bk_rate b) fzero then b else
  if IsZero (bk_last b) then set_bk_last now b else
  let elapsed := Seconds (Sub now (bk_last b)) in
  if fleb elapsed fzero then b else
  let tokens := fadd (bk_tokens b) (fmul elapsed (bk_rate b)) in
  let tokens := if fltb (bk_capacity b) tokens then bk_capacity b else tokens in
  set_bk_last now (set_bk_tokens tokens b).

Definition bucket_reset (b : bucket) (count : Z) (window : Duration) (now : Time) : bucket :=
  if (count <=? 0) || (window <=? 0) then zeroBucketTok else
  let cap := of_int count in
  let rate := fdiv cap (Seconds window) in
  let tokens :=
    if bk_enabled b then
      let b := refill b now in
      if fltb (bk_capacity b) cap then
        let tokens := fadd (bk_tokens b) (fsub cap (bk_capacity b)) in
        if fltb cap tokens then cap else tokens
      else if fltb cap (bk_tokens b) then cap else bk_tokens b
    else cap in
  Bucket true rate cap tokens now.

Definition maxBucketWait : Duration := MaxRetryHint.

Definition bucket_waitFor (b : bucket) (n : float64) (now : Time) : bucket * Duration :=
  if negb (bk_enabled b) || fleb (bk_rate b) fzero then (b, 0) else
  let b := refill b now in
  if fleb n (bk_tokens b) then (b, 0) else
  let need := fsub n (bk_tokens b) in
  let sec := fdiv need (bk_rate b) in
  let sec := if fltb (Seconds maxBucketWait) sec then Seconds maxBucketWait else sec in
  let d := to_int64 (fmul sec (of_int Second)) in
  (b, if d <? Millisecond then Millisecond else d).

(** ** The gate of one provider *)

Record providerGate := ProviderGate {
  pg_throttle : Throttle;
  pg_inFlight : Z;
  pg_reserved : Z;
  pg_req : strictWindow;
  pg_tok : bucket;
  pg_tokEpoch : Z;
  pg_wake : wakeTimer;
}.

Definition set_pg_throttle (v : Throttle) (x : providerGate) : providerGate :=
  ProviderGate v (pg_inFlight x) (pg_reserved x) (pg_req x) (pg_tok x) (pg_tokEpoch x) (pg_wake x).
Definition set_pg_inFlight (v : Z) (x : providerGate) : providerGate :=
  ProviderGate (pg_throttle x) v (pg_reserved x) (pg_req x) (pg_tok x) (pg_tokEpoch x) (pg_wake x).
Definition set_pg_reserved (v : Z) (x : providerGate) : providerGate :=
  ProviderGate (pg_throttle x) (pg_inFlight x) v (pg_req x) (pg_tok x) (pg_tokEpoch x) (pg_wake x).
Definition set_pg_req (v : strictWindow) (x : providerGate) : providerGate :=
  ProviderGate (pg_throttle x) (pg_inFlight x) (pg_reserved x) v (pg_tok x) (pg_tokEpoch x)
    (pg_wake x).
Definition set_pg_tok (v : bucket) (x : providerGate) : providerGate :=
  ProviderGate (pg_throttle x) (pg_inFlight x) (pg_reserved x) (pg_req x) v (pg_tokEpoch x)
    (pg_wake x).
Definition set_pg_tokEpoch (v : Z) (x : providerGate) : providerGate :=
  ProviderGate (pg_throttle x) (pg_inFlight x) (pg_reserved x) (pg_req x) (pg_tok x) v (pg_wake x).
Definition set_pg_wake (v : wakeTimer) (x : providerGate) : providerGate :=
  ProviderGate (pg_throttle x) (pg_inFlight x) (pg_reserved x) (pg_req x) (pg_tok x)
    (pg_tokEpoch x) v.

Definition newProviderGate : providerGate :=
  ProviderGate zeroThrottle 0 0 zeroWindow zeroBucketTok 0 newWakeTimer.

(** A lease; [ad_gate] names the gate by identity, [None] is the nil gate. *)
Record admission := { ad_gate : option nat; ad_reserved : Z; ad_tokEpoch : Z }.
Definition zeroAdmission : admission := Build_admission None 0 0.

Definition resetBuckets (g : providerGate) (l : Limit) (now : Time) : providerGate :=
  let g :=
    if Bool.eqb (bk_enabled (pg_tok g)) ((0 <? lim_Tokens l) && (0 <? lim_TokWindow l)) then g
    else set_pg_tokEpoch (u64 (pg_tokEpoch g + 1)) g in
  set_pg_tok (bucket_reset (pg_tok g) (lim_Tokens l) (lim_TokWindow l) now)
    (set_pg_req (window_reset (lim_Requests l) (lim_ReqWindow l) now) g).

(** blocked: the gate after its refill and prune, the verdict, the wait. *)
Definition gate_blocked (g : providerGate) (est : Z) (now : Time) : providerGate * bool * Duration :=
  let lim := th_Limit (pg_throttle g) in
  if negb (Limit_Active lim) then (g, false, 0) else
  let g := set_pg_tok (refill (pg_tok g) now) g in
  if (0 <? lim_Concurrency lim) && (lim_Concurrency lim <=? pg_inFlight g) then (g, true, 0) else
  let '(req, wait, blocked) := window_waitFor (pg_req g) now in
  let g := set_pg_req req g in
  if blocked : bool then (g, true, wait) else
  if bk_enabled (pg_tok g) then
    let need := of_int est in
    if fleb need fzero then
      if fleb (bk_tokens (pg_tok g)) fzero then
        let '(tok, wait) := bucket_waitFor (pg_tok g) (of_int 1) now in (set_pg_tok tok g, true, wait)
      else (g, false, 0)
    else if fltb (bk_capacity (pg_tok g)) need then
      if fleb (bk_tokens (pg_tok g)) fzero then
        let '(tok, wait) := bucket_waitFor (pg_tok g) (of_int 1) now in (set_pg_tok tok g, true, wait)
      else (g, false, 0)
    else if fltb (bk_tokens (pg_tok g)) need then
      let '(tok, wait) := bucket_waitFor (pg_tok g) need now in (set_pg_tok tok g, true, wait)
    else (g, false, 0)
  else (g, false, 0).

(** tryAdmit of the gate with identity [gid]. *)
Definition gate_tryAdmit (gid : nat) (g : providerGate) (est : Z) (now : Time)
    : providerGate * bool * admission * Duration :=
  if negb (Limit_Active (th_Limit (pg_throttle g))) then (g, true, zeroAdmission, 0) else
  let '(g, blocked, wait) := gate_blocked g est now in
  if blocked : bool then (g, false, zeroAdmission, wait) else
  let reserved := if bk_enabled (pg_tok g) && (0 <? est) then est else 0 in
  let g := set_pg_inFlight (pg_inFlight g + 1) g in
  let g := set_pg_req (window_admit (pg_req g) now) g in
  let g :=
    if 0 <? reserved then
      set_pg_reserved (wrap64 (pg_reserved g + reserved))
        (set_pg_tok (set_bk_tokens (fsub (bk_tokens (pg_tok g)) (of_int reserved)) (pg_tok g)) g)
    else g in
  (g, true, Build_admission (Some gid) reserved (pg_tokEpoch g), 0).

(** settle on the lease's own gate. *)
Definition gate_settle (g : providerGate) (a : admission) (actual : Z) (now : Time) : providerGate :=
  let g :=
    if negb (ad_reserved a =? 0) then
      let reserved := wrap64 (pg_reserved g - ad_reserved a) in
      set_pg_reserved (if reserved <? 0 then 0 else reserved) g
    else g in
  let g :=
    if bk_enabled (pg_tok g) && (pg_tokEpoch g =? ad_tokEpoch a) then
      let tok := refill (pg_tok g) now in
      set_pg_tok
        (if 0 <=? actual
         then set_bk_tokens (fsub (bk_tokens tok) (of_int (wrap64 (actual - ad_reserved a)))) tok
         else tok) g
    else g in
  if 0 <? pg_inFlight g then set_pg_inFlight (pg_inFlight g - 1) g else g.

(** Tokens and requests left, as snapshot reports them. *)
Record ThrottleInfo := {
  ti_Throttle : Throttle;
  ti_InFlight : Z;
  ti_Queued : Z;
  ti_ReqRemaining : Z;
  ti_TokRemaining : float64;
  ti_ReqCapacity : Z;
  ti_TokCapacity : float64;
}.

Definition gate_snapshot (g : providerGate) (queued : Z) (now : Time) : providerGate * ThrottleInfo :=
  let g := set_pg_tok (refill (pg_tok g) now) g in
  let '(req, remaining) := window_remaining (pg_req g) now in
  let g := set_pg_req req g in
  (g, {| ti_Throttle := pg_throttle g; ti_InFlight := pg_inFlight g; ti_Queued := queued;
         ti_ReqRemaining := remaining;
         ti_TokRemaining := if bk_enabled (pg_tok g) then bk_tokens (pg_tok g) else fzero;
         ti_ReqCapacity := window_capacity (pg_req g);
         ti_TokCapacity := if bk_enabled (pg_tok g) then bk_capacity (pg_tok g) else fzero |}).

(** ** The policy map *)

(** The gates by identity (a lease can outlive its gate's map entry) and the
    map that names the installed ones; its published read view [gateSnap] is
    replaced in the critical sections that change the map. *)
Record gateState := GateState {
  gs_gates : gmap string nat;
  gs_heap : gmap nat providerGate;
}.

Definition gate_of (s : gateState) (gid : nat) : providerGate :=
  default newProviderGate (gs_heap s !! gid).
Definition set_gate (gid : nat) (g : providerGate) (s : gateState) : gateState :=
  GateState (gs_gates s) (<[gid := g]> (gs_heap s)).

Definition gate (s : gateState) (provider : string) : option nat :=
  if bool_decide (provider = "") then None else gs_gates s !! provider.

Definition ramp_shape (l : Limit) : Z * bool * Duration :=
  (lim_Concurrency l, lim_AntiBurst l, lim_RampDuration l).

(** The new state, whether the effective limit changed, and whether the ramp
    shape did (then every group of the provider has its epoch reset). *)
Definition UpdateThrottle (s : gateState) (provider : string) (update : Throttle -> Throttle)
    (now : Time) : gateState * bool * bool :=
  if bool_decide (provider = "") then (s, false, false) else
  let g := gs_gates s !! provider in
  let cur := match g with Some gid => pg_throttle (gate_of s gid) | None => zeroThrottle end in
  let t := update cur in
  let t := MkThrottle provider (normalized (th_Limit t)) (th_Source t) (th_UpdatedBy t)
             (th_UpdatedAt t) in
  if bool_decide (th_Limit cur = th_Limit t) ||
     (bool_decide (g = None) && negb (Limit_Active (th_Limit t)))
  then (s, false, false) else
  let rampChanged := negb (bool_decide (ramp_shape (th_Limit cur) = ramp_shape (th_Limit t))) in
  let s := match g with
           | Some gid => set_gate gid (set_pg_wake (stop (pg_wake (gate_of s gid))) (gate_of s gid)) s
           | None => s
           end in
  if negb (Limit_Active (th_Limit t)) then
    match g with
    | Some gid =>
        (GateState (delete provider (gs_gates s))
           (<[gid := set_pg_throttle zeroThrottle (gate_of s gid)]> (gs_heap s)), true, rampChanged)
    | None => (s, true, rampChanged)
    end
  else
  let t := if IsZero (th_UpdatedAt t)
           then MkThrottle (th_Provider t) (th_Limit t) (th_Source t) (th_UpdatedBy t) now else t in
  match g with
  | None =>
      if maxProviderGates <=? Z.of_nat (size (gs_gates s)) then (s, false, false) else
      let gid := fresh (dom (gs_heap s)) in
      (GateState (<[provider := gid]> (gs_gates s))
         (<[gid := resetBuckets (set_pg_throttle t newProviderGate) (th_Limit t) now]> (gs_heap s)),
       true, rampChanged)
  | Some gid =>
      (set_gate gid (resetBuckets (set_pg_throttle t (gate_of s gid)) (th_Limit t) now) s,
       true, rampChanged)
  end.

Definition SetThrottle (s : gateState) (t : Throttle) (now : Time) : gateState * bool * bool :=
  UpdateThrottle s (th_Provider t) (fun _ => t) now.

Definition restore_one (now : Time) (s : gateState) (t : Throttle) : gateState :=
  let t := MkThrottle (th_Provider t) (normalized (th_Limit t)) (th_Source t) (th_UpdatedBy t)
             (th_UpdatedAt t) in
  if bool_decide (th_Provider t = "") || negb (Limit_Active (th_Limit t)) then s else
  let t := if IsZero (th_UpdatedAt t)
           then MkThrottle (th_Provider t) (th_Limit t) (th_Source t) (th_UpdatedBy t) now else t in
  let gid := fresh (dom (gs_heap s)) in
  GateState (<[th_Provider t := gid]> (gs_gates s))
    (<[gid := resetBuckets (set_pg_throttle t newProviderGate) (th_Limit t) now]> (gs_heap s)).

Definition stop_wakes (s : gateState) : gateState :=
  fold_left (fun s kv => set_gate kv.2 (set_pg_wake (stop (pg_wake (gate_of s kv.2))) (gate_of s kv.2)) s)
    (map_to_list (gs_gates s)) s.

Definition RestoreThrottles (s : gateState) (ts : list Throttle) (now : Time) : gateState :=
  fold_left (restore_one now) ts (GateState ∅ (gs_heap (stop_wakes s))).

(** The policies; the code then sorts them by provider. *)
Definition ThrottlePolicies (s : gateState) : list Throttle :=
  map (fun kv => pg_throttle (gate_of s kv.2)) (map_to_list (gs_gates s)).

Definition tryAdmit (s : gateState) (provider : string) (est : Z) (now : Time)
    : gateState * bool * admission * Duration :=
  match gate s provider with
  | None => (s, true, zeroAdmission, 0)
  | Some gid =>
      let '(g, ok, lease, wait) := gate_tryAdmit gid (gate_of s gid) est now in
      (set_gate gid g s, ok, lease, wait)
  end.

Definition providerConcurrencyFull (s : gateState) (provider : string) : bool :=
  match gate s provider with
  | None => false
  | Some gid =>
      let g := gate_of s gid in
      (0 <? lim_Concurrency (th_Limit (pg_throttle g))) &&
      (lim_Concurrency (th_Limit (pg_throttle g)) <=? pg_inFlight g)
  end.

Definition settle_lease (s : gateState) (a : admission) (actual : Z) (now : Time) : gateState :=
  match ad_gate a with
  | None => s
  | Some gid => set_gate gid (gate_settle (gate_of s gid) a actual now) s
  end.

Definition armThrottleDrain (s : gateState) (provider : string) (d : Duration) (now : Time)
    : gateState :=
  match gate s provider with
  | None => s
  | Some gid =>
      let d := if d <? Millisecond then Millisecond else d in
      let g := gate_of s gid in
      if Limit_Active (th_Limit (pg_throttle g))
      then set_gate gid (set_pg_wake (arm (pg_wake g) (Add now d) true) g) s
      else s
  end.

Definition providerRamps (s : gateState) (provider : string) : bool :=
  match gate s provider with
  | None => false
  | Some gid => rampActive (th_Limit (pg_throttle (gate_of s gid)))
  end.


(** ** Occupancy *)

(** What the outstanding leases [L] hold of the gate [gid]. *)
Definition holds_gate (gid : nat) (a : admission) : bool := bool_decide (ad_gate a = Some gid).
Definition leases_on (gid : nat) (L : gmap nat admission) : Z :=
  total (fun a => if holds_gate gid a then 1 else 0) L.
Definition reserved_on (gid : nat) (L : gmap nat admission) : Z :=
  total (fun a => if holds_gate gid a then ad_reserved a else 0) L.
Definition reserved_all (L : gmap nat admission) : Z := total ad_reserved L.

(** A run of the gates: requests are admitted and refused, leases settled once,
    policies edited and restored, wakeups armed, snapshots taken, in any order.
    The reservations outstanding at one time are assumed to sum to an int64. *)
Inductive gateReach : gateState -> gmap nat admission -> Prop :=
  | gr_init : gateReach (GateState ∅ ∅) ∅
  | gr_admit s L provider est now s' lease wait lid :
      gateReach s L -> tryAdmit s provider est now = (s', true, lease, wait) ->
      reserved_all L + Z.max 0 est <= int64_max -> L !! lid = None ->
      gateReach s' (<[lid := lease]> L)
  | gr_refuse s L provider est now s' lease wait :
      gateReach s L -> tryAdmit s provider est now = (s', false, lease, wait) -> gateReach s' L
  | gr_settle s L lid a actual now :
      gateReach s L -> L !! lid = Some a -> gateReach (settle_lease s a actual now) (delete lid L)
  | gr_update s L provider update now :
      gateReach s L -> gateReach (UpdateThrottle s provider update now).1.1 L
  | gr_restore s L ts now : gateReach s L -> gateReach (RestoreThrottles s ts now) L
  | gr_arm s L provider d now : gateReach s L -> gateReach (armThrottleDrain s provider d now) L
  | gr_snapshot s L provider gid queued now :
      gateReach s L -> gs_gates s !! provider = Some gid ->
      gateReach (set_gate gid (gate_snapshot (gate_of s gid) queued now).1 s) L.

Record gate_inv (s : gateState) (L : gmap nat admission) : Prop := {
  gi_leases : forall lid a, L !! lid = Some a ->
    0 <= ad_reserved a /\ forall gid, ad_gate a = Some gid -> is_Some (gs_heap s !! gid);
  gi_total : reserved_all L <= int64_max;
  gi_map : forall p gid, gs_gates s !! p = Some gid -> is_Some (gs_heap s !! gid);
  gi_inj : forall p q gid, gs_gates s !! p = Some gid -> gs_gates s !! q = Some gid -> p = q;
  gi_exact : forall gid g, gs_heap s !! gid = Some g ->
    pg_inFlight g = leases_on gid L /\ pg_reserved g = reserved_on gid L;
}.

Lemma reserved_on_bounds gid (L : gmap nat admission) :
  (forall lid a, L !! lid = Some a -> 0 <= ad_reserved a) ->
  0 <= reserved_on gid L <= reserved_all L.
Proof.
  unfold reserved_on, reserved_all. induction L as [|lid a L Hl IH] using map_ind; intros Hnn.
  - rewrite !total_empty. lia.
  - rewrite !total_insert_fresh by done.
    assert (0 <= ad_reserved a) by (by apply (Hnn lid); rewrite lookup_insert_eq).
    assert (0 <= total (fun a => if holds_gate gid a then ad_reserved a else 0) L <= total ad_reserved L).
    { apply IH. intros l b Hb. apply (Hnn l). rewrite lookup_insert_ne; [done|].
      intros ->. congruence. }
    destruct (holds_gate gid a); lia.
Qed.

Lemma leases_on_nonneg gid L : 0 <= leases_on gid L.
Proof. apply total_nonneg. intros. by destruct (holds_gate gid _). Qed.

(** Replacing one gate whose occupancy the leases already account for. *)
Lemma set_gate_inv s L gid g g' :
  gate_inv s L -> gs_heap s !! gid = Some g ->
  pg_inFlight g' = pg_inFlight g -> pg_reserved g' = pg_reserved g ->
  gate_inv (set_gate gid g' s) L.
Proof.
  intros [H1 H2 H3 H4 H5] Hg Hi Hr. split; cbn; try done.
  - intros lid a Ha. destruct (H1 lid a Ha) as [Hnn Hd]. split; [done|]. intros gid' Hgid.
    apply lookup_insert_is_Some'. right. by apply Hd.
  - intros p q Hp. apply lookup_insert_is_Some'. right. by eapply H3.
  - intros gid' g1. rewrite lookup_insert_Some. intros [[<- <-]|[_ Hg1]]; [|by apply H5].
    rewrite Hi, Hr. by apply H5.
Qed.

Lemma bucket_only_blocked g est now :
  let '(g', _, _) := gate_blocked g est now in
  pg_inFlight g' = pg_inFlight g /\ pg_reserved g' = pg_reserved g /\
  pg_throttle g' = pg_throttle g /\ pg_tokEpoch g' = pg_tokEpoch g.
Proof.
  unfold gate_blocked. repeat (case_match; simplify_eq/=; try done).
Qed.

Lemma holds_zero gid : holds_gate gid zeroAdmission = false.
Proof. by apply bool_decide_eq_false_2. Qed.

Lemma gate_tryAdmit_effect gid g est now :
  let '(g', ok, lease, _) := gate_tryAdmit gid g est now in
  0 <= ad_reserved lease <= Z.max 0 est /\
  (ad_gate lease = None \/ ad_gate lease = Some gid) /\
  pg_inFlight g' = pg_inFlight g + (if holds_gate gid lease then 1 else 0) /\
  (pg_reserved g' = wrap64 (pg_reserved g + ad_reserved lease) \/
   (pg_reserved g' = pg_reserved g /\ ad_reserved lease = 0)) /\
  (ok = false -> lease = zeroAdmission) /\
  (ad_gate lease = None -> ad_reserved lease = 0).
Proof.
  unfold gate_tryAdmit. destruct (negb (Limit_Active _)).
  { rewrite holds_zero. cbn. split_and!; try done; try lia; auto. }
  pose proof (bucket_only_blocked g est now) as Hb.
  destruct (gate_blocked g est now) as [[g1 blocked] wait]. destruct Hb as (H1 & H2 & _).
  destruct blocked.
  { rewrite H1, H2, holds_zero. split_and!; try done; cbn; try lia; auto. }
  unfold holds_gate. cbn [ad_gate ad_reserved]. rewrite bool_decide_eq_true_2 by done.
  destruct (bk_enabled (pg_tok g1) && (0 <? est)) eqn:E.
  - apply andb_true_iff in E as [_ E]. rewrite E. apply Z.ltb_lt in E. cbn.
    rewrite H1, H2. split_and!; try done; try lia; auto.
  - cbn. rewrite H1, H2. split_and!; try done; try lia; auto.
Qed.

(** ** Preservation *)

Lemma gate_Some s p gid : gate s p = Some gid -> gs_gates s !! p = Some gid.
Proof. unfold gate. by case_bool_decide. Qed.

Lemma gate_of_lookup s gid g : gs_heap s !! gid = Some g -> gate_of s gid = g.
Proof. intros H. unfold gate_of. by rewrite H. Qed.

Lemma wrap64_small z : 0 <= z <= int64_max -> wrap64 z = z.
Proof. intros. apply wrap64_id. unfold in_int64, int64_min, int64_max in *. lia. Qed.

Lemma admit_inv s L provider est now s' lease wait lid :
  gate_inv s L -> tryAdmit s provider est now = (s', true, lease, wait) ->
  reserved_all L + Z.max 0 est <= int64_max -> L !! lid = None ->
  gate_inv s' (<[lid := lease]> L).
Proof.
  intros Hi Ht Hsum Hl. unfold tryAdmit in Ht.
  assert (HL : forall f : admission -> Z, total f (<[lid := lease]> L) = f lease + total f L)
    by (intros; by apply total_insert_fresh).
  destruct (gate s provider) as [gid|] eqn:Eg.
  - apply gate_Some in Eg. destruct Hi as [H1 H2 H3 H4 H5].
    destruct (H3 _ _ Eg) as [g Hg]. rewrite (gate_of_lookup _ _ _ Hg) in Ht.
    pose proof (gate_tryAdmit_effect gid g est now) as He.
    destruct (gate_tryAdmit gid g est now) as [[[g' ok] lease'] w']. injection Ht as <- -> -> ->.
    destruct He as (Hr & Hgate & Hin & Hres & _ & Hnone).
    assert (Hnn : forall lid a, L !! lid = Some a -> 0 <= ad_reserved a) by (intros; by eapply H1).
    pose proof (reserved_on_bounds gid L Hnn) as Hb.
    split; cbn.
    + intros l a [[<- <-]|[_ Ha]]%lookup_insert_Some; (split; [|intros gid' Hgid; apply lookup_insert_is_Some']).
      * lia.
      * destruct Hgate; [congruence|]. left. congruence.
      * by eapply H1.
      * right. by eapply H1.
    + unfold reserved_all in *. rewrite HL. lia.
    + intros p q Hp. apply lookup_insert_is_Some'. right. by eapply H3.
    + done.
    + intros gid' g1. unfold leases_on, reserved_on. rewrite !HL.
      fold (leases_on gid' L) (reserved_on gid' L). rewrite lookup_insert_Some.
      intros [[<- <-]|[Hne Hg1]].
      * destruct (H5 _ _ Hg) as [Hig Hrg]. rewrite Hig in Hin. rewrite Hrg in Hres.
        split; [lia|]. unfold holds_gate. destruct Hgate as [Hgt|Hgt]; rewrite Hgt.
        -- rewrite bool_decide_eq_false_2 by done. rewrite (Hnone Hgt), Z.add_0_r in Hres.
           destruct Hres as [->|[-> _]]; [|lia]. rewrite wrap64_small by lia. lia.
        -- rewrite bool_decide_eq_true_2 by done.
           destruct Hres as [->|[-> ->]]; [|lia]. rewrite wrap64_small by lia. lia.
      * destruct (H5 _ _ Hg1) as [-> ->]. unfold holds_gate.
        rewrite bool_decide_eq_false_2 by (destruct Hgate; congruence). lia.
  - injection Ht as <- <- <-. destruct Hi as [H1 H2 H3 H4 H5]. split; try done.
    + intros l a [[<- <-]|[_ Ha]]%lookup_insert_Some; [done|by eapply H1].
    + unfold reserved_all in *. rewrite HL. cbn. lia.
    + intros gid g Hg. unfold leases_on, reserved_on. rewrite !HL, holds_zero. by apply H5.
Qed.

Lemma refuse_inv s L provider est now s' lease wait :
  gate_inv s L -> tryAdmit s provider est now = (s', false, lease, wait) -> gate_inv s' L.
Proof.
  intros Hi Ht. unfold tryAdmit in Ht.
  destruct (gate s provider) as [gid|] eqn:Eg; [|congruence]. apply gate_Some in Eg.
  destruct (gi_map _ _ Hi _ _ Eg) as [g Hg]. rewrite (gate_of_lookup _ _ _ Hg) in Ht.
  pose proof (gate_tryAdmit_effect gid g est now) as He.
  destruct (gate_tryAdmit gid g est now) as [[[g' ok] lease'] w']. injection Ht as <- -> -> ->.
  destruct He as (_ & _ & Hin & Hres & Hz & _). rewrite (Hz eq_refl), holds_zero in *.
  apply (set_gate_inv s L gid g g' Hi Hg); [lia|]. cbn in Hres.
  destruct Hres as [->|[-> _]]; [|done]. rewrite Z.add_0_r. apply wrap64_small.
  destruct (gi_exact _ _ Hi _ _ Hg) as [_ ->].
  pose proof (reserved_on_bounds gid L ltac:(intros l a Ha; by eapply (gi_leases _ _ Hi))).
  pose proof (gi_total _ _ Hi). lia.
Qed.

Lemma gate_settle_effect g a actual now :
  pg_inFlight (gate_settle g a actual now) =
    (if 0 <? pg_inFlight g then pg_inFlight g - 1 else pg_inFlight g) /\
  pg_reserved (gate_settle g a actual now) =
    (if ad_reserved a =? 0 then pg_reserved g
     else Z.max 0 (wrap64 (pg_reserved g - ad_reserved a))) /\
  pg_throttle (gate_settle g a actual now) = pg_throttle g /\
  pg_tokEpoch (gate_settle g a actual now) = pg_tokEpoch g.
Proof.
  unfold gate_settle.
  assert (forall z, (if z <? 0 then 0 else z) = Z.max 0 z) as Hm
    by (intros z; destruct (Z.ltb_spec z 0); lia).
  destruct (ad_reserved a =? 0); cbn; rewrite ?Hm;
    destruct (_ && _); cbn; destruct (0 <? pg_inFlight g); done.
Qed.

Lemma settle_inv s L lid a actual now :
  gate_inv s L -> L !! lid = Some a -> gate_inv (settle_lease s a actual now) (delete lid L).
Proof.
  intros Hi Ha. pose proof Hi as [H1 H2 H3 H4 H5].
  destruct (H1 _ _ Ha) as [Hnn Hd].
  assert (HL : forall f : admission -> Z, total f (delete lid L) = total f L - f a).
  { intros f. rewrite (total_delete f L lid a Ha). lia. }
  assert (Hnn' : forall l b, L !! l = Some b -> 0 <= ad_reserved b) by (intros; by eapply H1).
  assert (HL1 : forall l b, delete lid L !! l = Some b ->
    0 <= ad_reserved b /\ forall gid, ad_gate b = Some gid -> is_Some (gs_heap s !! gid)).
  { intros l b [_ Hb]%lookup_delete_Some. by eapply H1. }
  unfold settle_lease. destruct (ad_gate a) as [gid|] eqn:Eg.
  - destruct (Hd gid eq_refl) as [g Hg]. rewrite (gate_of_lookup _ _ _ Hg).
    destruct (gate_settle_effect g a actual now) as (Hin & Hres & _).
    destruct (H5 _ _ Hg) as [Hgi Hgr].
    assert (holds_gate gid a = true) as Hh by (by apply bool_decide_eq_true_2).
    assert (Hb : forall l b, delete lid L !! l = Some b -> 0 <= ad_reserved b).
    { intros l b Hlb. exact (proj1 (HL1 l b Hlb)). }
    pose proof (reserved_on_bounds gid _ Hb) as Hrb.
    pose proof (leases_on_nonneg gid (delete lid L)) as Hlb.
    pose proof (reserved_on_bounds gid L Hnn') as Hrl.
    assert (leases_on gid (delete lid L) = leases_on gid L - 1) as E1
      by (unfold leases_on; by rewrite HL, Hh).
    assert (reserved_on gid (delete lid L) = reserved_on gid L - ad_reserved a) as E2
      by (unfold reserved_on; by rewrite HL, Hh).
    split; cbn; try done.
    + intros l b Hlb'. destruct (HL1 _ _ Hlb') as [? Hsome]. split; [done|].
      intros gid' Hgid. apply lookup_insert_is_Some'. right. by apply Hsome.
    + unfold reserved_all in *. rewrite HL. lia.
    + intros p q Hp. apply lookup_insert_is_Some'. right. by eapply H3.
    + intros gid' g1 [[<- <-]|[Hne Hg1]]%lookup_insert_Some.
      * rewrite Hin, Hres, Hgi, Hgr. destruct (Z.ltb_spec 0 (leases_on gid L)); [|lia].
        split; [lia|]. destruct (Z.eqb_spec (ad_reserved a) 0); [lia|].
        rewrite wrap64_small by lia. lia.
      * destruct (H5 _ _ Hg1) as [-> ->]. unfold leases_on, reserved_on. rewrite !HL.
        unfold holds_gate. rewrite Eg, bool_decide_eq_false_2 by congruence. lia.
  - split; try done.
    + unfold reserved_all in *. rewrite HL. lia.
    + intros gid g Hg. destruct (H5 _ _ Hg) as [-> ->]. unfold leases_on, reserved_on.
      rewrite !HL. unfold holds_gate. rewrite Eg, bool_decide_eq_false_2 by done. lia.
Qed.

(** A fresh gate starts with no lease of its own. *)
Lemma fresh_gate_unused s L gid :
  gate_inv s L -> gs_heap s !! gid = None -> leases_on gid L = 0 /\ reserved_on gid L = 0.
Proof.
  intros Hi Hn. assert (forall l a, L !! l = Some a -> holds_gate gid a = false) as Hf.
  { intros l a Ha. apply bool_decide_eq_false_2. intros Hg.
    destruct (gi_leases _ _ Hi _ _ Ha) as [_ Hd]. destruct (Hd _ Hg). congruence. }
  split; apply total_zero; intros l a Ha; by rewrite (Hf l a Ha).
Qed.

Lemma fresh_gid (s : gateState) : gs_heap s !! fresh (dom (gs_heap s)) = None.
Proof. apply not_elem_of_dom, is_fresh. Qed.

Lemma install_inv s L p gid g :
  gate_inv s L -> gs_heap s !! gid = None -> pg_inFlight g = 0 -> pg_reserved g = 0 ->
  gate_inv (GateState (<[p := gid]> (gs_gates s)) (<[gid := g]> (gs_heap s))) L.
Proof.
  intros Hi Hn Hg0 Hr0. destruct (fresh_gate_unused s L gid Hi Hn) as [Hl Hr].
  destruct Hi as [H1 H2 H3 H4 H5]. split; cbn; try done.
  - intros l a Ha. destruct (H1 _ _ Ha) as [? Hd]. split; [done|]. intros gid' Hgid.
    apply lookup_insert_is_Some'. right. by apply Hd.
  - intros q gid' [[<- <-]|[_ Hq]]%lookup_insert_Some; apply lookup_insert_is_Some';
      [by left|right; by eapply H3].
  - intros q r gid' [[<- <-]|[Hq1 Hq]]%lookup_insert_Some [[<- Hr1]|[Hr1 Hr2]]%lookup_insert_Some;
      try done; subst.
    + by destruct (H3 _ _ Hr2) as [? ?]; congruence.
    + by destruct (H3 _ _ Hq) as [? ?]; congruence.
    + by eapply H4.
  - intros gid' g1 [[<- <-]|[_ Hg1]]%lookup_insert_Some; [lia|by apply H5].
Qed.

Lemma unmap_inv s L (m : gmap string nat) :
  gate_inv s L -> m ⊆ gs_gates s -> gate_inv (GateState m (gs_heap s)) L.
Proof.
  intros [H1 H2 H3 H4 H5] Hm. split; cbn; try done.
  - intros p gid Hp. eapply H3, lookup_weaken; done.
  - intros p q gid Hp Hq. eapply H4; by eapply lookup_weaken.
Qed.

Lemma reset_inFlight g l now : pg_inFlight (resetBuckets g l now) = pg_inFlight g.
Proof. unfold resetBuckets. by destruct (Bool.eqb _ _). Qed.
Lemma reset_reserved g l now : pg_reserved (resetBuckets g l now) = pg_reserved g.
Proof. unfold resetBuckets. by destruct (Bool.eqb _ _). Qed.

Lemma gate_of_set s gid g : gate_of (set_gate gid g s) gid = g.
Proof. unfold gate_of, set_gate. cbn. by rewrite lookup_insert_eq. Qed.

Lemma stop_wake_inv s L gid g :
  gate_inv s L -> gs_heap s !! gid = Some g ->
  gate_inv (set_gate gid (set_pg_wake (stop (pg_wake (gate_of s gid))) (gate_of s gid)) s) L.
Proof.
  intros Hi Hg. rewrite (gate_of_lookup _ _ _ Hg). by eapply set_gate_inv.
Qed.

Lemma set_gate_heap s gid g : gs_heap (set_gate gid g s) !! gid = Some g.
Proof. apply lookup_insert_eq. Qed.

Lemma update_inv s L provider update now :
  gate_inv s L -> gate_inv (UpdateThrottle s provider update now).1.1 L.
Proof.
  intros Hi. unfold UpdateThrottle. case_bool_decide; [done|]. cbv zeta.
  destruct (gs_gates s !! provider) as [gid|] eqn:Eg.
  - destruct (gi_map _ _ Hi _ _ Eg) as [g Hg].
    destruct (_ || _); [done|].
    pose proof (stop_wake_inv s L gid g Hi Hg) as Hi2.
    set (s2 := set_gate gid _ s) in *.
    assert (gs_heap s2 !! gid = Some (set_pg_wake (stop (pg_wake g)) g)) as Hg2.
    { unfold s2. rewrite set_gate_heap. by rewrite (gate_of_lookup _ _ _ Hg). }
    rewrite (gate_of_lookup s2 gid _ Hg2). destruct (negb (Limit_Active _)); cbn [fst].
    + apply (unmap_inv (set_gate gid (set_pg_throttle zeroThrottle
        (set_pg_wake (stop (pg_wake g)) g)) s2)); [|apply delete_subseteq].
      by eapply set_gate_inv.
    + eapply set_gate_inv; [done|done|by rewrite reset_inFlight|by rewrite reset_reserved].
  - destruct (_ || _); [done|]. destruct (negb (Limit_Active _)); [done|].
    case_match; [done|]. cbn [fst]. apply install_inv; [done|apply fresh_gid|..];
      [by rewrite reset_inFlight|by rewrite reset_reserved].
Qed.

Lemma stop_wakes_inv s L : gate_inv s L -> gate_inv (stop_wakes s) L.
Proof.
  intros Hi. unfold stop_wakes.
  assert (forall l s, gate_inv s L ->
    (forall kv, kv ∈ l -> is_Some (gs_heap s !! kv.2)) ->
    gate_inv (fold_left (fun s (kv : string * nat) => set_gate kv.2
      (set_pg_wake (stop (pg_wake (gate_of s kv.2))) (gate_of s kv.2)) s) l s) L) as H.
  { clear s Hi. induction l as [|kv l IH]; intros s Hi Hl; [done|]. cbn [fold_left]. apply IH.
    - destruct (Hl kv ltac:(by left)) as [g Hg]. by eapply stop_wake_inv.
    - intros kv' Hkv. cbn. apply lookup_insert_is_Some'. right. apply Hl. by right. }
  apply H; [done|]. intros [p gid] Hkv%elem_of_map_to_list. by eapply gi_map.
Qed.

Lemma restore_inv s L ts now : gate_inv s L -> gate_inv (RestoreThrottles s ts now) L.
Proof.
  intros Hi. unfold RestoreThrottles.
  assert (Hi2 : gate_inv (GateState ∅ (gs_heap (stop_wakes s))) L).
  { apply (unmap_inv (stop_wakes s)); [by apply stop_wakes_inv|apply map_empty_subseteq]. }
  revert Hi2. generalize (GateState ∅ (gs_heap (stop_wakes s))). clear s Hi.
  induction ts as [|t ts IH]; intros s Hi; [done|]. cbn [fold_left]. apply IH.
  unfold restore_one. cbv zeta. destruct (_ || _); [done|].
  apply install_inv; [done|apply fresh_gid|by rewrite reset_inFlight|by rewrite reset_reserved].
Qed.

Lemma gateReach_inv s L : gateReach s L -> gate_inv s L.
Proof.
  induction 1.
  - split; intros; [by simplify_map_eq|by vm_compute|by simplify_map_eq..].
  - by eapply admit_inv.
  - by eapply refuse_inv.
  - by apply settle_inv.
  - by apply update_inv.
  - by apply restore_inv.
  - unfold armThrottleDrain. destruct (gate s provider) as [gid|] eqn:Eg; [|done].
    destruct (Limit_Active _); [|done]. apply gate_Some in Eg.
    destruct (gi_map _ _ IHgateReach _ _ Eg) as [g Hg]. rewrite (gate_of_lookup _ _ _ Hg).
    by eapply set_gate_inv.
  - destruct (gi_map _ _ IHgateReach _ _ H0) as [g Hg]. rewrite (gate_of_lookup _ _ _ Hg).
    eapply set_gate_inv; [done|done|..]; unfold gate_snapshot;
      by destruct (window_remaining _ _).
Qed.

(** C30. A gate's occupancy is exact in every reachable state: [inFlight] counts
    the outstanding leases of that very gate and [reserved] sums their
    reservations - through refusals, policy edits, removals, reinstallations
    and restores, so a lease of a removed gate never weighs on its successor,
    the floors in settle never absorb a discrepancy, and once every lease is
    settled both are zero. *)
Theorem gate_occupancy_exact s L gid g :
  gateReach s L -> gs_heap s !! gid = Some g ->
  pg_inFlight g = leases_on gid L /\ pg_reserved g = reserved_on gid L /\
  (L = ∅ -> pg_inFlight g = 0 /\ pg_reserved g = 0).
Proof.
  intros Hr Hg. destruct (gi_exact _ _ (gateReach_inv _ _ Hr) _ _ Hg) as [H1 H2].
  split_and!; [done|done|]. intros ->. by rewrite H1, H2.
Qed.

(** ** What an admission decides *)

Definition concurrency_fits (g : providerGate) : bool :=
  (lim_Concurrency (th_Limit (pg_throttle g)) <=? 0) ||
  (pg_inFlight g <? lim_Concurrency (th_Limit (pg_throttle g))).
Definition window_fits (g : providerGate) (now : Time) : bool :=
  negb (window_waitFor (pg_req g) now).2.
(** A request that cannot be measured against the bucket (no estimate, or more
    than it ever holds) needs it out of debt; any other needs its estimate. *)
Definition token_fits (tok : bucket) (est : Z) : bool :=
  negb (bk_enabled tok) ||
  (if fleb (of_int est) fzero || fltb (bk_capacity tok) (of_int est)
   then negb (fleb (bk_tokens tok) fzero)
   else negb (fltb (bk_tokens tok) (of_int est))).

Lemma refill_enabled b now : bk_enabled (refill b now) = bk_enabled b.
Proof. unfold refill. repeat (case_match; try done). Qed.

Lemma gate_blocked_exact g est now :
  Limit_Active (th_Limit (pg_throttle g)) = true ->
  (gate_blocked g est now).1.2 =
    negb (concurrency_fits g && window_fits g now && token_fits (refill (pg_tok g) now) est) /\
  ((gate_blocked g est now).1.2 = false ->
   (gate_blocked g est now).1.1 =
     set_pg_req (window_waitFor (pg_req g) now).1.1 (set_pg_tok (refill (pg_tok g) now) g)).
Proof.
  intros Ha. unfold gate_blocked, concurrency_fits, window_fits, token_fits. rewrite Ha. cbn.
  set (c := lim_Concurrency (th_Limit (pg_throttle g))).
  assert ((0 <? c) && (c <=? pg_inFlight g) = negb ((c <=? 0) || (pg_inFlight g <? c))) as ->.
  { destruct (Z.ltb_spec 0 c), (Z.leb_spec c (pg_inFlight g)), (Z.leb_spec c 0),
      (Z.ltb_spec (pg_inFlight g) c); cbn; try done; lia. }
  destruct (_ || (pg_inFlight g <? c)); [|done]. cbn [negb andb].
  destruct (window_waitFor (pg_req g) now) as [[req wait] blocked]. cbn [fst snd pg_tok].
  destruct blocked; [done|]. cbn [negb andb set_pg_req set_pg_tok pg_tok].
  destruct (bk_enabled (refill (pg_tok g) now)); [|done]. cbn [negb orb].
  destruct (fleb (of_int est) fzero); cbn [orb].
  - destruct (fleb _ _); [|done]. by destruct (bucket_waitFor _ _ _).
  - destruct (fltb (bk_capacity _) _).
    + destruct (fleb _ _); [|done]. by destruct (bucket_waitFor _ _ _).
    + destruct (fltb _ _); [|done]. by destruct (bucket_waitFor _ _ _).
Qed.

(** C31. An active gate admits exactly when the concurrency cap, the request
    window and the token bucket all have room at that instant; an admission
    takes one slot - never past the cap - stamps the window and debits exactly
    the reservation its lease records, and a refusal takes nothing. *)
Theorem gate_tryAdmit_exact gid g est now :
  Limit_Active (th_Limit (pg_throttle g)) = true ->
  let '(g', ok, lease, wait) := gate_tryAdmit gid g est now in
  let tok := refill (pg_tok g) now in
  let reserved := if bk_enabled tok then Z.max 0 est else 0 in
  ok = concurrency_fits g && window_fits g now && token_fits tok est /\
  (ok = true ->
     lease = Build_admission (Some gid) reserved (pg_tokEpoch g) /\ wait = 0 /\
     pg_inFlight g' = pg_inFlight g + 1 /\
     (0 < lim_Concurrency (th_Limit (pg_throttle g)) ->
        pg_inFlight g' <= lim_Concurrency (th_Limit (pg_throttle g))) /\
     pg_req g' = window_admit (window_waitFor (pg_req g) now).1.1 now /\
     pg_tok g' = (if 0 <? reserved then set_bk_tokens (fsub (bk_tokens tok) (of_int reserved)) tok
                  else tok)) /\
  (ok = false ->
     lease = zeroAdmission /\ pg_inFlight g' = pg_inFlight g /\ pg_reserved g' = pg_reserved g).
Proof.
  intros Ha. unfold gate_tryAdmit. rewrite Ha. cbn [negb].
  destruct (gate_blocked_exact g est now Ha) as [Hb Hg].
  pose proof (bucket_only_blocked g est now) as Ho.
  destruct (gate_blocked g est now) as [[g1 blocked] w]. cbn [fst snd] in *.
  destruct Ho as (Hi & Hr & _). destruct blocked.
  { symmetry in Hb. apply negb_true_iff in Hb. cbv zeta. rewrite Hb. done. }
  specialize (Hg eq_refl). subst g1. symmetry in Hb. apply negb_false_iff in Hb.
  cbv zeta. rewrite Hb. split; [done|split; [intros _|done]].
  cbn [pg_tok set_pg_req set_pg_tok]. set (tok := refill (pg_tok g) now) in *.
  assert (Hres : (if bk_enabled tok && (0 <? est) then est else 0) =
    (if bk_enabled tok then Z.max 0 est else 0)).
  { destruct (bk_enabled tok); [|done]. cbn. destruct (Z.ltb_spec 0 est); lia. }
  rewrite Hres. set (r := if bk_enabled tok then Z.max 0 est else 0).
  assert (Hc : 0 < lim_Concurrency (th_Limit (pg_throttle g)) ->
    pg_inFlight g + 1 <= lim_Concurrency (th_Limit (pg_throttle g))).
  { intros Hpos. apply andb_true_iff in Hb as [Hb _]. apply andb_true_iff in Hb as [Hb _].
    unfold concurrency_fits in Hb. apply orb_true_iff in Hb as [Hb%Z.leb_le|Hb%Z.ltb_lt]; lia. }
  destruct (0 <? r); cbn; by split_and!.
Qed.

(** ** Policies *)

Definition policy_inv (s : gateState) : Prop :=
  forall p gid g, gs_gates s !! p = Some gid -> gs_heap s !! gid = Some g ->
    Limit_Active (th_Limit (pg_throttle g)) = true /\ th_Provider (pg_throttle g) = p.

Lemma set_gate_policy s gid g g' :
  policy_inv s -> gs_heap s !! gid = Some g -> pg_throttle g' = pg_throttle g ->
  policy_inv (set_gate gid g' s).
Proof.
  intros Hp Hg Ht p gid' g1. cbn.
  intros Hm [[<- <-]|[_ Hg1]]%lookup_insert_Some; [|by eapply Hp].
  rewrite Ht. by eapply Hp.
Qed.

Lemma install_policy s L p gid g :
  gate_inv s L -> policy_inv s -> gs_heap s !! gid = None \/ gs_gates s !! p = Some gid ->
  Limit_Active (th_Limit (pg_throttle g)) = true -> th_Provider (pg_throttle g) = p ->
  policy_inv (GateState (<[p := gid]> (gs_gates s)) (<[gid := g]> (gs_heap s))).
Proof.
  intros Hi Hp Hgid Ha Hpr q gid' g1. cbn.
  intros [[<- <-]|[Hne Hm]]%lookup_insert_Some [[? <-]|[Hng Hg1]]%lookup_insert_Some; try done.
  - subst gid'. destruct Hgid as [Hn|Hm2].
    + destruct (gi_map _ _ Hi _ _ Hm). congruence.
    + destruct Hne. by eapply gi_inj.
  - by eapply Hp.
Qed.

Lemma unmap_policy s (m : gmap string nat) :
  policy_inv s -> m ⊆ gs_gates s -> policy_inv (GateState m (gs_heap s)).
Proof. intros Hp Hm p gid g H1 H2. eapply Hp; [by eapply lookup_weaken|done]. Qed.

Lemma reset_throttle g l now : pg_throttle (resetBuckets g l now) = pg_throttle g.
Proof. unfold resetBuckets. by destruct (Bool.eqb _ _). Qed.

Lemma tryAdmit_throttle gid g est now :
  pg_throttle (gate_tryAdmit gid g est now).1.1.1 = pg_throttle g.
Proof.
  unfold gate_tryAdmit. destruct (negb _); [done|].
  pose proof (bucket_only_blocked g est now) as Ho.
  destruct (gate_blocked g est now) as [[g1 blocked] w]. destruct Ho as (_ & _ & Ht & _).
  destruct blocked; [done|]. cbv zeta. by destruct (0 <? _).
Qed.

Lemma stop_wakes_policy s L : gate_inv s L -> policy_inv s -> policy_inv (stop_wakes s).
Proof.
  intros Hi Hp. unfold stop_wakes.
  assert (forall l s, gate_inv s L -> policy_inv s ->
    (forall kv, kv ∈ l -> is_Some (gs_heap s !! kv.2)) ->
    policy_inv (fold_left (fun s (kv : string * nat) => set_gate kv.2
      (set_pg_wake (stop (pg_wake (gate_of s kv.2))) (gate_of s kv.2)) s) l s)) as H.
  { clear s Hi Hp. induction l as [|kv l IH]; intros s Hi Hp Hl; [done|]. cbn [fold_left].
    destruct (Hl kv ltac:(by left)) as [g Hg]. apply IH.
    - by eapply stop_wake_inv.
    - rewrite (gate_of_lookup _ _ _ Hg). by eapply set_gate_policy.
    - intros kv' Hkv. cbn. apply lookup_insert_is_Some'. right. apply Hl. by right. }
  apply H; [done..|]. intros [p gid] Hkv%elem_of_map_to_list. by eapply gi_map.
Qed.

Lemma restore_policy s L ts now :
  gate_inv s L -> policy_inv s -> policy_inv (RestoreThrottles s ts now).
Proof.
  intros Hi Hp. unfold RestoreThrottles.
  assert (Hi2 : gate_inv (GateState ∅ (gs_heap (stop_wakes s))) L).
  { apply (unmap_inv (stop_wakes s)); [by apply stop_wakes_inv|apply map_empty_subseteq]. }
  assert (Hp2 : policy_inv (GateState ∅ (gs_heap (stop_wakes s)))) by (intros p gid g Hm; cbn in Hm; simplify_map_eq).
  revert Hi2 Hp2. generalize (GateState ∅ (gs_heap (stop_wakes s))). clear s Hi Hp.
  induction ts as [|t ts IH]; intros s Hi Hp; [done|]. cbn [fold_left].
  assert (HS : gate_inv (restore_one now s t) L /\ policy_inv (restore_one now s t)); [|destruct HS; by apply IH].
  unfold restore_one. cbv zeta. destruct (_ || _) eqn:E; [done|].
  apply orb_false_iff in E as [_ E]. apply negb_false_iff in E. cbn [th_Limit] in E. split.
  - apply install_inv; [done|apply fresh_gid|by rewrite reset_inFlight|by rewrite reset_reserved].
  - eapply install_policy; [done|done|left; apply fresh_gid|..]; rewrite reset_throttle;
      cbn; by destruct (IsZero _).
Qed.

(** The effective limit of a provider. *)
Definition effective (s : gateState) (p : string) : Limit :=
  match gs_gates s !! p with
  | Some gid => th_Limit (pg_throttle (gate_of s gid))
  | None => zeroLimit
  end.
Definition current (s : gateState) (p : string) : Throttle :=
  match gs_gates s !! p with Some gid => pg_throttle (gate_of s gid) | None => zeroThrottle end.

Lemma set_gate_as_install s p gid g :
  gs_gates s !! p = Some gid ->
  set_gate gid g s = GateState (<[p := gid]> (gs_gates s)) (<[gid := g]> (gs_heap s)).
Proof. intros Hm. unfold set_gate. by rewrite (insert_id (gs_gates s) p gid Hm). Qed.

Lemma update_policy s L provider update now :
  gate_inv s L -> policy_inv s -> policy_inv (UpdateThrottle s provider update now).1.1.
Proof.
  intros Hi Hp. unfold UpdateThrottle. case_bool_decide; [done|]. cbv zeta.
  destruct (gs_gates s !! provider) as [gid|] eqn:Eg.
  - destruct (gi_map _ _ Hi _ _ Eg) as [g Hg]. destruct (_ || _); [done|].
    pose proof (stop_wake_inv s L gid g Hi Hg) as Hi2.
    assert (policy_inv (set_gate gid (set_pg_wake (stop (pg_wake (gate_of s gid))) (gate_of s gid)) s))
      as Hp2 by (rewrite (gate_of_lookup _ _ _ Hg); by eapply set_gate_policy).
    rewrite gate_of_set. destruct (negb (Limit_Active _)) eqn:E; cbn [fst].
    + intros p gid' g1. cbn.
      intros [Hne Hm]%lookup_delete_Some [[<- <-]|[Hng Hg1]]%lookup_insert_Some.
      { destruct Hne. by eapply gi_inj. }
      rewrite lookup_insert_ne in Hg1 by done. by eapply Hp.
    + apply negb_false_iff in E. rewrite (set_gate_as_install _ provider gid) by exact Eg.
      eapply (install_policy (set_gate gid (set_pg_wake (stop (pg_wake (gate_of s gid))) (gate_of s gid)) s));
        [done|done|by right|..]; rewrite reset_throttle; by destruct (IsZero _).
  - destruct (_ || _); [done|]. destruct (negb (Limit_Active _)) eqn:E; [done|].
    case_match; [done|]. cbn [fst]. apply negb_false_iff in E.
    eapply install_policy; [done|done|left; apply fresh_gid|..]; rewrite reset_throttle;
      by destruct (IsZero _).
Qed.

Lemma gateReach_policy s L : gateReach s L -> policy_inv s.
Proof.
  induction 1 as [|s L p est now s' lease wait lid Hr IH Ht Hs Hl|s L p est now s' lease wait Hr IH Ht
    |s L lid a actual now Hr IH Hl|s L p f now Hr IH|s L ts now Hr IH|s L p d now Hr IH
    |s L p gid q now Hr IH Hm]; [| | | | | | |].
  - intros p gid g Hm. cbn in Hm. simplify_map_eq.
  - pose proof (gateReach_inv _ _ Hr) as Hi. unfold tryAdmit in Ht.
    destruct (gate s p) as [gid|] eqn:Eg; [|by injection Ht as <- _ _]. apply gate_Some in Eg.
    destruct (gi_map _ _ Hi _ _ Eg) as [g Hg]. rewrite (gate_of_lookup _ _ _ Hg) in Ht.
    pose proof (tryAdmit_throttle gid g est now) as He.
    destruct (gate_tryAdmit gid g est now) as [[[g' ok] lease'] w']. injection Ht as <- _ _ _.
    by eapply set_gate_policy.
  - pose proof (gateReach_inv _ _ Hr) as Hi. unfold tryAdmit in Ht.
    destruct (gate s p) as [gid|] eqn:Eg; [|congruence]. apply gate_Some in Eg.
    destruct (gi_map _ _ Hi _ _ Eg) as [g Hg]. rewrite (gate_of_lookup _ _ _ Hg) in Ht.
    pose proof (tryAdmit_throttle gid g est now) as He.
    destruct (gate_tryAdmit gid g est now) as [[[g' ok] lease'] w']. injection Ht as <- _ _ _.
    by eapply set_gate_policy.
  - pose proof (gateReach_inv _ _ Hr) as Hi. unfold settle_lease.
    destruct (ad_gate a) as [gid|] eqn:Eg; [|done].
    destruct (gi_leases _ _ Hi _ _ Hl) as [_ Hd]. destruct (Hd _ Eg) as [g Hg].
    rewrite (gate_of_lookup _ _ _ Hg). eapply set_gate_policy; [done|done|].
    apply gate_settle_effect.
  - eapply update_policy; [by eapply gateReach_inv|done].
  - eapply restore_policy; [by eapply gateReach_inv|done].
  - pose proof (gateReach_inv _ _ Hr) as Hi. unfold armThrottleDrain.
    destruct (gate s p) as [gid|] eqn:Eg; [|done]. apply gate_Some in Eg.
    destruct (Limit_Active _); [|done]. destruct (gi_map _ _ Hi _ _ Eg) as [g Hg].
    rewrite (gate_of_lookup _ _ _ Hg). by eapply set_gate_policy.
  - pose proof (gateReach_inv _ _ Hr) as Hi. destruct (gi_map _ _ Hi _ _ Hm) as [g Hg].
    rewrite (gate_of_lookup _ _ _ Hg). eapply set_gate_policy; [done|done|].
    unfold gate_snapshot. by destruct (window_remaining _ _).
Qed.

(** UpdateThrottle installs exactly the normalised limit the update asks for
    - removing the provider when it is inactive - and touches no other
    provider; the answer false means the state is untouched, because the
    provider is empty, the effective limit is already that one, or the map is
    full; and the map never outgrows its bound through it. *)
Theorem UpdateThrottle_exact s L provider update now s' changed rampChanged :
  gateReach s L -> UpdateThrottle s provider update now = (s', changed, rampChanged) ->
  let limit := normalized (th_Limit (update (current s provider))) in
  (changed = true -> effective s' provider = (if Limit_Active limit then limit else zeroLimit) /\
     provider <> "" /\ effective s provider <> limit) /\
  (changed = false -> s' = s /\ rampChanged = false /\
     (provider = "" \/ effective s provider = limit \/
      (effective s provider = zeroLimit /\ Limit_Active limit = false) \/
      (gs_gates s !! provider = None /\ maxProviderGates <= Z.of_nat (size (gs_gates s))))) /\
  (forall q, q <> provider -> gs_gates s' !! q = gs_gates s !! q /\ effective s' q = effective s q) /\
  Z.of_nat (size (gs_gates s')) <= Z.max maxProviderGates (Z.of_nat (size (gs_gates s))).
Proof.
  intros Hr Hu. cbv zeta. pose proof (gateReach_inv _ _ Hr) as Hi.
  unfold UpdateThrottle, current, effective in *. case_bool_decide as Hemp.
  { injection Hu as <- <- <-. split_and!; try done; [tauto|lia]. }
  cbv zeta in Hu. destruct (gs_gates s !! provider) as [gid|] eqn:Eg.
  - destruct (gi_map _ _ Hi _ _ Eg) as [g Hg]. rewrite (gate_of_lookup _ _ _ Hg) in *.
    cbn [th_Limit] in Hu. set (limit := normalized _) in *.
    rewrite (bool_decide_eq_false_2 (Some gid = None)), andb_false_l, orb_false_r in Hu by done.
    case_bool_decide as Heq.
    { injection Hu as <- <- <-. split_and!; try done; [tauto|lia]. }
    rewrite gate_of_set in Hu.
    assert (Hoth : forall q gid', q <> provider -> gs_gates s !! q = Some gid' -> gid' <> gid).
    { intros q gid' Hq Hm ->. apply Hq. by eapply gi_inj. }
    destruct (Limit_Active limit) eqn:Ea; cbn [negb] in Hu; injection Hu as <- <- <-;
      cbn [gs_gates set_gate].
    + split_and!; try done.
      * intros _. rewrite Eg, gate_of_set, reset_throttle. cbn. by destruct (IsZero _).
      * intros q Hq. split; [done|]. destruct (gs_gates s !! q) as [gid'|] eqn:Eq; [|done].
        unfold gate_of. cbn. by rewrite !lookup_insert_ne by (intros ->; by eapply Hoth).
      * lia.
    + split_and!; try done.
      * intros _. by rewrite lookup_delete_eq.
      * intros q Hq. rewrite lookup_delete_ne by done. split; [done|].
        destruct (gs_gates s !! q) as [gid'|] eqn:Eq; [|done].
        unfold gate_of. cbn. by rewrite !lookup_insert_ne by (intros ->; by eapply Hoth).
      * rewrite map_size_delete, Eg. lia.
  - cbn [th_Limit] in Hu. set (limit := normalized _) in *.
    rewrite (bool_decide_eq_true_2 (None = None)) in Hu by done. cbn [andb] in Hu.
    destruct (bool_decide (th_Limit zeroThrottle = limit) || _) eqn:E.
    { injection Hu as <- <- <-. split_and!; try done; [|lia]. intros _. split_and!; [done|done|].
      apply orb_true_iff in E as [E%bool_decide_eq_true|E%negb_true_iff]; [tauto|].
      right. right. left. done. }
    apply orb_false_iff in E as [E Ea]. apply bool_decide_eq_false in E. rewrite Ea in Hu.
    apply negb_false_iff in Ea. destruct (maxProviderGates <=? _) eqn:Em; [|].
    { injection Hu as <- <- <-. apply Z.leb_le in Em. split_and!; try done; [|lia].
      intros _. split_and!; try done. tauto. }
    apply Z.leb_gt in Em. injection Hu as <- <- <-. cbn [gs_gates]. rewrite Ea. split_and!; try done.
    + intros _. rewrite lookup_insert_eq. erewrite gate_of_lookup by apply lookup_insert_eq.
      rewrite reset_throttle. cbn. by destruct (IsZero _).
    + intros q Hq. rewrite lookup_insert_ne by done. split; [done|].
      destruct (gs_gates s !! q) as [gid'|] eqn:Eq; [|done].
      unfold gate_of. cbn. rewrite lookup_insert_ne; [done|]. intros Hf.
      destruct (gi_map _ _ Hi _ _ Eq) as [? H1]. rewrite <- Hf, fresh_gid in H1. done.
    + rewrite map_size_insert, Eg. lia.
Qed.

(** ** Witnesses: one provider capped at one request in flight *)

Definition demo_limit : Limit := Build_Limit 1 0 0 100 Second false 0.
Definition demo_throttle : Throttle := MkThrottle "p" demo_limit "ui" "dashboard" unixEpoch.
Definition demo_now : Time := unixEpoch + Second.
Definition demo_gates : gateState :=
  (UpdateThrottle (GateState ∅ ∅) "p" (fun _ => demo_throttle) demo_now).1.1.
Definition demo_admit := tryAdmit demo_gates "p" 40 demo_now.

Lemma demo_gates_reach : gateReach demo_gates ∅.
Proof. apply gr_update, gr_init. Qed.

Lemma gate_occupancy_exact_witness :
  pg_inFlight (gate_of demo_admit.1.1.1 0) = 1 /\ pg_reserved (gate_of demo_admit.1.1.1 0) = 40.
Proof.
  assert (gateReach demo_admit.1.1.1 (<[0%nat := demo_admit.1.2]> ∅)) as Hr.
  { eapply (gr_admit demo_gates ∅ "p" 40 demo_now _ _ demo_admit.2 0%nat);
      [apply demo_gates_reach| |vm_compute; discriminate|reflexivity].
    change (tryAdmit demo_gates "p" 40 demo_now) with demo_admit.
    assert (demo_admit.1.1.2 = true) as Hok by (vm_compute; reflexivity).
    revert Hok. destruct demo_admit as [[[s ok] lease] w]. cbn. by intros ->. }
  destruct (gs_heap demo_admit.1.1.1 !! 0%nat) as [g|] eqn:Eg; [|vm_compute in Eg; discriminate].
  destruct (gate_occupancy_exact _ _ 0%nat g Hr Eg) as (H1 & H2 & _).
  rewrite (gate_of_lookup _ _ _ Eg), H1, H2. split; vm_compute; reflexivity.
Defined.

Lemma gate_tryAdmit_exact_witness :
  (gate_tryAdmit 0 (gate_of demo_gates 0) 40 demo_now).1.1.2 = true /\
  pg_inFlight (gate_tryAdmit 0 (gate_of demo_gates 0) 40 demo_now).1.1.1 = 1.
Proof.
  assert (Limit_Active (th_Limit (pg_throttle (gate_of demo_gates 0))) = true) as Ha
    by (vm_compute; reflexivity).
  pose proof (gate_tryAdmit_exact 0 (gate_of demo_gates 0) 40 demo_now Ha) as H.
  assert (concurrency_fits (gate_of demo_gates 0) && window_fits (gate_of demo_gates 0) demo_now &&
    token_fits (refill (pg_tok (gate_of demo_gates 0)) demo_now) 40 = true) as Hf
    by (vm_compute; reflexivity).
  assert (pg_inFlight (gate_of demo_gates 0) = 0) as H0 by (vm_compute; reflexivity).
  destruct (gate_tryAdmit _ _ _ _) as [[[g' ok] lease] w]. destruct H as (Hok & Hyes & _).
  rewrite Hf in Hok. destruct (Hyes Hok) as (_ & _ & Hin & _). cbn. split; [exact Hok|].
  rewrite Hin, H0. reflexivity.
Defined.

Lemma UpdateThrottle_exact_witness :
  effective demo_gates "p" = demo_limit /\ effective demo_gates "q" = zeroLimit.
Proof.
  destruct (UpdateThrottle (GateState ∅ ∅) "p" (fun _ => demo_throttle) demo_now)
    as [[s' changed] ramp] eqn:E.
  assert (s' = demo_gates) as -> by (unfold demo_gates; by rewrite E).
  destruct (UpdateThrottle_exact _ _ _ _ _ _ _ _ gr_init E) as (Hyes & _ & Hq & _).
  assert (changed = true) as -> by (apply (f_equal (fun x => x.1.2)) in E; cbn [fst snd] in E;
    rewrite <- E; vm_compute; reflexivity).
  destruct (Hyes eq_refl) as (-> & _). split; [reflexivity|].
  destruct (Hq "q"%string ltac:(discriminate)) as [_ ->]. reflexivity.
Defined.
