(* ===== verification/Sched.v ===== *)
(** internal/scheduler/scheduler_groups.go and the state of scheduler.go: the
    groups, their provider indexes and fair sets, the idle order, eviction. *)

From S2P Require Import Prelude GoTime WakeTimer LinkedList Ramp Pacing Drain Hold HoldQueue Gate.

(** A [linkedList] is the sequence of its values, which LinkedList.v proves it
    implements; a node's [owner] is membership. A push of a member panics in the
    code: the invariants keep every sequence duplicate free, so none happens. *)
Definition seq_push (l : list nat) (x : nat) : list nat := l ++ [x].
Definition seq_remove (l : list nat) (x : nat) : list nat := filter (fun y => y <> x) l.

Definition maxSchedulerGroups : Z := 100000.

Record Options := {
  op_MaxConcurrent : Z;
  op_MaxQueueSize : Z;
  op_MaxWait : Duration;
  op_BaseBackoff : Duration;
  op_MaxBackoff : Duration;
}.

Record group := Group {
  g_key : string;
  g_provider : string;
  g_providerIdx : option nat;
  g_idleListed : bool;
  g_retired : bool;
  g_maxConcurrent : Z;
  g_inFlight : Z;
  g_nextAllowedAt : Time;
  g_backoff : Duration;
  g_requestBackoff : Duration;
  g_tripped : bool;
  g_probing : bool;
  g_sendWaiters : Z;
  g_sendKick : nat;
  g_pacer : wakeTimer;
  g_queue : list nat;
  g_hasQueued : bool;
  g_providerQueued : option nat;
  g_gateWaiting : bool;
  g_providerFair : option nat;
  g_ramp : rampState;
}.

Definition set_g_key (v : string) (x : group) : group :=
  Group v (g_provider x) (g_providerIdx x) (g_idleListed x) (g_retired x) (g_maxConcurrent x)
    (g_inFlight x) (g_nextAllowedAt x) (g_backoff x) (g_requestBackoff x) (g_tripped x)
    (g_probing x) (g_sendWaiters x) (g_sendKick x) (g_pacer x) (g_queue x) (g_hasQueued x)
    (g_providerQueued x) (g_gateWaiting x) (g_providerFair x) (g_ramp x).
Definition set_g_provider (v : string) (x : group) : group :=
  Group (g_key x) v (g_providerIdx x) (g_idleListed x) (g_retired x) (g_maxConcurrent x)
    (g_inFlight x) (g_nextAllowedAt x) (g_backoff x) (g_requestBackoff x) (g_tripped x)
    (g_probing x) (g_sendWaiters x) (g_sendKick x) (g_pacer x) (g_queue x) (g_hasQueued x)
    (g_providerQueued x) (g_gateWaiting x) (g_providerFair x) (g_ramp x).
Definition set_g_providerIdx (v : option nat) (x : group) : group :=
  Group (g_key x) (g_provider x) v (g_idleListed x) (g_retired x) (g_maxConcurrent x)
    (g_inFlight x) (g_nextAllowedAt x) (g_backoff x) (g_requestBackoff x) (g_tripped x)
    (g_probing x) (g_sendWaiters x) (g_sendKick x) (g_pacer x) (g_queue x) (g_hasQueued x)
    (g_providerQueued x) (g_gateWaiting x) (g_providerFair x) (g_ramp x).
Definition set_g_idleListed (v : bool) (x : group) : group :=
  Group (g_key x) (g_provider x) (g_providerIdx x) v (g_retired x) (g_maxConcurrent x)
    (g_inFlight x) (g_nextAllowedAt x) (g_backoff x) (g_requestBackoff x) (g_tripped x)
    (g_probing x) (g_sendWaiters x) (g_sendKick x) (g_pacer x) (g_queue x) (g_hasQueued x)
    (g_providerQueued x) (g_gateWaiting x) (g_providerFair x) (g_ramp x).
Definition set_g_retired (v : bool) (x : group) : group :=
  Group (g_key x) (g_provider x) (g_providerIdx x) (g_idleListed x) v (g_maxConcurrent x)
    (g_inFlight x) (g_nextAllowedAt x) (g_backoff x) (g_requestBackoff x) (g_tripped x)
    (g_probing x) (g_sendWaiters x) (g_sendKick x) (g_pacer x) (g_queue x) (g_hasQueued x)
    (g_providerQueued x) (g_gateWaiting x) (g_providerFair x) (g_ramp x).
Definition set_g_maxConcurrent (v : Z) (x : group) : group :=
  Group (g_key x) (g_provider x) (g_providerIdx x) (g_idleListed x) (g_retired x) v (g_inFlight x)
    (g_nextAllowedAt x) (g_backoff x) (g_requestBackoff x) (g_tripped x) (g_probing x)
    (g_sendWaiters x) (g_sendKick x) (g_pacer x) (g_queue x) (g_hasQueued x) (g_providerQueued x)
    (g_gateWaiting x) (g_providerFair x) (g_ramp x).
Definition set_g_inFlight (v : Z) (x : group) : group :=
  Group (g_key x) (g_provider x) (g_providerIdx x) (g_idleListed x) (g_retired x)
    (g_maxConcurrent x) v (g_nextAllowedAt x) (g_backoff x) (g_requestBackoff x) (g_tripped x)
    (g_probing x) (g_sendWaiters x) (g_sendKick x) (g_pacer x) (g_queue x) (g_hasQueued x)
    (g_providerQueued x) (g_gateWaiting x) (g_providerFair x) (g_ramp x).
Definition set_g_nextAllowedAt (v : Time) (x : group) : group :=
  Group (g_key x) (g_provider x) (g_providerIdx x) (g_idleListed x) (g_retired x)
    (g_maxConcurrent x) (g_inFlight x) v (g_backoff x) (g_requestBackoff x) (g_tripped x)
    (g_probing x) (g_sendWaiters x) (g_sendKick x) (g_pacer x) (g_queue x) (g_hasQueued x)
    (g_providerQueued x) (g_gateWaiting x) (g_providerFair x) (g_ramp x).
Definition set_g_backoff (v : Duration) (x : group) : group :=
  Group (g_key x) (g_provider x) (g_providerIdx x) (g_idleListed x) (g_retired x)
    (g_maxConcurrent x) (g_inFlight x) (g_nextAllowedAt x) v (g_requestBackoff x) (g_tripped x)
    (g_probing x) (g_sendWaiters x) (g_sendKick x) (g_pacer x) (g_queue x) (g_hasQueued x)
    (g_providerQueued x) (g_gateWaiting x) (g_providerFair x) (g_ramp x).
Definition set_g_requestBackoff (v : Duration) (x : group) : group :=
  Group (g_key x) (g_provider x) (g_providerIdx x) (g_idleListed x) (g_retired x)
    (g_maxConcurrent x) (g_inFlight x) (g_nextAllowedAt x) (g_backoff x) v (g_tripped x)
    (g_probing x) (g_sendWaiters x) (g_sendKick x) (g_pacer x) (g_queue x) (g_hasQueued x)
    (g_providerQueued x) (g_gateWaiting x) (g_providerFair x) (g_ramp x).
Definition set_g_tripped (v : bool) (x : group) : group :=
  Group (g_key x) (g_provider x) (g_providerIdx x) (g_idleListed x) (g_retired x)
    (g_maxConcurrent x) (g_inFlight x) (g_nextAllowedAt x) (g_backoff x) (g_requestBackoff x) v
    (g_probing x) (g_sendWaiters x) (g_sendKick x) (g_pacer x) (g_queue x) (g_hasQueued x)
    (g_providerQueued x) (g_gateWaiting x) (g_providerFair x) (g_ramp x).
Definition set_g_probing (v : bool) (x : group) : group :=
  Group (g_key x) (g_provider x) (g_providerIdx x) (g_idleListed x) (g_retired x)
    (g_maxConcurrent x) (g_inFlight x) (g_nextAllowedAt x) (g_backoff x) (g_requestBackoff x)
    (g_tripped x) v (g_sendWaiters x) (g_sendKick x) (g_pacer x) (g_queue x) (g_hasQueued x)
    (g_providerQueued x) (g_gateWaiting x) (g_providerFair x) (g_ramp x).
Definition set_g_sendWaiters (v : Z) (x : group) : group :=
  Group (g_key x) (g_provider x) (g_providerIdx x) (g_idleListed x) (g_retired x)
    (g_maxConcurrent x) (g_inFlight x) (g_nextAllowedAt x) (g_backoff x) (g_requestBackoff x)
    (g_tripped x) (g_probing x) v (g_sendKick x) (g_pacer x) (g_queue x) (g_hasQueued x)
    (g_providerQueued x) (g_gateWaiting x) (g_providerFair x) (g_ramp x).
Definition set_g_sendKick (v : nat) (x : group) : group :=
  Group (g_key x) (g_provider x) (g_providerIdx x) (g_idleListed x) (g_retired x)
    (g_maxConcurrent x) (g_inFlight x) (g_nextAllowedAt x) (g_backoff x) (g_requestBackoff x)
    (g_tripped x) (g_probing x) (g_sendWaiters x) v (g_pacer x) (g_queue x) (g_hasQueued x)
    (g_providerQueued x) (g_gateWaiting x) (g_providerFair x) (g_ramp x).
Definition set_g_pacer (v : wakeTimer) (x : group) : group :=
  Group (g_key x) (g_provider x) (g_providerIdx x) (g_idleListed x) (g_retired x)
    (g_maxConcurrent x) (g_inFlight x) (g_nextAllowedAt x) (g_backoff x) (g_requestBackoff x)
    (g_tripped x) (g_probing x) (g_sendWaiters x) (g_sendKick x) v (g_queue x) (g_hasQueued x)
    (g_providerQueued x) (g_gateWaiting x) (g_providerFair x) (g_ramp x).
Definition set_g_queue (v : list nat) (x : group) : group :=
  Group (g_key x) (g_provider x) (g_providerIdx x) (g_idleListed x) (g_retired x)
    (g_maxConcurrent x) (g_inFlight x) (g_nextAllowedAt x) (g_backoff x) (g_requestBackoff x)
    (g_tripped x) (g_probing x) (g_sendWaiters x) (g_sendKick x) (g_pacer x) v (g_hasQueued x)
    (g_providerQueued x) (g_gateWaiting x) (g_providerFair x) (g_ramp x).
Definition set_g_hasQueued (v : bool) (x : group) : group :=
  Group (g_key x) (g_provider x) (g_providerIdx x) (g_idleListed x) (g_retired x)
    (g_maxConcurrent x) (g_inFlight x) (g_nextAllowedAt x) (g_backoff x) (g_requestBackoff x)
    (g_tripped x) (g_probing x) (g_sendWaiters x) (g_sendKick x) (g_pacer x) (g_queue x) v
    (g_providerQueued x) (g_gateWaiting x) (g_providerFair x) (g_ramp x).
Definition set_g_providerQueued (v : option nat) (x : group) : group :=
  Group (g_key x) (g_provider x) (g_providerIdx x) (g_idleListed x) (g_retired x)
    (g_maxConcurrent x) (g_inFlight x) (g_nextAllowedAt x) (g_backoff x) (g_requestBackoff x)
    (g_tripped x) (g_probing x) (g_sendWaiters x) (g_sendKick x) (g_pacer x) (g_queue x)
    (g_hasQueued x) v (g_gateWaiting x) (g_providerFair x) (g_ramp x).
Definition set_g_gateWaiting (v : bool) (x : group) : group :=
  Group (g_key x) (g_provider x) (g_providerIdx x) (g_idleListed x) (g_retired x)
    (g_maxConcurrent x) (g_inFlight x) (g_nextAllowedAt x) (g_backoff x) (g_requestBackoff x)
    (g_tripped x) (g_probing x) (g_sendWaiters x) (g_sendKick x) (g_pacer x) (g_queue x)
    (g_hasQueued x) (g_providerQueued x) v (g_providerFair x) (g_ramp x).
Definition set_g_providerFair (v : option nat) (x : group) : group :=
  Group (g_key x) (g_provider x) (g_providerIdx x) (g_idleListed x) (g_retired x)
    (g_maxConcurrent x) (g_inFlight x) (g_nextAllowedAt x) (g_backoff x) (g_requestBackoff x)
    (g_tripped x) (g_probing x) (g_sendWaiters x) (g_sendKick x) (g_pacer x) (g_queue x)
    (g_hasQueued x) (g_providerQueued x) (g_gateWaiting x) v (g_ramp x).
Definition set_g_ramp (v : rampState) (x : group) : group :=
  Group (g_key x) (g_provider x) (g_providerIdx x) (g_idleListed x) (g_retired x)
    (g_maxConcurrent x) (g_inFlight x) (g_nextAllowedAt x) (g_backoff x) (g_requestBackoff x)
    (g_tripped x) (g_probing x) (g_sendWaiters x) (g_sendKick x) (g_pacer x) (g_queue x)
    (g_hasQueued x) (g_providerQueued x) (g_gateWaiting x) (g_providerFair x) v.

(** The parked Acquire callers; [w_granted] is the token in [ch], set when the
    waiter leaves the queue with its slot. The hold fields live in HoldQueue.v's
    state under the same identity. *)
Record waiter := Waiter {
  w_group : nat;
  w_enqueued : Time;
  w_pausedAt : Time;
  w_client : string;
  w_provider : string;
  w_model : string;
  w_drainSeq : Z;
  w_estTokens : Z;
  w_admission : admission;
  w_granted : bool;
}.

Definition set_w_group (v : nat) (x : waiter) : waiter :=
  Waiter v (w_enqueued x) (w_pausedAt x) (w_client x) (w_provider x) (w_model x) (w_drainSeq x)
    (w_estTokens x) (w_admission x) (w_granted x).
Definition set_w_enqueued (v : Time) (x : waiter) : waiter :=
  Waiter (w_group x) v (w_pausedAt x) (w_client x) (w_provider x) (w_model x) (w_drainSeq x)
    (w_estTokens x) (w_admission x) (w_granted x).
Definition set_w_pausedAt (v : Time) (x : waiter) : waiter :=
  Waiter (w_group x) (w_enqueued x) v (w_client x) (w_provider x) (w_model x) (w_drainSeq x)
    (w_estTokens x) (w_admission x) (w_granted x).
Definition set_w_client (v : string) (x : waiter) : waiter :=
  Waiter (w_group x) (w_enqueued x) (w_pausedAt x) v (w_provider x) (w_model x) (w_drainSeq x)
    (w_estTokens x) (w_admission x) (w_granted x).
Definition set_w_provider (v : string) (x : waiter) : waiter :=
  Waiter (w_group x) (w_enqueued x) (w_pausedAt x) (w_client x) v (w_model x) (w_drainSeq x)
    (w_estTokens x) (w_admission x) (w_granted x).
Definition set_w_model (v : string) (x : waiter) : waiter :=
  Waiter (w_group x) (w_enqueued x) (w_pausedAt x) (w_client x) (w_provider x) v (w_drainSeq x)
    (w_estTokens x) (w_admission x) (w_granted x).
Definition set_w_drainSeq (v : Z) (x : waiter) : waiter :=
  Waiter (w_group x) (w_enqueued x) (w_pausedAt x) (w_client x) (w_provider x) (w_model x) v
    (w_estTokens x) (w_admission x) (w_granted x).
Definition set_w_estTokens (v : Z) (x : waiter) : waiter :=
  Waiter (w_group x) (w_enqueued x) (w_pausedAt x) (w_client x) (w_provider x) (w_model x)
    (w_drainSeq x) v (w_admission x) (w_granted x).
Definition set_w_admission (v : admission) (x : waiter) : waiter :=
  Waiter (w_group x) (w_enqueued x) (w_pausedAt x) (w_client x) (w_provider x) (w_model x)
    (w_drainSeq x) (w_estTokens x) v (w_granted x).
Definition set_w_granted (v : bool) (x : waiter) : waiter :=
  Waiter (w_group x) (w_enqueued x) (w_pausedAt x) (w_client x) (w_provider x) (w_model x)
    (w_drainSeq x) (w_estTokens x) (w_admission x) v.

(** [pi_cursor] names a group by identity. *)
Record providerIndex := ProviderIndex {
  pi_groups : list nat;
  pi_fair : list nat;
  pi_cursor : option nat;
  pi_fairCount : Z;
  pi_queued : Z;
}.

Definition set_pi_groups (v : list nat) (x : providerIndex) : providerIndex :=
  ProviderIndex v (pi_fair x) (pi_cursor x) (pi_fairCount x) (pi_queued x).
Definition set_pi_fair (v : list nat) (x : providerIndex) : providerIndex :=
  ProviderIndex (pi_groups x) v (pi_cursor x) (pi_fairCount x) (pi_queued x).
Definition set_pi_cursor (v : option nat) (x : providerIndex) : providerIndex :=
  ProviderIndex (pi_groups x) (pi_fair x) v (pi_fairCount x) (pi_queued x).
Definition set_pi_fairCount (v : Z) (x : providerIndex) : providerIndex :=
  ProviderIndex (pi_groups x) (pi_fair x) (pi_cursor x) v (pi_queued x).
Definition set_pi_queued (v : Z) (x : providerIndex) : providerIndex :=
  ProviderIndex (pi_groups x) (pi_fair x) (pi_cursor x) (pi_fairCount x) v.

Definition newProviderIndex : providerIndex := ProviderIndex [] [] None 0 0.

(** An acquisition not yet released: what its Release closure captured, and
    whether the closure's settle has run. *)
Record slot := { sl_group : nat; sl_lease : admission; sl_settled : bool }.

Record sched := Sched {
  sd_opts : Options;
  sd_groups : gmap string nat;
  sd_heap : gmap nat group;
  sd_groupCap : Z;
  sd_providerGroups : gmap string nat;
  sd_indexes : gmap nat providerIndex;
  sd_idle : list nat;
  sd_pacing : pacingLRU (listHeap nat);
  sd_waiters : gmap nat waiter;
  sd_holds : HoldState;
  sd_gates : gateState;
  sd_drain : drainState;
  sd_slots : gmap nat slot;
}.

Definition set_sd_opts (v : Options) (x : sched) : sched :=
  Sched v (sd_groups x) (sd_heap x) (sd_groupCap x) (sd_providerGroups x) (sd_indexes x)
    (sd_idle x) (sd_pacing x) (sd_waiters x) (sd_holds x) (sd_gates x) (sd_drain x) (sd_slots x).
Definition set_sd_groups (v : gmap string nat) (x : sched) : sched :=
  Sched (sd_opts x) v (sd_heap x) (sd_groupCap x) (sd_providerGroups x) (sd_indexes x) (sd_idle x)
    (sd_pacing x) (sd_waiters x) (sd_holds x) (sd_gates x) (sd_drain x) (sd_slots x).
Definition set_sd_heap (v : gmap nat group) (x : sched) : sched :=
  Sched (sd_opts x) (sd_groups x) v (sd_groupCap x) (sd_providerGroups x) (sd_indexes x)
    (sd_idle x) (sd_pacing x) (sd_waiters x) (sd_holds x) (sd_gates x) (sd_drain x) (sd_slots x).
Definition set_sd_groupCap (v : Z) (x : sched) : sched :=
  Sched (sd_opts x) (sd_groups x) (sd_heap x) v (sd_providerGroups x) (sd_indexes x) (sd_idle x)
    (sd_pacing x) (sd_waiters x) (sd_holds x) (sd_gates x) (sd_drain x) (sd_slots x).
Definition set_sd_providerGroups (v : gmap string nat) (x : sched) : sched :=
  Sched (sd_opts x) (sd_groups x) (sd_heap x) (sd_groupCap x) v (sd_indexes x) (sd_idle x)
    (sd_pacing x) (sd_waiters x) (sd_holds x) (sd_gates x) (sd_drain x) (sd_slots x).
Definition set_sd_indexes (v : gmap nat providerIndex) (x : sched) : sched :=
  Sched (sd_opts x) (sd_groups x) (sd_heap x) (sd_groupCap x) (sd_providerGroups x) v (sd_idle x)
    (sd_pacing x) (sd_waiters x) (sd_holds x) (sd_gates x) (sd_drain x) (sd_slots x).
Definition set_sd_idle (v : list nat) (x : sched) : sched :=
  Sched (sd_opts x) (sd_groups x) (sd_heap x) (sd_groupCap x) (sd_providerGroups x) (sd_indexes x)
    v (sd_pacing x) (sd_waiters x) (sd_holds x) (sd_gates x) (sd_drain x) (sd_slots x).
Definition set_sd_pacing (v : pacingLRU (listHeap nat)) (x : sched) : sched :=
  Sched (sd_opts x) (sd_groups x) (sd_heap x) (sd_groupCap x) (sd_providerGroups x) (sd_indexes x)
    (sd_idle x) v (sd_waiters x) (sd_holds x) (sd_gates x) (sd_drain x) (sd_slots x).
Definition set_sd_waiters (v : gmap nat waiter) (x : sched) : sched :=
  Sched (sd_opts x) (sd_groups x) (sd_heap x) (sd_groupCap x) (sd_providerGroups x) (sd_indexes x)
    (sd_idle x) (sd_pacing x) v (sd_holds x) (sd_gates x) (sd_drain x) (sd_slots x).
Definition set_sd_holds (v : HoldState) (x : sched) : sched :=
  Sched (sd_opts x) (sd_groups x) (sd_heap x) (sd_groupCap x) (sd_providerGroups x) (sd_indexes x)
    (sd_idle x) (sd_pacing x) (sd_waiters x) v (sd_gates x) (sd_drain x) (sd_slots x).
Definition set_sd_gates (v : gateState) (x : sched) : sched :=
  Sched (sd_opts x) (sd_groups x) (sd_heap x) (sd_groupCap x) (sd_providerGroups x) (sd_indexes x)
    (sd_idle x) (sd_pacing x) (sd_waiters x) (sd_holds x) v (sd_drain x) (sd_slots x).
Definition set_sd_drain (v : drainState) (x : sched) : sched :=
  Sched (sd_opts x) (sd_groups x) (sd_heap x) (sd_groupCap x) (sd_providerGroups x) (sd_indexes x)
    (sd_idle x) (sd_pacing x) (sd_waiters x) (sd_holds x) (sd_gates x) v (sd_slots x).
Definition set_sd_slots (v : gmap nat slot) (x : sched) : sched :=
  Sched (sd_opts x) (sd_groups x) (sd_heap x) (sd_groupCap x) (sd_providerGroups x) (sd_indexes x)
    (sd_idle x) (sd_pacing x) (sd_waiters x) (sd_holds x) (sd_gates x) (sd_drain x) v.

Definition newGroup (key : string) (maxConcurrent : Z) : group :=
  Group key "" None false false maxConcurrent 0 zeroTime 0 0 false false 0 1 newWakeTimer [] false
    None false None resetRamp.
Definition zeroWaiter : waiter :=
  Waiter 0 zeroTime zeroTime "" "" "" 0 0 zeroAdmission false.

Definition group_of (s : sched) (gid : nat) : group := default (newGroup "" 0) (sd_heap s !! gid).
Definition waiter_of (s : sched) (wid : nat) : waiter := default zeroWaiter (sd_waiters s !! wid).
Definition index_of (s : sched) (iid : nat) : providerIndex :=
  default newProviderIndex (sd_indexes s !! iid).
Definition upd_group (gid : nat) (f : group -> group) (s : sched) : sched :=
  set_sd_heap (alter f gid (sd_heap s)) s.
Definition upd_index (iid : nat) (f : providerIndex -> providerIndex) (s : sched) : sched :=
  set_sd_indexes (alter f iid (sd_indexes s)) s.

Definition newHoldState : HoldState :=
  {| hst_policy := Build_policySnap []; hst_holdSeq := 0; hst_kicks := 0; hst_count := ∅;
     hst_waiters := ∅; hst_events := [] |}.

Definition New (opts : Options) : sched :=
  Sched opts ∅ ∅ maxSchedulerGroups ∅ ∅ [] newPacingLRU ∅ newHoldState (GateState ∅ ∅)
    newDrainState ∅.

Definition UpdateOptions (opts : Options) (s : sched) : sched := set_sd_opts opts s.

(** ** The provider index *)

Definition linkLocked (iid gid : nat) (s : sched) : sched :=
  if bool_decide (gid ∈ pi_groups (index_of s iid)) then s else
  upd_index iid (fun i => set_pi_groups (seq_push (pi_groups i) gid) i) s.

Definition unlinkLocked (iid gid : nat) (s : sched) : sched :=
  if bool_decide (gid ∈ pi_groups (index_of s iid)) then
    upd_index iid (fun i =>
      let i := set_pi_groups (seq_remove (pi_groups i) gid) i in
      if bool_decide (pi_cursor i = Some gid) then set_pi_cursor None i else i) s
  else s.

Definition markFairLocked (iid gid : nat) (s : sched) : sched :=
  upd_index iid (fun i => set_pi_fairCount (pi_fairCount i + 1)
      (set_pi_fair (seq_push (pi_fair i) gid) i))
    (upd_group gid (set_g_gateWaiting true) s).

Definition clearFairLocked (iid gid : nat) (s : sched) : sched :=
  if negb (g_gateWaiting (group_of s gid)) then s else
  upd_index iid (fun i => set_pi_fair (seq_remove (pi_fair i) gid)
      (set_pi_fairCount (pi_fairCount i - 1) i))
    (upd_group gid (set_g_gateWaiting false) s).

(** The nodes from the first one carrying [x] on. *)
Fixpoint from_value (x : nat) (l : list nat) : list nat :=
  match l with
  | [] => []
  | y :: l => if bool_decide (y = x) then y :: l else from_value x l
  end.
(** The nodes up to and including the first one carrying [x]. *)
Fixpoint upto_value (x : nat) (l : list nat) : list nat :=
  match l with
  | [] => []
  | y :: l => if bool_decide (y = x) then [y] else y :: upto_value x l
  end.

(** fairSnapshot: the index (its cursor may be dropped) and the groups. *)
Definition fairSnapshot (i : providerIndex) : providerIndex * list nat :=
  match pi_fair i with
  | [] => (set_pi_cursor None i, [])
  | fair =>
      match pi_cursor i with
      | None => (i, fair)
      | Some c =>
          match from_value c fair with
          | [] => (set_pi_cursor None i, fair)
          | _ :: rest => (i, rest ++ upto_value c fair)
          end
      end
  end.

Definition advanceFair (iid gid : nat) (s : sched) : sched :=
  upd_index iid (set_pi_cursor (Some gid)) s.

Definition snapshotAll (s : sched) (iid : nat) : list nat := pi_groups (index_of s iid).

(** ** The idle order *)

Definition idlePushLocked (gid : nat) (s : sched) : sched :=
  if g_idleListed (group_of s gid) then s else
  upd_group gid (set_g_idleListed true) (set_sd_idle (seq_push (sd_idle s) gid) s).

Definition idleUnlinkLocked (gid : nat) (s : sched) : sched :=
  if negb (g_idleListed (group_of s gid)) then s else
  set_sd_idle (seq_remove (sd_idle s) gid) (upd_group gid (set_g_idleListed false) s).

Definition markGroupBusyLocked (gid : nat) (s : sched) : sched :=
  if negb (g_idleListed (group_of s gid)) then s else idleUnlinkLocked gid s.

Definition queue_live (g : group) : Z := Z.of_nat (length (g_queue g)).

Definition markGroupIdleLocked (gid : nat) (now : Time) (s : sched) : sched :=
  let g := group_of s gid in
  if g_retired g || negb (g_inFlight g =? 0) || negb (queue_live g =? 0) then s else
  let s :=
    if negb (IsZero (rp_start (g_ramp g))) && IsZero (rp_idleSince (g_ramp g))
    then upd_group gid (set_g_ramp {| rp_start := rp_start (g_ramp g); rp_idleSince := now |}) s
    else s in
  idlePushLocked gid s.

Definition popIdleGroupLocked (s : sched) : sched * option nat :=
  match sd_idle s with
  | [] => (s, None)
  | gid :: _ => (idleUnlinkLocked gid s, Some gid)
  end.

(** ** The fair-waiting mark and the queue witness *)

Definition admissionWindowOpenLocked (g : group) (now : Time) : bool :=
  if negb (g_maxConcurrent g =? 0) && (g_maxConcurrent g <=? g_inFlight g) then false
  else negb (Before now (g_nextAllowedAt g)).

Definition markGateWaitingLocked (gid : nat) (now : Time) (s : sched) : sched :=
  let g := group_of s gid in
  match g_providerIdx g with
  | None => s
  | Some iid =>
      if g_gateWaiting g then s else
      if (queue_live g =? 0) || negb (admissionWindowOpenLocked g now) then s
      else markFairLocked iid gid s
  end.

Definition clearGateWaitingLocked (gid : nat) (s : sched) : sched :=
  let g := group_of s gid in
  match g_providerIdx g with
  | None => s
  | Some iid => if negb (g_gateWaiting g) then s else clearFairLocked iid gid s
  end.

Definition syncQueueLocked (gid : nat) (s : sched) : sched :=
  let nonEmpty := 0 <? queue_live (group_of s gid) in
  let s := if negb nonEmpty then clearGateWaitingLocked gid s else s in
  if Bool.eqb (g_hasQueued (group_of s gid)) nonEmpty then s else
  let s := upd_group gid (set_g_hasQueued nonEmpty) s in
  match g_providerQueued (group_of s gid) with
  | None => s
  | Some iid =>
      upd_index iid (fun i => set_pi_queued (pi_queued i + (if nonEmpty then 1 else -1)) i) s
  end.

(** ** Creating, attributing and evicting groups *)

Definition adoptPacingLocked (p : pacingLRU (listHeap nat)) (g : group) (now : Time)
    : pacingLRU (listHeap nat) * group :=
  let '(p, found) := pacing_take p (g_key g) in
  match found with
  | None => (p, g)
  | Some st =>
      let g := set_g_tripped (pst_tripped st) (set_g_requestBackoff (pst_requestBackoff st)
                 (set_g_backoff (pst_backoff st) (set_g_nextAllowedAt (pst_nextAllowedAt st) g))) in
      (p, if After (g_nextAllowedAt g) now
          then set_g_pacer (arm (g_pacer g) (g_nextAllowedAt g) false) g else g)
  end.

Definition groupForLocked (s : sched) (key : string) (maxConcurrent : Z) (applyCap : bool)
    (now : Time) : sched * nat :=
  match sd_groups s !! key with
  | None =>
      let '(pacing, g) := adoptPacingLocked (sd_pacing s) (newGroup key maxConcurrent) now in
      let gid := fresh (dom (sd_heap s)) in
      let s := set_sd_groups (<[key := gid]> (sd_groups s))
                 (set_sd_heap (<[gid := g]> (sd_heap s)) (set_sd_pacing pacing s)) in
      (idlePushLocked gid s, gid)
  | Some gid =>
      (if applyCap && negb (g_maxConcurrent (group_of s gid) =? maxConcurrent)
       then upd_group gid (set_g_maxConcurrent maxConcurrent) s else s, gid)
  end.

Definition attributeProviderLocked (gid : nat) (provider : string) (s : sched) : sched :=
  if bool_decide (provider = "") || negb (bool_decide (g_provider (group_of s gid) = "")) then s else
  let '(s, iid) :=
    match sd_providerGroups s !! provider with
    | Some iid => (s, iid)
    | None =>
        let iid := fresh (dom (sd_indexes s)) in
        (set_sd_providerGroups (<[provider := iid]> (sd_providerGroups s))
           (set_sd_indexes (<[iid := newProviderIndex]> (sd_indexes s)) s), iid)
    end in
  let s := upd_group gid (fun g => set_g_providerFair (Some iid) (set_g_providerQueued (Some iid)
             (set_g_providerIdx (Some iid) (set_g_provider provider g)))) s in
  let s := if g_hasQueued (group_of s gid)
           then upd_index iid (fun i => set_pi_queued (pi_queued i + 1) i) s else s in
  linkLocked iid gid s.

Definition detachProviderLocked (gid : nat) (s : sched) : sched :=
  let g := group_of s gid in
  match g_providerIdx g with
  | None => s
  | Some iid =>
      let s := upd_group gid (fun g => set_g_providerFair None (set_g_providerIdx None g)) s in
      let s := unlinkLocked iid gid s in
      if bool_decide (pi_groups (index_of s iid) = []) &&
         bool_decide (sd_providerGroups s !! g_provider g = Some iid)
      then set_sd_providerGroups (delete (g_provider g) (sd_providerGroups s)) s
      else s
  end.

Definition pacing_of (g : group) : pacingState :=
  {| pst_key := g_key g; pst_nextAllowedAt := g_nextAllowedAt g; pst_backoff := g_backoff g;
     pst_requestBackoff := g_requestBackoff g; pst_tripped := g_tripped g |}.

Definition evictIdleGroupLocked (gid : nat) (s : sched) : sched * bool :=
  let g := group_of s gid in
  if g_retired g || negb (g_inFlight g =? 0) || negb (queue_live g =? 0) then (s, false) else
  let s := upd_group gid (set_g_retired true) s in
  let s := clearGateWaitingLocked gid s in
  let s := upd_group gid (fun g => set_g_pacer (stop (g_pacer g)) g) s in
  let pacing := pacing_of (group_of s gid) in
  let s := idleUnlinkLocked gid s in
  if negb (bool_decide (sd_groups s !! g_key g = Some gid)) then (s, false) else
  let s := detachProviderLocked gid (set_sd_groups (delete (g_key g) (sd_groups s)) s) in
  (if negb (IsZero (pst_nextAllowedAt pacing)) || negb (pst_backoff pacing =? 0) ||
      negb (pst_requestBackoff pacing =? 0) || pst_tripped pacing
   then set_sd_pacing (pacing_put (sd_pacing s) (g_key g) pacing) s else s, true).

(** One idle group is taken from the order per round. *)
Fixpoint makeGroupRoom_loop (fuel : nat) (s : sched) : sched :=
  match fuel with
  | O => s
  | S fuel =>
      if Z.of_nat (size (sd_groups s)) <? sd_groupCap s then s else
      match popIdleGroupLocked s with
      | (s, None) => s
      | (s, Some gid) => makeGroupRoom_loop fuel (evictIdleGroupLocked gid s).1
      end
  end.
Definition makeGroupRoomLocked (s : sched) : sched :=
  makeGroupRoom_loop (S (length (sd_idle s))) s.

(** The critical section of AcquireWith that finds the caller's group. *)
Definition acquire_lookup (s : sched) (key : string) (maxConcurrent : Z) (provider : string)
    (now : Time) : sched * result errorString nat :=
  let '(s, full) :=
    if bool_decide (sd_groups s !! key = None) then
      let s := makeGroupRoomLocked s in (s, sd_groupCap s <=? Z.of_nat (size (sd_groups s)))
    else (s, false) in
  if full : bool then (s, Err ErrGroupLimit) else
  let '(s, gid) := groupForLocked s key maxConcurrent true now in
  (attributeProviderLocked gid provider s, Ok gid).

(** resetRamps, for the groups of one provider and for all of them. *)
Definition resetRamps (gids : list nat) (s : sched) : sched :=
  fold_left (fun s gid => upd_group gid (set_g_ramp resetRamp) s) gids s.
Definition resetProviderRamps (provider : string) (s : sched) : sched :=
  match sd_providerGroups s !! provider with
  | None => s
  | Some iid => resetRamps (snapshotAll s iid) s
  end.
Definition resetAllRamps (s : sched) : sched :=
  fold_left (fun s kv => resetRamps (snapshotAll s kv.2) s) (map_to_list (sd_providerGroups s)) s.

(** Stats. *)
Definition Stats (s : sched) : Z * Z * Z :=
  map_fold (fun _ gid '(inFlight, queued, sendWaiters) =>
    let g := group_of s gid in
    (inFlight + g_inFlight g, queued + queue_live g, sendWaiters + g_sendWaiters g))
    (0, 0, 0) (sd_groups s).

