(* ===== verification/Admission.v ===== *)
(** internal/scheduler/scheduler_admission.go, and the drains of throttle.go and
    scheduler.go: admission, the FIFO drain of one group, the fair drain of a
    provider, the wait loop of acquire and its release. *)

From S2P Require Import Prelude GoTime WakeTimer Ramp Drain Hold HoldQueue Gate Sched.

(** ** One admission attempt *)

(** rampPolicy; the target and the duration of an enabled policy. *)
Definition rampPolicy (s : sched) (g : group) : option (Z * Duration) :=
  if bool_decide (g_provider g = "") then None else
  match gate (sd_gates s) (g_provider g) with
  | None => None
  | Some gid =>
      let limit := th_Limit (pg_throttle (gate_of (sd_gates s) gid)) in
      if negb (rampActive limit) then None
      else Some (lim_Concurrency limit, lim_RampDuration limit)
  end.

Definition sched_armThrottleDrain (provider : string) (d : Duration) (now : Time) (s : sched) : sched :=
  set_sd_gates (armThrottleDrain (sd_gates s) provider d now) s.

(** An active ramp cannot panic (Ramp.v), so the defaults are never taken. *)
Definition ramp_allowance (g : group) (now : Time) (p : Z * Duration) : Z :=
  default 1 (rampAllowance (g_ramp g) now p.1 p.2).
Definition ramp_next (g : group) (now : Time) (p : Z * Duration) : Time :=
  default zeroTime (nextRampStep (g_ramp g) now p.1 p.2).

Definition armRampStepLocked (gid : nat) (now : Time) (s : sched) : sched :=
  let g := group_of s gid in
  if queue_live g =? 0 then s else
  match rampPolicy s g with
  | None => s
  | Some p =>
      let next := ramp_next g now p in
      if IsZero next then s else sched_armThrottleDrain (g_provider g) (Sub next now) now s
  end.

(** The new state; whether admitted; the lease; the wait; whether the gate was
    reached and refused. *)
Definition admitLocked (s : sched) (gid : nat) (now : Time) (provider : string) (estTokens : Z)
    : sched * bool * admission * Duration * bool :=
  let try_gate (s : sched) :=
    let '(gates, ok, lease, wait) := tryAdmit (sd_gates s) provider estTokens now in
    (set_sd_gates gates s, ok, lease, wait) in
  let refused (s : sched) :=
    if 0 <? queue_live (group_of s gid) then (markGateWaitingLocked gid now s, true)
    else (s, false) in
  match rampPolicy s (group_of s gid) with
  | None =>
      let r := g_ramp (group_of s gid) in
      let s := if negb (IsZero (rp_start r)) || negb (IsZero (rp_idleSince r))
               then upd_group gid (set_g_ramp resetRamp) s else s in
      let '(s, ok, lease, wait) := try_gate s in
      if ok : bool then (s, true, lease, wait, false)
      else let '(s, gateBlocked) := refused s in (s, false, lease, wait, gateBlocked)
  | Some p =>
      let s := upd_group gid (fun g =>
                 set_g_ramp (default (g_ramp g) (anchorRamp (g_ramp g) (g_inFlight g) now p.1 p.2)) g) s in
      let g := group_of s gid in
      if ramp_allowance g now p <=? g_inFlight g then
        let next := ramp_next g now p in
        (if IsZero next then s else sched_armThrottleDrain (g_provider g) (Sub next now) now s,
         false, zeroAdmission, 0, false)
      else
        let '(s, ok, lease, wait) := try_gate s in
        if ok : bool then
          (upd_group gid (fun g => set_g_ramp (startRamp (g_ramp g) (g_inFlight g) now p.2) g) s,
           true, lease, wait, false)
        else let '(s, gateBlocked) := refused s in (s, false, lease, wait, gateBlocked)
  end.

(** ** The drain of one group *)

Definition sched_matchingHold (s : sched) (now : Time) (w : waiter) : option holdSnap :=
  matchingHold (sd_holds s) now (w_client w) (w_provider w).

(** The grant of a queued waiter. *)
Definition grant (gid wid : nat) (lease : admission) (s : sched) : sched :=
  let s := set_sd_waiters (alter (fun w => set_w_granted true (set_w_admission lease w)) wid
                             (sd_waiters s)) s in
  upd_group gid (fun g => set_g_inFlight (g_inFlight g + 1)
                            (set_g_queue (seq_remove (g_queue g) wid) g)) s.

(** The loop over the queue's nodes: the grants, newest first, whether the gate
    refused one, and whether the budget cut the pass short. [cancelled] says
    which contexts are done. *)
Fixpoint drain_loop (s : sched) (gid : nat) (budget : Z) (cancelled : nat -> bool) (now : Time)
    (nodes : list nat) (granted : list nat) : sched * list nat * bool * bool :=
  match nodes with
  | [] => (s, granted, false, false)
  | wid :: nodes =>
      if (0 <? budget) && (budget <=? Z.of_nat (length granted)) then (s, granted, false, true) else
      let g := group_of s gid in
      if (negb (g_maxConcurrent g =? 0) && (g_maxConcurrent g <=? g_inFlight g)) ||
         Before now (g_nextAllowedAt g)
      then (s, granted, false, false) else
      let w := waiter_of s wid in
      if cancelled wid then drain_loop s gid budget cancelled now nodes granted else
      match sched_matchingHold s now w with
      | Some _ => drain_loop s gid budget cancelled now nodes granted
      | None =>
          let '(s, ok, lease, wait, gateBlocked) := admitLocked s gid now (w_provider w) (w_estTokens w) in
          if negb ok then
            (if 0 <? wait then sched_armThrottleDrain (w_provider w) wait now s else s,
             granted, gateBlocked, false)
          else drain_loop (grant gid wid lease s) gid budget cancelled now nodes (wid :: granted)
      end
  end.

Definition drainLimited (s : sched) (gid : nat) (budget : Z) (cancelled : nat -> bool) (now : Time)
    : sched * list nat :=
  let '(s, granted, refused, budgetStop) :=
    drain_loop s gid budget cancelled now (g_queue (group_of s gid)) [] in
  let s := match granted with
           | [] => s
           | _ => armRampStepLocked gid now (syncQueueLocked gid s)
           end in
  (if negb refused && negb budgetStop then clearGateWaitingLocked gid s else s, rev granted).

(** ** The fair drain of a provider *)

Definition sched_concurrencyFull (s : sched) (provider : string) : bool :=
  providerConcurrencyFull (sd_gates s) provider.

(** One pass: the position served last, the number of grants, whether a grant
    refilled the cap. *)
Fixpoint fair_pass (s : sched) (provider : string) (cancelled : nat -> bool) (now : Time)
    (groups : list nat) (i : nat) (last : option nat) (granted : nat)
    : sched * option nat * nat * bool :=
  match groups with
  | [] => (s, last, granted, false)
  | gid :: groups =>
      let g := group_of s gid in
      if negb (g_gateWaiting g) || negb (g_hasQueued g)
      then fair_pass s provider cancelled now groups (S i) last granted else
      let '(s, grants) := drainLimited s gid 1 cancelled now in
      match grants with
      | [] => fair_pass s provider cancelled now groups (S i) last granted
      | _ =>
          if sched_concurrencyFull s provider then (s, Some i, S granted, true)
          else fair_pass s provider cancelled now groups (S i) (Some i) (S granted)
      end
  end.

(** Passes repeat while they grant; [None] is running out of fuel. *)
Fixpoint fair_passes (fuel : nat) (s : sched) (provider : string) (cancelled : nat -> bool)
    (now : Time) (groups : list nat) (served : option nat) : option (sched * option nat) :=
  match fuel with
  | O => None
  | S fuel =>
      let '(s, last, granted, full) := fair_pass s provider cancelled now groups 0 None 0 in
      if full : bool then Some (s, last) else
      if Nat.eqb granted 0 then Some (s, served) else
      fair_passes fuel s provider cancelled now groups last
  end.

(** The waiters of [groups]; each pass that repeats grants one of them. *)
Definition backlog (s : sched) (groups : list nat) : nat :=
  list_sum (map (fun gid => length (g_queue (group_of s gid))) groups).

Definition drainProvider_named (s : sched) (provider : string) (cancelled : nat -> bool) (now : Time)
    : option sched :=
  match sd_providerGroups s !! provider with
  | None => Some s
  | Some iid =>
      if pi_fairCount (index_of s iid) =? 0 then Some s else
      if sched_concurrencyFull s provider then Some s else
      let '(i, groups) := fairSnapshot (index_of s iid) in
      let s := upd_index iid (fun _ => i) s in
      match groups with
      | [] => Some s
      | _ =>
          match fair_passes (S (backlog s groups)) s provider cancelled now groups None with
          | None => None
          | Some (s, None) => Some s
          | Some (s, Some served) =>
              match groups !! served with
              | Some gid => Some (advanceFair iid gid s)
              | None => Some s
              end
          end
      end
  end.

Definition drain (s : sched) (gid : nat) (cancelled : nat -> bool) (now : Time) : sched :=
  (drainLimited s gid 0 cancelled now).1.

(** drainAll: the walk that marks, the local groups, the providers to drain. *)
Definition drainAll_mark (s : sched) (now : Time) : sched * list nat * gset string :=
  fold_left (fun '(s, local, providers) kv =>
    let g := group_of s kv.2 in
    let provider := g_provider g in
    let queued := 0 <? queue_live g in
    let s := if negb (bool_decide (provider = "")) && queued
             then markGateWaitingLocked kv.2 now s else s in
    if bool_decide (provider = "") then (s, local ++ [kv.2], providers)
    else (s, local, if queued then {[provider]} ∪ providers else providers))
    (map_to_list (sd_groups s)) (s, [], ∅).

Definition drainAll (s : sched) (cancelled : nat -> bool) (now : Time) : option sched :=
  let '(s, local, providers) := drainAll_mark s now in
  let s := fold_left (fun s gid => drain s gid cancelled now) local s in
  fold_left (fun s provider => match s with
                               | None => None
                               | Some s => drainProvider_named s provider cancelled now
                               end) (elements providers) (Some s).

Definition drainProvider (s : sched) (provider : string) (cancelled : nat -> bool) (now : Time)
    : option sched :=
  if bool_decide (provider = "") then drainAll s cancelled now
  else drainProvider_named s provider cancelled now.

Definition markQueuedProviderGroups (provider : string) (now : Time) (s : sched) : sched :=
  match sd_providerGroups s !! provider with
  | None => s
  | Some iid =>
      if pi_queued (index_of s iid) =? 0 then s else
      fold_left (fun s gid =>
        if negb (g_hasQueued (group_of s gid)) then s else
        if 0 <? queue_live (group_of s gid) then markGateWaitingLocked gid now s else s)
        (snapshotAll s iid) s
  end.

Definition drainProviderWake (s : sched) (provider : string) (cancelled : nat -> bool) (now : Time)
    : option sched :=
  let s := if providerRamps (sd_gates s) provider then markQueuedProviderGroups provider now s else s in
  drainProvider s provider cancelled now.

(** drainAdmission: its critical section, then the drain. *)
Definition drainAdmission_mark (gid : nat) (now : Time) (s : sched) : sched :=
  if bool_decide (g_provider (group_of s gid) = "") then s else markGateWaitingLocked gid now s.
Definition drainAdmission (s : sched) (gid : nat) (cancelled : nat -> bool) (now : Time)
    : option sched :=
  let provider := g_provider (group_of s gid) in
  if bool_decide (provider = "") then Some (drain s gid cancelled now)
  else drainProvider (drainAdmission_mark gid now s) provider cancelled now.

(** ** Acquire *)

(** What acquire needs of the caller's hooks; OnHold and OnUnhold are whether
    the hooks are set. *)
Record WaiterHooks := {
  wh_Client : string;
  wh_Provider : string;
  wh_Model : string;
  wh_EstTokens : Z;
  wh_OnHold : bool;
  wh_OnUnhold : bool;
}.

Inductive acquireOutcome :=
  | AcqErr (e : errorString)
  | AcqGranted (sid : nat)
  | AcqQueued (wid : nat).

(** The slot a Release closure will free. *)
Definition slotRelease (gid : nat) (lease : admission) (s : sched) : sched * nat :=
  let sid := fresh (dom (sd_slots s)) in
  (set_sd_slots (<[sid := {| sl_group := gid; sl_lease := lease; sl_settled := false |}]> (sd_slots s)) s,
   sid).

Definition providerFairIdle (s : sched) (g : group) : bool :=
  match g_providerFair g with
  | None => true
  | Some iid => pi_fairCount (index_of s iid) =? 0
  end.

(** The fast path's admission: [None] when it did not admit. *)
Definition acquire_fast (s : sched) (gid : nat) (hooks : WaiterHooks) (now : Time)
    : sched * option admission :=
  let g := group_of s gid in
  if (queue_live g =? 0) && providerFairIdle s g &&
     ((g_maxConcurrent g =? 0) || (g_inFlight g <? g_maxConcurrent g)) &&
     negb (Before now (g_nextAllowedAt g)) &&
     bool_decide (matchingHold (sd_holds s) now (wh_Client hooks) (wh_Provider hooks) = None)
  then
    let '(s, ok, lease, wait, _) := admitLocked s gid now (wh_Provider hooks) (wh_EstTokens hooks) in
    if ok : bool then
      (markGroupBusyLocked gid (upd_group gid (fun g => set_g_inFlight (g_inFlight g + 1) g) s),
       Some lease)
    else (if 0 <? wait then sched_armThrottleDrain (wh_Provider hooks) wait now s else s, None)
  else (s, None).

(** The waiter of the queued path, published in the hold state too; a refused
    reservation drops it again. *)
Definition new_waiter (s : sched) (gid : nat) (hooks : WaiterHooks) (enqueued : Time) : waiter :=
  Waiter gid enqueued zeroTime (wh_Client hooks) (wh_Provider hooks) (wh_Model hooks)
    (dr_seq (sd_drain s)) (wh_EstTokens hooks) zeroAdmission false.
Definition put_hold_waiter (wid : nat) (w : option HoldWaiter) (h : HoldState) : HoldState :=
  Build_HoldState (hst_policy h) (hst_holdSeq h) (hst_kicks h) (hst_count h)
    (partial_alter (fun _ => w) wid (hst_waiters h)) (hst_events h).

Definition acquire_hold (s : sched) (wid : nat) (hooks : WaiterHooks) (now : Time) : HoldState * bool :=
  let holds := put_hold_waiter wid (Some {| hw_client := wh_Client hooks;
      hw_provider := wh_Provider hooks; hw_holdID := ""; hw_holding := false;
      hw_onHold := wh_OnHold hooks; hw_onUnhold := wh_OnUnhold hooks |}) (sd_holds s) in
  match matchingHold holds now (wh_Client hooks) (wh_Provider hooks) with
  | None => (holds, true)
  | Some h => reserveHold holds wid h
  end.

Definition hold_attributed (h : HoldState) (wid : nat) : bool :=
  match hst_waiters h !! wid with
  | Some w => bool_decide (hw_holdID w <> "")
  | None => false
  end.

(** The critical section of acquire: lines up to the enqueue. *)
Definition acquire_enter (s : sched) (gid : nat) (hooks : WaiterHooks) (enqueued now : Time)
    : sched * acquireOutcome :=
  if g_retired (group_of s gid) then (s, AcqErr errGroupRetired) else
  let '(s, lease) := acquire_fast s gid hooks now in
  match lease with
  | Some lease => let '(s, sid) := slotRelease gid lease s in (s, AcqGranted sid)
  | None =>
      let opts := sd_opts s in
      if (0 <? op_MaxQueueSize opts) && (op_MaxQueueSize opts <=? queue_live (group_of s gid))
      then (s, AcqErr ErrQueueFull) else
      let wid := fresh (dom (sd_waiters s) ∪ dom (hst_waiters (sd_holds s))) in
      let w := new_waiter s gid hooks enqueued in
      let '(holds, reserved) := acquire_hold s wid hooks now in
      if negb reserved then (set_sd_holds (put_hold_waiter wid None holds) s, AcqErr ErrQueueFull) else
      let w := if hold_attributed holds wid && (0 <? op_MaxWait opts)
               then set_w_pausedAt enqueued w else w in
      let s := set_sd_waiters (<[wid := w]> (sd_waiters s)) (set_sd_holds holds s) in
      let s := upd_group gid (fun g => set_g_queue (seq_push (g_queue g) wid) g) s in
      (markGroupBusyLocked gid (syncQueueLocked gid s), AcqQueued wid)
  end.

(** After OnWait: the hold is looked up again. *)
Definition acquire_queued (s : sched) (wid : nat) (now : Time) : sched :=
  match sched_matchingHold s now (waiter_of s wid) with
  | None => s
  | Some h => set_sd_holds (adoptHold (sd_holds s) wid (Some h)) s
  end.

(** removeWaiter up to its drain; the flag says whether the drain follows. *)
Definition removeWaiter (s : sched) (wid : nat) (now : Time) : sched * bool :=
  let w := waiter_of s wid in
  let gid := w_group w in
  let queue := g_queue (group_of s gid) in
  let found := bool_decide (wid ∈ queue) in
  let headRemoved := bool_decide (head queue = Some wid) in
  let s :=
    if found then
      syncQueueLocked gid (upd_group gid (fun g => set_g_queue (seq_remove (g_queue g) wid) g) s)
    else
      let s := set_sd_gates (settle_lease (sd_gates s) (w_admission w) 0 now) s in
      upd_group gid (fun g => if 0 <? g_inFlight g then set_g_inFlight (g_inFlight g - 1) g else g) s in
  let s := markGroupIdleLocked gid now s in
  let s := set_sd_holds (put_hold_waiter wid None (dropHold (sd_holds s) wid)) s in
  (set_sd_waiters (delete wid (sd_waiters s)) s, headRemoved || negb found).

(** A waiter that read its grant. *)
Definition take_grant (s : sched) (wid : nat) : sched * nat :=
  let w := waiter_of s wid in
  let s := set_sd_holds (put_hold_waiter wid None (dropHold (sd_holds s) wid)) s in
  slotRelease (w_group w) (w_admission w) (set_sd_waiters (delete wid (sd_waiters s)) s).

Inductive turnOutcome :=
  | TurnErr (e : errorString) (drains : bool)
  | TurnAgain (drains : bool)
  | TurnPark (held : bool) (timer : option Time) (drains : bool).

(** One turn of the wait loop up to its select: the state, the deadline, and
    what follows; [drains] says that drainAdmission runs. *)
Definition acquire_turn (s : sched) (wid : nat) (deadline now : Time)
    : sched * Time * turnOutcome :=
  let w := waiter_of s wid in
  if queueDrained (sd_drain s) (w_drainSeq w) (w_provider w) (w_model w) (w_client w) then
    let '(s, drains) := removeWaiter s wid now in (s, deadline, TurnErr ErrQueueDrained drains)
  else
  match sched_matchingHold s now w with
  | Some h =>
      let s := if negb (IsZero deadline) && IsZero (w_pausedAt w)
               then set_sd_waiters (alter (set_w_pausedAt now) wid (sd_waiters s)) s else s in
      let s := set_sd_holds (adoptHold (sd_holds s) wid (Some h)) s in
      if IsZero (hs_until h) then (s, deadline, TurnPark true None false)
      else if Sub (hs_until h) now <=? 0 then (s, deadline, TurnAgain true)
      else (s, deadline, TurnPark true (Some (hs_until h)) false)
  | None =>
      let '(holds, held) := syncUnhold (sd_holds s) now wid in
      let s := set_sd_holds holds s in
      if held : bool then (s, deadline, TurnAgain false) else
      let '(s, deadline) :=
        if IsZero (w_pausedAt w) then (s, deadline)
        else (set_sd_waiters (alter (set_w_pausedAt zeroTime) wid (sd_waiters s)) s,
              Add deadline (Sub now (w_pausedAt w))) in
      (s, deadline, TurnPark false (if IsZero deadline then None else Some deadline) true)
  end.

(** ** Release *)

Definition settle_slot (s : sched) (sid : nat) (actual : Z) (now : Time) : sched :=
  match sd_slots s !! sid with
  | None => s
  | Some sl =>
      if sl_settled sl then s else
      set_sd_slots (<[sid := {| sl_group := sl_group sl; sl_lease := sl_lease sl; sl_settled := true |}]>
                      (sd_slots s))
        (set_sd_gates (settle_lease (sd_gates s) (sl_lease sl) actual now) s)
  end.

Definition group_release (s : sched) (gid : nat) (now : Time) : sched :=
  let s := upd_group gid (fun g => if 0 <? g_inFlight g then set_g_inFlight (g_inFlight g - 1) g else g) s in
  markGroupIdleLocked gid now s.

(** The second half of the closure, up to its drain. *)
Definition release_slot (s : sched) (sid : nat) (now : Time) : sched :=
  match sd_slots s !! sid with
  | Some sl =>
      if sl_settled sl then
        group_release (set_sd_slots (delete sid (sd_slots s)) s) (sl_group sl) now
      else s
  | None => s
  end.

(** ** The policy edges *)

Definition kick_holds (s : sched) : sched := set_sd_holds (kickPolicyLocked (sd_holds s)) s.
Definition kickThrottles (s : sched) (cancelled : nat -> bool) (now : Time) : option sched :=
  drainAll (kick_holds s) cancelled now.

Definition sched_UpdateThrottle (s : sched) (provider : string) (update : Throttle -> Throttle)
    (now : Time) : sched * bool :=
  let '(gates, changed, rampChanged) := UpdateThrottle (sd_gates s) provider update now in
  let s := set_sd_gates gates s in
  (if rampChanged then resetProviderRamps provider s else s, changed).

Definition sched_RestoreThrottles (s : sched) (ts : list Throttle) (now : Time) : sched :=
  resetAllRamps (set_sd_gates (RestoreThrottles (sd_gates s) ts now) s).

Definition DrainQueue (s : sched) (scope : DrainScope) : sched * Z :=
  let '(d, seq) := publishDrain (sd_drain s) scope in
  (kick_holds (set_sd_drain d s), seq).

Definition throttleQueued (s : sched) : gmap string Z :=
  map_fold (fun _ gid out =>
    let g := group_of s gid in
    let out := fold_left (fun out wid =>
      let p := w_provider (waiter_of s wid) in
      if bool_decide (p = "") then out else <[p := default 0 (out !! p) + 1]> out) (g_queue g) out in
    if bool_decide (g_provider g = "") then out
    else <[g_provider g := default 0 (out !! (g_provider g)) + g_sendWaiters g]> out)
    ∅ (sd_groups s).
