(* ===== verification/Send.v ===== *)
(** internal/scheduler/scheduler_send.go and BackoffFor: the send gate of a
    group - pacing window, trip, the retry token - and its transitions. *)

From S2P Require Import Prelude GoTime GoFloat WakeTimer Pacing Drain Hold HoldQueue Gate Sched Admission.

(** Closing the kick and replacing it; [g_sendKick] counts the channels made. *)
Definition kickSendLocked (g : group) : group := set_g_sendKick (S (g_sendKick g)) g.
Definition kickSend (gid : nat) (s : sched) : sched := upd_group gid kickSendLocked s.

Definition armPacingLaterLocked (gid : nat) (d : Duration) (now : Time) (s : sched) : sched :=
  if 0 <? d then
    let until := Add now d in
    if After until (g_nextAllowedAt (group_of s gid)) then
      clearGateWaitingLocked gid
        (upd_group gid (fun g => set_g_pacer (arm (g_pacer g) until false) (set_g_nextAllowedAt until g)) s)
    else s
  else s.

Definition extendWindow (s : sched) (key : string) (d : Duration) (claim : bool) (now : Time)
    : sched * bool :=
  let '(s, gid) := groupForLocked s key 0 false now in
  let s := armPacingLaterLocked gid d now s in
  let s := if (0 <? d) || claim then upd_group gid (fun g => kickSendLocked (set_g_tripped true g)) s
           else s in
  if claim && negb (g_probing (group_of s gid))
  then (upd_group gid (set_g_probing true) s, true)
  else (s, false).

Definition Trip (s : sched) (key : string) (d : Duration) (now : Time) : sched * bool :=
  extendWindow s key d true now.

(** BackoffFor, FailSend and EndSend look the group up under the scheduler's lock
    and act on it under its own: two sections, between which the group may be
    evicted. *)

(** The adaptive delay; [r] is the random draw. *)
Definition BackoffFor_apply (opts : Options) (gid : nat) (retryAfter : Duration) (r : float64)
    (s : sched) : sched * Duration :=
  let '(backoff, d) := backoff_step (g_backoff (group_of s gid)) (op_BaseBackoff opts)
                         (op_MaxBackoff opts) retryAfter r in
  (upd_group gid (set_g_backoff backoff) s, d).
Definition BackoffFor (s : sched) (key : string) (retryAfter : Duration) (r : float64) (now : Time)
    : sched * Duration :=
  let '(s, gid) := groupForLocked s key 0 false now in
  BackoffFor_apply (sd_opts s) gid retryAfter r s.

(** Up to the drain. *)
Definition EndSend_apply (gid : nat) (keepSerial : bool) (s : sched) : sched :=
  upd_group gid (fun g =>
    kickSendLocked (set_g_tripped keepSerial (set_g_pacer (stop (g_pacer g))
      (set_g_nextAllowedAt zeroTime (set_g_requestBackoff 0 (set_g_backoff 0
        (set_g_probing false g))))))) s.
(** [None]: the group is unknown. *)
Definition EndSend (s : sched) (key : string) (keepSerial : bool) : sched * option nat :=
  match sd_groups s !! key with
  | None => (s, None)
  | Some gid => (EndSend_apply gid keepSerial s, Some gid)
  end.

Definition FailSend_apply (opts : Options) (gid : nat) (own : bool) (r : float64) (now : Time)
    (s : sched) : sched :=
  let s := if own then upd_group gid (fun g => set_g_backoff 0 (set_g_probing false g)) s else s in
  let backoff := growBackoff (g_requestBackoff (group_of s gid)) (op_BaseBackoff opts)
                   (op_MaxBackoff opts) in
  let s := upd_group gid (set_g_requestBackoff backoff) s in
  let s := armPacingLaterLocked gid (jitterBackoff backoff r) now s in
  upd_group gid (fun g => kickSendLocked (set_g_tripped true g)) s.
Definition FailSend (s : sched) (key : string) (own : bool) (r : float64) (now : Time)
    : sched * nat :=
  let '(s, gid) := groupForLocked s key 0 false now in
  (FailSend_apply (sd_opts s) gid own r now s, gid).

(** ** WaitSend *)

(** The caller's locals: its group, its drain generation, and what it has
    announced so far. *)
Record sendCaller := {
  sc_group : nat;
  sc_drainFrom : Z;
  sc_hold : bool;
  sc_parked : bool;
}.

Definition WaitSend_begin (s : sched) (key : string) (now : Time) : sched * sendCaller :=
  let '(s, gid) := groupForLocked s key 0 false now in
  (s, {| sc_group := gid; sc_drainFrom := dr_seq (sd_drain s); sc_hold := false; sc_parked := false |}).

Inductive sendOutcome :=
  | SendErr (own : bool) (e : errorString)
  | SendHeld (timer : option Time)
  | SendPark
  | SendAgain
  | SendOpen (own : bool).

Definition parkSendLocked (parked : bool) (g : group) : group :=
  if parked then g else set_g_sendWaiters (g_sendWaiters g + 1) g.

(** One turn of the loop up to its select. *)
Definition WaitSend_turn (s : sched) (c : sendCaller) (hooks : WaiterHooks) (honorHold own : bool)
    (now : Time) : sched * sendCaller * sendOutcome :=
  if queueDrained (sd_drain s) (sc_drainFrom c) (wh_Provider hooks) (wh_Model hooks) (wh_Client hooks)
  then (s, c, SendErr own ErrQueueDrained) else
  match (if honorHold then matchingHold (sd_holds s) now (wh_Client hooks) (wh_Provider hooks) else None) with
  | Some h =>
      let c := {| sc_group := sc_group c; sc_drainFrom := sc_drainFrom c; sc_hold := true;
                  sc_parked := sc_parked c |} in
      if IsZero (hs_until h) then (s, c, SendHeld None)
      else if Sub (hs_until h) now <=? 0 then (s, c, SendAgain)
      else (s, c, SendHeld (Some (hs_until h)))
  | None =>
      let c := {| sc_group := sc_group c; sc_drainFrom := sc_drainFrom c; sc_hold := false;
                  sc_parked := sc_parked c |} in
      let gid := sc_group c in
      let g := group_of s gid in
      if Before now (g_nextAllowedAt g) || (negb own && g_tripped g && g_probing g) then
        (upd_group gid (parkSendLocked (sc_parked c)) s,
         {| sc_group := gid; sc_drainFrom := sc_drainFrom c; sc_hold := false; sc_parked := true |},
         SendPark)
      else if own || negb (g_tripped g) then (s, c, SendOpen own)
      else (upd_group gid (set_g_probing true) s, c, SendOpen true)
  end.

(** The deferred exit. *)
Definition WaitSend_end (s : sched) (c : sendCaller) : sched :=
  if sc_parked c then
    upd_group (sc_group c) (fun g => if 0 <? g_sendWaiters g
                                     then set_g_sendWaiters (g_sendWaiters g - 1) g else g) s
  else s.

(** The pacer's callback up to its drain. *)
Definition pacer_fire (gid : nat) (now : Time) (s : sched) : sched :=
  drainAdmission_mark gid now (kickSend gid s).
