(* ===== verification/Drains.v ===== *)
(** The drain of one group is a fair FIFO: what it grants, in which order, and
    why it stops; and the fair snapshot's rotation. *)

From S2P Require Import Prelude GoTime WakeTimer LinkedList Ramp Pacing Drain Hold HoldQueue Gate Sched Admission.

(** ** What an admission attempt leaves alone *)

(** A group but for its ramp epoch, its fair mark and its queue witness; an
    index but for its fair set and its counters. *)
Definition gcore (g : group) : group :=
  set_g_hasQueued false (set_g_ramp resetRamp (set_g_gateWaiting false g)).
Definition icore (i : providerIndex) : providerIndex :=
  set_pi_queued 0 (set_pi_fairCount 0 (set_pi_fair [] i)).

(** [s'] differs from [s] at most there and in the gates. *)
Record frame (s s' : sched) : Prop := {
  fr_heap : gcore <$> sd_heap s' = gcore <$> sd_heap s;
  fr_indexes : icore <$> sd_indexes s' = icore <$> sd_indexes s;
  fr_opts : sd_opts s' = sd_opts s;
  fr_groups : sd_groups s' = sd_groups s;
  fr_cap : sd_groupCap s' = sd_groupCap s;
  fr_providers : sd_providerGroups s' = sd_providerGroups s;
  fr_idle : sd_idle s' = sd_idle s;
  fr_pacing : sd_pacing s' = sd_pacing s;
  fr_waiters : sd_waiters s' = sd_waiters s;
  fr_holds : sd_holds s' = sd_holds s;
  fr_drain : sd_drain s' = sd_drain s;
  fr_slots : sd_slots s' = sd_slots s;
}.

#[export] Instance frame_refl : Reflexive frame.
Proof. by intros s. Qed.
#[export] Instance frame_trans : Transitive frame.
Proof. intros s1 s2 s3 [] []. split; etransitivity; eassumption. Qed.

Lemma alter_core {A} (core : A -> A) (f : A -> A) (m : gmap nat A) i :
  (forall x, core (f x) = core x) -> core <$> alter f i m = core <$> m.
Proof.
  intros Hf. apply map_eq. intros j. rewrite !lookup_fmap.
  destruct (decide (i = j)) as [<-|Hne].
  - rewrite lookup_alter_eq. destruct (m !! i) as [x|]; cbn; [by rewrite Hf|done].
  - by rewrite lookup_alter_ne.
Qed.

Lemma upd_group_frame gid f s : (forall g, gcore (f g) = gcore g) -> frame s (upd_group gid f s).
Proof. intros Hf. split; try done. by apply alter_core. Qed.
Lemma upd_index_frame iid f s : (forall i, icore (f i) = icore i) -> frame s (upd_index iid f s).
Proof. intros Hf. split; try done. by apply alter_core. Qed.
Lemma set_gates_frame v s : frame s (set_sd_gates v s).
Proof. by split. Qed.

Lemma markFair_frame iid gid s : frame s (markFairLocked iid gid s).
Proof.
  unfold markFairLocked. etransitivity; [by apply (upd_group_frame gid (set_g_gateWaiting true))|].
  by apply upd_index_frame.
Qed.

Lemma clearFair_frame iid gid s : frame s (clearFairLocked iid gid s).
Proof.
  unfold clearFairLocked. case_match; [done|].
  etransitivity; [by apply (upd_group_frame gid (set_g_gateWaiting false))|].
  by apply upd_index_frame.
Qed.

Lemma markGateWaiting_frame gid now s : frame s (markGateWaitingLocked gid now s).
Proof. unfold markGateWaitingLocked. repeat case_match; try done. apply markFair_frame. Qed.

Lemma clearGateWaiting_frame gid s : frame s (clearGateWaitingLocked gid s).
Proof. unfold clearGateWaitingLocked. repeat case_match; try done. apply clearFair_frame. Qed.

Lemma syncQueue_frame gid s : frame s (syncQueueLocked gid s).
Proof.
  unfold syncQueueLocked. set (s1 := if _ : bool then clearGateWaitingLocked gid s else s).
  assert (frame s s1) as H1 by (unfold s1; case_match; [apply clearGateWaiting_frame|done]).
  destruct (Bool.eqb _ _); [done|]. transitivity s1; [done|].
  set (s2 := upd_group gid _ s1). assert (frame s1 s2) as H2 by (by apply upd_group_frame).
  destruct (g_providerQueued _); [|done]. transitivity s2; [done|]. by apply upd_index_frame.
Qed.

Lemma armRampStep_frame gid now s : frame s (armRampStepLocked gid now s).
Proof. unfold armRampStepLocked. repeat case_match; first [done | apply set_gates_frame]. Qed.

Lemma admitLocked_frame s gid now provider est :
  frame s (admitLocked s gid now provider est).1.1.1.1.
Proof.
  unfold admitLocked. destruct (rampPolicy s (group_of s gid)) as [p|].
  - set (s1 := upd_group gid _ s).
    assert (frame s s1) as H1 by (by apply upd_group_frame).
    destruct (ramp_allowance _ _ _ <=? _).
    + destruct (IsZero _); cbn [fst]; [done|]. transitivity s1; [done|apply set_gates_frame].
    + destruct (tryAdmit _ _ _ _) as [[[gates ok] lease] wait]. destruct ok; cbn [fst].
      * transitivity s1; [done|]. etransitivity; [apply (set_gates_frame gates)|].
        by apply upd_group_frame.
      * destruct (0 <? _); cbn [fst]; (transitivity s1; [done|]).
        -- etransitivity; [apply (set_gates_frame gates)|apply markGateWaiting_frame].
        -- apply set_gates_frame.
  - set (s1 := if _ || _ then upd_group gid _ s else s).
    assert (frame s s1) as H1 by (unfold s1; case_match; [by apply upd_group_frame|done]).
    destruct (tryAdmit _ _ _ _) as [[[gates ok] lease] wait]. destruct ok; cbn [fst].
    + transitivity s1; [done|apply set_gates_frame].
    + destruct (0 <? _); cbn [fst]; (transitivity s1; [done|]).
      * etransitivity; [apply (set_gates_frame gates)|apply markGateWaiting_frame].
      * apply set_gates_frame.
Qed.

#[export] Hint Resolve syncQueue_frame markFair_frame clearFair_frame markGateWaiting_frame clearGateWaiting_frame
  armRampStep_frame admitLocked_frame set_gates_frame : mv.

Lemma frame_group s s' gid : frame s s' -> gcore (group_of s' gid) = gcore (group_of s gid).
Proof.
  intros Hf. pose proof (fr_heap _ _ Hf) as Hh.
  apply (f_equal (fun m => m !! gid)) in Hh. rewrite !lookup_fmap in Hh. unfold group_of.
  destruct (sd_heap s' !! gid), (sd_heap s !! gid); try discriminate Hh; [|done].
  exact (inj Some _ _ Hh).
Qed.

Lemma frame_index s s' iid : frame s s' -> icore (index_of s' iid) = icore (index_of s iid).
Proof.
  intros Hf. pose proof (fr_indexes _ _ Hf) as Hh.
  apply (f_equal (fun m => m !! iid)) in Hh. rewrite !lookup_fmap in Hh. unfold index_of.
  destruct (sd_indexes s' !! iid), (sd_indexes s !! iid); try discriminate Hh; [|done].
  exact (inj Some _ _ Hh).
Qed.

(** Any field the core keeps. *)
Lemma core_field {A} (f : group -> A) s s' gid :
  (forall g, f (gcore g) = f g) -> frame s s' -> f (group_of s' gid) = f (group_of s gid).
Proof. intros Hf H. rewrite <- (Hf (group_of s' gid)), (frame_group _ _ _ H). apply Hf. Qed.

Lemma frame_lookup s s' gid g :
  frame s s' -> sd_heap s !! gid = Some g ->
  exists g', sd_heap s' !! gid = Some g' /\ gcore g' = gcore g.
Proof.
  intros Hf Hg. pose proof (fr_heap _ _ Hf) as Hh.
  apply (f_equal (fun m => m !! gid)) in Hh. rewrite !lookup_fmap, Hg in Hh.
  destruct (sd_heap s' !! gid) as [g'|] eqn:E; [|discriminate Hh].
  exists g'. split; [done|]. exact (inj Some _ _ Hh).
Qed.

(** ** Lists of distinct values *)

Lemma seq_remove_notin l x : x ∉ l -> seq_remove l x = l.
Proof.
  unfold seq_remove. induction l as [|y l IH]; intros Hx; [done|].
  apply not_elem_of_cons in Hx as [Hne Hx]. rewrite filter_cons, decide_True by done. by rewrite IH.
Qed.

Lemma elem_of_seq_remove l x y : y ∈ seq_remove l x <-> y ∈ l /\ y <> x.
Proof. unfold seq_remove. rewrite list_elem_of_filter. tauto. Qed.

Lemma NoDup_seq_remove l x : NoDup l -> NoDup (seq_remove l x).
Proof. apply NoDup_filter. Qed.

Lemma NoDup_seq_push l x : NoDup l -> x ∉ l -> NoDup (seq_push l x).
Proof.
  intros. apply NoDup_app. split_and!; [done| |apply NoDup_singleton].
  by intros y Hy ->%list_elem_of_singleton.
Qed.

Lemma length_seq_remove l x : NoDup l -> x ∈ l -> length l = S (length (seq_remove l x)).
Proof.
  unfold seq_remove. induction 1 as [|y l Hy Hl IH]; intros Hx; [by apply elem_of_nil in Hx|].
  rewrite filter_cons. apply elem_of_cons in Hx as [<-|Hx].
  - rewrite decide_False by tauto. cbn [length]. f_equal. symmetry. f_equal. by apply seq_remove_notin.
  - rewrite decide_True by (intros ->; done). cbn [length]. by rewrite <- IH.
Qed.

(** ** The grants of a pass *)

(** The group after granting [new], in that order. *)
Definition grant_group (new : list nat) (g : group) : group :=
  set_g_inFlight (g_inFlight g + Z.of_nat (length new))
    (set_g_queue (filter (fun wid => wid ∉ new) (g_queue g)) g).
Definition grant_waiter (lease : admission) (w : waiter) : waiter :=
  set_w_granted true (set_w_admission lease w).

Record grants (gid : nat) (new : list nat) (s s' : sched) : Prop := {
  gr_heap : gcore <$> sd_heap s' = gcore <$> alter (grant_group new) gid (sd_heap s);
  gr_indexes : icore <$> sd_indexes s' = icore <$> sd_indexes s;
  gr_granted : forall wid, wid ∈ new ->
    exists lease, sd_waiters s' !! wid = grant_waiter lease <$> sd_waiters s !! wid;
  gr_waiters : forall wid, wid ∉ new -> sd_waiters s' !! wid = sd_waiters s !! wid;
  gr_opts : sd_opts s' = sd_opts s;
  gr_groups : sd_groups s' = sd_groups s;
  gr_cap : sd_groupCap s' = sd_groupCap s;
  gr_providers : sd_providerGroups s' = sd_providerGroups s;
  gr_idle : sd_idle s' = sd_idle s;
  gr_pacing : sd_pacing s' = sd_pacing s;
  gr_holds : sd_holds s' = sd_holds s;
  gr_drain : sd_drain s' = sd_drain s;
  gr_slots : sd_slots s' = sd_slots s;
}.

Lemma grant_group_nil g : grant_group [] g = g.
Proof.
  unfold grant_group. rewrite filter_all; [destruct g; cbn; by rewrite Z.add_0_r|].
  apply Forall_forall. intros x _. by apply not_elem_of_nil.
Qed.

Lemma frame_grants gid s s' : frame s s' -> grants gid [] s s'.
Proof.
  intros []. split; try done.
  - rewrite fr_heap0. f_equal. symmetry. apply map_eq. intros j.
    destruct (decide (gid = j)) as [<-|?]; [|by rewrite lookup_alter_ne].
    rewrite lookup_alter_eq. destruct (sd_heap s !! gid) as [g|]; cbn; [by rewrite grant_group_nil|done].
  - by intros wid ?%elem_of_nil.
  - intros. by rewrite fr_waiters0.
Qed.

Lemma grant_group_app new1 new2 g :
  grant_group new2 (grant_group new1 g) = grant_group (new1 ++ new2) g.
Proof.
  unfold grant_group, set_g_inFlight, set_g_queue. cbn. f_equal; [rewrite length_app; lia|].
  rewrite list_filter_filter. apply list_filter_iff. intros wid. rewrite not_elem_of_app. tauto.
Qed.

Lemma gcore_grant_group new g : gcore (grant_group new g) = grant_group new (gcore g).
Proof. done. Qed.

Lemma core_alter_grant gid new (m m' : gmap nat group) :
  gcore <$> m' = gcore <$> m ->
  gcore <$> alter (grant_group new) gid m' = gcore <$> alter (grant_group new) gid m.
Proof.
  intros Hm. apply map_eq. intros j. apply (f_equal (fun m => m !! j)) in Hm.
  rewrite !lookup_fmap in *. destruct (decide (gid = j)) as [<-|?].
  - rewrite !lookup_alter_eq. destruct (m !! gid), (m' !! gid); try discriminate Hm; [|done].
    cbn [fmap option_fmap option_map]. rewrite !gcore_grant_group. by rewrite (inj Some _ _ Hm).
  - by rewrite !lookup_alter_ne.
Qed.

Lemma grants_app gid new1 new2 s s1 s2 :
  grants gid new1 s s1 -> grants gid new2 s1 s2 -> (forall wid, wid ∈ new1 -> wid ∉ new2) ->
  grants gid (new1 ++ new2) s s2.
Proof.
  intros H1 H2 Hd. pose proof H1 as []. pose proof H2 as []. split; try (etransitivity; eassumption).
  - rewrite gr_heap1. rewrite (core_alter_grant gid new2 _ _ gr_heap0). f_equal.
    rewrite alter_alter, decide_True by done. apply alter_ext. intros g _. apply grant_group_app.
  - intros wid [Hw|Hw]%elem_of_app.
    + destruct (gr_granted0 wid Hw) as [lease Hl]. exists lease.
      rewrite gr_waiters1 by auto. done.
    + destruct (gr_granted1 wid Hw) as [lease Hl]. exists lease. rewrite Hl, gr_waiters0; [done|].
      intros Hw1. by eapply Hd.
  - intros wid [Hw1 Hw2]%not_elem_of_app. rewrite gr_waiters1, gr_waiters0 by done. done.
Qed.

Lemma grant_grants gid wid lease s : grants gid [wid] s (grant gid wid lease s).
Proof.
  split; try done.
  - f_equal. apply alter_ext. intros g _. unfold grant_group, seq_remove, set_g_inFlight, set_g_queue.
    cbn. f_equal. apply list_filter_iff. intros x. by rewrite list_elem_of_singleton.
  - intros w ->%list_elem_of_singleton. exists lease. cbn. rewrite lookup_alter_eq. done.
  - intros w Hw. cbn. apply lookup_alter_ne. intros ->. apply Hw. by left.
Qed.

Section drain.
Context (gid : nat) (budget : Z) (cancelled : nat -> bool) (now : Time).

(** A waiter a pass may grant: its context is live and no hold parks it. *)
Definition eligible (s : sched) (wid : nat) : Prop :=
  cancelled wid = false /\ sched_matchingHold s now (waiter_of s wid) = None.

#[export] Instance eligible_dec s wid : Decision (eligible s wid).
Proof. unfold eligible. apply _. Defined.

Lemma eligible_grants new s s' wid : grants gid new s s' -> eligible s' wid <-> eligible s wid.
Proof.
  intros []. unfold eligible, sched_matchingHold, waiter_of. rewrite gr_holds0.
  destruct (decide (wid ∈ new)) as [Hin|Hn].
  - destruct (gr_granted0 wid Hin) as [lease ->]. by destruct (sd_waiters s !! wid).
  - by rewrite gr_waiters0.
Qed.

(** Why a pass stopped before [rest]. *)
Definition stopped (s : sched) (granted : nat) (rest : list nat) : Prop :=
  rest = [] \/ (0 < budget /\ budget <= Z.of_nat granted) \/
  (g_maxConcurrent (group_of s gid) <> 0 /\
     g_maxConcurrent (group_of s gid) <= g_inFlight (group_of s gid)) \/
  now < g_nextAllowedAt (group_of s gid) \/
  exists wid s1, head rest = Some wid /\ frame s1 s /\
    (admitLocked s1 gid now (w_provider (waiter_of s1 wid)) (w_estTokens (waiter_of s1 wid))).1.1.1.2
      = false.

Lemma grants_group_of new s s' :
  is_Some (sd_heap s !! gid) -> grants gid new s s' ->
  gcore (group_of s' gid) = grant_group new (gcore (group_of s gid)).
Proof.
  intros [g Hg] []. apply (f_equal (fun m => m !! gid)) in gr_heap0.
  rewrite !lookup_fmap, lookup_alter_eq, Hg in gr_heap0. unfold group_of. rewrite Hg.
  destruct (sd_heap s' !! gid); [|discriminate gr_heap0].
  exact (inj Some _ _ gr_heap0).
Qed.

Lemma grants_field {A} (f : group -> A) new s s' :
  is_Some (sd_heap s !! gid) -> grants gid new s s' -> (forall g, f (gcore g) = f g) ->
  f (group_of s' gid) = f (grant_group new (group_of s gid)).
Proof.
  intros Hg Hgr Hf. rewrite <- (Hf (group_of s' gid)), (grants_group_of new s s' Hg Hgr).
  rewrite <- gcore_grant_group. apply Hf.
Qed.

Lemma grants_heap_some new s s' : grants gid new s s' -> is_Some (sd_heap s !! gid) ->
  is_Some (sd_heap s' !! gid).
Proof.
  intros [] [g Hg]. apply (f_equal (fun m => m !! gid)) in gr_heap0.
  rewrite !lookup_fmap, lookup_alter_eq, Hg in gr_heap0.
  destruct (sd_heap s' !! gid); [done|discriminate gr_heap0].
Qed.

Lemma drain_loop_spec nodes : forall s granted,
  is_Some (sd_heap s !! gid) -> NoDup nodes ->
  let '(s', granted', refused, budgetStop) := drain_loop s gid budget cancelled now nodes granted in
  exists new rest,
    granted' = rev new ++ granted /\
    filter (eligible s) nodes = new ++ rest /\
    grants gid new s s' /\
    (0 < budget -> Z.of_nat (length granted) <= budget -> Z.of_nat (length granted') <= budget) /\
    (g_maxConcurrent (group_of s gid) <> 0 -> new <> [] ->
       g_inFlight (group_of s' gid) <= g_maxConcurrent (group_of s gid)) /\
    (now < g_nextAllowedAt (group_of s gid) -> new = []) /\
    stopped s' (length granted') rest.
Proof.
  induction nodes as [|wid nodes IH]; intros s granted Hs Hnd; cbn [drain_loop].
  { exists [], []. split_and!; try done. by apply frame_grants. by left. }
  apply NoDup_cons in Hnd as [Hwid Hnd].
  assert (Hstop : stopped s (length granted) (filter (eligible s) (wid :: nodes)) ->
    exists new rest, granted = rev new ++ granted /\ filter (eligible s) (wid :: nodes) = new ++ rest /\
      grants gid new s s /\
      (0 < budget -> Z.of_nat (length granted) <= budget -> Z.of_nat (length granted) <= budget) /\
      (g_maxConcurrent (group_of s gid) <> 0 -> new <> [] ->
         g_inFlight (group_of s gid) <= g_maxConcurrent (group_of s gid)) /\
      (now < g_nextAllowedAt (group_of s gid) -> new = []) /\
      stopped s (length granted) rest).
  { intros Hst. exists [], (filter (eligible s) (wid :: nodes)).
    split_and!; try done. by apply frame_grants. }
  destruct ((0 <? budget) && (budget <=? Z.of_nat (length granted))) eqn:Eb.
  { apply andb_true_iff in Eb as [Eb1%Z.ltb_lt Eb2%Z.leb_le].
    apply Hstop. right. left. lia. }
  destruct (_ || Before now _) eqn:Ec.
  { apply Hstop. right. right. unfold Before in Ec. apply orb_true_iff in Ec as [Ec|Ec%Z.ltb_lt]; [left|by right; left].
    apply andb_true_iff in Ec as [Ec1%negb_true_iff%Z.eqb_neq Ec2%Z.leb_le]. done. }
  apply orb_false_iff in Ec as [Ec1 Ec2]. unfold Before in Ec2. apply Z.ltb_ge in Ec2.
  assert (Hskip : ~ eligible s wid ->
    filter (eligible s) (wid :: nodes) = filter (eligible s) nodes) by (intros; by rewrite filter_cons_False).
  destruct (cancelled wid) eqn:Ecan.
  { rewrite Hskip by (intros [? _]; congruence). by apply IH. }
  destruct (sched_matchingHold s now (waiter_of s wid)) eqn:Eh.
  { rewrite Hskip by (intros [_ ?]; congruence). by apply IH. }
  assert (Hel : eligible s wid) by done.
  rewrite filter_cons_True by done.
  pose proof (admitLocked_frame s gid now (w_provider (waiter_of s wid)) (w_estTokens (waiter_of s wid))) as Hfr.
  destruct (admitLocked s gid now (w_provider (waiter_of s wid)) (w_estTokens (waiter_of s wid)))
    as [[[[s1 ok] lease] wait] gateBlocked] eqn:Ea. cbn [fst] in Hfr.
  destruct ok; cbn [negb].
  - assert (Hg1 : grants gid [wid] s (grant gid wid lease s1)).
    { change [wid] with ([] ++ [wid]).
      eapply grants_app; [by apply frame_grants|apply grant_grants|by intros ? ?%elem_of_nil]. }
    pose proof (IH (grant gid wid lease s1) (wid :: granted) (grants_heap_some _ _ _ Hg1 Hs) Hnd) as HI.
    destruct (drain_loop (grant gid wid lease s1) gid budget cancelled now nodes (wid :: granted))
      as [[[s' granted'] refused] budgetStop].
    destruct HI as (new & rest & -> & Hf & Hgr & Hbud & Hcap & Hpace & Hst).
    assert (Hfil : filter (eligible (grant gid wid lease s1)) nodes = filter (eligible s) nodes).
    { apply list_filter_iff. intros x. by apply (eligible_grants [wid]). }
    rewrite Hfil in Hf.
    assert (HF : forall A (f : group -> A), (forall g, f (gcore g) = f g) ->
      f (group_of (grant gid wid lease s1) gid) = f (grant_group [wid] (group_of s gid))).
    { intros A f Hc. by apply grants_field. }
    rewrite (HF _ g_maxConcurrent), (HF _ g_nextAllowedAt) in * by done. cbn [grant_group] in *.
    exists (wid :: new), rest. split_and!.
    + cbn [rev]. by rewrite <- app_assoc.
    + cbn [app]. by rewrite Hf.
    + change (wid :: new) with ([wid] ++ new). eapply grants_app; [done|done|].
      intros x ->%list_elem_of_singleton Hx. apply Hwid.
      assert (wid ∈ filter (eligible s) nodes) as Hw by (rewrite Hf; apply elem_of_app; by left).
      by apply list_elem_of_filter in Hw as [_ ?].
    + intros Hb Hle. apply Hbud; [done|]. apply andb_false_iff in Eb. cbn [length].
      destruct Eb as [Eb%Z.ltb_ge|Eb%Z.leb_gt]; lia.
    + intros Hmax _. destruct new as [|w0 new].
      * rewrite app_nil_l in *.
        rewrite (grants_field g_inFlight [] _ _ (grants_heap_some _ _ _ Hg1 Hs) Hgr) by done.
        rewrite grant_group_nil, (HF _ g_inFlight) by done. cbn [grant_group g_inFlight set_g_inFlight length].
        apply andb_false_iff in Ec1. destruct Ec1 as [Ec1%negb_false_iff%Z.eqb_eq|Ec1%Z.leb_gt]; [done|].
        cbn. lia.
      * by apply Hcap.
    + lia.
    + done.
  - set (s2 := if 0 <? wait then sched_armThrottleDrain _ _ _ s1 else s1).
    assert (frame s s2) as Hf2.
    { unfold s2. destruct (0 <? wait); [|done]. transitivity s1; [done|apply set_gates_frame]. }
    exists [], (wid :: filter (eligible s) nodes). split_and!; try done; [by apply frame_grants|].
    right. right. right. right. exists wid, s. split_and!; [done|done|]. by rewrite Ea.
Qed.
End drain.

Lemma frame_stopped gid budget now s s' n rest :
  frame s s' -> stopped gid budget now s n rest -> stopped gid budget now s' n rest.
Proof.
  intros Hf. unfold stopped.
  rewrite (core_field g_maxConcurrent s s'), (core_field g_inFlight s s'),
    (core_field g_nextAllowedAt s s') by done.
  intros [?|[?|[?|[?|(wid & s1 & ? & ? & ?)]]]]; [tauto..|].
  right. right. right. right. exists wid, s1. split_and!; [done| |done]. by transitivity s.
Qed.

Lemma grants_frame_r gid new s s1 s2 : grants gid new s s1 -> frame s1 s2 -> grants gid new s s2.
Proof.
  intros H1 H2. rewrite <- (app_nil_r new). eapply grants_app; [done|by apply frame_grants|].
  by intros ? _ ?%elem_of_nil.
Qed.

Lemma drainLimited_spec s gid budget cancelled now :
  is_Some (sd_heap s !! gid) -> NoDup (g_queue (group_of s gid)) ->
  let '(s', new) := drainLimited s gid budget cancelled now in
  exists rest,
    filter (eligible cancelled now s) (g_queue (group_of s gid)) = new ++ rest /\
    grants gid new s s' /\
    (0 < budget -> Z.of_nat (length new) <= budget) /\
    (g_maxConcurrent (group_of s gid) <> 0 -> new <> [] ->
       g_inFlight (group_of s' gid) <= g_maxConcurrent (group_of s gid)) /\
    (now < g_nextAllowedAt (group_of s gid) -> new = []) /\
    stopped gid budget now s' (length new) rest.
Proof.
  intros Hs Hnd. unfold drainLimited.
  pose proof (drain_loop_spec gid budget cancelled now (g_queue (group_of s gid)) s [] Hs Hnd) as HD.
  destruct (drain_loop s gid budget cancelled now _ []) as [[[s1 granted] refused] bstop].
  destruct HD as (new & rest & -> & Hf & Hgr & Hb & Hc & Hp & Hst).
  rewrite app_nil_r in *. rewrite rev_involutive. rewrite length_rev in *.
  set (s2 := match rev new with [] => s1 | _ => _ end).
  assert (frame s1 s2) as H2.
  { unfold s2. destruct (rev new); [done|].
    etransitivity; [apply syncQueue_frame|apply armRampStep_frame]. }
  set (s3 := if _ && _ then clearGateWaitingLocked gid s2 else s2).
  assert (frame s1 s3) as H3.
  { transitivity s2; [done|]. unfold s3. case_match; [apply clearGateWaiting_frame|done]. }
  exists rest. split_and!; try done.
  - by eapply grants_frame_r.
  - intros Hpos. apply Hb; [done|]. cbn. lia.
  - rewrite (core_field g_inFlight s1 s3) by done. done.
  - by eapply frame_stopped.
Qed.


(** ** The fair drain ends *)

Definition queues_distinct (s : sched) : Prop := forall gid, NoDup (g_queue (group_of s gid)).

Lemma grants_queue gid new s s' other :
  grants gid new s s' ->
  g_queue (group_of s' other) =
    if decide (other = gid) then filter (fun wid => wid ∉ new) (g_queue (group_of s other))
    else g_queue (group_of s other).
Proof.
  intros []. apply (f_equal (fun m => m !! other)) in gr_heap0. rewrite !lookup_fmap in gr_heap0.
  unfold group_of. destruct (decide (other = gid)) as [->|Hne].
  - rewrite lookup_alter_eq in gr_heap0.
    destruct (sd_heap s' !! gid) as [g'|], (sd_heap s !! gid) as [g|]; try discriminate gr_heap0; [|done].
    exact (f_equal g_queue (Some_inj (gcore g') (gcore (grant_group new g)) gr_heap0)).
  - rewrite lookup_alter_ne in gr_heap0 by done.
    destruct (sd_heap s' !! other) as [g'|], (sd_heap s !! other) as [g|]; try discriminate gr_heap0; [|done].
    exact (f_equal g_queue (Some_inj (gcore g') (gcore g) gr_heap0)).
Qed.

Lemma grants_distinct gid new s s' : grants gid new s s' -> queues_distinct s -> queues_distinct s'.
Proof.
  intros Hg Hq other. rewrite (grants_queue _ _ _ _ other Hg). case_decide; [|apply Hq].
  apply NoDup_filter, Hq.
Qed.

Lemma filter_shrinks (l new : list nat) x :
  x ∈ l -> x ∈ new -> (length (filter (fun y => y ∉ new) l) < length l)%nat.
Proof.
  intros Hl Hn. induction l as [|y l IH]; [by apply elem_of_nil in Hl|].
  rewrite filter_cons. apply elem_of_cons in Hl as [<-|Hl].
  - rewrite decide_False by auto. pose proof (length_filter (fun y => y ∉ new) l). cbn [length]. lia.
  - specialize (IH Hl). case_decide; cbn [length]; lia.
Qed.

Lemma backlog_cons s gid groups :
  backlog s (gid :: groups) = (length (g_queue (group_of s gid)) + backlog s groups)%nat.
Proof. done. Qed.

Lemma backlog_mono s s' groups :
  (forall gid, (length (g_queue (group_of s' gid)) <= length (g_queue (group_of s gid)))%nat) ->
  (backlog s' groups <= backlog s groups)%nat.
Proof.
  intros H. induction groups as [|gid groups IH]; [done|]. rewrite !backlog_cons.
  specialize (H gid). lia.
Qed.

Lemma backlog_less s s' groups gid :
  (forall gid, (length (g_queue (group_of s' gid)) <= length (g_queue (group_of s gid)))%nat) ->
  gid ∈ groups -> (length (g_queue (group_of s' gid)) < length (g_queue (group_of s gid)))%nat ->
  (backlog s' groups < backlog s groups)%nat.
Proof.
  intros H Hin Hlt. induction groups as [|g groups IH]; [by apply elem_of_nil in Hin|].
  rewrite !backlog_cons. apply elem_of_cons in Hin as [<-|Hin].
  - pose proof (backlog_mono s s' groups H). lia.
  - specialize (IH Hin). pose proof (H g). lia.
Qed.

Lemma drainLimited_grants s gid budget cancelled now :
  queues_distinct s ->
  let '(s', new) := drainLimited s gid budget cancelled now in
  grants gid new s s' /\ Forall (fun wid => wid ∈ g_queue (group_of s gid)) new.
Proof.
  intros Hq. destruct (sd_heap s !! gid) as [g|] eqn:Eg.
  - pose proof (drainLimited_spec s gid budget cancelled now ltac:(by rewrite Eg) (Hq gid)) as H.
    destruct (drainLimited s gid budget cancelled now) as [s' new].
    destruct H as (rest & Hf & Hgr & _). split; [done|]. apply Forall_forall. intros wid Hw.
    assert (wid ∈ filter (eligible cancelled now s) (g_queue (group_of s gid))) as Hw2
      by (rewrite Hf; apply elem_of_app; by left).
    by apply list_elem_of_filter in Hw2 as [_ ?].
  - unfold drainLimited. assert (g_queue (group_of s gid) = []) as ->.
    { unfold group_of. by rewrite Eg. }
    cbn [drain_loop negb andb rev]. split; [|done].
    apply frame_grants. apply clearGateWaiting_frame.
Qed.

Lemma fair_pass_backlog provider cancelled now all groups : forall s i last granted,
  queues_distinct s -> (forall gid, gid ∈ groups -> gid ∈ all) ->
  let '(s', _, granted', _) := fair_pass s provider cancelled now groups i last granted in
  queues_distinct s' /\ (granted <= granted')%nat /\
  (backlog s' all + granted' <= backlog s all + granted)%nat.
Proof.
  induction groups as [|gid groups IH]; intros s i last granted Hq Hin; cbn [fair_pass].
  { split_and!; [done|lia|lia]. }
  assert (forall g, g ∈ groups -> g ∈ all) as Hin' by (intros; apply Hin; by right).
  destruct (_ || _); [by apply IH|].
  pose proof (drainLimited_grants s gid 1 cancelled now Hq) as Hd.
  destruct (drainLimited s gid 1 cancelled now) as [s1 new]. destruct Hd as [Hg Hnew].
  pose proof (grants_distinct _ _ _ _ Hg Hq) as Hq1.
  assert (Hlen : forall g, (length (g_queue (group_of s1 g)) <= length (g_queue (group_of s g)))%nat).
  { intros g. rewrite (grants_queue _ _ _ _ g Hg). case_decide; [apply length_filter|done]. }
  destruct new as [|wid new].
  - pose proof (IH s1 (S i) last granted Hq1 Hin') as HI. destruct (fair_pass _ _ _ _ _ _ _ _) as [[[s2 l2] g2] f2].
    destruct HI as (? & ? & ?). pose proof (backlog_mono s s1 all Hlen). split_and!; [done|lia|lia].
  - apply Forall_cons in Hnew as [Hwid _].
    assert (backlog s1 all < backlog s all)%nat.
    { apply (backlog_less s s1 all gid); [done|apply Hin; by left|].
      rewrite (grants_queue _ _ _ _ gid Hg), decide_True by done.
      apply (filter_shrinks _ _ wid); [done|by left]. }
    destruct (sched_concurrencyFull s1 provider); [split_and!; [done|lia|lia]|].
    pose proof (IH s1 (S i) (Some i) (S granted) Hq1 Hin') as HI.
    destruct (fair_pass _ _ _ _ _ _ _ _) as [[[s2 l2] g2] f2].
    destruct HI as (? & ? & ?). split_and!; [done|lia|lia].
Qed.

Lemma fair_passes_total fuel : forall s provider cancelled now groups served,
  queues_distinct s -> (backlog s groups < fuel)%nat ->
  exists s' served', fair_passes fuel s provider cancelled now groups served = Some (s', served') /\
    queues_distinct s'.
Proof.
  induction fuel as [|fuel IH]; intros s provider cancelled now groups served Hq Hf; [lia|].
  cbn [fair_passes].
  pose proof (fair_pass_backlog provider cancelled now groups groups s 0 None 0 Hq ltac:(done)) as HP.
  destruct (fair_pass s provider cancelled now groups 0 None 0) as [[[s1 last] granted] full].
  destruct HP as (Hq1 & _ & Hb). destruct full; [by eexists _, _|].
  destruct (Nat.eqb_spec granted 0) as [->|Hne]; [by eexists _, _|]. apply IH; [done|lia].
Qed.

Lemma frame_distinct s s' : frame s s' -> queues_distinct s -> queues_distinct s'.
Proof. intros Hf Hq gid. by rewrite (core_field g_queue s s'). Qed.

Lemma drainProvider_named_total s provider cancelled now :
  queues_distinct s ->
  exists s', drainProvider_named s provider cancelled now = Some s' /\ queues_distinct s'.
Proof.
  intros Hq. unfold drainProvider_named.
  destruct (sd_providerGroups s !! provider) as [iid|]; [|by eexists].
  destruct (_ =? 0); [by eexists|]. destruct (sched_concurrencyFull _ _); [by eexists|].
  destruct (fairSnapshot (index_of s iid)) as [i groups]. destruct groups as [|gid groups]; [by eexists|].
  set (s1 := upd_index iid _ s). assert (queues_distinct s1) as Hq1 by done.
  destruct (fair_passes_total (S (backlog s1 (gid :: groups))) s1 provider cancelled now (gid :: groups) None
    Hq1 ltac:(lia)) as (s2 & served & -> & Hq2).
  destruct served as [n|]; [|by eexists]. destruct ((gid :: groups) !! n); by eexists.
Qed.

Lemma drainAll_total s cancelled now :
  queues_distinct s -> exists s', drainAll s cancelled now = Some s' /\ queues_distinct s'.
Proof.
  intros Hq. unfold drainAll, drainAll_mark.
  assert (HM : forall l s local (providers : gset string), queues_distinct s ->
    queues_distinct (fold_left (fun '(s, local, providers) (kv : string * nat) =>
      let g := group_of s kv.2 in
      let provider := g_provider g in
      let queued := 0 <? queue_live g in
      let s := if negb (bool_decide (provider = "")) && queued
               then markGateWaitingLocked kv.2 now s else s in
      if bool_decide (provider = "") then (s, local ++ [kv.2], providers)
      else (s, local, if queued then {[provider]} ∪ providers else providers)) l
      (s, local, providers)).1.1).
  { clear s Hq. induction l as [|kv l IH]; intros s local providers Hq; [done|]. cbn [fold_left].
    cbv zeta. set (s1 := if _ && _ then markGateWaitingLocked kv.2 now s else s).
    assert (queues_distinct s1).
    { unfold s1. case_match; [|done]. eapply frame_distinct; [apply markGateWaiting_frame|done]. }
    case_match; by apply IH. }
  specialize (HM (map_to_list (sd_groups s)) s [] ∅ Hq).
  destruct (fold_left _ _ (s, [], ∅)) as [[s1 local] providers]. cbn [fst] in HM.
  assert (HL : forall l s, queues_distinct s ->
    queues_distinct (fold_left (fun s gid => drain s gid cancelled now) l s)).
  { induction l as [|gid l IH]; intros s2 Hq2; [done|]. cbn [fold_left]. apply IH. unfold drain.
    pose proof (drainLimited_grants s2 gid 0 cancelled now Hq2) as Hd.
    destruct (drainLimited _ _ _ _ _). cbn [fst]. by eapply grants_distinct; [apply Hd|]. }
  specialize (HL local s1 HM). revert HL. generalize (fold_left (fun s gid => drain s gid cancelled now) local s1).
  induction (elements providers) as [|p ps IH]; intros s2 Hq2; [by eexists|]. cbn [fold_left].
  destruct (drainProvider_named_total s2 p cancelled now Hq2) as (s3 & -> & Hq3). by apply IH.
Qed.

Lemma drainProvider_ends s provider cancelled now :
  queues_distinct s ->
  exists s', drainProvider s provider cancelled now = Some s' /\ queues_distinct s'.
Proof.
  intros Hq. unfold drainProvider. case_bool_decide; [by apply drainAll_total|].
  by apply drainProvider_named_total.
Qed.

(** C37. The drains end: every pass of the fair walk that repeats has granted a
    waiter, so a provider's drain - and the drain of everything - always
    returns a state, whatever the gates, holds and contexts answer, and the
    queues keep distinct waiters. *)
Theorem drainProvider_total s provider cancelled now :
  queues_distinct s ->
  exists s', drainProvider s provider cancelled now = Some s' /\ queues_distinct s'.
Proof. apply drainProvider_ends. Qed.

(** ** The rotation of the fair set *)

Lemma from_value_split c a b : c ∉ a -> from_value c (a ++ c :: b) = c :: b.
Proof.
  induction a as [|x a IH]; intros Hc; cbn; [by rewrite bool_decide_eq_true_2|].
  apply not_elem_of_cons in Hc as [Hne Hc]. rewrite bool_decide_eq_false_2 by done. by apply IH.
Qed.
Lemma from_value_notin c l : c ∉ l -> from_value c l = [].
Proof.
  induction l as [|x l IH]; intros Hc; cbn; [done|].
  apply not_elem_of_cons in Hc as [Hne Hc]. rewrite bool_decide_eq_false_2 by done. by apply IH.
Qed.
Lemma upto_value_split c a b : c ∉ a -> upto_value c (a ++ c :: b) = a ++ [c].
Proof.
  induction a as [|x a IH]; intros Hc; cbn; [by rewrite bool_decide_eq_true_2|].
  apply not_elem_of_cons in Hc as [Hne Hc]. rewrite bool_decide_eq_false_2 by done. by rewrite IH.
Qed.

Lemma fairSnapshot_cursor i a c b :
  NoDup (pi_fair i) -> pi_fair i = a ++ c :: b -> pi_cursor i = Some c ->
  fairSnapshot i = (i, b ++ a ++ [c]).
Proof.
  intros Hnd Hf Hc. rewrite Hf in Hnd.
  apply NoDup_app in Hnd as (_ & Hd & _). assert (c ∉ a) as Hca by (intros Hin; eapply Hd; [done|by left]).
  unfold fairSnapshot. rewrite Hc. destruct (pi_fair i) as [|x l]; [by destruct a|].
  by rewrite Hf, from_value_split, upto_value_split.
Qed.

(** A drain that serves the first group of its snapshot. *)
Definition serve (i : providerIndex) : providerIndex * option nat :=
  let '(i, groups) := fairSnapshot i in
  match groups with
  | [] => (i, None)
  | gid :: _ => (set_pi_cursor (Some gid) i, Some gid)
  end.
Fixpoint serve_n (n : nat) (i : providerIndex) : list (option nat) :=
  match n with
  | O => []
  | S n => let '(i, gid) := serve i in gid :: serve_n n i
  end.

Lemma set_cursor_twice c d i : set_pi_cursor c (set_pi_cursor d i) = set_pi_cursor c i.
Proof. done. Qed.

Lemma serve_cursor i a c b :
  NoDup (pi_fair i) -> pi_fair i = a ++ c :: b -> pi_cursor i = Some c ->
  serve i = match b ++ a with
            | [] => (set_pi_cursor (Some c) i, Some c)
            | gid :: _ => (set_pi_cursor (Some gid) i, Some gid)
            end.
Proof.
  intros Hnd Hf Hc. unfold serve. rewrite (fairSnapshot_cursor i a c b) by done.
  rewrite app_assoc. by destruct (b ++ a).
Qed.

Lemma serve_n_forward b : forall n i a c b2,
  NoDup (pi_fair i) -> pi_fair i = a ++ c :: b ++ b2 -> pi_cursor i = Some c ->
  serve_n (length b + n) i = map Some b ++ serve_n n (set_pi_cursor (last (c :: b)) i).
Proof.
  induction b as [|x b IH]; intros n i a c b2 Hnd Hf Hc.
  { cbn. f_equal. destruct i; cbn in *. by subst. }
  cbn [length Nat.add serve_n]. rewrite (serve_cursor i a c ((x :: b) ++ b2)) by done. cbn [app map].
  f_equal. rewrite (IH n (set_pi_cursor (Some x) i) (a ++ [c]) x b2); [done|done| |done].
  cbn. by rewrite Hf, <- app_assoc.
Qed.

(** From a cursor that is absent or at the tail, a drain starts at the head. *)
Lemma serve_head i x rest :
  NoDup (pi_fair i) -> pi_fair i = x :: rest ->
  pi_cursor i = None \/ pi_cursor i = last (x :: rest) ->
  serve i = (set_pi_cursor (Some x) i, Some x).
Proof.
  intros Hnd Hf [Hc|Hc].
  - unfold serve, fairSnapshot. by rewrite Hf, Hc.
  - destruct (exists_last (l := x :: rest) ltac:(done)) as (l & z & Hl). rewrite Hl, last_snoc in Hc.
    rewrite (serve_cursor i l z []); [|done|by rewrite Hf|done].
    destruct l as [|y l]; cbn in Hl |- *; by simplify_eq.
Qed.

Lemma serve_n_prefix i x t b :
  NoDup (pi_fair i) -> pi_fair i = x :: t ++ b ->
  pi_cursor i = None \/ pi_cursor i = last (x :: t ++ b) ->
  serve_n (S (length t)) i = map Some (x :: t).
Proof.
  intros Hnd Hf Hc. cbn [serve_n]. rewrite (serve_head i x (t ++ b)) by done. cbn [map]. f_equal.
  pose proof (serve_n_forward t 0 (set_pi_cursor (Some x) i) [] x b Hnd Hf eq_refl) as Hs.
  rewrite Nat.add_0_r in Hs. rewrite Hs. cbn. by rewrite app_nil_r.
Qed.

(** C36. The fair drain is round robin: a snapshot is the fair set rotated to
    start after the group served last (a forgotten cursor starts at the head),
    so over as many drains as there are waiting groups, each serving the first
    group of its snapshot, every group is served exactly once, in the order
    they began to wait. *)
Theorem fair_round_robin i :
  NoDup (pi_fair i) ->
  ((fairSnapshot i).2 ≡ₚ pi_fair i) /\
  (forall a c b, pi_fair i = a ++ c :: b -> pi_cursor i = Some c ->
     (fairSnapshot i).2 = b ++ a ++ [c] /\
     serve_n (length (pi_fair i)) i = map Some (b ++ a ++ [c])) /\
  (forall c, pi_cursor i = Some c -> c ∉ pi_fair i ->
     (fairSnapshot i).2 = pi_fair i /\ pi_cursor (fairSnapshot i).1 = None) /\
  (pi_cursor i = None -> serve_n (length (pi_fair i)) i = map Some (pi_fair i)).
Proof.
  intros Hnd.
  assert (Hrot : forall a c b, pi_fair i = a ++ c :: b -> pi_cursor i = Some c ->
     (fairSnapshot i).2 = b ++ a ++ [c]).
  { intros a c b Hf Hc. by rewrite (fairSnapshot_cursor i a c b). }
  assert (Hout : forall c, pi_cursor i = Some c -> c ∉ pi_fair i ->
     (fairSnapshot i).2 = pi_fair i /\ pi_cursor (fairSnapshot i).1 = None).
  { intros c Hc Hn. unfold fairSnapshot. rewrite Hc. destruct (pi_fair i) as [|x l] eqn:Ef; [done|].
    rewrite <- Ef in *. rewrite from_value_notin by done. rewrite Ef. done. }
  split_and!; [| |done|].
  - destruct (pi_cursor i) as [c|] eqn:Ec.
    + destruct (decide (c ∈ pi_fair i)) as [Hin|Hn].
      * apply list_elem_of_split in Hin as (a & b & Hf). rewrite (Hrot a c b Hf eq_refl), Hf.
        rewrite app_assoc. rewrite (Permutation_app_comm b a), <- app_assoc.
        f_equiv. apply Permutation_app_comm.
      * by destruct (Hout c eq_refl Hn) as [-> _].
    + unfold fairSnapshot. rewrite Ec. by destruct (pi_fair i).
  - intros a c b Hf Hc. split; [by apply Hrot|].
    assert (length (pi_fair i) = length b + S (length a))%nat as ->.
    { rewrite Hf, length_app. cbn [length]. lia. }
    rewrite (serve_n_forward b (S (length a)) i a c []) by (by rewrite ?app_nil_r). rewrite map_app.
    f_equal. set (i2 := set_pi_cursor (last (c :: b)) i).
    assert (Hc2 : pi_cursor i2 = last (pi_fair i2)).
    { change (last (c :: b) = last (pi_fair i)). rewrite Hf, last_app.
      destruct (last (c :: b)) eqn:E; [done|]. by apply last_None in E. }
    destruct a as [|x a]; cbn [app length] in *.
    + apply (serve_n_prefix i2 c [] b); [done|done|]. right.
      rewrite Hc2. change (pi_fair i2) with (pi_fair i). by rewrite Hf.
    + replace (S (length a)) with (length (a ++ [c])) by (rewrite length_app; cbn; lia).
      apply (serve_n_prefix i2 x (a ++ [c]) b); [done| |right; rewrite Hc2];
        change (pi_fair i2) with (pi_fair i); by rewrite Hf, <- app_assoc.
  - intros Hc. destruct (pi_fair i) as [|x t] eqn:Ef; [done|].
    apply (serve_n_prefix i x t []); rewrite ?app_nil_r, ?Ef; auto.
Qed.

(** ** A provider whose two keys wait on its gate *)

Definition demo_group (key : string) (queue : list nat) : group :=
  set_g_queue queue (set_g_hasQueued true (set_g_gateWaiting true (set_g_provider "p"
    (set_g_providerIdx (Some 0%nat) (set_g_providerQueued (Some 0%nat)
      (set_g_providerFair (Some 0%nat) (newGroup key 1))))))).
Definition demo_waiter (gid : nat) : waiter :=
  Waiter gid unixEpoch zeroTime "cli" "p" "m" 0 0 zeroAdmission false.
Definition demo_index : providerIndex := ProviderIndex [0; 1]%nat [0; 1]%nat (Some 0%nat) 2 2.
Definition demo_sched : sched :=
  set_sd_groups (<["a" := 0%nat]> (<["b" := 1%nat]> ∅))
    (set_sd_heap (<[0%nat := demo_group "a" [0; 1]%nat]> (<[1%nat := demo_group "b" [2%nat]]> ∅))
      (set_sd_providerGroups (<["p" := 0%nat]> ∅)
        (set_sd_indexes (<[0%nat := demo_index]> ∅)
          (set_sd_waiters (<[0%nat := demo_waiter 0]> (<[1%nat := demo_waiter 0]> (<[2%nat := demo_waiter 1]> ∅)))
            (New {| op_MaxConcurrent := 1; op_MaxQueueSize := 0; op_MaxWait := 0; op_BaseBackoff := Second;
                    op_MaxBackoff := 60 * Second |}))))).

Lemma demo_distinct : queues_distinct demo_sched.
Proof.
  intros gid. unfold group_of, demo_sched. cbn -[insert].
  destruct (decide (gid = 0%nat)) as [->|H0].
  - rewrite lookup_insert_eq. cbn. apply NoDup_cons. split; [by intros [?|?%elem_of_nil]%elem_of_cons|].
    apply NoDup_singleton.
  - rewrite lookup_insert_ne by done. destruct (decide (gid = 1%nat)) as [->|H1].
    + rewrite lookup_insert_eq. apply NoDup_singleton.
    + rewrite lookup_insert_ne, lookup_empty by done. apply NoDup_nil_2.
Qed.


Lemma drainProvider_total_witness :
  exists s', drainProvider demo_sched "p" (fun _ => false) unixEpoch = Some s' /\ queues_distinct s' /\
    g_queue (group_of s' 1) = [].
Proof.
  destruct (drainProvider_total demo_sched "p" (fun _ => false) unixEpoch demo_distinct) as (s' & Hs & Hq).
  exists s'. split; [done|]. split; [done|].
  assert (g_queue (group_of (default demo_sched (Some s')) 1) = []) as Hd; [|exact Hd].
  rewrite <- Hs. vm_compute. reflexivity.
Defined.

Lemma fair_round_robin_witness :
  (fairSnapshot demo_index).2 = [1; 0]%nat /\ serve_n 2 demo_index = [Some 1; Some 0]%nat.
Proof.
  assert (NoDup (pi_fair demo_index)) as Hnd.
  { apply NoDup_cons. split; [by intros [?|?%elem_of_nil]%elem_of_cons|]. apply NoDup_singleton. }
  destruct (fair_round_robin demo_index Hnd) as (_ & H & _).
  exact (H [] 0%nat [1%nat] eq_refl eq_refl).
Defined.
