(* ===== verification/SchedSpec.v ===== *)
(** The abstract machine of slots, queues and the idle order that the scheduler
    implements, and its invariant. *)

From stdpp Require Import relations.
From S2P Require Import Prelude Sched Drains.

(** A group as the machine sees it. *)
Record wgroup := WGroup {
  wg_key : string;
  wg_retired : bool;
  wg_inFlight : Z;
  wg_queue : list nat;
  wg_idle : bool;
}.

(** The groups by identity; each parked caller's group and whether it has been
    granted; the group of each acquisition not yet released; the live groups by
    key; the idle order. *)
Record wstate := WState {
  ws_heap : gmap nat wgroup;
  ws_waiters : gmap nat (nat * bool);
  ws_slots : gmap nat nat;
  ws_groups : gmap string nat;
  ws_idle : list nat;
}.

Definition wg_unlist (v : wgroup) : wgroup :=
  WGroup (wg_key v) (wg_retired v) (wg_inFlight v) (wg_queue v) false.
Definition wg_list (v : wgroup) : wgroup :=
  WGroup (wg_key v) (wg_retired v) (wg_inFlight v) (wg_queue v) true.
Definition wg_retire (v : wgroup) : wgroup :=
  WGroup (wg_key v) true (wg_inFlight v) (wg_queue v) false.
Definition wg_take (n : Z) (v : wgroup) : wgroup :=
  WGroup (wg_key v) (wg_retired v) (wg_inFlight v + n) (wg_queue v) (wg_idle v).
Definition wg_setq (q : list nat) (v : wgroup) : wgroup :=
  WGroup (wg_key v) (wg_retired v) (wg_inFlight v) q (wg_idle v).

Definition ws_put (gid : nat) (v : wgroup) (w : wstate) : wstate :=
  WState (<[gid := v]> (ws_heap w)) (ws_waiters w) (ws_slots w) (ws_groups w) (ws_idle w).

(** A group that got work leaves the idle order. *)
Definition ws_busy (gid : nat) (v : wgroup) (w : wstate) : wstate :=
  if wg_idle v
  then WState (<[gid := wg_unlist v]> (ws_heap w)) (ws_waiters w) (ws_slots w) (ws_groups w)
         (seq_remove (ws_idle w) gid)
  else ws_put gid v w.

(** A live group whose last work ended joins it. *)
Definition ws_rest (gid : nat) (v : wgroup) (w : wstate) : wstate :=
  if wg_retired v || negb (wg_inFlight v =? 0) || negb (bool_decide (wg_queue v = [])) || wg_idle v
  then ws_put gid v w
  else WState (<[gid := wg_list v]> (ws_heap w)) (ws_waiters w) (ws_slots w) (ws_groups w)
         (seq_push (ws_idle w) gid).

Definition ws_set_waiters (m : gmap nat (nat * bool)) (w : wstate) : wstate :=
  WState (ws_heap w) m (ws_slots w) (ws_groups w) (ws_idle w).
Definition ws_set_slots (m : gmap nat nat) (w : wstate) : wstate :=
  WState (ws_heap w) (ws_waiters w) m (ws_groups w) (ws_idle w).

(** The transitions: a key's group is created; the group idle longest is
    evicted; an acquisition is granted at once; a caller is queued; a queued
    caller is granted; a granted caller takes its slot; a queued caller gives
    up; a granted one gives up before it took the slot; a slot is released. *)
Inductive wstep : wstate -> wstate -> Prop :=
  | ws_create w key gid :
      ws_heap w !! gid = None -> ws_groups w !! key = None ->
      wstep w (WState (<[gid := WGroup key false 0 [] true]> (ws_heap w)) (ws_waiters w) (ws_slots w)
                 (<[key := gid]> (ws_groups w)) (seq_push (ws_idle w) gid))
  | ws_evict w gid v :
      head (ws_idle w) = Some gid -> ws_heap w !! gid = Some v ->
      wstep w (WState (<[gid := wg_retire v]> (ws_heap w)) (ws_waiters w) (ws_slots w)
                 (delete (wg_key v) (ws_groups w)) (seq_remove (ws_idle w) gid))
  | ws_fast w gid v sid :
      ws_heap w !! gid = Some v -> wg_retired v = false -> ws_slots w !! sid = None ->
      wstep w (ws_set_slots (<[sid := gid]> (ws_slots w)) (ws_busy gid (wg_take 1 v) w))
  | ws_enqueue w gid v wid :
      ws_heap w !! gid = Some v -> wg_retired v = false -> ws_waiters w !! wid = None ->
      wstep w (ws_set_waiters (<[wid := (gid, false)]> (ws_waiters w))
                 (ws_busy gid (wg_setq (seq_push (wg_queue v) wid) v) w))
  | ws_grant w gid v wid :
      ws_heap w !! gid = Some v -> wid ∈ wg_queue v ->
      wstep w (ws_set_waiters (<[wid := (gid, true)]> (ws_waiters w))
                 (ws_put gid (wg_take 1 (wg_setq (seq_remove (wg_queue v) wid) v)) w))
  | ws_take w wid gid sid :
      ws_waiters w !! wid = Some (gid, true) -> ws_slots w !! sid = None ->
      wstep w (ws_set_slots (<[sid := gid]> (ws_slots w)) (ws_set_waiters (delete wid (ws_waiters w)) w))
  | ws_leave w wid gid v :
      ws_waiters w !! wid = Some (gid, false) -> ws_heap w !! gid = Some v ->
      wstep w (ws_set_waiters (delete wid (ws_waiters w))
                 (ws_rest gid (wg_setq (seq_remove (wg_queue v) wid) v) w))
  | ws_abandon w wid gid v :
      ws_waiters w !! wid = Some (gid, true) -> ws_heap w !! gid = Some v ->
      wstep w (ws_set_waiters (delete wid (ws_waiters w)) (ws_rest gid (wg_take (-1) v) w))
  | ws_release w sid gid v :
      ws_slots w !! sid = Some gid -> ws_heap w !! gid = Some v ->
      wstep w (ws_set_slots (delete sid (ws_slots w)) (ws_rest gid (wg_take (-1) v) w)).

(** ** Its invariant *)

Definition held_slots (gid : nat) (m : gmap nat nat) : Z :=
  total (fun g => if decide (g = gid) then 1 else 0) m.
Definition granted_waiters (gid : nat) (m : gmap nat (nat * bool)) : Z :=
  total (fun p : nat * bool => if decide (p = (gid, true)) then 1 else 0) m.

(** Of one group. *)
Record wgroup_ok (w : wstate) (gid : nat) (v : wgroup) : Prop := {
  wo_inFlight : wg_inFlight v = held_slots gid (ws_slots w) + granted_waiters gid (ws_waiters w);
  wo_nodup : NoDup (wg_queue v);
  wo_queue : forall wid, wid ∈ wg_queue v <-> ws_waiters w !! wid = Some (gid, false);
  wo_retired : wg_retired v = true -> wg_inFlight v = 0 /\ wg_queue v = [];
  wo_idle : wg_idle v = true <-> gid ∈ ws_idle w;
  wo_listed : wg_idle v = true <-> wg_retired v = false /\ wg_inFlight v = 0 /\ wg_queue v = [];
  wo_live : wg_retired v = false <-> ws_groups w !! wg_key v = Some gid;
}.

Record winv (w : wstate) : Prop := {
  wi_group : forall gid v, ws_heap w !! gid = Some v -> wgroup_ok w gid v;
  wi_idle : NoDup (ws_idle w);
  wi_idle_heap : forall gid, gid ∈ ws_idle w -> is_Some (ws_heap w !! gid);
  wi_groups : forall key gid, ws_groups w !! key = Some gid ->
    exists v, ws_heap w !! gid = Some v /\ wg_key v = key;
  wi_slots : forall sid gid, ws_slots w !! sid = Some gid -> is_Some (ws_heap w !! gid);
  wi_waiters : forall wid p, ws_waiters w !! wid = Some p -> is_Some (ws_heap w !! p.1);
}.

Lemma held_nonneg gid m : 0 <= held_slots gid m.
Proof. apply total_nonneg. intros. by case_decide. Qed.
Lemma granted_nonneg gid m : 0 <= granted_waiters gid m.
Proof. apply total_nonneg. intros. by case_decide. Qed.

Lemma held_insert gid m sid g :
  m !! sid = None -> held_slots gid (<[sid := g]> m) = held_slots gid m + (if decide (g = gid) then 1 else 0).
Proof. intros H. unfold held_slots. rewrite total_insert_fresh by done. lia. Qed.
Lemma held_delete gid m sid g :
  m !! sid = Some g -> held_slots gid (delete sid m) = held_slots gid m - (if decide (g = gid) then 1 else 0).
Proof. intros H. unfold held_slots. rewrite (total_delete _ m sid g H). lia. Qed.
Lemma granted_insert gid m wid p :
  m !! wid = None ->
  granted_waiters gid (<[wid := p]> m) = granted_waiters gid m + (if decide (p = (gid, true)) then 1 else 0).
Proof. intros H. unfold granted_waiters. rewrite total_insert_fresh by done. lia. Qed.
Lemma granted_replace gid m wid p q :
  m !! wid = Some p ->
  granted_waiters gid (<[wid := q]> m) = granted_waiters gid m
    - (if decide (p = (gid, true)) then 1 else 0) + (if decide (q = (gid, true)) then 1 else 0).
Proof. intros H. unfold granted_waiters. by rewrite (total_insert _ m wid p q H). Qed.
Lemma granted_delete gid m wid p :
  m !! wid = Some p ->
  granted_waiters gid (delete wid m) = granted_waiters gid m - (if decide (p = (gid, true)) then 1 else 0).
Proof. intros H. unfold granted_waiters. rewrite (total_delete _ m wid p H). lia. Qed.

Lemma held_fresh w gid : winv w -> ws_heap w !! gid = None ->
  held_slots gid (ws_slots w) = 0 /\ granted_waiters gid (ws_waiters w) = 0.
Proof.
  intros Hw Hn. split; apply total_zero; intros i x Hx; case_decide; try done; subst.
  - destruct (wi_slots _ Hw _ _ Hx). congruence.
  - destruct (wi_waiters _ Hw _ _ Hx). cbn in *. congruence.
Qed.

(** What a transition on one group owes: that group, and that the others see no
    difference. *)
Lemma one_group w w' gid v v' :
  winv w -> ws_heap w !! gid = Some v -> ws_heap w' = <[gid := v']> (ws_heap w) ->
  ws_groups w' = ws_groups w -> wg_key v' = wg_key v ->
  NoDup (ws_idle w') -> (forall g, g <> gid -> g ∈ ws_idle w' <-> g ∈ ws_idle w) ->
  (forall g, g <> gid -> held_slots g (ws_slots w') = held_slots g (ws_slots w) /\
     granted_waiters g (ws_waiters w') = granted_waiters g (ws_waiters w) /\
     forall wid, ws_waiters w' !! wid = Some (g, false) <-> ws_waiters w !! wid = Some (g, false)) ->
  (forall sid g, ws_slots w' !! sid = Some g -> g = gid \/ exists sid', ws_slots w !! sid' = Some g) ->
  (forall wid p, ws_waiters w' !! wid = Some p -> p.1 = gid \/ exists wid', ws_waiters w !! wid' = Some p) ->
  wgroup_ok w' gid v' -> winv w'.
Proof.
  intros Hw Hv Hh Hg Hk Hnd Hidle Hoth Hsl Hwt Hok.
  assert (Hin : forall g, is_Some (ws_heap w !! g) -> is_Some (ws_heap w' !! g)).
  { intros g Hs. rewrite Hh. apply lookup_insert_is_Some'. by right. }
  split.
  - intros g u. rewrite Hh. intros [[<- <-]|[Hne Hu]]%lookup_insert_Some; [done|].
    destruct (wi_group _ Hw _ _ Hu) as [H1 H2 H3 H4 H5 H6 H7].
    destruct (Hoth g (not_eq_sym Hne)) as (E1 & E2 & E3). split; rewrite ?E1, ?E2, ?Hg; try done.
    + intros wid. rewrite H3. symmetry. apply E3.
    + rewrite H5. symmetry. by apply Hidle.
  - done.
  - intros g Hgi. destruct (decide (g = gid)) as [->|Hne].
    + rewrite Hh, lookup_insert_eq. by eexists.
    + apply Hin, (wi_idle_heap _ Hw). by apply Hidle.
  - intros key g. rewrite Hg. intros Hkg. destruct (wi_groups _ Hw _ _ Hkg) as (u & Hu & Huk).
    rewrite Hh. destruct (decide (gid = g)) as [<-|Hne].
    + rewrite lookup_insert_eq. exists v'. split; [done|]. rewrite Hv in Hu. simplify_eq. by rewrite Hk.
    + rewrite lookup_insert_ne by done. by exists u.
  - intros sid g Hs. destruct (Hsl sid g Hs) as [->|[sid' Hs']].
    + rewrite Hh, lookup_insert_eq. by eexists.
    + by eapply Hin, wi_slots.
  - intros wid p Hp. destruct (Hwt wid p Hp) as [->|[wid' Hp']].
    + rewrite Hh, lookup_insert_eq. by eexists.
    + by eapply Hin, wi_waiters.
Qed.

Lemma ws_busy_eq gid v w :
  (wg_idle v = true <-> gid ∈ ws_idle w) ->
  ws_busy gid v w = WState (<[gid := wg_unlist v]> (ws_heap w)) (ws_waiters w) (ws_slots w)
                      (ws_groups w) (seq_remove (ws_idle w) gid).
Proof.
  intros Hi. unfold ws_busy. destruct (wg_idle v) eqn:E; [done|].
  rewrite seq_remove_notin by (intros Hin; by apply Hi in Hin). unfold ws_put. do 2 f_equal.
  destruct v; cbn in *. by subst.
Qed.

(** Whether a group joins the idle order. *)
Definition rests (v : wgroup) : bool :=
  negb (wg_retired v) && (wg_inFlight v =? 0) && bool_decide (wg_queue v = []) && negb (wg_idle v).

Lemma ws_rest_eq gid v w :
  ws_rest gid v w =
    WState (<[gid := if rests v then wg_list v else v]> (ws_heap w)) (ws_waiters w) (ws_slots w)
      (ws_groups w) (if rests v then seq_push (ws_idle w) gid else ws_idle w).
Proof.
  unfold ws_rest, rests. destruct (wg_retired v), (wg_inFlight v =? 0), (bool_decide _), (wg_idle v); done.
Qed.

Section preserve.
Context (w : wstate) (Hw : winv w).

Lemma create_inv key gid :
  ws_heap w !! gid = None -> ws_groups w !! key = None ->
  winv (WState (<[gid := WGroup key false 0 [] true]> (ws_heap w)) (ws_waiters w) (ws_slots w)
          (<[key := gid]> (ws_groups w)) (seq_push (ws_idle w) gid)).
Proof.
  intros Hh Hk. destruct (held_fresh w gid Hw Hh) as [Hs0 Hg0].
  assert (gid ∉ ws_idle w) as Hni by (intros Hin; destruct (wi_idle_heap _ Hw _ Hin); congruence).
  assert (Hin : forall g, is_Some (ws_heap w !! g) ->
    is_Some (<[gid := WGroup key false 0 [] true]> (ws_heap w) !! g))
    by (intros; apply lookup_insert_is_Some'; by right).
  split; cbn.
  - intros g v [[<- <-]|[Hne Hv]]%lookup_insert_Some.
    + split; cbn; try done.
      * lia.
      * apply NoDup_nil_2.
      * intros wid. split; [by intros ?%elem_of_nil|]. intros Hwt.
        destruct (wi_waiters _ Hw _ _ Hwt). cbn in *. congruence.
      * split; [|done]. intros _. apply elem_of_app. right. by left.
      * by rewrite lookup_insert_eq.
    + destruct (wi_group _ Hw _ _ Hv) as [H1 H2 H3 H4 H5 H6 H7]. split; cbn; try done.
      * rewrite H5. unfold seq_push. rewrite elem_of_app, list_elem_of_singleton.
        split; [by left|]. by intros [?|<-].
      * rewrite H7. destruct (decide (key = wg_key v)) as [He|He].
        -- rewrite <- He, lookup_insert_eq, Hk. split; [done|]. intros [= ?]. done.
        -- by rewrite lookup_insert_ne.
  - apply NoDup_seq_push; [apply Hw|done].
  - intros g [Hg|Hg%list_elem_of_singleton]%elem_of_app; [by apply Hin, (wi_idle_heap _ Hw)|subst].
    rewrite lookup_insert_eq. by eexists.
  - intros k g [[<- <-]|[Hne Hkg]]%lookup_insert_Some.
    + rewrite lookup_insert_eq. by eexists.
    + destruct (wi_groups _ Hw _ _ Hkg) as (v & Hv & Hvk). exists v. split; [|done].
      rewrite lookup_insert_ne; [done|]. intros Hgg. congruence.
  - intros sid g Hs. by eapply Hin, wi_slots.
  - intros wid p Hp. by eapply Hin, wi_waiters.
Qed.

Lemma evict_inv gid v :
  head (ws_idle w) = Some gid -> ws_heap w !! gid = Some v ->
  winv (WState (<[gid := wg_retire v]> (ws_heap w)) (ws_waiters w) (ws_slots w)
          (delete (wg_key v) (ws_groups w)) (seq_remove (ws_idle w) gid)).
Proof.
  intros Hhd Hv. assert (gid ∈ ws_idle w) as Hgi by (by apply head_Some_elem_of).
  destruct (wi_group _ Hw _ _ Hv) as [H1 H2 H3 H4 H5 H6 H7].
  destruct (proj1 H6 (proj2 H5 Hgi)) as (Hr & Hz & Hq). pose proof (proj1 H7 Hr) as Hm.
  assert (Hin : forall g, is_Some (ws_heap w !! g) -> is_Some (<[gid := wg_retire v]> (ws_heap w) !! g))
    by (intros; apply lookup_insert_is_Some'; by right).
  split; cbn.
  - intros g u [[<- <-]|[Hne Hu]]%lookup_insert_Some.
    + split; cbn; try done.
      * split; [done|]. intros [_ ?]%elem_of_seq_remove. done.
      * split; [done|]. by intros [? _].
      * rewrite lookup_delete_eq. done.
    + destruct (wi_group _ Hw _ _ Hu) as [G1 G2 G3 G4 G5 G6 G7]. split; cbn; try done.
      * rewrite G5, elem_of_seq_remove. split; [|by intros [? _]]. intros ?. split; [done|].
        intros ->. done.
      * rewrite G7, lookup_delete_Some. split; [|by intros [_ ?]]. intros Hk. split; [|done].
        intros Heq. rewrite <- Heq, Hm in Hk. congruence.
  - apply NoDup_seq_remove, Hw.
  - intros g [Hg _]%elem_of_seq_remove. by apply Hin, (wi_idle_heap _ Hw).
  - intros k g [Hne Hkg]%lookup_delete_Some. destruct (wi_groups _ Hw _ _ Hkg) as (u & Hu & Huk).
    destruct (decide (gid = g)) as [<-|Hng]; [|exists u; by rewrite lookup_insert_ne].
    rewrite Hv in Hu. injection Hu as <-. done.
  - intros sid g Hs. by eapply Hin, wi_slots.
  - intros wid p Hp. by eapply Hin, wi_waiters.
Qed.

Lemma seq_remove_others l gid g : g <> gid -> g ∈ seq_remove l gid <-> g ∈ l.
Proof. rewrite elem_of_seq_remove. tauto. Qed.
Lemma seq_push_others l gid g : g <> gid -> g ∈ seq_push l gid <-> g ∈ l.
Proof. unfold seq_push. rewrite elem_of_app, list_elem_of_singleton. tauto. Qed.

(** An update of one caller's entry is invisible to the other groups. *)
Lemma waiter_others (m : gmap nat (nat * bool)) wid gid b g x :
  g <> gid -> (forall p, m !! wid = Some p -> p.1 = gid) ->
  <[wid := (gid, b)]> m !! x = Some (g, false) <-> m !! x = Some (g, false).
Proof.
  intros Hne Hm. rewrite lookup_insert_Some. split.
  - intros [[_ [= ? ?]]|[_ ?]]; done.
  - intros Hx. right. split; [|done]. intros ->. by specialize (Hm _ Hx).
Qed.
Lemma waiter_delete_others (m : gmap nat (nat * bool)) wid gid b g x :
  g <> gid -> m !! wid = Some (gid, b) ->
  delete wid m !! x = Some (g, false) <-> m !! x = Some (g, false).
Proof.
  intros Hne Hm. rewrite lookup_delete_Some. split; [by intros [_ ?]|]. intros Hx. split; [|done].
  intros ->. congruence.
Qed.

(** A group that is not resting is not listed and not retired. *)
Lemma working gid v :
  ws_heap w !! gid = Some v -> wg_inFlight v <> 0 \/ wg_queue v <> [] ->
  wg_idle v = false /\ wg_retired v = false.
Proof.
  intros Hv Hwk. destruct (wi_group _ Hw _ _ Hv) as [H1 H2 H3 H4 H5 H6 H7]. split.
  - destruct (wg_idle v); [|done]. destruct (proj1 H6 eq_refl) as (_ & ? & ?). tauto.
  - destruct (wg_retired v); [|done]. destruct (H4 eq_refl). tauto.
Qed.

Lemma fast_inv gid v sid :
  ws_heap w !! gid = Some v -> wg_retired v = false -> ws_slots w !! sid = None ->
  winv (ws_set_slots (<[sid := gid]> (ws_slots w)) (ws_busy gid (wg_take 1 v) w)).
Proof.
  intros Hv Hr Hs. destruct (wi_group _ Hw _ _ Hv) as [H1 H2 H3 H4 H5 H6 H7].
  pose proof (held_nonneg gid (ws_slots w)). pose proof (granted_nonneg gid (ws_waiters w)).
  rewrite ws_busy_eq by done. eapply (one_group w _ gid v (wg_unlist (wg_take 1 v))); cbn; try done.
  - apply NoDup_seq_remove, Hw.
  - intros g Hne. by apply seq_remove_others.
  - intros g Hne. rewrite held_insert by done. rewrite decide_False by done. split_and!; [lia|done..].
  - intros s g [[<- <-]|[_ ?]]%lookup_insert_Some; [by left|right; by eexists].
  - intros wid p Hp. right. by eexists.
  - split; cbn; try done.
    + rewrite held_insert, decide_True by done. lia.
    + by rewrite Hr.
    + split; [done|]. intros [_ ?]%elem_of_seq_remove. done.
    + split; [done|]. intros (_ & ? & _). lia.
Qed.

Lemma enqueue_inv gid v wid :
  ws_heap w !! gid = Some v -> wg_retired v = false -> ws_waiters w !! wid = None ->
  winv (ws_set_waiters (<[wid := (gid, false)]> (ws_waiters w))
          (ws_busy gid (wg_setq (seq_push (wg_queue v) wid) v) w)).
Proof.
  intros Hv Hr Hwt. destruct (wi_group _ Hw _ _ Hv) as [H1 H2 H3 H4 H5 H6 H7].
  rewrite ws_busy_eq by done.
  eapply (one_group w _ gid v (wg_unlist (wg_setq (seq_push (wg_queue v) wid) v))); cbn; try done.
  - apply NoDup_seq_remove, Hw.
  - intros g Hne. by apply seq_remove_others.
  - intros g Hne. rewrite granted_insert, decide_False by congruence. split_and!; [done|lia|].
    intros x. apply waiter_others; [done|]. intros p. congruence.
  - intros s g Hs. right. by eexists.
  - intros x p [[<- <-]|[_ ?]]%lookup_insert_Some; [by left|right; by eexists].
  - split; cbn; try done.
    + rewrite granted_insert, decide_False by congruence. lia.
    + apply NoDup_seq_push; [done|]. rewrite H3. by rewrite Hwt.
    + intros x. unfold seq_push. rewrite elem_of_app, list_elem_of_singleton, H3, lookup_insert_Some.
      split; [|intros [[<- _]|[_ ?]]; tauto]. intros [Hx| ->]; [right|by left].
      split; [|done]. intros ->. congruence.
    + by rewrite Hr.
    + split; [done|]. intros [_ ?]%elem_of_seq_remove. done.
    + split; [done|]. intros (_ & _ & ?). by destruct (wg_queue v).
Qed.

Lemma grant_inv gid v wid :
  ws_heap w !! gid = Some v -> wid ∈ wg_queue v ->
  winv (ws_set_waiters (<[wid := (gid, true)]> (ws_waiters w))
          (ws_put gid (wg_take 1 (wg_setq (seq_remove (wg_queue v) wid) v)) w)).
Proof.
  intros Hv Hq. destruct (wi_group _ Hw _ _ Hv) as [H1 H2 H3 H4 H5 H6 H7].
  pose proof (proj1 (H3 wid) Hq) as Hwt.
  destruct (working gid v Hv) as [Hni Hnr].
  { right. intros Hnil. rewrite Hnil in Hq. by apply elem_of_nil in Hq. }
  pose proof (held_nonneg gid (ws_slots w)). pose proof (granted_nonneg gid (ws_waiters w)).
  eapply (one_group w _ gid v (wg_take 1 (wg_setq (seq_remove (wg_queue v) wid) v))); cbn; try done.
  - apply Hw.
  - intros g Hne. rewrite (granted_replace g _ _ _ _ Hwt), !decide_False by congruence.
    split_and!; [done|lia|]. intros x. apply waiter_others; [done|]. intros p Hp. by simplify_eq.
  - intros s g Hs. right. by eexists.
  - intros x p [[<- <-]|[_ ?]]%lookup_insert_Some; [by left|right; by eexists].
  - split; cbn; try done.
    + rewrite (granted_replace gid _ _ _ _ Hwt), decide_False, decide_True by done. lia.
    + by apply NoDup_seq_remove.
    + intros x. rewrite elem_of_seq_remove, H3, lookup_insert_Some.
      split; [intros [? ?]; right; by split|intros [[_ [=]]|[? ?]]; by split].
    + by rewrite Hnr.
    + rewrite Hni. split; [done|]. intros (_ & ? & _). lia.
Qed.

Lemma take_inv wid gid sid :
  ws_waiters w !! wid = Some (gid, true) -> ws_slots w !! sid = None ->
  winv (ws_set_slots (<[sid := gid]> (ws_slots w)) (ws_set_waiters (delete wid (ws_waiters w)) w)).
Proof.
  intros Hwt Hs. destruct (wi_waiters _ Hw _ _ Hwt) as [v Hv]. cbn in Hv.
  destruct (wi_group _ Hw _ _ Hv) as [H1 H2 H3 H4 H5 H6 H7].
  eapply (one_group w _ gid v v); cbn; try done.
  - by rewrite insert_id.
  - apply Hw.
  - intros g Hne. rewrite held_insert, (granted_delete g _ _ _ Hwt), !decide_False by congruence.
    split_and!; [lia|lia|]. intros x. by eapply waiter_delete_others.
  - intros s g [[<- <-]|[_ ?]]%lookup_insert_Some; [by left|right; by eexists].
  - intros x p [_ Hp]%lookup_delete_Some. right. by eexists.
  - split; cbn; try done.
    + rewrite held_insert, (granted_delete gid _ _ _ Hwt), !decide_True by done. lia.
    + intros x. rewrite H3, lookup_delete_Some. split; [|by intros [_ ?]]. intros Hx.
      split; [|done]. intros ->. congruence.
Qed.

(** The three ways work ends. *)
Lemma rest_inv gid v v1 slots waiters :
  ws_heap w !! gid = Some v -> wg_key v1 = wg_key v -> wg_retired v1 = wg_retired v ->
  wg_retired v = false -> wg_idle v1 = false -> wg_idle v = false ->
  (forall g, g <> gid -> held_slots g slots = held_slots g (ws_slots w) /\
     granted_waiters g waiters = granted_waiters g (ws_waiters w) /\
     forall wid, waiters !! wid = Some (g, false) <-> ws_waiters w !! wid = Some (g, false)) ->
  (forall sid g, slots !! sid = Some g -> ws_slots w !! sid = Some g) ->
  (forall wid p, waiters !! wid = Some p -> ws_waiters w !! wid = Some p) ->
  wg_inFlight v1 = held_slots gid slots + granted_waiters gid waiters ->
  NoDup (wg_queue v1) ->
  (forall wid, wid ∈ wg_queue v1 <-> waiters !! wid = Some (gid, false)) ->
  winv (ws_set_waiters waiters (ws_set_slots slots (ws_rest gid v1 w))).
Proof.
  intros Hv Hk Hr Hlive Hi1 Hi Hoth Hsl Hwt Hin Hnd Hq.
  destruct (wi_group _ Hw _ _ Hv) as [H1 H2 H3 H4 H5 H6 H7].
  assert (gid ∉ ws_idle w) as Hni by (intros Hg; apply H5 in Hg; congruence).
  assert (wg_retired v1 = false) as Hr1 by congruence.
  assert (Hrest : rests v1 = true <-> wg_inFlight v1 = 0 /\ wg_queue v1 = []).
  { unfold rests. rewrite Hr1, Hi1. cbn [negb andb].
    rewrite andb_true_r, andb_true_iff, Z.eqb_eq, bool_decide_eq_true. done. }
  rewrite ws_rest_eq.
  eapply (one_group w _ gid v (if rests v1 then wg_list v1 else v1)); cbn; try done.
  - by destruct (rests v1).
  - destruct (rests v1); [apply NoDup_seq_push; [apply Hw|done]|apply Hw].
  - intros g Hne. destruct (rests v1); [by apply seq_push_others|done].
  - intros sid g Hs. right. exists sid. by apply Hsl.
  - intros wid p Hp. right. exists wid. by apply Hwt.
  - assert (Hm : ws_groups w !! wg_key v1 = Some gid) by (rewrite Hk; by apply H7).
    destruct (rests v1).
    + destruct (proj1 Hrest eq_refl) as [Hz Hn]. split; cbn; try done.
      * split; [|done]. intros _. apply elem_of_app. right. by left.
    + split; cbn; try done; rewrite ?Hi1, ?Hr1; try done.
      split; [done|]. intros (_ & ? & ?). exfalso. assert (false = true) by (by apply Hrest). done.
Qed.

Lemma slot_present sid gid : ws_slots w !! sid = Some gid -> 1 <= held_slots gid (ws_slots w).
Proof.
  intros Hs. pose proof (held_nonneg gid (delete sid (ws_slots w))) as Hn.
  rewrite (held_delete gid _ _ _ Hs), decide_True in Hn by done. lia.
Qed.
Lemma granted_present wid gid :
  ws_waiters w !! wid = Some (gid, true) -> 1 <= granted_waiters gid (ws_waiters w).
Proof.
  intros Hs. pose proof (granted_nonneg gid (delete wid (ws_waiters w))) as Hn.
  rewrite (granted_delete gid _ _ _ Hs), decide_True in Hn by done. lia.
Qed.

Lemma wleave_inv wid gid v :
  ws_waiters w !! wid = Some (gid, false) -> ws_heap w !! gid = Some v ->
  winv (ws_set_waiters (delete wid (ws_waiters w))
          (ws_rest gid (wg_setq (seq_remove (wg_queue v) wid) v) w)).
Proof.
  intros Hwt Hv. destruct (wi_group _ Hw _ _ Hv) as [H1 H2 H3 H4 H5 H6 H7].
  destruct (working gid v Hv) as [Hni Hnr].
  { right. intros Hnil. apply H3 in Hwt. rewrite Hnil in Hwt. by apply elem_of_nil in Hwt. }
  change (ws_rest gid (wg_setq (seq_remove (wg_queue v) wid) v) w)
    with (ws_rest gid (wg_setq (seq_remove (wg_queue v) wid) v) w).
  assert (HX := rest_inv gid v (wg_setq (seq_remove (wg_queue v) wid) v) (ws_slots w)
    (delete wid (ws_waiters w)) Hv eq_refl eq_refl Hnr Hni Hni).
  rewrite ws_rest_eq in *. apply HX; try done.
  - intros g Hne. rewrite (granted_delete g _ _ _ Hwt), decide_False by congruence.
    split_and!; [done|lia|]. intros x. by eapply waiter_delete_others.
  - by intros x p [_ ?]%lookup_delete_Some.
  - cbn. rewrite (granted_delete gid _ _ _ Hwt), decide_False by congruence. lia.
  - by apply NoDup_seq_remove.
  - intros x. cbn. rewrite elem_of_seq_remove, H3, lookup_delete_Some.
    split; intros [? ?]; (split; [|done]); done.
Qed.

Lemma abandon_inv wid gid v :
  ws_waiters w !! wid = Some (gid, true) -> ws_heap w !! gid = Some v ->
  winv (ws_set_waiters (delete wid (ws_waiters w)) (ws_rest gid (wg_take (-1) v) w)).
Proof.
  intros Hwt Hv. destruct (wi_group _ Hw _ _ Hv) as [H1 H2 H3 H4 H5 H6 H7].
  pose proof (granted_present wid gid Hwt). pose proof (held_nonneg gid (ws_slots w)).
  destruct (working gid v Hv) as [Hni Hnr]; [left; lia|].
  assert (HX := rest_inv gid v (wg_take (-1) v) (ws_slots w)
    (delete wid (ws_waiters w)) Hv eq_refl eq_refl Hnr Hni Hni).
  rewrite ws_rest_eq in *. apply HX; try done.
  - intros g Hne. rewrite (granted_delete g _ _ _ Hwt), decide_False by congruence.
    split_and!; [done|lia|]. intros x. by eapply waiter_delete_others.
  - by intros x p [_ ?]%lookup_delete_Some.
  - cbn. rewrite (granted_delete gid _ _ _ Hwt), decide_True by done. lia.
  - intros x. cbn. rewrite H3, lookup_delete_Some.
    split; [|by intros [_ ?]]. intros Hx. split; [|done]. intros ->. congruence.
Qed.

Lemma release_inv sid gid v :
  ws_slots w !! sid = Some gid -> ws_heap w !! gid = Some v ->
  winv (ws_set_slots (delete sid (ws_slots w)) (ws_rest gid (wg_take (-1) v) w)).
Proof.
  intros Hs Hv. destruct (wi_group _ Hw _ _ Hv) as [H1 H2 H3 H4 H5 H6 H7].
  pose proof (slot_present sid gid Hs). pose proof (granted_nonneg gid (ws_waiters w)).
  destruct (working gid v Hv) as [Hni Hnr]; [left; lia|].
  assert (HX := rest_inv gid v (wg_take (-1) v) (delete sid (ws_slots w)) (ws_waiters w)
    Hv eq_refl eq_refl Hnr Hni Hni).
  rewrite ws_rest_eq in *. apply HX; try done.
  - intros g Hne. rewrite (held_delete g _ _ _ Hs), decide_False by congruence. split_and!; [lia|done..].
  - by intros x p [_ ?]%lookup_delete_Some.
  - cbn. rewrite (held_delete gid _ _ _ Hs), decide_True by done. lia.
Qed.
End preserve.

Lemma wstep_inv w w' : winv w -> wstep w w' -> winv w'.
Proof.
  intros Hw Hs. destruct Hs.
  - by apply create_inv.
  - by apply evict_inv.
  - by apply fast_inv.
  - by apply enqueue_inv.
  - by apply grant_inv.
  - by apply take_inv.
  - by apply wleave_inv.
  - by apply abandon_inv.
  - by apply release_inv.
Qed.

Lemma wsteps_inv w w' : winv w -> rtc wstep w w' -> winv w'.
Proof. intros Hw. induction 1; [done|]. eauto using wstep_inv. Qed.

Lemma winv_empty : winv (WState ∅ ∅ ∅ ∅ []).
Proof.
  split; cbn; intros; try (by simplify_map_eq); [apply NoDup_nil_2|].
  by eapply elem_of_nil in H.
Qed.
