(* ===== verification/SchedRun.v ===== *)
(** The scheduler's critical sections as steps, and their simulation by the
    abstract machine of slots, queues and the idle order. *)

From stdpp Require Import relations.
From S2P Require Import Prelude GoTime GoFloat WakeTimer LinkedList Ramp Pacing Drain Hold HoldQueue Gate Sched Admission Send Drains SchedSpec.

Definition wview (g : group) : wgroup :=
  WGroup (g_key g) (g_retired g) (g_inFlight g) (g_queue g) (g_idleListed g).
Definition waiter_view (w : waiter) : nat * bool := (w_group w, w_granted w).
Definition wst_of (s : sched) : wstate :=
  WState (wview <$> sd_heap s) (waiter_view <$> sd_waiters s) (sl_group <$> sd_slots s)
    (sd_groups s) (sd_idle s).

(** ** Sections the machine does not see *)

Definition quiet (s s' : sched) : Prop := wst_of s' = wst_of s.

#[export] Instance quiet_refl : Reflexive quiet.
Proof. done. Qed.
#[export] Instance quiet_trans : Transitive quiet.
Proof. unfold quiet. intros s1 s2 s3 H1 H2. by rewrite H2, H1. Qed.

Lemma fmap_core {A B} (v : A -> B) (core : A -> A) (m m' : gmap nat A) :
  (forall x, v (core x) = v x) -> core <$> m' = core <$> m -> v <$> m' = v <$> m.
Proof.
  intros Hv Hm. rewrite <- (map_fmap_ext (v ∘ core) v m'), <- (map_fmap_ext (v ∘ core) v m)
    by (intros; apply Hv).
  by rewrite !map_fmap_compose, Hm.
Qed.

Lemma frame_quiet s s' : frame s s' -> quiet s s'.
Proof.
  intros []. unfold quiet, wst_of. rewrite fr_waiters, fr_slots, fr_groups, fr_idle.
  by rewrite (fmap_core wview gcore _ _ (fun _ => eq_refl) fr_heap).
Qed.

Lemma upd_group_quiet gid f s : (forall g, wview (f g) = wview g) -> quiet s (upd_group gid f s).
Proof.
  intros Hf. unfold quiet, wst_of. cbn. f_equal. apply map_eq. intros j. rewrite !lookup_fmap.
  destruct (decide (gid = j)) as [<-|Hne].
  - rewrite lookup_alter_eq. destruct (sd_heap s !! gid) as [g|]; cbn; [by rewrite Hf|done].
  - by rewrite lookup_alter_ne.
Qed.

Lemma group_of_lookup s gid g : sd_heap s !! gid = Some g -> group_of s gid = g.
Proof. intros H. unfold group_of. by rewrite H. Qed.

Lemma ws_heap_lookup s gid g : sd_heap s !! gid = Some g -> ws_heap (wst_of s) !! gid = Some (wview g).
Proof. intros H. cbn. by rewrite lookup_fmap, H. Qed.

Lemma ws_heap_inv s gid v : ws_heap (wst_of s) !! gid = Some v ->
  exists g, sd_heap s !! gid = Some g /\ v = wview g.
Proof. cbn. rewrite lookup_fmap. destruct (sd_heap s !! gid); cbn; [|done]. intros [= <-]. by eexists. Qed.

Lemma wview_upd s gid (f : group -> group) g :
  sd_heap s !! gid = Some g ->
  wview <$> sd_heap (upd_group gid f s) = <[gid := wview (f g)]> (wview <$> sd_heap s).
Proof.
  intros Hg. cbn. apply map_eq. intros j. rewrite lookup_fmap.
  destruct (decide (gid = j)) as [<-|Hne].
  - by rewrite lookup_alter_eq, lookup_insert_eq, Hg.
  - by rewrite lookup_alter_ne, lookup_insert_ne, lookup_fmap.
Qed.

Lemma wview_quiet_upd s gid g : sd_heap s !! gid = Some g ->
  <[gid := wview g]> (wview <$> sd_heap s) = wview <$> sd_heap s.
Proof. intros Hg. apply insert_id. by rewrite lookup_fmap, Hg. Qed.

Lemma idle_flag s gid g :
  winv (wst_of s) -> sd_heap s !! gid = Some g -> g_idleListed g = true <-> gid ∈ sd_idle s.
Proof. intros Hw Hg. exact (wo_idle _ _ _ (wi_group _ Hw _ _ (ws_heap_lookup _ _ _ Hg))). Qed.

Lemma alter_lookup s gid (f : group -> group) g :
  sd_heap s !! gid = Some g -> sd_heap (upd_group gid f s) !! gid = Some (f g).
Proof. intros Hg. cbn. by rewrite lookup_alter_eq, Hg. Qed.

(** ** The idle order *)

(** markGroupBusyLocked after the update [f] that gave the group its work. *)
Lemma busy_sim s gid (f : group -> group) g :
  sd_heap s !! gid = Some g -> g_idleListed (f g) = g_idleListed g ->
  wst_of (markGroupBusyLocked gid (upd_group gid f s)) = ws_busy gid (wview (f g)) (wst_of s).
Proof.
  intros Hg Hf. pose proof (alter_lookup s gid f g Hg) as Hg1.
  unfold markGroupBusyLocked, ws_busy. rewrite (group_of_lookup _ _ _ Hg1). cbn [wview wg_idle].
  rewrite Hf. destruct (g_idleListed g) eqn:E; cbn [negb].
  - unfold idleUnlinkLocked. rewrite (group_of_lookup _ _ _ Hg1), Hf. cbn [negb].
    unfold wst_of. cbn [sd_heap sd_waiters sd_slots sd_groups sd_idle set_sd_idle upd_group set_sd_heap
      ws_heap ws_waiters ws_slots ws_groups ws_idle]. f_equal.
    rewrite alter_alter, decide_True by done.
    exact (wview_upd s gid (set_g_idleListed false ∘ f) g Hg).
  - unfold ws_put, wst_of. cbn [ws_heap ws_waiters ws_slots ws_groups ws_idle]. f_equal.
    exact (wview_upd s gid f g Hg).
Qed.

(** markGroupIdleLocked after the update [f] that ended some work. *)
Lemma rest_sim s gid (f : group -> group) g now :
  sd_heap s !! gid = Some g -> 
  wst_of (markGroupIdleLocked gid now (upd_group gid f s)) = ws_rest gid (wview (f g)) (wst_of s).
Proof.
  intros Hg. pose proof (alter_lookup s gid f g Hg) as Hg1.
  set (s1 := upd_group gid f s) in *.
  assert (Hput : wst_of s1 = ws_put gid (wview (f g)) (wst_of s)).
  { unfold ws_put, wst_of. cbn [ws_heap ws_waiters ws_slots ws_groups ws_idle]. f_equal.
    exact (wview_upd s gid f g Hg). }
  unfold markGroupIdleLocked, ws_rest. rewrite (group_of_lookup _ _ _ Hg1).
  cbn [wview wg_retired wg_inFlight wg_queue wg_idle].
  assert ((queue_live (f g) =? 0) = bool_decide (g_queue (f g) = [])) as ->.
  { unfold queue_live. by destruct (g_queue (f g)). }
  destruct (g_retired (f g)); [done|]. destruct (g_inFlight (f g) =? 0); [|done].
  destruct (bool_decide _); [|done]. cbn [orb negb].
  set (s2 := if _ : bool then upd_group gid _ s1 else s1).
  assert (Hs2 : exists g2, sd_heap s2 !! gid = Some g2 /\ wview g2 = wview (f g) /\ wst_of s2 = wst_of s1 /\
    sd_idle s2 = sd_idle s).
  { unfold s2. case_match.
    - exists (set_g_ramp {| rp_start := rp_start (g_ramp (f g)); rp_idleSince := now |} (f g)).
      split; [|split; [done|split; [|done]]].
      + by apply alter_lookup.
      + by apply upd_group_quiet.
    - exists (f g). done. }
  destruct Hs2 as (g2 & Hg2 & Hv2 & Hw2 & Hi2). unfold idlePushLocked.
  rewrite (group_of_lookup _ _ _ Hg2).
  assert (g_idleListed g2 = g_idleListed (f g)) as -> by exact (f_equal wg_idle Hv2).
  destruct (g_idleListed (f g)); [by rewrite Hw2, Hput|].
  unfold wst_of at 1. cbn [sd_heap sd_waiters sd_slots sd_groups sd_idle set_sd_idle upd_group set_sd_heap].
  f_equal; [|exact (f_equal ws_waiters (eq_trans Hw2 Hput))|exact (f_equal ws_slots (eq_trans Hw2 Hput))|
    exact (f_equal ws_groups (eq_trans Hw2 Hput))|by rewrite Hi2].
  pose proof (wview_upd s2 gid (set_g_idleListed true) g2 Hg2) as Hu. cbn in Hu. rewrite Hu.
  assert (wview <$> sd_heap s2 = <[gid := wview (f g)]> (wview <$> sd_heap s)) as ->
    by exact (f_equal ws_heap (eq_trans Hw2 Hput)).
  rewrite insert_insert_eq. f_equal.
  change (wg_list (wview g2) = wg_list (wview (f g))). by rewrite Hv2.
Qed.

Lemma upd_id gid s : upd_group gid (fun g => g) s = s.
Proof.
  unfold upd_group. rewrite alter_id by done. by destruct s.
Qed.

Lemma markBusy_view s gid g :
  sd_heap s !! gid = Some g -> wst_of (markGroupBusyLocked gid s) = ws_busy gid (wview g) (wst_of s).
Proof. intros Hg. pose proof (busy_sim s gid (fun g => g) g Hg eq_refl) as H. by rewrite upd_id in H. Qed.

Lemma markIdle_view s gid g now :
  sd_heap s !! gid = Some g -> wst_of (markGroupIdleLocked gid now s) = ws_rest gid (wview g) (wst_of s).
Proof. intros Hg. pose proof (rest_sim s gid (fun g => g) g now Hg) as H. by rewrite upd_id in H. Qed.

Lemma upd_view s gid (f : group -> group) g :
  sd_heap s !! gid = Some g -> wst_of (upd_group gid f s) = ws_put gid (wview (f g)) (wst_of s).
Proof. intros Hg. unfold wst_of, ws_put. cbn [ws_heap]. f_equal. by apply wview_upd. Qed.

Lemma busy_put gid v v' w : ws_busy gid v (ws_put gid v' w) = ws_busy gid v w.
Proof. unfold ws_busy, ws_put. cbn. by destruct (wg_idle v); rewrite insert_insert_eq. Qed.
Lemma rest_put gid v v' w : ws_rest gid v (ws_put gid v' w) = ws_rest gid v w.
Proof. unfold ws_rest, ws_put. cbn. by destruct (_ || wg_idle v); rewrite insert_insert_eq. Qed.

(** ** Groups *)

Lemma adopt_view p g now : wview (adoptPacingLocked p g now).2 = wview g.
Proof.
  unfold adoptPacingLocked. destruct (pacing_take p (g_key g)) as [p' [st|]]; [|done].
  cbv zeta. by destruct (After _ _).
Qed.

Definition live_group (s : sched) (key : string) (gid : nat) : Prop :=
  sd_groups s !! key = Some gid /\ exists g, sd_heap s !! gid = Some g /\ g_retired g = false.

Lemma fresh_group (s : sched) : sd_heap s !! fresh (dom (sd_heap s)) = None.
Proof. apply not_elem_of_dom, is_fresh. Qed.

Lemma group_live s key gid :
  winv (wst_of s) -> sd_groups s !! key = Some gid -> live_group s key gid.
Proof.
  intros Hw Hk. destruct (wi_groups _ Hw key gid Hk) as (v & Hv & Hvk).
  apply ws_heap_inv in Hv as (g & Hg & ->). split; [done|]. exists g. split; [done|].
  apply (wo_live _ _ _ (wi_group _ Hw _ _ (ws_heap_lookup _ _ _ Hg))). cbn. cbn in Hvk. by rewrite Hvk.
Qed.

Lemma groupForLocked_sim s key maxConcurrent applyCap now :
  winv (wst_of s) ->
  let '(s', gid) := groupForLocked s key maxConcurrent applyCap now in
  rtc wstep (wst_of s) (wst_of s') /\ live_group s' key gid.
Proof.
  intros Hw. unfold groupForLocked. destruct (sd_groups s !! key) as [gid|] eqn:Ek.
  - pose proof (group_live s key gid Hw Ek) as Hl. destruct (_ && _); [|by split].
    assert (quiet s (upd_group gid (set_g_maxConcurrent maxConcurrent) s)) as Hq by (by apply upd_group_quiet).
    rewrite Hq. split; [done|]. apply group_live; [by rewrite Hq|done].
  - pose proof (adopt_view (sd_pacing s) (newGroup key maxConcurrent) now) as Hv.
    destruct (adoptPacingLocked _ _ now) as [pacing g]. cbn [snd] in Hv.
    set (gid := fresh (dom (sd_heap s))). pose proof (fresh_group s) as Hf. fold gid in Hf.
    unfold idlePushLocked.
    assert (Hg : forall v, group_of (set_sd_groups v (set_sd_heap (<[gid := g]> (sd_heap s)) (set_sd_pacing pacing s))) gid = g).
    { intros v. apply group_of_lookup. cbn. by rewrite lookup_insert_eq. }
    rewrite Hg. assert (g_idleListed g = false) as -> by exact (f_equal wg_idle Hv).
    split.
    + apply rtc_once. unfold wst_of. cbn.
      replace (wview <$> alter (set_g_idleListed true) gid (<[gid := g]> (sd_heap s)))
        with (<[gid := WGroup key false 0 [] true]> (wview <$> sd_heap s)).
      * apply (ws_create (wst_of s) key gid); [|done]. cbn. by rewrite lookup_fmap, Hf.
      * rewrite alter_insert_eq, fmap_insert. f_equal.
        change (wview (set_g_idleListed true g)) with (wg_list (wview g)). by rewrite Hv.
    + split; cbn; [by rewrite lookup_insert_eq|].
      exists (set_g_idleListed true g). rewrite lookup_alter_eq, lookup_insert_eq. split; [done|].
      exact (f_equal wg_retired Hv).
Qed.

Lemma groupForLocked_mapped s key maxConcurrent applyCap now k gid :
  sd_groups s !! k = Some gid -> sd_groups (groupForLocked s key maxConcurrent applyCap now).1 !! k = Some gid.
Proof.
  intros Hk. unfold groupForLocked. destruct (sd_groups s !! key) as [g|] eqn:E.
  - by destruct (_ && _).
  - destruct (adoptPacingLocked _ _ _). unfold idlePushLocked. cbn [fst].
    set (m := <[key := _]> (sd_groups s)). assert (m !! k = Some gid) as Hm.
    { unfold m. rewrite lookup_insert_ne; [done|]. intros ->. congruence. }
    destruct (g_idleListed _); exact Hm.
Qed.

(** ** Eviction *)

Lemma upd_index_quiet iid f s : quiet s (upd_index iid f s).
Proof. done. Qed.

Lemma unlink_quiet iid gid s : quiet s (unlinkLocked iid gid s).
Proof. unfold unlinkLocked. by case_bool_decide. Qed.

Lemma detach_quiet gid s : quiet s (detachProviderLocked gid s).
Proof.
  unfold detachProviderLocked. destruct (g_providerIdx _) as [iid|]; [|done].
  set (s1 := upd_group gid _ s). assert (quiet s s1) as H1 by (by apply upd_group_quiet).
  pose proof (unlink_quiet iid gid s1) as H2.
  destruct (_ && _); (transitivity s1; [done|done]).
Qed.

Lemma attribute_quiet gid provider s : quiet s (attributeProviderLocked gid provider s).
Proof.
  unfold attributeProviderLocked. destruct (_ || _); [done|].
  destruct (sd_providerGroups s !! provider) as [iid|]; cbv zeta.
  - set (s1 := upd_group gid _ s). assert (quiet s s1) as H1 by (by apply upd_group_quiet).
    transitivity s1; [done|]. unfold linkLocked. destruct (g_hasQueued _); by case_bool_decide.
  - set (iid := fresh _). set (s0 := set_sd_providerGroups _ _).
    set (s1 := upd_group gid _ s0). assert (quiet s0 s1) as H1 by (by apply upd_group_quiet).
    transitivity s0; [done|]. transitivity s1; [done|].
    unfold linkLocked. destruct (g_hasQueued _); by case_bool_decide.
Qed.

Lemma upd_quiet_lookup s gid (f : group -> group) g :
  sd_heap s !! gid = Some g -> (forall g, wview (f g) = wview g) ->
  exists g', sd_heap (upd_group gid f s) !! gid = Some g' /\ wview g' = wview g.
Proof. intros Hg Hf. exists (f g). split; [by apply alter_lookup|done]. Qed.

Lemma quiet_lookup s s' gid g :
  quiet s s' -> sd_heap s !! gid = Some g -> exists g', sd_heap s' !! gid = Some g' /\ wview g' = wview g.
Proof.
  intros Hq Hg. pose proof (ws_heap_lookup s gid g Hg) as Hv. rewrite <- Hq in Hv.
  apply ws_heap_inv in Hv as (g' & Hg' & Hv). by exists g'.
Qed.

Lemma quiet_live s s' key gid : quiet s s' -> live_group s key gid -> live_group s' key gid.
Proof.
  intros Hq (Hk & g & Hg & Hr). split; [by rewrite (f_equal ws_groups Hq : sd_groups _ = sd_groups _)|].
  destruct (quiet_lookup s s' gid g Hq Hg) as (g' & Hg' & Hv). exists g'. split; [done|].
  by rewrite (f_equal wg_retired Hv : g_retired g' = g_retired g).
Qed.

Lemma evict_sim s gid rest :
  winv (wst_of s) -> sd_idle s = gid :: rest ->
  exists s1, popIdleGroupLocked s = (s1, Some gid) /\
    (evictIdleGroupLocked gid s1).2 = true /\
    wstep (wst_of s) (wst_of (evictIdleGroupLocked gid s1).1) /\
    sd_groups (evictIdleGroupLocked gid s1).1 = delete (g_key (group_of s gid)) (sd_groups s) /\
    sd_idle (evictIdleGroupLocked gid s1).1 = rest /\
    sd_groupCap (evictIdleGroupLocked gid s1).1 = sd_groupCap s /\
    sd_groups s !! g_key (group_of s gid) = Some gid.
Proof.
  intros Hw Hi. assert (gid ∈ sd_idle s) as Hin by (rewrite Hi; by left).
  destruct (wi_idle_heap _ Hw gid Hin) as [v Hv]. pose proof Hv as Hv0.
  apply ws_heap_inv in Hv as (g & Hg & ->).
  pose proof (wi_group _ Hw _ _ Hv0) as Hok. pose proof (proj2 (wo_idle _ _ _ Hok) Hin) as Hil.
  destruct (proj1 (wo_listed _ _ _ Hok) Hil) as (Hr & Hz & Hq).
  pose proof (proj1 (wo_live _ _ _ Hok) Hr) as Hm. cbn in Hil, Hr, Hz, Hq, Hm.
  set (s1 := set_sd_idle (seq_remove (sd_idle s) gid) (upd_group gid (set_g_idleListed false) s)).
  exists s1. split.
  { unfold popIdleGroupLocked, idleUnlinkLocked. by rewrite Hi, (group_of_lookup _ _ _ Hg), Hil, <- Hi. }
  assert (sd_heap s1 !! gid = Some (set_g_idleListed false g)) as Hg1 by (by apply alter_lookup).
  unfold evictIdleGroupLocked. rewrite (group_of_lookup _ _ _ Hg1).
  cbn [g_retired g_inFlight g_key set_g_idleListed]. rewrite Hr, Hz.
  assert (queue_live (set_g_idleListed false g) = 0) as -> by (unfold queue_live; cbn; by rewrite Hq).
  cbn [orb negb Z.eqb].
  set (s2 := upd_group gid (set_g_retired true) s1).
  set (s3 := upd_group gid _ (clearGateWaitingLocked gid s2)).
  assert (quiet s2 s3) as H3.
  { transitivity (clearGateWaitingLocked gid s2).
    - apply frame_quiet, clearGateWaiting_frame.
    - by apply upd_group_quiet. }
  assert (Hg2 : sd_heap s2 !! gid = Some (set_g_retired true (set_g_idleListed false g)))
    by (by apply alter_lookup).
  destruct (quiet_lookup s2 s3 gid _ H3 Hg2) as (g3 & Hg3 & Hv3).
  assert (Hunl : idleUnlinkLocked gid s3 = s3).
  { unfold idleUnlinkLocked. rewrite (group_of_lookup _ _ _ Hg3).
    assert (g_idleListed g3 = false) as -> by exact (f_equal wg_idle Hv3). done. }
  rewrite Hunl.
  assert (sd_groups s3 = sd_groups s) as Hgr3.
  { exact (f_equal ws_groups H3). }
  assert (sd_groupCap s3 = sd_groupCap s) as Hcap3.
  { transitivity (sd_groupCap (clearGateWaitingLocked gid s2)); [done|].
    exact (fr_cap _ _ (clearGateWaiting_frame gid s2)). }
  rewrite Hgr3, bool_decide_eq_true_2 by done. cbn [negb].
  set (s4 := set_sd_groups (delete (g_key g) (sd_groups s)) s3).
  pose proof (detach_quiet gid s4) as H5.
  assert (Hcap5 : sd_groupCap (detachProviderLocked gid s4) = sd_groupCap s4).
  { unfold detachProviderLocked, unlinkLocked. destruct (g_providerIdx _); [|done].
    by repeat case_match. }
  set (s5 := detachProviderLocked gid s4) in *.
  set (s6 := if _ : bool then set_sd_pacing _ s5 else s5).
  assert (quiet s5 s6) as H6 by (unfold s6; by case_match).
  assert (sd_groupCap s6 = sd_groupCap s5) as Hcap6 by (unfold s6; by case_match).
  cbn [fst snd].
  assert (Hs4 : wst_of s4 = WState (<[gid := wg_retire (wview g)]> (ws_heap (wst_of s)))
    (ws_waiters (wst_of s)) (ws_slots (wst_of s)) (delete (wg_key (wview g)) (ws_groups (wst_of s)))
    (seq_remove (ws_idle (wst_of s)) gid)).
  { unfold s4. unfold wst_of at 1. cbn [sd_heap sd_waiters sd_slots sd_groups sd_idle set_sd_groups].
    pose proof (f_equal ws_heap H3) as E1. pose proof (f_equal ws_waiters H3) as E2.
    pose proof (f_equal ws_slots H3) as E3. pose proof (f_equal ws_idle H3) as E4.
    cbn [wst_of ws_heap ws_waiters ws_slots ws_idle] in E1, E2, E3, E4. rewrite E1, E2, E3, E4.
    f_equal. unfold s2.
    rewrite (wview_upd s1 gid (set_g_retired true) _ Hg1).
    change (sd_heap s1) with (sd_heap (upd_group gid (set_g_idleListed false) s)).
    rewrite (wview_upd s gid (set_g_idleListed false) g Hg), insert_insert_eq. done. }
  split_and!; try done.
  - rewrite H6, H5, Hs4. apply ws_evict; [cbn; by rewrite Hi|done].
  - rewrite (group_of_lookup _ _ _ Hg).
    exact (f_equal ws_groups (eq_trans (eq_trans H6 H5) Hs4)).
  - transitivity (seq_remove (sd_idle s) gid); [exact (f_equal ws_idle (eq_trans (eq_trans H6 H5) Hs4))|].
    rewrite Hi. unfold seq_remove. rewrite filter_cons_False by tauto. apply seq_remove_notin.
    pose proof (wi_idle _ Hw) as Hnd. cbn in Hnd. rewrite Hi in Hnd. by apply NoDup_cons in Hnd as [? _].
  - rewrite Hcap6, Hcap5. exact Hcap3.
  - by rewrite (group_of_lookup _ _ _ Hg).
Qed.

(** Room is made one eviction at a time; what stops it short is that every group
    has work. *)
Lemma makeRoom_sim fuel : forall s,
  winv (wst_of s) -> (length (sd_idle s) < fuel)%nat ->
  let s' := makeGroupRoom_loop fuel s in
  rtc wstep (wst_of s) (wst_of s') /\ sd_groupCap s' = sd_groupCap s /\
  sd_groups s' ⊆ sd_groups s /\
  (forall key gid, sd_groups s !! key = Some gid -> gid ∉ sd_idle s -> sd_groups s' !! key = Some gid) /\
  (Z.of_nat (size (sd_groups s')) < sd_groupCap s \/ sd_idle s' = []).
Proof.
  induction fuel as [|fuel IH]; intros s Hw Hf; [lia|]. cbn [makeGroupRoom_loop].
  destruct (Z.ltb_spec (Z.of_nat (size (sd_groups s))) (sd_groupCap s)) as [Hlt|Hge].
  { split_and!; try done. by left. }
  destruct (sd_idle s) as [|gid rest] eqn:Ei.
  { unfold popIdleGroupLocked. rewrite Ei. split_and!; try done. by right. }
  destruct (evict_sim s gid rest Hw Ei) as (s1 & -> & _ & Hst & Hg & Hi & Hc & Hm).
  set (s2 := (evictIdleGroupLocked gid s1).1) in *.
  assert (winv (wst_of s2)) as Hw2 by (by eapply wstep_inv).
  destruct (IH s2 Hw2) as (H1 & H2 & H3 & H4 & H5); [rewrite Hi; cbn in Hf; lia|].
  rewrite Hc in *. split_and!.
  - by eapply rtc_l.
  - done.
  - etransitivity; [done|]. rewrite Hg. apply delete_subseteq.
  - intros key g Hk [Hne Hn]%not_elem_of_cons. apply H4; [|by rewrite Hi].
    rewrite Hg, lookup_delete_ne; [done|]. intros He. rewrite He, Hk in Hm. congruence.
  - done.
Qed.

Lemma acquire_lookup_sim s key maxConcurrent provider now :
  winv (wst_of s) ->
  let '(s', r) := acquire_lookup s key maxConcurrent provider now in
  rtc wstep (wst_of s) (wst_of s') /\
  (forall k gid, sd_groups s !! k = Some gid -> gid ∉ sd_idle s -> sd_groups s' !! k = Some gid) /\
  match r with
  | Ok gid => live_group s' key gid
  | Err e => e = ErrGroupLimit /\ sd_groups s !! key = None /\
      sd_groupCap s <= Z.of_nat (size (sd_groups s')) /\ sd_idle s' = []
  end.
Proof.
  intros Hw. unfold acquire_lookup.
  set (q := if bool_decide _ then _ else (s, false)).
  assert (Hq : rtc wstep (wst_of s) (wst_of q.1) /\
    (forall k gid, sd_groups s !! k = Some gid -> gid ∉ sd_idle s -> sd_groups q.1 !! k = Some gid) /\
    (q.2 = true -> sd_groups s !! key = None /\
       sd_groupCap s <= Z.of_nat (size (sd_groups q.1)) /\ sd_idle q.1 = [])).
  { unfold q. case_bool_decide as Hk; [|by split_and!].
    destruct (makeRoom_sim (S (length (sd_idle s))) s Hw ltac:(lia)) as (H1 & H2 & H3 & H4 & H5).
    fold (makeGroupRoomLocked s) in *. cbn [fst snd]. rewrite H2. split_and!; try done.
    intros Hle%Z.leb_le. split_and!; [done|done|]. destruct H5; [lia|done]. }
  destruct q as [s1 full]. cbn [fst snd] in Hq. destruct Hq as (H1 & H2 & H3).
  destruct full; [split_and!; try done; by apply H3|].
  pose proof (wsteps_inv _ _ Hw H1) as Hw1.
  pose proof (groupForLocked_sim s1 key maxConcurrent true now Hw1) as HG.
  pose proof (groupForLocked_mapped s1 key maxConcurrent true now) as HM.
  destruct (groupForLocked s1 key maxConcurrent true now) as [s2 gid]. destruct HG as [HG Hlive].
  pose proof (attribute_quiet gid provider s2) as Ha.
  split_and!.
  - rewrite Ha. by etransitivity.
  - intros k g Hk Hn. rewrite (f_equal ws_groups Ha : sd_groups _ = sd_groups _).
    apply HM. by apply H2.
  - by eapply quiet_live.
Qed.
