(* ===== verification/SchedSteps.v ===== *)
(** Each critical section of the scheduler is a run of the abstract machine. *)

From stdpp Require Import relations.
From S2P Require Import Prelude GoTime GoFloat WakeTimer LinkedList Ramp Pacing Drain Hold HoldQueue Gate Sched Admission Send Drains SchedSpec SchedRun.

(** ** Simulation *)

Definition sim (s s' : sched) : Prop :=
  winv (wst_of s) -> rtc wstep (wst_of s) (wst_of s').

Lemma quiet_sim s s' : quiet s s' -> sim s s'.
Proof. intros Hq _. by rewrite Hq. Qed.
#[export] Instance sim_refl : Reflexive sim.
Proof. by intros s Hw. Qed.
#[export] Instance sim_trans : Transitive sim.
Proof.
  intros s1 s2 s3 H1 H2 Hw. etransitivity; [by apply H1|]. apply H2. eapply wsteps_inv; [done|by apply H1].
Qed.
Lemma quiet_sim_l s s1 s2 : quiet s s1 -> sim s1 s2 -> sim s s2.
Proof. intros H1 H2. transitivity s1; [by apply quiet_sim|done]. Qed.
Lemma quiet_sim_r s s1 s2 : sim s s1 -> quiet s1 s2 -> sim s s2.
Proof. intros H1 H2. transitivity s1; [done|by apply quiet_sim]. Qed.

Lemma quiet_winv s s' : quiet s s' -> winv (wst_of s) -> winv (wst_of s').
Proof. intros Hq. by rewrite Hq. Qed.

Lemma waiter_lookup s wid w :
  sd_waiters s !! wid = Some w -> ws_waiters (wst_of s) !! wid = Some (waiter_view w).
Proof. intros H. cbn. by rewrite lookup_fmap, H. Qed.
Lemma waiter_inv s wid p :
  ws_waiters (wst_of s) !! wid = Some p -> exists w, sd_waiters s !! wid = Some w /\ p = waiter_view w.
Proof. cbn. rewrite lookup_fmap. destruct (sd_waiters s !! wid); cbn; [|done]. intros [= <-]. by eexists. Qed.
Lemma waiter_of_lookup s wid w : sd_waiters s !! wid = Some w -> waiter_of s wid = w.
Proof. intros H. unfold waiter_of. by rewrite H. Qed.

Lemma waiter_group s wid w :
  winv (wst_of s) -> sd_waiters s !! wid = Some w -> exists g, sd_heap s !! w_group w = Some g.
Proof.
  intros Hw Hwt. destruct (wi_waiters _ Hw _ _ (waiter_lookup _ _ _ Hwt)) as [v Hv].
  apply ws_heap_inv in Hv as (g & Hg & _). by exists g.
Qed.

Lemma queue_granted s gid g wid w :
  winv (wst_of s) -> sd_heap s !! gid = Some g -> sd_waiters s !! wid = Some w -> w_group w = gid ->
  w_granted w = negb (bool_decide (wid ∈ g_queue g)).
Proof.
  intros Hw Hg Hwt Hgr. pose proof (wo_queue _ _ _ (wi_group _ Hw _ _ (ws_heap_lookup _ _ _ Hg)) wid) as Hq.
  rewrite (waiter_lookup _ _ _ Hwt) in Hq. unfold waiter_view in Hq. cbn in Hq.
  case_bool_decide as Hin; cbn [negb].
  - apply Hq in Hin. congruence.
  - destruct (w_granted w) eqn:E; [done|]. exfalso. apply Hin, Hq. by rewrite Hgr.
Qed.

Lemma alter_quiet_waiter wid (f : waiter -> waiter) s :
  (forall w, waiter_view (f w) = waiter_view w) ->
  quiet s (set_sd_waiters (alter f wid (sd_waiters s)) s).
Proof.
  intros Hf. unfold quiet, wst_of. cbn. f_equal. apply map_eq. intros j. rewrite !lookup_fmap.
  destruct (decide (wid = j)) as [<-|Hne].
  - rewrite lookup_alter_eq. destruct (sd_waiters s !! wid); cbn; [by rewrite Hf|done].
  - by rewrite lookup_alter_ne.
Qed.

Lemma admit_quiet s gid now provider est : quiet s (admitLocked s gid now provider est).1.1.1.1.
Proof. apply frame_quiet, admitLocked_frame. Qed.

(** ** Grants *)

Lemma grant_sim gid wid lease s g :
  winv (wst_of s) -> sd_heap s !! gid = Some g -> wid ∈ g_queue g ->
  wstep (wst_of s) (wst_of (grant gid wid lease s)).
Proof.
  intros Hw Hg Hin. pose proof (ws_heap_lookup _ _ _ Hg) as Hv.
  pose proof (proj1 (wo_queue _ _ _ (wi_group _ Hw _ _ Hv) wid) Hin) as Hwt.
  apply waiter_inv in Hwt as (w & Hwt & Hvw).
  replace (wst_of (grant gid wid lease s)) with
    (ws_set_waiters (<[wid := (gid, true)]> (ws_waiters (wst_of s)))
       (ws_put gid (wg_take 1 (wg_setq (seq_remove (wg_queue (wview g)) wid) (wview g))) (wst_of s)));
    [by apply ws_grant|].
  unfold grant, ws_set_waiters, ws_put, wst_of. cbn [ws_heap ws_waiters ws_slots ws_groups ws_idle]. f_equal.
  - symmetry. exact (wview_upd (set_sd_waiters _ s) gid _ g Hg).
  - cbn. apply map_eq. intros j. rewrite lookup_fmap.
    destruct (decide (wid = j)) as [<-|Hne].
    + rewrite lookup_insert_eq, lookup_alter_eq, Hwt. cbn. unfold waiter_view in *. cbn. congruence.
    + by rewrite lookup_insert_ne, lookup_alter_ne, lookup_fmap.
Qed.

Lemma quiet_queue s s' gid g : quiet s s' -> sd_heap s !! gid = Some g ->
  exists g', sd_heap s' !! gid = Some g' /\ g_queue g' = g_queue g.
Proof.
  intros Hq Hg. destruct (quiet_lookup s s' gid g Hq Hg) as (g' & Hg' & Hv). exists g'.
  split; [done|]. exact (f_equal wg_queue Hv).
Qed.

Lemma drain_loop_sim gid budget cancelled now nodes : forall s granted g,
  winv (wst_of s) -> sd_heap s !! gid = Some g -> NoDup nodes ->
  (forall wid, wid ∈ nodes -> wid ∈ g_queue g) ->
  rtc wstep (wst_of s) (wst_of (drain_loop s gid budget cancelled now nodes granted).1.1.1).
Proof.
  induction nodes as [|wid nodes IH]; intros s granted g Hw Hg Hnd Hin; cbn [drain_loop]; [done|].
  apply NoDup_cons in Hnd as [Hwid Hnd].
  destruct (_ && _); [done|]. destruct (_ || _); [done|].
  destruct (cancelled wid); [apply (IH s granted g); try done; intros; apply Hin; by right|].
  destruct (sched_matchingHold s now (waiter_of s wid));
    [apply (IH s granted g); try done; intros; apply Hin; by right|].
  set (provider := w_provider _). set (est := w_estTokens _).
  pose proof (admit_quiet s gid now provider est) as Hq.
  destruct (admitLocked s gid now provider est) as [[[[s1 ok] lease] wait] gateBlocked]. cbn [fst] in Hq.
  destruct ok; cbn [negb].
  - destruct (quiet_queue s s1 gid g Hq Hg) as (g1 & Hg1 & Hg1q).
    pose proof (quiet_winv _ _ Hq Hw) as Hw1.
    assert (wstep (wst_of s) (wst_of (grant gid wid lease s1))) as Hst.
    { rewrite <- Hq. apply (grant_sim gid wid lease s1 g1); [done|done|]. rewrite Hg1q. apply Hin. by left. }
    eapply rtc_l; [exact Hst|].
    eapply (IH _ _ (set_g_inFlight (g_inFlight g1 + 1) (set_g_queue (seq_remove (g_queue g1) wid) g1))).
    + exact (wstep_inv _ _ Hw Hst).
    + exact (alter_lookup (set_sd_waiters _ s1) gid _ g1 Hg1).
    + done.
    + intros x Hx. cbn. apply elem_of_seq_remove. split; [rewrite Hg1q; apply Hin; by right|].
      intros ->. done.
  - cbn [fst]. case_match; [|by rewrite Hq]. unfold sched_armThrottleDrain.
    assert (quiet s (set_sd_gates (armThrottleDrain (sd_gates s1) provider wait now) s1)) as ->; [|done].
    transitivity s1; [done|done].
Qed.

Lemma drainLimited_sim s gid budget cancelled now : sim s (drainLimited s gid budget cancelled now).1.
Proof.
  intros Hw. unfold drainLimited. destruct (sd_heap s !! gid) as [g|] eqn:Eg.
  - rewrite (group_of_lookup _ _ _ Eg).
    pose proof (drain_loop_sim gid budget cancelled now (g_queue g) s [] g Hw Eg
      (wo_nodup _ _ _ (wi_group _ Hw _ _ (ws_heap_lookup _ _ _ Eg))) ltac:(done)) as Hd.
    destruct (drain_loop s gid budget cancelled now (g_queue g) []) as [[[s1 granted] refused] bstop].
    cbn [fst] in *.
    set (s2 := match granted with [] => s1 | _ => _ end).
    assert (frame s1 s2) as H2.
    { unfold s2. destruct granted; [done|].
      etransitivity; [apply syncQueue_frame|apply armRampStep_frame]. }
    set (s3 := if _ && _ then clearGateWaitingLocked gid s2 else s2).
    assert (frame s1 s3) as H3.
    { transitivity s2; [done|]. unfold s3. case_match; [apply clearGateWaiting_frame|done]. }
    by rewrite (frame_quiet _ _ H3).
  - assert (g_queue (group_of s gid) = []) as -> by (unfold group_of; by rewrite Eg).
    cbn [drain_loop negb andb fst].
    by rewrite (frame_quiet _ _ (clearGateWaiting_frame gid s)).
Qed.

(** ** Acquire *)

Lemma fresh_slot (s : sched) : ws_slots (wst_of s) !! fresh (dom (sd_slots s)) = None.
Proof.
  cbn. rewrite lookup_fmap. by rewrite (proj1 (not_elem_of_dom (sd_slots s) _) (is_fresh _)).
Qed.

Lemma slotRelease_view gid lease s :
  wst_of (slotRelease gid lease s).1 =
    ws_set_slots (<[fresh (dom (sd_slots s)) := gid]> (ws_slots (wst_of s))) (wst_of s).
Proof. unfold slotRelease, wst_of, ws_set_slots. cbn. by rewrite fmap_insert. Qed.

Lemma acquire_fast_sim s gid hooks now g :
  sd_heap s !! gid = Some g -> g_retired g = false ->
  let '(s', lease) := acquire_fast s gid hooks now in
  match lease with
  | Some lease => wstep (wst_of s) (wst_of (slotRelease gid lease s').1)
  | None => quiet s s'
  end.
Proof.
  intros Hg Hr. unfold acquire_fast. destruct (_ && _); [|done].
  pose proof (admit_quiet s gid now (wh_Provider hooks) (wh_EstTokens hooks)) as Hq.
  destruct (admitLocked _ _ _ _ _) as [[[[s1 ok] lease] wait] gateBlocked]. cbn [fst] in Hq.
  destruct ok.
  - destruct (quiet_lookup s s1 gid g Hq Hg) as (g1 & Hg1 & Hv1).
    rewrite slotRelease_view.
    set (s2 := markGroupBusyLocked gid _).
    assert (Hb : wst_of s2 = ws_busy gid (wg_take 1 (wview g1)) (wst_of s1))
      by exact (busy_sim s1 gid (fun g => set_g_inFlight (g_inFlight g + 1) g) g1 Hg1 eq_refl).
    pose proof (fresh_slot s2) as Hf. set (sid := fresh (dom (sd_slots s2))) in *.
    rewrite Hv1, Hq in Hb. rewrite Hb in *.
    assert (ws_slots (ws_busy gid (wg_take 1 (wview g)) (wst_of s)) = ws_slots (wst_of s)) as Hsl.
    { unfold ws_busy. by case_match. }
    rewrite Hsl in *. apply ws_fast; [by apply ws_heap_lookup|done|done].
  - case_match; [|done]. transitivity s1; [done|done].
Qed.

Lemma acquire_enter_sim s gid hooks enqueued now :
  is_Some (sd_heap s !! gid) -> sim s (acquire_enter s gid hooks enqueued now).1.
Proof.
  intros [g Hg] Hw. unfold acquire_enter. rewrite (group_of_lookup _ _ _ Hg).
  destruct (g_retired g) eqn:Er; [done|].
  pose proof (acquire_fast_sim s gid hooks now g Hg Er) as Hfast.
  destruct (acquire_fast s gid hooks now) as [s1 [lease|]].
  { destruct (slotRelease gid lease s1) as [s2 sid]. by apply rtc_once. }
  destruct (_ && _); [cbn [fst]; by rewrite Hfast|].
  set (wid := fresh _). destruct (acquire_hold s1 wid hooks now) as [holds reserved].
  destruct reserved; cbn [negb fst].
  2: { assert (quiet s (set_sd_holds (put_hold_waiter wid None holds) s1)) as ->; [|done].
       transitivity s1; [done|done]. }
  set (w := if _ : bool then _ else new_waiter s1 gid hooks enqueued).
  assert (Hwv : waiter_view w = (gid, false)) by (unfold w; by destruct (_ && _)).
  set (s2 := set_sd_waiters _ (set_sd_holds holds s1)).
  destruct (quiet_lookup s s1 gid g Hfast Hg) as (g1 & Hg1 & Hv1).
  assert (sd_heap s2 !! gid = Some g1) as Hg2 by done.
  set (s3 := upd_group gid _ s2).
  pose proof (alter_lookup s2 gid (fun g => set_g_queue (seq_push (g_queue g) wid) g) g1 Hg2) as Hg3.
  fold s3 in Hg3.
  pose proof (frame_quiet _ _ (syncQueue_frame gid s3)) as Hq4.
  destruct (quiet_lookup s3 _ gid _ Hq4 Hg3) as (g4 & Hg4 & Hv4).
  rewrite (markBusy_view _ _ _ Hg4), Hv4, Hq4.
  pose proof (upd_view s2 gid (fun g => set_g_queue (seq_push (g_queue g) wid) g) g1 Hg2) as Hu.
  fold s3 in Hu. rewrite Hu, busy_put.
  change (wview (set_g_queue (seq_push (g_queue g1) wid) g1))
    with (wg_setq (seq_push (wg_queue (wview g1)) wid) (wview g1)).
  assert (Hs2 : wst_of s2 = ws_set_waiters (<[wid := (gid, false)]> (ws_waiters (wst_of s))) (wst_of s)).
  { unfold s2, wst_of at 1, ws_set_waiters. cbn [sd_heap sd_waiters sd_slots sd_groups sd_idle set_sd_waiters set_sd_holds].
    rewrite fmap_insert, Hwv. by rewrite <- Hfast. }
  rewrite Hs2, Hv1. apply rtc_once.
  assert (Hcomm : forall v m w, ws_busy gid v (ws_set_waiters m w) = ws_set_waiters m (ws_busy gid v w)).
  { intros. unfold ws_busy, ws_put, ws_set_waiters. by destruct (wg_idle v). }
  rewrite Hcomm. apply ws_enqueue; [by apply ws_heap_lookup|done|].
  rewrite <- Hfast. cbn. rewrite lookup_fmap.
  assert (sd_waiters s1 !! wid = None) as ->; [|done].
  apply not_elem_of_dom. intros Hin. eapply (is_fresh (dom (sd_waiters s1) ∪ dom (hst_waiters (sd_holds s1)))).
  apply elem_of_union. by left.
Qed.

(** ** Leaving the queue *)

Lemma removeWaiter_sim s wid now :
  is_Some (sd_waiters s !! wid) -> sim s (removeWaiter s wid now).1.
Proof.
  intros [w Hwt] Hw. destruct (waiter_group s wid w Hw Hwt) as [g Hg].
  pose proof (queue_granted s (w_group w) g wid w Hw Hg Hwt eq_refl) as Hgr.
  pose proof (wi_group _ Hw _ _ (ws_heap_lookup _ _ _ Hg)) as Hok.
  unfold removeWaiter. rewrite (waiter_of_lookup _ _ _ Hwt), (group_of_lookup _ _ _ Hg).
  set (gid := w_group w) in *. cbn [fst].
  assert (Hview : forall s2 g2, sd_heap s2 !! gid = Some g2 ->
    wst_of (set_sd_waiters (delete wid (sd_waiters (set_sd_holds (put_hold_waiter wid None
      (dropHold (sd_holds (markGroupIdleLocked gid now s2)) wid)) (markGroupIdleLocked gid now s2))))
      (set_sd_holds (put_hold_waiter wid None
      (dropHold (sd_holds (markGroupIdleLocked gid now s2)) wid)) (markGroupIdleLocked gid now s2))) =
    ws_set_waiters (delete wid (ws_waiters (wst_of s2))) (ws_rest gid (wview g2) (wst_of s2))).
  { intros s2 g2 Hg2. rewrite <- (markIdle_view s2 gid g2 now Hg2).
    assert (ws_waiters (wst_of s2) = ws_waiters (wst_of (markGroupIdleLocked gid now s2))) as ->.
    { rewrite (markIdle_view s2 gid g2 now Hg2). unfold ws_rest. by case_match. }
    unfold wst_of, ws_set_waiters. cbn. by rewrite fmap_delete. }
  assert (Hcomm : forall v m w, ws_rest gid v (ws_set_waiters m w) = ws_set_waiters m (ws_rest gid v w)).
  { intros. unfold ws_rest, ws_put, ws_set_waiters. by case_match. }
  apply rtc_once. case_bool_decide as Hin; cbn [negb] in Hgr.
  - set (s1 := upd_group gid _ s).
    pose proof (alter_lookup s gid (fun g => set_g_queue (seq_remove (g_queue g) wid) g) g Hg) as Hg1.
    fold s1 in Hg1.
    pose proof (frame_quiet _ _ (syncQueue_frame gid s1)) as Hq2.
    destruct (quiet_lookup s1 _ gid _ Hq2 Hg1) as (g2 & Hg2 & Hv2).
    rewrite (Hview _ _ Hg2), Hq2, Hv2.
    pose proof (upd_view s gid (fun g => set_g_queue (seq_remove (g_queue g) wid) g) g Hg) as Hu.
    fold s1 in Hu. rewrite Hu, rest_put.
    exact (ws_leave (wst_of s) wid gid (wview g)
      (eq_trans (waiter_lookup _ _ _ Hwt) (f_equal (fun b => Some (gid, b)) Hgr)) (ws_heap_lookup _ _ _ Hg)).
  - assert (ws_waiters (wst_of s) !! wid = Some (gid, true)) as Hvw.
    { rewrite (waiter_lookup _ _ _ Hwt). unfold waiter_view. by rewrite Hgr. }
    set (s1 := set_sd_gates _ s). assert (sd_heap s1 !! gid = Some g) as Hg1 by done.
    set (f := fun g : group => if 0 <? g_inFlight g then set_g_inFlight (g_inFlight g - 1) g else g).
    pose proof (alter_lookup s1 gid f g Hg1) as Hg2.
    rewrite (Hview _ _ Hg2), (upd_view s1 gid f g Hg1), rest_put.
    assert (wview (f g) = wg_take (-1) (wview g)) as ->.
    { pose proof (granted_present _ wid gid Hvw). pose proof (held_nonneg gid (ws_slots (wst_of s))).
      pose proof (wo_inFlight _ _ _ Hok). cbn in *. unfold f.
      destruct (Z.ltb_spec 0 (g_inFlight g)); [done|lia]. }
    exact (ws_abandon (wst_of s) wid gid (wview g) Hvw (ws_heap_lookup _ _ _ Hg)).
Qed.

Lemma take_grant_sim s wid :
  w_granted (waiter_of s wid) = true -> sim s (take_grant s wid).1.
Proof.
  intros Hgr Hw. destruct (sd_waiters s !! wid) as [w|] eqn:Hwt.
  2: { unfold waiter_of in Hgr. by rewrite Hwt in Hgr. }
  unfold take_grant. rewrite (waiter_of_lookup _ _ _ Hwt) in *.
  set (s1 := set_sd_waiters _ _). rewrite slotRelease_view. apply rtc_once.
  assert (wst_of s1 = ws_set_waiters (delete wid (ws_waiters (wst_of s))) (wst_of s)) as Hs1.
  { unfold s1, wst_of, ws_set_waiters. cbn. by rewrite fmap_delete. }
  pose proof (fresh_slot s1) as Hf. rewrite Hs1 in *.
  apply (ws_take (wst_of s) wid (w_group w)); [|done].
  rewrite (waiter_lookup _ _ _ Hwt). unfold waiter_view. by rewrite Hgr.
Qed.

Lemma acquire_turn_sim s wid deadline now :
  is_Some (sd_waiters s !! wid) -> sim s (acquire_turn s wid deadline now).1.1.
Proof.
  intros Hs. unfold acquire_turn. destruct (queueDrained _ _ _ _ _).
  { pose proof (removeWaiter_sim s wid now Hs) as H. by destruct (removeWaiter s wid now). }
  destruct (sched_matchingHold s now (waiter_of s wid)) as [h|].
  - set (s1 := if _ && _ then _ else s).
    assert (quiet s s1) as H1 by (unfold s1; case_match; [by apply alter_quiet_waiter|done]).
    destruct (IsZero (hs_until h)); [|destruct (_ <=? 0)]; apply quiet_sim; cbn [fst];
      (transitivity s1; [done|done]).
  - destruct (syncUnhold (sd_holds s) now wid) as [holds held].
    set (s1 := set_sd_holds holds s). destruct held; [by apply quiet_sim|].
    set (q := if IsZero _ then (s1, deadline) else _).
    assert (quiet s q.1) as H1.
    { unfold q. case_match; [done|]. cbn [fst]. transitivity s1; [done|]. by apply alter_quiet_waiter. }
    destruct q as [s2 deadline2]. by apply quiet_sim.
Qed.

(** ** Release *)

Lemma settle_slot_quiet s sid actual now : quiet s (settle_slot s sid actual now).
Proof.
  unfold settle_slot. destruct (sd_slots s !! sid) as [sl|] eqn:E; [|done].
  destruct (sl_settled sl); [done|]. unfold quiet, wst_of. cbn. f_equal.
  rewrite fmap_insert. apply insert_id. by rewrite lookup_fmap, E.
Qed.

Lemma release_slot_sim s sid now : sim s (release_slot s sid now).
Proof.
  intros Hw. unfold release_slot. destruct (sd_slots s !! sid) as [sl|] eqn:Es; [|done].
  destruct (sl_settled sl); [|done].
  assert (ws_slots (wst_of s) !! sid = Some (sl_group sl)) as Hs by (cbn; by rewrite lookup_fmap, Es).
  destruct (wi_slots _ Hw _ _ Hs) as [v Hv]. pose proof Hv as Hv0.
  apply ws_heap_inv in Hv as (g & Hg & ->). set (gid := sl_group sl) in *.
  unfold group_release. set (s1 := set_sd_slots _ s).
  set (f := fun g : group => if 0 <? g_inFlight g then set_g_inFlight (g_inFlight g - 1) g else g).
  assert (sd_heap s1 !! gid = Some g) as Hg1 by done.
  rewrite (rest_sim s1 gid f g now Hg1).
  assert (wview (f g) = wg_take (-1) (wview g)) as ->.
  { pose proof (slot_present _ sid gid Hs). pose proof (granted_nonneg gid (ws_waiters (wst_of s))).
    pose proof (wo_inFlight _ _ _ (wi_group _ Hw _ _ Hv0)). cbn in *. unfold f.
    destruct (Z.ltb_spec 0 (g_inFlight g)); [done|lia]. }
  assert (wst_of s1 = ws_set_slots (delete sid (ws_slots (wst_of s))) (wst_of s)) as ->.
  { unfold s1, wst_of, ws_set_slots. cbn. by rewrite fmap_delete. }
  assert (forall v m w, ws_rest gid v (ws_set_slots m w) = ws_set_slots m (ws_rest gid v w)) as ->.
  { intros. unfold ws_rest, ws_put, ws_set_slots. by case_match. }
  apply rtc_once, ws_release; done.
Qed.

(** ** The send gate *)

Lemma armPacingLater_quiet gid d now s : quiet s (armPacingLaterLocked gid d now s).
Proof.
  unfold armPacingLaterLocked. destruct (0 <? d); [|done]. destruct (After _ _); [|done].
  set (s1 := upd_group gid _ s). assert (quiet s s1) as H1 by (by apply upd_group_quiet).
  transitivity s1; [done|]. apply frame_quiet, clearGateWaiting_frame.
Qed.

Lemma groupFor_sim s key maxConcurrent applyCap now :
  sim s (groupForLocked s key maxConcurrent applyCap now).1.
Proof.
  intros Hw. pose proof (groupForLocked_sim s key maxConcurrent applyCap now Hw) as H.
  destruct (groupForLocked _ _ _ _ _). apply H.
Qed.

Lemma extendWindow_sim s key d claim now : sim s (extendWindow s key d claim now).1.
Proof.
  unfold extendWindow. pose proof (groupFor_sim s key 0 false now) as Hg.
  destruct (groupForLocked s key 0 false now) as [s1 gid].
  pose proof (armPacingLater_quiet gid d now s1) as H2.
  set (s2 := armPacingLaterLocked gid d now s1) in *.
  set (s3 := if _ || _ then _ else s2).
  assert (quiet s2 s3) as H3 by (unfold s3; case_match; [by apply upd_group_quiet|done]).
  eapply quiet_sim_r; [exact Hg|]. transitivity s2; [done|]. transitivity s3; [done|].
  case_match; [by apply upd_group_quiet|done].
Qed.

Lemma BackoffFor_apply_quiet opts gid retryAfter r s : quiet s (BackoffFor_apply opts gid retryAfter r s).1.
Proof. unfold BackoffFor_apply. destruct (backoff_step _ _ _ _ _). by apply upd_group_quiet. Qed.
Lemma EndSend_apply_quiet gid keepSerial s : quiet s (EndSend_apply gid keepSerial s).
Proof. by apply upd_group_quiet. Qed.
Lemma FailSend_apply_quiet opts gid own r now s : quiet s (FailSend_apply opts gid own r now s).
Proof.
  unfold FailSend_apply. set (s1 := if own then _ else s).
  assert (quiet s s1) as H1 by (unfold s1; case_match; [by apply upd_group_quiet|done]).
  set (s2 := upd_group gid (set_g_requestBackoff _) s1).
  assert (quiet s1 s2) as H2 by (by apply upd_group_quiet).
  transitivity s1; [done|]. transitivity s2; [done|].
  etransitivity; [apply armPacingLater_quiet|]. by apply upd_group_quiet.
Qed.

Lemma WaitSend_turn_quiet s c hooks honorHold own now :
  quiet s (WaitSend_turn s c hooks honorHold own now).1.1.
Proof.
  unfold WaitSend_turn. destruct (queueDrained _ _ _ _ _); [done|].
  destruct (if honorHold then _ else None) as [h|].
  - cbv zeta. destruct (IsZero _); [done|]. by destruct (_ <=? 0).
  - cbv zeta. destruct (_ || _).
    + apply upd_group_quiet. intros g. unfold parkSendLocked. by case_match.
    + destruct (_ || _); [done|]. by apply upd_group_quiet.
Qed.

Lemma WaitSend_end_quiet s c : quiet s (WaitSend_end s c).
Proof. unfold WaitSend_end. case_match; [|done]. apply upd_group_quiet. intros g. by case_match. Qed.

(** ** Drains and policy edges *)

Lemma mark_quiet gid now s : quiet s (drainAdmission_mark gid now s).
Proof.
  unfold drainAdmission_mark. case_match; [done|]. apply frame_quiet, markGateWaiting_frame.
Qed.

Lemma fold_quiet {A} (f : sched -> A -> sched) l :
  (forall s a, quiet s (f s a)) -> forall s, quiet s (fold_left f l s).
Proof. intros Hf. induction l as [|a l IH]; intros s; [done|]. cbn. by transitivity (f s a). Qed.
Lemma fold_sim {A} (f : sched -> A -> sched) l :
  (forall s a, sim s (f s a)) -> forall s, sim s (fold_left f l s).
Proof. intros Hf. induction l as [|a l IH]; intros s; [done|]. cbn. by transitivity (f s a). Qed.

Lemma markQueued_quiet provider now s : quiet s (markQueuedProviderGroups provider now s).
Proof.
  unfold markQueuedProviderGroups. destruct (_ !! _) as [iid|]; [|done]. case_match; [done|].
  apply fold_quiet. intros s1 gid. case_match; [done|]. case_match; [|done].
  apply frame_quiet, markGateWaiting_frame.
Qed.

Lemma resetRamps_quiet gids s : quiet s (resetRamps gids s).
Proof. apply fold_quiet. intros. by apply upd_group_quiet. Qed.

Lemma UpdateThrottle_quiet s provider update now : quiet s (sched_UpdateThrottle s provider update now).1.
Proof.
  unfold sched_UpdateThrottle. destruct (UpdateThrottle _ _ _ _) as [[gates changed] rampChanged].
  cbn [fst]. set (s1 := set_sd_gates gates s). assert (quiet s s1) as H1 by done.
  destruct rampChanged; [|done]. unfold resetProviderRamps.
  destruct (_ !! _); [|done]. transitivity s1; [done|apply resetRamps_quiet].
Qed.

Lemma RestoreThrottles_quiet s ts now : quiet s (sched_RestoreThrottles s ts now).
Proof.
  unfold sched_RestoreThrottles. set (s1 := set_sd_gates _ s). assert (quiet s s1) as H1 by done.
  transitivity s1; [done|]. unfold resetAllRamps. apply fold_quiet. intros. apply resetRamps_quiet.
Qed.

Lemma DrainQueue_quiet s scope : quiet s (DrainQueue s scope).1.
Proof. unfold DrainQueue. by destruct (publishDrain _ _). Qed.

(** ** The critical sections as steps *)

(** One section of one goroutine; any number of them interleave at will. A
    caller works on the group it looked up, which may have been retired since. *)
Inductive schedStep (s : sched) : sched -> Prop :=
  | ss_lookup key maxConcurrent provider now :
      schedStep s (acquire_lookup s key maxConcurrent provider now).1
  | ss_enter gid hooks enqueued now :
      is_Some (sd_heap s !! gid) -> schedStep s (acquire_enter s gid hooks enqueued now).1
  | ss_queued wid now : schedStep s (acquire_queued s wid now)
  | ss_turn wid deadline now :
      is_Some (sd_waiters s !! wid) -> schedStep s (acquire_turn s wid deadline now).1.1
  | ss_remove wid now : is_Some (sd_waiters s !! wid) -> schedStep s (removeWaiter s wid now).1
  | ss_take wid : w_granted (waiter_of s wid) = true -> schedStep s (take_grant s wid).1
  | ss_settle sid actual now : schedStep s (settle_slot s sid actual now)
  | ss_release sid now : schedStep s (release_slot s sid now)
  | ss_drain gid budget cancelled now : schedStep s (drainLimited s gid budget cancelled now).1
  | ss_mark gid now : schedStep s (drainAdmission_mark gid now s)
  | ss_markQueued provider now : schedStep s (markQueuedProviderGroups provider now s)
  | ss_snapshot iid : schedStep s (upd_index iid (fun _ => (fairSnapshot (index_of s iid)).1) s)
  | ss_advance iid gid : schedStep s (advanceFair iid gid s)
  | ss_extend key d claim now : schedStep s (extendWindow s key d claim now).1
  | ss_group key now : schedStep s (groupForLocked s key 0 false now).1
  | ss_backoff opts gid retryAfter r : schedStep s (BackoffFor_apply opts gid retryAfter r s).1
  | ss_end gid keepSerial : schedStep s (EndSend_apply gid keepSerial s)
  | ss_fail opts gid own r now : schedStep s (FailSend_apply opts gid own r now s)
  | ss_wait c hooks honorHold own now : schedStep s (WaitSend_turn s c hooks honorHold own now).1.1
  | ss_waitend c : schedStep s (WaitSend_end s c)
  | ss_kick gid : schedStep s (kickSend gid s)
  | ss_throttle provider update now : schedStep s (sched_UpdateThrottle s provider update now).1
  | ss_throttles ts now : schedStep s (sched_RestoreThrottles s ts now)
  | ss_hold h : holdStep (sd_holds s) h -> schedStep s (set_sd_holds h s)
  | ss_options opts : schedStep s (UpdateOptions opts s)
  | ss_drainQueue scope : schedStep s (DrainQueue s scope).1.

Lemma schedStep_sim s s' : schedStep s s' -> sim s s'.
Proof.
  intros []; first
    [ solve [auto using removeWaiter_sim, take_grant_sim, acquire_turn_sim, acquire_enter_sim,
        release_slot_sim, drainLimited_sim, extendWindow_sim, groupFor_sim]
    | apply quiet_sim; solve [done | auto using settle_slot_quiet, mark_quiet, markQueued_quiet,
        BackoffFor_apply_quiet, EndSend_apply_quiet, FailSend_apply_quiet, WaitSend_turn_quiet,
        WaitSend_end_quiet, UpdateThrottle_quiet, RestoreThrottles_quiet, DrainQueue_quiet]
    | idtac ].
  - intros Hw. pose proof (acquire_lookup_sim s key maxConcurrent provider now Hw) as H.
    destruct (acquire_lookup _ _ _ _ _). apply H.
  - apply quiet_sim. unfold acquire_queued. by destruct (sched_matchingHold _ _ _).
  - apply quiet_sim. by apply upd_group_quiet.
Qed.

(** The drains, whole, are runs of steps. *)
Notation schedRun := (rtc schedStep).

Lemma fair_pass_run provider cancelled now groups : forall s i last granted,
  schedRun s (fair_pass s provider cancelled now groups i last granted).1.1.1.
Proof.
  induction groups as [|gid groups IH]; intros s i last granted; cbn [fair_pass]; [done|].
  destruct (_ || _); [apply IH|].
  pose proof (ss_drain s gid 1 cancelled now) as Hd.
  destruct (drainLimited s gid 1 cancelled now) as [s1 new]. cbn [fst] in Hd.
  destruct new; [eapply rtc_l; [exact Hd|apply IH]|].
  destruct (sched_concurrencyFull s1 provider); [by apply rtc_once|]. eapply rtc_l; [exact Hd|apply IH].
Qed.

Lemma fair_passes_run provider cancelled now groups fuel : forall s served s' served',
  fair_passes fuel s provider cancelled now groups served = Some (s', served') -> schedRun s s'.
Proof.
  induction fuel as [|fuel IH]; intros s served s' served'; cbn [fair_passes]; [done|].
  pose proof (fair_pass_run provider cancelled now groups s 0 None 0) as Hp.
  destruct (fair_pass _ _ _ _ _ _ _ _) as [[[s1 last] granted] full]. cbn [fst] in Hp.
  destruct full; [by intros [= <- _]|]. destruct (Nat.eqb granted 0); [by intros [= <- _]|].
  intros H. transitivity s1; [done|]. by eapply IH.
Qed.

Lemma drainProvider_named_run s provider cancelled now s' :
  drainProvider_named s provider cancelled now = Some s' -> schedRun s s'.
Proof.
  unfold drainProvider_named. destruct (_ !! _) as [iid|]; [|by intros [= <-]].
  destruct (_ =? 0); [by intros [= <-]|]. destruct (sched_concurrencyFull _ _); [by intros [= <-]|].
  pose proof (ss_snapshot s iid) as H1. destruct (fairSnapshot _) as [i groups]. cbn [fst] in H1.
  set (s1 := upd_index iid _ s) in *. apply rtc_once in H1.
  destruct groups as [|gid groups]; [by intros [= <-]|].
  destruct (fair_passes _ _ _ _ _ _ _) as [[s2 served]|] eqn:E; [|done].
  pose proof (fair_passes_run _ _ _ _ _ _ _ _ _ E) as H2.
  assert (schedRun s s2) as H3 by (by transitivity s1).
  destruct served as [n|]; [|by intros [= <-]].
  destruct (_ !! n); intros [= <-]; [|done].
  eapply rtc_r; [exact H3|]. apply ss_advance.
Qed.

Lemma drainAll_mark_run s now : schedRun s (drainAll_mark s now).1.1.
Proof.
  unfold drainAll_mark.
  assert (forall l (q : sched * list nat * gset string), schedRun q.1.1 (fold_left
    (fun '(s, local, providers) (kv : string * nat) =>
    let g := group_of s kv.2 in
    let provider := g_provider g in
    let queued := 0 <? queue_live g in
    let s := if negb (bool_decide (provider = "")) && queued
             then markGateWaitingLocked kv.2 now s else s in
    if bool_decide (provider = "") then (s, local ++ [kv.2], providers)
    else (s, local, if queued then {[provider]} ∪ providers else providers)) l q).1.1) as H.
  { induction l as [|kv l IH]; intros [[s1 local] providers]; [done|]. cbn [fold_left].
    eapply (transitivity (y := _)); [|apply IH]. cbv zeta.
    case_bool_decide as Hp; cbn [negb andb fst]; [done|].
    case_match; [|done]. apply rtc_once.
    pose proof (ss_mark s1 kv.2 now) as Hm. unfold drainAdmission_mark in Hm.
    by rewrite bool_decide_eq_false_2 in Hm. }
  apply (H _ (s, [], ∅)).
Qed.

Lemma drainAll_run s cancelled now s' : drainAll s cancelled now = Some s' -> schedRun s s'.
Proof.
  unfold drainAll. pose proof (drainAll_mark_run s now) as HM.
  destruct (drainAll_mark s now) as [[s1 local] providers]. cbn [fst] in HM.
  assert (HL : forall l s, schedRun s (fold_left (fun s gid => drain s gid cancelled now) l s)).
  { induction l as [|gid l IH]; intros s2; [done|]. cbn. eapply rtc_l; [apply ss_drain|apply IH]. }
  specialize (HL local s1). set (s2 := fold_left _ local s1) in *.
  assert (schedRun s s2) as H2 by (by transitivity s1).
  clearbody s2. clear HL. revert s2 H2. induction (elements providers) as [|p ps IH]; intros s2 H2; cbn [fold_left].
  { by intros [= <-]. }
  destruct (drainProvider_named s2 p cancelled now) as [s3|] eqn:E.
  - apply IH. transitivity s2; [done|]. by eapply drainProvider_named_run.
  - clear. induction ps; done.
Qed.

Lemma drainProvider_run s provider cancelled now s' :
  drainProvider s provider cancelled now = Some s' -> schedRun s s'.
Proof.
  unfold drainProvider. case_bool_decide; [apply drainAll_run|apply drainProvider_named_run].
Qed.
