(* ===== verification/SchedInv.v ===== *)
(** What holds of every state the scheduler reaches: exact slots, queues and
    idle order, and an eviction that never takes a group with work. *)

From stdpp Require Import relations.
From S2P Require Import Prelude GoTime GoFloat WakeTimer LinkedList Ramp Pacing Drain Hold HoldQueue Gate Sched Admission Send Drains SchedSpec SchedRun SchedSteps.

(** A scheduler as New builds it, its group bound lowered the way the package's
    tests lower it; production keeps [maxSchedulerGroups]. *)
Definition start (opts : Options) (cap : Z) : sched := set_sd_groupCap cap (New opts).
Definition reached (opts : Options) (cap : Z) (s : sched) : Prop := schedRun (start opts cap) s.
Definition init : wstate := WState ∅ ∅ ∅ ∅ [].

Lemma start_view opts cap : wst_of (start opts cap) = init.
Proof. unfold wst_of, start, init. cbn. by rewrite !fmap_empty. Qed.

Lemma run_sim s s' : schedRun s s' -> sim s s'.
Proof. induction 1 as [|s1 s2 s3 H1 _ IH]; [done|]. transitivity s2; [by apply schedStep_sim|done]. Qed.

Lemma reached_run opts cap s : reached opts cap s -> rtc wstep init (wst_of s).
Proof.
  intros H. rewrite <- (start_view opts cap). apply run_sim; [done|]. rewrite start_view. apply winv_empty.
Qed.

Lemma reached_inv opts cap s : reached opts cap s -> winv (wst_of s).
Proof. intros H. eapply wsteps_inv; [apply winv_empty|by eapply reached_run]. Qed.


(** The acquisitions of a group that hold one of its slots: those whose Release
    has not freed it, and the granted callers that have not read their grant. *)
Definition slots_of (gid : nat) (s : sched) : Z :=
  total (fun sl => if decide (sl_group sl = gid) then 1 else 0) (sd_slots s).
Definition granted_of (gid : nat) (s : sched) : Z :=
  total (fun w => if decide (w_group w = gid /\ w_granted w = true) then 1 else 0) (sd_waiters s).

(** C3. In every reachable state each group counts in flight exactly its
    acquisitions that hold a slot; its queue lists, once each, exactly its
    callers that wait for a grant; the idle order lists, once each, exactly
    the live groups with neither; a group is live exactly while its key maps
    to it; and a retired one has no work. *)
Theorem sched_slots_exact opts cap s gid g :
  reached opts cap s -> sd_heap s !! gid = Some g ->
  g_inFlight g = slots_of gid s + granted_of gid s /\
  NoDup (g_queue g) /\
  (forall wid, wid ∈ g_queue g <->
     exists w, sd_waiters s !! wid = Some w /\ w_group w = gid /\ w_granted w = false) /\
  NoDup (sd_idle s) /\
  (gid ∈ sd_idle s <-> g_retired g = false /\ g_inFlight g = 0 /\ g_queue g = []) /\
  (g_retired g = false <-> sd_groups s !! g_key g = Some gid) /\
  (g_retired g = true -> g_inFlight g = 0 /\ g_queue g = []).
Proof.
  intros H Hg. pose proof (reached_inv _ _ _ H) as Hw.
  destruct (wi_group _ Hw _ _ (ws_heap_lookup _ _ _ Hg)) as [H1 H2 H3 H4 H5 H6 H7].
  cbn in H1, H2, H4, H6, H7. split_and!; try done.
  - rewrite H1. f_equal; unfold held_slots, granted_waiters; cbn; rewrite total_fmap; [done|].
    apply total_ext. intros j w _. unfold waiter_view. apply decide_ext.
    split; [by intros [= -> ->]|by intros [-> ->]].
  - intros wid. rewrite H3. split.
    + intros (w & Hwt & Hv)%waiter_inv. exists w. by injection Hv.
    + intros (w & Hwt & <- & Hgr). rewrite (waiter_lookup _ _ _ Hwt). unfold waiter_view. by rewrite Hgr.
  - exact (wi_idle _ Hw).
  - cbn in H5. by rewrite <- H5.
Qed.

(** ** Eviction *)

(** Keys keep their group, but for the groups of the idle order. *)
Definition keeps_busy (s s' : sched) : Prop :=
  forall key gid, sd_groups s !! key = Some gid -> gid ∉ sd_idle s -> sd_groups s' !! key = Some gid.

Lemma same_keeps s s' : sd_groups s' = sd_groups s -> keeps_busy s s'.
Proof. intros He key gid Hk _. by rewrite He. Qed.
Lemma quiet_keeps s s' : quiet s s' -> keeps_busy s s'.
Proof. intros Hq. apply same_keeps. exact (f_equal ws_groups Hq). Qed.

Lemma busy_groups gid s : sd_groups (markGroupBusyLocked gid s) = sd_groups s.
Proof. unfold markGroupBusyLocked, idleUnlinkLocked. by repeat case_match. Qed.
Lemma idle_groups gid now s : sd_groups (markGroupIdleLocked gid now s) = sd_groups s.
Proof. unfold markGroupIdleLocked, idlePushLocked. by repeat case_match. Qed.

Lemma slotRelease_groups gid lease s : sd_groups (slotRelease gid lease s).1 = sd_groups s.
Proof. done. Qed.

Lemma enter_groups s gid hooks enqueued now :
  sd_groups (acquire_enter s gid hooks enqueued now).1 = sd_groups s.
Proof.
  unfold acquire_enter. destruct (g_retired _); [done|].
  assert (Hf : sd_groups (acquire_fast s gid hooks now).1 = sd_groups s).
  { unfold acquire_fast. destruct (_ && _); [|done].
    pose proof (admitLocked_frame s gid now (wh_Provider hooks) (wh_EstTokens hooks)) as Hq.
    destruct (admitLocked _ _ _ _ _) as [[[[s1 ok] lease] wait] gateBlocked]. cbn [fst] in Hq.
    destruct ok; cbn [fst].
    - rewrite busy_groups. exact (fr_groups _ _ Hq).
    - case_match; exact (fr_groups _ _ Hq). }
  destruct (acquire_fast s gid hooks now) as [s1 [lease|]]; cbn [fst] in Hf; [exact Hf|].
  destruct (_ && _); [exact Hf|]. destruct (acquire_hold _ _ _ _) as [holds reserved].
  destruct reserved; cbn [negb fst]; [|exact Hf]. rewrite busy_groups.
  etransitivity; [exact (fr_groups _ _ (syncQueue_frame gid _))|exact Hf].
Qed.

Lemma remove_groups s wid now : sd_groups (removeWaiter s wid now).1 = sd_groups s.
Proof.
  unfold removeWaiter. cbn [fst]. case_bool_decide.
  - cbn -[markGroupIdleLocked syncQueueLocked]. rewrite idle_groups.
    exact (fr_groups _ _ (syncQueue_frame _ _)).
  - cbn -[markGroupIdleLocked]. by rewrite idle_groups.
Qed.

Lemma turn_keeps s wid deadline now : sd_groups (acquire_turn s wid deadline now).1.1 = sd_groups s.
Proof.
  unfold acquire_turn. destruct (queueDrained _ _ _ _ _).
  { pose proof (remove_groups s wid now) as H. by destruct (removeWaiter s wid now). }
  destruct (sched_matchingHold _ _ _).
  - repeat case_match; done.
  - destruct (syncUnhold _ _ _) as [holds held]. destruct held; [done|]. by destruct (IsZero _).
Qed.

Lemma release_groups s sid now : sd_groups (release_slot s sid now) = sd_groups s.
Proof.
  unfold release_slot, group_release. destruct (sd_slots s !! sid) as [sl|]; [|done].
  destruct (sl_settled sl); [|done]. by rewrite idle_groups.
Qed.

Lemma drain_groups s gid budget cancelled now :
  winv (wst_of s) -> sd_groups (drainLimited s gid budget cancelled now).1 = sd_groups s.
Proof.
  intros Hw. assert (queues_distinct s) as Hq.
  { intros g. unfold group_of. destruct (sd_heap s !! g) as [x|] eqn:E; [|apply NoDup_nil_2].
    exact (wo_nodup _ _ _ (wi_group _ Hw _ _ (ws_heap_lookup _ _ _ E))). }
  pose proof (drainLimited_grants s gid budget cancelled now Hq) as Hd.
  destruct (drainLimited _ _ _ _ _). exact (gr_groups _ _ _ _ (proj1 Hd)).
Qed.

Lemma group_keeps s key now : keeps_busy s (groupForLocked s key 0 false now).1.
Proof. intros k gid Hk _. by apply groupForLocked_mapped. Qed.

Lemma extend_keeps s key d claim now : keeps_busy s (extendWindow s key d claim now).1.
Proof.
  intros k gid Hk _. pose proof (groupForLocked_mapped s key 0 false now k gid Hk) as Hm.
  unfold extendWindow. destruct (groupForLocked s key 0 false now) as [s1 g]. cbn [fst] in Hm.
  pose proof (armPacingLater_quiet g d now s1) as Hq.
  assert (sd_groups (armPacingLaterLocked g d now s1) = sd_groups s1) as He by exact (f_equal ws_groups Hq).
  transitivity (sd_groups s1 !! k); [|done]. rewrite <- He.
  by destruct (_ || _); cbv zeta; destruct (_ && _).
Qed.

Lemma step_keeps s s' : winv (wst_of s) -> schedStep s s' -> keeps_busy s s'.
Proof.
  intros Hw []; first
    [ solve [auto using group_keeps, extend_keeps]
    | apply same_keeps; solve [auto using enter_groups, turn_keeps, remove_groups, release_groups, drain_groups]
    | apply quiet_keeps; solve [done | auto using settle_slot_quiet, mark_quiet, markQueued_quiet,
        BackoffFor_apply_quiet, EndSend_apply_quiet, FailSend_apply_quiet, WaitSend_turn_quiet,
        WaitSend_end_quiet, UpdateThrottle_quiet, RestoreThrottles_quiet, DrainQueue_quiet]
    | idtac ].
  - intros k gid. pose proof (acquire_lookup_sim s key maxConcurrent provider now Hw) as H.
    destruct (acquire_lookup _ _ _ _ _). apply H.
  - apply same_keeps. unfold acquire_queued. by destruct (sched_matchingHold _ _ _).
Qed.


(** ** A run: one key at a bound of one group, its slot taken, a second caller
    queued behind it *)

Definition demo_opts : Options :=
  {| op_MaxConcurrent := 1; op_MaxQueueSize := 0; op_MaxWait := 0; op_BaseBackoff := Second;
     op_MaxBackoff := 60 * Second |}.
Definition demo_hooks : WaiterHooks :=
  {| wh_Client := "cli"; wh_Provider := ""; wh_Model := "m"; wh_EstTokens := 0; wh_OnHold := false;
     wh_OnUnhold := false |}.
Definition demo_time : Time := unixEpoch.
Definition demo1 : sched := (acquire_lookup (start demo_opts 1) "a" 1 "" demo_time).1.
Definition demo2 : sched := (acquire_enter demo1 0 demo_hooks demo_time demo_time).1.
Definition demo3 : sched := (acquire_enter demo2 0 demo_hooks demo_time demo_time).1.

Lemma demo_reached : reached demo_opts 1 demo3.
Proof.
  eapply rtc_l; [apply (ss_lookup _ "a" 1 "" demo_time)|].
  eapply rtc_l; [apply (ss_enter demo1 0 demo_hooks demo_time demo_time); vm_compute; by eexists|].
  apply rtc_once, (ss_enter demo2 0 demo_hooks demo_time demo_time). vm_compute. by eexists.
Qed.


Lemma sched_slots_exact_witness :
  exists g, sd_heap demo3 !! 0%nat = Some g /\ g_inFlight g = 1 /\ slots_of 0 demo3 = 1 /\
    g_queue g = [0%nat] /\ sd_idle demo3 = [] /\ sd_groups demo3 !! g_key g = Some 0%nat.
Proof.
  destruct (sd_heap demo3 !! 0%nat) as [g|] eqn:E; [|by vm_compute in E].
  pose proof (sched_slots_exact demo_opts 1 demo3 0 g demo_reached E) as (H1 & _ & _ & _ & _ & H2 & _).
  assert (sd_heap demo3 !! 0%nat = Some g) as E2 by exact E.
  vm_compute in E2. injection E2 as E2. exists g. split; [done|].
  assert (g_inFlight g = 1) as Hin by (by subst g).
  split; [done|]. split.
  - rewrite Hin in H1. assert (granted_of 0 demo3 = 0) as Hz by (vm_compute; reflexivity). lia.
  - split; [by subst g|]. split; [vm_compute; reflexivity|]. apply H2. by subst g.
Defined.

