(* ===== verification/FairSpec.v ===== *)
(** The provider index as the scheduler keeps it: which groups belong to it,
    which wait on the provider's gate, the two counters, and the witnesses each
    group mirrors them in. *)

From S2P Require Import Prelude Sched Drains SchedSpec.

(** What of a group and of an index matters here. *)
Record fgroup := FGroup {
  fg_provider : string;
  fg_idx : option nat;
  fg_fair : option nat;
  fg_queued : option nat;
  fg_waiting : bool;
  fg_has : bool;
  fg_queue : list nat;
}.
Record findex := FIndex {
  fx_groups : list nat;
  fx_fair : list nat;
  fx_count : Z;
  fx_queued : Z;
}.
Record fstate := FState {
  fs_heap : gmap nat fgroup;
  fs_indexes : gmap nat findex;
  fs_providers : gmap string nat;
}.

Definition counts (iid : nat) (g : fgroup) : Z :=
  if decide (fg_queued g = Some iid /\ fg_has g = true) then 1 else 0.

(** [x] is a group whose queue has just changed and whose witnesses lag. *)
Record fgroup_ok (x : option nat) (f : fstate) (gid : nat) (g : fgroup) : Prop := {
  fo_has : x <> Some gid -> fg_has g = negb (bool_decide (fg_queue g = []));
  fo_fair : fg_fair g = fg_idx g;
  fo_idx : forall iid, fg_idx g = Some iid ->
    fg_queued g = Some iid /\ fs_providers f !! fg_provider g = Some iid /\
    exists i, fs_indexes f !! iid = Some i /\ gid ∈ fx_groups i /\
      (fg_waiting g = true <-> gid ∈ fx_fair i);
  fo_none : fg_idx g = None -> fg_waiting g = false;
  fo_wait : x <> Some gid -> fg_waiting g = true -> fg_queue g <> [];
  fo_queued : forall iid, fg_queued g = Some iid -> is_Some (fs_indexes f !! iid);
  fo_unattr : fg_provider g = ""%string -> fg_idx g = None /\ fg_queued g = None;
}.

Record findex_ok (f : fstate) (iid : nat) (i : findex) : Prop := {
  xo_groups : forall gid, gid ∈ fx_groups i -> exists g, fs_heap f !! gid = Some g /\ fg_idx g = Some iid;
  xo_fair : forall gid, gid ∈ fx_fair i -> exists g, fs_heap f !! gid = Some g /\ fg_idx g = Some iid;
  xo_nodup_groups : NoDup (fx_groups i);
  xo_nodup_fair : NoDup (fx_fair i);
  xo_count : fx_count i = Z.of_nat (length (fx_fair i));
  xo_queued : fx_queued i = total (counts iid) (fs_heap f);
}.

Record finv (x : option nat) (f : fstate) : Prop := {
  fi_group : forall gid g, fs_heap f !! gid = Some g -> fgroup_ok x f gid g;
  fi_index : forall iid i, fs_indexes f !! iid = Some i -> findex_ok f iid i;
  fi_provider : forall p iid, fs_providers f !! p = Some iid -> is_Some (fs_indexes f !! iid);
}.

Lemma finv_weaken gid f : finv None f -> finv (Some gid) f.
Proof. intros [H1 H2 H3]. split; [|done|done]. intros o g Hg.
  destruct (H1 o g Hg) as [A1 A2 A3 A4 A5 A6 A7]. split; try done; intros _; [by apply A1|by apply A5].
Qed.

Definition f_put (gid : nat) (g : fgroup) (f : fstate) : fstate :=
  FState (<[gid := g]> (fs_heap f)) (fs_indexes f) (fs_providers f).
Definition f_both (gid : nat) (g : fgroup) (iid : nat) (i : findex) (f : fstate) : fstate :=
  FState (<[gid := g]> (fs_heap f)) (<[iid := i]> (fs_indexes f)) (fs_providers f).

Lemma counts_put f gid g g' iid :
  fs_heap f !! gid = Some g ->
  total (counts iid) (<[gid := g']> (fs_heap f)) =
    total (counts iid) (fs_heap f) - counts iid g + counts iid g'.
Proof. intros Hg. by rewrite (total_insert _ _ _ g). Qed.

(** What an update of one group and of one index owes. *)
Lemma finv_both x x' f gid g g' iid i i' :
  finv x f -> fs_heap f !! gid = Some g -> fs_indexes f !! iid = Some i ->
  (forall o, o <> gid -> x' <> Some o -> x <> Some o) ->
  fgroup_ok x' (f_both gid g' iid i' f) gid g' ->
  (forall o, o <> gid -> o ∈ fx_groups i <-> o ∈ fx_groups i') ->
  (forall o, o <> gid -> o ∈ fx_fair i <-> o ∈ fx_fair i') ->
  (forall j, j <> iid -> fg_idx g = Some j -> fg_idx g' = Some j) ->
  (gid ∈ fx_groups i' -> fg_idx g' = Some iid) -> (gid ∈ fx_fair i' -> fg_idx g' = Some iid) ->
  (forall j, j <> iid -> counts j g' = counts j g) ->
  fx_queued i' = fx_queued i - counts iid g + counts iid g' ->
  NoDup (fx_groups i') -> NoDup (fx_fair i') -> fx_count i' = Z.of_nat (length (fx_fair i')) ->
  finv x' (f_both gid g' iid i' f).
Proof.
  intros [H1 H2 H3] Hg Hi Hx Hok Hgr Hfa Hidx Hg' Hf' Hcnt Hq Hn1 Hn2 Hc. split; cbn.
  - intros o h [[<- <-]|[Hne Hh]]%lookup_insert_Some; [done|].
    destruct (H1 o h Hh) as [A1 A2 A3 A4 A5 A6 A7]. apply not_eq_sym in Hne. split; cbn; try done.
    + intros Ho. by apply A1, Hx.
    + intros j Hj. destruct (A3 j Hj) as (B1 & B2 & k & B3 & B4 & B5). split_and!; [done|done|].
      destruct (decide (iid = j)) as [<-|Hij].
      * rewrite lookup_insert_eq. exists i'. rewrite Hi in B3. injection B3 as <-.
        split_and!; [done|by apply Hgr|]. rewrite B5. by apply Hfa.
      * rewrite lookup_insert_ne by done. by exists k.
    + intros Ho. apply A5. by apply Hx.
    + intros j Hj. apply lookup_insert_is_Some'. right. by apply A6.
  - assert (Hlook : forall o j, (exists h, fs_heap f !! o = Some h /\ fg_idx h = Some j) ->
      (o = gid -> fg_idx g' = Some j) ->
      exists h, <[gid := g']> (fs_heap f) !! o = Some h /\ fg_idx h = Some j).
    { intros o j (h & Hh & Hj) Ho. destruct (decide (gid = o)) as [<-|Hne].
      - rewrite lookup_insert_eq. exists g'. split; [done|by apply Ho].
      - rewrite lookup_insert_ne by done. by exists h. }
    intros j k [[<- <-]|[Hne Hk]]%lookup_insert_Some.
    + destruct (H2 iid i Hi) as [A1 A2 A3 A4 A5 A6]. split; cbn; try done.
      * intros o Ho. destruct (decide (o = gid)) as [->|Hne].
        -- rewrite lookup_insert_eq. exists g'. split; [done|by apply Hg'].
        -- apply Hlook; [|done]. apply A1. by apply Hgr.
      * intros o Ho. destruct (decide (o = gid)) as [->|Hne].
        -- rewrite lookup_insert_eq. exists g'. split; [done|by apply Hf'].
        -- apply Hlook; [|done]. apply A2. by apply Hfa.
      * rewrite (counts_put f gid g g' iid Hg), <- A6. done.
    + destruct (H2 j k Hk) as [A1 A2 A3 A4 A5 A6]. apply not_eq_sym in Hne. split; cbn; try done.
      * intros o Ho. pose proof (A1 o Ho) as (h & Hh & Hj). apply Hlook; [by eexists|]. intros ->.
        apply Hidx; [done|]. rewrite Hg in Hh. by injection Hh as <-.
      * intros o Ho. pose proof (A2 o Ho) as (h & Hh & Hj). apply Hlook; [by eexists|]. intros ->.
        apply Hidx; [done|]. rewrite Hg in Hh. by injection Hh as <-.
      * rewrite (counts_put f gid g g' j Hg), (Hcnt j Hne), <- A6. lia.
  - intros p j Hp. apply lookup_insert_is_Some'. right. by eapply H3.
Qed.

(** An update of one group alone. *)
Lemma finv_put x x' f gid g g' :
  finv x f -> fs_heap f !! gid = Some g ->
  (forall o, o <> gid -> x' <> Some o -> x <> Some o) ->
  fg_idx g' = fg_idx g -> (forall j, counts j g' = counts j g) ->
  fgroup_ok x' (f_put gid g' f) gid g' -> finv x' (f_put gid g' f).
Proof.
  intros [H1 H2 H3] Hg Hx Hidx Hcnt Hok. split; cbn; [| |done].
  - intros o h [[<- <-]|[Hne Hh]]%lookup_insert_Some; [done|].
    destruct (H1 o h Hh) as [A1 A2 A3 A4 A5 A6 A7]. apply not_eq_sym in Hne. split; cbn; try done.
    + intros Ho. by apply A1, Hx.
    + intros Ho. apply A5. by apply Hx.
  - intros j k Hk. destruct (H2 j k Hk) as [A1 A2 A3 A4 A5 A6].
    assert (Hlook : forall o, (exists h, fs_heap f !! o = Some h /\ fg_idx h = Some j) ->
      exists h, <[gid := g']> (fs_heap f) !! o = Some h /\ fg_idx h = Some j).
    { intros o (h & Hh & Hj). destruct (decide (gid = o)) as [<-|Hne].
      - rewrite lookup_insert_eq. exists g'. split; [done|]. rewrite Hidx. rewrite Hg in Hh. by injection Hh as <-.
      - rewrite lookup_insert_ne by done. by exists h. }
    split; cbn; auto. rewrite (counts_put f gid g g' j Hg), Hcnt, <- A6. lia.
Qed.

(** ** The operations *)

Definition fg_setqueue (q : list nat) (g : fgroup) : fgroup :=
  FGroup (fg_provider g) (fg_idx g) (fg_fair g) (fg_queued g) (fg_waiting g) (fg_has g) q.
Definition fg_setwaiting (b : bool) (g : fgroup) : fgroup :=
  FGroup (fg_provider g) (fg_idx g) (fg_fair g) (fg_queued g) b (fg_has g) (fg_queue g).
Definition fg_sethas (b : bool) (g : fgroup) : fgroup :=
  FGroup (fg_provider g) (fg_idx g) (fg_fair g) (fg_queued g) (fg_waiting g) b (fg_queue g).
Definition fg_attribute (p : string) (iid : nat) (g : fgroup) : fgroup :=
  FGroup p (Some iid) (Some iid) (Some iid) (fg_waiting g) (fg_has g) (fg_queue g).
Definition fg_detach (g : fgroup) : fgroup :=
  FGroup (fg_provider g) None None (fg_queued g) (fg_waiting g) (fg_has g) (fg_queue g).

Section ops.
Context (x : option nat) (f : fstate) (gid : nat) (g : fgroup).
Hypothesis (Hf : finv x f) (Hg : fs_heap f !! gid = Some g).

Let Hok := fi_group _ _ Hf _ _ Hg.

Lemma queue_finv q : x = None \/ x = Some gid -> finv (Some gid) (f_put gid (fg_setqueue q g) f).
Proof.
  intros Hx. destruct Hok as [A1 A2 A3 A4 A5 A6 A7].
  eapply finv_put; [exact Hf|exact Hg| |done|done|by split].
  intros o Ho _. destruct Hx as [-> | ->]; congruence.
Qed.

(** A group may join the fair set with its queue non-empty, or while its
    witnesses lag. *)
Lemma mark_finv iid i :
  fg_idx g = Some iid -> fs_indexes f !! iid = Some i -> fg_waiting g = false ->
  (x <> Some gid -> fg_queue g <> []) ->
  finv x (f_both gid (fg_setwaiting true g) iid
            (FIndex (fx_groups i) (seq_push (fx_fair i) gid) (fx_count i + 1) (fx_queued i)) f).
Proof.
  intros Hid Hi Hwt Hq. destruct Hok as [A1 A2 A3 A4 A5 A6 A7].
  destruct (A3 iid Hid) as (B1 & B2 & k & B3 & B4 & B5). rewrite Hi in B3. injection B3 as <-.
  destruct (fi_index _ _ Hf _ _ Hi) as [C1 C2 C3 C4 C5 C6].
  assert (gid ∉ fx_fair i) as Hn by (intros Hin; apply B5 in Hin; congruence).
  eapply finv_both; [exact Hf|exact Hg|exact Hi|done| |done| | |by intros|by intros|done| |done| |]; cbn.
  - split; cbn; try done.
    + intros j Hj. rewrite Hid in Hj. injection Hj as <-. rewrite lookup_insert_eq. split_and!; [done|done|].
      eexists. split_and!; [done|done|]. split; [|done]. intros _. apply elem_of_app. right. by left.
    + congruence.
    + intros Hx _. by apply Hq.
    + intros j Hj. apply lookup_insert_is_Some'. right. by apply A6.
  - intros o Ho. symmetry. by apply seq_push_others.
  - done.
  - unfold counts. cbn. lia.
  - by apply NoDup_seq_push.
  - rewrite C5. unfold seq_push. rewrite length_app. cbn. lia.
Qed.

Lemma clear_finv iid i :
  fg_idx g = Some iid -> fs_indexes f !! iid = Some i -> fg_waiting g = true ->
  finv x (f_both gid (fg_setwaiting false g) iid
            (FIndex (fx_groups i) (seq_remove (fx_fair i) gid) (fx_count i - 1) (fx_queued i)) f).
Proof.
  intros Hid Hi Hwt. destruct Hok as [A1 A2 A3 A4 A5 A6 A7].
  destruct (A3 iid Hid) as (B1 & B2 & k & B3 & B4 & B5). rewrite Hi in B3. injection B3 as <-.
  destruct (fi_index _ _ Hf _ _ Hi) as [C1 C2 C3 C4 C5 C6].
  assert (gid ∈ fx_fair i) as Hn by (by apply B5).
  eapply finv_both; [exact Hf|exact Hg|exact Hi|done| |done| | |by intros|by intros|done| |done| |]; cbn.
  - split; cbn; try done.
    + intros j Hj. rewrite Hid in Hj. injection Hj as <-. rewrite lookup_insert_eq. split_and!; [done|done|].
      eexists. split_and!; [done|done|]. split; [done|]. by intros [_ ?]%elem_of_seq_remove.
    + intros j Hj. apply lookup_insert_is_Some'. right. by apply A6.
  - intros o Ho. symmetry. by apply seq_remove_others.
  - done.
  - unfold counts. cbn. lia.
  - by apply NoDup_seq_remove.
  - rewrite C5. rewrite (length_seq_remove (fx_fair i) gid C4 Hn). lia.
Qed.

(** The witness follows the queue. *)
Lemma sethas_finv_idx iid i b :
  x = Some gid -> fg_queued g = Some iid -> fs_indexes f !! iid = Some i ->
  b = negb (bool_decide (fg_queue g = [])) -> fg_has g = negb b ->
  (fg_waiting g = true -> fg_queue g <> []) ->
  finv None (f_both gid (fg_sethas b g) iid
    (FIndex (fx_groups i) (fx_fair i) (fx_count i) (fx_queued i + (if b then 1 else -1))) f).
Proof.
  intros Hx Hid Hi Hb Hh Hwt. destruct Hok as [A1 A2 A3 A4 A5 A6 A7].
  destruct (fi_index _ _ Hf _ _ Hi) as [C1 C2 C3 C4 C5 C6].
  assert (forall o h, fs_heap f !! o = Some h -> o = gid -> h = g) as Hsame.
  { intros o h Ho ->. congruence. }
  eapply finv_both; [exact Hf|exact Hg|exact Hi| | |done|done|done| | | | |done|done|done]; cbn.
  - intros o Ho _. congruence.
  - split; cbn; try done.
    + intros j Hj. destruct (A3 j Hj) as (B1 & B2 & k & B3 & B4 & B5). split_and!; [done|done|].
      rewrite Hid in B1. injection B1 as <-. rewrite lookup_insert_eq. eexists. split; [done|].
      rewrite Hi in B3. injection B3 as <-. by split.
    + intros j Hj. apply lookup_insert_is_Some'. right. by apply A6.
  - intros Hin. destruct (C1 gid Hin) as (h & Hh' & Hj). by rewrite <- (Hsame gid h Hh' eq_refl).
  - intros Hin. destruct (C2 gid Hin) as (h & Hh' & Hj). by rewrite <- (Hsame gid h Hh' eq_refl).
  - intros j Hj. unfold counts. cbn. rewrite !decide_False; [done|intros [? _]; congruence..].
  - unfold counts. cbn. rewrite Hh, Hid. destruct b; cbn.
    + rewrite decide_False by (by intros [_ ?]). rewrite decide_True by done. lia.
    + rewrite decide_True by done. rewrite decide_False by (by intros [_ ?]). lia.
Qed.

Lemma sethas_finv b :
  x = Some gid -> fg_queued g = None \/ fg_has g = b ->
  b = negb (bool_decide (fg_queue g = [])) -> (fg_waiting g = true -> fg_queue g <> []) ->
  finv None (f_put gid (fg_sethas b g) f).
Proof.
  intros Hx Hid Hb Hwt. destruct Hok as [A1 A2 A3 A4 A5 A6 A7].
  eapply finv_put; [exact Hf|exact Hg| |done| |by split].
  - intros o Ho _. congruence.
  - intros j. unfold counts. cbn. destruct Hid as [Hid|Hid].
    + rewrite !decide_False by (intros [? _]; congruence). done.
    + by rewrite Hid.
Qed.

(** A group without a provider gets one. *)
Lemma attribute_finv p iid i :
  fg_provider g = ""%string -> p <> ""%string -> fs_providers f !! p = Some iid ->
  fs_indexes f !! iid = Some i ->
  finv x (f_both gid (fg_attribute p iid g) iid
    (FIndex (seq_push (fx_groups i) gid) (fx_fair i) (fx_count i)
       (fx_queued i + (if fg_has g then 1 else 0))) f).
Proof.
  intros Hp Hpn Hpr Hi. destruct Hok as [A1 A2 A3 A4 A5 A6 A7]. destruct (A7 Hp) as [D1 D2].
  destruct (fi_index _ _ Hf _ _ Hi) as [C1 C2 C3 C4 C5 C6].
  assert (gid ∉ fx_groups i) as Hn1.
  { intros Hin. destruct (C1 gid Hin) as (h & Hh & Hj). congruence. }
  assert (gid ∉ fx_fair i) as Hn2.
  { intros Hin. destruct (C2 gid Hin) as (h & Hh & Hj). congruence. }
  eapply finv_both; [exact Hf|exact Hg|exact Hi|done| | |done| |done|done| | | |done|done]; cbn.
  - split; cbn; try done.
    + intros j [= <-]. rewrite lookup_insert_eq. split_and!; [done|done|]. eexists. split; [done|]. split.
      * apply elem_of_app. right. by left.
      * rewrite (A4 D1). by split.
    + intros j [= <-]. rewrite lookup_insert_eq. by eexists.
  - intros o Ho. symmetry. by apply seq_push_others.
  - congruence.
  - intros j Hj. unfold counts. cbn. rewrite !decide_False; [done|intros [? _]; congruence..].
  - unfold counts. cbn. rewrite decide_False by (intros [? _]; congruence).
    destruct (fg_has g); [rewrite decide_True by done|rewrite decide_False by (by intros [_ ?])]; lia.
  - by apply NoDup_seq_push.
Qed.

(** A retired group leaves its index. *)
Lemma detach_finv iid i :
  fg_idx g = Some iid -> fs_indexes f !! iid = Some i -> fg_waiting g = false -> 
  finv x (f_both gid (fg_detach g) iid
    (FIndex (seq_remove (fx_groups i) gid) (fx_fair i) (fx_count i) (fx_queued i)) f).
Proof.
  intros Hid Hi Hwt. destruct Hok as [A1 A2 A3 A4 A5 A6 A7].
  destruct (A3 iid Hid) as (B1 & B2 & k & B3 & B4 & B5). rewrite Hi in B3. injection B3 as <-.
  destruct (fi_index _ _ Hf _ _ Hi) as [C1 C2 C3 C4 C5 C6].
  eapply finv_both; [exact Hf|exact Hg|exact Hi|done| | |done| | | |done| | |done|done]; cbn.
  - split; cbn; try done.
    + intros j Hj. apply lookup_insert_is_Some'. right. by apply A6.
    + intros Hp. destruct (A7 Hp). by split.
  - intros o Ho. symmetry. by apply seq_remove_others.
  - congruence.
  - intros [_ ?]%elem_of_seq_remove. done.
  - intros Hin. apply B5 in Hin. congruence.
  - unfold counts. cbn. lia.
  - by apply NoDup_seq_remove.
Qed.
End ops.

(** A new group, a new index, an index without groups dropped. *)
Lemma create_finv x f gid :
  finv x f -> fs_heap f !! gid = None ->
  finv x (f_put gid (FGroup "" None None None false false []) f).
Proof.
  intros [H1 H2 H3] Hg. split; cbn; [| |done].
  - intros o h [[<- <-]|[Hne Hh]]%lookup_insert_Some; [by split|].
    destruct (H1 o h Hh) as [A1 A2 A3 A4 A5 A6 A7]. by split.
  - intros j k Hk. destruct (H2 j k Hk) as [A1 A2 A3 A4 A5 A6]. split; cbn; try done.
    + intros o Ho. destruct (A1 o Ho) as (h & Hh & Hj). exists h. split; [|done].
      rewrite lookup_insert_ne; [done|congruence].
    + intros o Ho. destruct (A2 o Ho) as (h & Hh & Hj). exists h. split; [|done].
      rewrite lookup_insert_ne; [done|congruence].
    + rewrite total_insert_fresh by done. unfold counts at 1. cbn. rewrite decide_False by (by intros [? _]). lia.
Qed.

Lemma new_index_finv x f p iid :
  finv x f -> fs_indexes f !! iid = None -> fs_providers f !! p = None ->
  finv x (FState (fs_heap f) (<[iid := FIndex [] [] 0 0]> (fs_indexes f)) (<[p := iid]> (fs_providers f))).
Proof.
  intros [H1 H2 H3] Hi Hp.
  assert (Hnone : forall o h, fs_heap f !! o = Some h -> fg_queued h <> Some iid).
  { intros o h Hh Hq. destruct (fo_queued _ _ _ _ (H1 o h Hh) iid Hq). congruence. }
  split; cbn.
  - intros o h Hh. destruct (H1 o h Hh) as [A1 A2 A3 A4 A5 A6 A7]. split; cbn; try done.
    + intros j Hj. destruct (A3 j Hj) as (B1 & B2 & k & B3 & B4 & B5). split_and!; [done| |].
      * rewrite lookup_insert_ne; [done|congruence].
      * exists k. split; [|done]. rewrite lookup_insert_ne; [done|congruence].
    + intros j Hj. apply lookup_insert_is_Some'. right. by apply A6.
  - intros j k [[<- <-]|[Hne Hk]]%lookup_insert_Some.
    + split; cbn; try done; [by intros o ?%elem_of_nil|by intros o ?%elem_of_nil|apply NoDup_nil_2|apply NoDup_nil_2|].
      symmetry. apply total_zero. intros o h Hh. unfold counts. rewrite decide_False; [done|].
      intros [Hq _]. by eapply Hnone.
    + destruct (H2 j k Hk) as [A1 A2 A3 A4 A5 A6]. by split.
  - intros q j [[<- <-]|[Hne Hq]]%lookup_insert_Some; apply lookup_insert_is_Some'; [by left|right; by eapply H3].
Qed.

Lemma drop_index_finv x f p iid i :
  finv x f -> fs_providers f !! p = Some iid -> fs_indexes f !! iid = Some i -> fx_groups i = [] ->
  finv x (FState (fs_heap f) (fs_indexes f) (delete p (fs_providers f))).
Proof.
  intros [H1 H2 H3] Hp Hi He. split; cbn; [| |].
  - intros o h Hh. destruct (H1 o h Hh) as [A1 A2 A3 A4 A5 A6 A7]. split; cbn; try done.
    intros j Hj. destruct (A3 j Hj) as (B1 & B2 & k & B3 & B4 & B5). split_and!; [done| |by exists k].
    rewrite lookup_delete_ne; [done|]. intros Heq. rewrite <- Heq, Hp in B2. injection B2 as <-.
    rewrite Hi in B3. injection B3 as <-. rewrite He in B4. by apply elem_of_nil in B4.
  - intros j k Hk. destruct (H2 j k Hk) as [A1 A2 A3 A4 A5 A6]. by split.
  - intros q j [_ Hq]%lookup_delete_Some. by eapply H3.
Qed.

Lemma finv_empty : finv None (FState ∅ ∅ ∅).
Proof. split; cbn; intros; simplify_map_eq. Qed.
