(* ===== verification/FairInv.v ===== *)
(** In every state the scheduler reaches the provider indexes, the fair sets and
    the witnesses that mirror them agree. *)

From stdpp Require Import relations.
From S2P Require Import Prelude GoTime GoFloat WakeTimer LinkedList Ramp Pacing Drain Hold HoldQueue Gate Sched Admission Send Drains SchedSpec SchedRun SchedSteps SchedInv FairSpec.

Definition fview (g : group) : fgroup :=
  FGroup (g_provider g) (g_providerIdx g) (g_providerFair g) (g_providerQueued g) (g_gateWaiting g)
    (g_hasQueued g) (g_queue g).
Definition iview (i : providerIndex) : findex :=
  FIndex (pi_groups i) (pi_fair i) (pi_fairCount i) (pi_queued i).
Definition fst_of (s : sched) : fstate :=
  FState (fview <$> sd_heap s) (iview <$> sd_indexes s) (sd_providerGroups s).
Definition fok (x : option nat) (s : sched) : Prop := finv x (fst_of s).

(** ** Views *)

Definition fquiet (s s' : sched) : Prop := fst_of s' = fst_of s.
#[export] Instance fquiet_refl : Reflexive fquiet.
Proof. done. Qed.
#[export] Instance fquiet_trans : Transitive fquiet.
Proof. unfold fquiet. intros s1 s2 s3 H1 H2. by rewrite H2, H1. Qed.

Lemma fquiet_ok x s s' : fquiet s s' -> fok x s -> fok x s'.
Proof. unfold fok. intros Hq. by rewrite Hq. Qed.

Lemma alter_view {A B} (v : A -> B) (f : A -> A) (m : gmap nat A) i x :
  m !! i = Some x -> v <$> alter f i m = <[i := v (f x)]> (v <$> m).
Proof.
  intros Hx. apply map_eq. intros j. rewrite lookup_fmap. destruct (decide (i = j)) as [<-|Hne].
  - by rewrite lookup_alter_eq, lookup_insert_eq, Hx.
  - by rewrite lookup_alter_ne, lookup_insert_ne, lookup_fmap.
Qed.
Lemma alter_same_view {A B} (v : A -> B) (f : A -> A) (m : gmap nat A) i :
  (forall x, v (f x) = v x) -> v <$> alter f i m = v <$> m.
Proof.
  intros Hf. apply map_eq. intros j. rewrite !lookup_fmap. destruct (decide (i = j)) as [<-|Hne].
  - rewrite lookup_alter_eq. destruct (m !! i); cbn; [by rewrite Hf|done].
  - by rewrite lookup_alter_ne.
Qed.

Lemma fupd_quiet gid f s : (forall g, fview (f g) = fview g) -> fquiet s (upd_group gid f s).
Proof. intros Hf. unfold fquiet, fst_of. cbn. by rewrite alter_same_view. Qed.
Lemma fidx_quiet iid f s : (forall i, iview (f i) = iview i) -> fquiet s (upd_index iid f s).
Proof. intros Hf. unfold fquiet, fst_of. cbn. by rewrite alter_same_view. Qed.

Lemma fupd_view gid f s g :
  sd_heap s !! gid = Some g -> fst_of (upd_group gid f s) = f_put gid (fview (f g)) (fst_of s).
Proof. intros Hg. unfold fst_of, f_put. cbn. by rewrite (alter_view _ _ _ _ _ Hg). Qed.
Lemma fboth_view gid f iid h s g i :
  sd_heap s !! gid = Some g -> sd_indexes s !! iid = Some i ->
  fst_of (upd_index iid h (upd_group gid f s)) = f_both gid (fview (f g)) iid (iview (h i)) (fst_of s).
Proof.
  intros Hg Hi. unfold fst_of, f_both. cbn. by rewrite (alter_view _ _ _ _ _ Hg), (alter_view _ _ _ _ _ Hi).
Qed.

Lemma fheap s gid g : sd_heap s !! gid = Some g -> fs_heap (fst_of s) !! gid = Some (fview g).
Proof. intros H. cbn. by rewrite lookup_fmap, H. Qed.
Lemma fheap_inv s gid v : fs_heap (fst_of s) !! gid = Some v -> exists g, sd_heap s !! gid = Some g /\ v = fview g.
Proof. cbn. rewrite lookup_fmap. destruct (sd_heap s !! gid); cbn; [|done]. intros [= <-]. by eexists. Qed.
Lemma findex_some s iid i : sd_indexes s !! iid = Some i -> fs_indexes (fst_of s) !! iid = Some (iview i).
Proof. intros H. cbn. by rewrite lookup_fmap, H. Qed.
Lemma findex_inv s iid v :
  fs_indexes (fst_of s) !! iid = Some v -> exists i, sd_indexes s !! iid = Some i /\ v = iview i.
Proof. cbn. rewrite lookup_fmap. destruct (sd_indexes s !! iid); cbn; [|done]. intros [= <-]. by eexists. Qed.

(** A group with an index is in the heap, and so is its index. *)
Lemma attributed x s gid iid :
  fok x s -> g_providerIdx (group_of s gid) = Some iid ->
  exists g i, sd_heap s !! gid = Some g /\ group_of s gid = g /\ sd_indexes s !! iid = Some i.
Proof.
  intros Hf Hi. destruct (sd_heap s !! gid) as [g|] eqn:E.
  - rewrite (group_of_lookup _ _ _ E) in *.
    destruct (fo_idx _ _ _ _ (fi_group _ _ Hf _ _ (fheap _ _ _ E)) iid Hi) as (_ & _ & k & Hk & _).
    apply findex_inv in Hk as (i & Hk & _). by exists g, i.
  - unfold group_of in Hi. by rewrite E in Hi.
Qed.

(** ** The fair set and the queue witness *)

Lemma mark_ok x s gid now : fok x s -> fok x (markGateWaitingLocked gid now s).
Proof.
  intros Hf. unfold markGateWaitingLocked.
  destruct (g_providerIdx (group_of s gid)) as [iid|] eqn:Ei; [|done].
  destruct (attributed x s gid iid Hf Ei) as (g & i & Hg & Hgg & Hi). rewrite Hgg in *.
  destruct (g_gateWaiting g) eqn:Ew; [done|]. destruct (queue_live g =? 0) eqn:Eq; [done|].
  destruct (admissionWindowOpenLocked g now); [|done]. cbn [negb orb].
  unfold markFairLocked, fok. rewrite (fboth_view _ _ _ _ _ _ _ Hg Hi).
  refine (mark_finv x (fst_of s) gid (fview g) Hf (fheap _ _ _ Hg) iid (iview i) Ei (findex_some _ _ _ Hi) Ew _).
  intros _ Hn. cbn in Hn. unfold queue_live in Eq. by rewrite Hn in Eq.
Qed.

Lemma clear_ok x s gid : fok x s -> fok x (clearGateWaitingLocked gid s).
Proof.
  intros Hf. unfold clearGateWaitingLocked.
  destruct (g_providerIdx (group_of s gid)) as [iid|] eqn:Ei; [|done].
  destruct (attributed x s gid iid Hf Ei) as (g & i & Hg & Hgg & Hi). rewrite Hgg in *.
  destruct (g_gateWaiting g) eqn:Ew; [|done]. cbn [negb].
  unfold clearFairLocked, fok. rewrite Hgg, Ew. cbn [negb]. rewrite (fboth_view _ _ _ _ _ _ _ Hg Hi).
  exact (clear_finv x (fst_of s) gid (fview g) Hf (fheap _ _ _ Hg) iid (iview i) Ei (findex_some _ _ _ Hi) Ew).
Qed.

Lemma clear_waiting x s gid : fok x s -> g_gateWaiting (group_of (clearGateWaitingLocked gid s) gid) = false.
Proof.
  intros Hf. unfold clearGateWaitingLocked.
  destruct (g_providerIdx (group_of s gid)) as [iid|] eqn:Ei.
  - destruct (attributed x s gid iid Hf Ei) as (g & i & Hg & Hgg & Hi). rewrite Hgg.
    destruct (g_gateWaiting g) eqn:Ew; cbn [negb]; [|by rewrite Hgg]. unfold clearFairLocked.
    rewrite Hgg, Ew. cbn [negb]. unfold group_of. cbn. by rewrite lookup_alter_eq, Hg.
  - destruct (sd_heap s !! gid) as [g|] eqn:E; [|unfold group_of; by rewrite E].
    rewrite (group_of_lookup _ _ _ E) in *.
    exact (fo_none _ _ _ _ (fi_group _ _ Hf _ _ (fheap _ _ _ E)) Ei).
Qed.

Lemma clear_fields {A} (f : group -> A) gid s :
  (forall g, f (gcore g) = f g) -> f (group_of (clearGateWaitingLocked gid s) gid) = f (group_of s gid).
Proof. intros Hf. apply core_field; [done|apply clearGateWaiting_frame]. Qed.

Lemma fok_absent gid s : sd_heap s !! gid = None -> fok (Some gid) s -> fok None s.
Proof.
  intros Hn [H1 H2 H3]. split; [|done|done]. intros o v Ho.
  destruct (H1 o v Ho) as [A1 A2 A3 A4 A5 A6 A7].
  assert (Some gid <> Some o). { intros [= <-]. cbn in Ho. rewrite lookup_fmap, Hn in Ho. done. }
  split; try done; intros _; [by apply A1|by apply A5].
Qed.

Lemma queue_ok x s gid (f : group -> group) q g :
  x = None \/ x = Some gid -> fok x s -> sd_heap s !! gid = Some g ->
  fview (f g) = fg_setqueue q (fview g) -> fok (Some gid) (upd_group gid f s).
Proof.
  intros Hx Hf Hg Hv. unfold fok. rewrite (fupd_view _ _ _ _ Hg), Hv.
  by apply (queue_finv x _ _ _ Hf (fheap _ _ _ Hg)).
Qed.

Lemma sync_ok s gid : fok (Some gid) s -> fok None (syncQueueLocked gid s).
Proof.
  intros Hf. unfold syncQueueLocked.
  set (b := 0 <? queue_live (group_of s gid)).
  set (s1 := if negb b then clearGateWaitingLocked gid s else s).
  assert (Hf1 : fok (Some gid) s1) by (unfold s1; case_match; [by apply clear_ok|done]).
  assert (Hq1 : g_queue (group_of s1 gid) = g_queue (group_of s gid)).
  { unfold s1. case_match; [|done]. by apply (clear_fields g_queue). }
  assert (Hw1 : b = false -> g_gateWaiting (group_of s1 gid) = false).
  { intros Hb. unfold s1. rewrite Hb. cbn [negb]. by eapply clear_waiting. }
  assert (Hb : b = negb (bool_decide (g_queue (group_of s1 gid) = []))).
  { unfold b, queue_live. rewrite Hq1. by destruct (g_queue (group_of s gid)). }
  clearbody s1. clear Hq1 Hf. clearbody b.
  destruct (sd_heap s1 !! gid) as [g|] eqn:Eg.
  2: { assert (group_of s1 gid = newGroup "" 0) as Hd by (unfold group_of; by rewrite Eg).
       rewrite Hd in *. subst b. cbn. by eapply fok_absent. }
  rewrite (group_of_lookup _ _ _ Eg) in *.
  assert (Hwq : g_gateWaiting g = true -> g_queue g <> []).
  { intros Hw Hn. rewrite Hn in Hb. cbn in Hb. rewrite Hw1 in Hw by done. done. }
  destruct (Bool.eqb (g_hasQueued g) b) eqn:Ee.
  - apply Bool.eqb_prop in Ee.
    pose proof (sethas_finv (Some gid) (fst_of s1) gid (fview g) Hf1 (fheap _ _ _ Eg) b eq_refl
      (or_intror Ee) Hb Hwq) as HF. unfold fok.
    replace (fst_of s1) with (f_put gid (fg_sethas b (fview g)) (fst_of s1)); [done|].
    unfold f_put, fst_of. cbn. f_equal. apply insert_id. rewrite lookup_fmap, Eg. cbn. unfold fview. by rewrite Ee.
  - apply Bool.eqb_false_iff in Ee.
    pose proof (alter_lookup s1 gid (set_g_hasQueued b) g Eg) as Eg2.
    rewrite (group_of_lookup _ _ _ Eg2). cbn [g_providerQueued set_g_hasQueued].
    destruct (g_providerQueued g) as [iid|] eqn:Ep; unfold fok.
    + destruct (fo_queued _ _ _ _ (fi_group _ _ Hf1 _ _ (fheap _ _ _ Eg)) iid Ep) as [v Hv].
      apply findex_inv in Hv as (i & Hi & _). rewrite (fboth_view _ _ _ _ _ _ _ Eg Hi).
      apply (sethas_finv_idx (Some gid) (fst_of s1) gid (fview g) Hf1 (fheap _ _ _ Eg) iid (iview i) b);
        try done; [by apply findex_some|]. cbn. destruct (g_hasQueued g), b; done.
    + rewrite (fupd_view _ _ _ _ Eg).
      apply (sethas_finv (Some gid) (fst_of s1) gid (fview g) Hf1 (fheap _ _ _ Eg) b); try done. by left.
Qed.

(** ** Admission and drains *)

Lemma gates_fquiet v s : fquiet s (set_sd_gates v s).
Proof. done. Qed.

Lemma admit_ok x s gid now provider est : fok x s -> fok x (admitLocked s gid now provider est).1.1.1.1.
Proof.
  intros Hf. unfold admitLocked. destruct (rampPolicy s (group_of s gid)) as [p|].
  - set (s1 := upd_group gid _ s).
    assert (fok x s1) as H1 by (eapply fquiet_ok; [by apply fupd_quiet|done]).
    destruct (ramp_allowance _ _ _ <=? _).
    { destruct (IsZero _); cbn [fst]; [done|]. by apply (fquiet_ok x s1). }
    destruct (tryAdmit _ _ _ _) as [[[gates ok] lease] wait].
    assert (fok x (set_sd_gates gates s1)) as H2 by (by apply (fquiet_ok x s1)).
    destruct ok; cbn [fst].
    + eapply fquiet_ok; [by apply fupd_quiet|done].
    + destruct (0 <? _); cbn [fst]; [by apply mark_ok|done].
  - set (s1 := if _ || _ then upd_group gid _ s else s).
    assert (fok x s1) as H1.
    { unfold s1; case_match; [eapply fquiet_ok; [by apply fupd_quiet|done]|done]. }
    destruct (tryAdmit _ _ _ _) as [[[gates ok] lease] wait].
    assert (fok x (set_sd_gates gates s1)) as H2 by (by apply (fquiet_ok x s1)).
    destruct ok; cbn [fst]; [done|].
    destruct (0 <? _); cbn [fst]; [by apply mark_ok|done].
Qed.

Definition lag (gid : nat) (granted : list nat) : option nat :=
  match granted with [] => None | _ => Some gid end.

Lemma armDrain_ok x provider d now s : fok x s -> fok x (sched_armThrottleDrain provider d now s).
Proof. by apply fquiet_ok. Qed.

Lemma drain_loop_ok gid budget cancelled now nodes : forall s granted,
  is_Some (sd_heap s !! gid) -> fok (lag gid granted) s ->
  let '(s', granted', _, _) := drain_loop s gid budget cancelled now nodes granted in
  fok (lag gid granted') s'.
Proof.
  induction nodes as [|wid nodes IH]; intros s granted Hs Hf; cbn [drain_loop]; [done|].
  destruct (_ && _); [done|]. destruct (_ || _); [done|].
  destruct (cancelled wid); [by apply IH|].
  destruct (sched_matchingHold s now (waiter_of s wid)); [by apply IH|].
  set (provider := w_provider _). set (est := w_estTokens _).
  pose proof (admit_ok _ s gid now provider est Hf) as Hf1.
  pose proof (admitLocked_frame s gid now provider est) as Hfr.
  destruct (admitLocked s gid now provider est) as [[[[s1 ok] lease] wait] gateBlocked].
  cbn [fst] in Hf1, Hfr. destruct ok; cbn [negb].
  - destruct Hs as [g Hg]. destruct (frame_lookup s s1 gid g Hfr Hg) as (g1 & Hg1 & _).
    apply IH.
    + unfold grant. rewrite (alter_lookup _ gid _ g1); [by eexists|done].
    + unfold grant. cbn [lag].
      eapply (queue_ok (lag gid granted) (set_sd_waiters _ s1) gid _ (seq_remove (g_queue g1) wid) g1); [|done|done|done].
      destruct granted; [by left|by right].
  - case_match; [by apply armDrain_ok|done].
Qed.

Lemma rampStep_ok x gid now s : fok x s -> fok x (armRampStepLocked gid now s).
Proof. intros Hf. unfold armRampStepLocked. repeat case_match; try done; by apply armDrain_ok. Qed.

Lemma drainLimited_ok s gid budget cancelled now :
  fok None s -> fok None (drainLimited s gid budget cancelled now).1.
Proof.
  intros Hf. unfold drainLimited. destruct (sd_heap s !! gid) as [g|] eqn:Eg.
  - pose proof (drain_loop_ok gid budget cancelled now (g_queue (group_of s gid)) s [] ltac:(by rewrite Eg) Hf) as Hd.
    destruct (drain_loop s gid budget cancelled now _ []) as [[[s1 granted] refused] bstop].
    set (s2 := match granted with [] => s1 | _ => _ end).
    assert (fok None s2) as H2.
    { unfold s2. destruct granted; [done|]. by apply rampStep_ok, sync_ok. }
    case_match; [by apply clear_ok|done].
  - assert (g_queue (group_of s gid) = []) as -> by (unfold group_of; by rewrite Eg).
    cbn [drain_loop negb andb fst]. by apply clear_ok.
Qed.

(** ** Groups *)

Lemma markBusy_fquiet gid s : fquiet s (markGroupBusyLocked gid s).
Proof.
  unfold markGroupBusyLocked, idleUnlinkLocked. destruct (g_idleListed _); cbn [negb]; [|done].
  transitivity (upd_group gid (set_g_idleListed false) s); [by apply fupd_quiet|done].
Qed.
Lemma markBusy_heap gid s : is_Some (sd_heap s !! gid) -> is_Some (sd_heap (markGroupBusyLocked gid s) !! gid).
Proof.
  intros Hs. unfold markGroupBusyLocked, idleUnlinkLocked. destruct (g_idleListed _); [|done].
  cbn. by apply lookup_alter_is_Some.
Qed.
Lemma idlePush_fquiet gid s : fquiet s (idlePushLocked gid s).
Proof.
  unfold idlePushLocked. case_match; [done|]. etransitivity; [|by apply fupd_quiet]. done.
Qed.
Lemma markIdle_fquiet gid now s : fquiet s (markGroupIdleLocked gid now s).
Proof.
  unfold markGroupIdleLocked. case_match; [done|].
  set (s1 := if _ && _ then _ else s).
  transitivity s1; [|apply idlePush_fquiet]. unfold s1. case_match; [by apply fupd_quiet|done].
Qed.
Lemma idleUnlink_fquiet gid s : fquiet s (idleUnlinkLocked gid s).
Proof.
  unfold idleUnlinkLocked. case_match; [done|].
  transitivity (upd_group gid (set_g_idleListed false) s); [by apply fupd_quiet|done].
Qed.

Lemma adopt_fview p g now : fview (adoptPacingLocked p g now).2 = fview g.
Proof.
  unfold adoptPacingLocked. destruct (pacing_take p (g_key g)) as [p' [st|]]; [|done].
  cbv zeta. by destruct (After _ _).
Qed.

Lemma groupFor_ok s key maxConcurrent applyCap now :
  fok None s -> fok None (groupForLocked s key maxConcurrent applyCap now).1.
Proof.
  intros Hf. unfold groupForLocked. destruct (sd_groups s !! key) as [gid|].
  - cbn [fst]. case_match; [|done]. eapply fquiet_ok; [by apply fupd_quiet|done].
  - pose proof (adopt_fview (sd_pacing s) (newGroup key maxConcurrent) now) as Hv.
    destruct (adoptPacingLocked _ _ now) as [pacing g]. cbn [fst snd] in *.
    eapply fquiet_ok; [apply idlePush_fquiet|].
    pose proof (create_finv None (fst_of s) (fresh (dom (sd_heap s))) Hf) as Hc.
    unfold fok. match goal with |- finv None ?f => replace f with
      (f_put (fresh (dom (sd_heap s))) (FGroup "" None None None false false []) (fst_of s)) end.
    + apply Hc. cbn. by rewrite lookup_fmap, fresh_group.
    + unfold f_put, fst_of. cbn. rewrite fmap_insert, Hv. done.
Qed.

Lemma link_view iid gid s i g :
  sd_indexes s !! iid = Some i -> sd_heap s !! gid = Some g ->
  gid ∉ pi_groups i ->
  linkLocked iid gid s = upd_index iid (fun i => set_pi_groups (seq_push (pi_groups i) gid) i) s.
Proof.
  intros Hi Hg Hn. unfold linkLocked, index_of. rewrite Hi. cbn. by rewrite bool_decide_eq_false_2.
Qed.

Lemma attribute_index_ok s gid provider iid i g :
  fok None s -> provider <> ""%string -> sd_heap s !! gid = Some g -> g_provider g = ""%string ->
  sd_providerGroups s !! provider = Some iid -> sd_indexes s !! iid = Some i ->
  fok None (let s := upd_group gid (fun g => set_g_providerFair (Some iid) (set_g_providerQueued (Some iid)
             (set_g_providerIdx (Some iid) (set_g_provider provider g)))) s in
   let s := if g_hasQueued (group_of s gid)
           then upd_index iid (fun i => set_pi_queued (pi_queued i + 1) i) s else s in
   linkLocked iid gid s).
Proof.
  intros Hf Hp Hg Hgp Hpg Hi. cbv zeta. set (s1 := upd_group gid _ s).
  assert (gid ∉ pi_groups i) as Hn.
  { intros Hin. destruct (xo_groups _ _ _ (fi_index _ _ Hf _ _ (findex_some _ _ _ Hi)) gid Hin) as (v & Hv & Hvi).
    rewrite (fheap _ _ _ Hg) in Hv. injection Hv as <-.
    destruct (fo_unattr _ _ _ _ (fi_group _ _ Hf _ _ (fheap _ _ _ Hg)) Hgp). congruence. }
  pose proof (attribute_finv None (fst_of s) gid (fview g) Hf (fheap _ _ _ Hg) provider iid (iview i)
    Hgp Hp Hpg (findex_some _ _ _ Hi)) as HF.
  assert (group_of s1 gid = set_g_providerFair (Some iid) (set_g_providerQueued (Some iid)
     (set_g_providerIdx (Some iid) (set_g_provider provider g)))) as ->
    by (apply group_of_lookup; exact (alter_lookup s gid _ g Hg)).
  cbn [g_hasQueued set_g_providerFair set_g_providerQueued set_g_providerIdx set_g_provider].
  unfold fok. match goal with |- finv None ?f => match type of HF with finv None ?f' => replace f with f' end end; [done|].
  assert (sd_heap s1 !! gid = Some (set_g_providerFair (Some iid) (set_g_providerQueued (Some iid)
     (set_g_providerIdx (Some iid) (set_g_provider provider g))))) as Hg1 by (exact (alter_lookup s gid _ g Hg)).
  assert (sd_indexes s1 !! iid = Some i) as Hi1 by done. cbn [fg_has fview].
  destruct (g_hasQueued g).
  - set (s2 := upd_index iid _ s1).
    assert (sd_indexes s2 !! iid = Some (set_pi_queued (pi_queued i + 1) i)) as Hi2.
    { unfold s2. cbn. by rewrite lookup_alter_eq, Hi. }
    rewrite (link_view iid gid s2 _ _ Hi2 Hg1 Hn). unfold f_both, fst_of. cbn. f_equal.
    + by rewrite (alter_view _ _ _ _ _ Hg).
    + rewrite alter_alter, decide_True by done. by rewrite (alter_view _ _ _ _ _ Hi).
  - rewrite (link_view iid gid s1 _ _ Hi1 Hg1 Hn). unfold f_both, fst_of. cbn. f_equal.
    + by rewrite (alter_view _ _ _ _ _ Hg).
    + rewrite (alter_view _ _ _ _ _ Hi). f_equal. unfold iview. cbn. by rewrite Z.add_0_r.
Qed.

Lemma attribute_ok s gid provider :
  is_Some (sd_heap s !! gid) -> fok None s -> fok None (attributeProviderLocked gid provider s).
Proof.
  intros [g Hg] Hf. unfold attributeProviderLocked. rewrite (group_of_lookup _ _ _ Hg).
  destruct (bool_decide (provider = "")) eqn:E1; [done|].
  destruct (bool_decide (g_provider g = "")) eqn:E2; [|done]. cbn [orb negb].
  apply bool_decide_eq_false in E1. apply bool_decide_eq_true in E2.
  destruct (sd_providerGroups s !! provider) as [iid|] eqn:Ep.
  - destruct (fi_provider _ _ Hf provider iid Ep) as [v Hv]. apply findex_inv in Hv as (i & Hi & _).
    by apply (attribute_index_ok s gid provider iid i g).
  - set (iid := fresh _). set (s1 := set_sd_providerGroups _ _).
    assert (sd_indexes s !! iid = None) as Hn by apply not_elem_of_dom, is_fresh.
    apply (attribute_index_ok s1 gid provider iid newProviderIndex g); try done.
    + unfold fok. replace (fst_of s1) with (FState (fs_heap (fst_of s))
        (<[iid := FIndex [] [] 0 0]> (fs_indexes (fst_of s))) (<[provider := iid]> (fs_providers (fst_of s)))).
      * apply new_index_finv; [done| |done]. cbn. by rewrite lookup_fmap, Hn.
      * unfold s1, fst_of. cbn. by rewrite fmap_insert.
    + unfold s1. cbn. by rewrite lookup_insert_eq.
    + unfold s1. cbn. by rewrite lookup_insert_eq.
Qed.

Lemma detach_ok s gid :
  g_gateWaiting (group_of s gid) = false -> fok None s -> fok None (detachProviderLocked gid s).
Proof.
  intros Hw Hf. unfold detachProviderLocked. destruct (g_providerIdx (group_of s gid)) as [iid|] eqn:Ei; [|done].
  destruct (attributed None s gid iid Hf Ei) as (g & i & Hg & Hgg & Hi). rewrite Hgg in *.
  set (s1 := upd_group gid _ s).
  destruct (fo_idx _ _ _ _ (fi_group _ _ Hf _ _ (fheap _ _ _ Hg)) iid Ei) as (_ & Hp & k & Hk & Hin & _).
  rewrite (findex_some _ _ _ Hi) in Hk. injection Hk as <-. cbn in Hin, Hp.
  set (h := fun i => let i := set_pi_groups (seq_remove (pi_groups i) gid) i in
        if bool_decide (pi_cursor i = Some gid) then set_pi_cursor None i else i).
  assert (unlinkLocked iid gid s1 = upd_index iid h s1) as ->.
  { unfold unlinkLocked. assert (index_of s1 iid = i) as -> by (unfold index_of; by change (sd_indexes s1) with (sd_indexes s); rewrite Hi).
    by rewrite bool_decide_eq_true_2. }
  set (s2 := upd_index iid h s1).
  assert (iview (h i) = FIndex (seq_remove (pi_groups i) gid) (pi_fair i) (pi_fairCount i) (pi_queued i)) as Hh.
  { unfold h. by case_bool_decide. }
  assert (Hf2 : fok None s2).
  { unfold fok, s2, s1. rewrite (fboth_view _ _ _ _ _ _ _ Hg Hi), Hh.
    exact (detach_finv None (fst_of s) gid (fview g) Hf (fheap _ _ _ Hg) iid (iview i) Ei (findex_some _ _ _ Hi) Hw). }
  assert (sd_indexes s2 !! iid = Some (h i)) as Hi2.
  { unfold s2, s1. cbn. by rewrite lookup_alter_eq, Hi. }
  assert (index_of s2 iid = h i) as -> by (unfold index_of; by rewrite Hi2).
  case_bool_decide as He; [|done]. case_bool_decide as Hpp; [|done]. cbn [andb].
  refine (drop_index_finv None (fst_of s2) (g_provider g) iid (iview (h i)) Hf2 Hpp (findex_some _ _ _ Hi2) He).
Qed.

Lemma upd_field {A} (p : group -> A) gid f s :
  (forall g, p (f g) = p g) -> p (group_of (upd_group gid f s) gid) = p (group_of s gid).
Proof.
  intros Hp. unfold group_of. cbn. rewrite lookup_alter_eq. destruct (sd_heap s !! gid); [apply Hp|done].
Qed.

Lemma evict_ok s gid : fok None s -> fok None (evictIdleGroupLocked gid s).1.
Proof.
  intros Hf. unfold evictIdleGroupLocked. destruct (_ || _); [done|].
  set (s1 := upd_group gid (set_g_retired true) s).
  assert (fok None s1) as H1 by (eapply fquiet_ok; [by apply fupd_quiet|done]).
  pose proof (clear_ok None s1 gid H1) as H2. pose proof (clear_waiting None s1 gid H1) as Hw2.
  set (s2 := clearGateWaitingLocked gid s1) in *.
  set (s3 := upd_group gid _ s2).
  assert (fok None s3) as H3 by (eapply fquiet_ok; [by apply fupd_quiet|done]).
  assert (Hw3 : g_gateWaiting (group_of s3 gid) = false).
  { unfold s3. by rewrite (upd_field g_gateWaiting). }
  pose proof (idleUnlink_fquiet gid s3) as H4. set (s4 := idleUnlinkLocked gid s3) in *.
  assert (fok None s4) as H4' by (by eapply fquiet_ok).
  assert (Hw4 : g_gateWaiting (group_of s4 gid) = false).
  { unfold s4, idleUnlinkLocked. case_match; [done|].
    change (g_gateWaiting (group_of (upd_group gid (set_g_idleListed false) s3) gid) = false).
    by rewrite (upd_field g_gateWaiting). }
  case_match; [done|].
  set (s5 := set_sd_groups _ s4).
  assert (fok None (detachProviderLocked gid s5)) as H5.
  { apply detach_ok; [done|]. by apply (fquiet_ok None s4). }
  cbn [fst]. case_match; [|done]. by eapply fquiet_ok.
Qed.

Lemma makeRoom_ok fuel : forall s, fok None s -> fok None (makeGroupRoom_loop fuel s).
Proof.
  induction fuel as [|fuel IH]; intros s Hf; [done|]. cbn [makeGroupRoom_loop].
  case_match; [done|]. unfold popIdleGroupLocked. destruct (sd_idle s) as [|gid l]; [done|].
  apply IH, evict_ok. eapply fquiet_ok; [apply idleUnlink_fquiet|done].
Qed.

Lemma groupFor_heap s key maxConcurrent applyCap now :
  winv (wst_of s) -> is_Some (sd_heap (groupForLocked s key maxConcurrent applyCap now).1
                                !! (groupForLocked s key maxConcurrent applyCap now).2).
Proof.
  intros Hw. pose proof (groupForLocked_sim s key maxConcurrent applyCap now Hw) as H.
  destruct (groupForLocked _ _ _ _ _). destruct H as (_ & _ & g & Hg & _). cbn. by eexists.
Qed.

Lemma lookup_ok s key maxConcurrent provider now :
  winv (wst_of s) -> fok None s -> fok None (acquire_lookup s key maxConcurrent provider now).1.
Proof.
  intros Hw Hf. unfold acquire_lookup.
  set (q := if bool_decide _ then _ else (s, false)).
  assert (Hq : fok None q.1 /\ winv (wst_of q.1)).
  { unfold q. case_bool_decide; [|done]. cbn [fst].
    pose proof (makeRoom_sim (S (length (sd_idle s))) s Hw ltac:(lia)) as Hm. split; [by apply makeRoom_ok|].
    eapply wsteps_inv; [exact Hw|apply Hm]. }
  destruct q as [s1 full]. destruct Hq as [Hf1 Hw1]. cbn [fst] in *. destruct full; [done|].
  pose proof (groupFor_ok s1 key maxConcurrent true now Hf1) as Hf2.
  pose proof (groupFor_heap s1 key maxConcurrent true now Hw1) as Hh.
  destruct (groupForLocked s1 key maxConcurrent true now) as [s2 gid]. by apply attribute_ok.
Qed.

(** ** Acquire and its release *)

Lemma enter_ok s gid hooks enqueued now :
  is_Some (sd_heap s !! gid) -> fok None s -> fok None (acquire_enter s gid hooks enqueued now).1.
Proof.
  intros [g Hg] Hf. unfold acquire_enter. destruct (g_retired _); [done|].
  assert (HF : fok None (acquire_fast s gid hooks now).1 /\
    is_Some (sd_heap (acquire_fast s gid hooks now).1 !! gid) ).
  { unfold acquire_fast. destruct (_ && _); [|split; [done|by eexists]].
    pose proof (admit_ok None s gid now (wh_Provider hooks) (wh_EstTokens hooks) Hf) as H1.
    pose proof (admitLocked_frame s gid now (wh_Provider hooks) (wh_EstTokens hooks)) as Hfr.
    destruct (admitLocked _ _ _ _ _) as [[[[s1 ok] lease] wait] gateBlocked]. cbn [fst] in *.
    destruct (frame_lookup s s1 gid g Hfr Hg) as (g1 & Hg1 & _).
    destruct ok; cbn [fst].
    - split.
      + eapply fquiet_ok; [apply markBusy_fquiet|]. eapply fquiet_ok; [by apply fupd_quiet|done].
      + pose proof (alter_lookup s1 gid (fun g => set_g_inFlight (g_inFlight g + 1) g) g1 Hg1) as Hg2.
        apply markBusy_heap. rewrite Hg2. by eexists.
    - case_match; [split; [by apply armDrain_ok|by eexists]|split; [done|by eexists]]. }
  destruct (acquire_fast s gid hooks now) as [s1 [lease|]]; cbn [fst] in HF; destruct HF as [H1 [g1 Hg1]].
  { unfold slotRelease. by apply (fquiet_ok None s1). }
  destruct (_ && _); [done|]. destruct (acquire_hold _ _ _ _) as [holds reserved].
  destruct reserved; cbn [negb fst]; [|by apply (fquiet_ok None s1)].
  eapply fquiet_ok; [apply markBusy_fquiet|]. apply sync_ok.
  set (s2 := set_sd_waiters _ (set_sd_holds holds s1)).
  by eapply (queue_ok None s2 gid _ (seq_push (g_queue g1) _) g1); [by left| |exact Hg1|].
Qed.

Lemma remove_fair_ok s wid now :
  is_Some (sd_waiters s !! wid) -> winv (wst_of s) -> fok None s -> fok None (removeWaiter s wid now).1.
Proof.
  intros [w Hwt] Hw Hf. destruct (waiter_group s wid w Hw Hwt) as [g Hg].
  unfold removeWaiter. rewrite (waiter_of_lookup _ _ _ Hwt). cbn [fst].
  set (gid := w_group w) in *. set (s1 := if bool_decide _ then _ else _).
  assert (fok None s1) as H1.
  { unfold s1. case_bool_decide.
    - apply sync_ok. by eapply (queue_ok None s gid _ (seq_remove (g_queue g) wid) g); [by left|done|done|].
    - eapply fquiet_ok; [apply fupd_quiet; intros g'; by case_match|done]. }
  pose proof (markIdle_fquiet gid now s1) as H2.
  apply (fquiet_ok None (markGroupIdleLocked gid now s1)); [done|]. by eapply fquiet_ok.
Qed.

Lemma turn_ok s wid deadline now :
  is_Some (sd_waiters s !! wid) -> winv (wst_of s) -> fok None s ->
  fok None (acquire_turn s wid deadline now).1.1.
Proof.
  intros Hs Hw Hf. unfold acquire_turn. destruct (queueDrained _ _ _ _ _).
  { pose proof (remove_fair_ok s wid now Hs Hw Hf) as H. by destruct (removeWaiter s wid now). }
  destruct (sched_matchingHold _ _ _).
  - repeat case_match; done.
  - destruct (syncUnhold _ _ _) as [holds held]. destruct held; [done|]. by destruct (IsZero _).
Qed.

Lemma settle_fquiet s sid actual now : fquiet s (settle_slot s sid actual now).
Proof. unfold settle_slot. by repeat case_match. Qed.
Lemma release_fquiet s sid now : fquiet s (release_slot s sid now).
Proof.
  unfold release_slot, group_release. repeat case_match; try done.
  etransitivity; [|apply markIdle_fquiet]. etransitivity; [|apply fupd_quiet; intros g; by case_match]. done.
Qed.

(** ** The send gate and the policy edges *)

Lemma armLater_ok x gid d now s : fok x s -> fok x (armPacingLaterLocked gid d now s).
Proof.
  intros Hf. unfold armPacingLaterLocked. case_match; [|done]. case_match; [|done].
  apply clear_ok. eapply fquiet_ok; [by apply fupd_quiet|done].
Qed.

Lemma extend_ok s key d claim now : fok None s -> fok None (extendWindow s key d claim now).1.
Proof.
  intros Hf. unfold extendWindow. pose proof (groupFor_ok s key 0 false now Hf) as H1.
  destruct (groupForLocked s key 0 false now) as [s1 gid]. cbn [fst] in H1.
  pose proof (armLater_ok None gid d now s1 H1) as H2.
  set (s2 := armPacingLaterLocked gid d now s1) in *.
  set (s3 := if _ || _ then _ else s2).
  assert (fok None s3) as H3.
  { unfold s3. case_match; [|done]. eapply fquiet_ok; [by apply fupd_quiet|done]. }
  case_match; [|done]. eapply fquiet_ok; [by apply fupd_quiet|done].
Qed.

Lemma fail_ok opts gid own r now s : fok None s -> fok None (FailSend_apply opts gid own r now s).
Proof.
  intros Hf. unfold FailSend_apply. set (s1 := if own then _ else s).
  assert (fok None s1) as H1.
  { unfold s1. case_match; [|done]. eapply fquiet_ok; [by apply fupd_quiet|done]. }
  eapply fquiet_ok; [by apply fupd_quiet|]. apply armLater_ok. eapply fquiet_ok; [by apply fupd_quiet|done].
Qed.

Lemma wait_fquiet s c hooks honorHold own now : fquiet s (WaitSend_turn s c hooks honorHold own now).1.1.
Proof.
  unfold WaitSend_turn. destruct (queueDrained _ _ _ _ _); [done|].
  destruct (if honorHold then _ else None) as [h|].
  - cbv zeta. destruct (IsZero _); [done|]. by destruct (_ <=? 0).
  - cbv zeta. destruct (_ || _).
    + apply fupd_quiet. intros g. unfold parkSendLocked. by case_match.
    + destruct (_ || _); [done|]. by apply fupd_quiet.
Qed.
Lemma waitend_fquiet s c : fquiet s (WaitSend_end s c).
Proof. unfold WaitSend_end. case_match; [|done]. apply fupd_quiet. intros g. by case_match. Qed.
Lemma backoff_fquiet opts gid retryAfter r s : fquiet s (BackoffFor_apply opts gid retryAfter r s).1.
Proof. unfold BackoffFor_apply. destruct (backoff_step _ _ _ _ _). by apply fupd_quiet. Qed.

Lemma fold_ok {A} (f : sched -> A -> sched) l x :
  (forall s a, fok x s -> fok x (f s a)) -> forall s, fok x s -> fok x (fold_left f l s).
Proof. intros Hf. induction l as [|a l IH]; intros s Hs; [done|]. cbn. by apply IH, Hf. Qed.

Lemma markQueued_ok x provider now s : fok x s -> fok x (markQueuedProviderGroups provider now s).
Proof.
  intros Hf. unfold markQueuedProviderGroups. destruct (_ !! _) as [iid|]; [|done]. case_match; [done|].
  apply fold_ok; [|done]. intros s1 gid H1. case_match; [done|]. case_match; [by apply mark_ok|done].
Qed.
Lemma resetRamps_ok x gids s : fok x s -> fok x (resetRamps gids s).
Proof. apply fold_ok. intros s1 gid H1. eapply fquiet_ok; [by apply fupd_quiet|done]. Qed.
Lemma throttle_ok x s provider update now : fok x s -> fok x (sched_UpdateThrottle s provider update now).1.
Proof.
  intros Hf. unfold sched_UpdateThrottle. destruct (UpdateThrottle _ _ _ _) as [[gates changed] rampChanged].
  cbn [fst]. destruct rampChanged; [|done]. unfold resetProviderRamps.
  destruct (_ !! _); [|done]. by apply resetRamps_ok.
Qed.
Lemma throttles_ok x s ts now : fok x s -> fok x (sched_RestoreThrottles s ts now).
Proof.
  intros Hf. unfold sched_RestoreThrottles, resetAllRamps. apply fold_ok; [|done].
  intros. by apply resetRamps_ok.
Qed.

Lemma snapshot_fquiet s iid : fquiet s (upd_index iid (fun _ => (fairSnapshot (index_of s iid)).1) s).
Proof.
  unfold fquiet, fst_of. cbn. f_equal. apply map_eq. intros j. rewrite !lookup_fmap.
  destruct (decide (iid = j)) as [<-|Hne]; [|by rewrite lookup_alter_ne].
  rewrite lookup_alter_eq. unfold index_of. destruct (sd_indexes s !! iid) as [i|]; [|done]. cbn.
  f_equal. unfold fairSnapshot.
  destruct (pi_fair i); [done|]. destruct (pi_cursor i); [|done]. by destruct (from_value _ _).
Qed.

Lemma queued_ok x s wid now : fok x s -> fok x (acquire_queued s wid now).
Proof. intros Hf. unfold acquire_queued. by destruct (sched_matchingHold _ _ _). Qed.
Lemma drainMark_ok x gid now s : fok x s -> fok x (drainAdmission_mark gid now s).
Proof. intros Hf. unfold drainAdmission_mark. case_match; [done|by apply mark_ok]. Qed.
Lemma drainQueue_ok x s scope : fok x s -> fok x (DrainQueue s scope).1.
Proof. intros Hf. unfold DrainQueue. by destruct (publishDrain _ _). Qed.

Lemma step_ok s s' : winv (wst_of s) -> schedStep s s' -> fok None s -> fok None s'.
Proof.
  intros Hw [] Hf; first
    [ solve [auto using lookup_ok, enter_ok, turn_ok, remove_fair_ok, drainLimited_ok, markQueued_ok, extend_ok,
        groupFor_ok, fail_ok, throttle_ok, throttles_ok, queued_ok, drainMark_ok, drainQueue_ok]
    | eapply fquiet_ok; [|exact Hf]; solve [done | auto using settle_fquiet, release_fquiet, snapshot_fquiet,
        backoff_fquiet, wait_fquiet, waitend_fquiet | by apply fupd_quiet | by apply fidx_quiet] ].
Qed.

Lemma reached_fok opts cap s : reached opts cap s -> fok None s.
Proof.
  unfold reached. intros H. remember (start opts cap) as s0 eqn:E.
  assert (fok None s0 /\ winv (wst_of s0)) as [Hf Hw].
  { subst s0. rewrite start_view. split; [|apply winv_empty]. unfold fok, start, fst_of. cbn.
    rewrite !fmap_empty. apply finv_empty. }
  clear E. induction H as [|s1 s2 s3 Hs _ IH]; [done|]. apply IH.
  - by eapply step_ok.
  - eapply wsteps_inv; [exact Hw|by apply schedStep_sim].
Qed.

(** ** The properties *)

(** The groups counted at an index whose queue is not empty. *)
Definition queued_at (iid : nat) (s : sched) : Z :=
  total (fun g => if decide (g_providerQueued g = Some iid /\ g_queue g <> []) then 1 else 0) (sd_heap s).

(** C4. In every reachable state the lock-free witnesses tell the truth: a
    group's [hasQueued] is its queue being non-empty; an attributed group is
    listed in its provider's current index and its waiting mark is membership
    of that index's fair set, which only groups with queued callers join; an
    index lists its groups and its fair set without repetition, its fair count
    is the size of the set and its queued count the number of its groups with
    callers queued; so the fast path's test passes exactly when no key of the
    provider waits on the provider's gate. *)
Theorem fair_index_exact opts cap s :
  reached opts cap s ->
  (forall gid g, sd_heap s !! gid = Some g ->
     g_hasQueued g = negb (bool_decide (g_queue g = [])) /\
     (g_gateWaiting g = true -> g_queue g <> []) /\
     (forall iid, g_providerIdx g = Some iid ->
        sd_providerGroups s !! g_provider g = Some iid /\
        gid ∈ pi_groups (index_of s iid) /\
        (g_gateWaiting g = true <-> gid ∈ pi_fair (index_of s iid))) /\
     (providerFairIdle s g = true <->
        forall iid other, g_providerIdx g = Some iid -> g_providerIdx (group_of s other) = Some iid ->
          g_gateWaiting (group_of s other) = false)) /\
  (forall iid i, sd_indexes s !! iid = Some i ->
     NoDup (pi_groups i) /\ NoDup (pi_fair i) /\
     pi_fairCount i = Z.of_nat (length (pi_fair i)) /\ pi_queued i = queued_at iid s /\
     (forall gid, gid ∈ pi_groups i -> g_providerIdx (group_of s gid) = Some iid) /\
     (forall gid, gid ∈ pi_fair i ->
        g_providerIdx (group_of s gid) = Some iid /\ g_gateWaiting (group_of s gid) = true)).
Proof.
  intros H. pose proof (reached_fok _ _ _ H) as Hf.
  assert (Hidx : forall iid i, sd_indexes s !! iid = Some i -> index_of s iid = i).
  { intros iid i Hi. unfold index_of. by rewrite Hi. }
  assert (Hgrp : forall gid g, sd_heap s !! gid = Some g -> fgroup_ok None (fst_of s) gid (fview g)).
  { intros gid g Hg. exact (fi_group _ _ Hf _ _ (fheap _ _ _ Hg)). }
  assert (Hatt : forall gid g iid, sd_heap s !! gid = Some g -> g_providerIdx g = Some iid ->
    exists i, sd_indexes s !! iid = Some i /\ gid ∈ pi_groups i /\ (g_gateWaiting g = true <-> gid ∈ pi_fair i) /\
      sd_providerGroups s !! g_provider g = Some iid).
  { intros gid g iid Hg Hi. destruct (fo_idx _ _ _ _ (Hgrp gid g Hg) iid Hi) as (_ & Hp & k & Hk & Hin & Hw).
    apply findex_inv in Hk as (i & Hk & ->). by exists i. }
  assert (Hmem : forall iid i gid, sd_indexes s !! iid = Some i -> gid ∈ pi_fair i ->
    g_providerIdx (group_of s gid) = Some iid /\ g_gateWaiting (group_of s gid) = true).
  { intros iid i gid Hi Hin.
    destruct (xo_fair _ _ _ (fi_index _ _ Hf _ _ (findex_some _ _ _ Hi)) gid Hin) as (v & Hv & Hvi).
    apply fheap_inv in Hv as (g & Hg & ->). rewrite (group_of_lookup _ _ _ Hg). split; [done|].
    destruct (Hatt gid g iid Hg Hvi) as (k & Hk & _ & Hw & _). apply Hw. congruence. }
  split.
  - intros gid g Hg. pose proof (Hgrp gid g Hg) as Hok. split_and!.
    + by apply (fo_has _ _ _ _ Hok).
    + by apply (fo_wait _ _ _ _ Hok).
    + intros iid Hi. destruct (Hatt gid g iid Hg Hi) as (i & Hii & Hin & Hw & Hp). by rewrite (Hidx _ _ Hii).
    + unfold providerFairIdle. rewrite (fo_fair _ _ _ _ Hok : g_providerFair g = g_providerIdx g).
      destruct (g_providerIdx g) as [iid|] eqn:Ei; [|done].
      destruct (Hatt gid g iid Hg Ei) as (i & Hii & _ & _ & _). rewrite (Hidx _ _ Hii), Z.eqb_eq.
      rewrite (xo_count _ _ _ (fi_index _ _ Hf _ _ (findex_some _ _ _ Hii)) : pi_fairCount i = _). cbn [fx_fair iview].
      split.
      * intros Hz iid2 other [= <-] Ho. destruct (g_gateWaiting (group_of s other)) eqn:Ew; [|done].
        destruct (attributed None s other iid Hf Ho) as (g2 & i2 & Hg2 & Hgg & Hi2). rewrite Hgg in *.
        destruct (Hatt other g2 iid Hg2 Ho) as (k & Hk & _ & Hw & _). rewrite Hii in Hk. injection Hk as <-.
        apply Hw in Ew. destruct (pi_fair i); [by apply elem_of_nil in Ew|done].
      * intros Hall. destruct (pi_fair i) as [|o l] eqn:Eo; [done|].
        destruct (Hmem iid i o Hii ltac:(rewrite Eo; by left)) as [Ho1 Ho2].
        rewrite (Hall iid o eq_refl Ho1) in Ho2. done.
  - intros iid i Hi. destruct (fi_index _ _ Hf _ _ (findex_some _ _ _ Hi)) as [C1 C2 C3 C4 C5 C6].
    split_and!; try done.
    + rewrite (C6 : pi_queued i = _). cbn. rewrite total_fmap. apply total_ext. intros gid g Hg. unfold counts.
      apply decide_ext. cbn. rewrite (fo_has _ _ _ _ (Hgrp gid g Hg) ltac:(done) : g_hasQueued g = _).
      rewrite negb_true_iff, bool_decide_eq_false. done.
    + intros gid Hin. destruct (C1 gid Hin) as (v & Hv & Hvi). apply fheap_inv in Hv as (g & Hg & ->).
      by rewrite (group_of_lookup _ _ _ Hg).
    + intros gid Hin. by eapply Hmem.
Qed.

(** C38. Every identity stored in a reachable state resolves, and to an object
    that refers back: keys, the idle order, queues, parked callers, unreleased
    slots, provider names, the members of an index and the index pointers of a
    group. *)
Theorem sched_no_dangling opts cap s :
  reached opts cap s ->
  map_Forall (fun key gid => exists g, sd_heap s !! gid = Some g /\ g_key g = key /\ g_retired g = false)
    (sd_groups s) /\
  Forall (fun gid => exists g, sd_heap s !! gid = Some g /\ g_idleListed g = true) (sd_idle s) /\
  map_Forall (fun gid g =>
    Forall (fun wid => exists w, sd_waiters s !! wid = Some w /\ w_group w = gid) (g_queue g) /\
    (forall iid, g_providerIdx g = Some iid \/ g_providerQueued g = Some iid \/ g_providerFair g = Some iid ->
       is_Some (sd_indexes s !! iid))) (sd_heap s) /\
  map_Forall (fun _ w => is_Some (sd_heap s !! w_group w)) (sd_waiters s) /\
  map_Forall (fun _ sl => is_Some (sd_heap s !! sl_group sl)) (sd_slots s) /\
  map_Forall (fun _ iid => is_Some (sd_indexes s !! iid)) (sd_providerGroups s) /\
  map_Forall (fun iid i => Forall (fun gid => is_Some (sd_heap s !! gid)) (pi_groups i ++ pi_fair i))
    (sd_indexes s).
Proof.
  intros H. pose proof (reached_fok _ _ _ H) as Hf. pose proof (reached_inv _ _ _ H) as Hw.
  assert (Hix : forall iid, is_Some (fs_indexes (fst_of s) !! iid) -> is_Some (sd_indexes s !! iid)).
  { intros iid [v Hv]. apply findex_inv in Hv as (i & Hi & _). by eexists. }
  split_and!.
  - intros key gid Hk. destruct (wi_groups _ Hw _ _ Hk) as (v & Hv & Hvk).
    apply ws_heap_inv in Hv as (g & Hg & ->). exists g. split_and!; [done|done|].
    destruct (group_live s key gid Hw Hk) as (_ & g2 & Hg2 & Hr). congruence.
  - apply Forall_forall. intros gid Hin. destruct (wi_idle_heap _ Hw gid Hin) as [v Hv].
    pose proof Hv as Hv'. apply ws_heap_inv in Hv as (g & Hg & ->). exists g. split; [done|].
    by apply (wo_idle _ _ _ (wi_group _ Hw _ _ Hv')).
  - intros gid g Hg. split.
    + apply Forall_forall. intros wid Hin.
      apply (wo_queue _ _ _ (wi_group _ Hw _ _ (ws_heap_lookup _ _ _ Hg))) in Hin.
      apply waiter_inv in Hin as (w & Hwt & Hv). exists w. by injection Hv.
    + pose proof (fi_group _ _ Hf _ _ (fheap _ _ _ Hg)) as Hok. intros iid Hi. apply Hix.
      assert (g_providerIdx g = Some iid \/ g_providerQueued g = Some iid) as [Hi'|Hi'].
      { destruct Hi as [?|[?|Hi]]; [by left|by right|].
        left. by rewrite <- (fo_fair _ _ _ _ Hok : g_providerFair g = g_providerIdx g). }
      * destruct (fo_idx _ _ _ _ Hok iid Hi') as (_ & _ & k & Hk & _). by eexists.
      * by apply (fo_queued _ _ _ _ Hok).
  - intros wid w Hwt. destruct (waiter_group s wid w Hw Hwt) as [g Hg]. by eexists.
  - intros sid sl Hs. destruct (wi_slots _ Hw sid (sl_group sl)) as [v Hv].
    { cbn. by rewrite lookup_fmap, Hs. }
    apply ws_heap_inv in Hv as (g & Hg & _). by eexists.
  - intros p iid Hp. apply Hix. by eapply (fi_provider _ _ Hf).
  - intros iid i Hi. destruct (fi_index _ _ Hf _ _ (findex_some _ _ _ Hi)) as [C1 C2 _ _ _ _].
    apply Forall_app. split; apply Forall_forall; intros gid Hin.
    + destruct (C1 gid Hin) as (v & Hv & _). apply fheap_inv in Hv as (g & Hg & _). by eexists.
    + destruct (C2 gid Hin) as (v & Hv & _). apply fheap_inv in Hv as (g & Hg & _). by eexists.
Qed.

(** ** A provider of one slot: the first key holds it, the second waits *)

Definition demo_hooks_p : WaiterHooks :=
  {| wh_Client := "cli"; wh_Provider := "p"; wh_Model := "m"; wh_EstTokens := 0; wh_OnHold := false;
     wh_OnUnhold := false |}.
Definition fdemo1 : sched :=
  (sched_UpdateThrottle (start demo_opts 8) "p"
     (fun _ => MkThrottle "p" (Build_Limit 1 0 0 0 0 false 0) "ui" "dashboard" demo_time) demo_time).1.
Definition fdemo2 : sched := (acquire_lookup fdemo1 "a" 0 "p" demo_time).1.
Definition fdemo3 : sched := (acquire_enter fdemo2 0 demo_hooks_p demo_time demo_time).1.
Definition fdemo4 : sched := (acquire_lookup fdemo3 "b" 0 "p" demo_time).1.
Definition fdemo5 : sched := (acquire_enter fdemo4 1 demo_hooks_p demo_time demo_time).1.
Definition fdemo6 : sched := drainAdmission_mark 1 demo_time fdemo5.

Lemma fdemo_reached : reached demo_opts 8 fdemo6.
Proof.
  eapply rtc_l; [apply ss_throttle|]. eapply rtc_l; [apply ss_lookup|].
  eapply rtc_l; [apply (ss_enter fdemo2 0 demo_hooks_p demo_time demo_time); vm_compute; by eexists|].
  eapply rtc_l; [apply (ss_lookup fdemo3)|].
  eapply rtc_l; [apply (ss_enter fdemo4 1 demo_hooks_p demo_time demo_time); vm_compute; by eexists|].
  apply rtc_once. apply ss_mark.
Qed.

Lemma fair_index_exact_witness :
  exists i, sd_indexes fdemo6 !! 0%nat = Some i /\ pi_fair i = [1%nat] /\ pi_fairCount i = 1 /\
    pi_queued i = queued_at 0 fdemo6 /\ queued_at 0 fdemo6 = 1.
Proof.
  pose proof (fair_index_exact demo_opts 8 fdemo6 fdemo_reached) as [_ H].
  destruct (sd_indexes fdemo6 !! 0%nat) as [i|] eqn:E; [|by vm_compute in E].
  destruct (H 0%nat i E) as (_ & _ & Hc & Hq & _). exists i. split; [done|].
  assert (pi_fair i = [1%nat]) as Hf by (vm_compute in E; by injection E as <-).
  split; [done|]. split; [by rewrite Hc, Hf|]. split; [done|vm_compute; reflexivity].
Defined.

Lemma sched_no_dangling_witness :
  sd_groups fdemo6 !! "b" = Some 1%nat /\ exists g, sd_heap fdemo6 !! 1%nat = Some g /\ g_key g = "b".
Proof.
  pose proof (sched_no_dangling demo_opts 8 fdemo6 fdemo_reached) as [H _].
  assert (sd_groups fdemo6 !! "b" = Some 1%nat) as Hk by (vm_compute; reflexivity).
  split; [exact Hk|]. destruct (H "b" 1%nat Hk) as (g & Hg & Hgk & _). exact (ex_intro _ g (conj Hg Hgk)).
Defined.
