(* ===== verification/SendInv.v ===== *)
(** The retry token of a group: who may hand it out, who returns it, and that
    nobody else sends meanwhile. *)

From stdpp Require Import relations.
From S2P Require Import Prelude GoTime GoFloat WakeTimer LinkedList Ramp Pacing Drain Hold HoldQueue Gate Sched Admission Send Drains SchedSpec SchedRun SchedSteps SchedInv.

Definition probing (s : sched) (gid : nat) : bool := g_probing (group_of s gid).
Definition tripped (s : sched) (gid : nat) : bool := g_tripped (group_of s gid).

(** No token moves and no group leaves serial sending. *)
Definition tkeep (s s' : sched) : Prop :=
  forall gid, probing s' gid = probing s gid /\ (tripped s gid = true -> tripped s' gid = true).

#[export] Instance tkeep_refl : Reflexive tkeep.
Proof. by intros s gid. Qed.
#[export] Instance tkeep_trans : Transitive tkeep.
Proof. intros s1 s2 s3 H1 H2 gid. destruct (H1 gid) as [A1 A2], (H2 gid) as [B1 B2]. split; [congruence|auto]. Qed.

Lemma heap_tkeep s s' : sd_heap s' = sd_heap s -> tkeep s s'.
Proof. intros He gid. unfold probing, tripped, group_of. by rewrite He. Qed.

Lemma frame_tkeep s s' : frame s s' -> tkeep s s'.
Proof.
  intros Hf gid. unfold probing, tripped.
  by rewrite (core_field g_probing s s'), (core_field g_tripped s s').
Qed.

Lemma group_of_upd gid f s o :
  group_of (upd_group gid f s) o =
    if decide (o = gid) then from_option f (newGroup "" 0) (sd_heap s !! gid) else group_of s o.
Proof.
  unfold group_of. cbn. case_decide as Ho; [subst|by rewrite lookup_alter_ne].
  rewrite lookup_alter_eq. by destruct (sd_heap s !! gid).
Qed.

Lemma upd_tkeep gid f s :
  (forall g, g_probing (f g) = g_probing g /\ (g_tripped g = true -> g_tripped (f g) = true)) ->
  tkeep s (upd_group gid f s).
Proof.
  intros Hf o. unfold probing, tripped. rewrite group_of_upd. case_decide as Ho; [subst|done].
  unfold group_of. destruct (sd_heap s !! gid); cbn; [apply Hf|done].
Qed.

Lemma fold_tkeep {A} (f : sched -> A -> sched) l :
  (forall s a, tkeep s (f s a)) -> forall s, tkeep s (fold_left f l s).
Proof. intros Hf. induction l as [|a l IH]; intros s; [done|]. cbn. by transitivity (f s a). Qed.

(** ** Groups *)

Lemma markBusy_tkeep gid s : tkeep s (markGroupBusyLocked gid s).
Proof.
  unfold markGroupBusyLocked, idleUnlinkLocked. repeat case_match; try done.
  etransitivity; [by apply (upd_tkeep gid (set_g_idleListed false))|by apply heap_tkeep].
Qed.
Lemma idleUnlink_tkeep gid s : tkeep s (idleUnlinkLocked gid s).
Proof.
  unfold idleUnlinkLocked. case_match; [done|].
  etransitivity; [by apply (upd_tkeep gid (set_g_idleListed false))|by apply heap_tkeep].
Qed.
Lemma idlePush_tkeep gid s : tkeep s (idlePushLocked gid s).
Proof.
  unfold idlePushLocked. case_match; [done|].
  etransitivity; [by apply (heap_tkeep s (set_sd_idle (seq_push (sd_idle s) gid) s))|by apply upd_tkeep].
Qed.
Lemma markIdle_tkeep gid now s : tkeep s (markGroupIdleLocked gid now s).
Proof.
  unfold markGroupIdleLocked. case_match; [done|]. etransitivity; [|apply idlePush_tkeep].
  case_match; [by apply upd_tkeep|done].
Qed.

Lemma groupFor_tkeep s key maxConcurrent applyCap now :
  tkeep s (groupForLocked s key maxConcurrent applyCap now).1.
Proof.
  unfold groupForLocked. destruct (sd_groups s !! key) as [gid|].
  - cbn [fst]. case_match; [by apply upd_tkeep|done].
  - assert (Hp : g_probing (adoptPacingLocked (sd_pacing s) (newGroup key maxConcurrent) now).2 = false).
    { unfold adoptPacingLocked. destruct (pacing_take _ _) as [p' [st|]]; [|done]. cbv zeta. by destruct (After _ _). }
    destruct (adoptPacingLocked _ _ now) as [pacing g]. cbn [fst snd] in *.
    etransitivity; [|apply idlePush_tkeep]. intros o. unfold probing, tripped, group_of. cbn.
    destruct (decide (o = fresh (dom (sd_heap s)))) as [->|Ho].
    + by rewrite lookup_insert_eq, fresh_group.
    + by rewrite lookup_insert_ne.
Qed.

Lemma attribute_tkeep gid provider s : tkeep s (attributeProviderLocked gid provider s).
Proof.
  assert (Hl : forall iid s, tkeep s (linkLocked iid gid s)).
  { intros iid s1. unfold linkLocked. case_match; [done|by apply heap_tkeep]. }
  unfold attributeProviderLocked. case_match; [done|].
  destruct (sd_providerGroups s !! provider) as [iid|]; cbv zeta.
  - etransitivity; [|apply Hl]. set (s1 := upd_group gid _ s).
    transitivity s1; [by apply upd_tkeep|]. case_match; [by apply heap_tkeep|done].
  - etransitivity; [|apply Hl]. set (s0 := set_sd_providerGroups _ _).
    transitivity s0; [by apply heap_tkeep|]. set (s1 := upd_group gid _ s0).
    transitivity s1; [by apply upd_tkeep|]. case_match; [by apply heap_tkeep|done].
Qed.

Lemma detach_tkeep gid s : tkeep s (detachProviderLocked gid s).
Proof.
  unfold detachProviderLocked. destruct (g_providerIdx _) as [iid|]; [|done].
  set (s1 := upd_group gid _ s). assert (tkeep s s1) as H1 by (by apply upd_tkeep).
  assert (tkeep s (unlinkLocked iid gid s1)) as H2.
  { transitivity s1; [done|]. unfold unlinkLocked. case_match; [by apply heap_tkeep|done]. }
  case_match; [|done]. etransitivity; [exact H2|by apply heap_tkeep].
Qed.

Lemma evict_tkeep gid s : tkeep s (evictIdleGroupLocked gid s).1.
Proof.
  unfold evictIdleGroupLocked. case_match; [done|].
  set (s1 := upd_group gid (set_g_retired true) s).
  set (s2 := clearGateWaitingLocked gid s1). set (s3 := upd_group gid _ s2).
  assert (tkeep s s3) as H3.
  { transitivity s1; [by apply upd_tkeep|]. transitivity s2; [apply frame_tkeep, clearGateWaiting_frame|].
    by apply upd_tkeep. }
  assert (tkeep s (idleUnlinkLocked gid s3)) as H4 by (transitivity s3; [done|apply idleUnlink_tkeep]).
  case_match; [done|]. set (s5 := set_sd_groups _ _).
  assert (tkeep s (detachProviderLocked gid s5)) as H5.
  { transitivity s5; [|apply detach_tkeep]. etransitivity; [exact H4|by apply heap_tkeep]. }
  cbn [fst]. case_match; [|done]. etransitivity; [exact H5|by apply heap_tkeep].
Qed.

Lemma makeRoom_tkeep fuel : forall s, tkeep s (makeGroupRoom_loop fuel s).
Proof.
  induction fuel as [|fuel IH]; intros s; [done|]. cbn [makeGroupRoom_loop].
  case_match; [done|]. unfold popIdleGroupLocked. destruct (sd_idle s) as [|gid l]; [done|].
  etransitivity; [|apply IH]. etransitivity; [apply idleUnlink_tkeep|apply evict_tkeep].
Qed.

Lemma lookup_tkeep s key maxConcurrent provider now :
  tkeep s (acquire_lookup s key maxConcurrent provider now).1.
Proof.
  unfold acquire_lookup. set (q := if bool_decide _ then _ else (s, false)).
  assert (tkeep s q.1) as Hq by (unfold q; case_bool_decide; [apply makeRoom_tkeep|done]).
  destruct q as [s1 full]. cbn [fst] in Hq. destruct full; [done|].
  pose proof (groupFor_tkeep s1 key maxConcurrent true now) as Hg.
  destruct (groupForLocked s1 key maxConcurrent true now) as [s2 gid]. cbn [fst] in *.
  transitivity s1; [done|]. transitivity s2; [done|apply attribute_tkeep].
Qed.

(** ** Acquire and its release *)

Lemma grants_tkeep gid new s s' : grants gid new s s' -> tkeep s s'.
Proof.
  intros [Hh _ _ _ _ _ _ _ _ _ _ _ _] o. apply (f_equal (fun m => m !! o)) in Hh. rewrite !lookup_fmap in Hh.
  unfold probing, tripped, group_of. destruct (decide (gid = o)) as [<-|Hne].
  - rewrite lookup_alter_eq in Hh.
    destruct (sd_heap s' !! gid) as [g'|], (sd_heap s !! gid) as [g|]; try discriminate Hh; [|done].
    pose proof (Some_inj (gcore g') (gcore (grant_group new g)) Hh) as He. cbn.
    rewrite (f_equal g_probing He : g_probing g' = g_probing g), (f_equal g_tripped He : g_tripped g' = g_tripped g).
    done.
  - rewrite lookup_alter_ne in Hh by done.
    destruct (sd_heap s' !! o) as [g'|], (sd_heap s !! o) as [g|]; try discriminate Hh; [|done].
    pose proof (Some_inj (gcore g') (gcore g) Hh) as He. cbn.
    rewrite (f_equal g_probing He : g_probing g' = g_probing g), (f_equal g_tripped He : g_tripped g' = g_tripped g).
    done.
Qed.

Lemma drain_tkeep s gid budget cancelled now :
  winv (wst_of s) -> tkeep s (drainLimited s gid budget cancelled now).1.
Proof.
  intros Hw. assert (queues_distinct s) as Hq.
  { intros g. unfold group_of. destruct (sd_heap s !! g) as [x|] eqn:E; [|apply NoDup_nil_2].
    exact (wo_nodup _ _ _ (wi_group _ Hw _ _ (ws_heap_lookup _ _ _ E))). }
  pose proof (drainLimited_grants s gid budget cancelled now Hq) as Hd.
  destruct (drainLimited _ _ _ _ _). exact (grants_tkeep _ _ _ _ (proj1 Hd)).
Qed.

Lemma enter_tkeep s gid hooks enqueued now : tkeep s (acquire_enter s gid hooks enqueued now).1.
Proof.
  unfold acquire_enter. destruct (g_retired _); [done|].
  assert (Hf : tkeep s (acquire_fast s gid hooks now).1).
  { unfold acquire_fast. destruct (_ && _); [|done].
    pose proof (admitLocked_frame s gid now (wh_Provider hooks) (wh_EstTokens hooks)) as Hq.
    destruct (admitLocked _ _ _ _ _) as [[[[s1 ok] lease] wait] gateBlocked]. cbn [fst] in Hq.
    apply frame_tkeep in Hq. destruct ok; cbn [fst].
    - etransitivity; [exact Hq|]. etransitivity; [|apply markBusy_tkeep]. by apply upd_tkeep.
    - case_match; [|done]. etransitivity; [exact Hq|by apply heap_tkeep]. }
  destruct (acquire_fast s gid hooks now) as [s1 [lease|]]; cbn [fst] in Hf.
  { etransitivity; [exact Hf|by apply heap_tkeep]. }
  destruct (_ && _); [exact Hf|]. destruct (acquire_hold _ _ _ _) as [holds reserved].
  destruct reserved; cbn [negb fst]; [|etransitivity; [exact Hf|by apply heap_tkeep]].
  etransitivity; [|apply markBusy_tkeep]. etransitivity; [|apply frame_tkeep, syncQueue_frame].
  set (s2 := set_sd_waiters _ (set_sd_holds holds s1)).
  transitivity s2; [|by apply upd_tkeep]. etransitivity; [exact Hf|by apply heap_tkeep].
Qed.

Lemma remove_tkeep s wid now : tkeep s (removeWaiter s wid now).1.
Proof.
  unfold removeWaiter. cbn [fst]. set (s1 := if bool_decide _ then _ else _).
  assert (tkeep s s1) as H1.
  { unfold s1. case_bool_decide.
    - etransitivity; [|apply frame_tkeep, syncQueue_frame]. by apply upd_tkeep.
    - set (s0 := set_sd_gates _ s). transitivity s0; [by apply heap_tkeep|].
      apply upd_tkeep. intros g. by case_match. }
  etransitivity; [exact H1|]. etransitivity; [apply markIdle_tkeep|by apply heap_tkeep].
Qed.

Lemma turn_tkeep s wid deadline now : tkeep s (acquire_turn s wid deadline now).1.1.
Proof.
  unfold acquire_turn. destruct (queueDrained _ _ _ _ _).
  { pose proof (remove_tkeep s wid now) as H. by destruct (removeWaiter s wid now). }
  destruct (sched_matchingHold _ _ _).
  - apply heap_tkeep. by repeat case_match.
  - destruct (syncUnhold _ _ _) as [holds held]. apply heap_tkeep. destruct held; [done|]. by destruct (IsZero _).
Qed.

Lemma release_tkeep s sid now : tkeep s (release_slot s sid now).
Proof.
  unfold release_slot, group_release. repeat case_match; try done.
  etransitivity; [|apply markIdle_tkeep].
  set (s1 := set_sd_slots _ s). transitivity s1; [by apply heap_tkeep|].
  apply upd_tkeep. intros g. by case_match.
Qed.

(** ** The policy edges *)

Lemma markQueued_tkeep provider now s : tkeep s (markQueuedProviderGroups provider now s).
Proof.
  unfold markQueuedProviderGroups. destruct (_ !! _) as [iid|]; [|done]. case_match; [done|].
  apply fold_tkeep. intros s1 gid. repeat case_match; try done. apply frame_tkeep, markGateWaiting_frame.
Qed.
Lemma mark_tkeep gid now s : tkeep s (drainAdmission_mark gid now s).
Proof. unfold drainAdmission_mark. case_match; [done|]. apply frame_tkeep, markGateWaiting_frame. Qed.
Lemma resetRamps_tkeep gids s : tkeep s (resetRamps gids s).
Proof. apply fold_tkeep. intros. by apply upd_tkeep. Qed.
Lemma throttle_tkeep s provider update now : tkeep s (sched_UpdateThrottle s provider update now).1.
Proof.
  unfold sched_UpdateThrottle. destruct (UpdateThrottle _ _ _ _) as [[gates changed] rampChanged].
  cbn [fst]. set (s1 := set_sd_gates gates s). assert (tkeep s s1) as H1 by (by apply heap_tkeep).
  destruct rampChanged; [|done]. unfold resetProviderRamps.
  destruct (_ !! _); [|done]. transitivity s1; [done|apply resetRamps_tkeep].
Qed.
Lemma throttles_tkeep s ts now : tkeep s (sched_RestoreThrottles s ts now).
Proof.
  unfold sched_RestoreThrottles. etransitivity; [by apply (heap_tkeep s (set_sd_gates (RestoreThrottles (sd_gates s) ts now) s))|].
  unfold resetAllRamps. apply fold_tkeep. intros. apply resetRamps_tkeep.
Qed.
Lemma backoff_tkeep opts gid retryAfter r s : tkeep s (BackoffFor_apply opts gid retryAfter r s).1.
Proof. unfold BackoffFor_apply. destruct (backoff_step _ _ _ _ _). by apply upd_tkeep. Qed.
Lemma waitend_tkeep s c : tkeep s (WaitSend_end s c).
Proof. unfold WaitSend_end. case_match; [|done]. apply upd_tkeep. intros g. by case_match. Qed.
Lemma kick_tkeep gid s : tkeep s (kickSend gid s).
Proof. by apply upd_tkeep. Qed.
Lemma settle_tkeep s sid actual now : tkeep s (settle_slot s sid actual now).
Proof. apply heap_tkeep. unfold settle_slot. by repeat case_match. Qed.
Lemma queued_tkeep s wid now : tkeep s (acquire_queued s wid now).
Proof. apply heap_tkeep. unfold acquire_queued. by destruct (sched_matchingHold _ _ _). Qed.
Lemma drainQueue_tkeep s scope : tkeep s (DrainQueue s scope).1.
Proof. apply heap_tkeep. unfold DrainQueue. by destruct (publishDrain _ _). Qed.
Lemma armLater_tkeep gid d now s : tkeep s (armPacingLaterLocked gid d now s).
Proof.
  unfold armPacingLaterLocked. repeat case_match; try done.
  etransitivity; [|apply frame_tkeep, clearGateWaiting_frame]. by apply upd_tkeep.
Qed.

(** ** The token *)

(** [s'] hands the token of [gid] out: Trip claims it, or WaitSend lets a caller
    without it through a tripped group. *)
Inductive handsOut (gid : nat) (s s' : sched) : Prop :=
  | ho_trip key d now :
      Trip s key d now = (s', true) -> sd_groups s' !! key = Some gid -> handsOut gid s s'
  | ho_wait c c' hooks honorHold now :
      WaitSend_turn s c hooks honorHold false now = (s', c', SendOpen true) -> sc_group c = gid ->
      handsOut gid s s'.

(** [s'] takes it back: EndSend, or FailSend by its owner. *)
Inductive takesBack (gid : nat) (s s' : sched) : Prop :=
  | tb_end keepSerial : s' = EndSend_apply gid keepSerial s -> takesBack gid s s'
  | tb_fail opts r now : s' = FailSend_apply opts gid true r now s -> takesBack gid s s'.

Inductive tokenMove (gid : nat) (s s' : sched) : Prop :=
  | tm_same : probing s' gid = probing s gid -> tokenMove gid s s'
  | tm_out : probing s gid = false -> probing s' gid = true -> handsOut gid s s' -> tokenMove gid s s'
  | tm_back : probing s' gid = false -> takesBack gid s s' -> tokenMove gid s s'.

(** What every step keeps: only a tripped group has its token out. *)
Definition token_inv (s : sched) : Prop := forall gid, probing s gid = true -> tripped s gid = true.

Lemma tkeep_inv s s' : tkeep s s' -> token_inv s -> token_inv s'.
Proof. intros Hk Hi gid. destruct (Hk gid) as [-> Ht]. intros Hp. by apply Ht, Hi. Qed.

Lemma tkeep_move gid s s' : tkeep s s' -> tokenMove gid s s'.
Proof. intros Hk. apply tm_same. apply Hk. Qed.

(** An update of one group, seen from any group. *)
Lemma upd_probing gid f s o g :
  sd_heap s !! gid = Some g ->
  probing (upd_group gid f s) o = (if decide (o = gid) then g_probing (f g) else probing s o) /\
  tripped (upd_group gid f s) o = (if decide (o = gid) then g_tripped (f g) else tripped s o).
Proof.
  intros Hg. unfold probing, tripped. rewrite !group_of_upd, Hg. by case_decide.
Qed.

Lemma extend_inv s key d claim now :
  winv (wst_of s) -> token_inv s -> token_inv (extendWindow s key d claim now).1 /\
  forall o, tokenMove o s (extendWindow s key d claim now).1.
Proof.
  intros Hw Hi. destruct (extendWindow s key d claim now) as [s' owned] eqn:E. cbn [fst].
  pose proof E as E0. unfold extendWindow in E.
  pose proof (groupFor_tkeep s key 0 false now) as H1.
  pose proof (groupForLocked_sim s key 0 false now Hw) as HS.
  destruct (groupForLocked s key 0 false now) as [s1 gid]. cbn [fst] in H1. destruct HS as [_ (Hk & g1 & Hg1 & _)].
  pose proof (armLater_tkeep gid d now s1) as H2. pose proof (armPacingLater_quiet gid d now s1) as Hq2.
  set (s2 := armPacingLaterLocked gid d now s1) in *.
  assert (tkeep s s2) as H12 by (by transitivity s1).
  destruct (quiet_lookup s1 s2 gid g1 Hq2 Hg1) as (g2 & Hg2 & _).
  set (s3 := if _ || _ then _ else s2) in E.
  assert (tkeep s2 s3) as H3 by (unfold s3; destruct (_ || claim); [by apply upd_tkeep|done]).
  assert (tkeep s s3) as H13 by (by transitivity s2).
  destruct claim; cbn [andb] in E.
  - assert (exists g3, sd_heap s3 !! gid = Some g3 /\ g_tripped g3 = true) as (g3 & Hg3 & Ht3).
    { unfold s3. rewrite orb_true_r. eexists. split; [by apply alter_lookup|done]. }
    rewrite (group_of_lookup _ _ _ Hg3) in E. destruct (g_probing g3) eqn:Ep; injection E as <- <-.
    + split; [by eapply tkeep_inv|]. intros o. by apply tkeep_move.
    + assert (HX : forall o, probing (upd_group gid (set_g_probing true) s3) o =
          (if decide (o = gid) then true else probing s3 o) /\
        tripped (upd_group gid (set_g_probing true) s3) o = (if decide (o = gid) then true else tripped s3 o)).
      { intros o. destruct (upd_probing gid (set_g_probing true) s3 o g3 Hg3) as [-> ->]. cbn. by rewrite Ht3. }
      split.
      * intros o. destruct (HX o) as [-> ->]. case_decide; [done|]. by apply (tkeep_inv s s3).
      * intros o. destruct (HX o) as [Hp _]. destruct (decide (o = gid)) as [->|Hne].
        -- apply tm_out; [|done|].
           ++ rewrite <- (proj1 (H13 gid)). unfold probing. by rewrite (group_of_lookup _ _ _ Hg3).
           ++ eapply ho_trip; [exact E0|].
              assert (sd_groups s3 = sd_groups s1) as Hs3.
              { transitivity (sd_groups s2); [unfold s3; by destruct (_ || true)|exact (f_equal ws_groups Hq2)]. }
              cbn. by rewrite Hs3.
        -- apply tm_same. rewrite Hp. apply H13.
  - injection E as <- <-. split; [by eapply tkeep_inv|]. intros o. by apply tkeep_move.
Qed.

Lemma end_inv gid keepSerial s :
  token_inv s -> token_inv (EndSend_apply gid keepSerial s) /\
  forall o, tokenMove o s (EndSend_apply gid keepSerial s).
Proof.
  intros Hi. unfold EndSend_apply. set (f := fun g : group => _).
  assert (HX : forall o, group_of (upd_group gid f s) o =
    if decide (o = gid) then from_option f (newGroup "" 0) (sd_heap s !! gid) else group_of s o)
    by (intros o; apply group_of_upd).
  assert (Hp : probing (upd_group gid f s) gid = false).
  { unfold probing. rewrite HX, decide_True by done. by destruct (sd_heap s !! gid). }
  assert (Ho : forall o, o <> gid -> group_of (upd_group gid f s) o = group_of s o).
  { intros o Hne. by rewrite HX, decide_False. }
  split.
  - intros o. destruct (decide (o = gid)) as [->|Hne]; [by rewrite Hp|].
    unfold probing, tripped. rewrite Ho by done. apply Hi.
  - intros o. destruct (decide (o = gid)) as [->|Hne].
    + apply tm_back; [done|]. by eapply tb_end.
    + apply tm_same. unfold probing. by rewrite Ho.
Qed.

Lemma fail_inv opts gid own r now s :
  token_inv s -> token_inv (FailSend_apply opts gid own r now s) /\
  forall o, tokenMove o s (FailSend_apply opts gid own r now s).
Proof.
  intros Hi. set (s' := FailSend_apply opts gid own r now s).
  set (s1 := if own then upd_group gid (fun g => set_g_backoff 0 (set_g_probing false g)) s else s).
  assert (Hk : tkeep s1 s').
  { unfold s', FailSend_apply. fold s1. set (s2 := upd_group gid (set_g_requestBackoff _) s1).
    transitivity s2; [by apply upd_tkeep|]. etransitivity; [apply armLater_tkeep|]. by apply upd_tkeep. }
  destruct own.
  - assert (Hp : probing s1 gid = false).
    { unfold probing, s1. rewrite group_of_upd, decide_True by done. by destruct (sd_heap s !! gid). }
    assert (Ho : forall o, o <> gid -> group_of s1 o = group_of s o).
    { intros o Hne. unfold s1. by rewrite group_of_upd, decide_False. }
    split.
    + apply (tkeep_inv s1 s' Hk). intros o. destruct (decide (o = gid)) as [->|Hne]; [by rewrite Hp|].
      unfold probing, tripped. rewrite Ho by done. apply Hi.
    + intros o. destruct (decide (o = gid)) as [->|Hne].
      * apply tm_back; [by rewrite (proj1 (Hk gid))|]. by eapply tb_fail.
      * apply tm_same. rewrite (proj1 (Hk o)). unfold probing. by rewrite Ho.
  - split; [by apply (tkeep_inv s s')|]. intros o. by apply tkeep_move.
Qed.

Lemma wait_inv s c hooks honorHold own now :
  token_inv s -> token_inv (WaitSend_turn s c hooks honorHold own now).1.1 /\
  forall o, tokenMove o s (WaitSend_turn s c hooks honorHold own now).1.1.
Proof.
  intros Hi. assert (Hsame : forall s', tkeep s s' -> token_inv s' /\ forall o, tokenMove o s s').
  { intros s' Hk. split; [by eapply tkeep_inv|]. intros o. by apply tkeep_move. }
  destruct (WaitSend_turn s c hooks honorHold own now) as [[s' c'] out] eqn:E. cbn [fst].
  pose proof E as E0. unfold WaitSend_turn in E.
  destruct (queueDrained _ _ _ _ _); [injection E as <- _ _; by apply Hsame|].
  destruct (if honorHold then _ else None) as [h|]; cbv zeta in E; cbn [sc_group] in E.
  { destruct (IsZero _); [|destruct (_ <=? 0)]; injection E as <- _ _; by apply Hsame. }
  destruct (_ || (negb own && _ && _)) eqn:Epark.
  { injection E as <- _ _. apply Hsame. apply upd_tkeep. intros g. unfold parkSendLocked. by case_match. }
  apply orb_false_iff in Epark as [Ewin Eprobe].
  destruct (own || negb (g_tripped (group_of s (sc_group c)))) eqn:Eown.
  { injection E as <- _ _. by apply Hsame. }
  apply orb_false_iff in Eown as [-> Et]. apply negb_false_iff in Et. rewrite Et in Eprobe. cbn in Eprobe.
  injection E as <- <- <-. set (gid := sc_group c) in *.
  destruct (sd_heap s !! gid) as [g|] eqn:Eg.
  2: { unfold group_of in Et. by rewrite Eg in Et. }
  rewrite (group_of_lookup _ _ _ Eg) in *.
  assert (HX : forall o, probing (upd_group gid (set_g_probing true) s) o =
      (if decide (o = gid) then true else probing s o) /\
    tripped (upd_group gid (set_g_probing true) s) o = (if decide (o = gid) then true else tripped s o)).
  { intros o. destruct (upd_probing gid (set_g_probing true) s o g Eg) as [-> ->]. cbn. by rewrite Et. }
  split.
  - intros o. destruct (HX o) as [-> ->]. case_decide; [done|]. apply Hi.
  - intros o. destruct (HX o) as [Hp _]. destruct (decide (o = gid)) as [->|Hne].
    + apply tm_out; [|done|].
      * unfold probing. by rewrite (group_of_lookup _ _ _ Eg).
      * by eapply ho_wait; [exact E0|].
    + by apply tm_same.
Qed.

Lemma step_token s s' :
  winv (wst_of s) -> schedStep s s' -> token_inv s -> token_inv s' /\ forall o, tokenMove o s s'.
Proof.
  intros Hw Hs Hi. assert (Hsame : tkeep s s' -> token_inv s' /\ forall o, tokenMove o s s').
  { intros Hk. split; [by eapply tkeep_inv|]. intros o. by apply tkeep_move. }
  destruct Hs; first
    [ by apply extend_inv | by apply end_inv | by apply fail_inv | by apply wait_inv
    | apply Hsame; solve [auto using lookup_tkeep, enter_tkeep, turn_tkeep, remove_tkeep, drain_tkeep,
        markQueued_tkeep, mark_tkeep, groupFor_tkeep, throttle_tkeep, throttles_tkeep, backoff_tkeep,
        waitend_tkeep, kick_tkeep, settle_tkeep, release_tkeep, queued_tkeep, drainQueue_tkeep
        | by apply heap_tkeep] ].
Qed.

Lemma reached_token opts cap s : reached opts cap s -> token_inv s.
Proof.
  unfold reached. intros H. remember (start opts cap) as s0 eqn:E.
  assert (token_inv s0 /\ winv (wst_of s0)) as [Ht Hw].
  { subst s0. rewrite start_view. split; [|apply winv_empty]. intros gid. unfold probing, group_of. cbn.
    by rewrite lookup_empty. }
  clear E. induction H as [|s1 s2 s3 Hs _ IH]; [done|]. apply IH.
  - by apply (step_token s1 s2).
  - eapply wsteps_inv; [exact Hw|by apply schedStep_sim].
Qed.


Definition tdemo : sched := (Trip (start demo_opts 8) "a" Second demo_time).1.
Lemma tdemo_reached : reached demo_opts 8 tdemo.
Proof. apply rtc_once. apply (ss_extend _ "a" Second true demo_time). Qed.

