(* ===== verification/Inflight.v ===== *)
(** internal/proxy/inflight.go: the process-wide admission bounds. The limiter
    is lock-free, so each request is a little program whose atomic operations
    interleave with everybody else's. *)

From stdpp Require Import relations.
From S2P Require Import Prelude.

Record limiter := Limiter { il_limit : Z; il_cur : Z; il_byteLimit : Z; il_bytes : Z }.

Definition add_cur (n : Z) (l : limiter) : limiter :=
  Limiter (il_limit l) (il_cur l + n) (il_byteLimit l) (il_bytes l).
Definition add_bytes (n : Z) (l : limiter) : limiter :=
  Limiter (il_limit l) (il_cur l) (il_byteLimit l) (il_bytes l + n).
Definition store_limit (n : Z) (l : limiter) : limiter :=
  Limiter n (il_cur l) (il_byteLimit l) (il_bytes l).
Definition store_byteLimit (n : Z) (l : limiter) : limiter :=
  Limiter (il_limit l) (il_cur l) n (il_bytes l).

Definition clamp0 (n : Z) : Z := if n <? 0 then 0 else n.

(** set: its two stores. *)
Definition limiter_set (limit bodyBytes : Z) (l : limiter) : limiter :=
  store_byteLimit (clamp0 bodyBytes) (store_limit (clamp0 limit) l).

(** ** The calls, uninterrupted *)

Definition over (limit total : Z) : bool := (0 <? limit) && (limit <? total).

Definition limiter_acquire (l : limiter) (bodyBytes : Z) : limiter * bool :=
  let bodyBytes := clamp0 bodyBytes in
  let l := add_cur 1 l in
  if over (il_limit l) (il_cur l) then (add_cur (-1) l, false) else
  if 0 <? bodyBytes then
    let l := add_bytes bodyBytes l in
    if over (il_byteLimit l) (il_bytes l)
    then (add_cur (-1) (add_bytes (- bodyBytes) l), false)
    else (l, true)
  else (l, true).

Definition limiter_release (l : limiter) (bodyBytes : Z) : limiter :=
  add_cur (-1) (if 0 <? bodyBytes then add_bytes (- bodyBytes) l else l).

(** A bodyReservation's own fields. *)
Record bodyReservation := { br_charged : Z; br_read : Z }.
Definition newReservation : bodyReservation := {| br_charged := 0; br_read := 0 |}.

Definition acquireBody (l : limiter) : limiter * option bodyReservation :=
  let '(l, ok) := limiter_acquire l 0 in (l, if ok then Some newReservation else None).

Definition chargeRead (l : limiter) (r : bodyReservation) (n : Z) : limiter * bodyReservation * bool :=
  if n <=? 0 then (l, r, true) else
  let read := br_read r + n in
  let delta := read - br_charged r in
  let l := add_bytes delta l in
  if over (il_byteLimit l) (il_bytes l)
  then (add_bytes (- delta) l, {| br_charged := br_charged r; br_read := br_charged r |}, false)
  else (l, {| br_charged := read; br_read := read |}, true).

Definition reservation_release (l : limiter) (r : bodyReservation) : limiter :=
  limiter_release l (br_charged r).

(** responseBufferBudget. *)
Record responseBufferBudget := { rb_limit : Z; rb_bytes : Z }.
Definition budget_set (limit : Z) (b : responseBufferBudget) : responseBufferBudget :=
  {| rb_limit := clamp0 limit; rb_bytes := rb_bytes b |}.
Definition budget_acquire (b : responseBufferBudget) (n : Z) : responseBufferBudget * bool :=
  if n <=? 0 then (b, true) else
  let total := rb_bytes b + n in
  if over (rb_limit b) total then (b, false)
  else ({| rb_limit := rb_limit b; rb_bytes := total |}, true).
Definition budget_release (b : responseBufferBudget) (n : Z) : responseBufferBudget :=
  if 0 <? n then {| rb_limit := rb_limit b; rb_bytes := rb_bytes b - n |} else b.

Definition responseReadReserve (contentLength readCap : Z) : Z :=
  if (0 <=? contentLength) && (contentLength <=? readCap) then contentLength else readCap.

(** ** One atomic operation at a time *)

(** Where a request is: inside acquire, holding its slot, inside chargeRead,
    inside release, or out. A value read by an atomic operation travels with
    the place that tests it. *)
Inductive place :=
  | AcqAdd
  | AcqCheck (n : Z)
  | AcqAddBytes
  | AcqCheckBytes (b : Z)
  | AcqBackBytes
  | AcqBack
  | Refused
  | Holding
  | ChargeAdd
  | ChargeCheck (delta total : Z)
  | ChargeBack (delta : Z)
  | RelBytes
  | RelCur
  | Released.

Record request := Request { rq_place : place; rq_body : Z; rq_charged : Z; rq_read : Z }.
Definition at_place (p : place) (r : request) : request :=
  Request p (rq_body r) (rq_charged r) (rq_read r).

(** acquire admitted the request: its reservation holds what acquire charged. *)
Definition admitted (r : request) : request :=
  Request Holding (rq_body r) (rq_body r) (rq_body r).

Definition new_request (bodyBytes : Z) : request := Request AcqAdd (clamp0 bodyBytes) 0 0.

(** The next atomic operation; [None] where the request waits for its caller. *)
Definition act (l : limiter) (r : request) : option (limiter * request) :=
  match rq_place r with
  | AcqAdd => Some (add_cur 1 l, at_place (AcqCheck (il_cur l + 1)) r)
  | AcqCheck n =>
      Some (l, if over (il_limit l) n then at_place AcqBack r
               else if 0 <? rq_body r then at_place AcqAddBytes r else admitted r)
  | AcqAddBytes => Some (add_bytes (rq_body r) l, at_place (AcqCheckBytes (il_bytes l + rq_body r)) r)
  | AcqCheckBytes b =>
      Some (l, if over (il_byteLimit l) b then at_place AcqBackBytes r else admitted r)
  | AcqBackBytes => Some (add_bytes (- rq_body r) l, at_place AcqBack r)
  | AcqBack => Some (add_cur (-1) l, at_place Refused r)
  | ChargeAdd =>
      let delta := rq_read r - rq_charged r in
      Some (add_bytes delta l, at_place (ChargeCheck delta (il_bytes l + delta)) r)
  | ChargeCheck delta total =>
      Some (l, if over (il_byteLimit l) total then at_place (ChargeBack delta) r
               else Request Holding (rq_body r) (rq_read r) (rq_read r))
  | ChargeBack delta =>
      Some (add_bytes (- delta) l, Request Holding (rq_body r) (rq_charged r) (rq_charged r))
  | RelBytes =>
      Some (if 0 <? rq_charged r then add_bytes (- rq_charged r) l else l, at_place RelCur r)
  | RelCur => Some (add_cur (-1) l, at_place Released r)
  | Refused | Holding | Released => None
  end.

(** The calls a holder makes. *)
Definition call_chargeRead (n : Z) (r : request) : request :=
  Request ChargeAdd (rq_body r) (rq_charged r) (rq_read r + n).
Definition call_release (r : request) : request := at_place RelBytes r.

Record inflight := Inflight { if_lim : limiter; if_reqs : gmap nat request }.
Definition upd (id : nat) (l : limiter) (r : request) (s : inflight) : inflight :=
  Inflight l (<[id := r]> (if_reqs s)).

(** The counters stay inside an int64: they count requests and bytes that are
    in memory. *)
Definition fits (l : limiter) : Prop := in_int64 (il_cur l) /\ in_int64 (il_bytes l).

Inductive moves (s : inflight) : inflight -> Prop :=
  | mv_new id bodyBytes :
      if_reqs s !! id = None -> moves s (upd id (if_lim s) (new_request bodyBytes) s)
  | mv_act id r l r' :
      if_reqs s !! id = Some r -> act (if_lim s) r = Some (l, r') -> fits l -> moves s (upd id l r' s)
  | mv_charge id r n :
      if_reqs s !! id = Some r -> rq_place r = Holding -> 0 < n ->
      moves s (upd id (if_lim s) (call_chargeRead n r) s)
  | mv_release id r :
      if_reqs s !! id = Some r -> rq_place r = Holding ->
      moves s (upd id (if_lim s) (call_release r) s).

(** A reload stores the two limits. *)
Inductive reloads (s : inflight) : inflight -> Prop :=
  | rl_limit n : reloads s (Inflight (store_limit (clamp0 n) (if_lim s)) (if_reqs s))
  | rl_bytes n : reloads s (Inflight (store_byteLimit (clamp0 n) (if_lim s)) (if_reqs s)).

Definition idle (limit byteLimit : Z) : inflight := Inflight (Limiter limit 0 byteLimit 0) ∅.

(** ** What a request holds *)

Definition slot_held (r : request) : Z :=
  match rq_place r with
  | AcqAdd | Refused | Released => 0
  | _ => 1
  end.
Definition bytes_held (r : request) : Z :=
  match rq_place r with
  | AcqAdd | AcqCheck _ | AcqAddBytes | AcqBack | Refused | RelCur | Released => 0
  | AcqCheckBytes _ | AcqBackBytes => rq_body r
  | Holding | ChargeAdd | RelBytes => rq_charged r
  | ChargeCheck delta _ | ChargeBack delta => rq_charged r + delta
  end.

(** Inside the handler: between acquire's success and the end of release. *)
Definition inside (r : request) : Z :=
  match rq_place r with
  | Holding | ChargeAdd | ChargeCheck _ _ | ChargeBack _ | RelBytes | RelCur => 1
  | _ => 0
  end.
(** The body bytes it was allowed. *)
Definition allowed (r : request) : Z :=
  match rq_place r with
  | Holding | ChargeAdd | ChargeCheck _ _ | ChargeBack _ | RelBytes => rq_charged r
  | _ => 0
  end.

Definition request_ok (r : request) : Prop :=
  0 <= rq_body r /\ 0 <= rq_charged r /\ rq_charged r <= rq_read r /\
  (match rq_place r with AcqAddBytes | AcqCheckBytes _ | AcqBackBytes => 0 < rq_body r | _ => True end) /\
  (match rq_place r with
   | ChargeCheck delta _ | ChargeBack delta => delta = rq_read r - rq_charged r
   | _ => True
   end).

Record exact (s : inflight) : Prop := {
  ex_cur : il_cur (if_lim s) = total slot_held (if_reqs s);
  ex_bytes : il_bytes (if_lim s) = total bytes_held (if_reqs s);
  ex_ok : map_Forall (fun _ r => request_ok r) (if_reqs s);
}.

Lemma clamp0_nonneg n : 0 <= clamp0 n.
Proof. unfold clamp0. destruct (Z.ltb_spec n 0); lia. Qed.

(** One action changes the counters by what the request then holds. *)
Lemma act_exact l r l' r' :
  request_ok r -> act l r = Some (l', r') ->
  request_ok r' /\
  il_cur l' - il_cur l = slot_held r' - slot_held r /\
  il_bytes l' - il_bytes l = bytes_held r' - bytes_held r /\
  il_limit l' = il_limit l /\ il_byteLimit l' = il_byteLimit l.
Proof.
  unfold request_ok, act, slot_held, bytes_held.
  intros (H1 & H2 & H3 & H4 & H5) Ha.
  destruct (rq_place r) eqn:Ep; try discriminate Ha; injection Ha as <- <-;
    repeat case_match; cbn in *; simplify_eq; rewrite ?Ep in *; cbn; split_and!; try done; lia.
Qed.

Lemma moves_exact s s' : exact s -> moves s s' -> exact s'.
Proof.
  intros [Hc Hb Hok] Hm.
  assert (Hupd : forall id r l r', if_reqs s !! id = Some r -> request_ok r' ->
    il_cur l - il_cur (if_lim s) = slot_held r' - slot_held r ->
    il_bytes l - il_bytes (if_lim s) = bytes_held r' - bytes_held r -> exact (upd id l r' s)).
  { intros id r l r' Hr Hr' H1 H2. split; cbn.
    - rewrite (total_insert _ _ _ r) by done. lia.
    - rewrite (total_insert _ _ _ r) by done. lia.
    - by apply map_Forall_insert_2. }
  destruct Hm as [id b Hn|id r l r' Hr Ha _|id r n Hr Hp Hn|id r Hr Hp].
  - split; cbn.
    + rewrite total_insert_fresh by done. cbn. lia.
    + rewrite total_insert_fresh by done. cbn. lia.
    + apply map_Forall_insert_2; [|done]. unfold request_ok, new_request. cbn.
      pose proof (clamp0_nonneg b). split_and!; [done|lia..|done|done].
  - destruct (act_exact _ _ _ _ (Hok id r Hr) Ha) as (H1 & H2 & H3 & _). by eapply Hupd.
  - destruct (Hok id r Hr) as (H1 & H2 & H3 & H4 & H5). eapply Hupd; [done| | |].
    + unfold request_ok. cbn. split_and!; [done|done|lia|done|done].
    + unfold slot_held, call_chargeRead. rewrite Hp. cbn. lia.
    + unfold bytes_held, call_chargeRead. rewrite Hp. cbn. lia.
  - destruct (Hok id r Hr) as (H1 & H2 & H3 & H4 & H5). eapply Hupd; [done| | |].
    + unfold request_ok, call_release, at_place. cbn. by split_and!.
    + unfold slot_held, call_release, at_place. rewrite Hp. cbn. lia.
    + unfold bytes_held, call_release, at_place. rewrite Hp. cbn. lia.
Qed.

Lemma reloads_exact s s' : exact s -> reloads s s' -> exact s'.
Proof. intros [] []; by split. Qed.

Lemma idle_exact limit byteLimit : exact (idle limit byteLimit).
Proof. split; cbn; [by rewrite total_empty|by rewrite total_empty|apply map_Forall_empty]. Qed.

(** ** The bounds, while the limits stay *)

(** Requests that are in, or whose test is going to let them in. *)
Definition let_in (limit : Z) (r : request) : Z :=
  match rq_place r with
  | AcqAdd | AcqBack | Refused | Released => 0
  | AcqCheck n => if n <=? limit then 1 else 0
  | _ => 1
  end.
Definition let_bytes (limit : Z) (r : request) : Z :=
  match rq_place r with
  | AcqCheckBytes b => if b <=? limit then rq_body r else 0
  | ChargeCheck delta total => rq_charged r + (if total <=? limit then delta else 0)
  | _ => allowed r
  end.

Lemma total_le {A} `{Countable K} (f g : A -> Z) (m : gmap K A) :
  (forall i x, m !! i = Some x -> f x <= g x) -> total f m <= total g m.
Proof.
  induction m as [|i x m Hi IH] using map_ind; intros Hfg; [by rewrite !total_empty|].
  rewrite !total_insert_fresh by done. pose proof (Hfg i x (lookup_insert_eq _ _ _)).
  assert (total f m <= total g m); [|lia]. apply IH. intros j y Hj. apply (Hfg j y).
  rewrite lookup_insert_ne; [done|congruence].
Qed.

Record bounded (L B : Z) (s : inflight) : Prop := {
  bd_exact : exact s;
  bd_limit : il_limit (if_lim s) = L;
  bd_byteLimit : il_byteLimit (if_lim s) = B;
  bd_in : 0 < L -> total (let_in L) (if_reqs s) <= L;
  bd_bytes : 0 < B -> total (let_bytes B) (if_reqs s) <= B;
}.

Lemma let_in_held L r : let_in L r <= slot_held r.
Proof. unfold let_in, slot_held. by repeat case_match. Qed.
Lemma let_bytes_held B r : request_ok r -> let_bytes B r <= bytes_held r.
Proof.
  unfold request_ok, let_bytes, bytes_held, allowed. intros (H1 & H2 & H3 & H4 & H5).
  repeat case_match; simplify_eq; lia.
Qed.

Lemma act_bounds L B l r l' r' :
  request_ok r -> il_limit l = L -> il_byteLimit l = B -> act l r = Some (l', r') ->
  (0 < L -> let_in L r' <= let_in L r \/ (let_in L r' = let_in L r + 1 /\ il_cur l + 1 <= L)) /\
  (0 < B -> let_bytes B r' <= let_bytes B r \/ il_bytes l + (let_bytes B r' - let_bytes B r) <= B).
Proof.
  unfold request_ok, act, let_in, let_bytes, allowed, over.
  intros (H1 & H2 & H3 & H4 & H5) HL HB Ha.
  destruct (rq_place r) eqn:Ep; try discriminate Ha; injection Ha as <- <-;
    rewrite ?HL, ?HB; repeat case_match; cbn in *; simplify_eq; rewrite ?Ep in *; cbn;
    repeat match goal with
    | H : _ && _ = true |- _ => apply andb_true_iff in H as [? ?]
    | H : _ && _ = false |- _ => apply andb_false_iff in H
    | H : (_ <? _) = true |- _ => apply Z.ltb_lt in H
    | H : (_ <=? _) = true |- _ => apply Z.leb_le in H
    | H : (_ <=? _) = false |- _ => apply Z.leb_gt in H
    | H : (_ <? _) = false |- _ => apply Z.ltb_ge in H
    | H : _ \/ _ |- _ => destruct H
    end; split; intros; try discriminate; try lia; simplify_eq; lia.
Qed.

Lemma moves_bounded L B s s' : bounded L B s -> moves s s' -> bounded L B s'.
Proof.
  intros [He HL HB Hin Hby] Hm. pose proof (moves_exact _ _ He Hm) as He'.
  destruct He as [Hc Hb Hok].
  destruct Hm as [id b Hn|id r l r' Hr Ha _|id r n Hr Hp Hn|id r Hr Hp]; split; cbn; try done.
  - intros. rewrite total_insert_fresh by done. cbn. by apply Hin.
  - intros. rewrite total_insert_fresh by done. cbn. by apply Hby.
  - by destruct (act_exact _ _ _ _ (Hok id r Hr) Ha) as (_ & _ & _ & -> & _).
  - by destruct (act_exact _ _ _ _ (Hok id r Hr) Ha) as (_ & _ & _ & _ & ->).
  - intros HL0. rewrite (total_insert _ _ _ r) by done. specialize (Hin HL0).
    destruct (act_bounds L B _ _ _ _ (Hok id r Hr) HL HB Ha) as [H _].
    assert (total (let_in L) (if_reqs s) <= total slot_held (if_reqs s)).
    { apply total_le. intros. apply let_in_held. }
    destruct (H HL0); lia.
  - intros HB0. rewrite (total_insert _ _ _ r) by done. specialize (Hby HB0).
    destruct (act_bounds L B _ _ _ _ (Hok id r Hr) HL HB Ha) as [_ H].
    assert (total (let_bytes B) (if_reqs s) <= total bytes_held (if_reqs s)).
    { apply total_le. intros i x Hx. apply let_bytes_held. by eapply Hok. }
    destruct (H HB0); lia.
  - intros HL0. rewrite (total_insert _ _ _ r) by done. specialize (Hin HL0).
    unfold let_in at 2 3, call_chargeRead. rewrite Hp. cbn. lia.
  - intros HB0. rewrite (total_insert _ _ _ r) by done. specialize (Hby HB0).
    unfold let_bytes at 2 3, allowed, call_chargeRead. rewrite Hp. cbn. lia.
  - intros HL0. rewrite (total_insert _ _ _ r) by done. specialize (Hin HL0).
    unfold let_in at 2 3, call_release, at_place. rewrite Hp. cbn. lia.
  - intros HB0. rewrite (total_insert _ _ _ r) by done. specialize (Hby HB0).
    unfold let_bytes at 2 3, allowed, call_release, at_place. rewrite Hp. cbn. lia.
Qed.

(** ** The properties *)

Definition steps (s s' : inflight) : Prop := moves s s' \/ reloads s s'.

(** The handler's view of a request that is over. *)
Definition gone (r : request) : Prop := rq_place r = Refused \/ rq_place r = Released.

(** C39. However the atomic operations of concurrent requests interleave, and
    across reloads, the request counter is exactly the number of requests that
    have taken a slot and not given it back, and the byte counter exactly the
    body bytes they have charged and not given back; so once every request was
    refused or released, nothing is left counted. *)
Theorem inflight_exact limit byteLimit s :
  rtc steps (idle limit byteLimit) s ->
  il_cur (if_lim s) = total slot_held (if_reqs s) /\
  il_bytes (if_lim s) = total bytes_held (if_reqs s) /\
  0 <= il_cur (if_lim s) /\ 0 <= il_bytes (if_lim s) /\
  (map_Forall (fun _ r => gone r) (if_reqs s) -> il_cur (if_lim s) = 0 /\ il_bytes (if_lim s) = 0).
Proof.
  intros H. assert (exact s) as [H1 H2 H3].
  { generalize (idle_exact limit byteLimit). induction H as [|s1 s2 s3 Hs _ IH]; [done|]. intros He. apply IH.
    destruct Hs; [by eapply moves_exact|by eapply reloads_exact]. }
  assert (Hnn : 0 <= total slot_held (if_reqs s) /\ 0 <= total bytes_held (if_reqs s)).
  { split; rewrite <- (total_zero (fun _ : request => 0) (if_reqs s)) by done; apply total_le; intros i r Hr.
    - unfold slot_held. by case_match.
    - destruct (H3 i r Hr) as (A1 & A2 & A3 & A4 & A5). unfold bytes_held. case_match; lia. }
  split_and!; [done|done|lia|lia|]. intros Hg. rewrite H1, H2. split; apply total_zero; intros i r Hr.
  - unfold slot_held. by destruct (Hg i r Hr) as [-> | ->].
  - unfold bytes_held. by destruct (Hg i r Hr) as [-> | ->].
Qed.

(** The bounds hold under every interleaving: while the limits stay, the
    requests inside the handler never outnumber a positive request limit, and
    the body bytes they were allowed never exceed a positive byte limit - the
    counters themselves may overshoot while a refused attempt backs out. *)
Theorem inflight_bounded limit byteLimit s :
  rtc moves (idle limit byteLimit) s ->
  (0 < limit -> total inside (if_reqs s) <= limit) /\
  (0 < byteLimit -> total allowed (if_reqs s) <= byteLimit).
Proof.
  intros H. assert (bounded limit byteLimit s) as [He _ _ H1 H2].
  { assert (bounded limit byteLimit (idle limit byteLimit)) as H0.
    { split; [apply idle_exact|done|done|..]; intros; cbn; rewrite total_empty; lia. }
    revert H0. induction H as [|s1 s2 s3 Hs _ IH]; [done|]. intros Hb. apply IH. by eapply moves_bounded. }
  split; intros Hp; [specialize (H1 Hp)|specialize (H2 Hp)]; etransitivity; [|exact H1| |exact H2];
    apply total_le; intros i r Hr.
  - unfold inside, let_in. by repeat case_match.
  - destruct (ex_ok _ He i r Hr) as (A1 & A2 & A3 & A4 & A5). unfold allowed, let_bytes, allowed.
    repeat case_match; simplify_eq; lia.
Qed.

(** The atomic operations of one request, nobody else in between. *)
Fixpoint alone (fuel : nat) (l : limiter) (r : request) : limiter * request :=
  match fuel with
  | O => (l, r)
  | S fuel => match act l r with None => (l, r) | Some (l, r) => alone fuel l r end
  end.

(** Run without interruption, the atomic programs are the calls of the
    source: acquire, chargeRead and release answer and leave the counters as
    their sequential definitions say, in at most six operations, and a refusal
    leaves both counters as it found them. The response budget refuses exactly
    past its limit, without a trace, and a release undoes an acquire. *)
Theorem calls_alone l :
  (forall bodyBytes,
     alone 6 l (new_request bodyBytes) =
       (let '(l', ok) := limiter_acquire l bodyBytes in
        (l', if ok then admitted (new_request bodyBytes) else at_place Refused (new_request bodyBytes))) /\
     ((limiter_acquire l bodyBytes).2 = false -> (limiter_acquire l bodyBytes).1 = l)) /\
  (forall r n, 0 < n -> rq_place r = Holding ->
     let '(l', br, ok) := chargeRead l {| br_charged := rq_charged r; br_read := rq_read r |} n in
     alone 3 l (call_chargeRead n r) = (l', Request Holding (rq_body r) (br_charged br) (br_read br)) /\
     (ok = false -> l' = l /\ br_charged br = rq_charged r)) /\
  (forall r, alone 2 l (call_release r) = (limiter_release l (rq_charged r), at_place Released r)) /\
  (forall b n, 0 < n ->
     ((budget_acquire b n).2 = false <-> 0 < rb_limit b < rb_bytes b + n) /\
     (if (budget_acquire b n).2 then budget_release (budget_acquire b n).1 n = b
      else (budget_acquire b n).1 = b)).
Proof.
  assert (Hl : forall a b, add_cur (- a) (add_cur a b) = b) by (intros a []; unfold add_cur; cbn; f_equal; lia).
  assert (Hb : forall a b, add_bytes (- a) (add_bytes a b) = b) by (intros a []; unfold add_bytes; cbn; f_equal; lia).
  split_and!.
  - intros b. unfold new_request, limiter_acquire. cbn. destruct (over (il_limit l) (il_cur l + 1)); cbn.
    { split; [done|]. intros _. apply (Hl 1). }
    destruct (0 <? clamp0 b); cbn; [|by split].
    destruct (over (il_byteLimit l) (il_bytes l + clamp0 b)); cbn; [|by split].
    split; [done|]. intros _. rewrite Hb. apply (Hl 1).
  - intros r n Hn Hp. unfold chargeRead. cbn [br_read br_charged].
    destruct (Z.leb_spec n 0) as [?|_]; [lia|]. cbn. destruct (over _ _); cbn; [|by split].
    split; [done|]. intros _. split; [apply Hb|done].
  - intros r. unfold limiter_release. cbn. by destruct (0 <? rq_charged r).
  - intros [lim bytes] n Hn. unfold budget_acquire, budget_release, over. cbn [rb_limit rb_bytes].
    destruct (Z.leb_spec n 0); [lia|].
    destruct (Z.ltb_spec 0 lim), (Z.ltb_spec lim (bytes + n)); cbn [andb fst snd];
      (split; [split; [try discriminate; lia|intros; try done; lia]|]); try done;
      destruct (Z.ltb_spec 0 n); try lia; cbn; f_equal; lia.
Qed.

(** ** Two uploads against a budget of ten bytes *)

Definition demo_req (charged : Z) : request := Request Holding 0 charged charged.
Definition demo_inflight : inflight := Inflight (Limiter 1 1 10 7) {[ 0%nat := demo_req 7 ]}.

Lemma demo_moves : rtc moves (idle 1 10) demo_inflight.
Proof.
  eapply rtc_l; [apply (mv_new _ 0%nat 0); reflexivity|].
  eapply rtc_l; [eapply (mv_act _ 0%nat); [reflexivity|reflexivity|by vm_compute]|].
  eapply rtc_l; [eapply (mv_act _ 0%nat); [reflexivity|reflexivity|by vm_compute]|].
  eapply rtc_l; [eapply (mv_charge _ 0%nat _ 7); [reflexivity|reflexivity|lia]|].
  eapply rtc_l; [eapply (mv_act _ 0%nat); [reflexivity|reflexivity|by vm_compute]|].
  eapply rtc_l; [eapply (mv_act _ 0%nat); [reflexivity|reflexivity|by vm_compute]|].
  reflexivity.
Qed.

Lemma inflight_exact_witness :
  il_cur (if_lim demo_inflight) = 1 /\ total bytes_held (if_reqs demo_inflight) = 7.
Proof.
  assert (rtc steps (idle 1 10) demo_inflight) as Hr.
  { pose proof demo_moves as H. induction H as [|s1 s2 s3 Hs _ IH]; [done|]. eapply rtc_l; [by left|done]. }
  destruct (inflight_exact 1 10 demo_inflight Hr) as (H1 & H2 & _). split; [reflexivity|].
  rewrite <- H2. reflexivity.
Defined.

Lemma inflight_bounded_witness :
  total inside (if_reqs demo_inflight) <= 1 /\ total allowed (if_reqs demo_inflight) <= 10 /\
  total allowed (if_reqs demo_inflight) = 7.
Proof.
  destruct (inflight_bounded 1 10 demo_inflight demo_moves) as [H1 H2].
  split; [apply H1; lia|]. split; [apply H2; lia|]. vm_compute. reflexivity.
Defined.

Lemma calls_alone_witness :
  alone 3 (Limiter 1 1 10 7) (call_chargeRead 4 (demo_req 7)) = (Limiter 1 1 10 7, demo_req 7).
Proof.
  destruct (calls_alone (Limiter 1 1 10 7)) as (_ & H & _ & _).
  destruct (H (demo_req 7) 4 ltac:(lia) eq_refl) as [H1 _]. exact H1.
Defined.
