(* ===== verification/Body.v ===== *)
(** internal/proxy/request_body.go: reading one inbound body - the bounded
    scratch, the budget charged chunk by chunk, and which status answers a body
    that does not fit. The reader is any [io.Reader]. *)

From S2P Require Import Prelude Inflight.

(** ** Readers *)

Inductive ioErr := EOF | UnexpectedEOF | ErrBodyBudget | OtherErr (code : nat).
#[global] Instance ioErr_eq_dec : EqDecision ioErr.
Proof. solve_decision. Defined.

(** io.Reader: the reader afterwards, the bytes stored in a buffer of the given
    length, and the error. *)
Class IoReader (R : Type) := Read : R -> Z -> R * bytes * option ioErr.

Definition len (b : bytes) : Z := Z.of_nat (length b).

(** io.LimitedReader of the standard library. *)
Record LimitedReader (R : Type) := Limited { lr_R : R; lr_N : Z }.
Arguments Limited {R}. Arguments lr_R {R}. Arguments lr_N {R}.

#[global] Instance limited_read `{IoReader R} : IoReader (LimitedReader R) := fun l k =>
  if lr_N l <=? 0 then (l, [], Some EOF) else
  let '(r, bs, e) := Read (lr_R l) (Z.min k (lr_N l)) in
  (Limited r (lr_N l - len bs), bs, e).

(** chargedReader over a charge with state [C]. *)
Record chargedReader (R C : Type) := Charged {
  ch_r : R;
  ch_charge : C -> Z -> C * bool;
  ch_c : C;
  ch_read : Z;
}.
Arguments Charged {R C}. Arguments ch_r {R C}. Arguments ch_charge {R C}.
Arguments ch_c {R C}. Arguments ch_read {R C}.

#[global] Instance chargedReader_Read {C} `{IoReader R} : IoReader (chargedReader R C) := fun ch k =>
  let '(r, bs, e) := Read (ch_r ch) k in
  if 0 <? len bs then
    let read := ch_read ch + len bs in
    let '(c, ok) := ch_charge ch (ch_c ch) (len bs) in
    if ok : bool then (Charged r (ch_charge ch) c read, bs, e)
    else (Charged r (ch_charge ch) c read, [], Some ErrBodyBudget)
  else (Charged r (ch_charge ch) (ch_c ch) (ch_read ch), bs, e).

(** ** Buffers and the pooled scratch *)

Definition requestBodyReadInit : Z := Z.shiftl 64 10.
Definition requestBodyScratchMax : Z := Z.shiftl 32 20.
Definition requestReadHintMax : Z := Z.shiftl 1 20.

(** A byte slice from its first element: contents and capacity. *)
Record slice := Slice { sl_data : bytes; sl_cap : Z }.

(** The pool's buffer (nil, or its capacity), and the sizes of the buffers made
    so far, newest first. *)
Record mem := Mem { m_pool : option Z; m_made : list Z }.

Definition make (n : Z) (m : mem) : mem := Mem (m_pool m) (n :: m_made m).

(** The language leaves the capacity after a growth of [append] open; no append
    below grows. *)
Definition append (buf : slice) (b : bytes) : slice :=
  Slice (sl_data buf ++ b) (Z.max (sl_cap buf) (len (sl_data buf ++ b))).

Definition takeRequestBodyScratch (m : mem) (limit : Z) : mem * slice :=
  let cap := default 0 (m_pool m) in
  let m := Mem None (m_made m) in
  if cap =? 0 then let n := Z.min requestBodyReadInit limit in (make n m, Slice [] n)
  else (m, Slice [] cap).

Definition releaseRequestBodyScratch (m : mem) (buf : slice) : mem :=
  if (sl_cap buf =? 0) || (requestBodyScratchMax <? sl_cap buf) then m else
  match m_pool m with
  | None => Mem (Some (sl_cap buf)) (m_made m)
  | Some _ => m
  end.

Definition growRequestBodyCap (m : mem) (buf : slice) (need limit : Z) : mem * slice :=
  if need <=? sl_cap buf then (m, buf) else
  let nextCap := sl_cap buf * 2 in
  let nextCap := if nextCap <? need then need else nextCap in
  let nextCap := if nextCap <? requestBodyReadInit then Z.min requestBodyReadInit limit else nextCap in
  let nextCap := if limit <? nextCap then limit else nextCap in
  if nextCap <=? sl_cap buf then (m, buf)
  else (make nextCap m, Slice (sl_data buf) nextCap).

(** ** The reads *)

Section reading.
Context `{IoReader R}.

Fixpoint growRequestBody (fuel : nat) (m : mem) (buf : slice) (r : R) (limit : Z)
    : option (mem * R * result ioErr slice) :=
  match fuel with
  | O => None
  | S fuel =>
      if len (sl_data buf) <? sl_cap buf then
        let '(r, bs, e) := Read r (sl_cap buf - len (sl_data buf)) in
        let buf := Slice (sl_data buf ++ bs) (sl_cap buf) in
        match e with
        | None => growRequestBody fuel m buf r limit
        | Some EOF => Some (m, r, Ok buf)
        | Some e => Some (m, r, Err e)
        end
      else if limit <=? sl_cap buf then Some (m, r, Ok buf)
      else
        let '(r, bs, e) := Read r 1 in
        let '(m, buf) :=
          match bs with
          | [] => (m, buf)
          | b :: _ =>
              let '(m, buf) := growRequestBodyCap m buf (len (sl_data buf) + 1) limit in
              (m, append buf [b])
          end in
        match e with
        | None => growRequestBody fuel m buf r limit
        | Some EOF => Some (m, r, Ok buf)
        | Some e => Some (m, r, Err e)
        end
  end.

(** On an error growRequestBody returned nil, so the release has nothing. *)
Definition finishGrowingRequestBody (fuel : nat) (m : mem) (buf : slice) (r : R) (maxBytes limit : Z)
    : option (mem * R * result ioErr bytes) :=
  match growRequestBody fuel m buf r limit with
  | None => None
  | Some (m, r, Err e) => Some (releaseRequestBodyScratch m (Slice [] 0), r, Err e)
  | Some (m, r, Ok buf) =>
      if maxBytes <? len (sl_data buf) then Some (m, r, Ok (sl_data buf))
      else Some (releaseRequestBodyScratch (make (len (sl_data buf)) m) buf, r, Ok (sl_data buf))
  end.

Definition readGrowingRequestBody (fuel : nat) (m : mem) (r : R) (maxBytes limit : Z) :=
  let '(m, buf) := takeRequestBodyScratch m limit in
  finishGrowingRequestBody fuel m buf r maxBytes limit.

Fixpoint readRequestBodyTail (fuel : nat) (m : mem) (r : R) (body : bytes) (maxBytes limit : Z)
    : option (mem * R * result ioErr bytes) :=
  match fuel with
  | O => None
  | S fuel' =>
      match Read r 1 with
      | (r, [], None) => readRequestBodyTail fuel' m r body maxBytes limit
      | (r, [], Some EOF) => Some (m, r, Ok body)
      | (r, [], Some e) => Some (m, r, Err e)
      | (r, (_ :: _) as bs, e) =>
          if bool_decide (e = None \/ e = Some EOF) then
            let '(m, buf) := takeRequestBodyScratch m limit in
            let need := len body + len bs in
            let '(m, buf) :=
              if sl_cap buf <? need then growRequestBodyCap m buf need limit else (m, buf) in
            finishGrowingRequestBody fuel m (append (append buf body) bs) r maxBytes limit
          else Some (m, r, Err (default EOF e))
      end
  end.

(** io.ReadFull of the standard library: ReadAtLeast with the whole buffer. *)
Fixpoint ReadFull (fuel : nat) (r : R) (want : Z) (got : bytes)
    : option (R * bytes * option ioErr) :=
  if want <=? len got then Some (r, got, None) else
  match fuel with
  | O => None
  | S fuel =>
      let '(r, bs, e) := Read r (want - len got) in
      let got := got ++ bs in
      match e with
      | None => ReadFull fuel r want got
      | Some e =>
          if want <=? len got then Some (r, got, None)
          else Some (r, got, Some (if bool_decide (e = EOF) && (0 <? len got)
                                   then UnexpectedEOF else e))
      end
  end.

Definition readRequestBody_limited (fuel : nat) (m : mem) (r : R) (contentLength maxBytes hintMax limit : Z)
    : option (mem * R * result ioErr bytes) :=
  let hint := Z.min (Z.min contentLength limit) hintMax in
  if contentLength <? 0 then readGrowingRequestBody fuel m r maxBytes limit else
  if 0 <? hint then
    if contentLength <=? hintMax then
      match ReadFull fuel r hint [] with
      | None => None
      | Some (r, buf, e) =>
          if bool_decide (e = None \/ e = Some UnexpectedEOF \/ e = Some EOF)
          then readRequestBodyTail fuel (make hint m) r buf maxBytes limit
          else Some (make hint m, r, Err (default EOF e))
      end
    else readGrowingRequestBody fuel m r maxBytes limit
  else readGrowingRequestBody fuel m r maxBytes limit.

(** io.Copy to io.Discard, which reads blocks of 8192 bytes. *)
Fixpoint discard (fuel : nat) (r : R) (n : Z) : option (R * Z * option ioErr) :=
  match fuel with
  | O => None
  | S fuel =>
      let '(r, bs, e) := Read r 8192 in
      let n := n + len bs in
      match e with
      | None => discard fuel r n
      | Some EOF => Some (r, n, None)
      | Some e => Some (r, n, Some e)
      end
  end.
End reading.

Definition readRequestBody `{IoReader R} (fuel : nat) (m : mem) (body : R) (contentLength maxBytes hintMax : Z)
    : option (mem * LimitedReader R * result ioErr bytes) :=
  let limit := wrap64 (maxBytes + 1) in
  readRequestBody_limited fuel m (Limited body limit) contentLength maxBytes hintMax limit.

(** An error of readRequestHint: http.MaxBytesError, or one of the reader's. *)
Inductive bodyError := MaxBytesError (limit : Z) | ReadError (e : ioErr).

Definition chargeRefusalError `{IoReader R} (fuel : nat) (body : R) (read maxBytes : Z)
    : option (R * bodyError) :=
  if maxBytes <? read then Some (body, MaxBytesError maxBytes) else
  let remaining := wrap64 (maxBytes + 1) - read in
  if 0 <? remaining then
    match discard fuel (Limited body remaining) 0 with
    | None => None
    | Some (l, n, Some e) => Some (lr_R l, ReadError e)
    | Some (l, n, None) =>
        Some (lr_R l, if maxBytes <? read + n then MaxBytesError maxBytes else ReadError ErrBodyBudget)
    end
  else Some (body, ReadError ErrBodyBudget).

(** readRequestHint up to the metadata decode; [None] for the request's nil
    body, [None] for a nil charge. *)
Definition readRequestHint_body {C} `{IoReader R} (fuel : nat) (m : mem) (body : option R)
    (contentLength maxBytes hintMax : Z) (charge : option (C -> Z -> C * bool)) (c : C)
    : option (mem * C * result bodyError bytes) :=
  match body with
  | None => Some (m, c, Ok [])
  | Some r =>
      let hintMax := if hintMax <=? 0 then requestReadHintMax else hintMax in
      let over_cap (b : bytes) : result bodyError bytes :=
        if maxBytes <? len b then Err (MaxBytesError maxBytes) else Ok b in
      match charge with
      | None =>
          match readRequestBody fuel m r contentLength maxBytes hintMax with
          | None => None
          | Some (m, _, Err e) => Some (m, c, Err (ReadError e))
          | Some (m, _, Ok b) => Some (m, c, over_cap b)
          end
      | Some charge =>
          match readRequestBody fuel m (Charged r charge c 0) contentLength maxBytes hintMax with
          | None => None
          | Some (m, l, Err ErrBodyBudget) =>
              match chargeRefusalError fuel (ch_r (lr_R l)) (ch_read (lr_R l)) maxBytes with
              | None => None
              | Some (_, e) => Some (m, ch_c (lr_R l), Err e)
              end
          | Some (m, l, Err e) => Some (m, ch_c (lr_R l), Err (ReadError e))
          | Some (m, l, Ok b) => Some (m, ch_c (lr_R l), over_cap b)
          end
      end
  end.

(** ** What a sequence of reads delivered *)

(** Reads from [r] to [r'] with positive buffers that delivered [bs], the last
    one reporting [e]; nobody reads again after the budget's refusal. *)
Inductive reads `{IoReader R} (r : R) : bytes -> option ioErr -> R -> Prop :=
  | reads_nil : reads r [] None r
  | reads_snoc bs e0 r1 k r2 bs' e :
      reads r bs e0 r1 -> e0 <> Some ErrBodyBudget -> 0 < k -> Read r1 k = (r2, bs', e) ->
      reads r (bs ++ bs') e r2.

(** The io.Reader contract the loops rely on: a buffer is not overrun, a
    refusal delivers nothing, and a reader answers with an error in the end. *)
Class Tame (R : Type) `{IoReader R} := {
  patience : R -> nat;
  tame_len : forall r k r' bs e, 0 < k -> Read r k = (r', bs, e) -> len bs <= k;
  tame_refusal : forall r k r' bs, 0 < k -> Read r k = (r', bs, Some ErrBodyBudget) -> bs = [];
  tame_patience : forall r k r' bs e, 0 < k -> Read r k = (r', bs, e) ->
    (patience r' + (if e then 0 else 1) <= patience r)%nat;
}.

(** A request body: what is left of it, and how it ends; an error is final. *)
Class BodyReader (R : Type) `{IoReader R} := {
  content : R -> bytes;
  outcome : R -> ioErr;
  body_tame :: Tame R;
  body_outcome : forall r, outcome r <> ErrBodyBudget;
  body_read : forall r k r' bs e, 0 < k -> Read r k = (r', bs, e) ->
    content r = bs ++ content r' /\ outcome r' = outcome r /\
    (forall x, e = Some x -> content r' = [] /\ x = outcome r);
}.

Lemma len_app a b : len (a ++ b) = len a + len b.
Proof. unfold len. rewrite length_app. lia. Qed.
Lemma len_nil : len [] = 0.
Proof. done. Qed.
Lemma len_nonneg b : 0 <= len b.
Proof. unfold len. lia. Qed.
Lemma len_cons x b : len (x :: b) = len b + 1.
Proof. unfold len. cbn [length]. lia. Qed.
Lemma len_zero b : len b <= 0 -> b = [].
Proof. destruct b; [done|]. rewrite len_cons. pose proof (len_nonneg b). lia. Qed.

#[global] Instance limited_tame `{Tame R} : Tame (LimitedReader R).
Proof.
  refine {| patience := fun l => patience (lr_R l) |}; intros l k l' bs.
  - intros e Hk. unfold Read, limited_read. destruct (Z.leb_spec (lr_N l) 0); [intros [= <- <- <-]; unfold len; cbn; lia|].
    destruct (Read _ _) as [[r1 b1] e1] eqn:E. intros [= <- <- <-].
    assert (len b1 <= Z.min k (lr_N l)) by (eapply tame_len; [|exact E]; lia). lia.
  - intros Hk. unfold Read, limited_read. destruct (Z.leb_spec (lr_N l) 0); [done|].
    destruct (Read _ _) as [[r1 b1] e1] eqn:E. intros [= <- <- ->]. eapply tame_refusal; [|exact E]. lia.
  - intros e Hk. unfold Read, limited_read. destruct (Z.leb_spec (lr_N l) 0); [intros [= <- <- <-]; cbn; lia|].
    destruct (Read _ _) as [[r1 b1] e1] eqn:E. intros [= <- <- <-]. eapply tame_patience; [|exact E]. lia.
Defined.

#[global] Instance charged_tame {C} `{BodyReader R} : Tame (chargedReader R C).
Proof.
  assert (Hb : forall r k r' bs e, 0 < k -> Read r k = (r', bs, e) -> e <> Some ErrBodyBudget).
  { intros r k r' bs e Hk HR ->. destruct (body_read _ _ _ _ _ Hk HR) as (_ & _ & Hx).
    destruct (Hx _ eq_refl) as [_ Hx']. by apply (body_outcome r). }
  refine {| patience := fun ch => patience (ch_r ch) |}; intros ch k ch' bs.
  - intros e Hk. unfold Read, chargedReader_Read. destruct (Read _ _) as [[r1 b1] e1] eqn:E.
    apply tame_len in E; [|done]. destruct (0 <? len b1); [|by intros [= <- <- <-]].
    destruct (ch_charge ch _ _) as [c []]; intros [= <- <- <-]; [done|]. unfold len. cbn. lia.
  - intros Hk. unfold Read, chargedReader_Read. destruct (Read _ _) as [[r1 b1] e1] eqn:E.
    apply Hb in E; [|done]. destruct (0 <? len b1); [|by intros [= <- <- ->]].
    destruct (ch_charge ch _ _) as [c []]; [by intros [= <- <- ->]|]. by intros [= <- <-].
  - intros e Hk. unfold Read, chargedReader_Read. destruct (Read _ _) as [[r1 b1] e1] eqn:E.
    apply tame_patience in E; [|done]. destruct (0 <? len b1); [|by intros [= <- <- <-]].
    destruct (ch_charge ch _ _) as [c []]; intros [= <- <- <-]; cbn; [done|]. destruct e1; lia.
Defined.

(** Through the limit. *)
Lemma limited_reads `{IoReader R} r0 N bs e l :
  reads (Limited r0 N) bs e l -> 0 <= N ->
  (forall r k r' bs e, 0 < k -> Read r k = (r', bs, e) -> len bs <= k) ->
  lr_N l = N - len bs /\ 0 <= lr_N l /\
  exists e', reads r0 bs e' (lr_R l) /\
    (e' = e \/ (e = Some EOF /\ lr_N l = 0 /\ e' <> Some ErrBodyBudget)).
Proof.
  intros Hr HN Htame. induction Hr as [|bs e0 l1 k l2 bs' e Hr IH He0 Hk HR].
  { rewrite len_nil. cbn. split; [lia|]. split; [done|]. exists None. split; [constructor|by left]. }
  destruct IH as (H1 & H2 & e' & H3 & H4). rewrite len_app.
  assert (He' : e' <> Some ErrBodyBudget) by (destruct H4 as [->|(_ & _ & ?)]; done).
  unfold Read, limited_read in HR. destruct (Z.leb_spec (lr_N l1) 0) as [Hz|Hz].
  - injection HR as <- <- <-. rewrite len_nil, app_nil_r. split; [lia|]. split; [done|].
    exists e'. split; [done|]. right. split_and!; [done|lia|done].
  - destruct (Read (lr_R l1) _) as [[r2 b2] e2] eqn:E. injection HR as <- <- <-. cbn.
    assert (len b2 <= Z.min k (lr_N l1)) by (eapply Htame; [|exact E]; lia).
    split; [lia|]. split; [lia|]. exists e2. split; [|by left]. eapply reads_snoc; [done|done| |exact E]. lia.
Qed.

(** Through the charge: the chunks it accepted, and the refused one. *)
Inductive accepted {C} (charge : C -> Z -> C * bool) (c : C) : list Z -> C -> Prop :=
  | acc_nil : accepted charge c [] c
  | acc_snoc l c1 n c2 :
      accepted charge c l c1 -> 0 < n -> charge c1 n = (c2, true) -> accepted charge c (l ++ [n]) c2.

Definition sum (l : list Z) : Z := foldr Z.add 0 l.
Lemma sum_snoc l n : sum (l ++ [n]) = sum l + n.
Proof. induction l as [|x l IH]; unfold sum in *; cbn in *; lia. Qed.

(** How a charged upload of [bs] stands with its charges, in state [c]. *)
Record settled {C} (charge : C -> Z -> C * bool) (c0 : C) (bs : bytes) (l : list Z) (c1 c : C)
    (extra : bytes) (e : option ioErr) : Prop := {
  st_accepted : accepted charge c0 l c1;
  st_sum : sum l = len bs;
  st_end : (extra = [] /\ c = c1 /\ e <> Some ErrBodyBudget) \/
           (0 < len extra /\ charge c1 (len extra) = (c, false) /\ e = Some ErrBodyBudget);
}.

Lemma charged_reads {C} `{BodyReader R} (r0 : R) charge (c0 : C) bs e ch :
  reads (Charged r0 charge c0 0) bs e ch ->
  ch_charge ch = charge /\
  exists extra e' l c1, reads r0 (bs ++ extra) e' (ch_r ch) /\ ch_read ch = len (bs ++ extra) /\
    e' <> Some ErrBodyBudget /\ settled charge c0 bs l c1 (ch_c ch) extra e /\
    (e <> Some ErrBodyBudget -> e' = e).
Proof.
  intros Hr. induction Hr as [|bs e0 ch1 k ch2 bs' e Hr IH He0 Hk HR].
  { split; [done|]. exists [], None, [], c0. rewrite app_nil_r. split_and!; [constructor|done|done| |done].
    split; [constructor|done|by left]. }
  destruct IH as (Hc & extra & e' & l & c1 & H1 & H2 & H3 & [Ha Hs Hend] & H4).
  destruct Hend as [(-> & Hcc & _)|(_ & _ & ?)]; [|done]. rewrite app_nil_r in *.
  unfold Read, chargedReader_Read in HR. destruct (Read (ch_r ch1) k) as [[r2 b2] e2] eqn:E.
  assert (Hb2 : e2 <> Some ErrBodyBudget).
  { intros ->. destruct (body_read _ _ _ _ _ Hk E) as (_ & _ & Hx). destruct (Hx _ eq_refl) as [_ ?].
    by apply (body_outcome (ch_r ch1)). }
  assert (Hnew : reads r0 (bs ++ b2) e2 r2) by (by eapply reads_snoc).
  destruct (Z.ltb_spec 0 (len b2)) as [Hn|Hn].
  - rewrite Hc in HR. destruct (charge (ch_c ch1) (len b2)) as [c2 []] eqn:Ech; injection HR as <- <- <-; cbn;
      (split; [done|]).
    + exists [], e2, (l ++ [len b2]), c2. rewrite app_nil_r, !len_app. split_and!; [done|lia|done| |done].
      split; [eapply acc_snoc; [done|done|by subst c1]|rewrite sum_snoc, len_app; lia|by left].
    + exists b2, e2, l, c1. rewrite app_nil_r, !len_app. split_and!; [done|lia|done| |done].
      split; [done|done|]. right. subst c1. done.
  - injection HR as <- <- <-. cbn. split; [done|]. apply len_zero in Hn as ->. exists [], e2, l, c1.
    rewrite !app_nil_r in *. split_and!; [done|done|done| |done]. split; [done|done|by left].
Qed.

Lemma body_reads `{BodyReader R} (r0 : R) bs e r :
  reads r0 bs e r ->
  content r0 = bs ++ content r /\ outcome r = outcome r0 /\
  (forall x, e = Some x -> content r = [] /\ x = outcome r0).
Proof.
  intros Hr. induction Hr as [|bs e0 r1 k r2 bs' e Hr IH He0 Hk HR]; [done|].
  destruct IH as (H1 & H2 & _). destruct (body_read _ _ _ _ _ Hk HR) as (H3 & H4 & H5).
  rewrite H1, H3, app_assoc, H4. split_and!; [done|done|]. intros x Hx. rewrite <- H2. by apply H5.
Qed.

(** ** The memory *)

Definition mem_ok (m : mem) : Prop :=
  match m_pool m with Some c => 0 < c <= requestBodyScratchMax | None => True end.

(** From [m] to [m'] every buffer made fits the limit, and exceeds the floor
    only with at least half of it filled by the [n] bytes that arrived. *)
Record mem_step (limit floor n : Z) (m m' : mem) : Prop := {
  ms_ok : mem_ok m -> mem_ok m';
  ms_made : exists new, m_made m' = new ++ m_made m /\
    Forall (fun a => a <= limit /\ a <= Z.max floor (2 * n)) new;
}.

Lemma mem_step_refl limit floor n m : mem_step limit floor n m m.
Proof. split; [done|]. by exists []. Qed.

Lemma mem_step_trans limit floor n n' m m1 m2 :
  mem_step limit floor n m m1 -> mem_step limit floor n' m1 m2 -> n <= n' -> mem_step limit floor n' m m2.
Proof.
  intros [H1 (l1 & E1 & F1)] [H2 (l2 & E2 & F2)] Hn. split; [auto|].
  exists (l2 ++ l1). rewrite E2, E1, app_assoc. split; [done|].
  apply Forall_app. split; [done|]. eapply Forall_impl; [exact F1|]. cbn. lia.
Qed.

Lemma mem_step_mono limit floor n n' m m' :
  mem_step limit floor n m m' -> n <= n' -> mem_step limit floor n' m m'.
Proof. intros Hm Hn. eapply mem_step_trans; [done|apply mem_step_refl|done]. Qed.

Lemma mem_step_make limit floor n m a :
  a <= limit -> a <= Z.max floor (2 * n) -> mem_step limit floor n m (make a m).
Proof. intros H1 H2. split; [done|]. exists [a]. split; [done|]. by repeat constructor. Qed.

Lemma take_spec limit floor n m m' buf :
  takeRequestBodyScratch m limit = (m', buf) -> mem_ok m -> 0 <= limit -> requestBodyReadInit <= floor ->
  mem_step limit floor n m m' /\ sl_data buf = [] /\ 0 <= sl_cap buf.
Proof.
  unfold takeRequestBodyScratch, mem_ok. intros Ht Hm Hl Hf.
  assert (0 < requestBodyReadInit) by done.
  destruct (m_pool m) as [c|]; cbn [default from_option id] in Ht.
  - destruct (Z.eqb_spec c 0) as [?|_]; [lia|]. injection Ht as <- <-. cbn. split; [|split; [done|lia]].
    split; [done|]. by exists [].
  - cbn in Ht. injection Ht as <- <-. cbn [sl_data sl_cap]. split; [|split; [done|lia]].
    split; [done|]. eexists [_]. split; [done|]. repeat constructor; lia.
Qed.

Lemma release_spec limit floor n m buf :
  0 <= sl_cap buf -> mem_step limit floor n m (releaseRequestBodyScratch m buf).
Proof.
  intros Hc. unfold releaseRequestBodyScratch. destruct (_ || _) eqn:E; [apply mem_step_refl|].
  destruct (m_pool m) eqn:Ep; [apply mem_step_refl|]. split; [|by exists []]. intros _. cbn.
  apply orb_false_iff in E as [E1 E2]. apply Z.eqb_neq in E1. apply Z.ltb_ge in E2. cbn. lia.
Qed.

Lemma growCap_spec m buf need limit floor n m' buf' :
  growRequestBodyCap m buf need limit = (m', buf') ->
  0 <= sl_cap buf < need -> need <= limit -> need <= n -> requestBodyReadInit <= floor ->
  mem_step limit floor n m m' /\ sl_data buf' = sl_data buf /\ need <= sl_cap buf'.
Proof.
  unfold growRequestBodyCap. intros Hg Hc Hn Hnn Hf. assert (0 < requestBodyReadInit) by done.
  destruct (Z.leb_spec need (sl_cap buf)); [lia|].
  set (c1 := if sl_cap buf * 2 <? need then need else sl_cap buf * 2) in Hg.
  set (c2 := if c1 <? requestBodyReadInit then Z.min requestBodyReadInit limit else c1) in Hg.
  set (c3 := if limit <? c2 then limit else c2) in Hg.
  assert (need <= c1 <= 2 * n) by (unfold c1; destruct (Z.ltb_spec (sl_cap buf * 2) need); lia).
  assert (need <= c2 <= Z.max floor (2 * n)) by (unfold c2; destruct (Z.ltb_spec c1 requestBodyReadInit); lia).
  assert (need <= c3 <= Z.max floor (2 * n) /\ c3 <= limit) by (unfold c3; destruct (Z.ltb_spec limit c2); lia).
  destruct (Z.leb_spec c3 (sl_cap buf)); [lia|]. injection Hg as <- <-. cbn.
  split_and!; [apply mem_step_make; lia|done|lia].
Qed.

(** ** What the loops return *)

Section specs.
Context `{Tame R} (r0 : R) (limit floor : Z).
Hypothesis limit_nonneg : 0 <= limit.
Hypothesis within : forall bs e r, reads r0 bs e r -> len bs <= limit.
Hypothesis floor_init : requestBodyReadInit <= floor.

(** The bytes returned are the bytes read, up to the end of the stream or the
    limit; an error is the reader's. *)
Definition delivered {A} (bytes_of : A -> bytes) (m : mem) (out : mem * R * result ioErr A) : Prop :=
  match out with
  | (m', r, Ok b) =>
      exists e, reads r0 (bytes_of b) e r /\ e <> Some ErrBodyBudget /\
        (e = Some EOF \/ limit <= len (bytes_of b)) /\ mem_step limit floor (len (bytes_of b)) m m'
  | (m', r, Err x) =>
      exists bs, reads r0 bs (Some x) r /\ x <> EOF /\ mem_step limit floor (len bs) m m'
  end.

Lemma reads_patience bs e r : reads r0 bs e r -> (patience r <= patience r0)%nat.
Proof.
  induction 1 as [|bs e0 r1 k r2 bs' e _ IH _ Hk HR]; [done|].
  apply tame_patience in HR; [|done]. lia.
Qed.

(** A growing loop's exit on the reader's error. *)
Lemma ended m0 m buf r e :
  reads r0 (sl_data buf) (Some e) r -> mem_step limit floor (len (sl_data buf)) m0 m -> 0 <= sl_cap buf ->
  exists out, match e with EOF => Some (m, r, Ok buf) | _ => Some (m, r, Err e) end = Some out /\
    delivered sl_data m0 out /\ (forall b, out.2 = Ok b -> 0 <= sl_cap b).
Proof.
  intros Hr Hm Hc. destruct (decide (e = EOF)) as [->|Hne].
  - eexists. split; [done|]. split; [|by intros b [= <-]]. exists (Some EOF).
    split_and!; [done|done|by left|done].
  - exists (m, r, Err e). split; [by destruct e|]. split; [|done]. by exists (sl_data buf).
Qed.

(** The one-byte probe of a full buffer. *)
Lemma probed m0 m buf bs :
  len (sl_data buf) = sl_cap buf -> sl_cap buf < limit -> len bs <= 1 -> len (sl_data buf ++ bs) <= limit ->
  mem_step limit floor (len (sl_data buf)) m0 m ->
  let grown := match bs with
    | [] => (m, buf)
    | b :: _ =>
        let '(m, buf) := growRequestBodyCap m buf (len (sl_data buf) + 1) limit in (m, append buf [b])
    end in
  sl_data grown.2 = sl_data buf ++ bs /\ len (sl_data grown.2) <= sl_cap grown.2 /\
  mem_step limit floor (len (sl_data grown.2)) m0 grown.1.
Proof.
  intros Hl Hc Hbs Hw Hm0. pose proof (len_nonneg (sl_data buf)). cbn zeta.
  destruct bs as [|b [|? l]]; [cbn; rewrite app_nil_r; split_and!; [done|lia|done]| |].
  2: { rewrite !len_cons in Hbs. pose proof (len_nonneg l). lia. }
  destruct (growRequestBodyCap _ _ _ _) as [m1 buf1] eqn:Eg. cbn.
  rewrite len_app, len_cons, len_nil in Hw.
  eapply (growCap_spec _ _ _ _ floor (len (sl_data buf) + 1)) in Eg; [|lia..].
  destruct Eg as (Hm & Hd & Hcap). rewrite Hd. split_and!; [done|lia|].
  rewrite len_app, len_cons, len_nil. eapply mem_step_trans; [done| |].
  - replace (0 + 1) with 1 by lia. exact Hm.
  - lia.
Qed.

Lemma growRequestBody_spec fuel m0 : forall m buf r e0,
  reads r0 (sl_data buf) e0 r -> e0 <> Some ErrBodyBudget ->
  len (sl_data buf) <= sl_cap buf -> (patience r < fuel)%nat ->
  mem_step limit floor (len (sl_data buf)) m0 m ->
  exists out, growRequestBody fuel m buf r limit = Some out /\ delivered sl_data m0 out /\
    (forall b, out.2 = Ok b -> 0 <= sl_cap b).
Proof.
  induction fuel as [|fuel IH]; intros m buf r e0 Hr He0 Hc Hf Hm0; [lia|]. cbn [growRequestBody].
  pose proof (len_nonneg (sl_data buf)) as Hl0.
  destruct (Z.ltb_spec (len (sl_data buf)) (sl_cap buf)) as [Hlt|Hge].
  - destruct (Read r _) as [[r1 bs] e] eqn:E.
    assert (Hk : 0 < sl_cap buf - len (sl_data buf)) by lia.
    pose proof (tame_len _ _ _ _ _ Hk E) as Hbs. pose proof (tame_patience _ _ _ _ _ Hk E) as Hp.
    assert (Hr' : reads r0 (sl_data buf ++ bs) e r1) by (by eapply reads_snoc).
    assert (Hm' : mem_step limit floor (len (sl_data buf ++ bs)) m0 m).
    { eapply mem_step_mono; [done|]. rewrite len_app. pose proof (len_nonneg bs). lia. }
    destruct e as [e|].
    + apply (ended m0 m (Slice (sl_data buf ++ bs) (sl_cap buf)) r1 e); [done|done|cbn; lia].
    + eapply (IH m (Slice (sl_data buf ++ bs) (sl_cap buf)) r1 None);
        [done|done|cbn; rewrite len_app; lia|cbn in Hp; lia|done].
  - destruct (Z.leb_spec limit (sl_cap buf)) as [Hcl|Hcl].
    { eexists. split; [done|]. split; [|intros b [= <-]; lia]. exists e0.
      split_and!; [done|done|right; lia|done]. }
    destruct (Read r 1) as [[r1 bs] e] eqn:E.
    pose proof (tame_patience _ _ _ _ _ Z.lt_0_1 E) as Hp.
    pose proof (reads_snoc _ _ _ _ _ _ _ _ Hr He0 Z.lt_0_1 E) as Hr'.
    set (grown := match bs with [] => (m, buf) | b :: _ => _ end).
    assert (Hg : sl_data grown.2 = sl_data buf ++ bs /\ len (sl_data grown.2) <= sl_cap grown.2 /\
      mem_step limit floor (len (sl_data grown.2)) m0 grown.1).
    { apply (probed m0 m buf bs); [lia|lia|by eapply (tame_len _ _ _ _ _ Z.lt_0_1)|by eapply within|done]. }
    destruct grown as [m1 buf1]. cbn in Hg. destruct Hg as (Hd & Hcap & Hm). rewrite <- Hd in Hr'.
    pose proof (len_nonneg (sl_data buf1)). destruct e as [e|].
    + apply (ended m0 m1 buf1 r1 e); [done|done|lia].
    + eapply (IH m1 buf1 r1 None); [done|done|done|cbn in Hp; lia|done].
Qed.
Lemma finish_spec fuel m0 m buf r e0 maxBytes :
  reads r0 (sl_data buf) e0 r -> e0 <> Some ErrBodyBudget ->
  len (sl_data buf) <= sl_cap buf -> (patience r < fuel)%nat ->
  mem_step limit floor (len (sl_data buf)) m0 m ->
  exists out, finishGrowingRequestBody fuel m buf r maxBytes limit = Some out /\ delivered id m0 out.
Proof.
  intros Hr He0 Hc Hf Hm. unfold finishGrowingRequestBody.
  destruct (growRequestBody_spec fuel m0 m buf r e0 Hr He0 Hc Hf Hm) as ([[m' r'] [b|x]] & -> & Hd & Hb).
  - destruct Hd as (e & H1 & H2 & H3 & H4). pose proof (within _ _ _ H1). pose proof (len_nonneg (sl_data b)).
    destruct (maxBytes <? len (sl_data b)).
    + eexists. split; [done|]. by exists e.
    + eexists. split; [done|]. exists e. split_and!; try done.
      eapply mem_step_trans; [done| |reflexivity].
      eapply mem_step_trans; [apply (mem_step_make _ _ (len (sl_data b)))| |reflexivity].
      * done.
      * lia.
      * apply release_spec. by apply Hb.
  - eexists. split; [done|]. exact Hd.
Qed.

Lemma readGrowing_spec fuel m0 m r maxBytes :
  r = r0 -> (patience r0 < fuel)%nat -> mem_ok m -> mem_step limit floor 0 m0 m ->
  exists out, readGrowingRequestBody fuel m r maxBytes limit = Some out /\ delivered id m0 out.
Proof.
  intros -> Hf Hok Hm. unfold readGrowingRequestBody.
  destruct (takeRequestBodyScratch m limit) as [m1 buf] eqn:E.
  apply (take_spec _ floor 0) in E as (Ht & Hd & Hc); [|done..].
  apply (finish_spec _ _ _ _ _ None); rewrite ?Hd; [constructor|done|exact Hc|done|].
  by eapply mem_step_trans.
Qed.

Lemma tail_spec fuel m0 m body maxBytes : forall r e0,
  reads r0 body e0 r -> e0 <> Some ErrBodyBudget -> (patience r < fuel)%nat ->
  mem_ok m -> mem_step limit floor (len body) m0 m ->
  exists out, readRequestBodyTail fuel m r body maxBytes limit = Some out /\ delivered id m0 out.
Proof.
  induction fuel as [|fuel IH]; intros r e0 Hr He0 Hf Hok Hm; [lia|]. cbn [readRequestBodyTail].
  destruct (Read r 1) as [[r1 bs] e] eqn:E.
  pose proof (tame_patience _ _ _ _ _ Z.lt_0_1 E) as Hp.
  pose proof (reads_snoc _ _ _ _ _ _ _ _ Hr He0 Z.lt_0_1 E) as Hr'.
  destruct bs as [|b bs].
  - rewrite app_nil_r in Hr'. destruct e as [e|]; [|eapply (IH r1 None); [done|done|cbn in Hp; lia|done..]].
    destruct (decide (e = EOF)) as [->|Hne].
    + eexists. split; [done|]. exists (Some EOF). split_and!; [done|done|by left|done].
    + exists (m, r1, Err e). split; [by destruct e|]. by exists body.
  - assert (Hmn : mem_step limit floor (len (body ++ b :: bs)) m0 m).
    { eapply mem_step_mono; [done|]. rewrite len_app. pose proof (len_nonneg (b :: bs)). lia. }
    case_bool_decide as He.
    2: { destruct e as [e|]; [|tauto]. exists (m, r1, Err e). split; [done|].
         exists (body ++ b :: bs). split_and!; [done|naive_solver|done]. }
    assert (Hne : e <> Some ErrBodyBudget) by (by destruct He as [-> | ->]).
    destruct (takeRequestBodyScratch m limit) as [m1 buf] eqn:Et.
    apply (take_spec _ floor (len (body ++ b :: bs))) in Et as (Ht & Hd & Hc); [|done..].
    set (grown := if sl_cap buf <? len body + len (b :: bs)
                  then growRequestBodyCap m1 buf (len body + len (b :: bs)) limit else (m1, buf)).
    assert (Hg : mem_step limit floor (len (body ++ b :: bs)) m1 grown.1 /\ sl_data grown.2 = [] /\
      len (body ++ b :: bs) <= sl_cap grown.2).
    { subst grown. rewrite <- len_app. pose proof (within _ _ _ Hr').
      destruct (Z.ltb_spec (sl_cap buf) (len (body ++ b :: bs))); [|by split_and!; [apply mem_step_refl|..]].
      destruct (growRequestBodyCap _ _ _ _) as [m2 buf2] eqn:Eg.
      eapply (growCap_spec _ _ _ _ floor (len (body ++ b :: bs))) in Eg as (G1 & G2 & G3);
        [|lia|done|reflexivity|done]. rewrite <- Hd. by split_and!. }
    destruct grown as [m2 buf2]. cbn in Hg. destruct Hg as (Hg & Hd2 & Hc2).
    apply (finish_spec _ m0 m2 (append (append buf2 body) (b :: bs)) r1 e);
      cbn [append sl_data sl_cap]; rewrite ?Hd2; cbn [app].
    + done.
    + done.
    + lia.
    + lia.
    + eapply mem_step_trans; [|exact Hg|reflexivity]. by eapply mem_step_trans.
Qed.

(** A buffer read in place: full whatever came with the last byte, or short
    with the reader's error - EOF reported as an unexpected one. *)
Lemma ReadFull_spec want fuel : forall r got e0,
  reads r0 got e0 r -> e0 <> Some ErrBodyBudget -> (patience r < fuel)%nat ->
  exists r' buf e e1, ReadFull fuel r want got = Some (r', buf, e) /\ reads r0 buf e1 r' /\
    match e with
    | None => e1 <> Some ErrBodyBudget
    | Some x => e1 = Some x /\ x <> EOF \/ (x = EOF \/ x = UnexpectedEOF) /\ e1 = Some EOF
    end.
Proof.
  induction fuel as [|fuel IH]; intros r got e0 Hr He0 Hf; [lia|]. cbn [ReadFull].
  destruct (Z.leb_spec want (len got)) as [|Hlt]; [by exists r, got, None, e0|].
  destruct (Read r _) as [[r1 bs] e] eqn:E. assert (Hk : 0 < want - len got) by lia.
  pose proof (tame_patience _ _ _ _ _ Hk E) as Hp.
  pose proof (reads_snoc _ _ _ _ _ _ _ _ Hr He0 Hk E) as Hr'.
  destruct e as [e|]; [|eapply (IH r1 _ None); [done|done|cbn in Hp; lia]].
  destruct (Z.leb_spec want (len (got ++ bs))) as [Hw|Hw].
  - exists r1, (got ++ bs), None, (Some e). split_and!; [done|done|]. intros [= ->].
    apply (tame_refusal _ _ _ _ Hk) in E as ->. rewrite app_nil_r in Hw. lia.
  - eexists r1, (got ++ bs), _, (Some e). split; [done|]. split; [done|].
    case_bool_decide as He; [subst e|left; done]. right. split; [|done]. destruct (0 <? _); tauto.
Qed.

Lemma readRequestBody_spec fuel m r contentLength maxBytes hintMax :
  r = r0 -> (patience r0 < fuel)%nat -> mem_ok m -> hintMax <= floor ->
  exists out, readRequestBody_limited fuel m r contentLength maxBytes hintMax limit = Some out /\
    delivered id m out.
Proof.
  intros -> Hf Hok Hh. unfold readRequestBody_limited.
  assert (Hgrow : exists out, readGrowingRequestBody fuel m r0 maxBytes limit = Some out /\ delivered id m out).
  { apply readGrowing_spec; [done..|apply mem_step_refl]. }
  destruct (contentLength <? 0); [done|]. destruct (Z.ltb_spec 0 (Z.min (Z.min contentLength limit) hintMax)); [|done].
  destruct (contentLength <=? hintMax); [|done].
  destruct (ReadFull_spec (Z.min (Z.min contentLength limit) hintMax) fuel r0 [] None) as (r' & buf & e & e1 & -> & Hr & He);
    [constructor|done|done|].
  assert (Hm : mem_step limit floor (len buf) m (make (Z.min (Z.min contentLength limit) hintMax) m)).
  { apply mem_step_make; lia. }
  case_bool_decide as Hd.
  - assert (e1 <> Some ErrBodyBudget).
    { destruct e as [x|]; [|done]. destruct He as [[-> ?]|[_ ->]]; [|done].
      by destruct Hd as [?|[[= ->]|[= ->]]]. }
    eapply (tail_spec fuel); [done|done| |done|done].
    pose proof (reads_patience _ _ _ Hr). lia.
  - destruct e as [x|]; [|tauto]. eexists. split; [done|]. cbn. exists buf.
    destruct He as [[-> ?]|[[-> | ->] _]]; [done|tauto..].
Qed.

Lemma discard_spec fuel : forall r got e0,
  reads r0 got e0 r -> e0 <> Some ErrBodyBudget -> (patience r < fuel)%nat ->
  exists r' bs e, discard fuel r (len got) = Some (r', len bs, e) /\
    reads r0 bs (Some (default EOF e)) r' /\ e <> Some EOF.
Proof.
  induction fuel as [|fuel IH]; intros r got e0 Hr He0 Hf; [lia|]. cbn [discard].
  destruct (Read r 8192) as [[r1 bs] e] eqn:E. assert (Hk : 0 < 8192) by done.
  pose proof (tame_patience _ _ _ _ _ Hk E) as Hp.
  pose proof (reads_snoc _ _ _ _ _ _ _ _ Hr He0 Hk E) as Hr'. rewrite <- len_app.
  destruct e as [e|]; [|eapply (IH r1 _ None); [done|done|cbn in Hp; lia]].
  destruct (decide (e = EOF)) as [->|Hne]; [by exists r1, (got ++ bs), None|].
  exists r1, (got ++ bs), (Some e). split; [by destruct e|]. split; [done|]. by intros [= ->].
Qed.
End specs.

(** ** A charged upload behind the limit *)

Section upload.
Context {C : Type} `{BodyReader R}.

(** Reads of the limited, charged body in terms of the body. *)
Lemma upload_reads (r : R) (charge : C -> Z -> C * bool) c N bs e l :
  reads (Limited (Charged r charge c 0) N) bs e l -> 0 <= N ->
  let rest := ch_r (lr_R l) in
  len bs <= N /\
  exists extra e2 accepts c1,
    settled charge c bs accepts c1 (ch_c (lr_R l)) extra e /\
    reads r (bs ++ extra) e2 rest /\ e2 <> Some ErrBodyBudget /\ ch_read (lr_R l) = len (bs ++ extra) /\
    content r = bs ++ extra ++ content rest /\ outcome rest = outcome r /\
    (forall x, e = Some x -> x <> ErrBodyBudget ->
       (content rest = [] /\ x = outcome r) \/ (x = EOF /\ len bs = N)).
Proof.
  intros Hr HN rest.
  destruct (limited_reads _ _ _ _ _ Hr HN) as (Hl1 & Hl2 & e' & Hc & He'); [apply tame_len|].
  destruct (charged_reads _ _ _ _ _ _ Hc) as (_ & extra & e2 & accepts & c1 & H1 & H2 & H3 & [Ha Hs Hend] & H4).
  destruct (body_reads _ _ _ _ H1) as (H5 & H6 & H7). rewrite <- app_assoc in H5.
  split; [lia|]. exists extra, e2, accepts, c1. split_and!; [|done..|].
  - split; [done|done|]. destruct He' as [<-|(-> & _ & Hne)]; [done|].
    destruct Hend as [(? & ? & _)|(_ & _ & ?)]; [by left|done].
  - intros x -> Hx. destruct He' as [->|([= ->] & Hz & _)]; [|right; split; [done|lia]].
    left. apply H7. rewrite H4; [done|]. by intros [= ->].
Qed.

(** What readRequestHint answers: the exact body, or the one error that
    applies. [c1] is the charge's state after the accepted chunks [accepts]. *)
Definition hint_answer (r : R) (charge : C -> Z -> C * bool) (maxBytes : Z) (accepts : list Z) (c1 c' : C)
    (res : result bodyError bytes) : Prop :=
  (c' = c1 \/ exists n, 0 < n /\ sum accepts + n <= len (content r) /\ charge c1 n = (c', false)) /\
  match res with
  | Ok b => b = content r /\ outcome r = EOF /\ len b <= maxBytes /\ sum accepts = len b /\ c' = c1
  | Err (MaxBytesError n) => n = maxBytes /\ maxBytes < len (content r) /\ sum accepts <= maxBytes + 1
  | Err (ReadError ErrBodyBudget) =>
      outcome r = EOF /\ len (content r) <= maxBytes /\
      exists n, 0 < n /\ sum accepts + n <= len (content r) /\ charge c1 n = (c', false)
  | Err (ReadError x) => x = outcome r /\ x <> EOF
  end.

(** The drain of a refused body: [taken] of its bytes were read before. *)
Lemma chargeRefusal_spec fuel (r : R) read maxBytes taken rest :
  0 <= maxBytes < int64_max -> (patience r < fuel)%nat ->
  read = len taken -> rest = content r -> 
  exists r' e, chargeRefusalError fuel r read maxBytes = Some (r', e) /\
    match e with
    | MaxBytesError n => n = maxBytes /\ maxBytes < len (taken ++ rest)
    | ReadError ErrBodyBudget => outcome r = EOF /\ len (taken ++ rest) <= maxBytes
    | ReadError x => x = outcome r /\ x <> EOF
    end.
Proof.
  intros Hmax Hf -> ->. unfold chargeRefusalError. rewrite len_app.
  rewrite wrap64_id by (unfold in_int64, int64_min, int64_max in *; lia).
  pose proof (len_nonneg (content r)). pose proof (len_nonneg taken).
  destruct (Z.ltb_spec maxBytes (len taken)); [eexists _, _; split; [done|split; [done|lia]]|].
  destruct (Z.ltb_spec 0 (maxBytes + 1 - len taken)); [|lia].
  destruct (discard_spec (Limited r (maxBytes + 1 - len taken)) fuel (Limited r (maxBytes + 1 - len taken)) [] None)
    as (l & bs & e & Hd & Hr & He); [constructor|done|done|]. rewrite len_nil in Hd. rewrite Hd.
  destruct (limited_reads _ _ _ _ _ Hr) as (Hl1 & Hl2 & e' & Hb & He'); [lia|apply tame_len|].
  destruct (body_reads _ _ _ _ Hb) as (H5 & H6 & H7). rewrite H5, len_app.
  pose proof (len_nonneg (content (lr_R l))).
  destruct e as [x|]; cbn in He'; eexists _, _; (split; [done|]).
  - destruct He' as [->|([= ->] & _)]; [|done]. destruct (H7 _ eq_refl) as [_ Hx]. pose proof (body_outcome r).
    destruct x; try congruence; (split; [done|by intros [= ]]).
  - destruct (Z.ltb_spec maxBytes (len taken + len bs)); [split; [done|lia]|].
    destruct He' as [->|(_ & Hz & _)]; [|lia]. destruct (H7 _ eq_refl) as [Hnil Hx].
    rewrite Hnil, len_nil. split; [done|lia].
Qed.

Lemma readRequestHint_spec fuel m (r : R) contentLength maxBytes hintMax (charge : C -> Z -> C * bool) c :
  0 <= maxBytes < int64_max -> mem_ok m -> (patience r < fuel)%nat ->
  exists m' c' res accepts c1,
    readRequestHint_body fuel m (Some r) contentLength maxBytes hintMax (Some charge) c = Some (m', c', res) /\
    accepted charge c accepts c1 /\ hint_answer r charge maxBytes accepts c1 c' res /\
    mem_step (maxBytes + 1) (Z.max requestBodyReadInit (if hintMax <=? 0 then requestReadHintMax else hintMax))
      (len (content r)) m m'.
Proof.
  intros Hmax Hok Hf. unfold readRequestHint_body, readRequestBody.
  set (hint := if hintMax <=? 0 then requestReadHintMax else hintMax).
  rewrite wrap64_id by (unfold in_int64, int64_min, int64_max in *; lia).
  set (r0 := Limited (Charged r charge c 0) (maxBytes + 1)).
  destruct (readRequestBody_spec r0 (maxBytes + 1) (Z.max requestBodyReadInit hint)) with
    (fuel := fuel) (m := m) (r := r0) (contentLength := contentLength) (maxBytes := maxBytes) (hintMax := hint)
    as ([[m' l] [b|x]] & -> & Hd); [lia| |lia|done|done|done|lia|..].
  { intros bs e l Hr. eapply (upload_reads r charge c (maxBytes + 1) bs e l) in Hr; [|lia]. tauto. }
  - destruct Hd as (e & H1 & H2 & H3 & H4). cbn [id] in *.
    destruct (upload_reads _ _ _ _ _ _ _ H1) as (Hlim & extra & e2 & accepts & c1 & [Ha Hs Hend] & _ & _ & _ & Hc & _ & Hx);
      [lia|]. destruct Hend as [(-> & Hcc & _)|(_ & _ & ?)]; [|done]. cbn [app] in Hc.
    assert (Hlen : len (content r) = len b + len (content (ch_r (lr_R l)))) by (by rewrite Hc, len_app).
    pose proof (len_nonneg (content (ch_r (lr_R l)))).
    eexists _, _, _, accepts, c1. split; [done|]. split; [done|].
    split; [|eapply mem_step_mono; [done|lia]]. split; [by left|].
    destruct (Z.ltb_spec maxBytes (len b)); [split_and!; [done|lia|lia]|].
    destruct H3 as [->|]; [|lia]. destruct (Hx EOF) as [(Hnil & Hout)|[_ ?]]; [done|done| |lia].
    rewrite Hnil, app_nil_r in Hc. by split_and!.
  - destruct Hd as (bs & H1 & H2 & H4). cbn [id] in *.
    destruct (upload_reads _ _ _ _ _ _ _ H1) as (Hlim & extra & e2 & accepts & c1 & [Ha Hs Hend] & Hre & He2 & Hread & Hc & Ho & Hx);
      [lia|].
    assert (Hlen : len (content r) = len bs + (len extra + len (content (ch_r (lr_R l))))) by (by rewrite Hc, !len_app).
    pose proof (len_nonneg (content (ch_r (lr_R l)))). pose proof (len_nonneg extra).
    assert (Hms : mem_step (maxBytes + 1) (Z.max requestBodyReadInit hint) (len (content r)) m m').
    { eapply mem_step_mono; [done|lia]. }
    destruct (decide (x = ErrBodyBudget)) as [->|Hne].
    + destruct Hend as [(_ & _ & ?)|(Hn & Href & _)]; [done|].
      destruct (chargeRefusal_spec fuel (ch_r (lr_R l)) (ch_read (lr_R l)) maxBytes (bs ++ extra)
        (content (ch_r (lr_R l)))) as (r' & e & -> & He); [done| |done|done|].
      { pose proof (reads_patience _ _ _ _ Hre). lia. }
      rewrite <- app_assoc, <- Hc, Ho in He.
      assert (Hrefuse : exists n, 0 < n /\ sum accepts + n <= len (content r) /\ charge c1 n = (ch_c (lr_R l), false)).
      { exists (len extra). split_and!; [done|lia|done]. }
      eexists _, _, _, accepts, c1. split; [done|]. split; [done|]. split; [|done]. split; [by right|].
      destruct e as [n|[]]; [split_and!; [tauto|tauto|lia]|done..|tauto|done].
    + destruct Hend as [(-> & Hcc & _)|(_ & _ & [= ?])]; [|done].
      eexists _, _, _, accepts, c1. split; [by destruct x|]. split; [done|]. split; [|done]. split; [by left|].
      destruct (Hx x eq_refl Hne) as [[_ Hout]|[? _]]; [|done]. by destruct x.
Qed.
End upload.

(** ** The handler: admission, the body, and the reservation's release *)

(** The charge ServeHTTP passes: its reservation's chargeRead. *)
Definition reservation_charge (c : limiter * bodyReservation) (n : Z) : limiter * bodyReservation * bool :=
  chargeRead c.1 c.2 n.

(** The status of a body that was not read, and whether it says Retry-After. *)
Definition bodyErrorStatus (e : bodyError) : Z * bool :=
  match e with
  | MaxBytesError _ => (413, false)
  | ReadError ErrBodyBudget => (503, true)
  | ReadError _ => (400, false)
  end.

Inductive served := Upload (body : bytes) | HttpError (status : Z) (retryAfter : bool).

(** ServeHTTP's acquireBody, readRequestHint, error answer and deferred release. *)
Definition serve_body `{IoReader R} (fuel : nat) (m : mem) (l : limiter) (body : R)
    (contentLength maxBytes : Z) : option (mem * limiter * served) :=
  match acquireBody l with
  | (l, None) => Some (m, l, HttpError 503 true)
  | (l, Some reservation) =>
      match readRequestHint_body fuel m (Some body) contentLength maxBytes requestReadHintMax
              (Some reservation_charge) (l, reservation) with
      | None => None
      | Some (m, (l, reservation), res) =>
          Some (m, reservation_release l reservation,
            match res with
            | Ok b => Upload b
            | Err e => let '(status, retry) := bodyErrorStatus e in HttpError status retry
            end)
      end
  end.

(** What a body costs the budget, whatever its chunks. *)
Lemma reservation_accepted l0 accepts c1 :
  accepted reservation_charge (l0, newReservation) accepts c1 ->
  c1 = (add_bytes (sum accepts) l0, {| br_charged := sum accepts; br_read := sum accepts |}) /\
  0 <= sum accepts /\
  (0 < sum accepts -> over (il_byteLimit l0) (il_bytes l0 + sum accepts) = false).
Proof.
  induction 1 as [|acc c1 n c2 _ (-> & H1 & H2) Hn Hc].
  - split; [|done]. destruct l0. unfold add_bytes, sum. cbn. by rewrite Z.add_0_r.
  - rewrite sum_snoc. unfold reservation_charge, chargeRead in Hc. cbn in Hc.
    destruct (Z.leb_spec n 0); [lia|]. replace (sum acc + n - sum acc) with n in Hc by lia.
    destruct (over _ _) eqn:E; [done|]. injection Hc as <-.
    rewrite <- Z.add_assoc in E. split; [|split; [lia|done]].
    unfold add_bytes. cbn. by rewrite Z.add_assoc.
Qed.

Lemma reservation_refused l0 s n c' :
  reservation_charge (add_bytes s l0, {| br_charged := s; br_read := s |}) n = (c', false) -> 0 < n ->
  c' = (add_bytes s l0, {| br_charged := s; br_read := s |}) /\
  over (il_byteLimit l0) (il_bytes l0 + (s + n)) = true.
Proof.
  unfold reservation_charge, chargeRead. cbn. intros Hc Hn. destruct (Z.leb_spec n 0); [lia|].
  replace (s + n - s) with n in Hc by lia. destruct (over _ _) eqn:E; [|done]. injection Hc as <-.
  rewrite <- Z.add_assoc in E. split; [|done]. unfold add_bytes. cbn. do 2 f_equal. lia.
Qed.

Lemma over_mono limit a b : over limit a = true -> a <= b -> over limit b = true.
Proof. unfold over. rewrite !andb_true_iff, !Z.ltb_lt. lia. Qed.

Lemma reservation_released l s : 0 <= s ->
  reservation_release (add_bytes s (add_cur 1 l)) {| br_charged := s; br_read := s |} = l.
Proof.
  intros Hs. destruct l. unfold reservation_release, limiter_release, add_bytes, add_cur. cbn.
  destruct (Z.ltb_spec 0 s); cbn; f_equal; lia.
Qed.


(** Memory follows the bytes that arrive, never the declared length: the
    read ends, no buffer it makes is larger than the request limit or than the
    larger of 64 KiB, the read hint and twice the body sent, and the one pooled
    scratch stays within its bound. *)
Theorem body_allocation_bounded `{BodyReader R} {C} fuel m (body : R) contentLength maxBytes hintMax
    (charge : C -> Z -> C * bool) c :
  0 <= maxBytes < int64_max -> 0 < hintMax -> mem_ok m -> (patience body < fuel)%nat ->
  exists m' c' res new,
    readRequestHint_body fuel m (Some body) contentLength maxBytes hintMax (Some charge) c = Some (m', c', res) /\
    m_made m' = new ++ m_made m /\ mem_ok m' /\
    Forall (fun size => size <= maxBytes + 1 /\
      size <= Z.max (Z.max (Z.shiftl 64 10) hintMax) (2 * len (content body))) new.
Proof.
  intros Hmax Hh Hok Hf.
  destruct (readRequestHint_spec fuel m body contentLength maxBytes hintMax charge c Hmax Hok Hf)
    as (m' & c' & res & accepts & c1 & Ho & _ & _ & [Hk (new & Hm & Hall)]).
  exists m', c', res, new. split_and!; [done|done|auto|].
  destruct (Z.leb_spec hintMax 0); [lia|done].
Qed.

(** ** A scripted client *)

(** The chunks its body arrives in, whether the last one comes with the end,
    and how it ends: cleanly, or broken off. *)
Record script := Script { sc_chunks : list bytes; sc_together : bool; sc_broken : bool }.

#[global] Instance script_read : IoReader script := fun s k =>
  let ends := if sc_broken s then UnexpectedEOF else EOF in
  match sc_chunks s with
  | [] => (s, [], Some ends)
  | c :: cs =>
      let got := take (Z.to_nat k) c in
      let rest := drop (Z.to_nat k) c in
      let s' := Script (if bool_decide (rest = []) then cs else rest :: cs) (sc_together s) (sc_broken s) in
      (s', got, if sc_together s && bool_decide (sc_chunks s' = []) then Some ends else None)
  end.

Definition script_patience (s : script) : nat := sum_list_with (fun c => S (length c)) (sc_chunks s).

Lemma script_step s k s' bs e : 0 < k -> Read s k = (s', bs, e) ->
  len bs <= k /\ concat (sc_chunks s) = bs ++ concat (sc_chunks s') /\ sc_broken s' = sc_broken s /\
  (script_patience s' + (if e then 0 else 1) <= script_patience s)%nat /\
  (forall x, e = Some x -> concat (sc_chunks s') = [] /\ x = if sc_broken s then UnexpectedEOF else EOF).
Proof.
  unfold Read, script_read, script_patience, len. destruct s as [[|c cs] tog br]; cbn; intros Hk [= <- <- <-]; cbn.
  - split_and!; [lia|done|done|lia|]. by intros x [= <-].
  - rewrite length_take. split; [lia|].
    assert (Hc : c ++ concat cs = take (Z.to_nat k) c ++
      concat (if bool_decide (drop (Z.to_nat k) c = []) then cs else drop (Z.to_nat k) c :: cs)).
    { case_bool_decide as Hd; cbn.
      - rewrite <- (take_drop (Z.to_nat k) c) at 1. by rewrite Hd, app_nil_r.
      - by rewrite app_assoc, take_drop. }
    split; [done|]. split; [done|]. split.
    + case_bool_decide as Hd; cbn.
      * destruct (tog && _); lia.
      * rewrite length_drop. destruct c as [|b c]; [by rewrite drop_nil in Hd|]. cbn [length].
        destruct (tog && _); lia.
    + intros x Hx. destruct tog; cbn in Hx; [|done]. case_bool_decide as Hn; [|done].
      injection Hx as <-. by rewrite Hn.
Qed.

#[global] Instance script_body : BodyReader script.
Proof.
  unshelve refine {| content := fun s => concat (sc_chunks s);
    outcome := fun s => if sc_broken s then UnexpectedEOF else EOF |}.
  - refine {| patience := script_patience |}; intros s k s' bs.
    + intros e Hk HR. by destruct (script_step _ _ _ _ _ Hk HR) as (? & _).
    + intros Hk HR. destruct (script_step _ _ _ _ _ Hk HR) as (_ & _ & _ & _ & Hx).
      destruct (Hx _ eq_refl) as [_ ?]. by destruct (sc_broken s).
    + intros e Hk HR. by destruct (script_step _ _ _ _ _ Hk HR) as (_ & _ & _ & ? & _).
  - intros s. by destruct (sc_broken s).
  - intros s k s' bs e Hk HR. destruct (script_step _ _ _ _ _ Hk HR) as (_ & H1 & H2 & _ & H3).
    split_and!; [done|by rewrite H2|done].
Defined.

Definition demo_body : script := Script [[1; 2; 3]; [4; 5]; [6; 7; 8]] true false.
Definition no_mem : mem := Mem None [].


(** A declared gigabyte with eight bytes behind it. *)
Lemma body_allocation_bounded_witness :
  exists m' c' res new,
    readRequestHint_body 20 no_mem (Some demo_body) (2 ^ 30) (2 ^ 31) requestReadHintMax
      (Some reservation_charge) (Limiter 4 1 0 2, newReservation) = Some (m', c', res) /\
    m_made m' = new /\ Forall (fun size => size <= 2 ^ 20) new.
Proof.
  destruct (body_allocation_bounded 20 no_mem demo_body (2 ^ 30) (2 ^ 31) requestReadHintMax
    reservation_charge (Limiter 4 1 0 2, newReservation)) as (m' & c' & res & new & H1 & H2 & _ & H3);
    [by vm_compute|done|done|vm_compute; lia|].
  exists m', c', res, new. split_and!; [exact H1|by rewrite H2, app_nil_r|].
  eapply Forall_impl; [exact H3|]. intros size [_ Hs]. exact Hs.
Defined.
