(* ===== verification/GoUtf8.v ===== *)
(** Go's [unicode/utf8] and the rune loops over a string the components use. *)

From S2P Require Import Prelude.

Definition RuneError : Z := 65533.
Definition RuneSelf : Z := 128.
Definition MaxRune : Z := 1114111.

Definition between (lo hi c : Z) : bool := (lo <=? c) && (c <=? hi).
Definition cont (c : Z) : bool := between 128 191 c.
Definition surrogate (r : Z) : bool := between 55296 57343 r.

(** The length a leading byte announces, and the range of the byte after it. *)
Definition lead (b : Z) : option (nat * Z * Z) :=
  if between 194 223 b then Some (2%nat, 128, 191)
  else if b =? 224 then Some (3%nat, 160, 191)
  else if b =? 237 then Some (3%nat, 128, 159)
  else if between 225 239 b then Some (3%nat, 128, 191)
  else if b =? 240 then Some (4%nat, 144, 191)
  else if b =? 244 then Some (4%nat, 128, 143)
  else if between 241 243 b then Some (4%nat, 128, 191)
  else None.

(** utf8.DecodeRune: the rune and its size. *)
Definition DecodeRune (s : bytes) : Z * nat :=
  match s with
  | [] => (RuneError, 0%nat)
  | b0 :: s =>
      if b0 <? RuneSelf then (b0, 1%nat) else
      match lead b0, s with
      | Some (2%nat, lo, hi), b1 :: _ =>
          if between lo hi b1 then ((b0 - 192) * 64 + (b1 - 128), 2%nat) else (RuneError, 1%nat)
      | Some (3%nat, lo, hi), b1 :: b2 :: _ =>
          if between lo hi b1 && cont b2
          then ((b0 - 224) * 4096 + (b1 - 128) * 64 + (b2 - 128), 3%nat) else (RuneError, 1%nat)
      | Some (4%nat, lo, hi), b1 :: b2 :: b3 :: _ =>
          if between lo hi b1 && cont b2 && cont b3
          then ((b0 - 240) * 262144 + (b1 - 128) * 4096 + (b2 - 128) * 64 + (b3 - 128), 4%nat)
          else (RuneError, 1%nat)
      | _, _ => (RuneError, 1%nat)
      end
  end.

(** utf8.AppendRune's bytes. *)
Definition EncodeRune (r : Z) : bytes :=
  if between 0 127 r then [r] else
  if between 128 2047 r then [192 + r / 64; 128 + r mod 64] else
  let r := if surrogate r || (r <? 0) || (MaxRune <? r) then RuneError else r in
  if r <=? 65535 then [224 + r / 4096; 128 + r / 64 mod 64; 128 + r mod 64]
  else [240 + r / 262144; 128 + r / 4096 mod 64; 128 + r / 64 mod 64; 128 + r mod 64].

Definition RuneLen (r : Z) : Z := Z.of_nat (length (EncodeRune r)).

(** utf8.RuneStart. *)
Definition RuneStart (b : Z) : bool := negb (Z.land b 192 =? 128).

(** [for _, r := range s]: an invalid byte is a RuneError of one byte. *)
Fixpoint runes_fuel (fuel : nat) (s : bytes) : list (Z * nat) :=
  match fuel, s with
  | S fuel, _ :: _ => let '(r, n) := DecodeRune s in (r, n) :: runes_fuel fuel (drop n s)
  | _, _ => []
  end.
Definition runes (s : bytes) : list (Z * nat) := runes_fuel (length s) s.

(** utf8.Valid. *)
Definition Utf8Valid (s : bytes) : bool :=
  forallb (fun rn : Z * nat => negb ((rn.1 =? RuneError) && Nat.eqb rn.2 1)) (runes s).

(** strings.EqualFold against an ASCII name. The only runes outside ASCII that
    simple case folding takes into it are U+017F (long s) and U+212A (Kelvin). *)
Definition fold_rune (r : Z) : Z :=
  if between 65 90 r then r + 32 else if r =? 383 then 115 else if r =? 8490 then 107 else r.
Definition EqualFold (t name : bytes) : bool :=
  bool_decide (map (fun rn : Z * nat => fold_rune rn.1) (runes t) = map fold_rune name).

(** strings.ToLower: byte by byte on ASCII text, rune by rune otherwise. The
    tables of package unicode outside ASCII are the parameter [lower_rune]. *)
Definition lower (c : Z) : Z := if between 65 90 c then c + 32 else c.

Class Unicode := { lower_rune : Z -> Z }.
Definition ToLower `{!Unicode} (s : bytes) : bytes :=
  if forallb (fun b => b <? RuneSelf) s then map lower s
  else concat (map (fun rn : Z * nat => EncodeRune (if rn.1 <? RuneSelf then lower rn.1 else lower_rune rn.1)) (runes s)).

(** ** Decoding *)

Lemma between_spec lo hi c : between lo hi c = true <-> lo <= c <= hi.
Proof. unfold between. rewrite andb_true_iff, !Z.leb_le. lia. Qed.
Lemma between_false lo hi c : between lo hi c = false <-> ~ (lo <= c <= hi).
Proof. rewrite <- between_spec. by destruct (between lo hi c). Qed.

Ltac between_cases :=
  repeat match goal with
  | |- context [between ?lo ?hi ?c] =>
      let H := fresh in destruct (between lo hi c) eqn:H;
        [apply between_spec in H|apply between_false in H]; cbn [andb orb]
  end.

(** A rune takes at least a byte, and never more than there are. *)
Lemma DecodeRune_size s : s <> [] -> (1 <= (DecodeRune s).2 <= length s)%nat.
Proof.
  intros Hs. destruct s as [|b0 s]; [done|]. unfold DecodeRune.
  destruct (b0 <? RuneSelf); [cbn; lia|].
  destruct (lead b0) as [[[n lo] hi]|]; [|cbn; lia].
  destruct n as [|[|[|[|[|n]]]]]; destruct s as [|b1 [|b2 [|b3 s]]]; cbn -[between];
    repeat (case_match; cbn); lia.
Qed.

Lemma runes_enough f : forall s g,
  (length s <= f)%nat -> (length s <= g)%nat -> runes_fuel f s = runes_fuel g s.
Proof.
  induction f as [|f IH]; intros s g Hf Hg.
  - destruct s; [by destruct g|cbn in Hf; lia].
  - destruct s as [|b s]; [by destruct g|]. destruct g as [|g]; [cbn in Hg; lia|]. cbn [runes_fuel].
    pose proof (DecodeRune_size (b :: s) ltac:(done)) as Hd. destruct (DecodeRune (b :: s)) as [r n].
    cbn [snd length] in *. f_equal. apply IH; rewrite length_drop; cbn [length]; lia.
Qed.

(** A loop over the runes sees the whole string. *)
Lemma runes_step s : s <> [] -> runes s = DecodeRune s :: runes (drop (DecodeRune s).2 s).
Proof.
  intros Hs. unfold runes. destruct s as [|b s]; [done|]. cbn [length runes_fuel].
  pose proof (DecodeRune_size (b :: s) Hs) as Hd. destruct (DecodeRune (b :: s)) as [r n]. cbn [fst snd] in *.
  f_equal. apply runes_enough; rewrite length_drop; cbn [length] in *; lia.
Qed.

Lemma runes_app_ascii c s : 0 <= c < RuneSelf -> runes (c :: s) = (c, 1%nat) :: runes s.
Proof.
  intros Hc. rewrite runes_step by done. unfold DecodeRune.
  destruct (Z.ltb_spec c RuneSelf); [done|lia].
Qed.

(** ** A decoded rune encodes back to its bytes *)

Local Ltac Zify.zify_post_hook ::= Z.to_euclidean_division_equations.

(** ** Case of ASCII text *)

Definition ascii (s : bytes) : bool := forallb (fun b => between 0 127 b) s.

Lemma runes_ascii s : ascii s = true -> runes s = map (fun c => (c, 1%nat)) s.
Proof.
  unfold ascii. induction s as [|c s IH]; [done|]. cbn [forallb map]. rewrite andb_true_iff, between_spec. intros [Hc Hs].
  rewrite runes_app_ascii by (unfold RuneSelf; lia). by rewrite IH.
Qed.

Lemma EqualFold_lower a b : ascii a = true -> ascii b = true -> EqualFold a b = bool_decide (map lower a = map lower b).
Proof.
  intros Ha Hb. unfold EqualFold. rewrite runes_ascii, map_map by done. cbn.
  assert (Hl : forall s, ascii s = true -> map fold_rune s = map lower s); [|by rewrite !Hl].
  clear. unfold ascii. induction s as [|c s IH]; cbn; [done|]. rewrite andb_true_iff, between_spec. intros [Hc Hs].
  rewrite IH by done. f_equal. unfold fold_rune, lower. destruct (between 65 90 c); [done|].
  destruct (Z.eqb_spec c 383); [lia|]. by destruct (Z.eqb_spec c 8490); [lia|].
Qed.

Lemma ToLower_ascii `{!Unicode} s : ascii s = true -> ToLower s = map lower s.
Proof.
  unfold ToLower, ascii. intros Ha. replace (forallb (fun b => b <? RuneSelf) s) with true; [done|]. symmetry.
  apply forallb_forall. intros c Hc. rewrite forallb_forall in Ha. apply Ha, between_spec in Hc. unfold RuneSelf. lia.
Qed.

Lemma lower_idem c : lower (lower c) = lower c.
Proof. unfold lower. between_cases; try done; lia. Qed.

Lemma lead_range b n lo hi : lead b = Some (n, lo, hi) ->
  (n = 2%nat /\ 194 <= b <= 223 /\ lo = 128 /\ hi = 191) \/
  (n = 3%nat /\ 224 <= b <= 239 /\ 128 <= lo /\ hi <= 191 /\ (b = 224 -> lo = 160) /\ (b = 237 -> hi = 159)) \/
  (n = 4%nat /\ 240 <= b <= 244 /\ 128 <= lo /\ hi <= 191 /\ (b = 240 -> lo = 144) /\ (b = 244 -> hi = 143)).
Proof.
  unfold lead. intros H.
  destruct (between 194 223 b) eqn:E1; [apply between_spec in E1; injection H as <- <- <-; lia|].
  destruct (Z.eqb_spec b 224) as [->|]; [injection H as <- <- <-; lia|].
  destruct (Z.eqb_spec b 237) as [->|]; [injection H as <- <- <-; lia|].
  destruct (between 225 239 b) eqn:E2; [apply between_spec in E2; injection H as <- <- <-; lia|].
  destruct (Z.eqb_spec b 240) as [->|]; [injection H as <- <- <-; lia|].
  destruct (Z.eqb_spec b 244) as [->|]; [injection H as <- <- <-; lia|].
  destruct (between 241 243 b) eqn:E3; [apply between_spec in E3; injection H as <- <- <-; lia|done].
Qed.

Lemma EncodeRune_2 r : 128 <= r <= 2047 -> EncodeRune r = [192 + r / 64; 128 + r mod 64].
Proof.
  intros H. unfold EncodeRune. destruct (between 0 127 r) eqn:E; [apply between_spec in E; lia|].
  destruct (between 128 2047 r) eqn:E2; [done|apply between_false in E2; lia].
Qed.
Lemma EncodeRune_3 r : 2048 <= r <= 65535 -> ~ (55296 <= r <= 57343) ->
  EncodeRune r = [224 + r / 4096; 128 + r / 64 mod 64; 128 + r mod 64].
Proof.
  intros H Hs. unfold EncodeRune, surrogate, MaxRune. destruct (between 0 127 r) eqn:E; [apply between_spec in E; lia|].
  destruct (between 128 2047 r) eqn:E2; [apply between_spec in E2; lia|].
  destruct (between 55296 57343 r) eqn:E3; [apply between_spec in E3; lia|]. cbn [orb].
  destruct (Z.ltb_spec r 0); [lia|]. destruct (Z.ltb_spec 1114111 r); [lia|]. cbn [orb].
  by destruct (Z.leb_spec r 65535); [|lia].
Qed.
Lemma EncodeRune_4 r : 65536 <= r <= 1114111 ->
  EncodeRune r = [240 + r / 262144; 128 + r / 4096 mod 64; 128 + r / 64 mod 64; 128 + r mod 64].
Proof.
  intros H. unfold EncodeRune, surrogate, MaxRune. destruct (between 0 127 r) eqn:E; [apply between_spec in E; lia|].
  destruct (between 128 2047 r) eqn:E2; [apply between_spec in E2; lia|].
  destruct (between 55296 57343 r) eqn:E3; [apply between_spec in E3; lia|]. cbn [orb].
  destruct (Z.ltb_spec r 0); [lia|]. destruct (Z.ltb_spec 1114111 r); [lia|]. cbn [orb].
  by destruct (Z.leb_spec r 65535); [lia|].
Qed.

Lemma EncodeRune_DecodeRune s x n : bytes_ok s -> s <> [] -> DecodeRune s = (x, n) ->
  ~ (x = RuneError /\ n = 1%nat) -> EncodeRune x = take n s.
Proof.
  intros Hok Hs Hd Hne. destruct s as [|b0 s]; [done|]. apply Forall_cons in Hok as [H0 Hok].
  unfold byte_ok in H0. unfold DecodeRune in Hd. destruct (Z.ltb_spec b0 RuneSelf) as [Hlt|Hge].
  { injection Hd as <- <-. unfold EncodeRune, RuneSelf in *.
    destruct (between 0 127 b0) eqn:E; [done|apply between_false in E; lia]. }
  destruct (lead b0) as [[[m lo] hi]|] eqn:El; [|injection Hd as <- <-; tauto].
  apply lead_range in El as [(-> & Hb & -> & ->)|[(-> & Hb & Hlo & Hhi & He0 & Hed)|(-> & Hb & Hlo & Hhi & Hf0 & Hf4)]].
  - destruct s as [|b1 s]; [injection Hd as <- <-; tauto|].
    destruct (between 128 191 b1) eqn:E1; [|injection Hd as <- <-; tauto]. injection Hd as <- <-.
    apply between_spec in E1. rewrite EncodeRune_2 by lia. cbn [take]. repeat f_equal; lia.
  - destruct s as [|b1 [|b2 s]]; try (injection Hd as <- <-; tauto).
    destruct (between lo hi b1 && cont b2) eqn:E1; [|injection Hd as <- <-; tauto]. injection Hd as <- <-.
    apply andb_true_iff in E1 as [E1 E2]. apply between_spec in E1, E2.
    rewrite EncodeRune_3 by lia. cbn [take]. repeat f_equal; lia.
  - destruct s as [|b1 [|b2 [|b3 s]]]; try (injection Hd as <- <-; tauto).
    destruct (between lo hi b1 && cont b2 && cont b3) eqn:E1; [|injection Hd as <- <-; tauto]. injection Hd as <- <-.
    rewrite !andb_true_iff in E1. destruct E1 as [[E1 E2] E3]. apply between_spec in E1, E2, E3.
    rewrite EncodeRune_4 by lia. cbn [take]. repeat f_equal; lia.
Qed.

(** ** Rune boundaries *)

Lemma cont_not_start b : cont b = true -> RuneStart b = false.
Proof.
  unfold cont. rewrite between_spec. intros Hb. unfold RuneStart.
  assert (Hall : forallb (fun i => Z.land (128 + Z.of_nat i) 192 =? 128) (seq 0 64) = true) by (by vm_compute).
  rewrite forallb_forall in Hall. specialize (Hall (Z.to_nat (b - 128))).
  replace (128 + Z.of_nat (Z.to_nat (b - 128))) with b in Hall by lia. rewrite Hall; [done|].
  apply in_seq. lia.
Qed.

Lemma head_start b : 0 <= b < 128 \/ 192 <= b < 256 -> RuneStart b = true.
Proof.
  intros Hb. unfold RuneStart.
  assert (Hall : forallb (fun i => negb (Z.land (Z.of_nat i) 192 =? 128)) (seq 0 128 ++ seq 192 64) = true) by (by vm_compute).
  rewrite forallb_forall in Hall. specialize (Hall (Z.to_nat b)). rewrite Z2Nat.id in Hall by lia. apply Hall.
  rewrite in_app_iff, !in_seq. lia.
Qed.

Definition bad_rune (rn : Z * nat) : bool := (rn.1 =? RuneError) && Nat.eqb rn.2 1.

Lemma Utf8Valid_step s : s <> [] ->
  Utf8Valid s = negb (bad_rune (DecodeRune s)) && Utf8Valid (drop (DecodeRune s).2 s).
Proof. intros Hs. unfold Utf8Valid. by rewrite (runes_step s Hs). Qed.

(** A rune that decodes is a head and continuation bytes, whatever follows. *)
Lemma DecodeRune_shape s : s <> [] -> bad_rune (DecodeRune s) = false ->
  exists b cs t, s = b :: cs ++ t /\ (DecodeRune s).2 = S (length cs) /\ (length cs <= 3)%nat /\
    (b < 128 \/ 192 <= b < 256) /\ Forall (fun c => cont c = true) cs /\
    forall t', DecodeRune (b :: cs ++ t') = DecodeRune s.
Proof.
  intros Hs. destruct s as [|b s]; [done|]. destruct (Z.ltb_spec b RuneSelf) as [Hb|Hb].
  { intros _. assert (Ha : forall t, DecodeRune (b :: t) = (b, 1%nat))
      by (intros t; unfold DecodeRune; by destruct (Z.ltb_spec b RuneSelf); [|lia]).
    exists b, [], s. rewrite Ha. repeat split; [cbn; lia|left; exact Hb|done|intros t'; apply Ha]. }
  assert (Hn : (b <? RuneSelf) = false) by (by apply Z.ltb_ge). unfold DecodeRune. rewrite Hn.
  destruct (lead b) as [[[n lo] hi]|] eqn:El; [|done]. pose proof (lead_range b n lo hi El) as Hr.
  assert (Hcont : forall c, between lo hi c = true -> 128 <= lo -> hi <= 191 -> cont c = true)
    by (intros c; unfold cont; rewrite !between_spec; lia).
  destruct Hr as [(-> & Hb2 & -> & ->)|[(-> & Hb2 & Hlo & Hhi & _)|(-> & Hb2 & Hlo & Hhi & _)]].
  - destruct s as [|b1 s]; [done|]. destruct (between _ _ b1) eqn:E1; [|done]. intros _.
    exists b, [b1], s. repeat split; [cbn; lia|lia|by repeat constructor|].
    intros t'. rewrite Hn, El. cbn [app]. by rewrite E1.
  - destruct s as [|b1 [|b2 s]]; [done..|]. destruct (between _ _ b1) eqn:E1; [|done].
    destruct (cont b2) eqn:E2; [|done]. intros _.
    exists b, [b1; b2], s. repeat split; [cbn; lia|lia|by repeat constructor; [apply Hcont|]|].
    intros t'. rewrite Hn, El. cbn [app]. by rewrite E1, E2.
  - destruct s as [|b1 [|b2 [|b3 s]]]; [done..|]. destruct (between _ _ b1) eqn:E1; [|done].
    destruct (cont b2) eqn:E2; [|done]. destruct (cont b3) eqn:E3; [|done]. intros _.
    exists b, [b1; b2; b3], s. repeat split; [cbn; lia|lia|by repeat constructor; [apply Hcont|..]|].
    intros t'. rewrite Hn, El. cbn [app]. by rewrite E1, E2, E3.
Qed.

(** A valid text cut where a rune starts is valid, and the start is near. *)
Lemma Utf8Valid_cut n : forall s k, (length s <= n)%nat -> Utf8Valid s = true -> (k < length s)%nat ->
  RuneStart (nth k s 0) = true -> Utf8Valid (take k s) = true.
Proof.
  induction n as [|n IH]; intros s k Hn Hv Hk Hst; [lia|]. destruct (decide (k = 0%nat)) as [->|Hk0]; [done|].
  assert (Hs : s <> []) by (by intros ->; cbn in Hk; lia).
  rewrite Utf8Valid_step in Hv by done. apply andb_true_iff in Hv as [Hb Hv]. apply negb_true_iff in Hb.
  destruct (DecodeRune_shape s Hs Hb) as (b & cs & t & -> & Hlen & _ & _ & Hcs & Hsame). rewrite Hlen in Hv.
  destruct (Nat.ltb_spec k (S (length cs))) as [Hin|Hout].
  { exfalso. destruct k as [|k]; [done|]. cbn [nth] in Hst. rewrite app_nth1 in Hst by lia.
    rewrite cont_not_start in Hst; [done|]. rewrite Forall_forall in Hcs. apply Hcs, list_elem_of_In, nth_In. lia. }
  replace (take k (b :: cs ++ t)) with (b :: cs ++ take (k - S (length cs)) t).
  2: { destruct k as [|k]; [done|]. cbn [take]. rewrite take_app, (take_ge cs) by lia. by rewrite Nat.sub_succ. }
  rewrite Utf8Valid_step by done. rewrite !Hsame, Hb, Hlen. cbn [negb andb drop].
  cbn [drop] in Hv. rewrite drop_app_length in Hv |- *. cbn [length] in *. rewrite length_app in Hk, Hn.
  apply IH; [lia|done|lia|]. destruct k as [|k]; [done|]. cbn [nth] in Hst. rewrite app_nth2 in Hst by lia.
  by rewrite Nat.sub_succ.
Qed.

Lemma Utf8Valid_app n : forall a b, (length a <= n)%nat -> Utf8Valid a = true -> Utf8Valid b = true -> Utf8Valid (a ++ b) = true.
Proof.
  induction n as [|n IH]; intros a b Hn Ha Hb; (destruct (decide (a = [])) as [->|Hne]; [done|]);
    [by destruct a; cbn in Hn; [|lia]|].
  rewrite Utf8Valid_step in Ha by done. apply andb_true_iff in Ha as [Hr Ha]. apply negb_true_iff in Hr.
  destruct (DecodeRune_shape a Hne Hr) as (x & cs & t & -> & Hlen & _ & _ & _ & Hsame).
  cbn [app]. rewrite <- app_assoc, Utf8Valid_step by done. rewrite Hsame, Hr, Hlen in *. cbn [negb andb drop] in *.
  rewrite drop_app_length in Ha |- *. apply IH; [cbn in Hn; rewrite length_app in Hn; lia|done..].
Qed.

(** In a valid text a rune starts among any four bytes. *)
Lemma start_near n : forall s j, (length s <= n)%nat -> bytes_ok s -> Utf8Valid s = true -> (j < length s)%nat ->
  exists i, (i <= j)%nat /\ (j <= i + 3)%nat /\ RuneStart (nth i s 0) = true.
Proof.
  induction n as [|n IH]; intros s j Hn Hok Hv Hj; [lia|].
  assert (Hs : s <> []) by (by intros ->; cbn in Hj; lia).
  rewrite Utf8Valid_step in Hv by done. apply andb_true_iff in Hv as [Hb Hv]. apply negb_true_iff in Hb.
  destruct (DecodeRune_shape s Hs Hb) as (b & cs & t & -> & Hlen & Hcs & Hhead & _). rewrite Hlen in Hv.
  cbn [drop] in Hv. rewrite drop_app_length in Hv. apply Forall_cons in Hok as [Hb0 Hok]. apply Forall_app in Hok as [_ Hok].
  cbn [length] in *. rewrite length_app in Hj, Hn.
  destruct (Nat.ltb_spec j (S (length cs))) as [Hin|Hout].
  { exists 0%nat. repeat split; [lia..|]. cbn [nth]. apply head_start. unfold byte_ok in Hb0. lia. }
  destruct (IH t (j - S (length cs))%nat) as (i & Hi1 & Hi2 & Hi3); [lia|done..|lia|].
  exists (S (length cs) + i)%nat. repeat split; [lia..|]. cbn [nth plus]. rewrite app_nth2 by lia.
  by replace (length cs + i - length cs)%nat with i by lia.
Qed.
