(* ===== verification/JsonText.v ===== *)
(** JSON text: what encoding/json of the standard library accepts
    ([json.Valid]) and how it decodes a string; and documents as trees that
    keep their spelling, with the text they render to. *)

From S2P Require Import Prelude GoUtf8.

Definition jsonSpace (b : Z) : bool := (b =? 32) || (b =? 9) || (b =? 13) || (b =? 10).
Definition spaces : bytes -> bytes := drop_while jsonSpace.

Definition quote : Z := 34.
Definition backslash : Z := 92.
Definition comma : Z := 44.
Definition colon : Z := 58.
Definition lbracket : Z := 91.
Definition rbracket : Z := 93.
Definition lbrace : Z := 123.
Definition rbrace : Z := 125.

(** ** json.Valid *)

Definition digit (c : Z) : bool := between 48 57 c.
Definition hex (c : Z) : option Z :=
  if digit c then Some (c - 48)
  else if between 97 102 c then Some (c - 87)
  else if between 65 70 c then Some (c - 55)
  else None.
Definition hex4 (a b c d : Z) : option Z :=
  match hex a, hex b, hex c, hex d with
  | Some a, Some b, Some c, Some d => Some (((a * 16 + b) * 16 + c) * 16 + d)
  | _, _, _, _ => None
  end.

(** The characters an escape may name besides [u]. *)
Definition simple_escape (e : Z) : option Z :=
  if (e =? 34) || (e =? 92) || (e =? 47) then Some e
  else if e =? 98 then Some 8
  else if e =? 102 then Some 12
  else if e =? 110 then Some 10
  else if e =? 114 then Some 13
  else if e =? 116 then Some 9
  else None.

(** The rest after a string whose opening quote was read. *)
Fixpoint json_string (s : bytes) : option bytes :=
  match s with
  | [] => None
  | c :: r =>
      if c =? quote then Some r else
      if c =? backslash then
        match r with
        | [] => None
        | e :: r =>
            if e =? 117 then
              match r with
              | a :: b :: c :: d :: r => if hex4 a b c d then json_string r else None
              | _ => None
              end
            else if simple_escape e then json_string r else None
        end
      else if c <? 32 then None
      else json_string r
  end.

Definition number_exp (s : bytes) : option bytes :=
  match s with
  | e :: r =>
      if (e =? 101) || (e =? 69) then
        let r := match r with c :: r' => if (c =? 43) || (c =? 45) then r' else r | [] => r end in
        match r with
        | d :: r => if digit d then Some (drop_while digit r) else None
        | [] => None
        end
      else Some s
  | [] => Some s
  end.
Definition number_frac (s : bytes) : option bytes :=
  match s with
  | p :: r =>
      if p =? 46 then
        match r with
        | d :: r => if digit d then number_exp (drop_while digit r) else None
        | [] => None
        end
      else number_exp s
  | [] => Some s
  end.
Definition json_number (s : bytes) : option bytes :=
  let s := match s with c :: r => if c =? 45 then r else s | [] => s end in
  match s with
  | c :: r =>
      if c =? 48 then number_frac r
      else if between 49 57 c then number_frac (drop_while digit r)
      else None
  | [] => None
  end.

Fixpoint strip_prefix (p s : bytes) : option bytes :=
  match p, s with
  | [], _ => Some s
  | x :: p, y :: s => if x =? y then strip_prefix p s else None
  | _, _ => None
  end.

Definition json_scalar (s : bytes) : option bytes :=
  match s with
  | c :: _ =>
      if c =? 116 then strip_prefix (str "true") s
      else if c =? 102 then strip_prefix (str "false") s
      else if c =? 110 then strip_prefix (str "null") s
      else json_number s
  | [] => None
  end.

Definition maxNestingDepth : Z := 10000.

(** The rest after a value, an element list behind its bracket, a member list
    behind its brace; [depth] is the nesting still allowed. *)
Fixpoint json_value (fuel : nat) (depth : Z) (s : bytes) : option bytes :=
  match fuel with
  | O => None
  | S fuel =>
      match s with
      | [] => None
      | c :: r =>
          if c =? quote then json_string r
          else if c =? lbracket then
            if depth <=? 0 then None else
            match spaces r with
            | [] => None
            | c :: r' => if c =? rbracket then Some r' else json_elems fuel (depth - 1) (c :: r')
            end
          else if c =? lbrace then
            if depth <=? 0 then None else
            match spaces r with
            | [] => None
            | c :: r' => if c =? rbrace then Some r' else json_members fuel (depth - 1) (c :: r')
            end
          else json_scalar s
      end
  end
with json_elems (fuel : nat) (depth : Z) (s : bytes) : option bytes :=
  match fuel with
  | O => None
  | S fuel =>
      match json_value fuel depth s with
      | None => None
      | Some r =>
          match spaces r with
          | [] => None
          | c :: r =>
              if c =? rbracket then Some r
              else if c =? comma then json_elems fuel depth (spaces r)
              else None
          end
      end
  end
with json_members (fuel : nat) (depth : Z) (s : bytes) : option bytes :=
  match fuel with
  | O => None
  | S fuel =>
      match s with
      | [] => None
      | c :: r =>
          if c =? quote then
            match json_string r with
            | None => None
            | Some r =>
                match spaces r with
                | [] => None
                | c :: r =>
                    if c =? colon then
                      match json_value fuel depth (spaces r) with
                      | None => None
                      | Some r =>
                          match spaces r with
                          | [] => None
                          | c :: r =>
                              if c =? rbrace then Some r
                              else if c =? comma then json_members fuel depth (spaces r)
                              else None
                          end
                      end
                    else None
                end
            end
          else None
      end
  end.

Definition json_Valid (s : bytes) : bool :=
  match json_value (S (length s)) maxNestingDepth (spaces s) with
  | Some r => bool_decide (spaces r = [])
  | None => false
  end.

(** ** Decoding a string *)

(** getu4: the code unit of a [\uXXXX] at the front, and what follows. *)
Definition getu4 (s : bytes) : option (Z * bytes) :=
  match s with
  | b :: u :: a1 :: a2 :: a3 :: a4 :: r =>
      if (b =? backslash) && (u =? 117) then
        match hex4 a1 a2 a3 a4 with Some x => Some (x, r) | None => None end
      else None
  | _ => None
  end.

(** utf16.DecodeRune, where it is a pair. *)
Definition decode_pair (r1 r2 : Z) : option Z :=
  if between 55296 56319 r1 && between 56320 57343 r2
  then Some ((r1 - 55296) * 1024 + (r2 - 56320) + 65536) else None.

Fixpoint unquote_fuel (fuel : nat) (s : bytes) : bytes :=
  match fuel with
  | O => []
  | S fuel =>
      match s with
      | [] => []
      | c :: r =>
          if c =? backslash then
            match getu4 s with
            | Some (u, r) =>
                if surrogate u then
                  match getu4 r with
                  | Some (u2, r2) =>
                      match decode_pair u u2 with
                      | Some x => EncodeRune x ++ unquote_fuel fuel r2
                      | None => EncodeRune RuneError ++ unquote_fuel fuel r
                      end
                  | None => EncodeRune RuneError ++ unquote_fuel fuel r
                  end
                else EncodeRune u ++ unquote_fuel fuel r
            | None =>
                match r with
                | e :: r => default e (simple_escape e) :: unquote_fuel fuel r
                | [] => []
                end
            end
          else if c <? RuneSelf then c :: unquote_fuel fuel r
          else let '(x, n) := DecodeRune s in EncodeRune x ++ unquote_fuel fuel (drop n s)
      end
  end.
Definition unquote (s : bytes) : bytes := unquote_fuel (length s) s.

(** [json.Unmarshal(raw, &s)] of a string token. *)
Definition Unmarshal_string (raw : bytes) : option bytes :=
  match raw with
  | c :: r =>
      if (c =? quote) && bool_decide (json_string r = Some []) then Some (unquote (take (length r - 1) r))
      else None
  | [] => None
  end.

Example unquote_ex :
  Unmarshal_string (quote :: str "a\u0042\ud83d\ude00\n" ++ [quote]) =
    Some ([97; 66] ++ [240; 159; 152; 128] ++ [10]).
Proof. reflexivity. Qed.
Example unquote_lone : Unmarshal_string (quote :: str "\ud83dx" ++ [255; quote]) =
  Some ([239; 191; 189; 120; 239; 191; 189]).
Proof. reflexivity. Qed.

(** ** Documents with their spelling *)

(** Every place JSON allows white space keeps what is there. A string and a key
    are the bytes between their quotes. *)
Inductive json :=
  | JStr (b : bytes)
  | JScalar (b : bytes)
  | JArr (w : bytes) (es : elems)
  | JObj (w : bytes) (ms : members)
with elems :=
  | ENil
  | ECons (w1 : bytes) (v : json) (w2 : bytes) (es : elems)
with members :=
  | MNil
  | MCons (w1 k w2 w3 : bytes) (v : json) (w4 : bytes) (ms : members).

Scheme json_mut := Induction for json Sort Prop
  with elems_mut := Induction for elems Sort Prop
  with members_mut := Induction for members Sort Prop.
Combined Scheme json_ind3 from json_mut, elems_mut, members_mut.

(** [w] is the space of an empty array or object; elements carry their own. *)
Fixpoint render (v : json) : bytes :=
  match v with
  | JStr b => quote :: b ++ [quote]
  | JScalar b => b
  | JArr w es => lbracket :: w ++ render_elems es ++ [rbracket]
  | JObj w ms => lbrace :: w ++ render_members ms ++ [rbrace]
  end
with render_elems (es : elems) : bytes :=
  match es with
  | ENil => []
  | ECons w1 v w2 ENil => w1 ++ render v ++ w2
  | ECons w1 v w2 es => w1 ++ render v ++ w2 ++ comma :: render_elems es
  end
with render_members (ms : members) : bytes :=
  match ms with
  | MNil => []
  | MCons w1 k w2 w3 v w4 MNil =>
      w1 ++ (quote :: k ++ [quote]) ++ w2 ++ colon :: w3 ++ render v ++ w4
  | MCons w1 k w2 w3 v w4 ms =>
      w1 ++ (quote :: k ++ [quote]) ++ w2 ++ colon :: w3 ++ render v ++ w4 ++ comma :: render_members ms
  end.

Definition ws (w : bytes) : bool := forallb jsonSpace w.
Definition string_body (b : bytes) : bool :=
  bool_decide (json_string (b ++ [quote]) = Some []) && forallb (between 0 255) b.
Definition scalar_text (b : bytes) : bool := bool_decide (json_scalar b = Some []).

(** Valid JSON nested at most [depth] deep. *)
Fixpoint wf (depth : Z) (v : json) : bool :=
  match v with
  | JStr b => string_body b
  | JScalar b => scalar_text b
  | JArr w es => (0 <? depth) && ws w && wf_elems (depth - 1) es
  | JObj w ms => (0 <? depth) && ws w && wf_members (depth - 1) ms
  end
with wf_elems (depth : Z) (es : elems) : bool :=
  match es with
  | ENil => true
  | ECons w1 v w2 es => ws w1 && wf depth v && ws w2 && wf_elems depth es
  end
with wf_members (depth : Z) (ms : members) : bool :=
  match ms with
  | MNil => true
  | MCons w1 k w2 w3 v w4 ms =>
      ws w1 && string_body k && ws w2 && ws w3 && wf depth v && ws w4 && wf_members depth ms
  end.

(** ** White space and delimiters *)

Lemma spaces_app w s : ws w = true -> spaces (w ++ s) = spaces s.
Proof.
  induction w as [|c w IH]; cbn; [done|]. rewrite andb_true_iff. intros [-> Hw]. by apply IH.
Qed.
Lemma spaces_cons c s : jsonSpace c = false -> spaces (c :: s) = c :: s.
Proof. cbn. by intros ->. Qed.
Lemma spaces_length s : (length (spaces s) <= length s)%nat.
Proof.
  destruct (drop_while_suffix jsonSpace s) as (p & Hp & _). unfold spaces.
  rewrite Hp at 2. rewrite length_app. lia.
Qed.
Lemma spaces_idem s : spaces (spaces s) = spaces s.
Proof. apply drop_while_id, drop_while_stops. Qed.

(** What may follow a scalar: nothing, white space, or the end of its place. *)
Definition closing (c : Z) : bool := (c =? comma) || (c =? rbracket) || (c =? rbrace).
Definition delim (t : bytes) : Prop :=
  match t with [] => True | c :: _ => jsonSpace c || closing c = true end.

(** The bytes scalars are made of: none is white space, a quote or structural. *)
Definition plain (c : Z) : bool :=
  digit c || between 97 122 c || between 65 90 c || (c =? 43) || (c =? 45) || (c =? 46).

Lemma delim_not_plain c t : delim (c :: t) -> plain c = false.
Proof.
  unfold delim, closing, jsonSpace, plain, digit, comma, rbracket, rbrace. intros H.
  destruct (plain c) eqn:E; unfold plain, digit in E; rewrite ?orb_true_iff, ?Z.eqb_eq in H.
  - rewrite !orb_true_iff, !between_spec, !Z.eqb_eq in E. lia.
  - exact E.
Qed.

(** The byte tests the scanners make, on a plain byte. *)
Lemma plain_tests c : plain c = true ->
  jsonSpace c = false /\ closing c = false /\ (c =? quote) = false /\ (c =? lbracket) = false /\
  (c =? lbrace) = false /\ (c =? backslash) = false /\ (c =? colon) = false.
Proof.
  unfold plain, digit. rewrite !orb_true_iff, !between_spec, !Z.eqb_eq. intros H.
  unfold jsonSpace, closing, quote, lbracket, lbrace, backslash, comma, rbracket, rbrace, colon.
  split_and!; rewrite ?orb_false_iff, ?Z.eqb_neq; lia.
Qed.

Lemma drop_while_app {A} (f : A -> bool) p t : stops f t -> drop_while f (p ++ t) = drop_while f p ++ t.
Proof.
  intros Ht. induction p as [|x p IH]; cbn; [by apply drop_while_id|]. by destruct (f x).
Qed.

Lemma digit_stops t : delim t -> stops digit t.
Proof.
  destruct t as [|c t]; [done|]. intros Hd. apply delim_not_plain in Hd. cbn.
  unfold plain in Hd. by destruct (digit c).
Qed.

Lemma digits_plain s : exists p, s = p ++ drop_while digit s /\ Forall (fun c => plain c = true) p /\
  forall t, drop_while digit (p ++ t) = drop_while digit t.
Proof.
  destruct (drop_while_suffix digit s) as (p & Hp & Hd). exists p. split; [done|]. split.
  - eapply Forall_impl; [exact Hd|]. cbn. intros c Hc. unfold plain. by rewrite Hc.
  - intros t. clear Hp. induction Hd as [|c q Hc _ IH]; [done|]. cbn. by rewrite Hc.
Qed.

(** ** Scalars *)

(** A scanner of plain bytes that stops at a delimiter: what it reads is what
    it would read alone. *)
Definition scans (f : bytes -> option bytes) : Prop :=
  (forall s r, f s = Some r -> exists p, s = p ++ r /\ Forall (fun c => plain c = true) p /\ f p = Some []) /\
  (forall s r t, f s = Some r -> delim t -> f (s ++ t) = Some (r ++ t)).

Lemma scan_digits s (f : bytes -> option bytes) : scans f ->
  forall r, f (drop_while digit s) = Some r ->
  (exists p, s = p ++ r /\ Forall (fun c => plain c = true) p /\ f (drop_while digit p) = Some []) /\
  (forall t, delim t -> f (drop_while digit (s ++ t)) = Some (r ++ t)).
Proof.
  intros [H1 H2] r Hr. split.
  - destruct (H1 _ _ Hr) as (p & Hp & Fp & Hf). destruct (digits_plain s) as (q & Hq & Fq & Dq).
    exists (q ++ p). rewrite <- app_assoc, <- Hp. split; [done|]. split; [by apply Forall_app|].
    rewrite Dq. replace (drop_while digit p) with p; [done|]. symmetry. apply drop_while_id.
    pose proof (drop_while_stops digit s) as Hs. rewrite Hp in Hs. by destruct p.
  - intros t Ht. rewrite drop_while_app by (by apply digit_stops). by apply H2.
Qed.

Lemma scans_rest : scans Some.
Proof. split; [|by intros ? ? ? [= ->]]. intros s r [= ->]. by exists []. Qed.

Ltac plain_byte :=
  match goal with
  | H : (_ || _) = true |- plain ?c = true => unfold plain, digit; rewrite ?orb_true_iff, ?Z.eqb_eq in *; tauto
  | H : digit ?c = true |- plain ?c = true => unfold plain; by rewrite H
  | H : (?c =? _) = true |- plain ?c = true => apply Z.eqb_eq in H as ->; reflexivity
  end.

(** One byte in front of what a scanner reads. *)
Ltac read_behind c :=
  let p := fresh "p" in
  intros (p & -> & ? & ?); exists (c :: p); split; [done|]; split; [constructor; [|done]; try plain_byte|cbn].

(** One required digit, more digits, then [f]. *)
Lemma scans_digits (f : bytes -> option bytes) : scans f ->
  scans (fun s => match s with d :: r => if digit d then f (drop_while digit r) else None | [] => None end).
Proof.
  intros Hf. split.
  - intros [|d s] r; [done|]. destruct (digit d) eqn:Ed; [|done]. intros Hr.
    destruct (scan_digits s f Hf r Hr) as [H _]. revert H. read_behind d. by rewrite Ed.
  - intros [|d s] r t; [done|]. cbn. destruct (digit d); [|done]. intros Hr Ht.
    by destruct (scan_digits s f Hf r Hr) as [_ H]; apply H.
Qed.

(** An optional part behind a byte of a plain class. *)
Lemma scans_optional (mark : Z -> bool) (f g : bytes -> option bytes) :
  (forall c, mark c = true -> plain c = true) -> scans f -> scans g -> (forall t, delim t -> g t = Some t) ->
  scans (fun s => match s with c :: r => if mark c then f r else g s | [] => Some s end).
Proof.
  intros Hm [F1 F2] [G1 G2] Hg. split.
  - intros [|c s] r; [intros [= <-]; by exists []|]. destruct (mark c) eqn:Ec.
    + intros Hr. apply F1 in Hr. revert Hr. read_behind c; [by apply Hm|]. by rewrite Ec.
    + intros Hr. destruct (G1 _ _ Hr) as (p & Hp & Fp & Gp). exists p. split; [done|]. split; [done|].
      destruct p as [|c' p]; [done|]. injection Hp as <- _. by rewrite Ec.
  - intros [|c s] r t.
    + intros [= <-] Ht. cbn. destruct t as [|c t]; [done|].
      destruct (mark c) eqn:Ec; [|by apply Hg]. apply Hm in Ec. apply delim_not_plain in Ht. congruence.
    + cbn. destruct (mark c); [apply F2|]. apply (G2 (c :: s)).
Qed.

Lemma scans_sign (f : bytes -> option bytes) : scans f ->
  scans (fun r => let r := match r with c :: r' => if (c =? 43) || (c =? 45) then r' else r | [] => r end in f r).
Proof.
  intros [F1 F2]. split.
  - intros [|c s] r; cbn.
    { intros Hr. destruct (F1 _ _ Hr) as (p & Hp & Fp). exists p. by destruct p. }
    destruct (_ || _) eqn:E; intros Hr; apply F1 in Hr.
    + revert Hr. read_behind c. by rewrite E.
    + destruct Hr as (p & Hp & Fp & Hf). exists p. split; [done|]. split; [done|].
      destruct p as [|c' p]; [done|]. injection Hp as <- _. by rewrite E.
  - intros [|c s] r t; cbn.
    + intros Hr Ht. pose proof (F2 _ _ _ Hr Ht) as H2. destruct t as [|c t]; [done|]. cbn in *.
      apply (delim_not_plain c t) in Ht. unfold plain in Ht. rewrite !orb_false_iff in Ht.
      destruct Ht as [[[_ ->] ->] _]. done.
    + destruct (_ || _); [apply F2|]. apply (F2 (c :: s)).
Qed.

Lemma scans_exp : scans number_exp.
Proof.
  apply (scans_optional (fun e => (e =? 101) || (e =? 69)) _ Some).
  - intros c Hc. apply orb_true_iff in Hc as [Hc|Hc]; plain_byte.
  - apply (scans_sign (fun r => match r with d :: r => if digit d then Some (drop_while digit r) else None | [] => None end)).
    apply scans_digits, scans_rest.
  - apply scans_rest.
  - done.
Qed.

Lemma exp_delim t : delim t -> number_exp t = Some t.
Proof. destruct scans_exp as [_ H]. intros Ht. by apply (H [] []). Qed.

Lemma scans_frac : scans number_frac.
Proof.
  apply (scans_optional (fun p => p =? 46) _ number_exp).
  - intros c Hc. plain_byte.
  - apply scans_digits, scans_exp.
  - apply scans_exp.
  - apply exp_delim.
Qed.

Lemma scans_int :
  scans (fun s => match s with
    | c :: r => if c =? 48 then number_frac r
                else if between 49 57 c then number_frac (drop_while digit r) else None
    | [] => None end).
Proof.
  destruct scans_frac as [F1 F2]. split.
  - intros [|c s] r; [done|]. destruct (c =? 48) eqn:E0.
    { intros Hr. apply F1 in Hr. revert Hr. read_behind c. by rewrite E0. }
    destruct (between 49 57 c) eqn:E1; [|done]. intros Hr.
    destruct (scan_digits s number_frac scans_frac r Hr) as [H _]. revert H. read_behind c; [|by rewrite E0, E1].
    unfold plain, digit. apply between_spec in E1.
    replace (between 48 57 c) with true by (symmetry; apply between_spec; lia). done.
  - intros [|c s] r t; [done|]. cbn. destruct (c =? 48); [apply F2|]. destruct (between 49 57 c); [|done].
    intros Hr Ht. by destruct (scan_digits s number_frac scans_frac r Hr) as [_ H]; apply H.
Qed.

Lemma scans_number : scans json_number.
Proof.
  destruct scans_int as [F1 F2]. split.
  - intros s r Hr. unfold json_number in *. cbn zeta in *. destruct s as [|c s]; [done|].
    destruct (c =? 45) eqn:E; [apply F1 in Hr|apply (F1 (c :: s)) in Hr].
    + revert Hr. read_behind c. by rewrite E.
    + destruct Hr as (p & Hp & Fp & Hf). exists p. split; [done|]. split; [done|].
      destruct p as [|c' p]; [done|]. injection Hp as <- _. by rewrite E.
  - intros s r t Hr Ht. unfold json_number in *. cbn zeta in *. destruct s as [|c s]; [done|]. cbn [app].
    destruct (c =? 45); [by apply F2|by apply (F2 (c :: s))].
Qed.

Lemma strip_prefix_spec p s r : strip_prefix p s = Some r -> s = p ++ r.
Proof.
  revert s. induction p as [|x p IH]; intros s; cbn; [by intros [= ->]|].
  destruct s as [|y s]; [done|]. destruct (Z.eqb_spec x y) as [->|]; [|done]. intros Hs. by rewrite (IH s Hs).
Qed.
Lemma strip_prefix_app p r : strip_prefix p (p ++ r) = Some r.
Proof. induction p as [|x p IH]; [done|]. cbn. by rewrite Z.eqb_refl. Qed.

Lemma scans_literal p : Forall (fun c => plain c = true) p -> scans (strip_prefix p).
Proof.
  intros Hp. split.
  - intros s r Hs. exists p. apply strip_prefix_spec in Hs. split; [done|]. split; [done|].
    rewrite <- (app_nil_r p) at 2. apply strip_prefix_app.
  - intros s r t Hs _. apply strip_prefix_spec in Hs as ->. rewrite <- app_assoc. apply strip_prefix_app.
Qed.

Lemma scans_scalar : scans json_scalar.
Proof.
  assert (Ht : scans (strip_prefix (str "true"))) by (apply scans_literal; by repeat constructor).
  assert (Hf : scans (strip_prefix (str "false"))) by (apply scans_literal; by repeat constructor).
  assert (Hn : scans (strip_prefix (str "null"))) by (apply scans_literal; by repeat constructor).
  pose proof scans_number as Hnum. split.
  - assert (Hpre : forall c s r (f : bytes -> option bytes), scans f -> f [] = None -> f (c :: s) = Some r ->
      exists p, c :: s = p ++ r /\ Forall (fun c => plain c = true) p /\ f p = Some [] /\ exists p', p = c :: p').
    { intros c s r f [H1 _] H0 Hr. destruct (H1 _ _ Hr) as (p & Hp & Fp & Hfp). exists p. split; [done|]. split; [done|]. split; [done|].
      destruct p as [|c' p]; [congruence|]. injection Hp as <- _. by exists p. }
    intros [|c s] r; [done|]. unfold json_scalar.
    destruct (c =? 116) eqn:E1; [|destruct (c =? 102) eqn:E2; [|destruct (c =? 110) eqn:E3]]; intros Hr; apply Hpre in Hr; try done;
      destruct Hr as (p & Hp & Fp & Hfp & p' & ->); exists (c :: p'); rewrite E1, ?E2, ?E3; done.
  - intros [|c s] r t; [done|]. unfold json_scalar. cbn [app].
    destruct (c =? 116); [apply (proj2 Ht (c :: s))|]. destruct (c =? 102); [apply (proj2 Hf (c :: s))|].
    destruct (c =? 110); [apply (proj2 Hn (c :: s))|]. apply (proj2 Hnum (c :: s)).
Qed.

(** A scalar: not empty, all plain, and read up to the delimiter. *)
Lemma scalar_spec b : scalar_text b = true ->
  b <> [] /\ Forall (fun c => plain c = true) b /\ (forall t, delim t -> json_scalar (b ++ t) = Some t).
Proof.
  unfold scalar_text. rewrite bool_decide_eq_true. intros Hb. destruct scans_scalar as [H1 H2].
  split; [by intros ->|]. split.
  - destruct (H1 _ _ Hb) as (p & Hp & Fp & _). rewrite app_nil_r in Hp. by subst.
  - intros t Ht. by apply (H2 _ _ _ Hb).
Qed.

(** ** Strings *)

Lemma json_string_app n : forall s r t, (length s <= n)%nat ->
  json_string s = Some r -> json_string (s ++ t) = Some (r ++ t).
Proof.
  induction n as [|n IH]; intros s r t Hn; [by destruct s; cbn in *; [|lia]|].
  destruct s as [|c s]; [done|]. cbn. cbn in Hn. destruct (c =? quote); [by intros [= ->]|].
  destruct (c =? backslash).
  - destruct s as [|e s]; [done|]. cbn. cbn in Hn. destruct (e =? 117).
    + destruct s as [|h1 [|h2 [|h3 [|h4 s]]]]; cbn in *; try done.
      destruct (hex4 h1 h2 h3 h4); [|done]. apply IH. lia.
    + destruct (simple_escape e); [|done]. apply IH. lia.
  - destruct (c <? 32); [done|]. apply IH. lia.
Qed.

(** A string body is read to its closing quote, whatever follows. *)
Lemma string_body_spec b t : string_body b = true -> json_string (b ++ quote :: t) = Some t.
Proof.
  unfold string_body. rewrite andb_true_iff, bool_decide_eq_true. intros [Hb _].
  replace (b ++ quote :: t) with ((b ++ [quote]) ++ t) by (by rewrite <- app_assoc). by apply (json_string_app _ _ [] t (reflexivity _)).
Qed.

Lemma string_body_ok b : string_body b = true -> bytes_ok b.
Proof.
  unfold string_body. rewrite andb_true_iff, forallb_forall. intros [_ Hb]. apply Forall_forall.
  intros c Hc. apply list_elem_of_In, Hb, between_spec in Hc. unfold byte_ok. lia.
Qed.

(** ** A rendered document is valid *)

Lemma render_head v depth : wf depth v = true ->
  exists c s, render v = c :: s /\ jsonSpace c = false /\ closing c = false.
Proof.
  destruct v as [b|b|w es|w ms]; cbn; intros Hw; [by eexists _, _| |by eexists _, _|by eexists _, _].
  apply scalar_spec in Hw as (Hne & Hp & _). destruct b as [|c b]; [done|]. apply Forall_cons in Hp as [Hc _].
  apply plain_tests in Hc as (? & ? & _). by exists c, b.
Qed.

Lemma spaces_render w v depth t : ws w = true -> wf depth v = true ->
  spaces (w ++ render v ++ t) = render v ++ t.
Proof.
  intros Hw Hv. rewrite spaces_app by done. destruct (render_head v depth Hv) as (c & s & -> & Hc & _).
  by apply spaces_cons.
Qed.

Lemma spaces_closing c t : closing c = true \/ c = colon \/ c = quote -> spaces (c :: t) = c :: t.
Proof.
  intros H. apply spaces_cons. unfold closing, jsonSpace, comma, rbracket, rbrace, colon, quote in *.
  rewrite !orb_true_iff, !Z.eqb_eq in H. rewrite !orb_false_iff, !Z.eqb_neq. lia.
Qed.

Lemma delim_ws w c t : ws w = true -> closing c = true -> delim (w ++ c :: t).
Proof.
  destruct w as [|x w]; cbn; intros Hw Hc; [by rewrite Hc, orb_true_r|].
  apply andb_true_iff in Hw as [-> _]. done.
Qed.

(** The element list and member list texts, one item at a time. *)
Lemma render_elems_cons w1 v w2 es t :
  render_elems (ECons w1 v w2 es) ++ rbracket :: t =
    w1 ++ render v ++ w2 ++ match es with
                            | ENil => rbracket :: t
                            | _ => comma :: render_elems es ++ rbracket :: t
                            end.
Proof.
  change (render_elems (ECons w1 v w2 es)) with
    (match es with ENil => w1 ++ render v ++ w2 | _ => w1 ++ render v ++ w2 ++ comma :: render_elems es end).
  destruct es; by rewrite <- !app_assoc.
Qed.
Lemma render_members_cons w1 k w2 w3 v w4 ms t :
  render_members (MCons w1 k w2 w3 v w4 ms) ++ rbrace :: t =
    w1 ++ quote :: k ++ quote :: w2 ++ colon :: w3 ++ render v ++ w4 ++
      match ms with
      | MNil => rbrace :: t
      | _ => comma :: render_members ms ++ rbrace :: t
      end.
Proof.
  change (render_members (MCons w1 k w2 w3 v w4 ms)) with
    (match ms with
     | MNil => w1 ++ (quote :: k ++ [quote]) ++ w2 ++ colon :: w3 ++ render v ++ w4
     | _ => w1 ++ (quote :: k ++ [quote]) ++ w2 ++ colon :: w3 ++ render v ++ w4 ++ comma :: render_members ms
     end).
  destruct ms; cbn [app]; repeat (rewrite <- ?app_assoc; cbn [app]); done.
Qed.

(** Behind an element comes a comma or the bracket; and its text is shorter. *)
Lemma elems_tail w2 es t : ws w2 = true ->
  delim (w2 ++ match es with ENil => rbracket :: t | _ => comma :: render_elems es ++ rbracket :: t end).
Proof. intros Hw. destruct es; by apply delim_ws. Qed.
Lemma members_tail w4 ms t : ws w4 = true ->
  delim (w4 ++ match ms with MNil => rbrace :: t | _ => comma :: render_members ms ++ rbrace :: t end).
Proof. intros Hw. destruct ms; by apply delim_ws. Qed.

Lemma elems_length w1 v w2 es :
  (length (render v) <= length (render_elems (ECons w1 v w2 es)))%nat /\
  (es <> ENil -> S (length (render_elems es)) + length (render v) <= length (render_elems (ECons w1 v w2 es)))%nat.
Proof.
  change (render_elems (ECons w1 v w2 es)) with
    (match es with ENil => w1 ++ render v ++ w2 | _ => w1 ++ render v ++ w2 ++ comma :: render_elems es end).
  destruct es; rewrite ?length_app; cbn [length]; (split; [lia|]); intros; [done|lia].
Qed.
Lemma members_length w1 k w2 w3 v w4 ms :
  (S (length (render v)) <= length (render_members (MCons w1 k w2 w3 v w4 ms)))%nat /\
  (ms <> MNil -> S (length (render_members ms)) + length (render v) <=
     length (render_members (MCons w1 k w2 w3 v w4 ms)))%nat.
Proof.
  change (render_members (MCons w1 k w2 w3 v w4 ms)) with
    (match ms with
     | MNil => w1 ++ (quote :: k ++ [quote]) ++ w2 ++ colon :: w3 ++ render v ++ w4
     | _ => w1 ++ (quote :: k ++ [quote]) ++ w2 ++ colon :: w3 ++ render v ++ w4 ++ comma :: render_members ms
     end).
  destruct ms; repeat (rewrite ?length_app; cbn [length]); (split; [lia|]); intros; [done|lia].
Qed.

Lemma value_nonempty v depth : wf depth v = true -> (1 <= length (render v))%nat.
Proof. intros Hv. destruct (render_head v depth Hv) as (c & s & -> & _). cbn. lia. Qed.

Lemma scalar_head b t : scalar_text b = true ->
  match b ++ t with
  | c :: _ => (c =? quote) = false /\ (c =? lbracket) = false /\ (c =? lbrace) = false
  | [] => False
  end.
Proof.
  intros Hb. destruct (scalar_spec b Hb) as (Hne & Hp & _). destruct b as [|c b]; [done|].
  apply Forall_cons in Hp as [Hc _]. cbn. apply plain_tests in Hc. tauto.
Qed.

(** The head of an element list, behind white space. *)
Lemma elems_head w1 v w2 es depth t : wf_elems depth (ECons w1 v w2 es) = true ->
  exists c r, spaces (render_elems (ECons w1 v w2 es) ++ rbracket :: t) = c :: r /\ (c =? rbracket) = false.
Proof.
  cbn [wf_elems]. rewrite !andb_true_iff. intros [[[Hw1 Hv] Hw2] _].
  rewrite render_elems_cons, (spaces_render _ _ depth) by done.
  destruct (render_head v depth Hv) as (c & s & -> & _ & Hc). exists c. eexists. split; [done|].
  unfold closing in Hc. rewrite !orb_false_iff in Hc. tauto.
Qed.

Theorem json_value_render :
  (forall v depth fuel t, wf depth v = true -> delim t -> (length (render v) < fuel)%nat ->
     json_value fuel depth (render v ++ t) = Some t) /\
  (forall es depth fuel t, wf_elems depth es = true -> es <> ENil -> (S (length (render_elems es)) < fuel)%nat ->
     json_elems fuel depth (spaces (render_elems es ++ rbracket :: t)) = Some t) /\
  (forall ms depth fuel t, wf_members depth ms = true -> ms <> MNil -> (S (length (render_members ms)) < fuel)%nat ->
     json_members fuel depth (spaces (render_members ms ++ rbrace :: t)) = Some t).
Proof.
  apply json_ind3.
  - intros b depth fuel t Hw _ Hf. destruct fuel as [|fuel]; [lia|]. cbn [render app json_value].
    rewrite <- app_assoc. by apply string_body_spec.
  - intros b depth fuel t Hw Hd Hf. destruct fuel as [|fuel]; [lia|]. cbn [render json_value].
    destruct (scalar_spec b Hw) as (_ & _ & Hs). pose proof (scalar_head b t Hw) as Hh.
    specialize (Hs t Hd). destruct (b ++ t) as [|c r]; [done|]. by destruct Hh as (-> & -> & ->).
  - intros w es IH depth fuel t Hw _ Hf. destruct fuel as [|fuel]; [lia|].
    cbn [wf] in Hw. rewrite !andb_true_iff, Z.ltb_lt in Hw. destruct Hw as [[Hd Hws] Hes].
    cbn [render] in *. cbn [app json_value length] in *. cbn [Z.eqb Pos.eqb lbracket quote].
    destruct (Z.leb_spec depth 0); [lia|]. rewrite <- !app_assoc, spaces_app by done. cbn [app].
    rewrite !length_app in Hf. cbn [length] in Hf.
    destruct es as [|w1 v w2 es]; [by cbn [render_elems app]; rewrite spaces_closing by (by left)|].
    destruct (elems_head w1 v w2 es (depth - 1) t Hes) as (c & r & Hs & Hc).
    rewrite Hs, Hc, <- Hs. apply IH; [done|done|lia].
  - intros w ms IH depth fuel t Hw _ Hf. destruct fuel as [|fuel]; [lia|].
    cbn [wf] in Hw. rewrite !andb_true_iff, Z.ltb_lt in Hw. destruct Hw as [[Hd Hws] Hms].
    cbn [render] in *. cbn [app json_value length] in *. cbn [Z.eqb Pos.eqb lbracket lbrace quote].
    destruct (Z.leb_spec depth 0); [lia|]. rewrite <- !app_assoc, spaces_app by done. cbn [app].
    rewrite !length_app in Hf. cbn [length] in Hf.
    destruct ms as [|w1 k w2 w3 v w4 ms]; [by cbn [render_members app]; rewrite spaces_closing by (by left)|].
    assert (Hs : exists r, spaces (render_members (MCons w1 k w2 w3 v w4 ms) ++ rbrace :: t) = quote :: r).
    { cbn [wf_members] in Hms. rewrite !andb_true_iff in Hms.
      rewrite render_members_cons, spaces_app, spaces_closing by tauto. eauto. }
    destruct Hs as [r Hs]. rewrite Hs. change (quote =? rbrace) with false. cbn iota. rewrite <- Hs.
    apply IH; [done|done|lia].
  - done.
  - intros w1 v IHv w2 es IHes depth fuel t Hw _ Hf. destruct fuel as [|fuel]; [lia|].
    cbn [wf_elems] in Hw. rewrite !andb_true_iff in Hw. destruct Hw as [[[Hw1 Hv] Hw2] Hes].
    destruct (elems_length w1 v w2 es) as [Hl1 Hl2].
    rewrite render_elems_cons, (spaces_render _ _ depth) by done. cbn [json_elems].
    rewrite IHv; [|done|by apply elems_tail|lia]. rewrite spaces_app by done.
    destruct es as [|w1' v' w2' es].
    + rewrite spaces_closing by (by left). done.
    + rewrite spaces_closing by (by left). cbn [Z.eqb Pos.eqb comma rbracket].
      apply IHes; [done|done|]. specialize (Hl2 ltac:(done)). pose proof (value_nonempty v depth Hv). lia.
  - done.
  - intros w1 k w2 w3 v IHv w4 ms IHms depth fuel t Hw _ Hf. destruct fuel as [|fuel]; [lia|].
    cbn [wf_members] in Hw. rewrite !andb_true_iff in Hw. destruct Hw as [[[[[[Hw1 Hk] Hw2] Hw3] Hv] Hw4] Hms].
    destruct (members_length w1 k w2 w3 v w4 ms) as [Hl1 Hl2].
    rewrite render_members_cons, spaces_app, spaces_closing by (done || tauto). cbn [json_members].
    cbn [Z.eqb Pos.eqb quote]. rewrite string_body_spec by done. rewrite spaces_app, spaces_closing by (done || tauto).
    cbn [Z.eqb Pos.eqb colon]. rewrite (spaces_render _ _ depth) by done.
    rewrite IHv; [|done|by apply members_tail|lia]. rewrite spaces_app by done.
    destruct ms as [|w1' k' w2' w3' v' w4' ms].
    + rewrite spaces_closing by (by left). done.
    + rewrite spaces_closing by (by left). cbn [Z.eqb Pos.eqb comma rbrace].
      apply IHms; [done|done|]. specialize (Hl2 ltac:(done)). pose proof (value_nonempty v depth Hv). lia.
Qed.

(** A document: one value with space around it. *)
Definition document (w1 : bytes) (v : json) (w2 : bytes) : bytes := w1 ++ render v ++ w2.

Lemma json_Valid_document w1 v w2 :
  ws w1 = true -> ws w2 = true -> wf maxNestingDepth v = true -> json_Valid (document w1 v w2) = true.
Proof.
  intros Hw1 Hw2 Hv. unfold json_Valid, document. rewrite (spaces_render _ _ maxNestingDepth) by done.
  destruct json_value_render as [H _]. rewrite H; [|done| |].
  - apply bool_decide_eq_true. rewrite <- (app_nil_r w2), spaces_app by done. done.
  - destruct w2 as [|c w2]; [done|]. cbn in *. apply andb_true_iff in Hw2 as [-> _]. done.
  - rewrite !length_app. lia.
Qed.

(** ** A valid text is a document *)

Lemma json_string_parse n : forall s r, (length s <= n)%nat -> json_string s = Some r ->
  exists b, s = b ++ quote :: r /\ json_string (b ++ [quote]) = Some [].
Proof.
  induction n as [|n IH]; intros s r Hn; [by destruct s; cbn in *; [|lia]|].
  destruct s as [|c s]; [done|]. cbn [json_string length] in *. destruct (c =? quote) eqn:Eq.
  { apply Z.eqb_eq in Eq as ->. intros [= ->]. by exists []. }
  destruct (c =? backslash) eqn:Eb.
  - destruct s as [|e s]; [done|]. cbn [length] in Hn. destruct (e =? 117) eqn:Eu.
    + destruct s as [|h1 [|h2 [|h3 [|h4 s]]]]; cbn [length] in *; try done.
      destruct (hex4 h1 h2 h3 h4) eqn:Eh; [|done]. intros Hs. destruct (IH s r) as (b & -> & Hb); [lia|done|].
      exists (c :: e :: h1 :: h2 :: h3 :: h4 :: b). split; [done|]. cbn [app json_string]. by rewrite Eq, Eb, Eu, Eh.
    + destruct (simple_escape e) eqn:Ee; [|done]. intros Hs. destruct (IH s r) as (b & -> & Hb); [lia|done|].
      exists (c :: e :: b). split; [done|]. cbn [app json_string]. by rewrite Eq, Eb, Eu, Ee.
  - destruct (c <? 32) eqn:Ec; [done|]. intros Hs. destruct (IH s r) as (b & -> & Hb); [lia|done|].
    exists (c :: b). split; [done|]. cbn [app json_string]. by rewrite Eq, Eb, Ec.
Qed.

Lemma string_parse s r : bytes_ok s -> json_string s = Some r -> exists b, s = b ++ quote :: r /\ string_body b = true.
Proof.
  intros Hok Hs. destruct (json_string_parse _ s r (reflexivity _) Hs) as (b & -> & Hb). exists b. split; [done|].
  unfold string_body. rewrite andb_true_iff, bool_decide_eq_true, forallb_forall. split; [done|].
  intros c Hc. apply Forall_app in Hok as [Hok _]. apply list_elem_of_In in Hc. eapply Forall_forall in Hok; [|exact Hc].
  apply between_spec. unfold byte_ok in Hok. lia.
Qed.

Lemma scalar_parse s r : json_scalar s = Some r -> exists b, s = b ++ r /\ scalar_text b = true.
Proof.
  intros Hs. destruct scans_scalar as [H _]. destruct (H _ _ Hs) as (p & -> & _ & Hp). exists p. split; [done|].
  by apply bool_decide_eq_true.
Qed.

Lemma spaces_split s : exists w, ws w = true /\ s = w ++ spaces s.
Proof.
  destruct (drop_while_suffix jsonSpace s) as (w & Hw & Hf). exists w. split; [|done].
  unfold ws. apply forallb_forall. intros c Hc. apply list_elem_of_In in Hc. by eapply Forall_forall in Hf.
Qed.

(** White space in front of the first element, or the first key. *)
Definition pad_elems (w : bytes) (es : elems) : elems :=
  match es with ECons w1 v w2 es => ECons (w ++ w1) v w2 es | ENil => ENil end.
Definition pad_members (w : bytes) (ms : members) : members :=
  match ms with MCons w1 k w2 w3 v w4 ms => MCons (w ++ w1) k w2 w3 v w4 ms | MNil => MNil end.

Lemma pad_elems_spec w es depth : es <> ENil -> ws w = true -> wf_elems depth es = true ->
  pad_elems w es <> ENil /\ wf_elems depth (pad_elems w es) = true /\ render_elems (pad_elems w es) = w ++ render_elems es.
Proof.
  destruct es as [|w1 v w2 es]; [done|]. intros _ Hw. cbn [wf_elems pad_elems]. unfold ws in *. rewrite forallb_app, Hw.
  intros Hes. split; [done|]. split; [done|]. destruct es; cbn [render_elems]; by rewrite <- app_assoc.
Qed.
Lemma pad_members_spec w ms depth : ms <> MNil -> ws w = true -> wf_members depth ms = true ->
  pad_members w ms <> MNil /\ wf_members depth (pad_members w ms) = true /\
  render_members (pad_members w ms) = w ++ render_members ms.
Proof.
  destruct ms as [|w1 k w2 w3 v w4 ms]; [done|]. intros _ Hw. cbn [wf_members pad_members]. unfold ws in *. rewrite forallb_app, Hw.
  intros Hms. split; [done|]. split; [done|]. destruct ms; cbn [render_members]; by rewrite <- app_assoc.
Qed.

Ltac eqb_eq := repeat match goal with H : (_ =? _) = true |- _ => apply Z.eqb_eq in H as -> end.

(** What the three parsers accept is a rendering. *)
Lemma json_parse fuel :
  (forall depth s r, bytes_ok s -> json_value fuel depth s = Some r ->
     exists v, s = render v ++ r /\ wf depth v = true) /\
  (forall depth s r, bytes_ok s -> json_elems fuel depth s = Some r ->
     exists es, es <> ENil /\ s = render_elems es ++ rbracket :: r /\ wf_elems depth es = true) /\
  (forall depth s r, bytes_ok s -> json_members fuel depth s = Some r ->
     exists ms, ms <> MNil /\ s = render_members ms ++ rbrace :: r /\ wf_members depth ms = true).
Proof.
  induction fuel as [|fuel (IHv & IHe & IHm)]; [done|]. split; [|split].
  - intros depth s r Hok. cbn [json_value]. destruct s as [|c s]; [done|]. apply Forall_cons in Hok as [Hc Hok].
    destruct (c =? quote) eqn:Eq; [|destruct (c =? lbracket) eqn:El; [|destruct (c =? lbrace) eqn:Eb]]; eqb_eq.
    + intros Hs. destruct (string_parse s r Hok Hs) as (b & -> & Hb). exists (JStr b). split; [|done].
      cbn [render app]. by rewrite <- app_assoc.
    + destruct (Z.leb_spec depth 0); [done|]. destruct (spaces_split s) as (w & Hw & Hs). rewrite Hs in Hok |- *.
      apply Forall_app in Hok as [_ Hok]. rewrite spaces_app, spaces_idem by done.
      destruct (spaces s) as [|c' s'] eqn:Es; [done|]. destruct (c' =? rbracket) eqn:Er; eqb_eq.
      * intros [= ->]. exists (JArr w ENil). cbn [render app wf wf_elems]. rewrite Hw. split; [by rewrite <- app_assoc|].
        rewrite !andb_true_r. by apply Z.ltb_lt.
      * intros He. destruct (IHe _ _ _ Hok He) as (es & Hne & -> & Hes). exists (JArr w es). cbn [render app wf].
        rewrite Hw, Hes, !andb_true_r, <- !app_assoc. split; [done|]. by apply Z.ltb_lt.
    + destruct (Z.leb_spec depth 0); [done|]. destruct (spaces_split s) as (w & Hw & Hs). rewrite Hs in Hok |- *.
      apply Forall_app in Hok as [_ Hok]. rewrite spaces_app, spaces_idem by done.
      destruct (spaces s) as [|c' s'] eqn:Es; [done|]. destruct (c' =? rbrace) eqn:Er; eqb_eq.
      * intros [= ->]. exists (JObj w MNil). cbn [render app wf wf_members]. rewrite Hw. split; [by rewrite <- app_assoc|].
        rewrite !andb_true_r. by apply Z.ltb_lt.
      * intros He. destruct (IHm _ _ _ Hok He) as (ms & Hne & -> & Hms). exists (JObj w ms). cbn [render app wf].
        rewrite Hw, Hms, !andb_true_r, <- !app_assoc. split; [done|]. by apply Z.ltb_lt.
    + intros Hs. destruct (scalar_parse _ _ Hs) as (b & Hb & Hw). by exists (JScalar b).
  - intros depth s r Hok. cbn [json_elems]. destruct (json_value fuel depth s) as [r1|] eqn:Ev; [|done].
    destruct (IHv _ _ _ Hok Ev) as (v & -> & Hv). destruct (spaces_split r1) as (w & Hw & Hs). apply Forall_app in Hok as [_ Hok].
    destruct (spaces r1) as [|c r2]; [done|]. destruct (c =? rbracket) eqn:Er; [|destruct (c =? comma) eqn:Ec; [|done]]; eqb_eq.
    + intros [= ->]. exists (ECons [] v w ENil). cbn [wf_elems render_elems app]. rewrite Hv, Hw, Hs, <- app_assoc. done.
    + intros He. rewrite Hs in Hok |- *. destruct (spaces_split r2) as (w' & Hw' & Hs').
      apply Forall_app in Hok as [_ Hok]. apply Forall_cons in Hok as [_ Hok]. rewrite Hs' in Hok. apply Forall_app in Hok as [_ Hok].
      destruct (IHe _ _ _ Hok He) as (es & Hne & Hr & Hes). destruct (pad_elems_spec w' es depth Hne Hw' Hes) as (Hne' & Hes' & Hr').
      exists (ECons [] v w (pad_elems w' es)). split; [done|]. cbn [wf_elems]. rewrite Hv, Hw, Hes'. split; [|done].
      rewrite render_elems_cons. cbn [app]. rewrite Hs', Hr. destruct (pad_elems w' es); [done|]. by rewrite Hr', <- app_assoc.
  - intros depth s r Hok. cbn [json_members]. destruct s as [|c s]; [done|]. apply Forall_cons in Hok as [_ Hok].
    destruct (c =? quote) eqn:Eq; [|done]. eqb_eq. destruct (json_string s) as [r1|] eqn:Ek; [|done].
    destruct (string_parse s r1 Hok Ek) as (k & -> & Hk). apply Forall_app in Hok as [_ Hok]. apply Forall_cons in Hok as [_ Hok].
    destruct (spaces_split r1) as (w2 & Hw2 & Hs2). destruct (spaces r1) as [|c r2]; [done|].
    destruct (c =? colon) eqn:Ec; [|done]. eqb_eq. subst r1. apply Forall_app in Hok as [_ Hok]. apply Forall_cons in Hok as [_ Hok].
    destruct (spaces_split r2) as (w3 & Hw3 & Hs3). rewrite Hs3 in Hok. apply Forall_app in Hok as [_ Hok].
    destruct (json_value fuel depth (spaces r2)) as [r3|] eqn:Ev; [|done]. destruct (IHv _ _ _ Hok Ev) as (v & Hv & Hwf).
    rewrite Hv in Hok. apply Forall_app in Hok as [_ Hok].
    destruct (spaces_split r3) as (w4 & Hw4 & Hs4). destruct (spaces r3) as [|c r4]; [done|].
    destruct (c =? rbrace) eqn:Er; [|destruct (c =? comma) eqn:Ecm; [|done]]; eqb_eq.
    + intros [= ->]. exists (MCons [] k w2 w3 v w4 MNil). split; [done|]. cbn [wf_members]. rewrite Hk, Hw2, Hw3, Hwf, Hw4.
      split; [|done]. rewrite render_members_cons. cbn [app]. rewrite Hs3, Hv, Hs4. done.
    + intros Hm. subst r3. apply Forall_app in Hok as [_ Hok]. apply Forall_cons in Hok as [_ Hok].
      destruct (spaces_split r4) as (w5 & Hw5 & Hs5). rewrite Hs5 in Hok. apply Forall_app in Hok as [_ Hok].
      destruct (IHm _ _ _ Hok Hm) as (ms & Hne & Hr & Hms). destruct (pad_members_spec w5 ms depth Hne Hw5 Hms) as (Hne' & Hms' & Hr').
      exists (MCons [] k w2 w3 v w4 (pad_members w5 ms)). split; [done|]. cbn [wf_members].
      rewrite Hk, Hw2, Hw3, Hwf, Hw4, Hms'. split; [|done].
      rewrite render_members_cons. cbn [app]. rewrite Hs3, Hv, Hs5, Hr. destruct (pad_members w5 ms); [done|]. by rewrite Hr', <- app_assoc.
Qed.

Lemma json_Valid_spec s : bytes_ok s ->
  (json_Valid s = true <->
   exists w1 v w2, s = document w1 v w2 /\ ws w1 = true /\ ws w2 = true /\ wf maxNestingDepth v = true).
Proof.
  intros Hok. split.
  - unfold json_Valid. destruct (spaces_split s) as (w1 & Hw1 & Hs).
    assert (Hok' : bytes_ok (spaces s)) by (rewrite Hs in Hok; apply Forall_app in Hok as [_ Hok]; exact Hok).
    destruct (json_value _ _ (spaces s)) as [r|] eqn:Ev; [|done]. rewrite bool_decide_eq_true. intros Hr.
    destruct (json_parse (S (length s))) as [Hp _]. destruct (Hp _ _ _ Hok' Ev) as (v & Hv & Hwf).
    destruct (spaces_split r) as (w2 & Hw2 & Hr2). rewrite Hr, app_nil_r in Hr2. subst r.
    exists w1, v, w2. unfold document. by rewrite <- Hv.
  - intros (w1 & v & w2 & -> & ? & ? & ?). by apply json_Valid_document.
Qed.
