(* ===== verification/JsonScan.v ===== *)
(** internal/metrics/content.go and json_key.go: the lexical JSON scanners. An
    index [i] into [data] is the tail [data[i:]]; the index -1 is [None]. *)

From S2P Require Import Prelude GoUtf8 JsonText.

(** ** Skipping *)

Definition SkipSpace (s : bytes) : bytes := spaces s.

(** The escape-aware loop behind the opening quote; [i += 2] may leave the text. *)
Fixpoint string_loop (s : bytes) : option bytes :=
  match s with
  | [] => None
  | c :: r =>
      if c =? backslash then match r with [] => None | _ :: r => string_loop r end
      else if c =? quote then Some r
      else string_loop r
  end.

Definition SkipJSONString (s : bytes) : option bytes :=
  match s with
  | c :: rest =>
      if c =? quote then
        match span (fun b => negb (b =? quote)) rest with
        | (run, _ :: after) => if forallb (fun b => negb (b =? backslash)) run then Some after else string_loop rest
        | (_, []) => string_loop rest
        end
      else None
  | [] => None
  end.

Definition opening (c : Z) : bool := (c =? lbrace) || (c =? lbracket).
Definition shutting (c : Z) : bool := (c =? rbrace) || (c =? rbracket).

(** The bracket depth of SkipJSONValue, down to zero. *)
Fixpoint brackets (fuel : nat) (depth : Z) (s : bytes) : option bytes :=
  if depth <=? 0 then Some s else
  match fuel, s with
  | S fuel, c :: r =>
      if c =? quote then
        match SkipJSONString s with Some r => brackets fuel depth r | None => None end
      else if opening c then brackets fuel (depth + 1) r
      else if shutting c then brackets fuel (depth - 1) r
      else brackets fuel depth r
  | _, _ => None
  end.

Definition SkipJSONValue (s : bytes) : option bytes :=
  match s with
  | [] => None
  | c :: r =>
      if c =? quote then SkipJSONString s
      else if opening c then brackets (length r) 1 r
      else Some (drop_while (fun b => negb (closing b)) s)
  end.

(** ** Loops over the items of an array and the members of an object

    The scanners of this package and of the request preflight write these two
    loops out around what they do with an item. [Bad] is malformed input,
    [Halt] an early answer, [Next] the state and the text behind the item. *)

Inductive step (S R : Type) := Bad | Halt (r : R) | Next (st : S) (rest : bytes).
Arguments Bad {S R}. Arguments Halt {S R}. Arguments Next {S R}.

Section loops.
Context {S R : Type}.

(** [for i < len(data) && data[i] != ']' { ... }] behind the bracket and its
    space: no comma may precede the bracket. *)
Fixpoint array_items (item : S -> bytes -> step S R) (fuel : nat) (st : S) (s : bytes) : step S R :=
  match fuel, s with
  | Datatypes.S fuel, c :: r =>
      if c =? rbracket then Next st r else
      match item st s with
      | Bad => Bad
      | Halt x => Halt x
      | Next st rest =>
          match SkipSpace rest with
          | d :: r =>
              if d =? comma then
                match SkipSpace r with
                | e :: r' => if e =? rbracket then Bad else array_items item fuel st (e :: r')
                | [] => Bad
                end
              else if d =? rbracket then Next st r
              else Bad
          | [] => Bad
          end
      end
  | _, _ => Bad
  end.

(** The raw token between two positions. *)
Definition token (s after : bytes) : bytes := take (length s - length after) s.

(** [for i < len(data) && data[i] != '}' { key : value ... }]; a comma may
    precede the brace. *)
Fixpoint object_members (member : S -> bytes -> bytes -> step S R) (fuel : nat) (st : S) (s : bytes) : step S R :=
  match fuel, s with
  | Datatypes.S fuel, c :: r =>
      if c =? rbrace then Next st r else
      match SkipJSONString s with
      | None => Bad
      | Some after =>
          match SkipSpace after with
          | d :: r =>
              if d =? colon then
                match SkipSpace r with
                | [] => Bad
                | e :: v =>
                    match member st (token s after) (e :: v) with
                    | Bad => Bad
                    | Halt x => Halt x
                    | Next st rest =>
                        match SkipSpace rest with
                        | f :: r =>
                            if f =? comma then object_members member fuel st (SkipSpace r)
                            else if f =? rbrace then Next st r
                            else Bad
                        | [] => Bad
                        end
                    end
                end
              else Bad
          | [] => Bad
          end
      end
  | _, _ => Bad
  end.
End loops.

(** An array's loop, from behind its bracket, and an object's. *)
Definition in_array {S R} (item : S -> bytes -> step S R) (st : S) (s : bytes) : step S R :=
  let s := SkipSpace s in array_items item (Datatypes.S (length s)) st s.
Definition in_object {S R} (member : S -> bytes -> bytes -> step S R) (st : S) (s : bytes) : step S R :=
  let s := SkipSpace s in object_members member (Datatypes.S (length s)) st s.

(** ** Counting *)

(** CountJSONArrayBytes: the count and the text behind, or behind the member
    that proved the overflow. *)
Definition CountJSONArrayBytes (s : bytes) (max : Z) : option (Z * bytes) :=
  match SkipSpace s with
  | [] => None
  | c :: r =>
      if c =? lbracket then
        match in_array (fun n s =>
                match SkipJSONValue s with
                | Some next =>
                    if Nat.leb (length s) (length next) then Bad
                    else if max <? n + 1 then Halt (n + 1, next) else Next (n + 1) next
                | None => Bad
                end) 0 r with
        | Bad => None
        | Halt x => Some x
        | Next n next => Some (n, next)
        end
      else match SkipJSONValue (c :: r) with Some next => Some (0, next) | None => None end
  end.

Definition ContentPartMax : Z := 4096.
Definition ArrayWithinLimit (raw : bytes) (max : Z) : bool :=
  match SkipSpace raw with
  | c :: r =>
      if c =? lbracket then
        match CountJSONArrayBytes (c :: r) max with Some (n, _) => n <=? max | None => false end
      else true
  | [] => true
  end.
Definition ContentPartsWithinLimit (raw : bytes) : bool := ArrayWithinLimit raw ContentPartMax.

(** The keys of the object at the front: strings at depth one before a colon. *)
Fixpoint object_keys_within (fuel : nat) (depth count max : Z) (s : bytes) : bool :=
  match fuel, s with
  | S fuel, c :: r =>
      if c =? quote then
        match SkipJSONString s with
        | None => false
        | Some next =>
            if depth =? 1 then
              match SkipSpace next with
              | d :: _ =>
                  if d =? colon then
                    if max <? count + 1 then false else object_keys_within fuel depth (count + 1) max next
                  else object_keys_within fuel depth count max next
              | [] => object_keys_within fuel depth count max next
              end
            else object_keys_within fuel depth count max next
        end
      else if opening c then object_keys_within fuel (depth + 1) count max r
      else if shutting c then
        if depth - 1 =? 0 then true else object_keys_within fuel (depth - 1) count max r
      else object_keys_within fuel depth count max r
  | _, _ => false
  end.
Definition ObjectWithinLimit (raw : bytes) (max : Z) : bool :=
  match SkipSpace raw with
  | c :: r => if c =? lbrace then object_keys_within (length (c :: r)) 0 0 max (c :: r) else true
  | [] => true
  end.

(** ** Strings *)

(** The fast path of SkipJSONString finds what its loop finds. *)
Lemma SkipJSONString_loop rest : SkipJSONString (quote :: rest) = string_loop rest.
Proof.
  unfold SkipJSONString. change (quote =? quote) with true. cbn iota.
  destruct (span _ rest) as [run after] eqn:Es.
  pose proof (span_app (fun b => negb (b =? quote)) rest) as Hr.
  pose proof (span_stops (fun b => negb (b =? quote)) rest) as Hst.
  pose proof (span_forall (fun b => negb (b =? quote)) rest) as Hf. rewrite Es in *. cbn [fst snd] in *.
  destruct after as [|q after]; [done|]. destruct (forallb _ run) eqn:Eb; [|done].
  cbn in Hst. apply negb_false_iff, Z.eqb_eq in Hst as ->. rewrite <- Hr. clear Es Hr.
  induction run as [|c run IH]; [done|]. apply Forall_cons in Hf as [Hq Hf]. cbn in Eb.
  apply andb_true_iff in Eb as [Hb Eb]. apply negb_true_iff in Hq, Hb. cbn. rewrite Hb, Hq. by apply IH.
Qed.

Lemma string_loop_shorter n : forall s r, (length s <= n)%nat -> string_loop s = Some r -> (length r < length s)%nat.
Proof.
  induction n as [|n IH]; intros s r Hn; destruct s as [|c s]; try done; cbn in *; [lia|].
  destruct (c =? backslash).
  - destruct s as [|e s]; [done|]. cbn in *. intros Hs. apply IH in Hs; lia.
  - destruct (c =? quote); [intros [= ->]; lia|]. intros Hs. apply IH in Hs; lia.
Qed.

Lemma SkipJSONString_shorter s r : SkipJSONString s = Some r -> (length r < length s)%nat.
Proof.
  destruct s as [|c s]; [done|]. intros Hs. destruct (Z.eqb_spec c quote) as [->|Hc].
  - rewrite SkipJSONString_loop in Hs. apply (string_loop_shorter _ _ _ (reflexivity _)) in Hs. cbn. lia.
  - unfold SkipJSONString in Hs. apply Z.eqb_neq in Hc. by rewrite Hc in Hs.
Qed.

Lemma hex_tests c x : hex c = Some x -> (c =? backslash) = false /\ (c =? quote) = false.
Proof.
  unfold hex, digit, backslash, quote. intros H. rewrite !Z.eqb_neq.
  destruct (between 48 57 c) eqn:E1; [apply between_spec in E1; lia|].
  destruct (between 97 102 c) eqn:E2; [apply between_spec in E2; lia|].
  destruct (between 65 70 c) eqn:E3; [apply between_spec in E3; lia|done].
Qed.

(** A string encoding/json accepts ends where the scanner says. *)
Lemma string_loop_valid n : forall s t, (length s <= n)%nat -> json_string s = Some t -> string_loop s = Some t.
Proof.
  induction n as [|n IH]; intros s t Hn; destruct s as [|c s]; try done; cbn in *; [lia|].
  destruct (Z.eqb_spec c quote) as [->|_]; [done|]. destruct (c =? backslash).
  - destruct s as [|e s]; [done|]. cbn in *. destruct (e =? 117).
    + destruct s as [|a [|b [|c' [|d s]]]]; try done. unfold hex4.
      destruct (hex a) eqn:Ea; [|done]. destruct (hex b) eqn:Eb; [|done].
      destruct (hex c') eqn:Ec; [|done]. destruct (hex d) eqn:Ed; [|done]. cbn.
      destruct (hex_tests _ _ Ea) as [-> ->], (hex_tests _ _ Eb) as [-> ->],
        (hex_tests _ _ Ec) as [-> ->], (hex_tests _ _ Ed) as [-> ->]. apply IH. cbn in Hn. lia.
    + destruct (simple_escape e); [|done]. apply IH. lia.
  - destruct (c <? 32); [done|]. apply IH. lia.
Qed.

Lemma SkipJSONString_body k t : string_body k = true -> SkipJSONString (quote :: k ++ quote :: t) = Some t.
Proof.
  intros Hk. rewrite SkipJSONString_loop. eapply string_loop_valid; [reflexivity|]. by apply string_body_spec.
Qed.

(** ** Values *)

(** The fuel never decides. *)
Lemma brackets_enough f : forall g d s, (length s <= f)%nat -> (length s <= g)%nat -> brackets f d s = brackets g d s.
Proof.
  induction f as [|f IH]; intros g d s Hf Hg.
  - destruct s; [|cbn in Hf; lia]. destruct g; cbn; by destruct (d <=? 0).
  - destruct s as [|c s]; [destruct g; cbn; by destruct (d <=? 0)|]. destruct g as [|g]; [cbn in Hg; lia|].
    cbn [brackets]. cbn [length] in *. destruct (d <=? 0); [done|].
    destruct (SkipJSONString (c :: s)) as [r|] eqn:Es.
    + apply SkipJSONString_shorter in Es. cbn in Es.
      rewrite (IH g d r), (IH g (d + 1) s), (IH g (d - 1) s), (IH g d s) by lia. done.
    + rewrite (IH g (d + 1) s), (IH g (d - 1) s), (IH g d s) by lia. done.
Qed.

(** The bracket loop with its fuel hidden. *)
Definition skip (d : Z) (s : bytes) : option bytes := brackets (length s) d s.

Lemma skip_cons d c s : 0 < d ->
  skip d (c :: s) =
    (if c =? quote then match SkipJSONString (c :: s) with Some r => skip d r | None => None end
     else if opening c then skip (d + 1) s else if shutting c then skip (d - 1) s else skip d s).
Proof.
  intros Hd. unfold skip. cbn [length brackets]. destruct (Z.leb_spec d 0); [lia|].
  destruct (c =? quote); [|done]. destruct (SkipJSONString (c :: s)) as [r|] eqn:Es; [|done].
  apply SkipJSONString_shorter in Es. cbn in Es. apply brackets_enough; lia.
Qed.

Definition bracketing (c : Z) : bool := (c =? quote) || opening c || shutting c.

Lemma skip_over d p t : 0 < d -> Forall (fun c => bracketing c = false) p -> skip d (p ++ t) = skip d t.
Proof.
  intros Hd Hp. induction Hp as [|c p Hc _ IH]; [done|]. cbn [app]. rewrite skip_cons by done.
  unfold bracketing in Hc. rewrite !orb_false_iff in Hc. by destruct Hc as [[-> ->] ->].
Qed.

Lemma skip_string d k t : 0 < d -> string_body k = true -> skip d (quote :: k ++ quote :: t) = skip d t.
Proof. intros Hd Hk. rewrite skip_cons by done. cbn [Z.eqb Pos.eqb quote]. by rewrite SkipJSONString_body. Qed.

Lemma ws_bracketing w : ws w = true -> Forall (fun c => bracketing c = false) w.
Proof.
  unfold ws. rewrite forallb_forall, Forall_forall. intros Hw c Hc. apply list_elem_of_In, Hw in Hc.
  unfold jsonSpace, bracketing, opening, shutting, quote, lbrace, lbracket, rbrace, rbracket in *.
  rewrite !orb_true_iff, !Z.eqb_eq in Hc. rewrite !orb_false_iff, !Z.eqb_neq. lia.
Qed.
Lemma plain_bracketing b : Forall (fun c => plain c = true) b -> Forall (fun c => bracketing c = false) b.
Proof.
  intros Hb. eapply Forall_impl; [exact Hb|]. cbn. clear. intros c Hc. apply plain_tests in Hc as (_ & Hc & Hq & Hl & Hb & _).
  unfold bracketing, opening, shutting, closing in *. rewrite !orb_false_iff in *. tauto.
Qed.

Lemma skip_ws d w t : 0 < d -> ws w = true -> skip d (w ++ t) = skip d t.
Proof. intros Hd Hw. by apply skip_over, ws_bracketing. Qed.
Lemma skip_byte d c t : 0 < d -> bracketing c = false -> skip d (c :: t) = skip d t.
Proof. intros Hd Hc. by apply (skip_over d [c]); [|constructor]. Qed.

(** A rendered value leaves the depth as it was. *)
Lemma skip_render :
  (forall v depth d t, wf depth v = true -> 0 < d -> skip d (render v ++ t) = skip d t) /\
  (forall es depth d t, wf_elems depth es = true -> 0 < d ->
     skip d (render_elems es ++ rbracket :: t) = skip d (rbracket :: t)) /\
  (forall ms depth d t, wf_members depth ms = true -> 0 < d ->
     skip d (render_members ms ++ rbrace :: t) = skip d (rbrace :: t)).
Proof.
  apply json_ind3.
  - intros b depth d t Hw Hd. cbn [render app]. rewrite <- app_assoc. by apply skip_string.
  - intros b depth d t Hw Hd. apply skip_over; [done|]. apply plain_bracketing. by apply scalar_spec.
  - intros w es IH depth d t Hw Hd. cbn [wf] in Hw. rewrite !andb_true_iff in Hw. destruct Hw as [[_ Hws] Hes].
    cbn [render app]. rewrite skip_cons by done. cbn [Z.eqb Pos.eqb quote lbracket opening lbrace orb].
    rewrite <- !app_assoc, skip_ws by (done || lia). cbn [app]. rewrite (IH (depth - 1)) by (done || lia).
    rewrite skip_cons by lia. cbn [Z.eqb Pos.eqb quote rbracket opening lbrace lbracket orb shutting rbrace].
    f_equal. lia.
  - intros w ms IH depth d t Hw Hd. cbn [wf] in Hw. rewrite !andb_true_iff in Hw. destruct Hw as [[_ Hws] Hms].
    cbn [render app]. rewrite skip_cons by done. cbn [Z.eqb Pos.eqb quote lbracket opening lbrace orb].
    rewrite <- !app_assoc, skip_ws by (done || lia). cbn [app]. rewrite (IH (depth - 1)) by (done || lia).
    rewrite skip_cons by lia. cbn [Z.eqb Pos.eqb quote rbracket opening lbrace lbracket orb shutting rbrace].
    f_equal. lia.
  - done.
  - intros w1 v IHv w2 es IHes depth d t Hw Hd. cbn [wf_elems] in Hw. rewrite !andb_true_iff in Hw.
    destruct Hw as [[[Hw1 Hv] Hw2] Hes]. rewrite render_elems_cons, skip_ws, (IHv depth), skip_ws by done.
    destruct es; [done|]. rewrite skip_byte by done. by apply (IHes depth).
  - done.
  - intros w1 k w2 w3 v IHv w4 ms IHms depth d t Hw Hd. cbn [wf_members] in Hw. rewrite !andb_true_iff in Hw.
    destruct Hw as [[[[[[Hw1 Hk] Hw2] Hw3] Hv] Hw4] Hms].
    rewrite render_members_cons, skip_ws, skip_string, skip_ws, skip_byte, skip_ws, (IHv depth), skip_ws by done.
    destruct ms; [done|]. rewrite skip_byte by done. by apply (IHms depth).
Qed.

(** What stands behind a value in its document. *)
Definition ends (t : bytes) : Prop :=
  exists w t', ws w = true /\ t = w ++ t' /\ match t' with [] => True | c :: _ => closing c = true end.

Lemma ends_delim t : ends t -> delim t.
Proof.
  intros (w & t' & Hw & -> & Ht). destruct t' as [|c t']; [|by apply delim_ws].
  rewrite app_nil_r. destruct w as [|c w]; [done|]. cbn in *. apply andb_true_iff in Hw as [-> _]. done.
Qed.

(** SkipJSONValue passes exactly the value - and, behind a scalar, the white
    space up to the delimiter. *)
Lemma SkipJSONValue_exact v depth t : wf depth v = true -> ends t ->
  exists r w, SkipJSONValue (render v ++ t) = Some r /\ t = w ++ r /\ ws w = true /\
    match v with JScalar _ => True | _ => w = [] end.
Proof.
  intros Hv Ht. destruct v as [b|b|w es|w ms].
  - exists t, []. split; [|done]. cbn [render app SkipJSONValue]. change (quote =? quote) with true. cbn iota.
    rewrite <- app_assoc. by apply SkipJSONString_body.
  - pose proof (scalar_spec b Hv) as (Hne & Hp & _).
    destruct Ht as (w & t' & Hw & -> & Ht'). exists t', w. split; [|done].
    assert (Hd : drop_while (fun c => negb (closing c)) (w ++ t') = t').
    { clear -Hw Ht'. induction w as [|c w IH]; cbn.
      - apply drop_while_id. destruct t' as [|c t']; [done|]. cbn in *. by rewrite Ht'.
      - cbn in Hw. apply andb_true_iff in Hw as [Hc Hw]. rewrite IH by done.
        replace (closing c) with false; [done|]. symmetry.
        unfold jsonSpace, closing, comma, rbracket, rbrace in *.
        rewrite !orb_true_iff, !Z.eqb_eq in Hc. rewrite !orb_false_iff, !Z.eqb_neq. lia. }
    assert (Hs : forall p, Forall (fun c => plain c = true) p ->
      drop_while (fun c => negb (closing c)) (p ++ w ++ t') = t').
    { intros p Hp'. induction Hp' as [|c p Hc _ IH]; [done|]. cbn. apply plain_tests in Hc as (_ & -> & _). done. }
    rewrite <- (Hs b Hp) at 2. cbn [render]. destruct b as [|c b]; [done|]. cbn [app SkipJSONValue].
    apply Forall_cons in Hp as [Hc _]. apply plain_tests in Hc as (_ & _ & -> & Hl & Hb & _).
    unfold opening. by rewrite Hl, Hb.
  - exists t, []. split; [|done]. cbn [wf] in Hv. rewrite !andb_true_iff in Hv. destruct Hv as [[_ Hws] Hes].
    cbn [render app SkipJSONValue]. cbn [Z.eqb Pos.eqb quote lbracket opening lbrace orb].
    rewrite <- !app_assoc. cbn [app]. change (brackets ?n 1 ?s) with (skip 1 s).
    destruct skip_render as (_ & H & _). rewrite skip_ws, (H es (depth - 1)), skip_cons by done. cbn.
    unfold skip. by destruct t.
  - exists t, []. split; [|done]. cbn [wf] in Hv. rewrite !andb_true_iff in Hv. destruct Hv as [[_ Hws] Hms].
    cbn [render app SkipJSONValue]. cbn [Z.eqb Pos.eqb quote lbracket opening lbrace orb].
    rewrite <- !app_assoc. cbn [app]. change (brackets ?n 1 ?s) with (skip 1 s).
    destruct skip_render as (_ & _ & H). rewrite skip_ws, (H ms (depth - 1)), skip_cons by done. cbn.
    unfold skip. by destruct t.
Qed.

Lemma SkipJSONValue_render v depth t : wf depth v = true -> ends t ->
  exists r, SkipJSONValue (render v ++ t) = Some r /\ SkipSpace r = SkipSpace t /\ (length r <= length t)%nat.
Proof.
  intros Hv Ht. destruct (SkipJSONValue_exact v depth t Hv Ht) as (r & w & Hs & -> & Hw & _).
  exists r. split; [done|]. unfold SkipSpace. rewrite spaces_app, length_app by done. split; [done|lia].
Qed.

(** ** The loops on a rendered document *)

Section run.
Context {S R R' : Type} (Inv : S -> Prop) (ok : R -> R' -> Prop).

(** What a loop does with the items, without their spelling. *)
Fixpoint run_elems (h : S -> json -> S + R') (st : S) (es : elems) : S + R' :=
  match es with
  | ENil => inl st
  | ECons _ v _ es => match h st v with inl st => run_elems h st es | inr x => inr x end
  end.
Fixpoint run_members (h : S -> bytes -> json -> S + R') (st : S) (ms : members) : S + R' :=
  match ms with
  | MNil => inl st
  | MCons _ k _ _ v _ ms => match h st k v with inl st => run_members h st ms | inr x => inr x end
  end.

(** A scanner does to the text what a handler does to the value: it comes out
    behind the value, give or take white space. *)
Definition passes (o : step S R) (t : bytes) (x : S + R') : Prop :=
  match x with
  | inl st => exists r, o = Next st r /\ SkipSpace r = SkipSpace t
  | inr x => exists y, o = Halt y /\ ok y x
  end.

Definition agrees (o : step S R) (t : bytes) (x : S + R') : Prop :=
  match x with
  | inl st => o = Next st t
  | inr x => exists y, o = Halt y /\ ok y x
  end.

Lemma SkipSpace_tail_elems w2 es t : ws w2 = true ->
  SkipSpace (w2 ++ match es with ENil => rbracket :: t | _ => comma :: render_elems es ++ rbracket :: t end) =
    match es with ENil => rbracket :: t | _ => comma :: render_elems es ++ rbracket :: t end.
Proof. intros Hw. unfold SkipSpace. rewrite spaces_app by done. destruct es; by apply spaces_closing; left. Qed.
Lemma SkipSpace_tail_members w4 ms t : ws w4 = true ->
  SkipSpace (w4 ++ match ms with MNil => rbrace :: t | _ => comma :: render_members ms ++ rbrace :: t end) =
    match ms with MNil => rbrace :: t | _ => comma :: render_members ms ++ rbrace :: t end.
Proof. intros Hw. unfold SkipSpace. rewrite spaces_app by done. destruct ms; by apply spaces_closing; left. Qed.

Lemma ends_elems w2 es t : ws w2 = true ->
  ends (w2 ++ match es with ENil => rbracket :: t | _ => comma :: render_elems es ++ rbracket :: t end).
Proof. intros Hw. exists w2. eexists. split; [done|]. split; [done|]. by destruct es. Qed.
Lemma ends_members w4 ms t : ws w4 = true ->
  ends (w4 ++ match ms with MNil => rbrace :: t | _ => comma :: render_members ms ++ rbrace :: t end).
Proof. intros Hw. exists w4. eexists. split; [done|]. split; [done|]. by destruct ms. Qed.

Lemma array_items_render item h depth : forall es,
  (forall st v t, wf depth v = true -> ends t -> Inv st ->
     passes (item st (render v ++ t)) t (h st v) /\ (forall st', h st v = inl st' -> Inv st')) ->
  forall fuel st t, wf_elems depth es = true -> Inv st ->
  (length (SkipSpace (render_elems es ++ rbracket :: t)) < fuel)%nat ->
  agrees (array_items item fuel st (SkipSpace (render_elems es ++ rbracket :: t))) t (run_elems h st es).
Proof.
  intros es Hitem. induction es as [|w1 v w2 es IH]; intros fuel st t Hw Hi Hf;
    (destruct fuel as [|fuel]; [lia|]).
  - unfold SkipSpace. cbn [render_elems app run_elems]. by rewrite spaces_closing by (by left).
  - pose proof Hw as Hw'. cbn [wf_elems] in Hw. rewrite !andb_true_iff in Hw. destruct Hw as [[[Hw1 Hv] Hw2] Hes].
    destruct (elems_head w1 v w2 es depth t Hw') as (c & r & Hs & Hc). unfold SkipSpace in *.
    rewrite render_elems_cons, (spaces_render _ _ depth) in Hs, Hf |- * by done.
    set (tail := w2 ++ _) in *. assert (He : ends tail) by (by apply ends_elems).
    destruct (Hitem st v tail Hv He Hi) as [Hp Hi']. cbn [run_elems].
    assert (Hst : spaces tail = match es with ENil => rbracket :: t | _ => comma :: render_elems es ++ rbracket :: t end)
      by (by apply SkipSpace_tail_elems).
    assert (Hlen : (length (spaces tail) < length (render v ++ tail))%nat).
    { rewrite length_app. pose proof (spaces_length tail). pose proof (value_nonempty v depth Hv). lia. }
    rewrite Hs in *. cbn [array_items]. rewrite Hc. destruct (h st v) as [st'|x].
    + destruct Hp as (r' & -> & Hr'). unfold SkipSpace in *. rewrite Hr', Hst. rewrite Hst in Hlen. destruct es as [|w1' v' w2' es].
      * done.
      * cbn [Z.eqb Pos.eqb comma]. destruct (elems_head w1' v' w2' es depth t Hes) as (c' & s' & Hs' & Hc').
        pose proof (spaces_length (render_elems (ECons w1' v' w2' es) ++ rbracket :: t)).
        rewrite Hs', Hc', <- Hs'. apply IH; [done|by apply Hi'|]. cbn [length] in *. lia.
    + by destruct Hp as (y & -> & Hy); exists y.
Qed.

Lemma token_string k t : token (quote :: k ++ quote :: t) t = quote :: k ++ [quote].
Proof.
  unfold token. replace (quote :: k ++ quote :: t) with ((quote :: k ++ [quote]) ++ t)
    by (cbn [app]; by rewrite <- app_assoc).
  rewrite length_app. replace (length (quote :: k ++ [quote]) + length t - length t)%nat
    with (length (quote :: k ++ [quote])) by lia. apply take_app_length.
Qed.

Lemma object_members_render member h depth : forall ms,
  (forall st k v t, string_body k = true -> wf depth v = true -> ends t -> Inv st ->
     passes (member st (quote :: k ++ [quote]) (render v ++ t)) t (h st k v) /\
     (forall st', h st k v = inl st' -> Inv st')) ->
  forall fuel st t, wf_members depth ms = true -> Inv st ->
  (length (SkipSpace (render_members ms ++ rbrace :: t)) < fuel)%nat ->
  agrees (object_members member fuel st (SkipSpace (render_members ms ++ rbrace :: t))) t (run_members h st ms).
Proof.
  intros ms Hm. induction ms as [|w1 k w2 w3 v w4 ms IH]; intros fuel st t Hw Hi Hf;
    (destruct fuel as [|fuel]; [lia|]).
  - unfold SkipSpace. cbn [render_members app run_members]. by rewrite spaces_closing by (by left).
  - cbn [wf_members] in Hw. rewrite !andb_true_iff in Hw. destruct Hw as [[[[[[Hw1 Hk] Hw2] Hw3] Hv] Hw4] Hms].
    unfold SkipSpace in *. rewrite render_members_cons, spaces_app, spaces_closing in Hf |- * by (done || tauto).
    set (tail := w4 ++ _) in *. assert (He : ends tail) by (by apply ends_members).
    set (after := w2 ++ colon :: w3 ++ render v ++ tail) in *.
    destruct (Hm st k v tail Hk Hv He Hi) as [Hp Hi']. cbn [run_members object_members].
    change (quote =? rbrace) with false. cbn iota.
    rewrite SkipJSONString_body, token_string by done. unfold SkipSpace.
    assert (Ha : spaces after = colon :: w3 ++ render v ++ tail).
    { unfold after. rewrite spaces_app, spaces_closing by (done || tauto). done. }
    rewrite Ha. cbn [Z.eqb Pos.eqb colon]. rewrite (spaces_render _ _ depth) by done.
    destruct (render_head v depth Hv) as (c & s & Hr & _). rewrite Hr in *. cbn [app] in *.
    assert (Hst : spaces tail = match ms with MNil => rbrace :: t | _ => comma :: render_members ms ++ rbrace :: t end)
      by (by apply SkipSpace_tail_members).
    destruct (h st k v) as [st'|x].
    + destruct Hp as (r' & -> & Hr'). unfold SkipSpace in *. rewrite Hr', Hst. destruct ms as [|w1' k' w2' w3' v' w4' ms].
      * done.
      * cbn [Z.eqb Pos.eqb comma]. apply IH; [done|by apply Hi'|].
        pose proof (spaces_length (render_members (MCons w1' k' w2' w3' v' w4' ms) ++ rbrace :: t)).
        unfold after in Hf. pose proof (spaces_length tail) as Hl. rewrite Hst in Hl. cbn [length] in *.
        repeat (rewrite ?length_app in Hf; cbn [length] in Hf). lia.
    + by destruct Hp as (y & -> & Hy); exists y.
Qed.

Lemma in_array_render item h depth w es st t :
  (forall st v t, wf depth v = true -> ends t -> Inv st ->
     passes (item st (render v ++ t)) t (h st v) /\ (forall st', h st v = inl st' -> Inv st')) ->
  ws w = true -> wf_elems depth es = true -> Inv st ->
  agrees (in_array item st (w ++ render_elems es ++ rbracket :: t)) t (run_elems h st es).
Proof.
  intros Hi Hw Hes Hst. unfold in_array, SkipSpace at 1 2. rewrite spaces_app by done.
  eapply array_items_render; [exact Hi|done|done|]. unfold SkipSpace. lia.
Qed.

Lemma in_object_render member h depth w ms st t :
  (forall st k v t, string_body k = true -> wf depth v = true -> ends t -> Inv st ->
     passes (member st (quote :: k ++ [quote]) (render v ++ t)) t (h st k v) /\
     (forall st', h st k v = inl st' -> Inv st')) ->
  ws w = true -> wf_members depth ms = true -> Inv st ->
  agrees (in_object member st (w ++ render_members ms ++ rbrace :: t)) t (run_members h st ms).
Proof.
  intros Hi Hw Hms Hst. unfold in_object, SkipSpace at 1 2. rewrite spaces_app by done.
  eapply object_members_render; [exact Hi|done|done|]. unfold SkipSpace. lia.
Qed.
End run.

(** ** The counts *)

Fixpoint elems_count (es : elems) : Z := match es with ENil => 0 | ECons _ _ _ es => elems_count es + 1 end.
Fixpoint members_count (ms : members) : Z := match ms with MNil => 0 | MCons _ _ _ _ _ _ ms => members_count ms + 1 end.
Definition array_len (v : json) : Z := match v with JArr _ es => elems_count es | _ => 0 end.
Definition object_len (v : json) : Z := match v with JObj _ ms => members_count ms | _ => 0 end.

Lemma elems_count_nonneg es : 0 <= elems_count es.
Proof. induction es; cbn; lia. Qed.
Lemma members_count_nonneg ms : 0 <= members_count ms.
Proof. induction ms; cbn; lia. Qed.
Lemma array_len_nonneg v : 0 <= array_len v.
Proof. destruct v; cbn; try lia. apply elems_count_nonneg. Qed.

Lemma SkipSpace_render v depth t : wf depth v = true -> SkipSpace (render v ++ t) = render v ++ t.
Proof. intros Hv. by apply (spaces_render [] v depth). Qed.

(** A saturating count over the elements. *)
Lemma run_count max es : forall n, n <= max ->
  run_elems (fun n (_ : json) => if max <? n + 1 then inr (n + 1) else inl (n + 1)) n es =
    (if n + elems_count es <=? max then inl (n + elems_count es) else inr (max + 1)).
Proof.
  induction es as [|w1 v w2 es IH]; intros n Hn; cbn [run_elems elems_count].
  - rewrite Z.add_0_r. by destruct (Z.leb_spec n max); [|lia].
  - pose proof (elems_count_nonneg es). destruct (Z.ltb_spec max (n + 1)).
    + destruct (Z.leb_spec (n + (elems_count es + 1)) max); [lia|]. f_equal. lia.
    + rewrite IH by lia. replace (n + 1 + elems_count es) with (n + (elems_count es + 1)) by lia. done.
Qed.

(** The count is exact up to the bound and one more past it; a value that is
    not an array is passed and counts nothing. *)
Lemma CountJSONArrayBytes_render v depth t max : wf depth v = true -> ends t -> 0 <= max ->
  exists n r, CountJSONArrayBytes (render v ++ t) max = Some (n, r) /\
    n = Z.min (array_len v) (max + 1) /\ (array_len v <= max -> SkipSpace r = SkipSpace t).
Proof.
  intros Hv Ht Hmax. pose proof (SkipSpace_render v depth t Hv) as Hsp. unfold CountJSONArrayBytes. rewrite Hsp.
  assert (Hother : match v with JArr _ _ => False | _ => True end -> exists n r,
    match SkipJSONValue (render v ++ t) with Some next => Some (0, next) | None => None end = Some (n, r) /\
    n = Z.min (array_len v) (max + 1) /\ (array_len v <= max -> SkipSpace r = SkipSpace t)).
  { intros Hn. destruct (SkipJSONValue_render v depth t Hv Ht) as (r & -> & Hr & _).
    exists 0, r. split; [done|]. split; [|done]. destruct v; cbn; try lia; done. }
  destruct v as [b|b|w es|w ms]; [by apply Hother| |clear Hother|by apply Hother].
  { pose proof (scalar_head b t Hv) as Hh. specialize (Hother I). cbn [render] in *.
    destruct (b ++ t) as [|c r]; [done|]. destruct Hh as (_ & -> & _). done. }
  cbn [render app]. change (lbracket =? lbracket) with true. cbn iota. rewrite <- !app_assoc. cbn [app].
  cbn [wf] in Hv. rewrite !andb_true_iff in Hv. destruct Hv as [[_ Hw] Hes].
  epose proof (in_array_render (fun n => n <= max) (fun (x : Z * bytes) (n : Z) => x.1 = n) _
    (fun n (_ : json) => if max <? n + 1 then inr (n + 1) else inl (n + 1)) (depth - 1) w es 0 t _ Hw Hes Hmax) as Ha.
  rewrite run_count in Ha by done. rewrite Z.add_0_l in Ha. cbn [array_len].
  destruct (Z.leb_spec (elems_count es) max).
  - cbn [agrees] in Ha. erewrite Ha. exists (elems_count es), t. split; [done|]. split; [lia|done].
  - destruct Ha as ([n r] & Ha & Hn). cbn in Hn. erewrite Ha. exists n, r. split; [done|]. split; lia.
Unshelve.
  intros n v' t' Hv' Ht' Hn. destruct (SkipJSONValue_render v' (depth - 1) t' Hv' Ht') as (r & Hs & Hr & Hlen).
  rewrite Hs. pose proof (value_nonempty v' (depth - 1) Hv').
  destruct (Nat.leb_spec (length (render v' ++ t')) (length r)) as [Hle|]; [rewrite length_app in Hle; lia|].
  destruct (Z.ltb_spec max (n + 1)); cbn [passes]; (split; [eauto|]); intros st' Hst; [done|].
  injection Hst as <-. lia.
Qed.

Lemma ArrayWithinLimit_render w1 v w2 depth max : ws w1 = true -> ws w2 = true -> wf depth v = true -> 0 <= max ->
  ArrayWithinLimit (w1 ++ render v ++ w2) max = (array_len v <=? max).
Proof.
  intros Hw1 Hw2 Hv Hmax. unfold ArrayWithinLimit, SkipSpace. rewrite (spaces_render w1 v depth) by done.
  assert (He : ends w2) by (exists w2, []; by rewrite app_nil_r).
  destruct (CountJSONArrayBytes_render v depth w2 max Hv He Hmax) as (n & r & Hc & Hn & _).
  destruct v as [b|b|w es|w ms]; cbn [array_len] in *.
  - symmetry. by apply Z.leb_le.
  - pose proof (scalar_head b w2 Hv) as Hh. cbn [render] in *. destruct (b ++ w2) as [|c r']; [done|].
    destruct Hh as (_ & -> & _). symmetry. by apply Z.leb_le.
  - cbn [render app] in *. change (lbracket =? lbracket) with true. cbn iota. rewrite Hc.
    apply Bool.eq_iff_eq_true. rewrite !Z.leb_le. lia.
  - symmetry. by apply Z.leb_le.
Qed.

(** ** The members of an object *)

(** The key loop with its fuel hidden. *)
Lemma keys_enough f : forall g d n max s, (length s <= f)%nat -> (length s <= g)%nat ->
  object_keys_within f d n max s = object_keys_within g d n max s.
Proof.
  induction f as [|f IH]; intros g d n max s Hf Hg.
  - destruct s; [by destruct g|cbn in Hf; lia].
  - destruct s as [|c s]; [by destruct g|]. destruct g as [|g]; [cbn in Hg; lia|].
    cbn [object_keys_within]. cbn [length] in *.
    rewrite (IH g (d + 1) n max s), (IH g (d - 1) n max s), (IH g d n max s) by lia.
    destruct (SkipJSONString (c :: s)) as [r|] eqn:Es; [|done].
    apply SkipJSONString_shorter in Es. cbn in Es.
    rewrite (IH g d (n + 1) max r), (IH g d n max r) by lia. done.
Qed.

Definition keys (d n max : Z) (s : bytes) : bool := object_keys_within (length s) d n max s.

Lemma keys_cons d n max c s :
  keys d n max (c :: s) =
    (if c =? quote then
       match SkipJSONString (c :: s) with
       | None => false
       | Some next =>
           if (d =? 1) && match SkipSpace next with c :: _ => c =? colon | [] => false end
           then if max <? n + 1 then false else keys d (n + 1) max next
           else keys d n max next
       end
     else if opening c then keys (d + 1) n max s
     else if shutting c then if d - 1 =? 0 then true else keys (d - 1) n max s
     else keys d n max s).
Proof.
  unfold keys. cbn [length object_keys_within]. destruct (c =? quote); [|done].
  destruct (SkipJSONString (c :: s)) as [r|] eqn:Es; [|done]. apply SkipJSONString_shorter in Es. cbn in Es.
  rewrite (keys_enough (length s) (length r) d (n + 1) max r), (keys_enough (length s) (length r) d n max r) by lia.
  destruct (d =? 1); [|done]. destruct (SkipSpace r) as [|e r']; [done|]. by destruct (e =? colon).
Qed.

Lemma keys_over d n max p t : Forall (fun c => bracketing c = false) p -> keys d n max (p ++ t) = keys d n max t.
Proof.
  intros Hp. induction Hp as [|c p Hc _ IH]; [done|]. cbn [app]. rewrite keys_cons.
  unfold bracketing in Hc. rewrite !orb_false_iff in Hc. by destruct Hc as [[-> ->] ->].
Qed.
Lemma keys_ws d n max w t : ws w = true -> keys d n max (w ++ t) = keys d n max t.
Proof. intros Hw. by apply keys_over, ws_bracketing. Qed.
Lemma keys_byte d n max c t : bracketing c = false -> keys d n max (c :: t) = keys d n max t.
Proof. intros Hc. by apply (keys_over d n max [c]); constructor. Qed.

(** Behind a value no colon follows. *)
Definition no_colon (t : bytes) : Prop := match SkipSpace t with c :: _ => (c =? colon) = false | [] => True end.
Lemma ends_no_colon t : ends t -> no_colon t.
Proof.
  intros (w & t' & Hw & -> & Ht). unfold no_colon, SkipSpace. rewrite spaces_app by done.
  destruct t' as [|c t']; [done|]. rewrite spaces_closing by (by left).
  unfold closing, comma, rbracket, rbrace, colon in *. rewrite !orb_true_iff, !Z.eqb_eq in Ht. apply Z.eqb_neq. lia.
Qed.

Lemma keys_string d n max k t : string_body k = true -> (d = 1 -> no_colon t) ->
  keys d n max (quote :: k ++ quote :: t) = keys d n max t.
Proof.
  intros Hk Hd. rewrite keys_cons. change (quote =? quote) with true. cbn iota. rewrite SkipJSONString_body by done.
  destruct (Z.eqb_spec d 1) as [->|]; [|done]. specialize (Hd eq_refl). unfold no_colon in Hd.
  destruct (SkipSpace t) as [|c r]; [done|]. by rewrite Hd.
Qed.

(** A rendered value leaves depth and count as they were; its own members are
    deeper than the first level. *)
Lemma keys_render :
  (forall v depth d n max t, wf depth v = true -> 1 <= d -> (d = 1 -> no_colon t) ->
     keys d n max (render v ++ t) = keys d n max t) /\
  (forall es depth d n max t, wf_elems depth es = true -> 2 <= d ->
     keys d n max (render_elems es ++ rbracket :: t) = keys d n max (rbracket :: t)) /\
  (forall ms depth d n max t, wf_members depth ms = true -> 2 <= d ->
     keys d n max (render_members ms ++ rbrace :: t) = keys d n max (rbrace :: t)).
Proof.
  apply json_ind3.
  - intros b depth d n max t Hw Hd Hc. cbn [render app]. rewrite <- app_assoc. by apply keys_string.
  - intros b depth d n max t Hw Hd Hc. apply keys_over, plain_bracketing. by apply scalar_spec.
  - intros w es IH depth d n max t Hw Hd Hc. cbn [wf] in Hw. rewrite !andb_true_iff in Hw. destruct Hw as [[_ Hws] Hes].
    cbn [render app]. rewrite keys_cons. cbn [Z.eqb Pos.eqb quote lbracket opening lbrace orb].
    rewrite <- !app_assoc, keys_ws by done. cbn [app]. rewrite (IH (depth - 1)) by (done || lia).
    rewrite keys_cons. cbn [Z.eqb Pos.eqb quote rbracket opening lbrace lbracket orb shutting rbrace].
    destruct (Z.eqb_spec (d + 1 - 1) 0); [lia|]. f_equal. lia.
  - intros w ms IH depth d n max t Hw Hd Hc. cbn [wf] in Hw. rewrite !andb_true_iff in Hw. destruct Hw as [[_ Hws] Hms].
    cbn [render app]. rewrite keys_cons. cbn [Z.eqb Pos.eqb quote lbracket opening lbrace orb].
    rewrite <- !app_assoc, keys_ws by done. cbn [app]. rewrite (IH (depth - 1)) by (done || lia).
    rewrite keys_cons. cbn [Z.eqb Pos.eqb quote rbracket opening lbrace lbracket orb shutting rbrace].
    destruct (Z.eqb_spec (d + 1 - 1) 0); [lia|]. f_equal. lia.
  - done.
  - intros w1 v IHv w2 es IHes depth d n max t Hw Hd. cbn [wf_elems] in Hw. rewrite !andb_true_iff in Hw.
    destruct Hw as [[[Hw1 Hv] Hw2] Hes]. rewrite render_elems_cons, keys_ws, (IHv depth), keys_ws by (done || lia).
    destruct es; [done|]. rewrite keys_byte by done. by apply (IHes depth).
  - done.
  - intros w1 k w2 w3 v IHv w4 ms IHms depth d n max t Hw Hd. cbn [wf_members] in Hw. rewrite !andb_true_iff in Hw.
    destruct Hw as [[[[[[Hw1 Hk] Hw2] Hw3] Hv] Hw4] Hms].
    rewrite render_members_cons, keys_ws, keys_string, keys_ws, keys_byte, keys_ws, (IHv depth), keys_ws by (done || lia).
    destruct ms; [done|]. rewrite keys_byte by done. by apply (IHms depth).
Qed.

Lemma keys_members ms : forall depth n max t, wf_members depth ms = true -> n <= max ->
  keys 1 n max (render_members ms ++ rbrace :: t) = (n + members_count ms <=? max).
Proof.
  induction ms as [|w1 k w2 w3 v w4 ms IH]; intros depth n max t Hw Hn.
  - cbn [render_members app members_count]. rewrite keys_cons. cbn. rewrite Z.add_0_r. symmetry. by apply Z.leb_le.
  - cbn [wf_members] in Hw. rewrite !andb_true_iff in Hw. destruct Hw as [[[[[[Hw1 Hk] Hw2] Hw3] Hv] Hw4] Hms].
    rewrite render_members_cons, keys_ws, keys_cons by done. change (quote =? quote) with true. cbn iota.
    rewrite SkipJSONString_body by done. unfold SkipSpace. rewrite spaces_app, spaces_closing by (done || tauto).
    cbn [Z.eqb Pos.eqb colon andb members_count]. pose proof (members_count_nonneg ms).
    destruct (Z.ltb_spec max (n + 1)); [symmetry; apply Z.leb_gt; lia|].
    destruct keys_render as [Hr _]. rewrite keys_ws, keys_byte, keys_ws, (Hr v depth), keys_ws by
      (done || lia || (intros _; by apply ends_no_colon, ends_members)).
    rewrite <- (Z.add_comm 1 (members_count ms)), Z.add_assoc. destruct ms as [|w1' k' w2' w3' v' w4' ms].
    + rewrite keys_cons. cbn. rewrite Z.add_0_r. symmetry. by apply Z.leb_le.
    + rewrite keys_byte by done. by apply (IH depth).
Qed.

(** ObjectWithinLimit counts the members - the raw members, duplicates
    included - of the object, and nothing nested. *)
Lemma ObjectWithinLimit_render w1 v t depth max : ws w1 = true -> wf depth v = true -> 0 <= max ->
  ObjectWithinLimit (w1 ++ render v ++ t) max = (object_len v <=? max).
Proof.
  intros Hw1 Hv Hmax. unfold ObjectWithinLimit, SkipSpace. rewrite (spaces_render w1 v depth) by done.
  destruct v as [b|b|w es|w ms]; cbn [object_len].
  - symmetry. by apply Z.leb_le.
  - pose proof (scalar_head b t Hv) as Hh. cbn [render]. destruct (b ++ t) as [|c r']; [done|].
    destruct Hh as (_ & _ & ->). symmetry. by apply Z.leb_le.
  - symmetry. by apply Z.leb_le.
  - cbn [wf] in Hv. rewrite !andb_true_iff in Hv. destruct Hv as [[_ Hws] Hms].
    cbn [render app]. change (lbrace =? lbrace) with true. cbn iota. rewrite <- !app_assoc. cbn [app].
    change (keys 0 0 max (lbrace :: w ++ render_members ms ++ rbrace :: t) = (members_count ms <=? max)).
    rewrite keys_cons. cbn [Z.eqb Pos.eqb quote lbracket opening lbrace orb]. rewrite keys_ws by done.
    by rewrite (keys_members ms (depth - 1)).
Qed.

(** On a JSON document the two lexical guards of the decoders are exact, with
    nothing decoded: ArrayWithinLimit accepts it exactly when it is not an
    array of more than the limit, ObjectWithinLimit exactly when it is not an
    object of more members than the limit, whatever is nested inside, and
    CountJSONArrayBytes counts the elements, or one past its limit. *)
Theorem limits_exact w1 v w2 max : ws w1 = true -> ws w2 = true -> wf maxNestingDepth v = true -> 0 <= max ->
  ArrayWithinLimit (document w1 v w2) max = (array_len v <=? max) /\
  ObjectWithinLimit (document w1 v w2) max = (object_len v <=? max) /\
  exists r, CountJSONArrayBytes (render v ++ w2) max = Some (Z.min (array_len v) (max + 1), r) /\
    (array_len v <= max -> SkipSpace r = []).
Proof.
  intros Hw1 Hw2 Hv Hmax. unfold document. split; [by apply (ArrayWithinLimit_render _ _ _ maxNestingDepth)|].
  split; [by apply (ObjectWithinLimit_render _ _ _ maxNestingDepth)|].
  destruct (CountJSONArrayBytes_render v maxNestingDepth w2 max) as (n & r & Hc & -> & Hr); [done| |done|].
  { exists w2, []. by rewrite app_nil_r. }
  exists r. split; [done|]. intros Hle. rewrite (Hr Hle). unfold SkipSpace. rewrite <- (app_nil_r w2). by rewrite spaces_app.
Qed.

Lemma limits_exact_witness :
  let three := JArr [32] (ECons [] (JScalar (str "1")) [] (ECons [] (JStr (str "],[")) [32]
    (ECons [10] (JArr [] (ECons [] (JScalar (str "2")) [] (ECons [] (JScalar (str "3")) [] ENil))) [] ENil))) in
  ArrayWithinLimit (document [32] three [10]) 2 = false /\ ArrayWithinLimit (document [32] three [10]) 3 = true.
Proof.
  intros three. split.
  - destruct (limits_exact [32] three [10] 2) as [H _]; [reflexivity..|lia|]. exact H.
  - destruct (limits_exact [32] three [10] 3) as [H _]; [reflexivity..|lia|]. exact H.
Defined.
