(* ===== verification/JsonCount.v ===== *)
(** internal/proxy/request_json_count.go, and the request keys of
    request_metadata.go: how many members the nested arrays of a request have,
    counted on the text under a budget. *)

From S2P Require Import Prelude GoStrings GoUtf8 JsonText JsonScan.

(** ** Keys *)

Record requestKey := { rk_raw : bytes; rk_text : option bytes }.

Definition decodeRequestKey (raw : bytes) : option requestKey :=
  match raw with
  | c :: _ :: _ =>
      if negb (c =? quote) || negb (default 0 (last raw) =? quote) then None else
      let inner := removelast (tail raw) in
      if forallb (fun b => negb (b =? backslash)) inner && Utf8Valid inner then
        if forallb (fun b => b <? RuneSelf) inner then Some {| rk_raw := inner; rk_text := None |}
        else Some {| rk_raw := inner; rk_text := Some inner |}
      else
        match Unmarshal_string raw with
        | Some decoded => Some {| rk_raw := inner; rk_text := Some decoded |}
        | None => None
        end
  | _ => None
  end.

Fixpoint asciiKeyEqual (raw name : bytes) : bool :=
  match raw, name with
  | [], [] => true
  | c :: raw, w :: name => (lower c =? lower w) && asciiKeyEqual raw name
  | _, _ => false
  end.

Definition key_equal (k : requestKey) (name : bytes) : bool :=
  match rk_text k with
  | Some text => EqualFold text name
  | None => asciiKeyEqual (rk_raw k) name
  end.

Definition requestKeyEqual (raw : bytes) (name : string) : bool :=
  match decodeRequestKey raw with Some k => key_equal k (str name) | None => false end.

Definition key_text (k : requestKey) : bytes := default (rk_raw k) (rk_text k).

(** The set of distinct keys, and the count reported. *)
Definition countDistinctJSONKey (seen : gset bytes) (k : requestKey) (max : Z) : gset bytes * Z :=
  let n := Z.of_nat (size seen) in
  if bool_decide (key_text k ∈ seen) then (seen, n)
  else if max <=? n then (seen, max + 1)
  else ({[ key_text k ]} ∪ seen, n + 1).

(** ** Counting

    A counter answers [Next] with its count and the text behind the value,
    [Halt] with a count past the budget, or [Bad]. *)

Definition content_member (budget parts : Z) (key v : bytes) : step Z Z :=
  if requestKeyEqual key "content" then
    match CountJSONArrayBytes v (budget - parts) with
    | Some (n, next) => if budget <? parts + n then Halt (parts + n) else Next (parts + n) next
    | None => Bad
    end
  else match SkipJSONValue v with Some next => Next parts next | None => Bad end.
Definition countRequestMessageContentParts (s : bytes) (budget : Z) : step Z Z :=
  match SkipSpace s with
  | [] => Bad
  | c :: r =>
      if c =? lbrace then in_object (content_member budget) 0 r
      else match SkipJSONValue (c :: r) with Some next => Next 0 next | None => Bad end
  end.

(** The two sums over the messages array share their loop; the count is past
    the budget where the loop halted. *)
Definition over_messages (count : bytes -> Z -> step Z Z) (s : bytes) (budget : Z) : option Z :=
  match SkipSpace s with
  | c :: r =>
      if c =? lbracket then
        match in_array (fun total s =>
                match count s (budget - total) with
                | Bad => Bad
                | Halt n => Halt (total + n)
                | Next n next => if budget - total <? n then Halt (total + n) else Next (total + n) next
                end) 0 r with
        | Bad => None
        | Halt n => Some n
        | Next total _ => Some total
        end
      else Some 0
  | [] => Some 0
  end.

Definition countRequestMessagesContentParts (s : bytes) (budget : Z) : option Z :=
  over_messages countRequestMessageContentParts s budget.

Definition calls_member (budget total : Z) (key v : bytes) : step Z Z :=
  if requestKeyEqual key "tool_calls" then
    match CountJSONArrayBytes v (budget - total) with
    | Some (n, next) => if budget <? total + n then Halt (total + n) else Next (total + n) next
    | None => Bad
    end
  else if requestKeyEqual key "function_call" then
    match SkipJSONValue v with
    | Some next =>
        if bool_decide (TrimSpace (token v next) = str "null") then Next total next
        else if budget <? total + 1 then Halt (total + 1) else Next (total + 1) next
    | None => Bad
    end
  else match SkipJSONValue v with Some next => Next total next | None => Bad end.
Definition countRequestMessageToolCalls (s : bytes) (budget : Z) : step Z Z :=
  match SkipSpace s with
  | [] => Bad
  | c :: r =>
      if c =? lbrace then in_object (calls_member budget) 0 r
      else match SkipJSONValue (c :: r) with Some next => Next 0 next | None => Bad end
  end.

Definition countRequestMessagesToolCalls (s : bytes) (budget : Z) : option Z :=
  over_messages countRequestMessageToolCalls s budget.

(** The Responses counters: parts and annotations, and whether one annotation
    array alone was too long. A [Halt] is past a budget or says so. *)
Definition requestAnnotationArrayMax : Z := ContentPartMax.

Definition annotation_member (budget total : Z) (key v : bytes) : step Z (Z * bool) :=
  if requestKeyEqual key "annotations" then
    match CountJSONArrayBytes v requestAnnotationArrayMax with
    | Some (n, next) =>
        if requestAnnotationArrayMax <? n then Halt (total + n, true)
        else if budget <? total + n then Halt (total + n, false)
        else Next (total + n) next
    | None => Bad
    end
  else match SkipJSONValue v with Some next => Next total next | None => Bad end.
Definition countResponsesPartAnnotations (s : bytes) (budget : Z) : step Z (Z * bool) :=
  match SkipSpace s with
  | c :: r => if c =? lbrace then in_object (annotation_member budget) 0 r else Bad
  | [] => Bad
  end.

Definition part_item (partBudget annotationBudget : Z) (st : Z * Z) (s : bytes) : step (Z * Z) (Z * Z * bool) :=
  let '(parts, annotations) := st in
  let parts := parts + 1 in
  if partBudget <? parts then Halt (parts, annotations, false) else
  match s with
  | c :: _ =>
      if c =? lbrace then
        match countResponsesPartAnnotations s (annotationBudget - annotations) with
        | Bad => Bad
        | Halt (n, over) => Halt (parts, annotations + n, over)
        | Next n next =>
            if annotationBudget <? annotations + n then Halt (parts, annotations + n, false)
            else Next (parts, annotations + n) next
        end
      else match SkipJSONValue s with Some next => Next (parts, annotations) next | None => Bad end
  | [] => Bad
  end.
Definition countResponsesPartArray (s : bytes) (partBudget annotationBudget : Z) : step (Z * Z) (Z * Z * bool) :=
  match SkipSpace s with
  | [] => Bad
  | c :: r =>
      if c =? lbracket then in_array (part_item partBudget annotationBudget) (0, 0) r
      else match SkipJSONValue (c :: r) with Some next => Next (0, 0) next | None => Bad end
  end.

(** An inner count added to the outer one. *)
Definition add_counts (partBudget annotationBudget : Z) (st : Z * Z) (inner : step (Z * Z) (Z * Z * bool))
    : step (Z * Z) (Z * Z * bool) :=
  let '(parts, annotations) := st in
  match inner with
  | Bad => Bad
  | Halt (p, a, over) => Halt (parts + p, annotations + a, over)
  | Next (p, a) next =>
      if (partBudget <? parts + p) || (annotationBudget <? annotations + a)
      then Halt (parts + p, annotations + a, false)
      else Next (parts + p, annotations + a) next
  end.

Definition item_member (partBudget annotationBudget : Z) (st : Z * Z) (key v : bytes) : step (Z * Z) (Z * Z * bool) :=
  if requestKeyEqual key "content" || requestKeyEqual key "output"
  then add_counts partBudget annotationBudget st
         (countResponsesPartArray v (partBudget - st.1) (annotationBudget - st.2))
  else match SkipJSONValue v with Some next => Next st next | None => Bad end.
Definition countResponsesInputItemNested (s : bytes) (partBudget annotationBudget : Z) : step (Z * Z) (Z * Z * bool) :=
  match SkipSpace s with
  | c :: r => if c =? lbrace then in_object (item_member partBudget annotationBudget) (0, 0) r else Bad
  | [] => Bad
  end.

Definition input_item (partBudget annotationBudget : Z) (st : Z * Z) (s : bytes) : step (Z * Z) (Z * Z * bool) :=
  match s with
  | c :: _ =>
      if c =? lbrace
      then add_counts partBudget annotationBudget st
             (countResponsesInputItemNested s (partBudget - st.1) (annotationBudget - st.2))
      else match SkipJSONValue s with Some next => Next st next | None => Bad end
  | [] => Bad
  end.
Definition countResponsesInputNested (s : bytes) (partBudget annotationBudget : Z) : step (Z * Z) (Z * Z * bool) :=
  match SkipSpace s with
  | [] => Bad
  | c :: r =>
      if c =? lbracket then in_array (input_item partBudget annotationBudget) (0, 0) r
      else match SkipJSONValue (c :: r) with Some next => Next (0, 0) next | None => Bad end
  end.

Definition keys_member (max : Z) (st : gset bytes * bool) (key v : bytes) : step (gset bytes * bool) Empty_set :=
  let '(seen, over) := st in
  match (if over then Some (seen, over) else
         match decodeRequestKey key with
         | None => None
         | Some k =>
             let '(seen, n) := countDistinctJSONKey seen k max in
             Some (if max <? n then (∅, true) else (seen, false))
         end) with
  | None => Bad
  | Some st =>
      match SkipJSONValue v with
      | Some next => if Nat.leb (length v) (length next) then Bad else Next st next
      | None => Bad
      end
  end.

(** countJSONObjectKeys: the set, the count (past [max] when it is over) and
    the text behind. *)
Definition countJSONObjectKeys (s : bytes) (max : Z) (seen : gset bytes) : option (gset bytes * Z * bytes) :=
  match SkipSpace s with
  | [] => None
  | c :: r =>
      if c =? lbrace then
        match in_object (keys_member max) (seen, false) r with
        | Next (seen, over) next =>
            Some (seen, if over : bool then max + 1 else Z.of_nat (size seen), next)
        | _ => None
        end
      else if bool_decide (take 4 (c :: r) = str "null") then Some (∅, 0, drop 4 (c :: r))
      else match SkipJSONValue (c :: r) with
           | Some next => Some (seen, Z.of_nat (size seen), next)
           | None => None
           end
  end.

(** ** A key is the name encoding/json would match *)

(** Without escapes, decoding a valid string gives its bytes back. *)
Lemma unquote_id k : bytes_ok k -> forallb (fun b => negb (b =? backslash)) k = true -> Utf8Valid k = true -> unquote k = k.
Proof.
  unfold unquote. intros Hok Hb Hv.
  assert (Hgen : forall f s, (length s <= f)%nat -> bytes_ok s -> forallb (fun b => negb (b =? backslash)) s = true ->
    Utf8Valid s = true -> unquote_fuel f s = s); [|by apply Hgen].
  clear. induction f as [|f IH]; intros s Hf Hok Hb Hv; [destruct s; [done|cbn in Hf; lia]|].
  destruct s as [|c r]; [done|]. cbn [unquote_fuel].
  assert (Hc : (c =? backslash) = false) by (cbn in Hb; by destruct (c =? backslash)). rewrite Hc.
  unfold Utf8Valid in Hv. destruct (Z.ltb_spec c RuneSelf) as [Hlt|Hge].
  - apply Forall_cons in Hok as [H0 Hok]. unfold byte_ok in H0.
    rewrite runes_app_ascii in Hv by (unfold RuneSelf in *; lia). cbn in Hv, Hb, Hf.
    rewrite andb_true_iff in Hv, Hb. f_equal. apply IH; [lia|done|tauto|]. unfold Utf8Valid. tauto.
  - rewrite runes_step in Hv by done. pose proof (DecodeRune_size (c :: r) ltac:(done)) as Hn.
    destruct (DecodeRune (c :: r)) as [x n] eqn:Ed. cbn [forallb fst snd] in Hv, Hn.
    apply andb_true_iff in Hv as [Hx Hv]. rewrite (EncodeRune_DecodeRune (c :: r) x n); [|done|done|done|].
    + rewrite IH; [apply take_drop| | | |done].
      * rewrite length_drop. lia.
      * by apply Forall_drop.
      * rewrite <- (take_drop n (c :: r)), forallb_app, andb_true_iff in Hb. tauto.
    + intros [-> ->]. done.
Qed.

Lemma asciiKeyEqual_spec raw name : asciiKeyEqual raw name = bool_decide (map lower raw = map lower name).
Proof.
  revert name. induction raw as [|c raw IH]; intros [|w name]; cbn [asciiKeyEqual map]; try done.
  rewrite IH. destruct (Z.eqb_spec (lower c) (lower w)) as [->|Hne]; cbn.
  - apply bool_decide_ext. split; congruence.
  - symmetry. apply bool_decide_eq_false. congruence.
Qed.

Lemma EqualFold_ascii raw name : forallb (fun b => between 0 127 b) raw = true ->
  forallb (fun b => between 0 127 b) name = true -> EqualFold raw name = asciiKeyEqual raw name.
Proof.
  intros Hr Hn. rewrite asciiKeyEqual_spec. by apply EqualFold_lower.
Qed.

(** A valid key decodes to its unquoted text, and its fast path compares as
    the decoded text would. *)
Lemma decodeRequestKey_spec k : string_body k = true ->
  exists rk, decodeRequestKey (quote :: k ++ [quote]) = Some rk /\ key_text rk = unquote k /\
    (rk_text rk = None -> rk_raw rk = k /\ unquote k = k /\ forallb (fun b => between 0 127 b) k = true).
Proof.
  intros Hk. pose proof (string_body_ok k Hk) as Hok. unfold decodeRequestKey.
  assert (Hlast : last (quote :: k ++ [quote]) = Some quote) by (rewrite app_comm_cons; apply last_snoc).
  assert (Hinner : removelast (tail (quote :: k ++ [quote])) = k) by (cbn [tail]; apply removelast_last).
  rewrite Hlast, Hinner. change (negb (quote =? quote) || negb (default 0 (Some quote) =? quote)) with false. cbn iota.
  assert (Hu : Unmarshal_string (quote :: k ++ [quote]) = Some (unquote k)).
  { unfold Unmarshal_string. unfold string_body in Hk. apply andb_true_iff in Hk as [-> _].
    change (quote =? quote) with true. cbn [andb].
    rewrite length_app. cbn [length]. replace (length k + 1 - 1)%nat with (length k) by lia.
    by rewrite take_app_length. }
  rewrite Hu. destruct (k ++ [quote]) as [|c r] eqn:Ek; [by destruct k|]. cbn iota. clear Ek.
  destruct (forallb (fun b => negb (b =? backslash)) k) eqn:Eb; cbn [andb].
  2: { eexists. split; [done|]. by split. }
  destruct (Utf8Valid k) eqn:Ev.
  2: { eexists. split; [done|]. by split. }
  pose proof (unquote_id k Hok Eb Ev) as Hid. destruct (forallb (fun b => b <? RuneSelf) k) eqn:Ea.
  - eexists. split; [done|]. split; [by rewrite Hid|]. intros _. split; [done|]. split; [done|].
    apply forallb_forall. intros b Hb. rewrite forallb_forall in Ea. specialize (Ea b Hb). apply Z.ltb_lt in Ea.
    unfold bytes_ok in Hok. rewrite Forall_forall in Hok. apply list_elem_of_In in Hb. specialize (Hok b Hb).
    apply between_spec. unfold byte_ok, RuneSelf in *. lia.
  - eexists. split; [done|]. split; [by rewrite Hid|done].
Qed.

Lemma requestKeyEqual_spec k name : string_body k = true ->
  forallb (fun b => between 0 127 b) (str name) = true ->
  requestKeyEqual (quote :: k ++ [quote]) name = EqualFold (unquote k) (str name).
Proof.
  intros Hk Hn. unfold requestKeyEqual. destruct (decodeRequestKey_spec k Hk) as (rk & -> & Ht & Hnone).
  unfold key_equal, key_text in *. destruct (rk_text rk) as [t|]; [by rewrite <- Ht|].
  destruct (Hnone eq_refl) as (-> & -> & Ha). symmetry. by apply EqualFold_ascii.
Qed.

(** ** The counts of a document *)

Definition key_is (k : bytes) (name : string) : bool := EqualFold (unquote k) (str name).

Fixpoint sum_elems (f : json -> Z) (es : elems) : Z :=
  match es with ENil => 0 | ECons _ v _ es => f v + sum_elems f es end.
Fixpoint sum_members (f : bytes -> json -> Z) (ms : members) : Z :=
  match ms with MNil => 0 | MCons _ k _ _ v _ ms => f k v + sum_members f ms end.
Fixpoint any_elem (f : json -> bool) (es : elems) : bool :=
  match es with ENil => false | ECons _ v _ es => f v || any_elem f es end.
Fixpoint any_member (f : bytes -> json -> bool) (ms : members) : bool :=
  match ms with MNil => false | MCons _ k _ _ v _ ms => f k v || any_member f ms end.

Definition in_members (f : bytes -> json -> Z) (v : json) : Z :=
  match v with JObj _ ms => sum_members f ms | _ => 0 end.
Definition in_elems (f : json -> Z) (v : json) : Z :=
  match v with JArr _ es => sum_elems f es | _ => 0 end.
Definition some_member (f : bytes -> json -> bool) (v : json) : bool :=
  match v with JObj _ ms => any_member f ms | _ => false end.
Definition some_elem (f : json -> bool) (v : json) : bool :=
  match v with JArr _ es => any_elem f es | _ => false end.

(** Content parts of a messages array: every [content] array of every message,
    duplicates included; tool calls likewise, the deprecated single call once
    unless it is null. *)
Definition message_parts : json -> Z := in_members (fun k v => if key_is k "content" then array_len v else 0).
Definition messages_parts : json -> Z := in_elems message_parts.
Definition is_null (v : json) : bool := match v with JScalar b => bool_decide (b = str "null") | _ => false end.
Definition message_calls : json -> Z := in_members (fun k v =>
  if key_is k "tool_calls" then array_len v
  else if key_is k "function_call" then if is_null v then 0 else 1
  else 0).
Definition messages_calls : json -> Z := in_elems message_calls.

(** A Responses input: the parts of every content and output array of its item
    objects, and the annotations of those parts. *)
Definition part_annotations : json -> Z := in_members (fun k v => if key_is k "annotations" then array_len v else 0).
Definition part_bad : json -> bool :=
  some_member (fun k v => key_is k "annotations" && (requestAnnotationArrayMax <? array_len v)).
Definition parts_key (k : bytes) : bool := key_is k "content" || key_is k "output".
Definition item_parts : json -> Z := in_members (fun k v => if parts_key k then array_len v else 0).
Definition item_annotations : json -> Z := in_members (fun k v => if parts_key k then in_elems part_annotations v else 0).
Definition item_bad : json -> bool := some_member (fun k v => parts_key k && some_elem part_bad v).
Definition input_parts : json -> Z := in_elems item_parts.
Definition input_annotations : json -> Z := in_elems item_annotations.
Definition input_bad : json -> bool := some_elem item_bad.

Lemma sum_elems_nonneg f es : (forall v, 0 <= f v) -> 0 <= sum_elems f es.
Proof. intros Hf. induction es as [|w1 v w2 es IH]; cbn; [lia|]. specialize (Hf v). lia. Qed.
Lemma sum_members_nonneg f ms : (forall k v, 0 <= f k v) -> 0 <= sum_members f ms.
Proof. intros Hf. induction ms as [|w1 k w2 w3 v w4 ms IH]; cbn; [lia|]. specialize (Hf k v). lia. Qed.
Lemma in_elems_nonneg f v : (forall v, 0 <= f v) -> 0 <= in_elems f v.
Proof. intros Hf. destruct v; cbn; try lia. by apply sum_elems_nonneg. Qed.
Lemma in_members_nonneg f v : (forall k v, 0 <= f k v) -> 0 <= in_members f v.
Proof. intros Hf. destruct v; cbn; try lia. by apply sum_members_nonneg. Qed.

(** ** Counting under a budget *)

(** What a counter does with a value that counts [n]. *)
Definition within (budget n : Z) : Z + unit := if budget <? n then inr tt else inl n.

Lemma run_members_sum f budget : (forall k v, 0 <= f k v) -> forall ms total, total <= budget ->
  run_members (fun total k v => within budget (total + f k v)) total ms = within budget (total + sum_members f ms).
Proof.
  intros Hf. induction ms as [|w1 k w2 w3 v w4 ms IH]; intros total Ht; cbn [run_members sum_members]; unfold within at 1.
  - rewrite Z.add_0_r. unfold within. by destruct (Z.ltb_spec budget total); [lia|].
  - destruct (Z.ltb_spec budget (total + f k v)).
    + unfold within. pose proof (sum_members_nonneg f ms Hf). by destruct (Z.ltb_spec budget (total + (f k v + sum_members f ms))); [|lia].
    + rewrite IH by done. by rewrite Z.add_assoc.
Qed.
Lemma run_elems_sum f budget : (forall v, 0 <= f v) -> forall es total, total <= budget ->
  run_elems (fun total v => within budget (total + f v)) total es = within budget (total + sum_elems f es).
Proof.
  intros Hf. induction es as [|w1 v w2 es IH]; intros total Ht; cbn [run_elems sum_elems]; unfold within at 1.
  - rewrite Z.add_0_r. unfold within. by destruct (Z.ltb_spec budget total); [lia|].
  - destruct (Z.ltb_spec budget (total + f v)).
    + unfold within. pose proof (sum_elems_nonneg f es Hf). by destruct (Z.ltb_spec budget (total + (f v + sum_elems f es))); [|lia].
    + rewrite IH by done. by rewrite Z.add_assoc.
Qed.

Lemma agrees_passes {S R R'} (ok : R -> R' -> Prop) (o : step S R) t x : agrees ok o t x -> passes ok o t x.
Proof. destruct x as [st|x]; [|done]. cbn. intros ->. by exists t. Qed.

Lemma within_le budget n m : within budget n = inl m -> m = n /\ n <= budget.
Proof. unfold within. destruct (Z.ltb_spec budget n); [done|]. by intros [= <-]. Qed.

(** A scanner that passes a value without counting. *)
Lemma passed {R R' St} (ok : R -> R' -> Prop) (st : St) v depth t : wf depth v = true -> ends t ->
  passes ok (match SkipJSONValue (render v ++ t) with Some next => Next st next | None => Bad end) t (inl st).
Proof.
  intros Hv Ht. destruct (SkipJSONValue_render v depth t Hv Ht) as (r & -> & Hr & _). by exists r.
Qed.

(** An array counted inside an object, on top of [total]. *)
Lemma array_counted total budget v depth t : wf depth v = true -> ends t -> total <= budget ->
  passes (fun y (_ : unit) => budget < y)
    (match CountJSONArrayBytes (render v ++ t) (budget - total) with
     | Some (n, next) => if budget <? total + n then Halt (total + n) else Next (total + n) next
     | None => Bad
     end) t (within budget (total + array_len v)).
Proof.
  intros Hv Ht Hle. destruct (CountJSONArrayBytes_render v depth t (budget - total) Hv Ht) as (n & r & -> & -> & Hr); [lia|].
  pose proof (array_len_nonneg v). unfold within. destruct (Z.ltb_spec budget (total + array_len v)).
  - rewrite Z.min_r by lia. destruct (Z.ltb_spec budget (total + (budget - total + 1))); [|lia]. eexists. split; [done|]. lia.
  - rewrite Z.min_l by lia. destruct (Z.ltb_spec budget (total + array_len v)); [lia|]. exists r. split; [done|]. apply Hr. lia.
Qed.

(** The first byte of a value that is not an array, not an object. *)
Lemma not_object v depth t : wf depth v = true -> match v with JObj _ _ => False | _ => True end ->
  exists c r, render v ++ t = c :: r /\ (c =? lbrace) = false.
Proof.
  intros Hv Hn. destruct v as [b|b|w es|w ms]; [by eexists _, _| |by eexists _, _|done].
  pose proof (scalar_head b t Hv) as Hh. cbn [render]. destruct (b ++ t) as [|c r]; [done|]. exists c, r. tauto.
Qed.
Lemma not_array v depth t : wf depth v = true -> match v with JArr _ _ => False | _ => True end ->
  exists c r, render v ++ t = c :: r /\ (c =? lbracket) = false.
Proof.
  intros Hv Hn. destruct v as [b|b|w es|w ms]; [by eexists _, _| |done|by eexists _, _].
  pose proof (scalar_head b t Hv) as Hh. cbn [render]. destruct (b ++ t) as [|c r]; [done|]. exists c, r. tauto.
Qed.

(** A counter that looks inside an object, or passes the value; and inside an
    array. *)
Lemma object_counter {St R R'} (Inv : St -> Prop) (ok : R -> R' -> Prop) member h (zero : St) v depth t :
  wf depth v = true -> ends t -> Inv zero ->
  (forall depth st k v t, string_body k = true -> wf depth v = true -> ends t -> Inv st ->
     passes ok (member st (quote :: k ++ [quote]) (render v ++ t)) t (h st k v) /\
     (forall st', h st k v = inl st' -> Inv st')) ->
  passes ok
    (match SkipSpace (render v ++ t) with
     | [] => Bad
     | c :: r =>
         if c =? lbrace then in_object member zero r
         else match SkipJSONValue (c :: r) with Some next => Next zero next | None => Bad end
     end) t (match v with JObj _ ms => run_members h zero ms | _ => inl zero end).
Proof.
  intros Hv Ht Hz Hm. rewrite (SkipSpace_render v depth t Hv). destruct v as [b|b|w es|w ms].
  4: { cbn [render app]. change (lbrace =? lbrace) with true. cbn iota. rewrite <- !app_assoc. cbn [app].
       cbn [wf] in Hv. rewrite !andb_true_iff in Hv. destruct Hv as [[_ Hw] Hms].
       apply agrees_passes. by apply (in_object_render Inv ok _ _ (depth - 1)); [apply Hm|..]. }
  all: match goal with |- passes _ (match render ?x ++ _ with _ => _ end) _ _ =>
    destruct (not_object x depth t Hv I) as (c & r & Hr & Hc);
    pose proof (passed ok zero x depth t Hv Ht) as Hp; rewrite Hr in Hp |- *; rewrite Hc; exact Hp end.
Qed.

Lemma array_counter {St R R'} (Inv : St -> Prop) (ok : R -> R' -> Prop) item h (zero : St) v depth t :
  wf depth v = true -> ends t -> Inv zero ->
  (forall depth st v t, wf depth v = true -> ends t -> Inv st ->
     passes ok (item st (render v ++ t)) t (h st v) /\ (forall st', h st v = inl st' -> Inv st')) ->
  passes ok
    (match SkipSpace (render v ++ t) with
     | [] => Bad
     | c :: r =>
         if c =? lbracket then in_array item zero r
         else match SkipJSONValue (c :: r) with Some next => Next zero next | None => Bad end
     end) t (match v with JArr _ es => run_elems h zero es | _ => inl zero end).
Proof.
  intros Hv Ht Hz Hm. rewrite (SkipSpace_render v depth t Hv). destruct v as [b|b|w es|w ms].
  3: { cbn [render app]. change (lbracket =? lbracket) with true. cbn iota. rewrite <- !app_assoc. cbn [app].
       cbn [wf] in Hv. rewrite !andb_true_iff in Hv. destruct Hv as [[_ Hw] Hes].
       apply agrees_passes. by apply (in_array_render Inv ok _ _ (depth - 1)); [apply Hm|..]. }
  all: match goal with |- passes _ (match render ?x ++ _ with _ => _ end) _ _ =>
    destruct (not_array x depth t Hv I) as (c & r & Hr & Hc);
    pose proof (passed ok zero x depth t Hv Ht) as Hp; rewrite Hr in Hp |- *; rewrite Hc; exact Hp end.
Qed.

(** ** The counters of the messages *)

(** [counts f count]: on a document the counter finds [f v], or stops past its
    budget. *)
Definition counts (f : json -> Z) (count : bytes -> Z -> step Z Z) : Prop :=
  forall v depth t budget, wf depth v = true -> ends t -> 0 <= budget ->
  passes (fun y (_ : unit) => budget < y) (count (render v ++ t) budget) t (within budget (f v)).

Lemma within_0 budget : 0 <= budget -> within budget 0 = inl 0.
Proof. intros Hb. unfold within. by destruct (Z.ltb_spec budget 0); [lia|]. Qed.

Lemma run_members_total f budget v : (forall k v, 0 <= f k v) -> 0 <= budget ->
  match v with JObj _ ms => run_members (fun total k v => within budget (total + f k v)) 0 ms | _ => inl 0 end =
  within budget (in_members f v).
Proof.
  intros Hf Hb. destruct v; cbn [in_members]; rewrite ?within_0 by done; try done.
  by rewrite run_members_sum.
Qed.
Lemma run_elems_total f budget v : (forall v, 0 <= f v) -> 0 <= budget ->
  match v with JArr _ es => run_elems (fun total v => within budget (total + f v)) 0 es | _ => inl 0 end =
  within budget (in_elems f v).
Proof.
  intros Hf Hb. destruct v; cbn [in_elems]; rewrite ?within_0 by done; try done.
  by rewrite run_elems_sum.
Qed.

Lemma key_count_nonneg name k v : 0 <= (if key_is k name then array_len v else 0).
Proof. destruct (key_is k name); [apply array_len_nonneg|lia]. Qed.

Lemma message_parts_nonneg v : 0 <= message_parts v.
Proof. apply in_members_nonneg. intros k x. apply key_count_nonneg. Qed.

Lemma message_calls_nonneg v : 0 <= message_calls v.
Proof.
  apply in_members_nonneg. intros k x. destruct (key_is k "tool_calls"); [apply array_len_nonneg|].
  destruct (key_is k "function_call"); [|lia]. destruct (is_null x); lia.
Qed.

Lemma message_parts_counted : counts message_parts countRequestMessageContentParts.
Proof.
  intros v depth t budget Hv Ht Hb. unfold message_parts. rewrite <- run_members_total; [|apply key_count_nonneg|done].
  apply (object_counter (fun total => total <= budget) _ _ _ 0 v depth t Hv Ht Hb).
  clear v depth t Hv Ht. intros depth total k v t Hk Hv Ht Hi. unfold content_member. rewrite requestKeyEqual_spec by done.
  fold (key_is k "content"). split; [|intros st' Hst; by apply within_le in Hst as [-> ?]].
  destruct (key_is k "content"); [by apply (array_counted _ _ _ depth)|].
  rewrite Z.add_0_r. unfold within. destruct (Z.ltb_spec budget total); [lia|]. by apply (passed _ _ _ depth).
Qed.

(** ** The raw null test *)

Lemma plain_graphic b : Forall (fun c => plain c = true) b -> Forall graphic b.
Proof.
  intros Hb. eapply Forall_impl; [exact Hb|]. cbn. intros c. unfold plain, digit, graphic.
  rewrite !orb_true_iff, !between_spec, !Z.eqb_eq. lia.
Qed.
Lemma ws_blank w : ws w = true -> Forall ascii_blank w.
Proof.
  unfold ws. rewrite forallb_forall. intros Hw. apply Forall_forall. intros c Hc. apply list_elem_of_In, Hw in Hc.
  unfold jsonSpace, ascii_blank in *. rewrite !orb_true_iff, !Z.eqb_eq in Hc. lia.
Qed.

(** The token SkipJSONValue delimits, trimmed, is null exactly for a null. *)
Lemma null_token v depth t : wf depth v = true -> ends t ->
  exists r, SkipJSONValue (render v ++ t) = Some r /\ SkipSpace r = SkipSpace t /\
    bool_decide (TrimSpace (token (render v ++ t) r) = str "null") = is_null v.
Proof.
  intros Hv Ht. destruct (SkipJSONValue_exact v depth t Hv Ht) as (r & w & Hs & -> & Hw & Hnil).
  exists r. split; [done|]. unfold SkipSpace. rewrite spaces_app by done. split; [done|].
  assert (Htok : token (render v ++ w ++ r) r = render v ++ w).
  { unfold token. rewrite app_assoc, length_app.
    replace (length (render v ++ w) + length r - length r)%nat with (length (render v ++ w)) by lia.
    apply take_app_length. }
  rewrite Htok. destruct v as [b|b|w' es|w' ms]; cbn [is_null].
  2: { destruct (scalar_spec b Hv) as (Hne & Hp & _). cbn [render].
       by rewrite TrimSpace_blanks by (done || by apply plain_graphic || by apply ws_blank). }
  all: subst w; rewrite app_nil_r; apply bool_decide_eq_false; cbn [render];
    match goal with |- TrimSpace (?c :: ?l) <> _ =>
      assert (Hc : graphic c) by (by compute); destruct (TrimSpace_head c l Hc) as [l' ->]; by intros [=] end.
Qed.

Lemma message_calls_counted : counts message_calls countRequestMessageToolCalls.
Proof.
  intros v depth t budget Hv Ht Hb. unfold message_calls. rewrite <- run_members_total; [| |done].
  2: { intros k x. destruct (key_is k "tool_calls"); [apply array_len_nonneg|].
       destruct (key_is k "function_call"); [|lia]. destruct (is_null x); lia. }
  apply (object_counter (fun total => total <= budget) _ _ _ 0 v depth t Hv Ht Hb).
  clear v depth t Hv Ht. intros depth total k v t Hk Hv Ht Hi. unfold calls_member. rewrite !requestKeyEqual_spec by done.
  fold (key_is k "tool_calls") (key_is k "function_call"). split; [|intros st' Hst; by apply within_le in Hst as [-> ?]].
  assert (H0 : within budget (total + 0) = inl total).
  { rewrite Z.add_0_r. unfold within. by destruct (Z.ltb_spec budget total); [lia|]. }
  destruct (key_is k "tool_calls"); [by apply (array_counted _ _ _ depth)|].
  destruct (key_is k "function_call"); [|rewrite H0; by apply (passed _ _ _ depth)].
  destruct (null_token v depth t Hv Ht) as (r & -> & Hr & ->). destruct (is_null v); [rewrite H0; by exists r|].
  unfold within. destruct (Z.ltb_spec budget (total + 1)); [|by exists r]. eexists. split; [done|]. lia.
Qed.

(** The sum over the messages. *)
Lemma over_messages_spec f count : counts f count -> (forall v, 0 <= f v) ->
  forall v depth t budget, wf depth v = true -> ends t -> 0 <= budget ->
  exists n, over_messages count (render v ++ t) budget = Some n /\
    (if budget <? in_elems f v then budget < n else n = in_elems f v).
Proof.
  intros Hc Hf v depth t budget Hv Ht Hb.
  set (item := fun total s => match count s (budget - total) with
     | Bad => Bad
     | Halt n => Halt (total + n)
     | Next n next => if budget - total <? n then Halt (total + n) else Next (total + n) next
     end).
  assert (Hitem : forall depth total v t, wf depth v = true -> ends t -> total <= budget ->
    passes (fun y (_ : unit) => budget < y) (item total (render v ++ t)) t (within budget (total + f v)) /\
    (forall st', within budget (total + f v) = inl st' -> st' <= budget)).
  { clear v depth t Hv Ht. intros depth total v t Hv Ht Hi.
    split; [|intros st' Hst; by apply within_le in Hst as [-> ?]]. unfold item.
    pose proof (Hc v depth t (budget - total) Hv Ht ltac:(lia)) as Hp. unfold within in *.
    destruct (Z.ltb_spec (budget - total) (f v)); destruct (Z.ltb_spec budget (total + f v)); try lia.
    - destruct Hp as (n & -> & Hn). eexists. split; [done|]. cbn in *. lia.
    - destruct Hp as (r & -> & Hr). destruct (Z.ltb_spec (budget - total) (f v)); [lia|]. by exists r. }
  pose proof (array_counter (fun total => total <= budget) (fun y (_ : unit) => budget < y) item
    (fun total v => within budget (total + f v)) 0 v depth t Hv Ht Hb Hitem) as Ha.
  rewrite run_elems_total in Ha by done. unfold over_messages. fold item.
  rewrite (SkipSpace_render v depth t Hv) in *.
  assert (Hnot : match v with JArr _ _ => False | _ => True end -> exists n,
    match render v ++ t with
    | [] => Some 0
    | c :: r => if c =? lbracket then match in_array item 0 r with Bad => None | Halt n => Some n | Next total _ => Some total end
                else Some 0
    end = Some n /\ (if budget <? in_elems f v then budget < n else n = in_elems f v)).
  { intros Hn. destruct (not_array v depth t Hv Hn) as (c & r & -> & ->). exists 0. split; [done|].
    destruct v; cbn [in_elems]; try done; by destruct (Z.ltb_spec budget 0); [lia|]. }
  destruct v as [b|b|w es|w ms]; [by apply Hnot..| |by apply Hnot].
  cbn [render app] in *. change (lbracket =? lbracket) with true in *. cbn iota in *. unfold within in Ha.
  destruct (budget <? in_elems f (JArr w es)).
  - destruct Ha as (n & -> & Hn). by exists n.
  - destruct Ha as (r & -> & _). by eexists.
Qed.

Lemma countRequestMessagesContentParts_spec v depth t budget : wf depth v = true -> ends t -> 0 <= budget ->
  exists n, countRequestMessagesContentParts (render v ++ t) budget = Some n /\
    (if budget <? messages_parts v then budget < n else n = messages_parts v).
Proof. apply over_messages_spec; [apply message_parts_counted|apply message_parts_nonneg]. Qed.

Lemma countRequestMessagesToolCalls_spec v depth t budget : wf depth v = true -> ends t -> 0 <= budget ->
  exists n, countRequestMessagesToolCalls (render v ++ t) budget = Some n /\
    (if budget <? messages_calls v then budget < n else n = messages_calls v).
Proof. apply over_messages_spec; [apply message_calls_counted|apply message_calls_nonneg]. Qed.

(** ** The counters of a Responses input *)

Definition within2 (pb ab p a : Z) (bad : bool) : Z * Z + unit :=
  if (pb <? p) || (ab <? a) || bad then inr tt else inl (p, a).
Definition over2 (pb ab : Z) (y : Z * Z * bool) (_ : unit) : Prop := y.2 = true \/ pb < y.1.1 \/ ab < y.1.2.
Definition inside2 (pb ab : Z) (st : Z * Z) : Prop := st.1 <= pb /\ st.2 <= ab.

Lemma within2_spec pb ab p a bad :
  (within2 pb ab p a bad = inr tt /\ (pb < p \/ ab < a \/ bad = true)) \/
  (within2 pb ab p a bad = inl (p, a) /\ p <= pb /\ a <= ab /\ bad = false).
Proof.
  unfold within2. destruct (Z.ltb_spec pb p), (Z.ltb_spec ab a), bad; cbn [orb]; auto.
Qed.
Lemma within2_inside pb ab p a bad st : within2 pb ab p a bad = inl st -> inside2 pb ab st.
Proof.
  intros Hs. destruct (within2_spec pb ab p a bad) as [[Hw _]|(Hw & ? & ? & _)]; rewrite Hw in Hs; [done|].
  by injection Hs as <-.
Qed.
Lemma within2_0 pb ab : 0 <= pb -> 0 <= ab -> within2 pb ab 0 0 false = inl (0, 0).
Proof. intros Hp Ha. unfold within2. by destruct (Z.ltb_spec pb 0), (Z.ltb_spec ab 0); try lia. Qed.

(** Once past a bound, past it with more. *)
Lemma within2_more pb ab p a bad p' a' bad' : p <= p' -> a <= a' -> (bad = true -> bad' = true) ->
  within2 pb ab p a bad = inr tt -> within2 pb ab p' a' bad' = inr tt.
Proof.
  unfold within2. intros Hp Ha Hb. destruct (Z.ltb_spec pb p), (Z.ltb_spec ab a), bad; cbn [orb]; try done; intros _;
    destruct (Z.ltb_spec pb p'), (Z.ltb_spec ab a'); try lia; cbn [orb]; try done; by rewrite Hb.
Qed.

Lemma run_members_pair pb ab fp fa g : (forall k v, 0 <= fp k v /\ 0 <= fa k v) -> forall ms p a,
  inside2 pb ab (p, a) ->
  run_members (fun '(p, a) k v => within2 pb ab (p + fp k v) (a + fa k v) (g k v)) (p, a) ms =
    within2 pb ab (p + sum_members fp ms) (a + sum_members fa ms) (any_member g ms).
Proof.
  intros Hf. induction ms as [|w1 k w2 w3 v w4 ms IH]; intros p a [Hp Ha]; cbn [run_members sum_members any_member fst snd] in *.
  - rewrite !Z.add_0_r. unfold within2. by destruct (Z.ltb_spec pb p), (Z.ltb_spec ab a); try lia.
  - pose proof (sum_members_nonneg fp ms (fun k v => proj1 (Hf k v))).
    pose proof (sum_members_nonneg fa ms (fun k v => proj2 (Hf k v))).
    destruct (within2_spec pb ab (p + fp k v) (a + fa k v) (g k v)) as [[Hw _]|(Hw & Hp' & Ha' & Hg)]; rewrite Hw.
    + symmetry. eapply within2_more; [| | |exact Hw]; [lia|lia|]. by intros ->.
    + rewrite IH by done. rewrite Hg, !Z.add_assoc. done.
Qed.
Lemma run_elems_pair pb ab fp fa g : (forall v, 0 <= fp v /\ 0 <= fa v) -> forall es p a,
  inside2 pb ab (p, a) ->
  run_elems (fun '(p, a) v => within2 pb ab (p + fp v) (a + fa v) (g v)) (p, a) es =
    within2 pb ab (p + sum_elems fp es) (a + sum_elems fa es) (any_elem g es).
Proof.
  intros Hf. induction es as [|w1 v w2 es IH]; intros p a [Hp Ha]; cbn [run_elems sum_elems any_elem fst snd] in *.
  - rewrite !Z.add_0_r. unfold within2. by destruct (Z.ltb_spec pb p), (Z.ltb_spec ab a); try lia.
  - pose proof (sum_elems_nonneg fp es (fun v => proj1 (Hf v))).
    pose proof (sum_elems_nonneg fa es (fun v => proj2 (Hf v))).
    destruct (within2_spec pb ab (p + fp v) (a + fa v) (g v)) as [[Hw _]|(Hw & Hp' & Ha' & Hg)]; rewrite Hw.
    + symmetry. eapply within2_more; [| | |exact Hw]; [lia|lia|]. by intros ->.
    + rewrite IH by done. rewrite Hg, !Z.add_assoc. done.
Qed.

Lemma part_annotations_nonneg v : 0 <= part_annotations v.
Proof. apply in_members_nonneg. intros k x. apply key_count_nonneg. Qed.

(** One member of a part object; [p] stands for the parts counted meanwhile. *)
Lemma annotation_member_spec depth pb p ab st k v t : string_body k = true -> wf depth v = true -> ends t ->
  p <= pb -> st <= ab ->
  passes (fun y (_ : unit) => y.2 = true \/ ab < y.1) (annotation_member ab st (quote :: k ++ [quote]) (render v ++ t)) t
    (match within2 pb ab p (st + (if key_is k "annotations" then array_len v else 0))
             (key_is k "annotations" && (requestAnnotationArrayMax <? array_len v))
     with inl st => inl st.2 | inr u => inr u end).
Proof.
  intros Hk Hv Ht Hp Hi. unfold annotation_member. rewrite requestKeyEqual_spec by done. fold (key_is k "annotations").
  destruct (key_is k "annotations"); cbn [andb].
  - destruct (CountJSONArrayBytes_render v depth t requestAnnotationArrayMax Hv Ht ltac:(done)) as (n & r & -> & -> & Hr).
    pose proof (array_len_nonneg v).
    destruct (within2_spec pb ab p (st + array_len v) (requestAnnotationArrayMax <? array_len v))
      as [[Hwi Hb]|(Hwi & _ & Ha' & Hb)]; rewrite Hwi; cbn [passes snd].
    + destruct (Z.ltb_spec requestAnnotationArrayMax (array_len v)).
      * destruct (Z.ltb_spec requestAnnotationArrayMax (Z.min (array_len v) (requestAnnotationArrayMax + 1))); [|lia].
        eexists. split; [done|]. by left.
      * rewrite Z.min_l by lia. destruct (Z.ltb_spec requestAnnotationArrayMax (array_len v)); [lia|].
        destruct Hb as [?|[?|?]]; [lia| |done]. destruct (Z.ltb_spec ab (st + array_len v)); [|lia].
        eexists. split; [done|]. by right.
    + apply Z.ltb_ge in Hb. rewrite Z.min_l by lia.
      destruct (Z.ltb_spec requestAnnotationArrayMax (array_len v)); [lia|].
      destruct (Z.ltb_spec ab (st + array_len v)); [lia|]. exists r. split; [done|]. by apply Hr.
  - rewrite Z.add_0_r. destruct (within2_spec pb ab p st false) as [[_ [?|[?|?]]]|(-> & _)]; [lia|lia|done|].
    by apply (passed _ _ _ depth).
Qed.

(** The annotations of one part object, as the second of the two counts. *)
Lemma part_annotations_counted w ms depth t pb p ab : wf depth (JObj w ms) = true -> ends t -> 0 <= ab -> p <= pb ->
  passes (fun y (_ : unit) => y.2 = true \/ ab < y.1) (countResponsesPartAnnotations (render (JObj w ms) ++ t) ab) t
    (match within2 pb ab p (part_annotations (JObj w ms)) (part_bad (JObj w ms)) with
     | inl st => inl st.2 | inr u => inr u end).
Proof.
  intros Hv Ht Ha Hp. unfold countResponsesPartAnnotations. rewrite (SkipSpace_render _ depth t Hv).
  cbn [render app]. change (lbrace =? lbrace) with true. cbn iota. rewrite <- !app_assoc. cbn [app].
  cbn [wf] in Hv. rewrite !andb_true_iff in Hv. destruct Hv as [[_ Hw] Hms].
  unfold part_annotations, part_bad. cbn [in_members some_member].
  set (f := fun k v => if key_is k "annotations" then array_len v else 0).
  set (g := fun k v => key_is k "annotations" && (requestAnnotationArrayMax <? array_len v)).
  assert (Hrun : forall ms total, total <= ab ->
    run_members (fun total k v => match within2 pb ab p (total + f k v) (g k v) with inl st => inl st.2 | inr u => inr u end) total ms =
    match within2 pb ab p (total + sum_members f ms) (any_member g ms) with inl st => inl st.2 | inr u => inr u end).
  { clear -Hp. induction ms as [|w1 k w2 w3 v w4 ms IH]; intros total Hle; cbn [run_members sum_members any_member].
    - rewrite Z.add_0_r. destruct (within2_spec pb ab p total false) as [[_ [?|[?|?]]]|(-> & _)]; [lia|lia|done..].
    - pose proof (sum_members_nonneg f ms (key_count_nonneg _)).
      destruct (within2_spec pb ab p (total + f k v) (g k v)) as [[Hw _]|(Hw & _ & Ha & Hg)]; rewrite Hw.
      + rewrite (within2_more pb ab p (total + f k v) (g k v) p (total + (f k v + sum_members f ms))
          (g k v || any_member g ms)); [done|lia|lia| |done]. by intros ->.
      + cbn [snd]. rewrite IH by done. by rewrite Hg, Z.add_assoc. }
  rewrite <- (Z.add_0_l (sum_members f ms)), <- Hrun by done. apply agrees_passes.
  apply (in_object_render (fun total => total <= ab) _ _ _ (depth - 1)); [|done..].
  intros st k v t' Hk Hv Ht' Hi. split; [by apply (annotation_member_spec (depth - 1))|].
  intros st' Hst. destruct (within2 _ _ _ _ _) eqn:Hwi; [|done]. injection Hst as <-. by apply within2_inside in Hwi as [_ ?].
Qed.

Lemma part_object_only v : match v with JObj _ _ => False | _ => True end ->
  part_annotations v = 0 /\ part_bad v = false /\ item_parts v = 0 /\ item_annotations v = 0 /\ item_bad v = false.
Proof. by destruct v. Qed.

(** One part of a content array. *)
Lemma part_item_spec depth pb ab p a v t : wf depth v = true -> ends t -> inside2 pb ab (p, a) ->
  passes (over2 pb ab) (part_item pb ab (p, a) (render v ++ t)) t
    (within2 pb ab (p + 1) (a + part_annotations v) (part_bad v)).
Proof.
  intros Hv Ht [Hp Ha]. cbn [fst snd] in *. unfold part_item. pose proof (part_annotations_nonneg v).
  destruct (Z.ltb_spec pb (p + 1)) as [Hlt|Hle].
  { unfold within2. destruct (Z.ltb_spec pb (p + 1)); [|lia]. eexists. split; [done|]. right. left. done. }
  assert (Hother : match v with JObj _ _ => False | _ => True end ->
    passes (over2 pb ab) (match SkipJSONValue (render v ++ t) with Some next => Next (p + 1, a) next | None => Bad end) t
      (within2 pb ab (p + 1) (a + part_annotations v) (part_bad v))).
  { intros Hn. destruct (part_object_only v Hn) as (-> & -> & _). rewrite Z.add_0_r. unfold within2.
    destruct (Z.ltb_spec pb (p + 1)); [lia|]. destruct (Z.ltb_spec ab a); [lia|]. by apply (passed _ _ _ depth). }
  destruct v as [b|b|w es|w ms].
  4: { destruct (render_head _ _ Hv) as (c & s & Hr & _). pose proof Hr as Hr'. cbn [render] in Hr. injection Hr as <- <-.
    pose proof (part_annotations_counted w ms depth t pb (p + 1) (ab - a) Hv Ht ltac:(lia) Hle) as Hc.
    rewrite Hr' in *. cbn [app] in *. change (lbrace =? lbrace) with true. cbn iota.
    destruct (within2_spec pb (ab - a) (p + 1) (part_annotations (JObj w ms)) (part_bad (JObj w ms)))
      as [[Hw Hb]|(Hw & _ & Hle2 & Hb)]; rewrite Hw in Hc; cbn [passes snd] in Hc.
    - destruct Hc as ([n over] & -> & Hy). cbn [fst snd] in Hy.
      destruct (within2_spec pb ab (p + 1) (a + part_annotations (JObj w ms)) (part_bad (JObj w ms)))
        as [[-> _]|(_ & _ & ? & Hb')]; [|destruct Hb as [?|[?|?]]; [lia|lia|congruence]].
      eexists. split; [done|]. unfold over2. cbn. destruct Hy; [tauto|right; right; lia].
    - destruct Hc as (r & -> & Hr). rewrite Hb. unfold within2.
      destruct (Z.ltb_spec pb (p + 1)); [lia|].
      destruct (Z.ltb_spec ab (a + part_annotations (JObj w ms))); [lia|]. by exists r. }
  all: match goal with |- passes _ (match render ?x ++ _ with _ => _ end) _ _ =>
    destruct (not_object x depth t Hv I) as (c & r & Hr & Hc); specialize (Hother I); rewrite Hr in *;
    rewrite Hc; exact Hother end.
Qed.

Lemma run_elems_pair_total pb ab fp fa g v : (forall v, 0 <= fp v /\ 0 <= fa v) -> 0 <= pb -> 0 <= ab ->
  match v with
  | JArr _ es => run_elems (fun '(p, a) v => within2 pb ab (p + fp v) (a + fa v) (g v)) (0, 0) es
  | _ => inl (0, 0)
  end = within2 pb ab (in_elems fp v) (in_elems fa v) (some_elem g v).
Proof.
  intros Hf Hp Ha. destruct v; cbn [in_elems some_elem]; rewrite ?within2_0 by done; try done.
  by rewrite run_elems_pair.
Qed.
Lemma run_members_pair_total pb ab fp fa g v : (forall k v, 0 <= fp k v /\ 0 <= fa k v) -> 0 <= pb -> 0 <= ab ->
  match v with
  | JObj _ ms => run_members (fun '(p, a) k v => within2 pb ab (p + fp k v) (a + fa k v) (g k v)) (0, 0) ms
  | _ => inl (0, 0)
  end = within2 pb ab (in_members fp v) (in_members fa v) (some_member g v).
Proof.
  intros Hf Hp Ha. destruct v; cbn [in_members some_member]; rewrite ?within2_0 by done; try done.
  by rewrite run_members_pair.
Qed.

Lemma array_len_sum v : in_elems (fun _ => 1) v = array_len v.
Proof. destruct v as [b|b|w es|w ms]; try done. cbn. induction es; cbn; lia. Qed.

Lemma countResponsesPartArray_spec depth pb ab v t : wf depth v = true -> ends t -> 0 <= pb -> 0 <= ab ->
  passes (over2 pb ab) (countResponsesPartArray (render v ++ t) pb ab) t
    (within2 pb ab (array_len v) (in_elems part_annotations v) (some_elem part_bad v)).
Proof.
  intros Hv Ht Hp Ha. rewrite <- array_len_sum, <- run_elems_pair_total; [|split; [lia|apply part_annotations_nonneg]|done..].
  apply (array_counter (inside2 pb ab) _ _ _ (0, 0) v depth t Hv Ht); [done|].
  intros d [p a] x t' Hx Ht' Hi. split; [by apply (part_item_spec d)|]. intros st'. apply within2_inside.
Qed.

(** A nested count, on top of what the outer one has. *)
Lemma add_counts_spec pb ab p a n m bad o t : inside2 pb ab (p, a) -> 0 <= n -> 0 <= m ->
  passes (over2 (pb - p) (ab - a)) o t (within2 (pb - p) (ab - a) n m bad) ->
  passes (over2 pb ab) (add_counts pb ab (p, a) o) t (within2 pb ab (p + n) (a + m) bad).
Proof.
  intros [Hp Ha] Hn Hm Ho. cbn [fst snd] in *. unfold add_counts.
  destruct (within2_spec (pb - p) (ab - a) n m bad) as [[Hw Hb]|(Hw & ? & ? & ->)]; rewrite Hw in Ho; cbn [passes] in Ho.
  - destruct Ho as ([[n' m'] over] & -> & Hy). unfold over2 in Hy. cbn [fst snd] in Hy.
    destruct (within2_spec pb ab (p + n) (a + m) bad) as [[-> _]|(_ & ? & ? & ->)].
    2: { destruct Hb as [?|[?|?]]; [lia|lia|done]. }
    eexists. split; [done|]. unfold over2. cbn. destruct Hy as [?|[?|?]]; [tauto|right; left; lia|right; right; lia].
  - destruct Ho as (r & -> & Hr). unfold within2.
    destruct (Z.ltb_spec pb (p + n)); [lia|]. destruct (Z.ltb_spec ab (a + m)); [lia|]. by exists r.
Qed.

Lemma item_counts_nonneg v : 0 <= item_parts v /\ 0 <= item_annotations v.
Proof.
  split; apply in_members_nonneg; intros k x; destruct (parts_key k); try lia; [apply array_len_nonneg|].
  apply in_elems_nonneg, part_annotations_nonneg.
Qed.

Lemma item_member_spec depth pb ab p a k v t : string_body k = true -> wf depth v = true -> ends t -> inside2 pb ab (p, a) ->
  passes (over2 pb ab) (item_member pb ab (p, a) (quote :: k ++ [quote]) (render v ++ t)) t
    (within2 pb ab (p + (if parts_key k then array_len v else 0))
       (a + (if parts_key k then in_elems part_annotations v else 0)) (parts_key k && some_elem part_bad v)).
Proof.
  intros Hk Hv Ht Hi. unfold item_member. rewrite !requestKeyEqual_spec by done.
  fold (key_is k "content") (key_is k "output") (parts_key k). destruct (parts_key k); cbn [andb fst snd].
  - destruct Hi as [Hp Ha]. cbn [fst snd] in *. apply add_counts_spec; [done|apply array_len_nonneg| |].
    + apply in_elems_nonneg, part_annotations_nonneg.
    + apply (countResponsesPartArray_spec depth); [done|done|lia|lia].
  - rewrite !Z.add_0_r. destruct (within2_spec pb ab p a false) as [[_ Hb]|(-> & _)]; [|by apply (passed _ _ _ depth)].
    destruct Hi, Hb as [?|[?|?]]; cbn in *; [lia|lia|done].
Qed.

Lemma input_item_spec depth pb ab p a v t : wf depth v = true -> ends t -> inside2 pb ab (p, a) ->
  passes (over2 pb ab) (input_item pb ab (p, a) (render v ++ t)) t
    (within2 pb ab (p + item_parts v) (a + item_annotations v) (item_bad v)).
Proof.
  intros Hv Ht Hi. pose proof (item_counts_nonneg v) as [Hn Hm].
  assert (Hother : match v with JObj _ _ => False | _ => True end ->
    passes (over2 pb ab) (match SkipJSONValue (render v ++ t) with Some next => Next (p, a) next | None => Bad end) t
      (within2 pb ab (p + item_parts v) (a + item_annotations v) (item_bad v))).
  { intros Hno. destruct (part_object_only v Hno) as (_ & _ & -> & -> & ->). rewrite !Z.add_0_r.
    destruct (within2_spec pb ab p a false) as [[_ Hb]|(-> & _)]; [|by apply (passed _ _ _ depth)].
    destruct Hi, Hb as [?|[?|?]]; cbn in *; [lia|lia|done]. }
  unfold input_item. destruct v as [b|b|w es|w ms].
  4: { destruct (render_head _ _ Hv) as (c & s & Hr & _). pose proof Hr as Hr'. cbn [render] in Hr. injection Hr as <- <-.
    destruct Hi as [Hp Ha]. cbn [fst snd] in *.
    assert (Hc : passes (over2 (pb - p) (ab - a)) (countResponsesInputItemNested (render (JObj w ms) ++ t) (pb - p) (ab - a)) t
      (within2 (pb - p) (ab - a) (item_parts (JObj w ms)) (item_annotations (JObj w ms)) (item_bad (JObj w ms)))).
    { unfold item_parts, item_annotations, item_bad. rewrite <- run_members_pair_total; [| |lia|lia].
      2: { intros k x. destruct (parts_key k); [|lia]. split; [apply array_len_nonneg|].
           apply in_elems_nonneg, part_annotations_nonneg. }
      unfold countResponsesInputItemNested. rewrite (SkipSpace_render _ depth t Hv).
      cbn [render app]. change (lbrace =? lbrace) with true. cbn iota. rewrite <- !app_assoc. cbn [app].
      cbn [wf] in Hv. rewrite !andb_true_iff in Hv. destruct Hv as [[_ Hw] Hms]. apply agrees_passes.
      apply (in_object_render (inside2 (pb - p) (ab - a)) _ _ _ (depth - 1)); [|done|done|split; cbn; lia].
      intros [p' a'] k x t' Hk Hx Ht' Hi'. split; [by apply (item_member_spec (depth - 1))|]. intros st'. apply within2_inside. }
    rewrite Hr' in *. cbn [app] in *. change (lbrace =? lbrace) with true. cbn iota. cbn [fst snd].
    apply add_counts_spec; [done|done|done|]. exact Hc. }
  all: match goal with |- passes _ (match render ?x ++ _ with _ => _ end) _ _ =>
    destruct (not_object x depth t Hv I) as (c & r & Hr & Hc); specialize (Hother I); rewrite Hr in *;
    rewrite Hc; exact Hother end.
Qed.

Lemma countResponsesInputNested_spec depth pb ab v t : wf depth v = true -> ends t -> 0 <= pb -> 0 <= ab ->
  passes (over2 pb ab) (countResponsesInputNested (render v ++ t) pb ab) t
    (within2 pb ab (input_parts v) (input_annotations v) (input_bad v)).
Proof.
  intros Hv Ht Hp Ha. unfold input_parts, input_annotations, input_bad.
  rewrite <- run_elems_pair_total; [|apply item_counts_nonneg|done..].
  apply (array_counter (inside2 pb ab) _ _ _ (0, 0) v depth t Hv Ht); [done|].
  intros d [p a] x t' Hx Ht' Hi. split; [by apply (input_item_spec d)|]. intros st'. apply within2_inside.
Qed.

(** ** Distinct keys *)

Fixpoint member_keys (ms : members) : gset bytes :=
  match ms with MNil => ∅ | MCons _ k _ _ _ _ ms => {[ unquote k ]} ∪ member_keys ms end.

Lemma key_equal_spec k rk name : string_body k = true -> forallb (fun b => between 0 127 b) (str name) = true ->
  decodeRequestKey (quote :: k ++ [quote]) = Some rk -> key_equal rk (str name) = key_is k name.
Proof.
  intros Hk Hn Hd. pose proof (requestKeyEqual_spec k name Hk Hn) as Hs. unfold requestKeyEqual in Hs. by rewrite Hd in Hs.
Qed.

Definition card (s : gset bytes) : Z := Z.of_nat (size s).

(** One more key: the exact set, or past the bound. *)
Lemma countDistinct_spec seen k max : card seen <= max ->
  let all := {[ key_text k ]} ∪ seen in
  (max < card all /\ (countDistinctJSONKey seen k max).2 = max + 1) \/
  (card all <= max /\ countDistinctJSONKey seen k max = (all, card all)).
Proof.
  intros Hle all. unfold countDistinctJSONKey. fold (card seen).
  destruct (decide (key_text k ∈ seen)) as [Hin|Hni].
  - rewrite bool_decide_true by done. assert (all = seen) as -> by set_solver. right. done.
  - rewrite bool_decide_false by done.
    assert (Hc : card all = card seen + 1).
    { unfold card, all. rewrite size_union by set_solver. rewrite size_singleton. lia. }
    destruct (Z.leb_spec max (card seen)); [left; split; [lia|done]|right; split; [lia|by rewrite Hc]].
Qed.

(** The distinct keys after an object: the union, or the mark that it is too
    large. *)
Definition merge_keys (max : Z) (st : gset bytes * bool) (ks : gset bytes) : gset bytes * bool :=
  if st.2 then st else if max <? card (ks ∪ st.1) then (∅, true) else (ks ∪ st.1, false).

Definition keys_ok (max : Z) (st : gset bytes * bool) : Prop :=
  (st.2 = true -> st.1 = ∅) /\ card st.1 <= max.

Lemma merge_ok max st ks : 0 <= max -> keys_ok max st -> keys_ok max (merge_keys max st ks).
Proof.
  intros Hmax [H1 H2]. unfold merge_keys. destruct st as [seen over]. cbn in *. destruct over; [done|].
  unfold keys_ok. destruct (Z.ltb_spec max (card (ks ∪ seen))); cbn [fst snd]; (split; [done|]); [|done].
  unfold card. by rewrite size_empty.
Qed.

Lemma merge_merge max st a b : merge_keys max (merge_keys max st a) b = merge_keys max st (a ∪ b).
Proof.
  unfold merge_keys. destruct st as [seen over]. cbn in *. destruct over; [done|].
  assert (Hm : card (a ∪ seen) <= card (a ∪ b ∪ seen)).
  { unfold card. apply Nat2Z.inj_le, subseteq_size. set_solver. }
  destruct (Z.ltb_spec max (card (a ∪ seen))); cbn.
  - destruct (Z.ltb_spec max (card (a ∪ b ∪ seen))); [done|lia].
  - by replace (b ∪ (a ∪ seen)) with (a ∪ b ∪ seen) by set_solver.
Qed.

Lemma run_members_keys max ms : forall st, keys_ok max st ->
  run_members (R' := Empty_set) (fun st k _ => inl (merge_keys max st {[ unquote k ]})) st ms =
    inl (merge_keys max st (member_keys ms)).
Proof.
  induction ms as [|w1 k w2 w3 v w4 ms IH]; intros st Hst; cbn [run_members member_keys].
  - unfold merge_keys. destruct st as [seen over], Hst as [_ Hle]. cbn in *. destruct over; [done|].
    rewrite (left_id_L ∅ (∪)). by destruct (Z.ltb_spec max (card seen)); [lia|].
  - assert (0 <= max) by (destruct Hst as [_ Hle]; unfold card in Hle; lia).
    rewrite IH by (by apply merge_ok). by rewrite merge_merge.
Qed.

Lemma keys_member_spec depth max st k v t : string_body k = true -> wf depth v = true -> ends t -> keys_ok max st ->
  passes (fun _ (_ : Empty_set) => False) (keys_member max st (quote :: k ++ [quote]) (render v ++ t)) t
    (inl (merge_keys max st {[ unquote k ]})).
Proof.
  intros Hk Hv Ht [Hs Hle]. destruct st as [seen over]. cbn [fst snd] in *. unfold keys_member.
  destruct (decodeRequestKey_spec k Hk) as (rk & -> & Htext & _).
  destruct (SkipJSONValue_render v depth t Hv Ht) as (r & -> & Hr & Hlen).
  destruct (Nat.leb_spec (length (render v ++ t)) (length r)) as [Hb|_].
  { rewrite length_app in Hb. pose proof (value_nonempty v depth Hv). lia. }
  unfold merge_keys. cbn [fst snd]. destruct over; [by exists r|].
  pose proof (countDistinct_spec seen rk max Hle) as Hd. rewrite Htext in Hd. cbn zeta in Hd.
  destruct (countDistinctJSONKey seen rk max) as [seen' n]. cbn [snd] in Hd.
  destruct Hd as [[Hc ->]|[Hc [= -> ->]]].
  - destruct (Z.ltb_spec max (card ({[unquote k]} ∪ seen))); [|lia]. destruct (Z.ltb_spec max (max + 1)); [|lia]. by exists r.
  - destruct (Z.ltb_spec max (card ({[unquote k]} ∪ seen))); [lia|]. by exists r.
Qed.

(** What one value does to the accumulated keys: an object adds its own, null
    starts over, anything else leaves them. *)
Definition keys_after (max : Z) (seen : gset bytes) (v : json) : gset bytes * bool :=
  match v with
  | JObj _ ms => merge_keys max (seen, false) (member_keys ms)
  | _ => if is_null v then (∅, false) else (seen, false)
  end.

Lemma null_prefix b t : scalar_text b = true -> delim t ->
  bool_decide (take 4 (b ++ t) = str "null") = bool_decide (b = str "null").
Proof.
  intros Hb Ht. apply bool_decide_ext. split; [|by intros ->]. intros Htake.
  unfold scalar_text in Hb. rewrite bool_decide_eq_true in Hb.
  destruct b as [|c b]; [done|]. cbn in Htake. injection Htake as -> Htake.
  unfold json_scalar in Hb. cbn [Z.eqb Pos.eqb] in Hb. apply strip_prefix_spec in Hb. by rewrite app_nil_r in Hb.
Qed.

Lemma countJSONObjectKeys_spec depth max seen v t : wf depth v = true -> ends t -> card seen <= max ->
  exists r, countJSONObjectKeys (render v ++ t) max seen =
      Some ((keys_after max seen v).1,
            (if (keys_after max seen v).2 then max + 1 else card (keys_after max seen v).1), r) /\
    SkipSpace r = SkipSpace t.
Proof.
  intros Hv Ht Hle. unfold countJSONObjectKeys. pose proof (SkipSpace_render v depth t Hv) as Hsp. rewrite Hsp.
  assert (Hpass : match v with JStr _ | JArr _ _ => True | JScalar b => b <> str "null" | _ => False end ->
    exists r, match SkipJSONValue (render v ++ t) with
      | Some next => Some (seen, Z.of_nat (size seen), next) | None => None end =
      Some (seen, card seen, r) /\ SkipSpace r = SkipSpace t).
  { intros _. destruct (SkipJSONValue_render v depth t Hv Ht) as (r & -> & Hr & _). by exists r. }
  destruct v as [b|b|w es|w ms]; cbn [keys_after is_null].
  - by apply Hpass.
  - pose proof (scalar_head b t Hv) as Hh. cbn [render] in *.
    pose proof (null_prefix b t Hv (ends_delim t Ht)) as Hn.
    destruct (b ++ t) as [|c r] eqn:Ebt; [done|]. destruct Hh as (_ & _ & ->). rewrite Hn.
    destruct (decide (b = str "null")) as [->|Hb].
    + rewrite bool_decide_true by done. cbn [fst snd]. exists t. injection Ebt as <- <-. done.
    + rewrite bool_decide_false by done. by apply Hpass.
  - by apply Hpass.
  - cbn [render app]. change (lbrace =? lbrace) with true. cbn iota. rewrite <- !app_assoc. cbn [app].
    cbn [wf] in Hv. rewrite !andb_true_iff in Hv. destruct Hv as [[_ Hw] Hms].
    assert (Hok : keys_ok max (seen, false)) by done.
    pose proof (in_object_render (keys_ok max) (fun _ (_ : Empty_set) => False) (keys_member max)
      (fun st k _ => inl (merge_keys max st {[ unquote k ]})) (depth - 1) w ms (seen, false) t) as Ha.
    rewrite run_members_keys in Ha by done. cbn [agrees] in Ha. rewrite Ha; [|clear Ha|done|done|done].
    + destruct (merge_keys max (seen, false) (member_keys ms)) as [seen' over']. by exists t.
    + intros st k v t' Hk Hv Ht' Hi. split; [by apply (keys_member_spec (depth - 1))|].
      intros st' [= <-]. apply merge_ok; [|done]. unfold card in Hle. lia.
Qed.

(** ** The members of a document

    What the readers of a request are judged by: the members of the top-level
    object, their decoded keys and their values. *)

Fixpoint entries (ms : members) : list (bytes * json) :=
  match ms with MNil => [] | MCons _ k _ _ v _ ms => (unquote k, v) :: entries ms end.

Definition named (k : bytes) (name : string) : bool := EqualFold k (str name).

Definition top_entries (v : json) : list (bytes * json) := match v with JObj _ ms => entries ms | _ => [] end.

Lemma members_quote ms depth t : wf_members depth ms = true -> ms <> MNil ->
  head (SkipSpace (render_members ms ++ rbrace :: t)) = Some quote.
Proof.
  destruct ms as [|w1 k w2 w3 v w4 ms]; [done|]. cbn [wf_members]. rewrite !andb_true_iff. intros [[[[[[Hw _] _] _] _] _] _] _.
  unfold SkipSpace. by rewrite render_members_cons, spaces_app, spaces_closing by (done || tauto).
Qed.


(** The token of a value that SkipJSONValue delimits: the value, give or take
    white space. *)
Lemma value_token v depth t : wf depth v = true -> ends t ->
  exists r w, SkipJSONValue (render v ++ t) = Some r /\ SkipSpace r = SkipSpace t /\
    token (render v ++ t) r = render v ++ w /\ ws w = true /\ match v with JScalar _ => True | _ => w = [] end.
Proof.
  intros Hv Ht. destruct (SkipJSONValue_exact v depth t Hv Ht) as (r & w & Hs & -> & Hw & Hnil).
  exists r, w. split; [done|]. split; [unfold SkipSpace; by rewrite spaces_app|].
  split; [|done]. unfold token. rewrite app_assoc, length_app.
  replace (length (render v ++ w) + length r - length r)%nat with (length (render v ++ w)) by lia.
  apply take_app_length.
Qed.

