(* ===== verification/Preflight.v ===== *)
(** internal/proxy/request_metadata.go, boundRequestMetadata: the lexical
    preflight that refuses a request whose collections would expand past their
    bounds, and never refuses a text that is not JSON. *)

From S2P Require Import Prelude GoStrings GoUtf8 JsonText JsonScan JsonCount.

(** ** The program *)

Definition requestMetadataMaxElements : Z := 10000.
Definition requestContentPartsMax : Z := 16384.
Definition requestAnnotationsMax : Z := 10000.

(** The canonical collection names; [None] is the source's empty name. *)
Inductive collection_name :=
  Messages | Tools | Functions | Input | Metadata | StreamOptions | LogitBias | Stop | Modalities.
#[export] Instance collection_name_eq_dec : EqDecision collection_name.
Proof. solve_decision. Defined.

Definition collection (k : requestKey) : option collection_name :=
  if key_equal k (str "messages") then Some Messages
  else if key_equal k (str "tools") then Some Tools
  else if key_equal k (str "functions") then Some Functions
  else if key_equal k (str "input") then Some Input
  else if key_equal k (str "metadata") then Some Metadata
  else if key_equal k (str "stream_options") then Some StreamOptions
  else if key_equal k (str "logit_bias") then Some LogitBias
  else if key_equal k (str "stop") || key_equal k (str "stop_sequences") then Some Stop
  else if key_equal k (str "modalities") then Some Modalities
  else None.

(** The errors boundRequestMetadata formats. *)
Inductive reject :=
  InvalidBound | MembersOver | ElementsOver (c : collection_name) | PartsOver | CallsOver (max : Z)
  | AnnotationArrayOver | AnnotationsOver | LogitBiasOver | MetadataOver | StreamOptionsOver.

Definition requestMetadataOverflow (body : bytes) (e : reject) : option reject :=
  if json_Valid body then Some e else None.

(** What the scan keeps between two members: [metadataFirst] is the text at
    metadataFirstStart, [streamOptions] the retained span. *)
Record scan := Scan {
  memberSeen : gset bytes;
  logitSeen : gset bytes;
  logitOver : bool;
  metadataSeen : option (gset bytes);
  metadataObjects : Z;
  metadataFirst : bytes;
  metadataFirstOver : bool;
  metadataOver : bool;
  contentParts : Z;
  annotationParts : Z;
  toolCalls : Z;
  streamOptions : option bytes;
}.
Definition scan0 : scan := Scan ∅ ∅ false None 0 [] false false 0 0 0 None.

Definition set_members (seen : gset bytes) (s : scan) : scan :=
  Scan seen (logitSeen s) (logitOver s) (metadataSeen s) (metadataObjects s) (metadataFirst s)
    (metadataFirstOver s) (metadataOver s) (contentParts s) (annotationParts s) (toolCalls s) (streamOptions s).
Definition set_logit (seen : gset bytes) (over : bool) (s : scan) : scan :=
  Scan (memberSeen s) seen over (metadataSeen s) (metadataObjects s) (metadataFirst s)
    (metadataFirstOver s) (metadataOver s) (contentParts s) (annotationParts s) (toolCalls s) (streamOptions s).
Definition set_metadata (seen : option (gset bytes)) (objects : Z) (first : bytes) (firstOver over : bool) (s : scan) : scan :=
  Scan (memberSeen s) (logitSeen s) (logitOver s) seen objects first firstOver over
    (contentParts s) (annotationParts s) (toolCalls s) (streamOptions s).
Definition set_counts (parts annotations calls : Z) (s : scan) : scan :=
  Scan (memberSeen s) (logitSeen s) (logitOver s) (metadataSeen s) (metadataObjects s) (metadataFirst s)
    (metadataFirstOver s) (metadataOver s) parts annotations calls (streamOptions s).
Definition set_stream (span : bytes) (s : scan) : scan :=
  Scan (memberSeen s) (logitSeen s) (logitOver s) (metadataSeen s) (metadataObjects s) (metadataFirst s)
    (metadataFirstOver s) (metadataOver s) (contentParts s) (annotationParts s) (toolCalls s) (Some span).

(** The cases of the switch, on the text [v] at the value. *)
Definition passed_over (st : scan) (v : bytes) : step scan reject :=
  match SkipJSONValue v with Some next => Next st next | None => Bad end.

Definition array_value (c : collection_name) (st : scan) (v : bytes) : step scan reject :=
  match CountJSONArrayBytes v requestMetadataMaxElements with
  | None => Bad
  | Some (n, next) =>
      if requestMetadataMaxElements <? n then Halt (ElementsOver c) else Next st next
  end.

Definition messages_value (callsMax : Z) (st : scan) (v : bytes) : step scan reject :=
  match CountJSONArrayBytes v requestMetadataMaxElements with
  | None => Bad
  | Some (n, next) =>
      if requestMetadataMaxElements <? n then Halt (ElementsOver Messages) else
      if 0 <? n then
        match countRequestMessagesContentParts v (requestContentPartsMax - contentParts st) with
        | None => Bad
        | Some parts =>
            if requestContentPartsMax - contentParts st <? parts then Halt PartsOver else
            let parts := contentParts st + parts in
            match countRequestMessagesToolCalls v (callsMax - toolCalls st) with
            | None => Bad
            | Some calls =>
                if callsMax - toolCalls st <? calls then Halt (CallsOver callsMax) else
                Next (set_counts parts (annotationParts st) (toolCalls st + calls) st) next
            end
        end
      else Next st next
  end.

(** The results of countResponsesInputNested, the text behind with them. *)
Definition nested_result (o : step (Z * Z) (Z * Z * bool)) : option (Z * Z * bytes * bool) :=
  match o with
  | Bad => None
  | Halt (parts, annotations, over) => Some (parts, annotations, [], over)
  | Next (parts, annotations) next => Some (parts, annotations, next, false)
  end.

Definition input_value (st : scan) (v : bytes) : step scan reject :=
  match CountJSONArrayBytes v requestMetadataMaxElements with
  | None => Bad
  | Some (n, next) =>
      if requestMetadataMaxElements <? n then Halt (ElementsOver Input) else
      if 0 <? n then
        match nested_result (countResponsesInputNested v
                (requestContentPartsMax - contentParts st) (requestAnnotationsMax - annotationParts st)) with
        | None => Bad
        | Some (parts, annotations, nestedNext, annotationArrayOver) =>
            if annotationArrayOver : bool then Halt AnnotationArrayOver
            else if requestContentPartsMax - contentParts st <? parts then Halt PartsOver
            else if requestAnnotationsMax - annotationParts st <? annotations then Halt AnnotationsOver
            else Next (set_counts (contentParts st + parts) (annotationParts st + annotations) (toolCalls st) st) nestedNext
        end
      else Next st next
  end.

(** One more metadata object while the merged keys are within the bound: the
    first object's keys are decoded when the second one comes. *)
Definition merged_metadata (st : scan) (v : bytes) : option (gset bytes * bool) :=
  match (match metadataSeen st with
         | Some seen => Some (seen, false)
         | None =>
             match countJSONObjectKeys (metadataFirst st) requestMetadataMaxElements ∅ with
             | None => None
             | Some (seen, n, _) => Some (seen, requestMetadataMaxElements <? n)
             end
         end) with
  | None => None
  | Some (seen, true) => Some (seen, true)
  | Some (seen, false) =>
      match countJSONObjectKeys v requestMetadataMaxElements seen with
      | None => None
      | Some (seen, n, _) => Some (seen, requestMetadataMaxElements <? n)
      end
  end.

Definition metadata_value (st : scan) (v : bytes) : step scan reject :=
  match SkipJSONValue v with
  | None => Bad
  | Some next =>
      let raw := token v next in
      match SkipSpace raw with
      | c :: _ =>
          if c =? 110 then Next (set_metadata None 0 [] false false st) next
          else if c =? lbrace then
            let objects := metadataObjects st + 1 in
            let rawOK := ObjectWithinLimit raw requestMetadataMaxElements in
            if objects =? 1 then
              Next (set_metadata (metadataSeen st) objects v (negb rawOK) (metadataOver st) st) next
            else if metadataOver st then
              Next (set_metadata (metadataSeen st) objects (metadataFirst st) (metadataFirstOver st) true st) next
            else
              match merged_metadata st v with
              | None => Bad
              | Some (seen, over) =>
                  Next (set_metadata (Some seen) objects (metadataFirst st) (metadataFirstOver st) over st) next
              end
          else Next st next
      | [] => Next st next
      end
  end.

Definition stream_value (st : scan) (v : bytes) : step scan reject :=
  match SkipJSONValue v with
  | None => Bad
  | Some next => Next (set_stream (token v next) st) next
  end.

Definition logit_value (st : scan) (v : bytes) : step scan reject :=
  if logitOver st then passed_over st v else
  match countJSONObjectKeys v requestMetadataMaxElements (logitSeen st) with
  | None => Bad
  | Some (seen, n, next) => Next (set_logit seen (requestMetadataMaxElements <? n) st) next
  end.

Definition system_value (st : scan) (v : bytes) : step scan reject :=
  match CountJSONArrayBytes v (requestContentPartsMax - contentParts st) with
  | None => Bad
  | Some (n, next) =>
      if requestContentPartsMax - contentParts st <? n then Halt PartsOver
      else Next (set_counts (contentParts st + n) (annotationParts st) (toolCalls st) st) next
  end.

Definition member_value (callsMax : Z) (st : scan) (key : requestKey) (v : bytes) : step scan reject :=
  match collection key with
  | Some Messages => messages_value callsMax st v
  | Some Input => input_value st v
  | Some Metadata => metadata_value st v
  | Some StreamOptions => stream_value st v
  | Some LogitBias => logit_value st v
  | Some ((Tools | Functions | Modalities | Stop) as c) => array_value c st v
  | None => if key_equal key (str "system") then system_value st v else passed_over st v
  end.

(** The loop over the top-level members: the input may end behind a comma, and
    the loop with it. *)
Fixpoint top_members (callsMax : Z) (fuel : nat) (st : scan) (s : bytes) : step scan reject :=
  match s with
  | [] => Next st []
  | _ =>
  match fuel with
  | O => Bad
  | S fuel =>
      match SkipJSONString s with
      | None => Bad
      | Some after =>
          match decodeRequestKey (token s after) with
          | None => Bad
          | Some key =>
              let '(seen, n) := countDistinctJSONKey (memberSeen st) key requestMetadataMaxElements in
              if requestMetadataMaxElements <? n then Halt MembersOver else
              let st := set_members seen st in
              match SkipSpace after with
              | d :: r =>
                  if d =? colon then
                    match SkipSpace r with
                    | [] => Bad
                    | e :: v =>
                        match member_value callsMax st key (e :: v) with
                        | Bad => Bad
                        | Halt x => Halt x
                        | Next st rest =>
                            match SkipSpace rest with
                            | f :: r =>
                                if f =? rbrace then Next st r
                                else if f =? comma then top_members callsMax fuel st (SkipSpace r)
                                else Bad
                            | [] => Bad
                            end
                        end
                    end
                  else Bad
              | [] => Bad
              end
          end
      end
  end
  end.

Definition after_members (st : scan) : option reject :=
  if logitOver st then Some LogitBiasOver
  else if metadataOver st || ((metadataObjects st =? 1) && metadataFirstOver st) then Some MetadataOver
  else match streamOptions st with
       | Some span => if ObjectWithinLimit span requestMetadataMaxElements then None else Some StreamOptionsOver
       | None => None
       end.

(** [None] for [cfg] is the nil snapshot; otherwise its RequestToolCallsMax. *)
Definition boundRequestMetadata (body : bytes) (cfg : option Z) : option reject :=
  match cfg with
  | None => Some InvalidBound
  | Some callsMax =>
      if callsMax <? 1 then Some InvalidBound else
      match SkipSpace body with
      | c :: r =>
          if c =? lbrace then
            let s := SkipSpace r in
            if bool_decide (head s = Some rbrace) then None else
            match top_members callsMax (length s) scan0 s with
            | Bad => None
            | Halt e => requestMetadataOverflow body e
            | Next st _ =>
                match after_members st with
                | None => None
                | Some e => requestMetadataOverflow body e
                end
            end
          else None
      | [] => None
      end
  end.

(** ** What a document holds

    The reference speaks of the [entries] of the top-level object. *)

(** encoding/json matches a struct field by case folding. *)
Definition collection_of (k : bytes) : option collection_name :=
  if named k "messages" then Some Messages
  else if named k "tools" then Some Tools
  else if named k "functions" then Some Functions
  else if named k "input" then Some Input
  else if named k "metadata" then Some Metadata
  else if named k "stream_options" then Some StreamOptions
  else if named k "logit_bias" then Some LogitBias
  else if named k "stop" || named k "stop_sequences" then Some Stop
  else if named k "modalities" then Some Modalities
  else None.

Definition names (es : list (bytes * json)) : gset bytes := list_to_set (map fst es).
Definition total (f : bytes * json -> Z) (es : list (bytes * json)) : Z := foldr (fun e n => f e + n) 0 es.

Definition parts_of (e : bytes * json) : Z :=
  match collection_of e.1 with
  | Some Messages => messages_parts e.2
  | Some Input => input_parts e.2
  | Some _ => 0
  | None => if named e.1 "system" then array_len e.2 else 0
  end.
Definition annotations_of (e : bytes * json) : Z :=
  match collection_of e.1 with Some Input => input_annotations e.2 | _ => 0 end.
Definition calls_of (e : bytes * json) : Z :=
  match collection_of e.1 with Some Messages => messages_calls e.2 | _ => 0 end.

(** One array too long by itself. *)
Definition array_over (e : bytes * json) : bool :=
  match collection_of e.1 with
  | Some (Messages | Tools | Functions | Stop | Modalities) => requestMetadataMaxElements <? array_len e.2
  | Some Input => (requestMetadataMaxElements <? array_len e.2) || input_bad e.2
  | _ => false
  end.

Definition early (callsMax : Z) (es : list (bytes * json)) : bool :=
  (requestMetadataMaxElements <? card (names es)) || existsb array_over es ||
  (requestContentPartsMax <? total parts_of es) || (requestAnnotationsMax <? total annotations_of es) ||
  (callsMax <? total calls_of es).

Definition field_values (c : collection_name) (es : list (bytes * json)) : list json :=
  map snd (filter (fun e => collection_of e.1 = Some c) es).

(** A map field across its occurrences, as encoding/json fills it: an object
    adds its keys, null empties the map. *)
Definition decoded_map (seen : gset bytes) (v : json) : gset bytes :=
  match v with JObj _ ms => member_keys ms ∪ seen | _ => if is_null v then ∅ else seen end.
Fixpoint logit_over (seen : gset bytes) (vs : list json) : bool :=
  match vs with
  | [] => false
  | v :: vs => let seen := decoded_map seen v in (requestMetadataMaxElements <? card seen) || logit_over seen vs
  end.

(** The metadata objects since the last null: a single one is bounded by its
    members, more of them by their distinct keys. *)
Definition metadata_object (objs : list members) (v : json) : list members :=
  match v with JObj _ ms => objs ++ [ms] | _ => if is_null v then [] else objs end.
Definition metadata_objects (vs : list json) : list members := foldl metadata_object [] vs.
Definition objects_keys (objs : list members) : gset bytes := ⋃ (map member_keys objs).
Definition metadata_over (objs : list members) : bool :=
  match objs with
  | [ms] => requestMetadataMaxElements <? members_count ms
  | _ => requestMetadataMaxElements <? card (objects_keys objs)
  end.

(** The last stream_options counts. *)
Definition stream_over (vs : list json) : bool :=
  match last vs with Some v => requestMetadataMaxElements <? object_len v | None => false end.

Definition oversized (callsMax : Z) (es : list (bytes * json)) : bool :=
  early callsMax es || logit_over ∅ (field_values LogitBias es) ||
  metadata_over (metadata_objects (field_values Metadata es)) || stream_over (field_values StreamOptions es).

(** ** Lemmas on the reference *)

Lemma total_app f a b : total f (a ++ b) = total f a + total f b.
Proof. induction a as [|e a IH]; cbn; [done|]. fold (total f (a ++ b)) (total f a). lia. Qed.
Lemma entries_total_nonneg f es : (forall e, 0 <= f e) -> 0 <= total f es.
Proof. intros Hf. induction es as [|e es IH]; cbn; [lia|]. fold (total f es). specialize (Hf e). lia. Qed.
Lemma names_snoc es k v : names (es ++ [(k, v)]) = {[ k ]} ∪ names es.
Proof. unfold names. rewrite map_app, list_to_set_app_L. cbn. set_solver. Qed.
Lemma names_app a b : names (a ++ b) = names a ∪ names b.
Proof. unfold names. by rewrite map_app, list_to_set_app_L. Qed.

Lemma parts_of_nonneg e : 0 <= parts_of e.
Proof.
  unfold parts_of. destruct (collection_of e.1) as [[]|]; try lia.
  - apply in_elems_nonneg, message_parts_nonneg.
  - apply in_elems_nonneg. intros v. apply item_counts_nonneg.
  - destruct (named e.1 "system"); [apply array_len_nonneg|lia].
Qed.
Lemma annotations_of_nonneg e : 0 <= annotations_of e.
Proof.
  unfold annotations_of. destruct (collection_of e.1) as [[]|]; try lia.
  apply in_elems_nonneg. intros v. apply item_counts_nonneg.
Qed.
Lemma calls_of_nonneg e : 0 <= calls_of e.
Proof.
  unfold calls_of. destruct (collection_of e.1) as [[]|]; try lia.
  apply in_elems_nonneg, message_calls_nonneg.
Qed.

Definition bounded (callsMax : Z) (es : list (bytes * json)) : Prop :=
  card (names es) <= requestMetadataMaxElements /\ existsb array_over es = false /\
  total parts_of es <= requestContentPartsMax /\ total annotations_of es <= requestAnnotationsMax /\
  total calls_of es <= callsMax.

Lemma early_spec callsMax es : early callsMax es = false <-> bounded callsMax es.
Proof. unfold early, bounded. rewrite !orb_false_iff, !Z.ltb_ge. tauto. Qed.

Lemma bounded_app callsMax a b : bounded callsMax (a ++ b) -> bounded callsMax a.
Proof.
  unfold bounded. rewrite names_app, existsb_app, !total_app, orb_false_iff.
  pose proof (entries_total_nonneg _ b parts_of_nonneg). pose proof (entries_total_nonneg _ b annotations_of_nonneg).
  pose proof (entries_total_nonneg _ b calls_of_nonneg).
  assert (card (names a) <= card (names a ∪ names b)).
  { unfold card. apply Nat2Z.inj_le, subseteq_size. set_solver. }
  intros (? & [? ?] & ? & ? & ?). repeat split; done || lia.
Qed.
Lemma early_app callsMax a b : early callsMax a = true -> early callsMax (a ++ b) = true.
Proof.
  intros Ha. destruct (early callsMax (a ++ b)) eqn:E; [done|]. apply early_spec, bounded_app, early_spec in E. congruence.
Qed.

Lemma field_values_snoc c es k v :
  field_values c (es ++ [(k, v)]) = field_values c es ++ (if decide (collection_of k = Some c) then [v] else []).
Proof. unfold field_values. rewrite filter_app, map_app, filter_cons, filter_nil. cbn. by destruct (decide _). Qed.

Lemma logit_over_snoc vs v : forall seen, logit_over seen (vs ++ [v]) =
  logit_over seen vs || (requestMetadataMaxElements <? card (decoded_map (foldl decoded_map seen vs) v)).
Proof.
  induction vs as [|x vs IH]; intros seen; cbn [app logit_over foldl]; [by rewrite orb_false_r|].
  by rewrite IH, orb_assoc.
Qed.

Lemma array_len_0 v f : array_len v = 0 -> in_elems f v = 0.
Proof.
  destruct v as [b|b|w es|w ms]; try done. cbn. destruct es as [|w1 v w2 es]; [done|]. cbn.
  pose proof (elems_count_nonneg es). lia.
Qed.
Lemma array_len_0_bad v f : array_len v = 0 -> some_elem f v = false.
Proof.
  destruct v as [b|b|w es|w ms]; try done. cbn. destruct es as [|w1 v w2 es]; [done|]. cbn.
  pose proof (elems_count_nonneg es). lia.
Qed.

Lemma collection_spec k rk : string_body k = true -> decodeRequestKey (quote :: k ++ [quote]) = Some rk ->
  collection rk = collection_of (unquote k) /\ key_equal rk (str "system") = named (unquote k) "system".
Proof.
  intros Hk Hd. unfold collection, collection_of, named.
  split; [|by apply (key_equal_spec k rk "system")].
  by rewrite (key_equal_spec k rk "messages"), (key_equal_spec k rk "tools"), (key_equal_spec k rk "functions"),
    (key_equal_spec k rk "input"), (key_equal_spec k rk "metadata"), (key_equal_spec k rk "stream_options"),
    (key_equal_spec k rk "logit_bias"), (key_equal_spec k rk "stop"), (key_equal_spec k rk "stop_sequences"),
    (key_equal_spec k rk "modalities").
Qed.

(** ** The cases of the switch on a document *)

(** The step stops when [over], and otherwise comes out behind the value in
    state [st]. *)
Definition does (o : step scan reject) (t : bytes) (st : scan) (over : bool) : Prop :=
  if over then exists e, o = Halt e else exists r, o = Next st r /\ SkipSpace r = SkipSpace t.

Lemma set_counts_same st : set_counts (contentParts st) (annotationParts st) (toolCalls st) st = st.
Proof. by destruct st. Qed.

Lemma passed_over_spec st v depth t : wf depth v = true -> ends t -> does (passed_over st (render v ++ t)) t st false.
Proof.
  intros Hv Ht. destruct (SkipJSONValue_render v depth t Hv Ht) as (r & Hs & Hr & _). unfold passed_over. rewrite Hs. by exists r.
Qed.

Lemma array_value_spec c st v depth t : wf depth v = true -> ends t ->
  does (array_value c st (render v ++ t)) t st (requestMetadataMaxElements <? array_len v).
Proof.
  intros Hv Ht. unfold array_value.
  destruct (CountJSONArrayBytes_render v depth t requestMetadataMaxElements Hv Ht) as (n & r & -> & -> & Hr); [done|].
  destruct (Z.ltb_spec requestMetadataMaxElements (array_len v)).
  - rewrite Z.min_r by lia. by eexists.
  - rewrite Z.min_l by lia. destruct (Z.ltb_spec requestMetadataMaxElements (array_len v)); [lia|]. exists r. split; [done|]. by apply Hr.
Qed.

Lemma messages_value_spec callsMax st v depth t : wf depth v = true -> ends t ->
  contentParts st <= requestContentPartsMax -> toolCalls st <= callsMax ->
  does (messages_value callsMax st (render v ++ t)) t
    (set_counts (contentParts st + messages_parts v) (annotationParts st) (toolCalls st + messages_calls v) st)
    ((requestMetadataMaxElements <? array_len v) || (requestContentPartsMax <? contentParts st + messages_parts v)
     || (callsMax <? toolCalls st + messages_calls v)).
Proof.
  intros Hv Ht Hp Hc. unfold messages_value.
  destruct (CountJSONArrayBytes_render v depth t requestMetadataMaxElements Hv Ht) as (n & r & -> & -> & Hr); [done|].
  destruct (Z.ltb_spec requestMetadataMaxElements (array_len v)) as [Hover|Hlen]; cbn [orb].
  { rewrite Z.min_r by lia. by eexists. }
  rewrite Z.min_l by lia. destruct (Z.ltb_spec requestMetadataMaxElements (array_len v)); [lia|].
  pose proof (array_len_nonneg v). destruct (Z.ltb_spec 0 (array_len v)).
  2: { unfold messages_parts, messages_calls. rewrite !array_len_0, !Z.add_0_r, set_counts_same by lia.
       destruct (Z.ltb_spec requestContentPartsMax (contentParts st)); [lia|].
       destruct (Z.ltb_spec callsMax (toolCalls st)); [lia|]. exists r. split; [done|]. by apply Hr. }
  destruct (countRequestMessagesContentParts_spec v depth t (requestContentPartsMax - contentParts st) Hv Ht)
    as (parts & -> & Hparts); [lia|].
  destruct (countRequestMessagesToolCalls_spec v depth t (callsMax - toolCalls st) Hv Ht) as (calls & Hcs & Hcalls); [lia|].
  destruct (Z.ltb_spec requestContentPartsMax (contentParts st + messages_parts v)) as [Hpo|Hpo]; cbn [orb].
  { destruct (Z.ltb_spec (requestContentPartsMax - contentParts st) (messages_parts v)); [|lia].
    destruct (Z.ltb_spec (requestContentPartsMax - contentParts st) parts); [|lia]. by eexists. }
  destruct (Z.ltb_spec (requestContentPartsMax - contentParts st) (messages_parts v)); [lia|]. subst parts.
  destruct (Z.ltb_spec (requestContentPartsMax - contentParts st) (messages_parts v)); [lia|]. rewrite Hcs.
  destruct (Z.ltb_spec callsMax (toolCalls st + messages_calls v)) as [Hco|Hco].
  { destruct (Z.ltb_spec (callsMax - toolCalls st) (messages_calls v)); [|lia].
    destruct (Z.ltb_spec (callsMax - toolCalls st) calls); [|lia]. by eexists. }
  destruct (Z.ltb_spec (callsMax - toolCalls st) (messages_calls v)); [lia|]. subst calls.
  destruct (Z.ltb_spec (callsMax - toolCalls st) (messages_calls v)); [lia|]. exists r. split; [done|]. by apply Hr.
Qed.

Lemma input_value_spec st v depth t : wf depth v = true -> ends t ->
  contentParts st <= requestContentPartsMax -> annotationParts st <= requestAnnotationsMax ->
  does (input_value st (render v ++ t)) t
    (set_counts (contentParts st + input_parts v) (annotationParts st + input_annotations v) (toolCalls st) st)
    ((requestMetadataMaxElements <? array_len v) || input_bad v || (requestContentPartsMax <? contentParts st + input_parts v)
     || (requestAnnotationsMax <? annotationParts st + input_annotations v)).
Proof.
  intros Hv Ht Hp Ha. unfold input_value.
  destruct (CountJSONArrayBytes_render v depth t requestMetadataMaxElements Hv Ht) as (n & r & -> & -> & Hr); [done|].
  destruct (Z.ltb_spec requestMetadataMaxElements (array_len v)) as [Hover|Hlen]; cbn [orb].
  { rewrite Z.min_r by lia. by eexists. }
  rewrite Z.min_l by lia. destruct (Z.ltb_spec requestMetadataMaxElements (array_len v)); [lia|].
  pose proof (array_len_nonneg v). destruct (Z.ltb_spec 0 (array_len v)).
  2: { unfold input_parts, input_annotations, input_bad. rewrite !array_len_0, array_len_0_bad, !Z.add_0_r, set_counts_same by lia.
       destruct (Z.ltb_spec requestContentPartsMax (contentParts st)); [lia|].
       destruct (Z.ltb_spec requestAnnotationsMax (annotationParts st)); [lia|]. exists r. split; [done|]. by apply Hr. }
  set (pb := requestContentPartsMax - contentParts st). set (ab := requestAnnotationsMax - annotationParts st).
  pose proof (countResponsesInputNested_spec depth pb ab v t Hv Ht ltac:(lia) ltac:(lia)) as Hn.
  destruct (within2_spec pb ab (input_parts v) (input_annotations v) (input_bad v)) as [[Hw Hb]|(Hw & Hb)];
    rewrite Hw in Hn; cbn [passes] in Hn.
  - destruct Hn as ([[p a] over] & -> & Hy). unfold over2 in Hy. cbn [fst snd] in Hy.
    assert (Hbad : input_bad v || (requestContentPartsMax <? contentParts st + input_parts v)
      || (requestAnnotationsMax <? annotationParts st + input_annotations v) = true).
    { rewrite !orb_true_iff, !Z.ltb_lt. destruct Hb as [?|[?|?]]; [left; right; lia|right; lia|tauto]. }
    rewrite Hbad. cbn [nested_result]. destruct over; [by eexists|].
    destruct (Z.ltb_spec pb p); [by eexists|]. destruct (Z.ltb_spec ab a); [by eexists|].
    destruct Hy as [?|[?|?]]; [done|lia|lia].
  - destruct Hn as (r' & -> & Hr'). destruct Hb as (Hb1 & Hb2 & ->). cbn [nested_result orb].
    destruct (Z.ltb_spec pb (input_parts v)); [lia|]. destruct (Z.ltb_spec ab (input_annotations v)); [lia|].
    destruct (Z.ltb_spec requestContentPartsMax (contentParts st + input_parts v)); [lia|].
    destruct (Z.ltb_spec requestAnnotationsMax (annotationParts st + input_annotations v)); [lia|]. by exists r'.
Qed.

Lemma system_value_spec st v depth t : wf depth v = true -> ends t -> contentParts st <= requestContentPartsMax ->
  does (system_value st (render v ++ t)) t
    (set_counts (contentParts st + array_len v) (annotationParts st) (toolCalls st) st)
    (requestContentPartsMax <? contentParts st + array_len v).
Proof.
  intros Hv Ht Hp. unfold system_value.
  destruct (CountJSONArrayBytes_render v depth t (requestContentPartsMax - contentParts st) Hv Ht) as (n & r & -> & -> & Hr); [lia|].
  destruct (Z.ltb_spec requestContentPartsMax (contentParts st + array_len v)).
  - rewrite Z.min_r by lia. destruct (Z.ltb_spec (requestContentPartsMax - contentParts st) (requestContentPartsMax - contentParts st + 1)); [|lia]. by eexists.
  - rewrite Z.min_l by lia. destruct (Z.ltb_spec (requestContentPartsMax - contentParts st) (array_len v)); [lia|].
    exists r. split; [done|]. apply Hr. lia.
Qed.

(** ** The state of the scan, and what it stands for *)

Definition logit_rel (st : scan) (vs : list json) : Prop :=
  logitOver st = logit_over ∅ vs /\
  (logitOver st = false -> logitSeen st = foldl decoded_map ∅ vs /\ card (logitSeen st) <= requestMetadataMaxElements).

Definition metadata_rel (st : scan) (objs : list members) : Prop :=
  metadataObjects st = Z.of_nat (length objs) /\
  match objs with
  | [] => metadataSeen st = None /\ metadataOver st = false
  | [ms] =>
      metadataSeen st = None /\ metadataOver st = false /\
      metadataFirstOver st = (requestMetadataMaxElements <? members_count ms) /\
      exists depth w t, wf depth (JObj w ms) = true /\ ends t /\ metadataFirst st = render (JObj w ms) ++ t
  | _ =>
      metadataOver st = (requestMetadataMaxElements <? card (objects_keys objs)) /\
      (metadataOver st = false -> metadataSeen st = Some (objects_keys objs))
  end.

Definition stream_rel (st : scan) (vs : list json) : Prop :=
  match last vs with
  | None => streamOptions st = None
  | Some v => exists depth t, wf depth v = true /\ streamOptions st = Some (render v ++ t)
  end.

(** One logit_bias value. *)
Lemma keys_after_decoded seen v : card seen <= requestMetadataMaxElements ->
  keys_after requestMetadataMaxElements seen v =
    (if requestMetadataMaxElements <? card (decoded_map seen v) then (∅, true) else (decoded_map seen v, false)).
Proof.
  intros Hle. assert (Hsame : (if requestMetadataMaxElements <? card seen then (∅, true) else (seen, false)) = (seen, false)).
  { by destruct (Z.ltb_spec requestMetadataMaxElements (card seen)); [lia|]. }
  destruct v as [b|b|w es|w ms]; cbn [keys_after decoded_map is_null]; try by rewrite Hsame.
  2: done.
  destruct (bool_decide (b = str "null")); [|by rewrite Hsame].
  unfold card. by rewrite size_empty.
Qed.

Lemma logit_value_spec st vs v depth t : wf depth v = true -> ends t -> logit_rel st vs ->
  exists seen over, does (logit_value st (render v ++ t)) t (set_logit seen over st) false /\
    logit_rel (set_logit seen over st) (vs ++ [v]).
Proof.
  intros Hv Ht [Ho Hs]. unfold logit_value, logit_rel in *. rewrite logit_over_snoc, <- Ho.
  destruct (logitOver st) eqn:Eo.
  - exists (logitSeen st), true. split; [|done].
    replace (set_logit (logitSeen st) true st) with st by (rewrite <- Eo; by destruct st). by apply (passed_over_spec _ _ depth).
  - destruct (Hs eq_refl) as [Hseen Hle]. destruct (countJSONObjectKeys_spec depth requestMetadataMaxElements (logitSeen st) v t Hv Ht Hle)
      as (r & Hc & Hr). rewrite keys_after_decoded in Hc by done. rewrite Hc. rewrite <- Hseen. cbn [orb].
    rewrite foldl_app. cbn [foldl]. rewrite <- Hseen.
    destruct (Z.ltb_spec requestMetadataMaxElements (card (decoded_map (logitSeen st) v))) as [Hlt|Hge]; cbn [fst snd].
    + exists ∅, true. split; [by exists r|done].
    + exists (decoded_map (logitSeen st) v), false.
      destruct (Z.ltb_spec requestMetadataMaxElements (card (decoded_map (logitSeen st) v))); [lia|].
      split; [by exists r|]. by cbn.
Qed.

(** An object merged into accumulated keys. *)
Lemma countJSONObjectKeys_object depth seen w ms t : wf depth (JObj w ms) = true -> ends t ->
  card seen <= requestMetadataMaxElements ->
  exists seen' n r, countJSONObjectKeys (render (JObj w ms) ++ t) requestMetadataMaxElements seen = Some (seen', n, r) /\
    (requestMetadataMaxElements <? n) = (requestMetadataMaxElements <? card (member_keys ms ∪ seen)) /\
    ((requestMetadataMaxElements <? n) = false -> seen' = member_keys ms ∪ seen).
Proof.
  intros Hv Ht Hle. destruct (countJSONObjectKeys_spec depth requestMetadataMaxElements seen _ t Hv Ht Hle) as (r & -> & _).
  rewrite keys_after_decoded by done. cbn [decoded_map].
  destruct (Z.ltb_spec requestMetadataMaxElements (card (member_keys ms ∪ seen))) as [Hlt|Hge]; cbn [fst snd].
  - do 3 eexists. split; [done|]. done.
  - do 3 eexists. split; [done|].
    destruct (Z.ltb_spec requestMetadataMaxElements (card (member_keys ms ∪ seen))); [lia|]. done.
Qed.

Lemma objects_keys_snoc objs ms : objects_keys (objs ++ [ms]) = member_keys ms ∪ objects_keys objs.
Proof. unfold objects_keys. rewrite map_app, union_list_app_L. cbn. set_solver. Qed.

Lemma card_union_le a b : card b <= card (a ∪ b).
Proof. unfold card. apply Nat2Z.inj_le, subseteq_size. set_solver. Qed.

Lemma merged_metadata_spec st objs w ms depth t : wf depth (JObj w ms) = true -> ends t ->
  objs <> [] -> metadata_rel st objs -> metadataOver st = false ->
  exists seen over, merged_metadata st (render (JObj w ms) ++ t) = Some (seen, over) /\
    over = (requestMetadataMaxElements <? card (objects_keys (objs ++ [ms]))) /\
    (over = false -> seen = objects_keys (objs ++ [ms])).
Proof.
  intros Hv Ht Hne [Hn Hrel] Hno. rewrite objects_keys_snoc. unfold merged_metadata.
  destruct objs as [|ms1 [|ms2 objs]]; [done| |].
  - destruct Hrel as (-> & _ & _ & depth1 & w1 & t1 & Hv1 & Ht1 & ->).
    destruct (countJSONObjectKeys_object depth1 ∅ w1 ms1 t1 Hv1 Ht1) as (seen1 & n1 & r1 & -> & Hn1 & Hs1); [done|].
    rewrite (right_id_L ∅ (∪)) in Hn1, Hs1.
    assert (Hk : objects_keys [ms1] = member_keys ms1) by (unfold objects_keys; cbn; set_solver). rewrite Hk.
    pose proof (card_union_le (member_keys ms) (member_keys ms1)).
    destruct (requestMetadataMaxElements <? n1) eqn:E1.
    { eexists _, true. split; [done|]. split; [|done]. symmetry in Hn1 |- *. apply Z.ltb_lt in Hn1. apply Z.ltb_lt. lia. }
    rewrite (Hs1 eq_refl). destruct (countJSONObjectKeys_object depth (member_keys ms1) w ms t Hv Ht) as (seen & n & r & -> & Hn' & Hs').
    { symmetry in Hn1. apply Z.ltb_ge in Hn1. done. }
    eexists _, _. split; [done|]. done.
  - destruct Hrel as [Hover Hseen]. rewrite (Hseen Hno).
    destruct (countJSONObjectKeys_object depth (objects_keys (ms1 :: ms2 :: objs)) w ms t Hv Ht) as (seen & n & r & -> & Hn' & Hs').
    { rewrite Hno in Hover. symmetry in Hover. by apply Z.ltb_ge in Hover. }
    eexists _, _. split; [done|]. done.
Qed.

(** One metadata value. *)
Lemma set_metadata_same st :
  set_metadata (metadataSeen st) (metadataObjects st) (metadataFirst st) (metadataFirstOver st) (metadataOver st) st = st.
Proof. by destruct st. Qed.

Lemma metadata_head v w depth : wf depth v = true ->
  match SkipSpace (render v ++ w) with
  | c :: _ => (c =? 110) = is_null v /\ (c =? lbrace) = match v with JObj _ _ => true | _ => false end
  | [] => False
  end.
Proof.
  intros Hv. rewrite (SkipSpace_render v depth w Hv). destruct v as [b|b|w' es|w' ms]; try done.
  pose proof (scalar_head b w Hv) as Hh. destruct (scalar_spec b Hv) as (Hne & _ & _). cbn [render is_null].
  unfold wf, scalar_text in Hv. rewrite bool_decide_eq_true in Hv.
  destruct b as [|c b]; [done|]. cbn [app] in *. destruct Hh as (_ & _ & ->). split; [|done].
  destruct (Z.eqb_spec c 110) as [->|Hc].
  - unfold json_scalar in Hv. cbn [Z.eqb Pos.eqb] in Hv. apply strip_prefix_spec in Hv. rewrite app_nil_r in Hv.
    symmetry. by apply bool_decide_eq_true.
  - symmetry. apply bool_decide_eq_false. intros Hb. injection Hb as -> _. done.
Qed.

Lemma metadata_value_spec st objs v depth t : wf depth v = true -> ends t -> metadata_rel st objs ->
  exists seen n first firstOver over,
    does (metadata_value st (render v ++ t)) t (set_metadata seen n first firstOver over st) false /\
    metadata_rel (set_metadata seen n first firstOver over st) (metadata_object objs v).
Proof.
  intros Hv Ht Hrel. unfold metadata_value. destruct (value_token v depth t Hv Ht) as (r & w & -> & Hr & -> & _).
  pose proof (metadata_head v w depth Hv) as Hh. rewrite (ObjectWithinLimit_render [] v w depth) by done.
  destruct (SkipSpace (render v ++ w)) as [|c s]; [done|]. destruct Hh as [-> ->].
  destruct v as [b|b|w' es|w' ms]; cbn [is_null metadata_object object_len].
  1, 3: by eexists _, _, _, _, _; rewrite set_metadata_same; split; [exists r|].
  - destruct (bool_decide (b = str "null")).
    + eexists _, _, _, _, _. split; [by exists r|done].
    + eexists _, _, _, _, _. rewrite set_metadata_same. split; [by exists r|done].
  - destruct (Hrel) as [Hn Hm]. rewrite Hn. destruct objs as [|ms1 objs].
    + destruct Hm as [Hseen Hover]. cbn [length Z.of_nat Z.add Z.eqb Pos.eqb]. eexists _, _, _, _, _. split; [by exists r|].
      split; [done|]. split; [done|]. split; [done|]. split; [by rewrite Z.ltb_antisym|].
      by exists depth, w', t.
    + destruct (Z.eqb_spec (Z.of_nat (length (ms1 :: objs)) + 1) 1) as [H1|_]; [cbn in H1; lia|].
      assert (Hlen : Z.of_nat (length (ms1 :: objs)) + 1 = Z.of_nat (length ((ms1 :: objs) ++ [ms])))
        by (rewrite length_app; cbn; lia).
      destruct (metadataOver st) eqn:Eo.
      * eexists _, _, _, _, _. split; [by exists r|]. split; [done|]. destruct objs as [|ms2 objs]; [by destruct Hm as (_ & ? & _)|].
        cbn [app]. split; [|done]. cbn [metadataOver set_metadata]. destruct Hm as [Hm _].
        symmetry. apply Z.ltb_lt. symmetry in Hm. apply Z.ltb_lt in Hm.
        change (ms1 :: ms2 :: objs ++ [ms]) with ((ms1 :: ms2 :: objs) ++ [ms]). rewrite objects_keys_snoc.
        pose proof (card_union_le (member_keys ms) (objects_keys (ms1 :: ms2 :: objs))). lia.
      * destruct (merged_metadata_spec st (ms1 :: objs) w' ms depth t Hv Ht) as (seen & over & -> & Hover & Hseen); [done..|].
        eexists _, _, _, _, _. split; [by exists r|]. split; [done|]. cbn [app].
        destruct (objs ++ [ms]) as [|x l] eqn:El; [by destruct objs|]. cbn [metadataOver metadataSeen set_metadata].
        change (ms1 :: x :: l) with (ms1 :: (x :: l)). rewrite <- El. split; [done|]. intros Hf. by rewrite (Hseen Hf).
Qed.

Lemma stream_value_spec st vs v depth t : wf depth v = true -> ends t ->
  exists span, does (stream_value st (render v ++ t)) t (set_stream span st) false /\
    stream_rel (set_stream span st) (vs ++ [v]).
Proof.
  intros Hv Ht. unfold stream_value, stream_rel. destruct (value_token v depth t Hv Ht) as (r & w & -> & Hr & -> & _).
  eexists. split; [by exists r|]. rewrite last_snoc. by exists depth, w.
Qed.

(** ** The whole scan *)

Record scan_rel (callsMax : Z) (st : scan) (es : list (bytes * json)) : Prop := {
  rel_bounded : bounded callsMax es;
  rel_members : memberSeen st = names es;
  rel_parts : contentParts st = total parts_of es;
  rel_annotations : annotationParts st = total annotations_of es;
  rel_calls : toolCalls st = total calls_of es;
  rel_logit : logit_rel st (field_values LogitBias es);
  rel_metadata : metadata_rel st (metadata_objects (field_values Metadata es));
  rel_stream : stream_rel st (field_values StreamOptions es);
}.

Lemma scan_rel_0 callsMax : 0 <= callsMax -> scan_rel callsMax scan0 [].
Proof. intros Hc. split; try done; repeat split; cbn; try done. Qed.

Lemma total_snoc f es e : total f (es ++ [e]) = total f es + f e.
Proof. rewrite total_app. cbn. lia. Qed.

(** The immediate bounds, one member later. *)
Lemma early_snoc callsMax es e : bounded callsMax es -> card (names (es ++ [e])) <= requestMetadataMaxElements ->
  early callsMax (es ++ [e]) = array_over e || (requestContentPartsMax <? total parts_of es + parts_of e)
    || (requestAnnotationsMax <? total annotations_of es + annotations_of e)
    || (callsMax <? total calls_of es + calls_of e).
Proof.
  intros (_ & Ha & _) Hc. unfold early. rewrite existsb_app, Ha, !total_snoc. cbn [existsb orb]. rewrite orb_false_r.
  by destruct (Z.ltb_spec requestMetadataMaxElements (card (names (es ++ [e])))); [lia|].
Qed.

(** What a member leaves of the scan: the counts, and the three collections
    that are judged at the end. *)
Lemma scan_rel_snoc callsMax st st' es k v : scan_rel callsMax st es -> early callsMax (es ++ [(k, v)]) = false ->
  memberSeen st' = names (es ++ [(k, v)]) ->
  contentParts st' = contentParts st + parts_of (k, v) ->
  annotationParts st' = annotationParts st + annotations_of (k, v) ->
  toolCalls st' = toolCalls st + calls_of (k, v) ->
  logit_rel st' (field_values LogitBias (es ++ [(k, v)])) ->
  metadata_rel st' (metadata_objects (field_values Metadata (es ++ [(k, v)]))) ->
  stream_rel st' (field_values StreamOptions (es ++ [(k, v)])) ->
  scan_rel callsMax st' (es ++ [(k, v)]).
Proof.
  intros [] He Hm Hp Ha Hc Hl Hd Hs. split; try done; [by apply early_spec|..]; rewrite total_snoc; congruence.
Qed.

Lemma field_values_other c es k v : collection_of k <> Some c -> field_values c (es ++ [(k, v)]) = field_values c es.
Proof. intros Hc. rewrite field_values_snoc. by rewrite decide_False, app_nil_r by done. Qed.
Lemma field_values_same c es k v : collection_of k = Some c -> field_values c (es ++ [(k, v)]) = field_values c es ++ [v].
Proof. intros Hc. rewrite field_values_snoc. by rewrite decide_True by done. Qed.

(** A member that only counts. *)
Lemma counting_member callsMax st es k v o t parts annotations calls over :
  scan_rel callsMax st es -> card (names (es ++ [(k, v)])) <= requestMetadataMaxElements ->
  parts_of (k, v) = parts -> annotations_of (k, v) = annotations -> calls_of (k, v) = calls ->
  collection_of k <> Some LogitBias -> collection_of k <> Some Metadata -> collection_of k <> Some StreamOptions ->
  over = array_over (k, v) || (requestContentPartsMax <? contentParts st + parts)
    || (requestAnnotationsMax <? annotationParts st + annotations) || (callsMax <? toolCalls st + calls) ->
  let st1 := set_members (names (es ++ [(k, v)])) st in
  does o t (set_counts (contentParts st + parts) (annotationParts st + annotations) (toolCalls st + calls) st1) over ->
  if early callsMax (es ++ [(k, v)]) then exists e, o = Halt e
  else exists st' r, o = Next st' r /\ SkipSpace r = SkipSpace t /\ scan_rel callsMax st' (es ++ [(k, v)]).
Proof.
  intros Hrel Hcard Hp Ha Hc Hl Hd Hs -> st1 Ho. pose proof Hrel as [Hb _ Ep Ea Ec Rl Rd Rs].
  rewrite <- Hp, <- Ha, <- Hc, Ep, Ea, Ec, <- early_snoc in Ho by done. unfold does in Ho.
  destruct (early callsMax (es ++ [(k, v)])) eqn:He; [done|]. destruct Ho as (r & -> & Hr).
  do 2 eexists. split; [done|]. split; [done|].
  apply (scan_rel_snoc callsMax st); try done; rewrite ?field_values_other by done; try done; cbn; congruence.
Qed.

(** A member of a collection judged at the end. *)
Lemma late_member callsMax st st' es k v o t :
  scan_rel callsMax st es -> card (names (es ++ [(k, v)])) <= requestMetadataMaxElements ->
  (collection_of k = Some LogitBias \/ collection_of k = Some Metadata \/ collection_of k = Some StreamOptions) ->
  memberSeen st' = names (es ++ [(k, v)]) -> contentParts st' = contentParts st ->
  annotationParts st' = annotationParts st -> toolCalls st' = toolCalls st ->
  logit_rel st' (field_values LogitBias (es ++ [(k, v)])) ->
  metadata_rel st' (metadata_objects (field_values Metadata (es ++ [(k, v)]))) ->
  stream_rel st' (field_values StreamOptions (es ++ [(k, v)])) ->
  does o t st' false ->
  if early callsMax (es ++ [(k, v)]) then exists e, o = Halt e
  else exists st' r, o = Next st' r /\ SkipSpace r = SkipSpace t /\ scan_rel callsMax st' (es ++ [(k, v)]).
Proof.
  intros Hrel Hcard Hc Hm Hp Ha Hcs Hl Hd Hs (r & -> & Hr). pose proof Hrel as [Hb _ Ep Ea Ec _ _ _].
  pose proof Hb as (? & ? & ? & ? & ?).
  assert (Hz : array_over (k, v) = false /\ parts_of (k, v) = 0 /\ annotations_of (k, v) = 0 /\ calls_of (k, v) = 0).
  { unfold array_over, parts_of, annotations_of, calls_of. cbn [fst snd]. by destruct Hc as [->|[->| ->]]. }
  destruct Hz as (H01 & H02 & H03 & H04).
  assert (He : early callsMax (es ++ [(k, v)]) = false).
  { rewrite early_snoc by done. rewrite H01, H02, H03, H04, !Z.add_0_r. cbn [orb].
    rewrite !orb_false_iff, !Z.ltb_ge. done. }
  rewrite He. do 2 eexists. split; [done|]. split; [done|]. apply (scan_rel_snoc callsMax st); try done; lia.
Qed.

Lemma member_value_spec callsMax st es k rk v t depth :
  string_body k = true -> decodeRequestKey (quote :: k ++ [quote]) = Some rk -> wf depth v = true -> ends t ->
  scan_rel callsMax st es -> let e := (unquote k, v) in card (names (es ++ [e])) <= requestMetadataMaxElements ->
  let o := member_value callsMax (set_members (names (es ++ [e])) st) rk (render v ++ t) in
  if early callsMax (es ++ [e]) then exists x, o = Halt x
  else exists st' r, o = Next st' r /\ SkipSpace r = SkipSpace t /\ scan_rel callsMax st' (es ++ [e]).
Proof.
  intros Hk Hd Hv Ht Hrel e Hcard o. pose proof Hrel as [Hb _ Ep Ea Ec Rl Rd Rs]. destruct Hb as (_ & _ & Hb1 & Hb2 & Hb3).
  destruct (collection_spec k rk Hk Hd) as [Hcol Hsys]. unfold o, member_value. rewrite Hcol, Hsys.
  set (st1 := set_members (names (es ++ [e])) st).
  assert (Hle : contentParts st1 <= requestContentPartsMax /\ annotationParts st1 <= requestAnnotationsMax /\
    toolCalls st1 <= callsMax) by (cbn; lia). destruct Hle as (Hle1 & Hle2 & Hle3).
  assert (Hin : (requestContentPartsMax <? contentParts st) = false /\ (requestAnnotationsMax <? annotationParts st) = false /\
    (callsMax <? toolCalls st) = false) by (rewrite !Z.ltb_ge; cbn in *; lia). destruct Hin as (Hin1 & Hin2 & Hin3).
  assert (Hsame : forall o over, does o t st1 over ->
    does o t (set_counts (contentParts st + 0) (annotationParts st + 0) (toolCalls st + 0) st1) over).
  { intros o' over. rewrite !Z.add_0_r. by rewrite (set_counts_same st1 : set_counts (contentParts st) (annotationParts st) (toolCalls st) st1 = st1). }
  destruct (collection_of (unquote k)) as [c|] eqn:Eq.
  - assert (Harr : match c with Tools | Functions | Stop | Modalities => True | _ => False end ->
      if early callsMax (es ++ [e]) then exists x, array_value c st1 (render v ++ t) = Halt x
      else exists st' r, array_value c st1 (render v ++ t) = Next st' r /\ SkipSpace r = SkipSpace t /\ scan_rel callsMax st' (es ++ [e])).
    { intros Hc. eapply (counting_member callsMax st es (unquote k) v _ t 0 0 0); try done;
        try (unfold parts_of, annotations_of, calls_of; cbn [fst snd]; rewrite Eq; by destruct c);
        try (rewrite Eq; by destruct c).
      apply Hsame. rewrite !Z.add_0_r, Hin1, Hin2, Hin3, !orb_false_r. unfold array_over. cbn [fst snd]. rewrite Eq.
      destruct c; try done; by apply (array_value_spec _ _ _ depth). }
    destruct c; try by apply Harr.
    + eapply (counting_member callsMax st es (unquote k) v _ t (messages_parts v) 0 (messages_calls v)); try done;
        try (unfold parts_of, annotations_of, calls_of; cbn [fst snd]; by rewrite Eq); try (by rewrite Eq).
      rewrite !Z.add_0_r, Hin2, !orb_false_r. unfold array_over. cbn [fst snd]. rewrite Eq.
      apply (messages_value_spec callsMax st1 v depth t Hv Ht Hle1 Hle3).
    + eapply (counting_member callsMax st es (unquote k) v _ t (input_parts v) (input_annotations v) 0); try done;
        try (unfold parts_of, annotations_of, calls_of; cbn [fst snd]; by rewrite Eq); try (by rewrite Eq).
      rewrite !Z.add_0_r, Hin3, !orb_false_r. unfold array_over. cbn [fst snd]. rewrite Eq.
      apply (input_value_spec st1 v depth t Hv Ht Hle1 Hle2).
    + destruct (metadata_value_spec st1 _ v depth t Hv Ht Rd) as (a1 & a2 & a3 & a4 & a5 & Ho & Hr).
      eapply (late_member callsMax st (set_metadata a1 a2 a3 a4 a5 st1) es (unquote k) v); try done; try tauto; rewrite ?field_values_other by (by rewrite Eq); try done.
      rewrite field_values_same by done. unfold metadata_objects. rewrite foldl_app. exact Hr.
    + destruct (stream_value_spec st1 (field_values StreamOptions es) v depth t Hv Ht) as (a1 & Ho & Hr).
      eapply (late_member callsMax st (set_stream a1 st1) es (unquote k) v); try done; try tauto; rewrite ?field_values_other by (by rewrite Eq); try done.
      by rewrite field_values_same.
    + destruct (logit_value_spec st1 _ v depth t Hv Ht Rl) as (a1 & a2 & Ho & Hr).
      eapply (late_member callsMax st (set_logit a1 a2 st1) es (unquote k) v); try done; try tauto; rewrite ?field_values_other by (by rewrite Eq); try done.
      by rewrite field_values_same.
  - destruct (named (unquote k) "system") eqn:Es.
    + eapply (counting_member callsMax st es (unquote k) v _ t (array_len v) 0 0); try done;
        try (unfold parts_of, annotations_of, calls_of; cbn [fst snd]; by rewrite Eq, ?Es); try (by rewrite Eq).
      rewrite !Z.add_0_r, Hin2, Hin3, !orb_false_r. unfold array_over. cbn [fst snd]. rewrite Eq.
      apply (system_value_spec st1 v depth t Hv Ht Hle1).
    + eapply (counting_member callsMax st es (unquote k) v _ t 0 0 0); try done;
        try (unfold parts_of, annotations_of, calls_of; cbn [fst snd]; by rewrite Eq, ?Es); try (by rewrite Eq).
      apply Hsame. rewrite !Z.add_0_r, Hin1, Hin2, Hin3, !orb_false_r. unfold array_over. cbn [fst snd]. rewrite Eq.
      by apply (passed_over_spec _ _ depth).
Qed.

(** The loop over a rendered object: it stops exactly when an immediate bound
    is passed by the members. *)
Lemma top_members_render callsMax depth : forall ms, ms <> MNil -> forall fuel st es t,
  wf_members depth ms = true -> scan_rel callsMax st es ->
  (length (SkipSpace (render_members ms ++ rbrace :: t)) <= fuel)%nat ->
  let o := top_members callsMax fuel st (SkipSpace (render_members ms ++ rbrace :: t)) in
  if early callsMax (es ++ entries ms) then exists x, o = Halt x
  else exists st', o = Next st' t /\ scan_rel callsMax st' (es ++ entries ms).
Proof.
  induction ms as [|w1 k w2 w3 v w4 ms IH]; intros Hne fuel st es t Hw Hrel Hf; [done|]. clear Hne.
  cbn [wf_members] in Hw. rewrite !andb_true_iff in Hw. destruct Hw as [[[[[[Hw1 Hk] Hw2] Hw3] Hv] Hw4] Hms].
  unfold SkipSpace in *. rewrite render_members_cons, spaces_app, spaces_closing in Hf |- * by (done || tauto).
  set (tail := w4 ++ _) in *. assert (Hends : ends tail) by (by apply ends_members).
  set (after := w2 ++ colon :: w3 ++ render v ++ tail) in *.
  destruct fuel as [|fuel]; [cbn in Hf; lia|]. cbn [top_members entries].
  assert (Hfuel : (length tail <= fuel)%nat).
  { unfold after in Hf. cbn [length] in Hf. repeat (rewrite ?length_app in Hf; cbn [length] in Hf). lia. }
  rewrite SkipJSONString_body, token_string by done.
  destruct (decodeRequestKey_spec k Hk) as (rk & Hd & Htext & _). rewrite Hd.
  assert (Hm : memberSeen st = names es) by apply Hrel.
  pose proof (countDistinct_spec (memberSeen st) rk requestMetadataMaxElements) as Hc. rewrite Htext, Hm, <- (names_snoc es _ v) in Hc.
  destruct (rel_bounded _ _ _ Hrel) as (Hcard & _). specialize (Hc Hcard). cbn zeta in Hc. rewrite Hm.
  replace (es ++ (unquote k, v) :: entries ms) with ((es ++ [(unquote k, v)]) ++ entries ms) by (by rewrite <- app_assoc).
  destruct Hc as [[Hover Hn]|[Hle ->]].
  { destruct (countDistinctJSONKey _ _ _) as [seen n]. cbn [snd] in Hn. subst n.
    assert (He : early callsMax (es ++ [(unquote k, v)]) = true).
    { destruct (early callsMax (es ++ [(unquote k, v)])) eqn:E; [done|]. apply early_spec in E as [E _]. lia. }
    rewrite (early_app _ _ _ He). destruct (Z.ltb_spec requestMetadataMaxElements (requestMetadataMaxElements + 1)); [|lia]. by eexists. }
  destruct (Z.ltb_spec requestMetadataMaxElements (card (names (es ++ [(unquote k, v)])))); [lia|].
  assert (Ha : SkipSpace after = colon :: w3 ++ render v ++ tail).
  { unfold SkipSpace, after. rewrite spaces_app, spaces_closing by (done || tauto). done. }
  assert (Hsp : SkipSpace (w3 ++ render v ++ tail) = render v ++ tail) by (unfold SkipSpace; by rewrite (spaces_render _ _ depth)).
  rewrite Ha. change (colon =? colon) with true. cbn iota. rewrite Hsp. clear Hsp.
  pose proof (member_value_spec callsMax st es k rk v tail depth Hk Hd Hv Hends Hrel Hle) as Hstep. cbn zeta in Hstep.
  destruct (render v ++ tail) as [|c s] eqn:Er; [by destruct (render_head v depth Hv) as (? & ? & Hr & _); rewrite Hr in Er|].
  destruct (early callsMax (es ++ [(unquote k, v)])) eqn:He.
  { rewrite (early_app _ _ _ He). destruct Hstep as [x ->]. by eexists. }
  destruct Hstep as (st' & r & -> & Hr & Hrel'). rewrite Hr. unfold tail. rewrite SkipSpace_tail_members by done.
  destruct ms as [|w1' k' w2' w3' v' w4' ms].
  - cbn [entries]. rewrite app_nil_r, He. change (rbrace =? rbrace) with true. cbn iota. by exists st'.
  - change (comma =? rbrace) with false. change (comma =? comma) with true. cbn iota.
    apply IH; [done|done|done|]. unfold SkipSpace.
    pose proof (spaces_length (render_members (MCons w1' k' w2' w3' v' w4' ms) ++ rbrace :: t)).
    unfold tail in Hfuel. rewrite length_app in Hfuel. cbn [length] in Hfuel. lia.
Qed.

Lemma after_members_spec callsMax st es : scan_rel callsMax st es ->
  (after_members st = None <-> oversized callsMax es = false).
Proof.
  intros [Hb _ _ _ _ [Hl _] Hm Hs]. unfold oversized, after_members. apply early_spec in Hb. rewrite Hb, <- Hl. cbn [orb].
  destruct (logitOver st); [done|]. cbn [orb]. set (objs := metadata_objects _) in *.
  assert (Hmeta : metadataOver st || ((metadataObjects st =? 1) && metadataFirstOver st) = metadata_over objs).
  { destruct Hm as [Hn Hm]. rewrite Hn. destruct objs as [|ms1 [|ms2 objs]].
    - by destruct Hm as [_ ->].
    - destruct Hm as (_ & -> & -> & _). done.
    - destruct Hm as [-> _]. unfold metadata_over. destruct (Z.eqb_spec (Z.of_nat (length (ms1 :: ms2 :: objs))) 1); [cbn in *; lia|].
      by rewrite orb_false_r. }
  rewrite Hmeta. destruct (metadata_over objs); [done|]. cbn [orb]. unfold stream_rel, stream_over in *.
  destruct (last _) as [v|]; [|by rewrite Hs]. destruct Hs as (depth & t & Hv & ->).
  rewrite (ObjectWithinLimit_render [] v t depth) by done. rewrite Z.leb_antisym.
  by destruct (requestMetadataMaxElements <? object_len v).
Qed.

Lemma preflight_document callsMax w1 v w2 : 1 <= callsMax ->
  ws w1 = true -> ws w2 = true -> wf maxNestingDepth v = true ->
  (boundRequestMetadata (document w1 v w2) (Some callsMax) = None <-> oversized callsMax (top_entries v) = false).
Proof.
  intros Hc Hw1 Hw2 Hv. assert (He : ends w2) by (exists w2, []; by rewrite app_nil_r).
  assert (H0 : oversized callsMax [] = false).
  { unfold oversized, early. cbn. rewrite !orb_false_r. by apply Z.ltb_ge; lia. }
  unfold boundRequestMetadata. destruct (Z.ltb_spec callsMax 1); [lia|].
  assert (Hover : forall e, requestMetadataOverflow (document w1 v w2) e = Some e).
  { intros e. unfold requestMetadataOverflow. by rewrite json_Valid_document. }
  unfold document at 1. unfold SkipSpace at 1. rewrite (spaces_render _ _ maxNestingDepth) by done.
  destruct v as [b|b|w es|w ms].
  1, 3: done.
  { pose proof (scalar_head b w2 Hv) as Hh. cbn [render top_entries] in *. destruct (b ++ w2) as [|c r]; [done|].
    by destruct Hh as (_ & _ & ->). }
  cbn [wf] in Hv. rewrite !andb_true_iff in Hv. destruct Hv as [[_ Hw] Hms].
  cbn [render app top_entries]. change (lbrace =? lbrace) with true. cbn iota. rewrite <- !app_assoc. cbn [app].
  assert (Hsp : SkipSpace (w ++ render_members ms ++ rbrace :: w2) = SkipSpace (render_members ms ++ rbrace :: w2))
    by (unfold SkipSpace; by rewrite spaces_app).
  rewrite !Hsp. clear Hsp. assert (Hcase : ms = MNil \/ ms <> MNil) by (destruct ms; [by left|by right]). destruct Hcase as [->|Hne].
  { cbn [render_members app entries]. unfold SkipSpace. rewrite spaces_closing by tauto. done. }
  rewrite bool_decide_false by (by rewrite (members_quote _ (maxNestingDepth - 1))).
  pose proof (top_members_render callsMax (maxNestingDepth - 1) ms Hne
    (length (SkipSpace (render_members ms ++ rbrace :: w2))) scan0 [] w2 Hms (scan_rel_0 callsMax ltac:(lia)) ltac:(lia)) as Htop.
  cbn zeta in Htop. rewrite app_nil_l in Htop. destruct (early callsMax (entries ms)) eqn:Ee.
  - destruct Htop as [x ->]. rewrite Hover. unfold oversized. by rewrite Ee.
  - destruct Htop as (st' & -> & Hrel). rewrite <- (after_members_spec callsMax st') by done.
    destruct (after_members st'); [rewrite Hover|]; done.
Qed.

(** A text that is not JSON passes untouched. *)
Lemma preflight_passthrough callsMax body : 1 <= callsMax -> json_Valid body = false ->
  boundRequestMetadata body (Some callsMax) = None.
Proof.
  intros Hc Hv. unfold boundRequestMetadata. destruct (Z.ltb_spec callsMax 1); [lia|].
  assert (Hover : forall e, requestMetadataOverflow body e = None).
  { intros e. unfold requestMetadataOverflow. by rewrite Hv. }
  destruct (SkipSpace body) as [|c r]; [done|]. destruct (c =? lbrace); [|done].
  destruct (bool_decide _); [done|]. destruct (top_members _ _ _ _) as [|x|st ?]; [done|apply Hover|].
  destruct (after_members st); [apply Hover|done].
Qed.

(** C8. boundRequestMetadata refuses a body exactly when the body is a JSON document whose
    decoded collections are oversized: more than 10000 distinct members, a
    messages, tools, functions, input, stop or modalities array of more than
    10000 elements, more than 16384 content parts over all messages, system
    arrays and Responses items, an annotation array of more than 4096 or more
    than 10000 annotations in all, more tool calls than configured, a
    logit_bias map that held more than 10000 keys, more than 10000 metadata
    keys since the last null, or a last stream_options with more than 10000
    members - every count over decoded, case-folded keys, whatever the spelling
    and the white space. Every other body, malformed ones included, passes. *)
Theorem preflight_exact callsMax body : 1 <= callsMax -> bytes_ok body ->
  (boundRequestMetadata body (Some callsMax) <> None <->
   exists w1 v w2, body = document w1 v w2 /\ ws w1 = true /\ ws w2 = true /\ wf maxNestingDepth v = true /\
     oversized callsMax (top_entries v) = true).
Proof.
  intros Hc Hok. split.
  - intros Hn. destruct (json_Valid body) eqn:Hv; [|by destruct (Hn (preflight_passthrough callsMax body Hc Hv))].
    apply json_Valid_spec in Hv as (w1 & v & w2 & -> & Hw1 & Hw2 & Hwf); [|done]. exists w1, v, w2. split_and!; try done.
    destruct (oversized _ _) eqn:E; [done|]. by apply (preflight_document callsMax w1 v w2) in E.
  - intros (w1 & v & w2 & -> & Hw1 & Hw2 & Hwf & Ho) Hn. apply preflight_document in Hn; [congruence|done..].
Qed.

(** Two tool calls in one message, one allowed. *)
Definition two_calls : json :=
  JObj [] (MCons [] (str "messages") [] [32] (JArr []
    (ECons [] (JObj [] (MCons [] (str "Tool_Calls") [] []
       (JArr [] (ECons [] (JScalar (str "1")) [] (ECons [] (JScalar (str "2")) [] ENil))) [] MNil)) [] ENil)) [] MNil).

Example two_calls_refused : boundRequestMetadata (document [10] two_calls []) (Some 1) = Some (CallsOver 1).
Proof. reflexivity. Qed.
Example two_calls_pass : boundRequestMetadata (document [10] two_calls []) (Some 2) = None.
Proof. reflexivity. Qed.
Example two_calls_malformed : boundRequestMetadata (document [10] two_calls [] ++ [rbrace]) (Some 1) = None.
Proof. reflexivity. Qed.

Lemma preflight_exact_witness :
  boundRequestMetadata (document [10] two_calls []) (Some 1) <> None /\ bytes_ok (document [10] two_calls []).
Proof.
  assert (Hok : bytes_ok (document [10] two_calls [])) by (apply (bool_decide_unpack _); vm_compute; exact I).
  split; [|exact Hok]. apply (preflight_exact 1); [lia|exact Hok|].
  exists [10], two_calls, []. repeat split.
Defined.
