(* ===== verification/TokenCap.v ===== *)
(** internal/proxy/request_tokencap.go: the token ceilings a request carries,
    collected from its text and validated before anything trusts them. *)

From S2P Require Import Prelude GoStrings JsonNum GoUtf8 JsonText JsonScan JsonCount.

(** ** The program *)

Definition maxRequestOutputTokens : Z := 1000000.
Definition hostileTokenCap (v : option Z) : bool :=
  match v with Some v => maxRequestOutputTokens <? v | None => false end.

(** A missing member is the empty raw message. *)
Record tokenCapMembers := TokenCaps { MaxTokens : bytes; MaxCompTokens : bytes; MaxOutputTokens : bytes }.
Definition no_caps : tokenCapMembers := TokenCaps [] [] [].

(** The reasons for a 400: a spelling twice, a value that is not an exact
    integer, a value past the ceiling, and the record's own ceiling past it. *)
Inductive cap_err :=
  | CapDuplicate (name : string) | CapNumber (name : string) (e : num_err) | CapOver (name : string) | RecordOver.

Definition tokenCapPresent (raw : bytes) : bool :=
  let trimmed := TrimSpace raw in
  negb (bool_decide (trimmed = [])) && negb (bool_decide (trimmed = str "null")).

(** What the scan keeps: the raw values, and which spellings it saw. *)
Definition cap_scan : Type := tokenCapMembers * (bool * bool * bool).

Definition cap_switch (st : cap_scan) (key : requestKey) (raw : bytes) : result cap_err cap_scan :=
  let '(TokenCaps a b c, (sa, sb, sc)) := st in
  if key_equal key (str "max_tokens") then
    if sa : bool then Err (CapDuplicate "max_tokens") else Ok (TokenCaps raw b c, (true, sb, sc))
  else if key_equal key (str "max_completion_tokens") then
    if sb : bool then Err (CapDuplicate "max_completion_tokens") else Ok (TokenCaps a raw c, (sa, true, sc))
  else if key_equal key (str "max_output_tokens") then
    if sc : bool then Err (CapDuplicate "max_output_tokens") else Ok (TokenCaps a b raw, (sa, sb, true))
  else Ok st.

(** The loop ends at the brace or with the input. *)
Fixpoint cap_members (fuel : nat) (st : cap_scan) (s : bytes) : step cap_scan cap_err :=
  match s with
  | [] => Next st []
  | c :: r0 =>
  if c =? rbrace then Next st r0 else
  match fuel with
  | O => Bad
  | S fuel =>
      match SkipJSONString s with
      | None => Bad
      | Some after =>
          match decodeRequestKey (token s after) with
          | None => Bad
          | Some key =>
              match SkipSpace after with
              | d :: r =>
                  if d =? colon then
                    match SkipSpace r with
                    | [] => Bad
                    | e :: v =>
                        match SkipJSONValue (e :: v) with
                        | None => Bad
                        | Some next =>
                            match cap_switch st key (token (e :: v) next) with
                            | Err x => Halt x
                            | Ok st =>
                                match SkipSpace next with
                                | f :: r =>
                                    if f =? comma then cap_members fuel st (SkipSpace r)
                                    else if f =? rbrace then Next st r
                                    else Bad
                                | [] => Bad
                                end
                            end
                        end
                    end
                  else Bad
              | [] => Bad
              end
          end
      end
  end
  end.

Definition scanTokenCaps (body : bytes) : result cap_err tokenCapMembers :=
  match SkipSpace body with
  | c :: r =>
      if c =? lbrace then
        let s := SkipSpace r in
        match cap_members (length s) (no_caps, (false, false, false)) s with
        | Bad => Ok no_caps
        | Halt e => Err e
        | Next (caps, _) _ => Ok caps
        end
      else Ok no_caps
  | [] => Ok no_caps
  end.

Definition tokenCapValue (raw : bytes) (field : string) : result cap_err (option Z) :=
  if negb (tokenCapPresent raw) then Ok None else
  match Parse raw with
  | Err e => Err (CapNumber field e)
  | Ok n => if maxRequestOutputTokens <? n then Err (CapOver field) else Ok (Some n)
  end.
Definition tokenCapOptional (raw : bytes) (field : string) : option Z :=
  match tokenCapValue raw field with Ok v => v | Err _ => None end.

(** format.MergeTokenCaps *)
Definition MergeTokenCaps (maxCompletion maxTokens : option Z) : option Z :=
  match maxCompletion, maxTokens with
  | Some v, _ => Some v
  | None, Some v => Some v
  | None, None => None
  end.
Definition resolveRequestTokenCap (maxCompletion maxTokens maxOutput : option Z) : option Z :=
  match MergeTokenCaps maxCompletion maxTokens with Some v => Some v | None => maxOutput end.

(** applyTokenCaps, on the record's ReqMaxTokens. *)
Definition applyTokenCaps (body : bytes) (recMaxTokens : option Z) : option Z :=
  match scanTokenCaps body with
  | Err _ => recMaxTokens
  | Ok caps =>
      resolveRequestTokenCap
        (tokenCapOptional (MaxCompTokens caps) "max_completion_tokens")
        (tokenCapOptional (MaxTokens caps) "max_tokens")
        (tokenCapOptional (MaxOutputTokens caps) "max_output_tokens")
  end.
Definition restampReqMaxTokens := applyTokenCaps.

Definition conflictingTokenCapSpellings (body : bytes) : bool :=
  match scanTokenCaps body with
  | Err _ => false
  | Ok caps =>
      tokenCapPresent (MaxOutputTokens caps) &&
      (tokenCapPresent (MaxTokens caps) || tokenCapPresent (MaxCompTokens caps))
  end.

Fixpoint first_cap_error (l : list (string * bytes)) : option cap_err :=
  match l with
  | [] => None
  | (name, raw) :: l =>
      match tokenCapValue raw name with Err e => Some e | Ok _ => first_cap_error l end
  end.

(** [None] for [rec] is the nil record; otherwise its ReqMaxTokens. *)
Definition tokenCapViolation (body : bytes) (rec : option (option Z)) : option cap_err :=
  match scanTokenCaps body with
  | Err e => Some e
  | Ok caps =>
      match first_cap_error [("max_completion_tokens"%string, MaxCompTokens caps);
                             ("max_tokens"%string, MaxTokens caps);
                             ("max_output_tokens"%string, MaxOutputTokens caps)] with
      | Some e => Some e
      | None =>
          match rec with
          | Some v => if hostileTokenCap v then Some RecordOver else None
          | None => None
          end
      end
  end.

(** ** What a document says *)

Definition cap_names : list string := ["max_tokens"; "max_completion_tokens"; "max_output_tokens"]%string.

Definition cap_values (name : string) (es : list (bytes * json)) : list json :=
  map snd (filter (fun e => named e.1 name = true) es).

(** A ceiling as the wire schema has it: null is absent; otherwise a number
    literal whose exact value is an int64 no greater than the bound. *)
Definition cap_value (v : json) (o : option Z) : Prop :=
  match o with
  | None => is_null v = true
  | Some z =>
      z <= maxRequestOutputTokens /\ in_int64 z /\
      exists n, wf_num n /\ v = JScalar (JsonNum.render n) /\ denotes n z
  end.

(** The one value a spelling has in a document, none when it is missing. *)
Definition cap_of (name : string) (es : list (bytes * json)) (o : option Z) : Prop :=
  match cap_values name es with
  | [] => o = None
  | [v] => cap_value v o
  | _ => False
  end.

(** ** Spellings *)

Lemma named_once k a b : named k a = true -> map fold_rune (str a) <> map fold_rune (str b) -> named k b = false.
Proof.
  unfold named, EqualFold. rewrite bool_decide_eq_true. intros -> Hne. by apply bool_decide_eq_false.
Qed.

Lemma cap_values_snoc name es k v :
  cap_values name (es ++ [(k, v)]) = cap_values name es ++ (if named k name then [v] else []).
Proof.
  unfold cap_values. rewrite filter_app, map_app, filter_cons, filter_nil. cbn.
  destruct (named k name); by destruct (decide _).
Qed.

(** The raw message of a value: the value, and behind a scalar what white space
    followed. *)
Definition spelled (raw : bytes) (v : json) : Prop :=
  exists depth w, raw = render v ++ w /\ wf depth v = true /\ ws w = true /\
    match v with JScalar _ => True | _ => w = [] end.

Lemma spelled_trim raw v : spelled raw v ->
  match v with
  | JScalar b => TrimSpace raw = b
  | _ => exists c l, TrimSpace raw = c :: l /\ is_digit c = false /\ (c =? 45) = false /\ c <> 110
  end /\ TrimSpace raw <> [].
Proof.
  intros (depth & w & -> & Hv & Hw & Hnil). destruct v as [b|b|w' es|w' ms].
  2: { destruct (scalar_spec b Hv) as (Hne & Hp & _). cbn [render].
       rewrite TrimSpace_blanks by (done || by apply plain_graphic || by apply ws_blank). done. }
  all: subst w; rewrite app_nil_r; cbn [render];
    match goal with |- context [TrimSpace (?c :: ?l)] =>
      assert (Hc : graphic c) by (by compute); destruct (TrimSpace_head c l Hc) as [l' ->] end;
    (split; [by eexists _, _|done]).
Qed.

Lemma present_spec raw v : spelled raw v -> tokenCapPresent raw = negb (is_null v).
Proof.
  intros Hs. destruct (spelled_trim raw v Hs) as [Ht Hne]. unfold tokenCapPresent.
  rewrite (bool_decide_eq_false_2 (TrimSpace raw = [])) by done. cbn [negb andb]. f_equal.
  destruct v as [b|b|w es|w ms]; cbn [is_null]; [|by rewrite Ht|..];
    destruct Ht as (c & l & -> & _ & _ & Hc); apply bool_decide_eq_false; by intros [= -> _].
Qed.

Lemma number_head n : wf_num n -> exists c l, JsonNum.render n = c :: l /\ (is_digit c = true \/ c = 45).
Proof.
  intros (Hi & Hdig & _). unfold JsonNum.render. destruct (jn_neg n); cbn [with_sign]; [by eexists _, _; split; [|right]|].
  destruct (jn_int n) as [|x i]; [done|]. apply Forall_cons in Hdig as [Hx _]. by eexists _, _; split; [|left].
Qed.
Lemma number_not_null n : wf_num n -> is_null (JScalar (JsonNum.render n)) = false.
Proof.
  intros Hn. destruct (number_head n Hn) as (c & l & Hr & Hc). cbn. apply bool_decide_eq_false. rewrite Hr.
  intros [= -> _]. by destruct Hc.
Qed.

(** A ceiling in bounds is a message that Parse reads in bounds. *)
Lemma cap_value_Parse raw v z : spelled raw v -> Z.of_nat (length (TrimSpace raw)) < 2 ^ 29 ->
  cap_value v (Some z) <-> z <= maxRequestOutputTokens /\ Parse raw = Ok z.
Proof.
  intros Hs Hl. destruct (spelled_trim raw v Hs) as [Ht _]. rewrite (Parse_Ok raw z Hl). cbn [cap_value]. split.
  - intros (Hz & Hin & n & Hwf & -> & Hd). split; [done|]. exists n. by rewrite Ht.
  - intros (Hz & n & Hwf & Hr & Hd & Hin). split; [done|]. split; [done|]. exists n. split; [done|]. split; [|done].
    destruct (number_head n Hwf) as (x & i & Hx & Hc). destruct v as [b|b|w es|w ms]; [|by rewrite <- Ht, Hr|..];
      destruct Ht as (c & l & Ht & Hc1 & Hc2 & _); exfalso; rewrite Ht, Hx in Hr; injection Hr as -> _;
      apply Z.eqb_neq in Hc2; by destruct Hc as [Hc|Hc]; [congruence|].
Qed.

Lemma tokenCapValue_spec raw v name : spelled raw v -> Z.of_nat (length (TrimSpace raw)) < 2 ^ 29 ->
  match tokenCapValue raw name with
  | Ok o => forall o', cap_value v o' <-> o' = o
  | Err _ => forall o, ~ cap_value v o
  end.
Proof.
  intros Hs Hl. pose proof (fun z => cap_value_Parse raw v z Hs Hl) as Hval.
  unfold tokenCapValue. rewrite (present_spec raw v Hs). destruct (is_null v) eqn:En; cbn [negb].
  { intros [z|]; [|done]. split; [|done]. intros (_ & _ & n & Hn & -> & _). apply number_not_null in Hn. congruence. }
  destruct (Parse raw) as [z|e] eqn:Ep.
  - destruct (Z.ltb_spec maxRequestOutputTokens z) as [Hz|Hz]; (intros [z'|]; [rewrite Hval|cbn; rewrite En]).
    + intros [Hz' [= <-]]. lia.
    + done.
    + split; [by intros [_ [= ->]]|by intros [= ->]].
    + by split.
  - intros [z'|]; [rewrite Hval; by intros [_ ?]|cbn; by rewrite En].
Qed.

(** ** The scan *)

Definition slot_rel (L : nat) (name : string) (es : list (bytes * json)) (seen : bool) (raw : bytes) : Prop :=
  match cap_values name es with
  | [] => seen = false /\ raw = []
  | [v] => seen = true /\ spelled raw v /\ (length raw <= L)%nat
  | _ => False
  end.

Definition cap_rel (L : nat) (st : cap_scan) (es : list (bytes * json)) : Prop :=
  let '(TokenCaps a b c, (sa, sb, sc)) := st in
  slot_rel L "max_tokens" es sa a /\ slot_rel L "max_completion_tokens" es sb b /\ slot_rel L "max_output_tokens" es sc c.

Lemma slot_other L name es k v seen raw : named k name = false -> slot_rel L name es seen raw ->
  slot_rel L name (es ++ [(k, v)]) seen raw.
Proof. unfold slot_rel. rewrite cap_values_snoc. intros ->. by rewrite app_nil_r. Qed.
Lemma slot_new L name es k v raw raw' : named k name = true -> spelled raw' v -> (length raw' <= L)%nat ->
  slot_rel L name es false raw -> slot_rel L name (es ++ [(k, v)]) true raw'.
Proof. unfold slot_rel. rewrite cap_values_snoc. intros -> Hs Hl. destruct (cap_values name es) as [|? [|]]; naive_solver. Qed.

(** Some spelling stands twice. *)
Definition twice (es : list (bytes * json)) : Prop := exists name, In name cap_names /\ (2 <= length (cap_values name es))%nat.

Lemma slot_twice L name es k v raw : In name cap_names -> named k name = true -> slot_rel L name es true raw -> twice (es ++ [(k, v)]).
Proof.
  intros Hn Hk Hs. exists name. split; [done|]. rewrite cap_values_snoc, Hk, length_app. cbn.
  unfold slot_rel in Hs. destruct (cap_values name es) as [|? l]; [naive_solver|]. cbn. lia.
Qed.
Lemma twice_app a b : twice a -> twice (a ++ b).
Proof.
  intros (name & Hn & Hl). exists name. split; [done|]. unfold cap_values in *. rewrite filter_app, map_app, length_app. lia.
Qed.

Lemma cap_switch_spec L st es k rk v raw : string_body k = true -> decodeRequestKey (quote :: k ++ [quote]) = Some rk ->
  spelled raw v -> (length raw <= L)%nat -> cap_rel L st es ->
  match cap_switch st rk raw with
  | Ok st => cap_rel L st (es ++ [(unquote k, v)])
  | Err _ => twice (es ++ [(unquote k, v)])
  end.
Proof.
  intros Hk Hd Hs Hl. destruct st as [[a b c] [[sa sb] sc]]. intros (Ha & Hb & Hc). unfold cap_switch.
  rewrite (key_equal_spec k rk "max_tokens"), (key_equal_spec k rk "max_completion_tokens"),
    (key_equal_spec k rk "max_output_tokens") by done.
  change (key_is k) with (named (unquote k)).
  destruct (named (unquote k) "max_tokens") eqn:E1.
  { pose proof (named_once _ _ "max_completion_tokens" E1 ltac:(by vm_compute)) as E2.
    pose proof (named_once _ _ "max_output_tokens" E1 ltac:(by vm_compute)) as E3.
    destruct sa; [apply (slot_twice L "max_tokens" _ _ _ a); [by left|done..]|].
    split; [by apply (slot_new _ _ _ _ _ a)|]. split; by apply slot_other. }
  destruct (named (unquote k) "max_completion_tokens") eqn:E2.
  { pose proof (named_once _ _ "max_output_tokens" E2 ltac:(by vm_compute)) as E3.
    destruct sb; [apply (slot_twice L "max_completion_tokens" _ _ _ b); [right; by left|done..]|].
    split; [by apply slot_other|]. split; [by apply (slot_new _ _ _ _ _ b)|]. by apply slot_other. }
  destruct (named (unquote k) "max_output_tokens") eqn:E3.
  { destruct sc; [apply (slot_twice L "max_output_tokens" _ _ _ c); [right; right; by left|done..]|].
    split; [by apply slot_other|]. split; [by apply slot_other|]. by apply (slot_new _ _ _ _ _ c). }
  split; [by apply slot_other|]. split; by apply slot_other.
Qed.

Lemma cap_members_render L depth : forall ms fuel st es t,
  wf_members depth ms = true -> cap_rel L st es -> (fuel <= L)%nat ->
  (length (SkipSpace (render_members ms ++ rbrace :: t)) <= fuel)%nat ->
  match cap_members fuel st (SkipSpace (render_members ms ++ rbrace :: t)) with
  | Bad => False
  | Halt _ => twice (es ++ entries ms)
  | Next st' _ => cap_rel L st' (es ++ entries ms)
  end.
Proof.
  induction ms as [|w1 k w2 w3 v w4 ms IH]; intros fuel st es t Hw Hrel HL Hf.
  { cbn [render_members app entries]. unfold SkipSpace. rewrite spaces_closing, app_nil_r by tauto.
    destruct fuel; exact Hrel. }
  cbn [wf_members] in Hw. rewrite !andb_true_iff in Hw. destruct Hw as [[[[[[Hw1 Hk] Hw2] Hw3] Hv] Hw4] Hms].
  unfold SkipSpace in *. rewrite render_members_cons, spaces_app, spaces_closing in Hf |- * by (done || tauto).
  set (tail := w4 ++ _) in *. assert (Hends : ends tail) by (by apply ends_members).
  set (after := w2 ++ colon :: w3 ++ render v ++ tail) in *.
  destruct fuel as [|fuel]; [cbn in Hf; lia|]. cbn [cap_members entries]. change (quote =? rbrace) with false. cbn iota.
  assert (Hfuel : (length tail <= fuel)%nat /\ (length (render v ++ tail) <= L)%nat).
  { unfold after in Hf. cbn [length] in Hf. repeat (rewrite ?length_app in Hf; cbn [length] in Hf). rewrite length_app. lia. }
  destruct Hfuel as [Hfuel HtokL].
  rewrite SkipJSONString_body, token_string by done.
  destruct (decodeRequestKey_spec k Hk) as (rk & Hd & _). rewrite Hd.
  assert (Ha : SkipSpace after = colon :: w3 ++ render v ++ tail).
  { unfold SkipSpace, after. rewrite spaces_app, spaces_closing by (done || tauto). done. }
  assert (Hsp : SkipSpace (w3 ++ render v ++ tail) = render v ++ tail) by (unfold SkipSpace; by rewrite (spaces_render _ _ depth)).
  rewrite Ha. change (colon =? colon) with true. cbn iota. rewrite Hsp.
  destruct (value_token v depth tail Hv Hends) as (r & w & Hskip & Hr & Htok & Hww & Hnil).
  assert (Hspell : spelled (token (render v ++ tail) r) v) by (rewrite Htok; by exists depth, w).
  assert (HlenL : (length (token (render v ++ tail) r) <= L)%nat).
  { etransitivity; [|exact HtokL]. unfold token. rewrite length_take. lia. }
  destruct (render v ++ tail) as [|c s] eqn:Er; [by destruct (render_head v depth Hv) as (? & ? & Hr' & _); rewrite Hr' in Er|].
  rewrite Hskip. replace (es ++ (unquote k, v) :: entries ms) with ((es ++ [(unquote k, v)]) ++ entries ms) by (by rewrite <- app_assoc).
  pose proof (cap_switch_spec L st es k rk v _ Hk Hd Hspell HlenL Hrel) as Hsw.
  destruct (cap_switch st rk _) as [st'|x]; [|by apply twice_app].
  rewrite Hr. unfold tail. rewrite SkipSpace_tail_members by done. destruct ms as [|w1' k' w2' w3' v' w4' ms].
  - cbn [entries]. rewrite app_nil_r. exact Hsw.
  - change (comma =? comma) with true. cbn iota. apply IH; [done|done|lia|].
    unfold SkipSpace. pose proof (spaces_length (render_members (MCons w1' k' w2' w3' v' w4' ms) ++ rbrace :: t)).
    unfold tail in Hfuel. rewrite length_app in Hfuel. cbn [length] in Hfuel. lia.
Qed.

Lemma scanTokenCaps_spec w1 v w2 : ws w1 = true -> ws w2 = true -> wf maxNestingDepth v = true ->
  match scanTokenCaps (document w1 v w2) with
  | Err _ => twice (top_entries v)
  | Ok caps => exists seen, cap_rel (length (document w1 v w2)) (caps, seen) (top_entries v)
  end.
Proof.
  intros Hw1 Hw2 Hv. assert (H0 : forall L, cap_rel L (no_caps, (false, false, false)) []) by done.
  unfold scanTokenCaps. unfold document at 1. unfold SkipSpace at 1. rewrite (spaces_render _ _ maxNestingDepth) by done.
  destruct v as [b|b|w es|w ms].
  1, 3: by eexists.
  { pose proof (scalar_head b w2 Hv) as Hh. cbn [render top_entries] in *. destruct (b ++ w2) as [|c r]; [done|].
    destruct Hh as (_ & _ & ->). by eexists. }
  cbn [wf] in Hv. rewrite !andb_true_iff in Hv. destruct Hv as [[_ Hw] Hms].
  cbn [render app top_entries]. change (lbrace =? lbrace) with true. cbn iota. rewrite <- !app_assoc. cbn [app].
  assert (Hsp : SkipSpace (w ++ render_members ms ++ rbrace :: w2) = SkipSpace (render_members ms ++ rbrace :: w2))
    by (unfold SkipSpace; by rewrite spaces_app).
  rewrite Hsp. clear Hsp. set (s := SkipSpace (render_members ms ++ rbrace :: w2)).
  pose proof (cap_members_render (length (document w1 (JObj w ms) w2)) (maxNestingDepth - 1) ms (length s)
    (no_caps, (false, false, false)) [] w2 Hms (H0 _)) as H. fold s in H. cbn [app] in H.
  assert (Hs : (length s <= length (document w1 (JObj w ms) w2))%nat).
  { unfold s, SkipSpace, document. pose proof (spaces_length (render_members ms ++ rbrace :: w2)) as Hl.
    etransitivity; [exact Hl|]. cbn [render]. repeat (rewrite !length_app; cbn [length]). lia. }
  specialize (H Hs ltac:(lia)). destruct (cap_members _ _ s) as [|x|[caps seen] r]; [done|done|]. by exists seen.
Qed.

(** ** The verdict *)

Lemma trim_by_length f n l : (length (trim_by f n l) <= length l)%nat.
Proof.
  revert l. induction n as [|n IH]; intros l; cbn [trim_by]; [lia|]. destruct (f l) as [|k]; [lia|].
  pose proof (IH (drop (S k) l)). rewrite length_drop in H. lia.
Qed.
Lemma TrimSpace_length l : (length (TrimSpace l) <= length l)%nat.
Proof.
  unfold TrimSpace. rewrite length_rev.
  pose proof (trim_by_length space_suffix (length (trim_by space_prefix (length l) l)) (rev (trim_by space_prefix (length l) l))) as H.
  rewrite length_rev in H. pose proof (trim_by_length space_prefix (length l) l). lia.
Qed.

(** One slot of the scan: its value is what the document says, or an error. *)
Lemma slot_value L name es seen raw : Z.of_nat L < 2 ^ 29 -> slot_rel L name es seen raw ->
  match tokenCapValue raw name with
  | Ok o => forall o', cap_of name es o' <-> o' = o
  | Err _ => forall o, ~ cap_of name es o
  end /\ (forall o, cap_of name es o -> tokenCapPresent raw = bool_decide (is_Some o)).
Proof.
  intros HL Hs. unfold slot_rel, cap_of in *. destruct (cap_values name es) as [|v [|v' l]]; [| |done].
  { destruct Hs as [_ ->]. split; [by intros o|]. by intros o ->. }
  destruct Hs as (_ & Hs & Hl). pose proof (TrimSpace_length raw) as Htl.
  split; [by apply tokenCapValue_spec; [|lia]|]. intros o Ho. rewrite (present_spec raw v Hs). destruct o as [z|]; cbn in Ho.
  - destruct Ho as (_ & _ & n & Hn & -> & _). by rewrite number_not_null.
  - by rewrite Ho.
Qed.

Lemma not_twice es : (exists o1 o2 o3, cap_of "max_tokens" es o1 /\ cap_of "max_completion_tokens" es o2 /\
  cap_of "max_output_tokens" es o3) -> ~ twice es.
Proof.
  intros (o1 & o2 & o3 & H1 & H2 & H3) (name & Hn & Hl).
  assert (Hone : forall name o, cap_of name es o -> (length (cap_values name es) <= 1)%nat).
  { intros nm o. unfold cap_of. destruct (cap_values nm es) as [|? [|]]; cbn; [lia|lia|done]. }
  destruct Hn as [<-|[<-|[<-|[]]]]; [apply Hone in H1|apply Hone in H2|apply Hone in H3]; lia.
Qed.

(** C19. The token ceilings of a JSON request are trusted only when they are
    exact: tokenCapViolation accepts the body precisely when each of
    max_tokens, max_completion_tokens and max_output_tokens - under any
    spelling of its name that encoding/json would fold to it - stands at most
    once and is null or a number literal whose exact value is an integer no
    greater than 1000000. The ceiling then recorded for scheduling is that
    value, by the precedence of the three names, and a mix of the Responses
    spelling with a Chat one is detected exactly. *)
Theorem token_caps_exact w1 v w2 : ws w1 = true -> ws w2 = true -> wf maxNestingDepth v = true ->
  Z.of_nat (length (document w1 v w2)) < 2 ^ 29 ->
  let body := document w1 v w2 in
  let caps o1 o2 o3 := cap_of "max_tokens" (top_entries v) o1 /\ cap_of "max_completion_tokens" (top_entries v) o2 /\
    cap_of "max_output_tokens" (top_entries v) o3 in
  (tokenCapViolation body None = None <-> exists o1 o2 o3, caps o1 o2 o3) /\
  forall o1 o2 o3, caps o1 o2 o3 ->
    (forall rec, applyTokenCaps body rec = match o2, o1 with Some n, _ => Some n | None, Some n => Some n | None, None => o3 end) /\
    conflictingTokenCapSpellings body = bool_decide (is_Some o3) && (bool_decide (is_Some o1) || bool_decide (is_Some o2)).
Proof.
  intros Hw1 Hw2 Hv Hlen body caps. pose proof (scanTokenCaps_spec w1 v w2 Hw1 Hw2 Hv) as Hscan.
  unfold tokenCapViolation, applyTokenCaps, conflictingTokenCapSpellings, tokenCapOptional. fold body in Hscan |- *.
  destruct (scanTokenCaps body) as [[a b c]|e].
  2: { split; [split; [done|intros H; by apply not_twice in H]|].
       intros o1 o2 o3 H. exfalso. apply (not_twice (top_entries v)); [by exists o1, o2, o3|done]. }
  destruct Hscan as ([[sa sb] sc] & Ha & Hb & Hc). cbn [MaxTokens MaxCompTokens MaxOutputTokens first_cap_error].
  destruct (slot_value _ _ _ _ _ Hlen Ha) as [Va Pa]. destruct (slot_value _ _ _ _ _ Hlen Hb) as [Vb Pb].
  destruct (slot_value _ _ _ _ _ Hlen Hc) as [Vc Pc]. split.
  - destruct (tokenCapValue b _) as [ob|e]; [|split; [done|intros (o1 & o2 & o3 & _ & H & _); by apply Vb in H]].
    destruct (tokenCapValue a _) as [oa|e]; [|split; [done|intros (o1 & o2 & o3 & H & _ & _); by apply Va in H]].
    destruct (tokenCapValue c _) as [oc|e]; [|split; [done|intros (o1 & o2 & o3 & _ & _ & H); by apply Vc in H]].
    split; [|done]. intros _. exists oa, ob, oc. split; [by apply Va|]. split; [by apply Vb|by apply Vc].
  - intros o1 o2 o3 (H1 & H2 & H3). rewrite (Pa _ H1), (Pb _ H2), (Pc _ H3). split; [|done]. intros rec.
    destruct (tokenCapValue a _) as [oa|e]; [apply Va in H1 as ->|by apply Va in H1].
    destruct (tokenCapValue b _) as [ob|e]; [apply Vb in H2 as ->|by apply Vb in H2].
    destruct (tokenCapValue c _) as [oc|e]; [apply Vc in H3 as ->|by apply Vc in H3].
    unfold resolveRequestTokenCap, MergeTokenCaps. by destruct ob, oa.
Qed.

Definition one_cap (name value : string) : json := JObj [] (MCons [] (str name) [] [] (JScalar (str value)) [32] MNil).

Example cap_folded : tokenCapViolation (document [] (one_cap "Max_Tokens" "1.5e7") []) None = Some (CapOver "max_tokens").
Proof. reflexivity. Qed.

Lemma token_caps_exact_witness :
  tokenCapViolation (document [] (one_cap "MAX_TOKENS" "1e3") []) None = None /\
  applyTokenCaps (document [] (one_cap "MAX_TOKENS" "1e3") []) None = Some 1000.
Proof.
  destruct (token_caps_exact [] (one_cap "MAX_TOKENS" "1e3") []) as [Hv Hc]; [reflexivity..|].
  assert (H : cap_of "max_tokens" (top_entries (one_cap "MAX_TOKENS" "1e3")) (Some 1000)).
  { vm_compute. split; [done|]. split; [done|]. exists (JNum false [49] None (Some (101, None, [51]))). split; [|done].
    split; [done|]. split; [by repeat constructor|]. split; [by left|]. split; [done|]. cbv. split; [by left|]. split; [done|by repeat constructor]. }
  split; [apply Hv; exists (Some 1000), None, None; split; [exact H|done]|].
  destruct (Hc (Some 1000) None None) as [Ha _]; [split; [exact H|done]|]. apply Ha.
Defined.
