(* ===== verification/Retain.v ===== *)
(** internal/metrics: the observability record (metrics.go), its error
    predicate, and the bounds every record is held to before it is kept
    (retain.go). *)

From S2P Require Import Prelude GoTime GoUtf8.

(** ** Records *)

(** RetryAttempt, without the fields no modelled code reads. *)
Record RetryAttempt := Attempt {
  a_StatusCode : Z;
  a_ErrorType : bytes;
  a_ErrorCode : bytes;
  a_ErrorMsg : bytes;
  a_ProviderRequestID : bytes;
  a_ProviderServer : bytes;
  a_ProviderModel : bytes;
}.

(** Record: the texts that have a bound, and what the feed and the aggregates
    read. *)
Record Rec := MkRec {
  r_ID : bytes;
  r_Start : Time;
  r_StatusCode : Z;
  r_TTFTMs : Z;
  r_InputTokens : Z;
  r_OutputTokens : Z;
  r_CacheReadTokens : Z;
  r_ToolCalls : Z;
  r_Path : bytes;
  r_Method : bytes;
  r_Provider : bytes;
  r_Model : bytes;
  r_ProviderModel : bytes;
  r_ProviderRequestID : bytes;
  r_ProviderServer : bytes;
  r_FinishReason : bytes;
  r_ErrorType : bytes;
  r_ErrorCode : bytes;
  r_ErrorMsg : bytes;
  r_Client : bytes;
  r_UserAgent : bytes;
  r_ClientIP : bytes;
  r_ClientLang : bytes;
  r_ConversationID : bytes;
  r_ParentConversationID : bytes;
  r_ReqToolChoice : bytes;
  r_ReqResponseFormat : bytes;
  r_ReqServiceTier : bytes;
  r_LastTurnRole : bytes;
  r_DebugSessionID : bytes;
  r_ToolNames : list bytes;
  r_Attempts : list RetryAttempt;
}.

Definition StatusClientClosedRequest : Z := 499.

Definition absorbedServerFailure (attempts : list RetryAttempt) : bool :=
  existsb (fun a => 500 <=? a_StatusCode a) attempts.

Definition present (s : bytes) : bool := negb (bool_decide (s = [])).

Definition OutcomeIsError (status : Z) (typ code : bytes) : bool :=
  if status =? 429 then false else
  if status =? StatusClientClosedRequest then present typ else
  present typ || (400 <=? status).

Definition IsError (r : Rec) : bool :=
  OutcomeIsError (r_StatusCode r) (r_ErrorType r) (r_ErrorCode r) || absorbedServerFailure (r_Attempts r).

(** ** Bounds *)

Definition RetainedClientMax : nat := 256.
Definition RetainedUserAgentMax : nat := 1024.
Definition RetainedClientIPMax : nat := 128.
Definition RetainedClientLangMax : nat := RetainedClientMax.
Definition retainedRecordPathMax : nat := 1024.
Definition retainedRecordMethodMax : nat := 32.
Definition retainedRecordProviderTextMax : nat := 512.
Definition RetainedErrorMsgMax : nat := 512.
Definition retainedRecordRequestMetaMax : nat := 512.
Definition retainedRecordConversationMax : nat := 514.
Definition retainedRecordToolNameMax : nat := 128.
Definition retainedToolCallIDMax : nat := 256.
Definition RetainedToolNamesMax : nat := 64.
Definition retainedRecordDebugSessionMax : nat := 128.
Definition PreviewMaxBytes : nat := 120.

(** The three bytes of U+2026. *)
Definition recordTruncationSuffix : bytes := [226; 128; 166].

(** The loop that moves [cut] back to a rune start. *)
Fixpoint back_off (s : bytes) (cut : nat) : nat :=
  match cut with
  | O => O
  | S c => if RuneStart (nth cut s 0) then cut else back_off s c
  end.

Definition truncateUTF8 (s : bytes) (cut : nat) : bytes := take (back_off s cut) s ++ recordTruncationSuffix.

Definition retainRecordText (s : bytes) (max : nat) : bytes :=
  if Nat.leb (length s) max then s else truncateUTF8 s (max - length recordTruncationSuffix).

Definition TruncatePreview (s : bytes) : bytes :=
  if Nat.leb (length s) PreviewMaxBytes then s else truncateUTF8 s PreviewMaxBytes.

(** The field after the call, and whether it changed. *)
Definition retainTextField (dst : bytes) (max : nat) : bytes * bool :=
  if Nat.leb (length dst) max then (dst, false) else (retainRecordText dst max, true).

Definition RetainToolName (name : bytes) : bytes := retainRecordText name retainedRecordToolNameMax.

Definition retainedToolNames (names : list bytes) : list bytes :=
  let keep := if Nat.ltb RetainedToolNamesMax (length names) then RetainedToolNamesMax else length names in
  let bounded := negb (Nat.eqb keep (length names)) ||
    existsb (fun n => Nat.ltb retainedRecordToolNameMax (length n)) names in
  if negb bounded then names else map RetainToolName (take keep names).

Definition retainAttemptText (a : RetryAttempt) : RetryAttempt * bool :=
  let '(msg, c1) := retainTextField (a_ErrorMsg a) RetainedErrorMsgMax in
  let '(typ, c2) := retainTextField (a_ErrorType a) retainedRecordProviderTextMax in
  let '(code, c3) := retainTextField (a_ErrorCode a) retainedRecordProviderTextMax in
  let '(rid, c4) := retainTextField (a_ProviderRequestID a) retainedRecordProviderTextMax in
  let '(server, c5) := retainTextField (a_ProviderServer a) retainedRecordProviderTextMax in
  let '(model, c6) := retainTextField (a_ProviderModel a) retainedRecordProviderTextMax in
  (Attempt (a_StatusCode a) typ code msg rid server model, c1 || c2 || c3 || c4 || c5 || c6).

(** retainedAttempts: [out] is the copy, made at the first change. *)
Fixpoint attempts_loop (orig : list RetryAttempt) (out : option (list RetryAttempt)) (i : nat) (l : list RetryAttempt)
    : option (list RetryAttempt) :=
  match l with
  | [] => out
  | a :: l =>
      let '(attempt, changed) := retainAttemptText a in
      if negb changed then attempts_loop orig out (S i) l else
      let copy := match out with Some o => o | None => orig end in
      attempts_loop orig (Some (<[i := attempt]> copy)) (S i) l
  end.
Definition retainedAttempts (l : list RetryAttempt) : list RetryAttempt :=
  match attempts_loop l None 0 l with None => l | Some out => out end.

Definition retainRecordTextFields (r : Rec) : Rec :=
  let cut v max := (retainTextField v max).1 in
  MkRec (r_ID r) (r_Start r) (r_StatusCode r) (r_TTFTMs r) (r_InputTokens r) (r_OutputTokens r)
    (r_CacheReadTokens r) (r_ToolCalls r)
    (cut (r_Path r) retainedRecordPathMax)
    (cut (r_Method r) retainedRecordMethodMax)
    (cut (r_Provider r) retainedRecordProviderTextMax)
    (cut (r_Model r) retainedRecordProviderTextMax)
    (cut (r_ProviderModel r) retainedRecordProviderTextMax)
    (cut (r_ProviderRequestID r) retainedRecordProviderTextMax)
    (cut (r_ProviderServer r) retainedRecordProviderTextMax)
    (cut (r_FinishReason r) retainedRecordProviderTextMax)
    (cut (r_ErrorType r) retainedRecordProviderTextMax)
    (cut (r_ErrorCode r) retainedRecordProviderTextMax)
    (cut (r_ErrorMsg r) RetainedErrorMsgMax)
    (cut (r_Client r) RetainedClientMax)
    (cut (r_UserAgent r) RetainedUserAgentMax)
    (cut (r_ClientIP r) RetainedClientIPMax)
    (cut (r_ClientLang r) RetainedClientLangMax)
    (cut (r_ConversationID r) retainedRecordConversationMax)
    (cut (r_ParentConversationID r) retainedRecordConversationMax)
    (cut (r_ReqToolChoice r) retainedRecordRequestMetaMax)
    (cut (r_ReqResponseFormat r) retainedRecordRequestMetaMax)
    (cut (r_ReqServiceTier r) retainedRecordRequestMetaMax)
    (cut (r_LastTurnRole r) retainedRecordRequestMetaMax)
    (cut (r_DebugSessionID r) retainedRecordDebugSessionMax)
    (retainedToolNames (r_ToolNames r)) (r_Attempts r).

Definition set_r_Attempts (l : list RetryAttempt) (r : Rec) : Rec :=
  MkRec (r_ID r) (r_Start r) (r_StatusCode r) (r_TTFTMs r) (r_InputTokens r) (r_OutputTokens r)
    (r_CacheReadTokens r) (r_ToolCalls r) (r_Path r) (r_Method r) (r_Provider r) (r_Model r) (r_ProviderModel r)
    (r_ProviderRequestID r) (r_ProviderServer r) (r_FinishReason r) (r_ErrorType r) (r_ErrorCode r) (r_ErrorMsg r)
    (r_Client r) (r_UserAgent r) (r_ClientIP r) (r_ClientLang r) (r_ConversationID r) (r_ParentConversationID r)
    (r_ReqToolChoice r) (r_ReqResponseFormat r) (r_ReqServiceTier r) (r_LastTurnRole r) (r_DebugSessionID r)
    (r_ToolNames r) l.

(** In place, on a record its caller owns. *)
Definition retainRecord (r : Rec) : Rec :=
  let r := retainRecordTextFields r in
  set_r_Attempts (map (fun a => (retainAttemptText a).1) (r_Attempts r)) r.
Definition RetainRecord (r : option Rec) : option Rec :=
  match r with None => None | Some r => Some (retainRecord r) end.

(** On the copy that is published while the request runs. *)
Definition retainRecordSnapshot (r : Rec) : Rec :=
  let r := retainRecordTextFields r in
  set_r_Attempts (retainedAttempts (r_Attempts r)) r.

(** ** Cutting a text at a rune *)

(** Where the loop stops. *)
Lemma back_off_spec s cut : (back_off s cut <= cut)%nat /\
  (back_off s cut = 0%nat \/ RuneStart (nth (back_off s cut) s 0) = true) /\
  forall j, (back_off s cut < j <= cut)%nat -> RuneStart (nth j s 0) = false.
Proof.
  induction cut as [|c (H1 & H2 & H3)]; cbn [back_off]; [repeat split; [lia|by left|lia]|].
  destruct (RuneStart (nth (S c) s 0)) eqn:E; [repeat split; [lia|by right|lia]|].
  repeat split; [lia|done|]. intros j Hj. destruct (decide (j = S c)) as [->|]; [done|apply H3; lia].
Qed.


(** What a bound does to a text: nothing when it fits; otherwise it keeps the
    longest prefix that ends at a rune and leaves room for the mark. *)
Definition cut_to (max : nat) (t t' : bytes) : Prop :=
  if Nat.leb (length t) max then t' = t else
  (length t' <= max)%nat /\ exists k, t' = take k t ++ recordTruncationSuffix /\
    (forall j, (k < j <= max - 3)%nat -> RuneStart (nth j t 0) = false) /\
    (Utf8Valid t = true -> Utf8Valid t' = true /\ (bytes_ok t -> (max - 6 <= k)%nat)).

Lemma truncateUTF8_spec t cut : (cut < length t)%nat ->
  (length (truncateUTF8 t cut) <= cut + 3)%nat /\ exists k, truncateUTF8 t cut = take k t ++ recordTruncationSuffix /\
    (forall j, (k < j <= cut)%nat -> RuneStart (nth j t 0) = false) /\
    (Utf8Valid t = true -> Utf8Valid (truncateUTF8 t cut) = true /\ (bytes_ok t -> (cut - 3 <= k)%nat)).
Proof.
  intros Hc. destruct (back_off_spec t cut) as (Hle & Hstart & Hnot). unfold truncateUTF8. split.
  { rewrite length_app, length_take. cbn [length recordTruncationSuffix]. lia. }
  exists (back_off t cut). split; [done|]. split; [done|]. intros Hv. split.
  - apply (Utf8Valid_app (length t)); [rewrite length_take; lia| |done]. destruct Hstart as [->|Hs]; [done|].
    by apply (Utf8Valid_cut (length t)); [lia|done|lia|].
  - intros Hok. destruct (start_near (length t) t cut) as (i & Hi1 & Hi2 & Hi3); [lia|done..|].
    destruct (Nat.ltb_spec (back_off t cut) i); [|lia]. rewrite Hnot in Hi3 by lia. done.
Qed.

Lemma retainRecordText_cut t max : (3 <= max)%nat -> cut_to max t (retainRecordText t max).
Proof.
  intros Hm. unfold cut_to, retainRecordText. destruct (Nat.leb_spec (length t) max); [done|].
  cbn [length recordTruncationSuffix]. destruct (truncateUTF8_spec t (max - 3)) as (Hl & k & Hk); [lia|].
  split; [lia|]. exists k. by replace (max - 6)%nat with (max - 3 - 3)%nat by lia.
Qed.

Lemma retainTextField_text t max : (retainTextField t max).1 = retainRecordText t max.
Proof. unfold retainTextField. destruct (Nat.leb _ _) eqn:E; [|done]. cbn. unfold retainRecordText. by rewrite E. Qed.
Lemma retainTextField_same t max : (retainTextField t max).2 = false -> retainRecordText t max = t.
Proof. unfold retainTextField, retainRecordText. by destruct (Nat.leb _ _). Qed.

Lemma cut_length max t t' : cut_to max t t' -> (length t' <= max)%nat.
Proof. unfold cut_to. destruct (Nat.leb_spec (length t) max); [by intros ->|by intros [? _]]. Qed.
Lemma cut_present max t t' : cut_to max t t' -> present t' = present t.
Proof.
  unfold cut_to, present. destruct (Nat.leb_spec (length t) max); [by intros ->|].
  intros (_ & k & -> & _). f_equal. rewrite !bool_decide_eq_false_2; [done|by intros ->; cbn in *; lia|].
  intros E. by destruct (take k t).
Qed.
Lemma text_fits t max : (length t <= max)%nat -> retainRecordText t max = t.
Proof. intros Ht. unfold retainRecordText. by destruct (Nat.leb_spec (length t) max); [|lia]. Qed.
Lemma text_bounded t max : (3 <= max)%nat -> (length (retainRecordText t max) <= max)%nat.
Proof. intros Hm. eapply cut_length, retainRecordText_cut, Hm. Qed.
#[export] Hint Resolve text_bounded : core.

(** ** Lists of texts *)

Lemma retainedToolNames_map l : retainedToolNames l = map RetainToolName (take RetainedToolNamesMax l).
Proof.
  unfold retainedToolNames. destruct (Nat.ltb_spec RetainedToolNamesMax (length l)) as [Hl|Hl].
  { destruct (Nat.eqb_spec RetainedToolNamesMax (length l)); [lia|done]. }
  rewrite Nat.eqb_refl, !(take_ge l) by lia. cbn [negb orb]. destruct (existsb _ l) eqn:E; [done|]. cbn [negb].
  clear Hl. induction l as [|n l IH]; [done|]. cbn [existsb] in E. apply orb_false_iff in E as [En El].
  apply Nat.ltb_ge in En. cbn [map]. unfold RetainToolName at 1. by rewrite text_fits, <- IH by done.
Qed.

Definition kept_attempt (a : RetryAttempt) : RetryAttempt := (retainAttemptText a).1.

Lemma kept_attempt_texts a : kept_attempt a =
  Attempt (a_StatusCode a) (retainRecordText (a_ErrorType a) 512) (retainRecordText (a_ErrorCode a) 512)
    (retainRecordText (a_ErrorMsg a) 512) (retainRecordText (a_ProviderRequestID a) 512)
    (retainRecordText (a_ProviderServer a) 512) (retainRecordText (a_ProviderModel a) 512).
Proof.
  unfold kept_attempt, retainAttemptText, RetainedErrorMsgMax, retainedRecordProviderTextMax.
  repeat lazymatch goal with |- context [match retainTextField ?t ?m with _ => _ end] =>
    rewrite (surjective_pairing (retainTextField t m)) end. cbn [fst]. by rewrite !retainTextField_text.
Qed.

Lemma kept_attempt_same a : (retainAttemptText a).2 = false -> kept_attempt a = a.
Proof.
  rewrite kept_attempt_texts. unfold retainAttemptText, RetainedErrorMsgMax, retainedRecordProviderTextMax.
  repeat lazymatch goal with |- context [match retainTextField ?t ?m with _ => _ end] =>
    rewrite (surjective_pairing (retainTextField t m)) end. cbn [snd].
  rewrite !orb_false_iff. intros [[[[[H1 H2] H3] H4] H5] H6].
  rewrite !retainTextField_same by done. by destruct a.
Qed.

Lemma attempts_loop_spec orig : forall l pre out, orig = pre ++ l ->
  match out with None => map kept_attempt pre = pre | Some o => o = map kept_attempt pre ++ l end ->
  match attempts_loop orig out (length pre) l with None => map kept_attempt orig = orig | Some o => o = map kept_attempt orig end.
Proof.
  induction l as [|a l IH]; intros pre out Horig Hout; cbn [attempts_loop].
  { rewrite app_nil_r in Horig. subst. destruct out; [by rewrite app_nil_r in Hout|done]. }
  pose proof (kept_attempt_same a) as Hsame. unfold kept_attempt at 1 in Hsame.
  destruct (retainAttemptText a) as [a' changed] eqn:Ea. cbn [fst snd] in Hsame.
  assert (Ha : kept_attempt a = a') by (unfold kept_attempt; by rewrite Ea).
  assert (Hnext : orig = (pre ++ [a]) ++ l) by (by rewrite <- app_assoc).
  replace (S (length pre)) with (length (pre ++ [a])) by (rewrite length_app; cbn; lia).
  destruct changed; cbn [negb]; apply IH; rewrite ?map_app; cbn [map]; rewrite ?Ha; try done.
  - assert (Hc : match out with Some o => o | None => orig end = map kept_attempt pre ++ a :: l).
    { destruct out as [o|]; [done|by rewrite Hout]. }
    rewrite Hc, insert_app_r_alt by (rewrite length_map; lia). rewrite length_map, Nat.sub_diag, <- app_assoc. done.
  - destruct out as [o|]; [by rewrite Hout, Hsame, <- app_assoc|by rewrite Hout, Hsame].
Qed.

Lemma retainedAttempts_map l : retainedAttempts l = map kept_attempt l.
Proof.
  unfold retainedAttempts. pose proof (attempts_loop_spec l l [] None eq_refl eq_refl) as H. cbn [length] in H.
  by destruct (attempts_loop l None 0 l).
Qed.

(** ** The record *)

Definition texts (r : Rec) : list bytes :=
  [r_Path r; r_Method r; r_Provider r; r_Model r; r_ProviderModel r; r_ProviderRequestID r; r_ProviderServer r;
   r_FinishReason r; r_ErrorType r; r_ErrorCode r; r_ErrorMsg r; r_Client r; r_UserAgent r; r_ClientIP r;
   r_ClientLang r; r_ConversationID r; r_ParentConversationID r; r_ReqToolChoice r; r_ReqResponseFormat r;
   r_ReqServiceTier r; r_LastTurnRole r; r_DebugSessionID r].
Definition text_bounds : list nat :=
  [1024; 32; 512; 512; 512; 512; 512; 512; 512; 512; 512; 256; 1024; 128; 256; 514; 514; 512; 512; 512; 512; 128]%nat.
Definition attempt_texts (a : RetryAttempt) : list bytes :=
  [a_ErrorType a; a_ErrorCode a; a_ErrorMsg a; a_ProviderRequestID a; a_ProviderServer a; a_ProviderModel a].

(** The record that is kept for [r]. *)
Record kept (r r' : Rec) : Prop := {
  kp_texts : Forall3 cut_to text_bounds (texts r) (texts r');
  kp_names : Forall2 (cut_to 128) (take 64 (r_ToolNames r)) (r_ToolNames r');
  kp_attempts : Forall2 (fun a a' => a_StatusCode a' = a_StatusCode a /\
    Forall2 (cut_to 512) (attempt_texts a) (attempt_texts a')) (r_Attempts r) (r_Attempts r');
  kp_rest : (r_ID r', r_Start r', r_StatusCode r', r_TTFTMs r', r_InputTokens r', r_OutputTokens r',
      r_CacheReadTokens r', r_ToolCalls r') =
    (r_ID r, r_Start r, r_StatusCode r, r_TTFTMs r, r_InputTokens r, r_OutputTokens r, r_CacheReadTokens r,
      r_ToolCalls r);
}.

Lemma snapshot_same r : retainRecordSnapshot r = retainRecord r.
Proof. unfold retainRecordSnapshot, retainRecord. by rewrite retainedAttempts_map. Qed.

Lemma retain_kept r : kept r (retainRecord r).
Proof.
  destruct r. unfold retainRecord, retainRecordTextFields, set_r_Attempts. cbn. split; [..|done]; cbn.
  - rewrite !retainTextField_text. unfold texts, text_bounds. cbn -[retainRecordText].
    repeat constructor; apply retainRecordText_cut; by apply Nat.leb_le.
  - rewrite retainedToolNames_map. unfold RetainedToolNamesMax. induction (take 64 _); constructor; [|done].
    apply retainRecordText_cut. by apply Nat.leb_le.
  - induction r_Attempts0 as [|a l IH]; constructor; [|done]. change (retainAttemptText a).1 with (kept_attempt a).
    rewrite kept_attempt_texts. split; [done|]. cbn -[retainRecordText].
    repeat constructor; apply retainRecordText_cut; by apply Nat.leb_le.
Qed.

Lemma text_twice t max : (3 <= max)%nat -> retainRecordText (retainRecordText t max) max = retainRecordText t max.
Proof. intros Hm. by apply text_fits, text_bounded. Qed.

Lemma kept_attempt_twice a : kept_attempt (kept_attempt a) = kept_attempt a.
Proof. rewrite !kept_attempt_texts. cbn -[retainRecordText]. by rewrite !text_twice by (by apply Nat.leb_le). Qed.

(** A record whose texts fit passes unchanged. *)
Lemma retain_fits r : Forall2 (fun m t => (length t <= m)%nat) text_bounds (texts r) -> retainedToolNames (r_ToolNames r) = r_ToolNames r ->
  map kept_attempt (r_Attempts r) = r_Attempts r -> retainRecord r = r.
Proof.
  intros Ht Hn Ha. unfold retainRecord, retainRecordTextFields, set_r_Attempts. fold kept_attempt.
  cbv beta zeta iota delta [r_Attempts]. destruct r as []. unfold texts, text_bounds in Ht.
  repeat (apply Forall2_cons in Ht; let H := fresh in destruct Ht as [H Ht]; apply text_fits in H; rewrite <- retainTextField_text in H).
  cbn [r_ToolNames r_Attempts r_ID] in *. f_equal; assumption.
Qed.

Lemma retain_twice r : retainRecord (retainRecord r) = retainRecord r.
Proof.
  destruct (retain_kept r) as [Ht _ _ _]. apply retain_fits.
  - revert Ht. generalize (texts (retainRecord r)) (texts r) text_bounds. intros l' l m H.
    induction H; constructor; [by eapply cut_length|done].
  - change (r_ToolNames (retainRecord r)) with (retainedToolNames (r_ToolNames r)).
    rewrite !retainedToolNames_map, firstn_map, take_take, map_map. cbn [Nat.min RetainedToolNamesMax].
    apply map_ext. intros n. unfold RetainToolName. by rewrite text_twice by (by apply Nat.leb_le).
  - change (r_Attempts (retainRecord r)) with (map kept_attempt (r_Attempts r)).
    rewrite map_map. apply map_ext, kept_attempt_twice.
Qed.

Lemma retain_IsError r : IsError (retainRecord r) = IsError r.
Proof.
  destruct (retain_kept r) as [_ _ Ha _]. unfold IsError. f_equal.
  - assert (Hp : present (r_ErrorType (retainRecord r)) = present (r_ErrorType r)).
    { apply (cut_present 512). unfold retainRecord, retainRecordTextFields, set_r_Attempts. cbn.
      rewrite retainTextField_text. apply retainRecordText_cut. by apply Nat.leb_le. }
    unfold OutcomeIsError. by rewrite Hp.
  - unfold absorbedServerFailure. induction Ha as [|a a' l l' [Hst _] _ IH]; [done|]. cbn [existsb]. by rewrite Hst, IH.
Qed.

(** C24. Every record is held to its bounds before it is kept, and only what
    exceeds a bound changes: each text, tool name and attempt text longer than
    its bound keeps the longest prefix that ends at a rune boundary and leaves
    room for the mark, so a valid text stays valid UTF-8 and loses at most six
    bytes of its bound; at most 64 tool names stay. The pass that copies gives
    the same record as the pass in place, a second pass changes nothing, and
    whether the record counts as an error never changes. *)
Theorem retain_exact r :
  kept r (retainRecord r) /\ retainRecordSnapshot r = retainRecord r /\
  retainRecord (retainRecord r) = retainRecord r /\ IsError (retainRecord r) = IsError r.
Proof. split; [apply retain_kept|]. split; [apply snapshot_same|]. split; [apply retain_twice|apply retain_IsError]. Qed.

Example preview_cut : TruncatePreview (repeat 97 119 ++ [226; 130; 172; 98]) = repeat 97 119 ++ recordTruncationSuffix.
Proof. reflexivity. Qed.
