(* ===== verification/Ring.v ===== *)
(** internal/metrics/buffer.go: the ring of recent records, its counters,
    revisions and pending registry, and the snapshots a feed cursor gets. Each
    definition is what its function does under the ring's lock. *)

From stdpp Require Import sorting.
From S2P Require Import Prelude GoOrder GoTime GoUtf8 Retain.

(** ** State *)

Abbreviation feed_id := bytes.

(** encoding/hex of the bytes crypto/rand gave. *)
Definition hex_digit (d : Z) : Z := if d <? 10 then 48 + d else 87 + d.
Definition newFeedID (idBytes : bytes) : feed_id := flat_map (fun b => [hex_digit (b / 16); hex_digit (b mod 16)]) idBytes.

(** The slots; a nil slot is [None]. *)
Record ring := Ring {
  rg_buf : list (option Rec);
  rg_seqs : list Z;
  rg_head : nat;
  rg_size : nat;
  rg_maxSize : nat;
}.

(** [b_feedDone] counts the channels CloseFeeds has installed: the current one
    is open, those before it are closed. *)
Record Buffer := Buf {
  b_ring : ring;
  b_nextSeq : Z;
  b_finalRevision : Z;
  b_pendingRevision : Z;
  b_feedID : feed_id;
  b_inFlight : Z;
  b_totalReq : Z;
  b_totalErr : Z;
  b_pending : gmap bytes Rec;
  b_feedDone : nat;
  b_snapLimit : Z;
}.

Definition empty_ring (n : nat) : ring := Ring (replicate n None) (replicate n 0) 0 0 n.

Definition NewBuffer (maxSize : Z) (idBytes : bytes) : Buffer :=
  let maxSize := if maxSize <? 1 then 1 else maxSize in
  Buf (empty_ring (Z.to_nat maxSize)) 0 0 0 (newFeedID idBytes) 0 0 0 ∅ 0 0.

(** [b.totalReq.Add], an atomic int64. *)
Definition atomic_add (x d : Z) : Z := wrap64 (x + d).

(** ** The ring *)

Definition pushLocked (r : Rec) (b : Buffer) : Buffer * Z * feed_id :=
  let g := b_ring b in
  let seq := b_nextSeq b + 1 in
  let g' := Ring (<[rg_head g := Some r]> (rg_buf g)) (<[rg_head g := seq]> (rg_seqs g)) (Nat.modulo (rg_head g + 1) (rg_maxSize g))
    (if Nat.ltb (rg_size g) (rg_maxSize g) then S (rg_size g) else rg_size g) (rg_maxSize g) in
  (Buf g' seq (b_finalRevision b + 1) (b_pendingRevision b) (b_feedID b) (b_inFlight b)
     (atomic_add (b_totalReq b) 1) (if IsError r then atomic_add (b_totalErr b) 1 else b_totalErr b)
     (b_pending b) (b_feedDone b) (b_snapLimit b), seq, b_feedID b).

Definition ringIndex (g : ring) (logical : nat) : nat :=
  if Nat.ltb (rg_size g) (rg_maxSize g) then logical else
  let physical := (rg_head g + logical)%nat in
  if Nat.leb (rg_maxSize g) physical then (physical - rg_maxSize g)%nat else physical.

(** Go's [copy]: the destination after it, and the count. *)
Definition gocopy {T} (dst src : list T) : list T * nat :=
  let n := Nat.min (length dst) (length src) in (take n src ++ drop n dst, n).

(** [dst] is the destination's whole capacity; [zero] fills what make makes. *)
Definition copyRingWindowInto {T} (zero : T) (dst slots : list T) (start count : nat) : list T :=
  if Nat.eqb count 0 then [] else
  let dst := if Nat.ltb (length dst) count then replicate count zero else take count dst in
  let '(dst, n) := gocopy dst (drop start slots) in
  take n dst ++ (gocopy (drop n dst) slots).1.
Definition copyRingWindow {T} (zero : T) (slots : list T) (start count : nat) : list T :=
  copyRingWindowInto zero (replicate count zero) slots start count.

Definition Snapshot (b : Buffer) : list (option Rec) :=
  let g := b_ring b in copyRingWindow None (rg_buf g) (ringIndex g 0) (rg_size g).
Definition SnapshotInto (dst : list (option Rec)) (b : Buffer) : list (option Rec) :=
  let g := b_ring b in copyRingWindowInto None dst (rg_buf g) (ringIndex g 0) (rg_size g).
Definition Len (b : Buffer) : nat := rg_size (b_ring b).
Definition Revisions (b : Buffer) : Z * Z := (b_finalRevision b, b_pendingRevision b).
Definition prometheusSnapshot (b : Buffer) : list (option Rec) * Z :=
  (Snapshot b, b_finalRevision b).

(** Backfill, from the restored rows; a nil row is [None]. *)
Fixpoint Backfill (records : list (option Rec)) (b : Buffer) : Buffer :=
  match records with
  | [] => b
  | None :: records => Backfill records b
  | Some r :: records => let '(b, _, _) := pushLocked (retainRecord r) b in Backfill records b
  end.

Definition set_feed (id : feed_id) (done : nat) (b : Buffer) : Buffer :=
  Buf (b_ring b) (b_nextSeq b) (b_finalRevision b) (b_pendingRevision b) id (b_inFlight b) (b_totalReq b)
    (b_totalErr b) (b_pending b) done (b_snapLimit b).
Definition closeFeedsLocked (b : Buffer) : Buffer := set_feed (b_feedID b) (S (b_feedDone b)) b.
Definition invalidateFeedLocked (idBytes : bytes) (b : Buffer) : Buffer :=
  closeFeedsLocked (set_feed (newFeedID idBytes) (b_feedDone b) b).
Definition CloseFeeds := closeFeedsLocked.

(** What a wipe leaves: the ring and both totals anew, one more revision. *)
Definition set_content (g : ring) (rev req err : Z) (b : Buffer) : Buffer :=
  Buf g (b_nextSeq b) rev (b_pendingRevision b) (b_feedID b) (b_inFlight b) req err (b_pending b) (b_feedDone b)
    (b_snapLimit b).

Definition Reset (idBytes : bytes) (b : Buffer) : Buffer :=
  invalidateFeedLocked idBytes
    (set_content (empty_ring (rg_maxSize (b_ring b))) (b_finalRevision b + 1) 0 0 b).

Record removalBoundary := Boundary { bd_seq : Z; bd_requests : Z; bd_errors : Z }.
Definition RemovalBoundary (b : Buffer) : removalBoundary := Boundary (b_nextSeq b) (b_totalReq b) (b_totalErr b).

(** The loop of removeWhereLocked: kept slots, kept cursors, and how many
    records - and failed ones - go. *)
Definition removes (boundary : option removalBoundary) (pred : option (Rec -> bool)) (seq : Z) (r : Rec) : bool :=
  match boundary with None => true | Some bd => seq <=? bd_seq bd end &&
  match pred with None => true | Some f => f r end.
Fixpoint remove_loop (boundary : option removalBoundary) (pred : option (Rec -> bool)) (cur : list (option Rec))
    (sq : list Z) : list (option Rec) * list Z * Z * Z :=
  match cur, sq with
  | None :: cur, _ :: sq => remove_loop boundary pred cur sq
  | Some r :: cur, q :: sq =>
      let '(kept, keptSeqs, removed, removedErr) := remove_loop boundary pred cur sq in
      if removes boundary pred q r
      then (kept, keptSeqs, removed + 1, if IsError r then removedErr + 1 else removedErr)
      else (Some r :: kept, q :: keptSeqs, removed, removedErr)
  | _, _ => ([], [], 0, 0)
  end.

Definition removeWhereLocked (idBytes : bytes) (boundary : option removalBoundary) (pred : option (Rec -> bool))
    (b : Buffer) : Buffer * Z :=
  let g := b_ring b in
  let start := ringIndex g 0 in
  let cur := copyRingWindow None (rg_buf g) start (rg_size g) in
  let sq := copyRingWindow 0 (rg_seqs g) start (rg_size g) in
  let '(kept, keptSeqs, removed, removedErr) := remove_loop boundary pred cur sq in
  let g' := Ring (gocopy (replicate (rg_maxSize g) None) kept).1 (gocopy (replicate (rg_maxSize g) 0) keptSeqs).1
    (Nat.modulo (length kept) (rg_maxSize g)) (length kept) (rg_maxSize g) in
  let b1 := match boundary, pred with
    | Some bd, None =>
        set_content g' (b_finalRevision b + 1) (atomic_add (b_totalReq b) (- bd_requests bd))
          (atomic_add (b_totalErr b) (- bd_errors bd)) b
    | _, _ =>
        if 0 <? removed then
          set_content g' (b_finalRevision b + 1) (atomic_add (b_totalReq b) (- removed))
            (atomic_add (b_totalErr b) (- removedErr)) b
        else set_content g' (b_finalRevision b) (b_totalReq b) (b_totalErr b) b
    end in
  (match boundary with
   | Some _ => invalidateFeedLocked idBytes b1
   | None => if 0 <? removed then invalidateFeedLocked idBytes b1 else b1
   end, removed).
Definition RemoveThrough idBytes (boundary : removalBoundary) pred := removeWhereLocked idBytes (Some boundary) pred.
Definition RemoveWhere idBytes (pred : Rec -> bool) := removeWhereLocked idBytes None (Some pred).

(** ** Cursors *)

(** sort.Search *)
Fixpoint search_loop (fuel : nat) (f : nat -> bool) (i j : nat) : nat :=
  match fuel with
  | O => i
  | S fuel =>
      if Nat.ltb i j then
        let h := Nat.div (i + j) 2 in
        if negb (f h) then search_loop fuel f (S h) j else search_loop fuel f i h
      else i
  end.
Definition Search (n : nat) (f : nat -> bool) : nat := search_loop n f 0 n.

Record Counters_t := Counters { c_InFlight : Z; c_TotalReq : Z; c_TotalErr : Z }.
Definition Counters_of (b : Buffer) : Counters_t := Counters (b_inFlight b) (b_totalReq b) (b_totalErr b).

(** The pending records, in the order of [map_to_list]; the code's iteration
    order is arbitrary and its callers sort. *)
Definition copyPendingLocked (b : Buffer) : list Rec := (map_to_list (b_pending b)).*2.

Record snapshot := Snap {
  sn_Records : list (option Rec);
  sn_InFlightRecords : list Rec;
  sn_PendingRevision : Z;
  sn_BufferSize : nat;
  sn_Counters : Counters_t;
  sn_Seq : Z;
  sn_FeedID : feed_id;
  sn_Incremental : bool;
}.

Definition seq_at (g : ring) (logical : nat) : Z := nth (ringIndex g logical) (rg_seqs g) 0.

(** The window's start and whether it is a full snapshot. *)
Definition snapshot_start (since : Z) (b : Buffer) : nat * Z * bool :=
  let g := b_ring b in
  let '(oldest, latest) := if Nat.ltb 0 (rg_size g) then (seq_at g 0, seq_at g (rg_size g - 1)) else (0, 0) in
  let full := (since <=? 0) || (since <? oldest) || (latest <? since) in
  let start :=
    if full then
      if (0 <? b_snapLimit b) && (b_snapLimit b <? Z.of_nat (rg_size g)) then (rg_size g - Z.to_nat (b_snapLimit b))%nat else 0%nat
    else if since <? latest then Search (rg_size g) (fun i => since <? seq_at g i) else rg_size g in
  (start, latest, full).

Definition snapshotSinceLocked (since : Z) (b : Buffer) : snapshot :=
  let g := b_ring b in
  let '(start, latest, full) := snapshot_start since b in
  Snap (copyRingWindow None (rg_buf g) (ringIndex g start) (rg_size g - start)) (copyPendingLocked b)
    (b_pendingRevision b) (rg_size g) (Counters_of b) latest (b_feedID b) (negb full).

(** strconv.ParseInt in base 10 with its error ignored: 0 for a syntax error,
    the nearest int64 for a value out of range. *)
Definition maxUint64 : Z := 2 ^ 64 - 1.
Fixpoint uint_loop (n : Z) (s : bytes) : option (Z * bool) :=
  match s with
  | [] => Some (n, true)
  | c :: s =>
      if (48 <=? c) && (c <=? 57) then
        let n1 := n * 10 + (c - 48) in
        if maxUint64 <? n1 then Some (maxUint64, false) else uint_loop n1 s
      else None
  end.
Definition ParseInt (s : bytes) : Z :=
  let parse neg s :=
    match s with
    | [] => 0
    | _ => match uint_loop 0 s with
           | None => 0
           | Some (un, _) =>
               if negb neg && (2 ^ 63 <=? un) then 2 ^ 63 - 1
               else if neg && (2 ^ 63 <? un) then - 2 ^ 63
               else if neg then - un else un
           end
    end in
  match s with
  | 43 :: s => parse false s
  | 45 :: s => parse true s
  | _ => parse false s
  end.

(** The query's feed and since, the Last-Event-ID header; absent is empty. *)
Definition cursorParam (q_feed q_since lastEventID : bytes) (feed : feed_id) : Z :=
  if negb (bool_decide (q_feed = [])) && negb (bool_decide (q_feed = feed)) then 0 else
  if negb (bool_decide (lastEventID = [])) then ParseInt lastEventID else
  if negb (bool_decide (q_since = [])) then ParseInt q_since else 0.

(** slices.SortFunc by start and ID, as an insertion sort: it is a total order
    on records of distinct IDs, so the result is the same. *)
Definition pending_le (a b : Rec) : bool :=
  if r_Start a <? r_Start b then true else if r_Start b <? r_Start a then false else bytes_le (r_ID a) (r_ID b).
Fixpoint pending_insert (r : Rec) (l : list Rec) : list Rec :=
  match l with
  | [] => [r]
  | x :: l => if pending_le r x then r :: x :: l else x :: pending_insert r l
  end.
Definition sortPendingRecords (l : list Rec) : list Rec := fold_right pending_insert [] l.

Definition sorted_pending (s : snapshot) : snapshot :=
  Snap (sn_Records s) (sortPendingRecords (sn_InFlightRecords s)) (sn_PendingRevision s) (sn_BufferSize s)
    (sn_Counters s) (sn_Seq s) (sn_FeedID s) (sn_Incremental s).
Definition SnapshotSince (since : Z) (b : Buffer) : snapshot := sorted_pending (snapshotSinceLocked since b).
Definition SnapshotRequest (q_feed q_since lastEventID : bytes) (b : Buffer) : snapshot :=
  sorted_pending (snapshotSinceLocked (cursorParam q_feed q_since lastEventID (b_feedID b)) b).
Definition PendingRecords (b : option Buffer) : list Rec :=
  match b with None => [] | Some b => sortPendingRecords (copyPendingLocked b) end.

(** ** Slots in logical order *)

#[local] Arguments Nat.ltb : simpl never.
#[local] Arguments Nat.leb : simpl never.
#[local] Arguments Nat.modulo : simpl never.

Definition logical {T} (g : ring) (l : list T) : list T :=
  if Nat.ltb (rg_size g) (rg_maxSize g) then take (rg_size g) l else drop (rg_head g) l ++ take (rg_head g) l.

(** The ring's shape: [head] is the next write slot. *)
Record shape (g : ring) : Prop := {
  sh_max : (0 < rg_maxSize g)%nat;
  sh_buf : length (rg_buf g) = rg_maxSize g;
  sh_seqs : length (rg_seqs g) = rg_maxSize g;
  sh_size : (rg_size g <= rg_maxSize g)%nat;
  sh_head : (rg_head g < rg_maxSize g)%nat;
  sh_room : (rg_size g < rg_maxSize g)%nat -> rg_head g = rg_size g;
}.

Section slots.
Context {T : Type} (zero : T) (g : ring) (l : list T).
Hypothesis Hg : shape g.
Hypothesis Hl : length l = rg_maxSize g.

Lemma logical_length : length (logical g l) = rg_size g.
Proof.
  destruct Hg. unfold logical. destruct (Nat.ltb_spec (rg_size g) (rg_maxSize g)); [rewrite length_take; lia|].
  rewrite length_app, length_drop, length_take. lia.
Qed.

Lemma ringIndex_lt k : (k < rg_size g)%nat -> (ringIndex g k < rg_maxSize g)%nat.
Proof.
  destruct Hg. unfold ringIndex. intros Hk. destruct (Nat.ltb_spec (rg_size g) (rg_maxSize g)); [lia|].
  destruct (Nat.leb_spec (rg_maxSize g) (rg_head g + k)); lia.
Qed.

Lemma ringIndex_lookup k : (k < rg_size g)%nat -> l !! ringIndex g k = logical g l !! k.
Proof.
  destruct Hg. unfold ringIndex, logical. intros Hk. destruct (Nat.ltb_spec (rg_size g) (rg_maxSize g)).
  - by rewrite lookup_take_lt by lia.
  - destruct (Nat.leb_spec (rg_maxSize g) (rg_head g + k)).
    + rewrite lookup_app_r, length_drop, lookup_take_lt by (rewrite ?length_drop; lia). f_equal. lia.
    + by rewrite lookup_app_l, lookup_drop by (rewrite ?length_drop; lia).
Qed.

(** A window that ends at the newest slot is a suffix of the logical order. *)
Lemma copy_window dst k : (k <= rg_size g)%nat ->
  copyRingWindowInto zero dst l (ringIndex g k) (rg_size g - k) = drop k (logical g l).
Proof.
  intros Hk. pose proof logical_length as HL. unfold copyRingWindowInto.
  destruct (Nat.eqb_spec (rg_size g - k) 0) as [Hz|Hz]; [rewrite drop_ge; [done|lia]|].
  pose proof (ringIndex_lt k ltac:(lia)) as Hlt.
  set (d := if Nat.ltb _ _ then _ else _).
  assert (Hd : length d = (rg_size g - k)%nat).
  { unfold d. destruct (Nat.ltb_spec (length dst) (rg_size g - k)); [apply length_replicate|rewrite length_take; lia]. }
  clearbody d. unfold gocopy at 1. rewrite length_drop, Hl, Hd.
  set (n := Nat.min (rg_size g - k) (rg_maxSize g - ringIndex g k)).
  rewrite take_app_length' by (rewrite length_take, length_drop; lia).
  rewrite drop_app_length' by (rewrite length_take, length_drop; lia).
  unfold gocopy. cbn [fst]. rewrite length_drop, Hd, Hl.
  assert (Hm : Nat.min (rg_size g - k - n) (rg_maxSize g) = (rg_size g - k - n)%nat) by (destruct Hg; lia).
  rewrite Hm, (drop_ge (drop n d)) by (rewrite length_drop; lia). rewrite app_nil_r.
  unfold logical in *. unfold ringIndex in *. destruct Hg. destruct (Nat.ltb_spec (rg_size g) (rg_maxSize g)).
  - rewrite skipn_firstn_comm. unfold n. replace (Nat.min (rg_size g - k) (rg_maxSize g - k)) with (rg_size g - k)%nat by lia.
    by rewrite Nat.sub_diag, take_0, app_nil_r.
  - assert (rg_size g = rg_maxSize g) by lia. destruct (Nat.leb_spec (rg_maxSize g) (rg_head g + k)) as [Hw|Hw].
    + rewrite drop_app_ge by (rewrite length_drop; lia). rewrite length_drop, Hl, skipn_firstn_comm.
      replace n with (rg_size g - k)%nat by (unfold n; lia). rewrite Nat.sub_diag, take_0, app_nil_r. f_equal; [lia|f_equal; lia].
    + rewrite drop_app_le, drop_drop by (rewrite length_drop; lia).
      replace n with (rg_maxSize g - (rg_head g + k))%nat by (unfold n; lia).
      rewrite take_ge by (rewrite length_drop; lia). f_equal. f_equal. lia.
Qed.
End slots.

(** ** The content of the ring *)

(** What the ring holds, oldest first: sequence numbers and records. *)
Record rep (b : Buffer) (es : list (Z * Rec)) : Prop := {
  rp_shape : shape (b_ring b);
  rp_buf : logical (b_ring b) (rg_buf (b_ring b)) = Some <$> es.*2;
  rp_seqs : logical (b_ring b) (rg_seqs (b_ring b)) = es.*1;
  rp_sorted : StronglySorted Z.lt es.*1;
  rp_range : Forall (fun q => 1 <= q <= b_nextSeq b) es.*1;
  rp_next : 0 <= b_nextSeq b;
}.

Definition newest {T} (n : nat) (l : list T) : list T := drop (length l - n) l.

Lemma newest_all {T} n (l : list T) : (length l <= n)%nat -> newest n l = l.
Proof. intros Hl. unfold newest. by replace (length l - n)%nat with 0%nat by lia. Qed.
Lemma newest_fmap {T U} (f : T -> U) n l : newest n (f <$> l) = f <$> newest n l.
Proof. unfold newest. by rewrite length_fmap, fmap_drop. Qed.
Lemma newest_suffix {T} n (l : list T) : newest n l `suffix_of` l.
Proof. apply suffix_drop. Qed.

Lemma rep_length b es : rep b es -> length es = rg_size (b_ring b).
Proof.
  intros []. pose proof (logical_length (b_ring b) (rg_seqs (b_ring b)) rp_shape0 (sh_seqs _ rp_shape0)) as H.
  by rewrite rp_seqs0, length_fmap in H.
Qed.

Lemma Forall_sub {T} (P : T -> Prop) (l l' : list T) : l `sublist_of` l' -> Forall P l' -> Forall P l.
Proof. induction 1; intros Hl; [done|apply Forall_cons in Hl as [Hx Hl]; constructor; auto..|]. apply Forall_cons in Hl as [_ Hl]. auto. Qed.

Lemma sorted_sub (l l' : list Z) : l `sublist_of` l' -> StronglySorted Z.lt l' -> StronglySorted Z.lt l.
Proof.
  induction 1 as [|x l l' Hs IH|x l l' Hs IH]; intros Hl; [done|..]; apply StronglySorted_inv in Hl as [Hl Hf]; [|by apply IH].
  constructor; [by apply IH|]. by eapply Forall_sub.
Qed.

Lemma suffix_sublist {T} (l l' : list T) : l `suffix_of` l' -> l `sublist_of` l'.
Proof. intros [k ->]. by apply sublist_inserts_l. Qed.

(** The contents a sublist of what was there. *)
Lemma rep_sub b b' es es' : rep b es -> shape (b_ring b') ->
  logical (b_ring b') (rg_buf (b_ring b')) = Some <$> es'.*2 -> logical (b_ring b') (rg_seqs (b_ring b')) = es'.*1 ->
  es' `sublist_of` es -> b_nextSeq b' = b_nextSeq b -> rep b' es'.
Proof.
  intros [] Hs Hb Hq Hsub Hn. assert (Hsub' : es'.*1 `sublist_of` es.*1) by by apply fmap_sublist.
  split; [done..| | |].
  - by eapply sorted_sub.
  - rewrite Hn. by eapply Forall_sub.
  - by rewrite Hn.
Qed.

(** ** Appending *)

Definition pushed_ring (g : ring) (x : option Rec) (q : Z) : ring :=
  Ring (<[rg_head g := x]> (rg_buf g)) (<[rg_head g := q]> (rg_seqs g)) (Nat.modulo (rg_head g + 1) (rg_maxSize g))
    (if Nat.ltb (rg_size g) (rg_maxSize g) then S (rg_size g) else rg_size g) (rg_maxSize g).

Lemma pushed_shape g x q : shape g -> shape (pushed_ring g x q).
Proof.
  intros []. unfold pushed_ring. split; cbn; rewrite ?length_insert; try done.
  - destruct (Nat.ltb_spec (rg_size g) (rg_maxSize g)); lia.
  - apply Nat.mod_upper_bound. lia.
  - destruct (Nat.ltb_spec (rg_size g) (rg_maxSize g)) as [Hs|Hs]; [|lia]. intros. rewrite sh_room0, Nat.mod_small by lia. lia.
Qed.

Lemma logical_push {T} g x q (l : list T) (y : T) : shape g -> length l = rg_maxSize g ->
  logical (pushed_ring g x q) (<[rg_head g := y]> l) = newest (rg_maxSize g) (logical g l ++ [y]).
Proof.
  intros Hg Hl. pose proof (logical_length g l Hg Hl) as HL. destruct Hg.
  unfold newest. rewrite length_app, HL. cbn [length]. rewrite insert_take_drop by lia.
  unfold logical, pushed_ring. cbn [rg_size rg_maxSize rg_head]. destruct (Nat.ltb_spec (rg_size g) (rg_maxSize g)) as [Hs|Hs].
  - rewrite sh_room0 by done. replace (rg_size g + 1 - rg_maxSize g)%nat with 0%nat by lia. rewrite drop_0.
    destruct (Nat.ltb_spec (S (rg_size g)) (rg_maxSize g)) as [Hs'|Hs'].
    + rewrite take_app_ge, length_take by (rewrite length_take; lia).
      replace (S (rg_size g) - rg_size g `min` length l)%nat with 1%nat by lia. done.
    + replace (rg_size g + 1)%nat with (rg_maxSize g) by lia. rewrite Nat.Div0.mod_same, drop_0, take_0, app_nil_r.
      by rewrite (drop_ge l) by lia.
  - destruct (Nat.ltb_spec (rg_size g) (rg_maxSize g)); [lia|]. replace (rg_size g + 1 - rg_maxSize g)%nat with 1%nat by lia.
    assert (Hd : exists z, drop (rg_head g) l = z :: drop (S (rg_head g)) l).
    { destruct (lookup_lt_is_Some_2 l (rg_head g)) as [z Hz]; [lia|]. exists z. by apply drop_S. }
    destruct Hd as [z Hz]. rewrite Hz. cbn [app drop].
    destruct (decide (rg_head g + 1 = rg_maxSize g)%nat) as [He|He].
    + rewrite He, Nat.Div0.mod_same, drop_0, take_0, app_nil_r. by rewrite (drop_ge l) by lia.
    + rewrite Nat.mod_small by lia. rewrite drop_app_ge, take_app_ge, !length_take by (rewrite length_take; lia).
      replace (rg_head g + 1 - rg_head g `min` length l)%nat with 1%nat by lia. cbn [drop take]. by rewrite <- app_assoc.
Qed.

Lemma ring_push b es r : rep b es ->
  rep (pushLocked r b).1.1 (newest (rg_maxSize (b_ring b)) (es ++ [(b_nextSeq b + 1, r)])).
Proof.
  intros Hr. pose proof (rp_range _ _ Hr) as Hrange. rewrite Forall_forall in Hrange.
  assert (Hsuf := newest_suffix (rg_maxSize (b_ring b)) (es ++ [(b_nextSeq b + 1, r)])).
  apply suffix_sublist, (fmap_sublist fst) in Hsuf. rewrite fmap_app in Hsuf. destruct Hr.
  split; cbn [pushLocked fst b_ring b_nextSeq].
  - by apply (pushed_shape _ (Some r) (b_nextSeq b + 1)).
  - etrans; [apply (logical_push _ (Some r) (b_nextSeq b + 1)); [done|apply rp_shape0]|].
    by rewrite rp_buf0, <- !newest_fmap, !fmap_app.
  - etrans; [apply (logical_push _ (Some r) (b_nextSeq b + 1)); [done|apply rp_shape0]|].
    by rewrite rp_seqs0, <- !newest_fmap, !fmap_app.
  - eapply sorted_sub; [exact Hsuf|]. apply StronglySorted_app_2; [|done|by repeat constructor].
    intros x y Hx Hy. apply list_elem_of_singleton in Hy as ->. apply Hrange in Hx. cbn. lia.
  - eapply Forall_sub; [exact Hsuf|]. apply Forall_app. split; [apply Forall_forall; intros x Hx|repeat constructor].
    + apply Hrange in Hx. cbn. lia.
    + cbn. lia.
    + cbn. lia.
  - lia.
Qed.

(** ** Removing *)

Definition gone (boundary : option removalBoundary) (pred : option (Rec -> bool)) (e : Z * Rec) : bool :=
  removes boundary pred e.1 e.2.
Definition keep_entries boundary pred (es : list (Z * Rec)) : list (Z * Rec) :=
  filter (fun e => gone boundary pred e = false) es.
Definition gone_entries boundary pred (es : list (Z * Rec)) : list (Z * Rec) :=
  filter (fun e => gone boundary pred e = true) es.
Definition count (f : Rec -> bool) (es : list (Z * Rec)) : Z := Z.of_nat (length (filter (fun e => f e.2 = true) es)).

Lemma filter_bool_cons {T} (f : T -> bool) x l :
  filter (fun e => f e = true) (x :: l) = (if f x then [x] else []) ++ filter (fun e => f e = true) l.
Proof. rewrite filter_cons. destruct (decide (f x = true)) as [->|Hf]; [done|]. apply not_true_is_false in Hf. by rewrite Hf. Qed.
Lemma keep_cons bd pred e es :
  keep_entries bd pred (e :: es) = (if gone bd pred e then [] else [e]) ++ keep_entries bd pred es.
Proof. unfold keep_entries. rewrite filter_cons. by destruct (gone bd pred e), (decide _). Qed.
Lemma gone_cons bd pred e es :
  gone_entries bd pred (e :: es) = (if gone bd pred e then [e] else []) ++ gone_entries bd pred es.
Proof. apply filter_bool_cons. Qed.

Lemma count_app f a b : count f (a ++ b) = count f a + count f b.
Proof. unfold count. rewrite filter_app, length_app. lia. Qed.
Lemma count_cons f e es : count f (e :: es) = (if f e.2 then 1 else 0) + count f es.
Proof. unfold count. rewrite filter_bool_cons, length_app. destruct (f e.2); cbn [length]; lia. Qed.
Lemma count_nonneg f es : 0 <= count f es.
Proof. unfold count. lia. Qed.

Lemma remove_loop_spec bd pred es :
  remove_loop bd pred (Some <$> es.*2) es.*1 =
  (Some <$> (keep_entries bd pred es).*2, (keep_entries bd pred es).*1, Z.of_nat (length (gone_entries bd pred es)),
   count IsError (gone_entries bd pred es)).
Proof.
  induction es as [|[q r] es IH]; [done|]. cbn [fmap list_fmap fst snd remove_loop]. rewrite IH, keep_cons, gone_cons.
  change (gone bd pred (q, r)) with (removes bd pred q r). destruct (removes bd pred q r); cbn [app]; [|done].
  rewrite count_cons. cbn [length snd]. repeat f_equal; [lia|destruct (IsError r); lia].
Qed.

Lemma keep_sublist bd pred es : keep_entries bd pred es `sublist_of` es.
Proof. induction es as [|e es IH]; [done|]. rewrite keep_cons. destruct (gone bd pred e); cbn [app]; by constructor. Qed.

(** A ring rebuilt from at most [maxSize] slots holds them. *)
Lemma rebuilt_logical {T} (g : ring) (zero : T) (l : list T) : (length l <= rg_maxSize g)%nat -> rg_size g = length l ->
  rg_head g = Nat.modulo (length l) (rg_maxSize g) -> logical g (gocopy (replicate (rg_maxSize g) zero) l).1 = l.
Proof.
  intros Hl Hs Hh. unfold logical, gocopy. cbn [fst]. rewrite length_replicate, Nat.min_r, (take_ge l) by lia.
  destruct (Nat.ltb_spec (rg_size g) (rg_maxSize g)) as [Hlt|Hge]; [by rewrite take_app_length'|].
  rewrite Hh. replace (length l) with (rg_maxSize g) by lia. rewrite Nat.Div0.mod_same, drop_0, take_0, app_nil_r.
  by rewrite drop_ge, app_nil_r by (rewrite length_replicate; lia).
Qed.

Lemma rep_window b es k : rep b es -> (k <= rg_size (b_ring b))%nat ->
  (forall dst, copyRingWindowInto None dst (rg_buf (b_ring b)) (ringIndex (b_ring b) k) (rg_size (b_ring b) - k) =
    Some <$> (drop k es).*2) /\
  (forall dst, copyRingWindowInto 0 dst (rg_seqs (b_ring b)) (ringIndex (b_ring b) k) (rg_size (b_ring b) - k) =
    (drop k es).*1).
Proof.
  intros [] Hk. split; intros dst; (etrans; [apply copy_window; done || by apply rp_shape0|]).
  - by rewrite rp_buf0, !fmap_drop.
  - by rewrite rp_seqs0, !fmap_drop.
Qed.
Lemma rep_copies b es : rep b es ->
  (forall dst, copyRingWindowInto None dst (rg_buf (b_ring b)) (ringIndex (b_ring b) 0) (rg_size (b_ring b)) = Some <$> es.*2) /\
  (forall dst, copyRingWindowInto 0 dst (rg_seqs (b_ring b)) (ringIndex (b_ring b) 0) (rg_size (b_ring b)) = es.*1).
Proof. intros Hr. pose proof (rep_window b es 0 Hr ltac:(lia)) as H. rewrite Nat.sub_0_r in H. exact H. Qed.

(** What a removal does to everything but the counters. *)
Lemma ring_remove id bd pred b es : rep b es ->
  rep (removeWhereLocked id bd pred b).1 (keep_entries bd pred es) /\
  (removeWhereLocked id bd pred b).2 = Z.of_nat (length (gone_entries bd pred es)).
Proof.
  intros Hr. pose proof (rep_copies b es Hr) as [Hb Hq]. pose proof (rep_length b es Hr) as Hlen.
  pose proof (keep_sublist bd pred es) as Hsub. pose proof (sublist_length _ _ Hsub) as Hle.
  pose proof (rp_shape _ _ Hr) as [].
  unfold removeWhereLocked, copyRingWindow. rewrite Hb, Hq, remove_loop_spec. cbn [fst snd]. split; [|done].
  set (ks := keep_entries bd pred es) in *.
  set (g' := Ring _ _ _ _ _). assert (Hg' : shape g' /\ logical g' (rg_buf g') = Some <$> ks.*2 /\ logical g' (rg_seqs g') = ks.*1).
  { split; [|split].
    - unfold g', gocopy. split; cbn [rg_buf rg_seqs rg_head rg_size rg_maxSize fst];
        rewrite ?length_app, ?length_take, ?length_drop, ?length_replicate, ?length_fmap; try lia.
      + apply Nat.mod_upper_bound. lia.
      + intros. apply Nat.mod_small. lia.
    - apply (rebuilt_logical g'); cbn; rewrite ?length_fmap; done || lia.
    - apply (rebuilt_logical g'); cbn; rewrite ?length_fmap; done || lia. }
  clearbody g'. destruct Hg' as (Hs & Hlb & Hlq).
  set (b' := (match bd with Some _ => _ | None => _ end)).
  assert (Hb' : b_ring b' = g' /\ b_nextSeq b' = b_nextSeq b).
  { unfold b'. by repeat case_match. }
  destruct Hb' as [Hb1 Hb2]. eapply (rep_sub b b'); [done|by rewrite Hb1..|done|done].
Qed.

(** ** Cursors *)

(** Binary search over a predicate that never goes back to false. *)
Lemma search_loop_spec f fuel : forall i j, (i <= j)%nat -> (j - i <= fuel)%nat ->
  (forall a b, (a <= b < j)%nat -> f a = true -> f b = true) ->
  let r := search_loop fuel f i j in
  (i <= r <= j)%nat /\ (forall k, (i <= k < r)%nat -> f k = false) /\ (forall k, (r <= k < j)%nat -> f k = true).
Proof.
  induction fuel as [|fuel IH]; intros i j Hij Hf Hmono; cbn [search_loop]; [repeat split; lia|].
  destruct (Nat.ltb_spec i j); [|repeat split; lia].
  pose proof (Nat.Div0.div_le_upper_bound (i + j) 2 j ltac:(lia)) as Hup.
  assert (Hh : (i <= Nat.div (i + j) 2 < j)%nat).
  { pose proof (Nat.div_mod_eq (i + j) 2) as Hd. pose proof (Nat.mod_upper_bound (i + j) 2 ltac:(lia)). lia. }
  set (h := Nat.div (i + j) 2) in *. destruct (f h) eqn:Eh; cbn [negb].
  - destruct (IH i h) as (H1 & H2 & H3); [lia|lia|intros a b Hab; apply Hmono; lia|].
    split; [lia|]. split; [done|]. intros k Hk. destruct (decide (k < h)%nat); [apply H3; lia|].
    apply (Hmono h); [lia|done].
  - destruct (IH (S h) j) as (H1 & H2 & H3); [lia|lia|intros a b Hab; apply Hmono; lia|].
    split; [lia|]. split; [|done]. intros k Hk. destruct (decide (k <= h)%nat); [|apply H2; lia].
    destruct (f k) eqn:Ek; [|done]. by rewrite (Hmono k h) in Eh by (lia || done).
Qed.

Definition newer (since : Z) (es : list (Z * Rec)) : list (Z * Rec) := filter (fun e => since < e.1) es.

(** In a sorted list the newer entries are a suffix. *)
Lemma newer_drop since es k : (k <= length es)%nat ->
  (forall i e, es !! i = Some e -> (i < k)%nat -> e.1 <= since) ->
  (forall i e, es !! i = Some e -> (k <= i)%nat -> since < e.1) -> newer since es = drop k es.
Proof.
  intros Hk Hlo Hhi. rewrite <- (take_drop k es) at 1. unfold newer. rewrite filter_app.
  assert (H1 : filter (fun e : Z * Rec => since < e.1) (take k es) = []).
  { destruct (filter _ _) as [|e l] eqn:E; [done|]. assert (He : e ∈ e :: l) by by left.
    rewrite <- E in He. apply list_elem_of_filter in He as [Hlt (i & Hi)%list_elem_of_lookup].
    apply lookup_take_Some in Hi as [Hi Hik]. specialize (Hlo i e Hi Hik). lia. }
  rewrite H1. cbn [app]. apply filter_all, Forall_forall. intros e (i & Hi)%list_elem_of_lookup.
  rewrite lookup_drop in Hi. apply (Hhi _ _ Hi). lia.
Qed.

Definition latest (es : list (Z * Rec)) : Z := match last es with Some e => e.1 | None => 0 end.
Definition oldest (es : list (Z * Rec)) : Z := match es with e :: _ => e.1 | [] => 0 end.
Definition resumes (since : Z) (es : list (Z * Rec)) : bool :=
  (0 <? since) && (oldest es <=? since) && (since <=? latest es).

Lemma seq_at_lookup b es i e : rep b es -> es !! i = Some e -> seq_at (b_ring b) i = e.1.
Proof.
  intros Hr He. pose proof (rep_length b es Hr) as Hlen. apply lookup_lt_Some in He as Hi. destruct Hr.
  unfold seq_at. apply nth_lookup_Some. rewrite (ringIndex_lookup (b_ring b)) by (done || by apply rp_shape0 || lia).
  by rewrite rp_seqs0, list_lookup_fmap, He.
Qed.

Lemma sorted_lookup (es : list (Z * Rec)) i j e e' : StronglySorted Z.lt es.*1 -> es !! i = Some e -> es !! j = Some e' -> (i < j)%nat -> e.1 < e'.1.
Proof.
  intros Hs Hi Hj Hij. rewrite <- (take_drop j es), fmap_app in Hs.
  apply (StronglySorted_app_1_elem_of _ _ _ e.1 e'.1 Hs); apply list_elem_of_fmap.
  - exists e. split; [done|]. apply list_elem_of_lookup. exists i. by rewrite lookup_take_lt.
  - exists e'. split; [done|]. apply list_elem_of_lookup. exists 0%nat. by rewrite lookup_drop, Nat.add_0_r.
Qed.

Lemma oldest_le (es : list (Z * Rec)) i e : StronglySorted Z.lt es.*1 -> es !! i = Some e -> oldest es <= e.1.
Proof.
  intros Hs Hi. destruct es as [|e0 es]; [done|]. destruct i as [|i]; [injection Hi as ->; cbn; lia|].
  pose proof (sorted_lookup _ 0 (S i) e0 e Hs eq_refl Hi ltac:(lia)). cbn. lia.
Qed.
Lemma latest_ge (es : list (Z * Rec)) i e : StronglySorted Z.lt es.*1 -> es !! i = Some e -> e.1 <= latest es.
Proof.
  intros Hs Hi. apply lookup_lt_Some in Hi as Hl. unfold latest. rewrite last_lookup.
  destruct (lookup_lt_is_Some_2 es (pred (length es))) as [e' He']; [lia|]. rewrite He'.
  destruct (decide (i = pred (length es))) as [->|]; [simplify_eq; lia|].
  pose proof (sorted_lookup _ _ _ _ _ Hs Hi He' ltac:(lia)). lia.
Qed.

Definition window (limit : Z) (es : list (Z * Rec)) : list (Z * Rec) :=
  if 0 <? limit then newest (Z.to_nat limit) es else es.

Lemma snapshot_start_spec since b es : rep b es ->
  let '(start, lat, full) := snapshot_start since b in
  (start <= rg_size (b_ring b))%nat /\ lat = latest es /\ full = negb (resumes since es) /\
  drop start es = if full then window (b_snapLimit b) es else newer since es.
Proof.
  intros Hr. pose proof (rep_length b es Hr) as Hlen. pose proof (rp_sorted _ _ Hr) as Hsort.
  unfold snapshot_start.
  assert (Hends : (if Nat.ltb 0 (rg_size (b_ring b)) then (seq_at (b_ring b) 0, seq_at (b_ring b) (rg_size (b_ring b) - 1)) else (0, 0))
    = (oldest es, latest es)).
  { destruct (Nat.ltb_spec 0 (rg_size (b_ring b))) as [Hz|Hz]; [|by destruct es; [|cbn in *; lia]].
    destruct es as [|e0 es']; [cbn in *; lia|]. rewrite (seq_at_lookup b _ 0 e0 Hr) by done. f_equal. unfold latest.
    rewrite last_lookup. destruct (lookup_lt_is_Some_2 (e0 :: es') (pred (length (e0 :: es')))) as [e' He']; [cbn; lia|].
    rewrite He'. apply (seq_at_lookup b (e0 :: es')); [done|]. rewrite <- He'. f_equal. lia. }
  rewrite Hends. assert (Hfull : (since <=? 0) || (since <? oldest es) || (latest es <? since) = negb (resumes since es)).
  { unfold resumes. rewrite !negb_andb, <- !Z.ltb_antisym, <- Z.leb_antisym. done. }
  rewrite Hfull. destruct (resumes since es) eqn:Er; cbn [negb].
  - unfold resumes in Er. rewrite !andb_true_iff, !Z.leb_le, Z.ltb_lt in Er. destruct Er as [[Hs0 Hso] Hsl].
    destruct (Z.ltb_spec since (latest es)) as [Hlt|Hge].
    + destruct (search_loop_spec (fun i => since <? seq_at (b_ring b) i) (rg_size (b_ring b)) 0 (rg_size (b_ring b))) as (H1 & H2 & H3);
        [lia|lia| |].
      { intros x y Hxy. destruct (lookup_lt_is_Some_2 es x) as [ex Hx]; [lia|]. destruct (lookup_lt_is_Some_2 es y) as [ey Hy]; [lia|].
        rewrite (seq_at_lookup b es x ex), (seq_at_lookup b es y ey), !Z.ltb_lt by done.
        destruct (decide (x = y)) as [->|]; [simplify_eq; lia|]. pose proof (sorted_lookup es x y ex ey Hsort Hx Hy ltac:(lia)). lia. }
      fold (Search (rg_size (b_ring b)) (fun i => since <? seq_at (b_ring b) i)) in *.
      split; [lia|]. split; [done|]. split; [done|]. symmetry. apply newer_drop; [lia|..]; intros i e Hi Hik.
      * specialize (H2 i ltac:(lia)). rewrite (seq_at_lookup b es i e Hr Hi) in H2. by apply Z.ltb_ge in H2.
      * apply lookup_lt_Some in Hi as Hil. specialize (H3 i ltac:(lia)). rewrite (seq_at_lookup b es i e Hr Hi) in H3. by apply Z.ltb_lt in H3.
    + split; [lia|]. split; [done|]. split; [done|]. symmetry. apply newer_drop; [lia|..]; intros i e Hi Hik.
      * pose proof (latest_ge es i e Hsort Hi). lia.
      * apply lookup_lt_Some in Hi. lia.
  - unfold window. split; [by destruct (_ && _); lia|]. split; [done|]. split; [done|].
    destruct (Z.ltb_spec 0 (b_snapLimit b)) as [Hl|Hl]; cbn [andb]; [|done].
    destruct (Z.ltb_spec (b_snapLimit b) (Z.of_nat (rg_size (b_ring b)))) as [Hs|Hs].
    + unfold newest. f_equal. lia.
    + by rewrite newest_all, drop_0 by lia.
Qed.

(** A snapshot: the newer records of a cursor in range, else the newest window. *)
Lemma snapshot_rep since b es : rep b es ->
  let s := snapshotSinceLocked since b in
  sn_Records s = Some <$> (if sn_Incremental s then newer since es else window (b_snapLimit b) es).*2 /\
  sn_Incremental s = resumes since es /\ sn_Seq s = latest es /\ sn_FeedID s = b_feedID b.
Proof.
  intros Hr. unfold snapshotSinceLocked. pose proof (snapshot_start_spec since b es Hr) as H.
  destruct (snapshot_start since b) as [[start lat] full]. destruct H as (H1 & H2 & H3 & H4). cbn.
  destruct (rep_window b es start Hr H1) as [Hb _]. unfold copyRingWindow. rewrite Hb, H4.
  subst full. by rewrite negb_involutive; destruct (resumes since es).
Qed.

(** ** Sequences of appends *)

Fixpoint number (n : Z) (rs : list Rec) : list (Z * Rec) :=
  match rs with [] => [] | r :: rs => (n + 1, r) :: number (n + 1) rs end.
Definition pushes (rs : list Rec) (b : Buffer) : Buffer := fold_left (fun b r => (pushLocked r b).1.1) rs b.

Lemma newest_newest {T} n (l k : list T) : newest n (newest n l ++ k) = newest n (l ++ k).
Proof.
  unfold newest. rewrite !length_app, length_drop.
  destruct (Nat.le_gt_cases (length l) n) as [Hl|Hl].
  { replace (length l - n)%nat with 0%nat by lia. rewrite drop_0. f_equal. lia. }
  replace (length l - (length l - n))%nat with n by lia. rewrite Nat.add_sub_swap, Nat.sub_diag by lia. cbn [plus].
  destruct (Nat.le_gt_cases (length k) n) as [Hk|Hk].
  - rewrite !drop_app_le by (rewrite ?length_drop; lia). rewrite drop_drop. f_equal. f_equal. lia.
  - rewrite !drop_app_ge by (rewrite ?length_drop; lia). f_equal. rewrite length_drop. lia.
Qed.

Lemma pushes_rep rs : forall b es, rep b es ->
  rep (pushes rs b) (newest (rg_maxSize (b_ring b)) (es ++ number (b_nextSeq b) rs)) /\
  rg_maxSize (b_ring (pushes rs b)) = rg_maxSize (b_ring b).
Proof.
  induction rs as [|r rs IH]; intros b es Hr; cbn [number pushes fold_left].
  { pose proof (rep_length b es Hr). pose proof (sh_size _ (rp_shape _ _ Hr)). rewrite app_nil_r, newest_all by lia. done. }
  destruct (IH _ _ (ring_push b es r Hr)) as [H1 H2]. cbn [pushLocked fst b_nextSeq b_ring rg_maxSize] in *.
  rewrite newest_newest, <- app_assoc in H1. done.
Qed.

Lemma wrap64_add x y : wrap64 (wrap64 x + y) = wrap64 (x + y).
Proof.
  unfold wrap64. f_equal.
  replace ((x + 2 ^ 63) mod 2 ^ 64 - 2 ^ 63 + y + 2 ^ 63) with ((x + 2 ^ 63) mod 2 ^ 64 + y) by lia.
  rewrite Z.add_mod_idemp_l by lia. f_equal. lia.
Qed.

Definition errors (rs : list Rec) : Z := Z.of_nat (length (filter (fun r => IsError r = true) rs)).

(** The totals, up to the width of their counters. *)
Lemma pushes_counters rs : forall b d,
  wrap64 (b_totalReq (pushes rs b) + d) = wrap64 (b_totalReq b + Z.of_nat (length rs) + d) /\
  wrap64 (b_totalErr (pushes rs b) + d) = wrap64 (b_totalErr b + errors rs + d).
Proof.
  induction rs as [|r rs IH]; intros b d.
  { unfold errors. cbn [pushes fold_left length]. by rewrite filter_nil, !Z.add_0_r. }
  change (pushes (r :: rs) b) with (pushes rs (pushLocked r b).1.1). cbn [length].
  destruct (IH (pushLocked r b).1.1 d) as [-> ->]. cbn [pushLocked fst b_totalReq b_totalErr].
  unfold errors, atomic_add. rewrite filter_bool_cons, length_app. split.
  - rewrite <- Z.add_assoc, wrap64_add. f_equal. lia.
  - destruct (IsError r); cbn [length]; [rewrite <- Z.add_assoc, wrap64_add|]; f_equal; lia.
Qed.

Lemma newest_app {T} n (l k : list T) : newest n (l ++ k) = newest (n - length k) l ++ newest n k.
Proof.
  unfold newest. rewrite length_app, skipn_app. f_equal; [|f_equal; lia].
  destruct (Nat.le_gt_cases (length k) n); [f_equal; lia|by rewrite !drop_ge by lia].
Qed.

Lemma number_after rs : forall n, Forall (fun e => n < e.1) (number n rs).
Proof.
  induction rs as [|r rs IH]; intros n; constructor; cbn; [lia|]. eapply Forall_impl; [apply IH|]. cbn. lia.
Qed.

Lemma keep_arrivals bd n m es rs : Forall (fun q => 1 <= q <= n) es.*1 -> bd_seq bd = n ->
  keep_entries (Some bd) None (newest m (es ++ number n rs)) = newest m (number n rs).
Proof.
  intros Hes Hbd. rewrite newest_app. unfold keep_entries. rewrite filter_app.
  assert (H1 : filter (fun e => gone (Some bd) None e = false) (newest (m - length (number n rs)) es) = []).
  { destruct (filter _ _) as [|e l] eqn:E; [done|]. assert (He : e ∈ e :: l) by by left.
    rewrite <- E in He. apply list_elem_of_filter in He as [Hk He]. apply Forall_fmap in Hes.
    apply (Forall_sub _ _ _ (suffix_sublist _ _ (newest_suffix (m - length (number n rs)) es))) in Hes.
    rewrite Forall_forall in Hes. specialize (Hes e He). cbn in Hes, Hk.
    unfold gone, removes in Hk. rewrite andb_true_r in Hk. apply Z.leb_gt in Hk. lia. }
  rewrite H1. cbn [app]. apply filter_all.
  eapply (Forall_sub _ _ _ (suffix_sublist _ _ (newest_suffix _ _))), Forall_impl; [apply number_after|].
  intros e He. cbn in He. unfold gone, removes. rewrite andb_true_r. apply Z.leb_gt. lia.
Qed.

Lemma empty_rep b n : (0 < n)%nat -> b_ring b = empty_ring n -> 0 <= b_nextSeq b -> rep b [].
Proof.
  intros Hn Hb Hq. unfold empty_ring in Hb. split; rewrite ?Hb; cbn; try by constructor.
  - split; cbn; rewrite ?length_replicate; done || lia.
  - unfold logical. cbn. by destruct (Nat.ltb_spec 0 n); [|lia].
  - unfold logical. cbn. by destruct (Nat.ltb_spec 0 n); [|lia].
  - done.
Qed.
Lemma NewBuffer_rep n id : rep (NewBuffer n id) [].
Proof. eapply empty_rep; [|done|done]. destruct (Z.ltb_spec n 1); lia. Qed.

(** ** Properties *)

(** C22. The ring refines the plain list of the last [maxSize] records with
    their sequence numbers. In every well-formed buffer, whatever its head and
    however often it wrapped: a snapshot, into any scratch slice, is the list;
    an append adds the next number and drops the oldest entry of a full ring; a
    removal keeps exactly the entries outside its predicate and its boundary,
    with their numbers, and counts the others; a reset empties it without
    reusing a number. A cursor in range gets exactly the entries newer than it,
    any other cursor the newest window. *)
Theorem ring_refines b es : rep b es ->
  (Snapshot b = Some <$> es.*2 /\ (forall dst, SnapshotInto dst b = Some <$> es.*2) /\ Len b = length es) /\
  (forall r, rep (pushLocked r b).1.1 (newest (rg_maxSize (b_ring b)) (es ++ [(b_nextSeq b + 1, r)]))) /\
  (forall id bd pred, rep (removeWhereLocked id bd pred b).1 (keep_entries bd pred es) /\
    (removeWhereLocked id bd pred b).2 = Z.of_nat (length (gone_entries bd pred es))) /\
  (forall id, rep (Reset id b) [] /\ b_nextSeq (Reset id b) = b_nextSeq b) /\
  (forall since, let s := snapshotSinceLocked since b in
    sn_Records s = Some <$> (if sn_Incremental s then newer since es else window (b_snapLimit b) es).*2 /\
    sn_Incremental s = resumes since es /\ sn_Seq s = latest es).
Proof.
  intros Hr. destruct (rep_copies b es Hr) as [Hb _]. split; [|split; [|split; [|split]]].
  - split; [apply Hb|]. split; [exact Hb|]. symmetry. by apply rep_length.
  - intros r. by apply ring_push.
  - intros id bd pred. by apply ring_remove.
  - intros id. split; [|done]. destruct Hr as [[] _ _ _ _ Hn]. by eapply empty_rep; [|done|].
  - intros since. destruct (snapshot_rep since b es Hr) as (H1 & H2 & H3 & _). done.
Qed.

(** C23. A full wipe behind a durable delete loses nothing that completes
    meanwhile: with the boundary taken at [b] and any records finalized before
    the wipe lands, the ring then holds exactly the newest of those records,
    under their own numbers, the request and error totals count exactly them,
    and every cursor of the old epoch is foreign. *)
Theorem wipe_keeps_arrivals b es rs id : rep b es -> Z.of_nat (length rs) < 2 ^ 63 ->
  let b' := (RemoveThrough id (RemovalBoundary b) None (pushes rs b)).1 in
  rep b' (newest (rg_maxSize (b_ring b)) (number (b_nextSeq b) rs)) /\
  b_totalReq b' = Z.of_nat (length rs) /\ b_totalErr b' = errors rs /\
  b_feedID b' = newFeedID id /\ b_feedDone b' = S (b_feedDone (pushes rs b)).
Proof.
  intros Hr Hlen. destruct (pushes_rep rs b es Hr) as [Hp Hm].
  destruct (ring_remove id (Some (RemovalBoundary b)) None _ _ Hp) as [Hk _].
  rewrite keep_arrivals in Hk by (done || apply Hr). intros b'. split; [exact Hk|].
  unfold b', RemoveThrough, removeWhereLocked. destruct (remove_loop _ _ _ _) as [[[ks kq] n] ne].
  cbn [fst invalidateFeedLocked closeFeedsLocked set_feed set_content b_totalReq b_totalErr b_feedID b_feedDone RemovalBoundary bd_requests bd_errors].
  destruct (pushes_counters rs b (- b_totalReq b)) as [H1 _]. destruct (pushes_counters rs b (- b_totalErr b)) as [_ H2].
  unfold atomic_add. rewrite H1, H2.
  assert (errors rs <= Z.of_nat (length rs)) by (unfold errors; pose proof (length_filter (fun r => IsError r = true) rs); lia).
  rewrite !wrap64_id by (unfold in_int64, int64_min, int64_max, errors in *; lia). repeat split; lia.
Qed.

Definition plain_rec (id : bytes) (status : Z) : Rec :=
  MkRec id 0 status 0 0 0 0 0 [] [] [] [] [] [] [] [] [] [] [] [] [] [] [] [] [] [] [] [] [] [] [] [].

Lemma ring_refines_witness :
  Snapshot (pushes [plain_rec [1] 200; plain_rec [2] 200; plain_rec [3] 500] (NewBuffer 2 [])) =
    [Some (plain_rec [2] 200); Some (plain_rec [3] 500)].
Proof.
  destruct (pushes_rep [plain_rec [1] 200; plain_rec [2] 200; plain_rec [3] 500] _ _ (NewBuffer_rep 2 [])) as [Hr _].
  destruct (ring_refines _ _ Hr) as [[H _] _]. exact H.
Defined.

Lemma wipe_keeps_arrivals_witness :
  let b := pushes [plain_rec [1] 500] (NewBuffer 2 []) in
  b_totalErr (RemoveThrough [7] (RemovalBoundary b) None (pushes [plain_rec [2] 200; plain_rec [3] 500] b)).1 = 1.
Proof.
  intros b. destruct (pushes_rep [plain_rec [1] 500] _ _ (NewBuffer_rep 2 [])) as [Hr _].
  destruct (wipe_keeps_arrivals _ _ [plain_rec [2] 200; plain_rec [3] 500] [7] Hr) as (_ & _ & H & _); [cbn; lia|].
  exact H.
Defined.
