(* ===== verification/Feed.v ===== *)
(** internal/metrics: the live feed around the ring (buffer.go, http.go).
    Publications, subscriber channels and the event streams of dashboards, as
    steps that any number of requests, purges, handlers and readers interleave. *)


From S2P Require Import Prelude GoTime Retain Ring.

(** ** Events and channels *)

Record RingEvent := REvent { ev_Record : Rec; ev_Seq : Z; ev_feedID : feed_id }.

Inductive phase := PBegin | PUpdate | PEnd | POther.
#[export] Instance phase_eq_dec : EqDecision phase.
Proof. solve_decision. Defined.

Record LiveEvent := LEvent {
  le_Phase : phase;
  le_Record : Rec;
  le_InFlight : Z;
  le_PendingRevision : Z;
  le_feedID : feed_id;
}.

(** A subscriber's channel: what it buffers, and whether it was closed. *)
Record chan (T : Type) := Chan { ch_queue : list T; ch_closed : bool }.
Arguments Chan {T}. Arguments ch_queue {T}. Arguments ch_closed {T}.

Definition subChanCap : nat := 256.

(** A registry and the channels ever made for it; an identity is a channel's
    address. *)
Record registry (T : Type) := Registry { reg_subs : gset nat; reg_chans : gmap nat (chan T) }.
Arguments Registry {T}. Arguments reg_subs {T}. Arguments reg_chans {T}.

(** One turn of fanout's loop: a full channel is retired and closed. *)
Definition deliver {T} (ev : T) (g : registry T) (ch : nat) : registry T :=
  match reg_chans g !! ch with
  | None => g
  | Some c =>
      if Nat.ltb (length (ch_queue c)) subChanCap
      then Registry (reg_subs g) (<[ch := Chan (ch_queue c ++ [ev]) (ch_closed c)]> (reg_chans g))
      else Registry (reg_subs g ∖ {[ch]}) (<[ch := Chan (ch_queue c) true]> (reg_chans g))
  end.
Definition fanout {T} (g : registry T) (ev : T) : registry T := fold_left (deliver ev) (elements (reg_subs g)) g.

Definition subscribeChan {T} (ch : nat) (g : registry T) : registry T :=
  Registry ({[ch]} ∪ reg_subs g) (<[ch := Chan [] false]> (reg_chans g)).
Definition unsubscribeChan {T} (ch : nat) (g : registry T) : registry T :=
  if decide (ch ∈ reg_subs g)
  then Registry (reg_subs g ∖ {[ch]}) (alter (fun c => Chan (ch_queue c) true) ch (reg_chans g))
  else g.

(** A receive from a channel that has something buffered. *)
Definition receive {T} (ch : nat) (g : registry T) : option (T * registry T) :=
  match reg_chans g !! ch with
  | Some (Chan (ev :: q) closed) => Some (ev, Registry (reg_subs g) (<[ch := Chan q closed]> (reg_chans g)))
  | _ => None
  end.

(** ** The locked sections *)

Definition set_pending (p : gmap bytes Rec) (b : Buffer) : Buffer :=
  Buf (b_ring b) (b_nextSeq b) (b_finalRevision b) (b_pendingRevision b + 1) (b_feedID b)
    (Z.of_nat (base.size p)) (b_totalReq b) (b_totalErr b) p (b_feedDone b) (b_snapLimit b).
Definition SetSnapshotLimit (n : Z) (b : Buffer) : Buffer :=
  Buf (b_ring b) (b_nextSeq b) (b_finalRevision b) (b_pendingRevision b) (b_feedID b) (b_inFlight b) (b_totalReq b)
    (b_totalErr b) (b_pending b) (b_feedDone b) n.

(** Record up to the fan-out: the append, and the end of a pending request. *)
Definition Record_section (liveSubs : nat) (r : Rec) (b : Buffer) : Buffer * RingEvent * option LiveEvent :=
  let r := retainRecord r in
  let '(b, seq, feed) := pushLocked r b in
  match b_pending b !! r_ID r with
  | None => (b, REvent r seq feed, None)
  | Some _ =>
      let b := set_pending (delete (r_ID r) (b_pending b)) b in
      (b, REvent r seq feed,
       if Nat.ltb 0 liveSubs then Some (LEvent PEnd r (b_inFlight b) (b_pendingRevision b) feed) else None)
  end.

(** PublishLive up to the fan-out; [None] when it returns early. *)
Definition PublishLive_section (liveSubs : nat) (ph : phase) (r : Rec) (b : Buffer) : option (Buffer * option LiveEvent) :=
  if bool_decide (ph <> PBegin /\ ph <> PUpdate) then None else
  let snap := retainRecordSnapshot r in
  let exists_ := bool_decide (is_Some (b_pending b !! r_ID snap)) in
  if (bool_decide (ph = PBegin) && exists_) || (bool_decide (ph = PUpdate) && negb exists_) then None else
  let b := set_pending (<[r_ID snap := snap]> (b_pending b)) b in
  Some (b, if Nat.ltb 0 liveSubs then Some (LEvent ph snap (b_inFlight b) (b_pendingRevision b) (b_feedID b)) else None).

(** What the holder of subsMu has still to fan out. *)
Inductive publication := Idle | PubRing (ev : RingEvent) (ended : option LiveEvent) | PubLive (ev : LiveEvent).

(** ** Streams: HandleStream after its headers *)

(** A frame of the stream. [floor] is not on the wire: it is the number of the
    oldest record a limited full snapshot carries, 0 when nothing was cut. *)
Inductive frame :=
  | FSnapshot (s : snapshot) (floor : Z)
  | FRecord (seq : Z) (r : Rec)
  | FLive (ev : LiveEvent)
  | FReset (feed : feed_id).

(** Where the handler is: it holds feedDone, it subscribed to the ring's
    events, to the lifecycle's; it streams; it unwinds its defers. *)
Inductive stage := SFeedChan | SSubscribed | SLive | SRunning | SEnding | SUnsubLive | SUnsub | SEnded.
#[export] Instance stage_eq_dec : EqDecision stage.
Proof. solve_decision. Defined.

Record stream := Stream {
  st_stage : stage;
  st_feed_param : feed_id;
  st_since : bytes;
  st_lastEventID : bytes;
  st_feedDone : nat;
  st_sub : nat;
  st_live : nat;
  st_feedID : feed_id;
  st_out : list frame;
}.

Definition st_to (stg : stage) (st : stream) : stream :=
  Stream stg (st_feed_param st) (st_since st) (st_lastEventID st) (st_feedDone st) (st_sub st) (st_live st)
    (st_feedID st) (st_out st).
Definition st_subscribed (ch : nat) (st : stream) : stream :=
  Stream SSubscribed (st_feed_param st) (st_since st) (st_lastEventID st) (st_feedDone st) ch (st_live st)
    (st_feedID st) (st_out st).
Definition st_sublive (ch : nat) (st : stream) : stream :=
  Stream SLive (st_feed_param st) (st_since st) (st_lastEventID st) (st_feedDone st) (st_sub st) ch
    (st_feedID st) (st_out st).
Definition st_emit (fr : frame) (st : stream) : stream :=
  Stream (st_stage st) (st_feed_param st) (st_since st) (st_lastEventID st) (st_feedDone st) (st_sub st) (st_live st)
    (st_feedID st) (st_out st ++ [fr]).

(** The snapshot event, and the epoch the stream is pinned to. *)
Definition window_floor (since : Z) (b : Buffer) : Z :=
  let '(start, _, _) := snapshot_start since b in
  if Nat.eqb start 0 then 0 else seq_at (b_ring b) start.
Definition snapshot_frame (feed since last : bytes) (b : Buffer) : frame :=
  FSnapshot (SnapshotRequest feed since last b) (window_floor (cursorParam feed since last (b_feedID b)) b).
Definition st_snapshot (b : Buffer) (st : stream) : stream :=
  Stream SRunning (st_feed_param st) (st_since st) (st_lastEventID st) (st_feedDone st) (st_sub st) (st_live st)
    (b_feedID b) (st_out st ++ [snapshot_frame (st_feed_param st) (st_since st) (st_lastEventID st) b]).

(** A received event: one of another epoch is skipped. *)
Definition st_ring_event (ev : RingEvent) (st : stream) : stream :=
  if bool_decide (ev_feedID ev = st_feedID st) then st_emit (FRecord (ev_Seq ev) (ev_Record ev)) st else st.
Definition st_live_event (ev : LiveEvent) (st : stream) : stream :=
  if bool_decide (le_feedID ev = st_feedID st) then st_emit (FLive ev) st else st.

(** The deferred reset event. *)
Definition st_reset (b : Buffer) (st : stream) : stream :=
  if bool_decide (b_feedID b = st_feedID st) then st else st_emit (FReset (b_feedID b)) st.

(** ** Dashboards

    What a reader of the streams holds when it follows the protocol documented
    at HandleStream: a delta merges, any other snapshot replaces, an event is
    folded in, and a request presents the epoch it holds with a cursor no newer
    than what it has seen. *)
Record page := Page {
  p_feed : feed_id;
  p_tip : Z;
  p_known : list Rec;
  p_floor : Z;
  p_pending : gmap bytes Rec;
  p_rev : Z;
  p_gauge : Z;
}.
Definition new_page : page := Page [] 0 [] 0 ∅ 0 0.

(** A page, the stream it reads, and how many of its frames it has read. *)
Record dash := Dash { d_page : page; d_stream : option nat; d_read : nat }.

Definition pending_map (l : list Rec) : gmap bytes Rec := list_to_map (map (fun r => (r_ID r, r)) l).

Definition live_apply (ev : LiveEvent) (p : gmap bytes Rec) : gmap bytes Rec :=
  match le_Phase ev with
  | PEnd => delete (r_ID (le_Record ev)) p
  | _ => <[r_ID (le_Record ev) := le_Record ev]> p
  end.

Definition read_frame (fr : frame) (p : page) : page :=
  match fr with
  | FSnapshot s floor =>
      let pending := pending_map (sn_InFlightRecords s) in
      let rev := sn_PendingRevision s in
      let gauge := c_InFlight (sn_Counters s) in
      if sn_Incremental s && bool_decide (sn_FeedID s = p_feed p)
      then Page (p_feed p) (Z.max (p_tip p) (sn_Seq s)) (p_known p ++ omap id (sn_Records s)) (p_floor p) pending rev gauge
      else Page (sn_FeedID s) (sn_Seq s) (omap id (sn_Records s)) floor pending rev gauge
  | FRecord q r =>
      Page (p_feed p) (Z.max (p_tip p) q) (p_known p ++ [r]) (p_floor p) (p_pending p) (p_rev p) (p_gauge p)
  | FLive ev =>
      if p_rev p <? le_PendingRevision ev
      then Page (p_feed p) (p_tip p) (p_known p) (p_floor p) (live_apply ev (p_pending p)) (le_PendingRevision ev)
             (le_InFlight ev)
      else p
  | FReset _ => p
  end.

(** ** The Prometheus cache *)

(** Where the holder of the cache's lock is: it missed; it rendered and has not
    published yet, with the revision it copied. *)
Inductive scrape := NoScrape | Missed | Rendered (revision : Z) (body : bytes).
Record promCache := Prom { pc_revision : Z; pc_body : bytes; pc_valid : bool; pc_scrape : scrape }.

(** A scrape that the cache answers. *)
Definition prom_hit (p : promCache) (b : Buffer) : option bytes :=
  if pc_valid p && (b_finalRevision b =? pc_revision p) then Some (pc_body p) else None.
Definition prom_missed (p : promCache) : promCache := Prom (pc_revision p) (pc_body p) (pc_valid p) Missed.
(** The snapshot and its rendering; one that fails publishes nothing. *)
Definition prom_render (render : list (option Rec) -> option bytes) (b : Buffer) (p : promCache) : promCache :=
  let '(records, revision) := prometheusSnapshot b in
  Prom (pc_revision p) (pc_body p) (pc_valid p)
    (match render records with Some body => Rendered revision body | None => NoScrape end).
Definition prom_publish (p : promCache) : promCache :=
  match pc_scrape p with Rendered revision body => Prom revision body true NoScrape | _ => p end.

(** ** The system *)

(** [f_epochs] keeps the epochs there have been. *)
Record feed := Feed {
  f_buf : Buffer;
  f_subs : registry RingEvent;
  f_liveSubs : registry LiveEvent;
  f_publish : publication;
  f_streams : gmap nat stream;
  f_dashes : gmap nat dash;
  f_prom : promCache;
  f_epochs : gset feed_id;
}.

Definition with_buf (b : Buffer) (f : feed) : feed :=
  Feed b (f_subs f) (f_liveSubs f) (f_publish f) (f_streams f) (f_dashes f) (f_prom f) ({[b_feedID b]} ∪ f_epochs f).
Definition publishing (p : publication) (f : feed) : feed :=
  Feed (f_buf f) (f_subs f) (f_liveSubs f) p (f_streams f) (f_dashes f) (f_prom f) (f_epochs f).
Definition with_subs (g : registry RingEvent) (f : feed) : feed :=
  Feed (f_buf f) g (f_liveSubs f) (f_publish f) (f_streams f) (f_dashes f) (f_prom f) (f_epochs f).
Definition with_liveSubs (g : registry LiveEvent) (f : feed) : feed :=
  Feed (f_buf f) (f_subs f) g (f_publish f) (f_streams f) (f_dashes f) (f_prom f) (f_epochs f).
Definition with_stream (s : nat) (st : stream) (f : feed) : feed :=
  Feed (f_buf f) (f_subs f) (f_liveSubs f) (f_publish f) (<[s := st]> (f_streams f)) (f_dashes f) (f_prom f) (f_epochs f).
Definition with_dash (i : nat) (d : dash) (f : feed) : feed :=
  Feed (f_buf f) (f_subs f) (f_liveSubs f) (f_publish f) (f_streams f) (<[i := d]> (f_dashes f)) (f_prom f) (f_epochs f).
Definition with_prom (p : promCache) (f : feed) : feed :=
  Feed (f_buf f) (f_subs f) (f_liveSubs f) (f_publish f) (f_streams f) (f_dashes f) p (f_epochs f).

(** A process that restored [rows] from its store before it serves. *)
Definition start (maxSize : Z) (idBytes : bytes) (rows : list (option Rec)) : feed :=
  let b := Backfill rows (NewBuffer maxSize idBytes) in
  Feed b (Registry ∅ ∅) (Registry ∅ ∅) Idle ∅ ∅ (Prom 0 [] false NoScrape) {[b_feedID b; []]}.

(** The sections that take only the ring's lock. *)
Inductive upkeep (idBytes : bytes) (b : Buffer) : Buffer -> Prop :=
  | up_reset : upkeep idBytes b (Reset idBytes b)
  | up_remove_where pred : upkeep idBytes b (RemoveWhere idBytes pred b).1
  | up_remove_through bd pred : upkeep idBytes b (RemoveThrough idBytes bd pred b).1
  | up_close : upkeep idBytes b (CloseFeeds b)
  | up_limit n : upkeep idBytes b (SetSnapshotLimit n b).

Definition live_count (f : feed) : nat := base.size (reg_subs (f_liveSubs f)).
Definition published (ended : option LiveEvent) : publication :=
  match ended with Some ev => PubLive ev | None => Idle end.

Section steps.
(** The exposition's renderer, PrometheusExposition's argument. *)
Variable render : list (option Rec) -> option bytes.

Inductive step : feed -> feed -> Prop :=
  (* requests *)
  | step_record f r b ev ended : f_publish f = Idle ->
      Record_section (live_count f) r (f_buf f) = (b, ev, ended) ->
      step f (publishing (PubRing ev ended) (with_buf b f))
  | step_publish f ph r b ended : f_publish f = Idle ->
      PublishLive_section (live_count f) ph r (f_buf f) = Some (b, ended) ->
      step f (publishing (published ended) (with_buf b f))
  | step_fan_ring f ev ended : f_publish f = PubRing ev ended ->
      step f (publishing (published ended) (with_subs (fanout (f_subs f) ev) f))
  | step_fan_live f ev : f_publish f = PubLive ev ->
      step f (publishing Idle (with_liveSubs (fanout (f_liveSubs f) ev) f))
  (* purges, restarts, reloads: a fresh epoch is one there has never been *)
  | step_upkeep f idBytes b : newFeedID idBytes ∉ f_epochs f -> upkeep idBytes (f_buf f) b -> step f (with_buf b f)
  (* HandleStream *)
  | step_subscribe f s st ch : f_streams f !! s = Some st -> st_stage st = SFeedChan -> f_publish f = Idle ->
      reg_chans (f_subs f) !! ch = None ->
      step f (with_stream s (st_subscribed ch st) (with_subs (subscribeChan ch (f_subs f)) f))
  | step_sublive f s st ch : f_streams f !! s = Some st -> st_stage st = SSubscribed -> f_publish f = Idle ->
      reg_chans (f_liveSubs f) !! ch = None ->
      step f (with_stream s (st_sublive ch st) (with_liveSubs (subscribeChan ch (f_liveSubs f)) f))
  | step_snapshot f s st : f_streams f !! s = Some st -> st_stage st = SLive ->
      step f (with_stream s (st_snapshot (f_buf f) st) f)
  | step_ring_event f s st ev g : f_streams f !! s = Some st -> st_stage st = SRunning ->
      receive (st_sub st) (f_subs f) = Some (ev, g) ->
      step f (with_stream s (st_ring_event ev st) (with_subs g f))
  | step_live_event f s st ev g : f_streams f !! s = Some st -> st_stage st = SRunning ->
      receive (st_live st) (f_liveSubs f) = Some (ev, g) ->
      step f (with_stream s (st_live_event ev st) (with_liveSubs g f))
  (* a closed channel, feedDone, the context, a failed write *)
  | step_refused f s st : f_streams f !! s = Some st -> st_stage st = SLive ->
      step f (with_stream s (st_to SUnsubLive st) f)
  | step_ending f s st : f_streams f !! s = Some st -> st_stage st = SRunning ->
      step f (with_stream s (st_to SEnding st) f)
  | step_reset f s st : f_streams f !! s = Some st -> st_stage st = SEnding ->
      step f (with_stream s (st_to SUnsubLive (st_reset (f_buf f) st)) f)
  | step_unsublive f s st : f_streams f !! s = Some st -> st_stage st = SUnsubLive -> f_publish f = Idle ->
      step f (with_stream s (st_to SUnsub st) (with_liveSubs (unsubscribeChan (st_live st) (f_liveSubs f)) f))
  | step_unsub f s st : f_streams f !! s = Some st -> st_stage st = SUnsub -> f_publish f = Idle ->
      step f (with_stream s (st_to SEnded st) (with_subs (unsubscribeChan (st_sub st) (f_subs f)) f))
  (* dashboards *)
  | step_page f i : f_dashes f !! i = None -> step f (with_dash i (Dash new_page None 0) f)
  | step_bootstrap f i p since last : f_dashes f !! i = Some (Dash p None 0) ->
      cursorParam (p_feed p) since last (p_feed p) <= p_tip p ->
      step f (with_dash i (Dash (read_frame (snapshot_frame (p_feed p) since last (f_buf f)) p) None 0) f)
  | step_open f i p s since last : f_dashes f !! i = Some (Dash p None 0) -> f_streams f !! s = None ->
      cursorParam (p_feed p) since last (p_feed p) <= p_tip p ->
      step f (with_stream s (Stream SFeedChan (p_feed p) since last (b_feedDone (f_buf f)) 0 0 [] [])
        (with_dash i (Dash p (Some s) 0) f))
  | step_read f i p s n st fr : f_dashes f !! i = Some (Dash p (Some s) n) -> f_streams f !! s = Some st ->
      st_out st !! n = Some fr ->
      step f (with_dash i (Dash (read_frame fr p) (Some s) (S n)) f)
  | step_drop f i d : f_dashes f !! i = Some d -> step f (with_dash i (Dash (d_page d) None 0) f)
  (* PrometheusExposition, under the cache's lock *)
  | step_prom_miss f : pc_scrape (f_prom f) = NoScrape -> prom_hit (f_prom f) (f_buf f) = None ->
      step f (with_prom (prom_missed (f_prom f)) f)
  | step_prom_render f : pc_scrape (f_prom f) = Missed ->
      step f (with_prom (prom_render render (f_buf f) (f_prom f)) f)
  | step_prom_publish f : step f (with_prom (prom_publish (f_prom f)) f).

(** The states a process goes through, oldest first. *)
Inductive run : list feed -> feed -> Prop :=
  | run_start maxSize idBytes rows : newFeedID idBytes <> [] ->
      run [start maxSize idBytes rows] (start maxSize idBytes rows)
  | run_step tr f f' : run tr f -> step f f' -> run (tr ++ [f']) f'.
End steps.
