(* ===== verification/FeedInv.v ===== *)
(** What the live feed guarantees: a dashboard never misses a record, its
    pending rows are the registry of some instant, and a scrape is current. *)

From stdpp Require Import sorting.
From S2P Require Import Prelude GoTime Retain Ring Feed.

(** ** Channels *)

Definition reg_ok {T} (g : registry T) : Prop :=
  forall ch, ch ∈ reg_subs g <-> exists q, reg_chans g !! ch = Some (Chan q false).

(** What a channel still has to hand out, counting a publication under way. *)
Definition coming {T} (g : registry T) (pub : list T) (ch : nat) : list T :=
  match reg_chans g !! ch with Some c => ch_queue c | None => [] end ++ (if decide (ch ∈ reg_subs g) then pub else []).

Lemma coming_closed {T} (g : registry T) pub ch : ch ∉ reg_subs g -> coming g pub ch = coming g [] ch.
Proof. intros H. unfold coming. by rewrite !decide_False. Qed.
Lemma coming_open {T} (g : registry T) pub ch : ch ∈ reg_subs g -> coming g pub ch = coming g [] ch ++ pub.
Proof. intros H. unfold coming. by rewrite !decide_True, app_nil_r. Qed.

(** One publication reaches every open channel, or retires it. *)
Definition fanned {T} (ev : T) (g g' : registry T) (ch : nat) : Prop :=
  (is_Some (reg_chans g !! ch) <-> is_Some (reg_chans g' !! ch)) /\
  (coming g' [] ch = coming g [ev] ch /\ (ch ∈ reg_subs g' <-> ch ∈ reg_subs g) \/
   coming g' [] ch ++ [ev] = coming g [ev] ch /\ ch ∈ reg_subs g /\ ch ∉ reg_subs g').

Lemma deliver_other {T} (ev : T) g ch ch' : ch <> ch' ->
  reg_chans (deliver ev g ch) !! ch' = reg_chans g !! ch' /\ (ch' ∈ reg_subs (deliver ev g ch) <-> ch' ∈ reg_subs g).
Proof.
  intros Hne. unfold deliver. destruct (reg_chans g !! ch); [|done]. case_match; cbn; rewrite lookup_insert_ne by done;
    (split; [done|set_solver]).
Qed.

Lemma deliver_self {T} (ev : T) g ch q : reg_ok g -> reg_chans g !! ch = Some (Chan q false) -> reg_ok (deliver ev g ch) /\
  (reg_chans (deliver ev g ch) !! ch = Some (Chan (q ++ [ev]) false) \/ reg_chans (deliver ev g ch) !! ch = Some (Chan q true)).
Proof.
  intros Hg Hc. unfold deliver. rewrite Hc. cbn [ch_queue ch_closed]. case_match; cbn [reg_chans reg_subs].
  - split; [|left; apply lookup_insert_eq]. intros ch'. cbn. rewrite (Hg ch'). destruct (decide (ch = ch')) as [<-|Hne].
    + rewrite lookup_insert_eq, Hc. split; intros _; by eexists.
    + by rewrite lookup_insert_ne.
  - split; [|right; apply lookup_insert_eq]. intros ch'. cbn. rewrite elem_of_difference, (Hg ch'), elem_of_singleton.
    destruct (decide (ch = ch')) as [<-|Hne]; [rewrite lookup_insert_eq; naive_solver|rewrite lookup_insert_ne by done; naive_solver].
Qed.

Lemma reg_ok_closed {T} (g : registry T) ch q : reg_ok g -> reg_chans g !! ch = Some (Chan q true) -> ch ∉ reg_subs g.
Proof. intros Hg Hc Hin. apply Hg in Hin as [q' Hq']. congruence. Qed.

Lemma fanout_loop {T} (ev : T) : forall l g, NoDup l -> (forall ch, ch ∈ l -> ch ∈ reg_subs g) -> reg_ok g ->
  let g' := fold_left (deliver ev) l g in
  reg_ok g' /\ forall ch,
    (ch ∉ l -> reg_chans g' !! ch = reg_chans g !! ch) /\
    (ch ∈ l -> exists q, reg_chans g !! ch = Some (Chan q false) /\
      (reg_chans g' !! ch = Some (Chan (q ++ [ev]) false) \/ reg_chans g' !! ch = Some (Chan q true))).
Proof.
  induction l as [|x l IH]; intros g Hnd Hin Hg; cbn [fold_left].
  { split; [done|]. intros ch. split; [done|]. intros H. by apply elem_of_nil in H. }
  apply NoDup_cons in Hnd as [Hx Hnd]. assert (Hxin : x ∈ reg_subs g) by (apply Hin; by left).
  apply Hg in Hxin as Hq. destruct Hq as [q Hq]. destruct (deliver_self ev g x q Hg Hq) as [Hg1 Hself].
  destruct (IH (deliver ev g x) Hnd) as [Hok Hrest]; [|done|].
  { intros ch Hch. assert (x <> ch) by (intros ->; done). apply deliver_other; [done|]. apply Hin. by right. }
  split; [done|]. intros ch. destruct (Hrest ch) as [Hout Hl]. split.
  - rewrite not_elem_of_cons. intros [Hne Hnl]. rewrite Hout by done. by apply deliver_other.
  - intros Hch. destruct (decide (x = ch)) as [<-|Hne].
    + exists q. split; [done|]. by rewrite Hout.
    + rewrite elem_of_cons in Hch. destruct Hch as [->|Hch]; [done|]. destruct (Hl Hch) as (q' & H1 & H2).
      exists q'. split; [|done]. rewrite <- H1. symmetry. by apply deliver_other.
Qed.

Lemma coming_at {T} (g : registry T) pub ch q closed : reg_ok g -> reg_chans g !! ch = Some (Chan q closed) ->
  coming g pub ch = (if closed then q else q ++ pub) /\ (ch ∈ reg_subs g <-> closed = false).
Proof.
  intros Hg Hc. unfold coming. rewrite Hc. cbn [ch_queue].
  assert (Hin : ch ∈ reg_subs g <-> closed = false) by (rewrite (Hg ch); split; [intros [? ?]; congruence|intros ->; by eexists]).
  split; [|done]. destruct (decide _) as [H|H]; [by rewrite (proj1 Hin H)|]. destruct closed; [apply app_nil_r|naive_solver].
Qed.

Lemma fanout_spec {T} (ev : T) g : reg_ok g -> reg_ok (fanout g ev) /\ forall ch, fanned ev g (fanout g ev) ch.
Proof.
  intros Hg. destruct (fanout_loop ev (elements (reg_subs g)) g) as [Hok H]; [apply NoDup_elements|by intros ch; rewrite elem_of_elements|done|].
  split; [done|]. intros ch. fold (fanout g ev) in *. destruct (H ch) as [Hout Hin]. rewrite elem_of_elements in *. unfold fanned.
  destruct (decide (ch ∈ reg_subs g)) as [Hs|Hs].
  - destruct (Hin Hs) as (q & Hq & Hcase). destruct (coming_at g [ev] ch q false Hg Hq) as [-> _]. rewrite Hq.
    destruct Hcase as [Hc|Hc]; destruct (coming_at _ [] ch _ _ Hok Hc) as [-> Hm]; rewrite Hc; (split; [naive_solver|]).
    + left. rewrite app_nil_r. naive_solver.
    + right. split; [done|]. rewrite Hm. naive_solver.
  - rewrite (coming_closed g) by done. unfold coming. rewrite (Hout Hs). split; [done|]. left.
    assert (ch ∉ reg_subs (fanout g ev)).
    { intros Hc. apply Hok in Hc as [q Hq]. rewrite (Hout Hs) in Hq. apply Hs, Hg. by eexists. }
    rewrite !decide_False by done. naive_solver.
Qed.

Lemma receive_spec {T} ch (g g' : registry T) ev : reg_ok g -> receive ch g = Some (ev, g') ->
  reg_ok g' /\ reg_subs g' = reg_subs g /\
  (forall pub, coming g pub ch = ev :: coming g' pub ch) /\
  (forall ch', ch <> ch' -> reg_chans g' !! ch' = reg_chans g !! ch') /\
  (forall ch', is_Some (reg_chans g !! ch') -> is_Some (reg_chans g' !! ch')).
Proof.
  intros Hg. unfold receive. destruct (reg_chans g !! ch) as [[[|e q] closed]|] eqn:E; [done| |done].
  intros [= <- <-]. cbn [reg_subs reg_chans]. split; [|split; [done|split; [|split]]].
  - intros ch'. cbn. rewrite (Hg ch'). destruct (decide (ch = ch')) as [<-|Hne].
    + rewrite lookup_insert_eq, E. naive_solver.
    + by rewrite lookup_insert_ne.
  - intros pub. unfold coming. cbn. by rewrite lookup_insert_eq, E.
  - intros ch' Hne. by rewrite lookup_insert_ne.
  - intros ch' Hs. destruct (decide (ch = ch')) as [<-|Hne]; [by rewrite lookup_insert_eq|by rewrite lookup_insert_ne].
Qed.

Lemma subscribe_spec {T} ch (g : registry T) : reg_ok g -> reg_chans g !! ch = None ->
  let g' := subscribeChan ch g in
  reg_ok g' /\ coming g' [] ch = [] /\ ch ∈ reg_subs g' /\
  (forall ch', ch <> ch' -> reg_chans g' !! ch' = reg_chans g !! ch' /\ (ch' ∈ reg_subs g' <-> ch' ∈ reg_subs g)) /\
  (forall ch', ch = ch' \/ is_Some (reg_chans g !! ch') -> is_Some (reg_chans g' !! ch')).
Proof.
  intros Hg Hn. cbn. split; [|split; [|split; [set_solver|split]]].
  - intros ch'. cbn. rewrite elem_of_union, elem_of_singleton, (Hg ch'). destruct (decide (ch = ch')) as [<-|Hne].
    + rewrite lookup_insert_eq. naive_solver.
    + rewrite lookup_insert_ne by done. naive_solver.
  - unfold coming. cbn. rewrite lookup_insert_eq. cbn. by destruct (decide _).
  - intros ch' Hne. rewrite lookup_insert_ne by done. split; [done|set_solver].
  - intros ch'. destruct (decide (ch = ch')) as [<-|Hne]; [by rewrite lookup_insert_eq|rewrite lookup_insert_ne by done; naive_solver].
Qed.

Lemma unsubscribe_spec {T} ch (g : registry T) : reg_ok g ->
  let g' := unsubscribeChan ch g in
  reg_ok g' /\ (forall ch', coming g' [] ch' = coming g [] ch' /\ (ch' ∈ reg_subs g' -> ch' ∈ reg_subs g)) /\
  (forall ch', ch <> ch' -> reg_chans g' !! ch' = reg_chans g !! ch' /\ (ch' ∈ reg_subs g' <-> ch' ∈ reg_subs g)) /\
  (forall ch', is_Some (reg_chans g !! ch') -> is_Some (reg_chans g' !! ch')).
Proof.
  intros Hg. unfold unsubscribeChan. destruct (decide (ch ∈ reg_subs g)) as [Hin|Hin]; [|done].
  apply Hg in Hin as Hq. destruct Hq as [q Hq]. cbn. split; [|split; [|split]].
  - intros ch'. cbn. rewrite elem_of_difference, elem_of_singleton, (Hg ch'). destruct (decide (ch = ch')) as [<-|Hne].
    + rewrite lookup_alter_eq, Hq. naive_solver.
    + rewrite lookup_alter_ne by done. naive_solver.
  - intros ch'. split; [|set_solver]. unfold coming. cbn. f_equal; [|by destruct (decide _), (decide _)].
    destruct (decide (ch = ch')) as [<-|Hne]; [by rewrite lookup_alter_eq, Hq|by rewrite lookup_alter_ne].
  - intros ch' Hne. rewrite lookup_alter_ne by done. split; [done|set_solver].
  - intros ch' Hs. destruct (decide (ch = ch')) as [<-|Hne]; [by rewrite lookup_alter_eq, Hq; eexists|by rewrite lookup_alter_ne].
Qed.

(** ** Pages *)

Abbreviation history := (list (gmap bytes Rec)).
Definition at_rev (h : history) (rev : Z) : option (gmap bytes Rec) := if 0 <=? rev then h !! Z.to_nat rev else None.

(** What holds of a page at any time: it holds every record of its epoch up to
    its tip that is still in the ring and was not cut from its snapshot, and its
    pending rows are the registry of some revision. *)
Record page_ok (es : list (Z * Rec)) (h : history) (ep : gset feed_id) (b : Buffer) (p : page) : Prop := {
  pg_epoch : p_feed p ∈ ep;
  pg_blank : p_feed p = [] -> p_tip p <= 0;
  pg_tip : p_tip p <= b_nextSeq b;
  pg_known : p_feed p = b_feedID b -> forall q r, (q, r) ∈ es -> q <= p_tip p -> r ∈ p_known p \/ q < p_floor p;
  pg_rev : p_rev p <= b_pendingRevision b;
  pg_pending : at_rev h (p_rev p) = Some (p_pending p);
  pg_gauge : p_gauge p = Z.of_nat (base.size (p_pending p));
}.

(** The page after each of some frames, and after all of them. *)
Fixpoint pages (p : page) (frs : list frame) : list page :=
  match frs with [] => [p] | fr :: frs => p :: pages (read_frame fr p) frs end.
Definition replay (p : page) (frs : list frame) : page := fold_left (fun p fr => read_frame fr p) frs p.

Lemma pages_snoc frs fr : forall p, pages p (frs ++ [fr]) = pages p frs ++ [read_frame fr (replay p frs)].
Proof. induction frs as [|x frs IH]; intros p; [done|]. cbn. by rewrite IH. Qed.
Lemma replay_snoc p frs fr : replay p (frs ++ [fr]) = read_frame fr (replay p frs).
Proof. unfold replay. by rewrite fold_left_app. Qed.
Lemma replay_pages frs : forall p, replay p frs ∈ pages p frs.
Proof. induction frs as [|x frs IH]; intros p; cbn; [by left|right; apply IH]. Qed.
Lemma pages_head p frs : p ∈ pages p frs.
Proof. destruct frs; by left. Qed.

(** ** Channels of a running stream *)

(** The ring's events it has yet to emit, against the page that has everything
    it emitted: no record between the page's tip and a bound is missing. *)
Definition ring_chain (es : list (Z * Rec)) (b : Buffer) (F : feed_id) (tip : Z) (L : list RingEvent) (isopen : Prop) : Prop :=
  F = b_feedID b -> exists B, B <= b_nextSeq b /\ (isopen -> B = b_nextSeq b) /\
    (forall q r, (q, r) ∈ es -> tip < q <= B -> REvent r q F ∈ L) /\
    (forall e, e ∈ L -> ev_feedID e = F -> ev_Seq e <= B).

Definition rchan_ok (b : Buffer) (L : list RingEvent) : Prop :=
  StronglySorted Z.lt (ev_Seq <$> L) /\ Forall (fun e => ev_Seq e <= b_nextSeq b) L.

(** The lifecycle's events: consecutive revisions, each a transition of the
    registry. *)
Record live_ok (h : history) (e : LiveEvent) : Prop := {
  lv_rev : 1 <= le_PendingRevision e;
  lv_step : exists m, at_rev h (le_PendingRevision e - 1) = Some m /\
    at_rev h (le_PendingRevision e) = Some (live_apply e m) /\
    le_InFlight e = Z.of_nat (base.size (live_apply e m));
}.
Fixpoint consecutive (k : Z) (L : list LiveEvent) : Prop :=
  match L with [] => True | e :: L => le_PendingRevision e = k + 1 /\ consecutive (k + 1) L end.

Definition lchan_ok (h : history) (rev : Z) (k : Z) (L : list LiveEvent) (isopen : Prop) : Prop :=
  consecutive k L /\ k + Z.of_nat (length L) <= rev /\ (isopen -> k + Z.of_nat (length L) = rev) /\ Forall (live_ok h) L.

Definition live_chain (h : history) (b : Buffer) (F : feed_id) (rev : Z) (L : list LiveEvent) (isopen : Prop) : Prop :=
  exists k, lchan_ok h (b_pendingRevision b) k L isopen /\
    (k <= rev \/ F <> b_feedID b /\ Forall (fun e => le_feedID e <> F) L) /\
    (forall e, e ∈ L -> rev < le_PendingRevision e -> le_feedID e <> F ->
       F <> b_feedID b /\ forall e', e' ∈ L -> le_PendingRevision e < le_PendingRevision e' -> le_feedID e' <> F).

(** What a publication under way still has for each kind of subscriber. *)
Definition pub_ring (p : publication) : list RingEvent := match p with PubRing ev _ => [ev] | _ => [] end.
Definition pub_live (p : publication) : list LiveEvent :=
  match p with PubRing _ (Some ev) => [ev] | PubLive ev => [ev] | _ => [] end.

Definition has_sub (st : stream) : Prop := st_stage st <> SFeedChan.
Definition has_live (st : stream) : Prop := st_stage st <> SFeedChan /\ st_stage st <> SSubscribed.

(** A page reading a stream from its frame [n] on. *)
Record reading (es : list (Z * Rec)) (h : history) (f : feed) (p : page) (n : nat) (st : stream) : Prop := {
  rd_count : (n <= length (st_out st))%nat;
  rd_pages : Forall (page_ok es h (f_epochs f) (f_buf f)) (pages p (drop n (st_out st)));
  rd_request : st_stage st = SFeedChan \/ st_stage st = SSubscribed \/ st_stage st = SLive ->
    st_out st = [] /\ st_feed_param st = p_feed p /\
    cursorParam (p_feed p) (st_since st) (st_lastEventID st) (p_feed p) <= p_tip p;
  rd_running : st_stage st = SRunning ->
    let p' := replay p (drop n (st_out st)) in
    (p_feed p' = st_feedID st /\ st_feedID st <> []) /\
    ring_chain es (f_buf f) (st_feedID st) (p_tip p') (coming (f_subs f) (pub_ring (f_publish f)) (st_sub st))
      (st_sub st ∈ reg_subs (f_subs f)) /\
    live_chain h (f_buf f) (st_feedID st) (p_rev p')
      (coming (f_liveSubs f) (pub_live (f_publish f)) (st_live st))
      (st_live st ∈ reg_subs (f_liveSubs f));
}.

(** ** The clock of the feed

    Numbers, revisions and epochs only grow; the ring changes by appends, by
    evictions, and otherwise only together with the epoch. *)
Record later (es : list (Z * Rec)) (h : history) (ep : gset feed_id) (b : Buffer)
    (es' : list (Z * Rec)) (h' : history) (ep' : gset feed_id) (b' : Buffer) : Prop := {
  lt_next : b_nextSeq b <= b_nextSeq b';
  lt_rev : b_pendingRevision b <= b_pendingRevision b';
  lt_ep : ep ⊆ ep';
  lt_hist : forall rev m, at_rev h rev = Some m -> at_rev h' rev = Some m;
  lt_feed : b_feedID b' ∉ ep \/
    b_feedID b' = b_feedID b /\ forall q r, (q, r) ∈ es' -> (q, r) ∈ es \/ b_nextSeq b < q;
}.

Section later.
Context {es es' : list (Z * Rec)} {h h' : history} {ep ep' : gset feed_id} {b b' : Buffer}.
Hypothesis Hlt : later es h ep b es' h' ep' b'.

Lemma page_ok_later p : page_ok es h ep b p -> page_ok es' h' ep' b' p.
Proof.
  intros []. destruct Hlt. split; [set_solver|done|lia| |lia|by apply lt_hist0|done].
  intros Hf q r Hin Hq. destruct lt_feed0 as [Hnew|[Hsame Hes]]; [by rewrite <- Hf in Hnew|].
  rewrite Hsame in Hf. destruct (Hes q r Hin) as [Hold|Hold]; [|lia]. by apply pg_known0.
Qed.

Lemma live_ok_later e : live_ok h e -> live_ok h' e.
Proof. intros [H1 (m & H2 & H3 & H4)]. destruct Hlt. split; [done|]. exists m. auto. Qed.

Lemma feed_later F : F ∈ ep -> F <> b_feedID b -> F <> b_feedID b'.
Proof. intros HF Hne ->. destruct Hlt. destruct lt_feed0 as [Hnew|[Hsame _]]; congruence. Qed.

Lemma ring_chain_later F tip L (o o' : Prop) : F ∈ ep -> tip <= b_nextSeq b -> (o' -> o) -> b_nextSeq b' = b_nextSeq b ->
  ring_chain es b F tip L o -> ring_chain es' b' F tip L o'.
Proof.
  intros HF Htip Ho Hn Hc HFb. destruct Hlt. destruct lt_feed0 as [Hnew|[Hsame Hes]]; [by rewrite <- HFb in Hnew|].
  rewrite Hsame in HFb. destruct (Hc HFb) as (B & H1 & H2 & H3 & H4). exists B. rewrite Hn. split; [done|]. split; [auto|].
  split; [|done]. intros q r Hin Hq. apply H3; [|done]. destruct (Hes q r Hin) as [|]; [done|lia].
Qed.

(** An append reaches the open channels. *)
Lemma ring_chain_append F tip L (o : Prop) r : F ∈ ep -> tip <= b_nextSeq b -> b_nextSeq b' = b_nextSeq b + 1 ->
  (forall q x, (q, x) ∈ es -> q <= b_nextSeq b) ->
  (forall q x, (q, x) ∈ es' -> (q, x) ∈ es \/ (q, x) = (b_nextSeq b + 1, r)) ->
  ring_chain es b F tip L o ->
  (o -> ring_chain es' b' F tip (L ++ [REvent r (b_nextSeq b + 1) (b_feedID b)]) o) /\
  (~ o -> ring_chain es' b' F tip L o).
Proof.
  intros HF Htip Hn Hmax Hes Hc. destruct Hlt.
  assert (HFb : F = b_feedID b' -> F = b_feedID b) by (intros HFb; destruct lt_feed0 as [Hnew|[Hsame _]]; congruence).
  split; intros Ho HF'; specialize (Hc (HFb HF')); destruct Hc as (B & H1 & H2 & H3 & H4).
  - exists (b_nextSeq b'). split; [lia|]. split; [done|]. split.
    + intros q x Hin Hq. apply elem_of_app. destruct (Hes q x Hin) as [Hold|[= -> ->]].
      * left. apply H3; [done|]. rewrite H2 by done.
        specialize (Hmax q x Hold). lia.
      * right. apply list_elem_of_singleton. by rewrite (HFb HF').
    + intros e [He|He]%elem_of_app HeF; [specialize (H4 e He HeF); lia|]. apply list_elem_of_singleton in He as ->. cbn. lia.
  - exists B. split; [lia|]. split; [done|]. split; [|done]. intros q x Hin Hq. apply H3; [|done].
    destruct (Hes q x Hin) as [|[= -> ->]]; [done|lia].
Qed.
End later.

Lemma ring_chain_start es b F tip L o : rchan_ok b L -> (forall q r, (q, r) ∈ es -> q <= tip) -> ring_chain es b F tip L o.
Proof.
  intros [_ HL] Hes _. exists (b_nextSeq b). split; [lia|]. split; [done|]. split.
  - intros q r Hin Hq. specialize (Hes q r Hin). lia.
  - rewrite Forall_forall in HL. auto.
Qed.

Lemma sorted_snoc_lt L (e : RingEvent) x : StronglySorted Z.lt (ev_Seq <$> (L ++ [e])) -> x ∈ L -> ev_Seq x < ev_Seq e.
Proof.
  rewrite fmap_app. intros Hs Hx. apply (StronglySorted_app_1_elem_of _ _ _ _ _ Hs); [|by left].
  apply list_elem_of_fmap. by exists x.
Qed.

(** A channel that is retired ends before the event it had no room for. *)
Lemma ring_chain_retire es b F tip L e (o : Prop) : rchan_ok b (L ++ [e]) -> ring_chain es b F tip (L ++ [e]) o ->
  ring_chain es b F tip L False.
Proof.
  intros [Hs Hn] Hc HF. destruct (Hc HF) as (B & H1 & _ & H3 & H4).
  apply Forall_app in Hn as [_ Hn]. apply Forall_singleton in Hn.
  exists (Z.min B (ev_Seq e - 1)). split; [lia|]. split; [done|]. split.
  - intros q r Hin Hq. specialize (H3 q r Hin ltac:(lia)). apply elem_of_app in H3 as [H3|H3]; [done|].
    apply list_elem_of_singleton in H3 as <-. cbn in Hq. lia.
  - intros x Hx HxF. pose proof (sorted_snoc_lt L e x Hs Hx). specialize (H4 x ltac:(apply elem_of_app; by left) HxF). lia.
Qed.

(** Receiving: the page gets the oldest record it was missing. *)
Lemma ring_chain_receive es h ep b p e L (o : Prop) : rchan_ok b (e :: L) -> p_feed p <> [] ->
  page_ok es h ep b p -> ring_chain es b (p_feed p) (p_tip p) (e :: L) o ->
  if decide (ev_feedID e = p_feed p)
  then page_ok es h ep b (read_frame (FRecord (ev_Seq e) (ev_Record e)) p) /\
    ring_chain es b (p_feed p) (Z.max (p_tip p) (ev_Seq e)) L o
  else ring_chain es b (p_feed p) (p_tip p) L o.
Proof.
  intros [Hs Hn] Hne [] Hc. rewrite fmap_cons in Hs. apply StronglySorted_inv in Hs as [_ Hs].
  rewrite Forall_fmap, Forall_forall in Hs. apply Forall_cons in Hn as [Hn _].
  destruct (decide (ev_feedID e = p_feed p)) as [He|He].
  - split.
    + split; cbn; [done|done|lia| |done..]. intros HF q r Hin Hq. rewrite elem_of_app.
      destruct (decide (q <= p_tip p)) as [Hle|Hgt]; [destruct (pg_known0 HF q r Hin Hle); tauto|].
      destruct (Hc HF) as (B & H1 & _ & H3 & H4). specialize (H4 e ltac:(by left) He).
      specialize (H3 q r Hin ltac:(lia)). apply elem_of_cons in H3 as [<-|H3]; [left; right; by apply list_elem_of_singleton|].
      specialize (Hs _ H3). cbn in Hs. lia.
    + intros HF. destruct (Hc HF) as (B & H1 & H2 & H3 & H4). exists B. split; [done|]. split; [done|]. split.
      * intros q r Hin Hq. specialize (H3 q r Hin ltac:(lia)). apply elem_of_cons in H3 as [<-|H3]; [cbn in Hq; lia|done].
      * intros x Hx. apply H4. by right.
  - intros HF. destruct (Hc HF) as (B & H1 & H2 & H3 & H4). exists B. split; [done|]. split; [done|]. split.
    + intros q r Hin Hq. specialize (H3 q r Hin Hq). apply elem_of_cons in H3 as [<-|H3]; [done|done].
    + intros x Hx. apply H4. by right.
Qed.

Lemma rchan_ok_tail b e L : rchan_ok b (e :: L) -> rchan_ok b L.
Proof.
  intros [Hs Hn]. rewrite fmap_cons in Hs. apply StronglySorted_inv in Hs as [Hs _]. apply Forall_cons in Hn as [_ Hn]. done.
Qed.
Lemma rchan_ok_init b L e : rchan_ok b (L ++ [e]) -> rchan_ok b L.
Proof.
  intros [Hs Hn]. rewrite fmap_app in Hs. apply StronglySorted_app_1_l in Hs. apply Forall_app in Hn as [Hn _]. done.
Qed.
Lemma rchan_ok_append b b' L e : rchan_ok b L -> b_nextSeq b' = b_nextSeq b + 1 -> ev_Seq e = b_nextSeq b + 1 ->
  rchan_ok b' L /\ rchan_ok b' (L ++ [e]).
Proof.
  intros [Hs Hn] Hb He. assert (Hn' : Forall (fun e => ev_Seq e <= b_nextSeq b') L).
  { eapply Forall_impl; [exact Hn|]. cbn. lia. }
  split; [done|]. split.
  - rewrite fmap_app. apply StronglySorted_app_2; [|done|by repeat constructor].
    intros x y (z & -> & Hz)%list_elem_of_fmap Hy. cbn in Hy. apply list_elem_of_singleton in Hy as ->.
    rewrite Forall_forall in Hn. specialize (Hn z Hz). cbn in Hn. lia.
  - apply Forall_app. split; [done|]. apply Forall_singleton. lia.
Qed.

(** ** The lifecycle's channel *)

Lemma consecutive_app k L L' : consecutive k (L ++ L') <-> consecutive k L /\ consecutive (k + Z.of_nat (length L)) L'.
Proof.
  revert k. induction L as [|e L IH]; intros k; cbn [app consecutive length]; [rewrite Z.add_0_r; tauto|].
  rewrite IH. replace (k + Z.of_nat (S (length L))) with (k + 1 + Z.of_nat (length L)) by lia. tauto.
Qed.
Lemma consecutive_range k L e : consecutive k L -> e ∈ L -> k < le_PendingRevision e <= k + Z.of_nat (length L).
Proof.
  revert k. induction L as [|x L IH]; intros k Hc He; [by apply elem_of_nil in He|]. destruct Hc as [Hx Hc].
  apply elem_of_cons in He as [->|He]; [cbn; lia|]. specialize (IH _ Hc He). cbn. lia.
Qed.

Lemma lchan_ok_push h h' rev k L e (o : Prop) : lchan_ok h rev k L o -> (forall x, live_ok h x -> live_ok h' x) ->
  live_ok h' e -> le_PendingRevision e = rev + 1 ->
  (o -> lchan_ok h' (rev + 1) k (L ++ [e]) o) /\ (~ o -> lchan_ok h' (rev + 1) k L o).
Proof.
  intros (H1 & H2 & H3 & H4) Hh He Hr. assert (H4' : Forall (live_ok h') L) by (eapply Forall_impl; [exact H4|auto]).
  split; intros Ho.
  - specialize (H3 Ho). split; [apply consecutive_app; split; [done|cbn; split; [lia|done]]|]. rewrite length_app. cbn.
    split; [lia|]. split; [lia|]. apply Forall_app. split; [done|by apply Forall_singleton].
  - split; [done|]. split; [lia|]. split; [done|done].
Qed.
Lemma lchan_ok_init h rev k L e (o : Prop) : lchan_ok h rev k (L ++ [e]) o -> lchan_ok h rev k L False.
Proof.
  intros (H1 & H2 & _ & H4). apply consecutive_app in H1 as [H1 _]. rewrite length_app in H2. apply Forall_app in H4 as [H4 _].
  cbn in H2. split; [done|]. split; [lia|]. done.
Qed.
Lemma lchan_ok_tail h rev k L e (o : Prop) : lchan_ok h rev k (e :: L) o -> lchan_ok h rev (k + 1) L o.
Proof.
  intros ([_ H1] & H2 & H3 & H4). apply Forall_cons in H4 as [_ H4]. cbn [length] in *.
  split; [done|]. split; [lia|]. split; [|done]. intros Ho. specialize (H3 Ho). lia.
Qed.
Lemma lchan_ok_same h h' rev k L (o o' : Prop) : lchan_ok h rev k L o -> (forall x, live_ok h x -> live_ok h' x) -> (o' -> o) ->
  lchan_ok h' rev k L o'.
Proof. intros (H1 & H2 & H3 & H4) Hh Ho. split; [done|]. split; [done|]. split; [auto|]. eapply Forall_impl; [exact H4|auto]. Qed.

Lemma live_chain_start h b F k L (o : Prop) : lchan_ok h (b_pendingRevision b) k L o -> live_chain h b F (b_pendingRevision b) L o.
Proof.
  intros HL. exists k. split; [done|]. destruct HL as (H1 & H2 & _ & _). split; [left; lia|].
  intros e He Hlt. pose proof (consecutive_range k L e H1 He). lia.
Qed.

Lemma live_chain_push h h' b b' F rev L e (o : Prop) : live_chain h b F rev L o -> (forall x, live_ok h x -> live_ok h' x) ->
  live_ok h' e -> le_PendingRevision e = b_pendingRevision b + 1 -> b_pendingRevision b' = b_pendingRevision b + 1 ->
  le_feedID e = b_feedID b -> b_feedID b' = b_feedID b ->
  (o -> live_chain h' b' F rev (L ++ [e]) o) /\ (~ o -> live_chain h' b' F rev L o).
Proof.
  intros (k & HL & Hk & Hskip) Hh He Hr Hb' Hfe Hfb. destruct (lchan_ok_push h h' _ k L e o HL Hh He Hr) as [Hopen Hclosed].
  destruct HL as (H1 & H2 & _ & _). split; intros Ho; exists k; rewrite Hb', Hfb; (split; [auto|]).
  - split; [destruct Hk as [Hk|[Hk HF]]; [by left|right]|].
    { split; [done|]. apply Forall_app. split; [done|]. apply Forall_singleton. congruence. }
    intros x [Hx|Hx]%elem_of_app Hlt HxF.
    + destruct (Hskip x Hx Hlt HxF) as [Hne Hafter]. split; [done|]. intros y [Hy|Hy]%elem_of_app Hxy; [by apply Hafter|].
      apply list_elem_of_singleton in Hy as ->. congruence.
    + apply list_elem_of_singleton in Hx as ->. split; [congruence|]. intros y [Hy|Hy]%elem_of_app Hxy.
      * pose proof (consecutive_range k L y H1 Hy). lia.
      * apply list_elem_of_singleton in Hy as ->. lia.
  - split; [done|]. done.
Qed.

Lemma live_chain_keep h h' b b' F rev L (o o' : Prop) : live_chain h b F rev L o -> (forall x, live_ok h x -> live_ok h' x) ->
  b_pendingRevision b' = b_pendingRevision b -> (F <> b_feedID b -> F <> b_feedID b') -> (o' -> o) ->
  live_chain h' b' F rev L o'.
Proof.
  intros (k & HL & Hk & Hskip) Hh Hr HF Ho. exists k. rewrite Hr. split; [by eapply lchan_ok_same|].
  split; [naive_solver|]. intros e He Hlt Hne. destruct (Hskip e He Hlt Hne). auto.
Qed.

Lemma live_chain_retire h b F rev L e (o : Prop) : live_chain h b F rev (L ++ [e]) o -> live_chain h b F rev L False.
Proof.
  intros (k & HL & Hk & Hskip). exists k. split; [by eapply lchan_ok_init|]. split.
  - destruct Hk as [Hk|[Hk HF]]; [by left|right]. apply Forall_app in HF as [HF _]. done.
  - intros x Hx Hlt Hne. destruct (Hskip x) as [Hf Ha]; [apply elem_of_app; by left|done|done|]. split; [done|].
    intros y Hy. apply Ha, elem_of_app. by left.
Qed.

(** Receiving: the page moves to the next revision, or has it already. *)
Lemma live_chain_receive es h ep b p e L (o : Prop) : page_ok es h ep b p ->
  live_chain h b (p_feed p) (p_rev p) (e :: L) o ->
  if decide (le_feedID e = p_feed p)
  then let p' := read_frame (FLive e) p in page_ok es h ep b p' /\ live_chain h b (p_feed p) (p_rev p') L o
  else live_chain h b (p_feed p) (p_rev p) L o.
Proof.
  intros Hp (k & HL & Hk & Hskip). pose proof HL as ([Hr Hc] & Hlen & _ & Hok). apply Forall_cons in Hok as [He _].
  apply lchan_ok_tail in HL as HL'. cbn [length] in Hlen.
  assert (Hsub : forall rev', p_rev p <= rev' -> forall x, x ∈ L -> rev' < le_PendingRevision x -> le_feedID x <> p_feed p ->
    p_feed p <> b_feedID b /\ forall y, y ∈ L -> le_PendingRevision x < le_PendingRevision y -> le_feedID y <> p_feed p).
  { intros rev' Hrev x Hx Hlt Hne. destruct (Hskip x) as [Hf Ha]; [by right|lia|done|]. split; [done|].
    intros y Hy. apply Ha. by right. }
  destruct (decide (le_feedID e = p_feed p)) as [HF|HF].
  - destruct Hk as [Hk|[_ HFL]]; [|by apply Forall_cons in HFL as [HFL _]].
    cbn [read_frame]. destruct (Z.ltb_spec (p_rev p) (le_PendingRevision e)) as [Hlt|Hge]; cbn zeta.
    + assert (Hpk : p_rev p = k) by lia. split.
      * destruct Hp. destruct He as [Hpos (m & Hm & Hm' & Hg)]. replace (le_PendingRevision e - 1) with (p_rev p) in Hm by lia.
        rewrite pg_pending0 in Hm. injection Hm as <-. split; cbn; [done..|lia|done|done].
      * cbn [p_rev]. exists (k + 1). split; [done|]. split; [left; lia|]. apply Hsub. lia.
    + split; [done|]. exists (k + 1). split; [done|]. split; [left; lia|]. apply Hsub. lia.
  - exists (k + 1). split; [done|]. split; [|apply Hsub; lia].
    destruct (Z.ltb_spec (p_rev p) (le_PendingRevision e)) as [Hlt|Hge]; [|left; lia].
    right. destruct (Hskip e ltac:(by left) Hlt HF) as [Hf Ha]. split; [done|]. apply Forall_forall. intros x Hx.
    apply Ha; [by right|]. pose proof (consecutive_range _ _ x Hc Hx). lia.
Qed.

(** ** Snapshots *)

Lemma pending_insert_perm r l : pending_insert r l ≡ₚ r :: l.
Proof. induction l as [|x l IH]; [done|]. cbn. case_match; [done|]. rewrite IH. apply Permutation_swap. Qed.
Lemma sort_pending_perm l : sortPendingRecords l ≡ₚ l.
Proof. induction l as [|r l IH]; [done|]. cbn. by rewrite pending_insert_perm, IH. Qed.

Lemma pending_map_sorted m : (forall id r, m !! id = Some r -> r_ID r = id) ->
  pending_map (sortPendingRecords (map_to_list m).*2) = m.
Proof.
  intros Hid. assert (Hkeys : map (fun r => (r_ID r, r)) (map_to_list m).*2 = map_to_list m).
  { rewrite <- (list_fmap_id (map_to_list m)) at 2. change (map ?f ?l) with (f <$> l). rewrite <- list_fmap_compose.
    apply list_fmap_ext. intros i [id r] Hi. cbn. f_equal. apply Hid, elem_of_map_to_list, list_elem_of_lookup. by exists i. }
  unfold pending_map. transitivity (list_to_map (M := gmap bytes Rec) (map_to_list m)); [|apply list_to_map_to_list].
  symmetry. apply list_to_map_proper; [apply NoDup_fst_map_to_list|]. rewrite <- Hkeys at 1.
  change (map ?f ?l) with (f <$> l). by rewrite sort_pending_perm.
Qed.

Lemma omap_id_some (l : list Rec) : omap id (Some <$> l) = l.
Proof. induction l as [|x l IH]; [done|]. cbn. by rewrite IH. Qed.

Lemma in_records (es : list (Z * Rec)) q r : (q, r) ∈ es -> r ∈ es.*2.
Proof. intros H. apply list_elem_of_fmap. by exists (q, r). Qed.

(** A full snapshot holds every record from its floor on. *)
Lemma full_window b es since : rep b es -> resumes since es = false -> forall q r, (q, r) ∈ es ->
  r ∈ (window (b_snapLimit b) es).*2 \/ q < window_floor since b.
Proof.
  intros Hr Hf q r Hin. pose proof (snapshot_start_spec since b es Hr) as H. unfold window_floor.
  destruct (snapshot_start since b) as [[start lat] full]. destruct H as (H1 & _ & -> & H4). rewrite Hf in H4. cbn [negb] in H4.
  rewrite <- H4. apply list_elem_of_lookup in Hin as [i Hi].
  destruct (Nat.le_gt_cases start i) as [Hle|Hgt].
  { left. apply (in_records _ q). apply list_elem_of_lookup. exists (i - start)%nat. rewrite lookup_drop.
    by replace (start + (i - start))%nat with i by lia. }
  right. destruct (Nat.eqb_spec start 0); [lia|]. pose proof (rep_length b es Hr) as Hlen.
  destruct (lookup_lt_is_Some_2 es start) as [e He].
  { apply lookup_lt_Some in Hi as Hil. destruct (decide (start < length es)%nat); [done|].
    rewrite drop_ge in H4 by lia. unfold window in H4. destruct (Z.ltb_spec 0 (b_snapLimit b)).
    - apply (f_equal length) in H4. unfold newest in H4. rewrite length_drop in H4. cbn in H4. lia.
    - rewrite <- H4 in Hil. cbn in Hil. lia. }
  rewrite (seq_at_lookup b es start e Hr He).
  apply (sorted_lookup es i start (q, r) e (rp_sorted _ _ Hr) Hi He Hgt).
Qed.

Lemma cursor_pinned feed since last cur : cursorParam feed since last cur <= 0 \/
  cursorParam feed since last cur = cursorParam feed since last feed /\ (feed = [] \/ feed = cur).
Proof.
  unfold cursorParam. destruct (decide (feed = [])) as [->|Hne]; [by right; split; [|left]|].
  destruct (decide (feed = cur)) as [->|Hnc]; [by right; split; [|right]|].
  left. by rewrite !bool_decide_eq_false_2 by done.
Qed.

Lemma latest_next b es : rep b es -> latest es <= b_nextSeq b.
Proof.
  intros Hr. unfold latest. destruct (last es) as [e|] eqn:El; [|apply Hr]. apply last_Some_elem_of in El.
  pose proof (rp_range _ _ Hr) as Hra. rewrite Forall_fmap, Forall_forall in Hra. apply (Hra e El).
Qed.

Lemma snapshot_page es h ep b p since lastID : rep b es -> b_feedID b ∈ ep ->
  (forall id r, b_pending b !! id = Some r -> r_ID r = id) -> b_inFlight b = Z.of_nat (base.size (b_pending b)) ->
  at_rev h (b_pendingRevision b) = Some (b_pending b) -> b_feedID b <> [] ->
  page_ok es h ep b p -> cursorParam (p_feed p) since lastID (p_feed p) <= p_tip p ->
  let p' := read_frame (snapshot_frame (p_feed p) since lastID b) p in
  page_ok es h ep b p' /\ p_feed p' = b_feedID b /\ p_rev p' = b_pendingRevision b /\
  (forall q r, (q, r) ∈ es -> q <= p_tip p').
Proof.
  intros Hr Hep Hid Hg Hh Hne Hp Hc. cbn zeta. unfold snapshot_frame, SnapshotRequest, sorted_pending.
  remember (cursorParam (p_feed p) since lastID (b_feedID b)) as cur eqn:Ecur.
  destruct (snapshot_rep cur b es Hr) as (H1 & H2 & H3 & H4). cbn [read_frame sn_InFlightRecords sn_PendingRevision sn_Counters
    sn_Incremental sn_FeedID sn_Seq sn_Records].
  assert (Hpend : pending_map (sortPendingRecords (sn_InFlightRecords (snapshotSinceLocked cur b))) = b_pending b).
  { unfold snapshotSinceLocked. destruct (snapshot_start cur b) as [[? ?] ?]. by apply pending_map_sorted. }
  assert (Hrev : sn_PendingRevision (snapshotSinceLocked cur b) = b_pendingRevision b /\
    c_InFlight (sn_Counters (snapshotSinceLocked cur b)) = b_inFlight b).
  { unfold snapshotSinceLocked. by destruct (snapshot_start cur b) as [[? ?] ?]. }
  destruct Hrev as [Hrev Hcount]. rewrite Hpend, Hrev, Hcount, H3, H4.
  assert (Hlat : forall q r, (q, r) ∈ es -> q <= latest es).
  { intros q r [i Hi]%list_elem_of_lookup. apply (latest_ge es i (q, r) (rp_sorted _ _ Hr) Hi). }
  pose proof (latest_next b es Hr) as Hmax.
  rewrite H2 in H1 |- *. destruct (resumes cur es) eqn:Eres; cbn [andb].
  - assert (Hcur : cur <= p_tip p /\ p_feed p = b_feedID b).
    { unfold resumes in Eres. rewrite !andb_true_iff, Z.ltb_lt in Eres. destruct Eres as [[Hpos _] _].
      destruct (cursor_pinned (p_feed p) since lastID (b_feedID b)) as [Hz|[Heq Hpin]]; rewrite <- Ecur in *; [lia|].
      destruct Hpin as [Hnil|Hpin]; [|by split; [lia|]]. pose proof (pg_blank _ _ _ _ _ Hp Hnil). lia. }
    destruct Hcur as [Hcur Hfeed]. rewrite bool_decide_eq_true_2 by done. destruct Hp. split; [|split; [done|split; [done|]]].
    + split; cbn; [done|congruence|lia| |lia|done|done]. intros _ q r Hin Hq. rewrite H1, omap_id_some, elem_of_app.
      destruct (decide (q <= p_tip p)); [destruct (pg_known0 Hfeed q r Hin ltac:(done)); tauto|]. left. right.
      apply (in_records _ q). apply list_elem_of_filter. split; [cbn; lia|done].
    + cbn. intros q r Hin. specialize (Hlat q r Hin). lia.
  - split; [|split; [done|split; [done|exact Hlat]]]. split; cbn; [done|done|done| |lia|done|done].
    intros _ q r Hin _. rewrite H1, omap_id_some. by apply full_window.
Qed.

(** ** The invariant *)

Definition comR (f : feed) := coming (f_subs f) (pub_ring (f_publish f)).
Definition comL (f : feed) := coming (f_liveSubs f) (pub_live (f_publish f)).
Definition openR (f : feed) (ch : nat) : Prop := ch ∈ reg_subs (f_subs f).
Definition openL (f : feed) (ch : nat) : Prop := ch ∈ reg_subs (f_liveSubs f).

Record buf_ok (es : list (Z * Rec)) (h : history) (ep : gset feed_id) (b : Buffer) : Prop := {
  bo_rep : rep b es;
  bo_epoch : b_feedID b ∈ ep;
  bo_blank : [] ∈ ep;
  bo_named : b_feedID b <> [];
  bo_ids : forall id r, b_pending b !! id = Some r -> r_ID r = id;
  bo_gauge : b_inFlight b = Z.of_nat (base.size (b_pending b));
  bo_rev : 0 <= b_pendingRevision b;
  bo_hist : length h = S (Z.to_nat (b_pendingRevision b));
  bo_now : at_rev h (b_pendingRevision b) = Some (b_pending b);
}.

Record chans_ok (h : history) (f : feed) : Prop := {
  co_ring : reg_ok (f_subs f);
  co_live : reg_ok (f_liveSubs f);
  co_rchan : forall ch, rchan_ok (f_buf f) (comR f ch);
  co_lchan : forall ch, exists k, lchan_ok h (b_pendingRevision (f_buf f)) k (comL f ch) (openL f ch);
}.

Record streams_ok (f : feed) : Prop := {
  so_sub : forall s st, f_streams f !! s = Some st -> has_sub st -> is_Some (reg_chans (f_subs f) !! st_sub st);
  so_live : forall s st, f_streams f !! s = Some st -> has_live st -> is_Some (reg_chans (f_liveSubs f) !! st_live st);
  so_own : forall s s' st st', f_streams f !! s = Some st -> f_streams f !! s' = Some st' -> s <> s' ->
    (has_sub st -> has_sub st' -> st_sub st <> st_sub st') /\ (has_live st -> has_live st' -> st_live st <> st_live st');
}.

Definition dash_ok (es : list (Z * Rec)) (h : history) (f : feed) (d : dash) : Prop :=
  page_ok es h (f_epochs f) (f_buf f) (d_page d) /\
  match d_stream d with
  | None => True
  | Some s => exists st, f_streams f !! s = Some st /\ reading es h f (d_page d) (d_read d) st
  end.

Definition prom_ok (render : list (option Rec) -> option bytes) (es : list (Z * Rec)) (b : Buffer) (p : promCache) : Prop :=
  (pc_valid p = true -> pc_revision p <= b_finalRevision b /\
     (pc_revision p = b_finalRevision b -> render (Some <$> es.*2) = Some (pc_body p))) /\
  (forall rev body, pc_scrape p = Rendered rev body -> rev <= b_finalRevision b /\
     (rev = b_finalRevision b -> render (Some <$> es.*2) = Some body)).

Section inv.
Variable render : list (option Rec) -> option bytes.

Record Inv (es : list (Z * Rec)) (h : history) (f : feed) : Prop := {
  iv_buf : buf_ok es h (f_epochs f) (f_buf f);
  iv_chans : chans_ok h f;
  iv_streams : streams_ok f;
  iv_dashes : forall i d, f_dashes f !! i = Some d -> dash_ok es h f d;
  iv_prom : prom_ok render es (f_buf f) (f_prom f);
}.

(** What a step has to show for a stream it does not touch. *)
Definition moves es h f es' h' f' (st : stream) : Prop :=
  (forall F tip, F ∈ f_epochs f -> tip <= b_nextSeq (f_buf f) ->
     ring_chain es (f_buf f) F tip (comR f (st_sub st)) (openR f (st_sub st)) ->
     ring_chain es' (f_buf f') F tip (comR f' (st_sub st)) (openR f' (st_sub st))) /\
  (forall F rev, F ∈ f_epochs f ->
     live_chain h (f_buf f) F rev (comL f (st_live st)) (openL f (st_live st)) ->
     live_chain h' (f_buf f') F rev (comL f' (st_live st)) (openL f' (st_live st))).

Definition later_f es h f es' h' f' : Prop := later es h (f_epochs f) (f_buf f) es' h' (f_epochs f') (f_buf f').

Lemma reading_moves es h f es' h' f' p n st : later_f es h f es' h' f' -> (has_live st -> moves es h f es' h' f' st) ->
  reading es h f p n st -> reading es' h' f' p n st.
Proof.
  intros Hlt Hm []. split; [done|eapply Forall_impl; [exact rd_pages0|intros p' Hp'; by eapply page_ok_later]|done|].
  intros Hst. specialize (rd_running0 Hst). cbn zeta in *. destruct rd_running0 as ([H1 H0] & H2 & H3).
  destruct Hm as [Hmr Hml]; [by split; rewrite Hst|].
  rewrite Forall_forall in rd_pages0. specialize (rd_pages0 _ (replay_pages (drop n (st_out st)) p)). destruct rd_pages0.
  rewrite H1 in *. split; [by split|]. split; [by apply Hmr|by apply Hml].
Qed.

Lemma dashes_move es h f es' h' f' : (forall i d, f_dashes f !! i = Some d -> dash_ok es h f d) ->
  later_f es h f es' h' f' -> f_streams f' = f_streams f -> f_dashes f' = f_dashes f ->
  (forall st, has_live st -> moves es h f es' h' f' st) ->
  forall i d, f_dashes f' !! i = Some d -> dash_ok es' h' f' d.
Proof.
  intros Hd Hlt Hs -> Hm i d Hi. destruct (Hd i d Hi) as [Hp Hr]. split; [by eapply page_ok_later|].
  destruct (d_stream d) as [s|]; [|done]. destruct Hr as (st & Hst & Hr). exists st. rewrite Hs. split; [done|].
  eapply reading_moves; [exact Hlt|apply Hm|done].
Qed.

Lemma later_refl es h ep ep' b : ep ⊆ ep' -> later es h ep b es h ep' b.
Proof. intros. split; [lia|lia|done|done|right; auto]. Qed.

Lemma ring_chain_weaken es b F tip L (o o' : Prop) : (o' -> o) -> ring_chain es b F tip L o -> ring_chain es b F tip L o'.
Proof. intros Ho Hc HF. destruct (Hc HF) as (B & H1 & H2 & H3). exists B. auto. Qed.
Lemma live_chain_weaken h b F rev L (o o' : Prop) : (o' -> o) -> live_chain h b F rev L o -> live_chain h b F rev L o'.
Proof. intros Ho Hc. by eapply live_chain_keep. Qed.
End inv.

(** ** The locked sections *)

Lemma at_rev_snoc h m rev : at_rev (h ++ [m]) rev = if rev =? Z.of_nat (length h) then Some m else at_rev h rev.
Proof.
  unfold at_rev. destruct (Z.leb_spec 0 rev), (Z.eqb_spec rev (Z.of_nat (length h))); try lia; [| |done].
  - subst. rewrite Nat2Z.id. by apply list_lookup_middle.
  - destruct (decide (rev < Z.of_nat (length h))); [by rewrite lookup_app_l by lia|].
    rewrite lookup_ge_None_2 by (rewrite length_app; cbn; lia). by rewrite lookup_ge_None_2 by lia.
Qed.

(** What a change of the registry leaves for the lifecycle's subscribers. *)
Definition live_change (h : history) (b : Buffer) (h' : history) (b' : Buffer) (n : nat) (L : list LiveEvent) : Prop :=
  b_pendingRevision b' = b_pendingRevision b /\ h' = h /\ L = [] \/
  b_pendingRevision b' = b_pendingRevision b + 1 /\
    (n = 0%nat /\ L = [] \/
     exists e, L = [e] /\ live_ok h' e /\ le_PendingRevision e = b_pendingRevision b + 1 /\ le_feedID e = b_feedID b).

Lemma set_pending_ok es h ep b p : buf_ok es h ep b -> (forall id r, p !! id = Some r -> r_ID r = id) ->
  buf_ok es (h ++ [p]) ep (set_pending p b) /\
  (forall rev m, at_rev h rev = Some m -> at_rev (h ++ [p]) rev = Some m).
Proof.
  intros [] Hp.
  assert (Hold : forall rev m, at_rev h rev = Some m -> at_rev (h ++ [p]) rev = Some m).
  { intros rev m Hm. rewrite at_rev_snoc. destruct (Z.eqb_spec rev (Z.of_nat (length h))) as [->|]; [|done].
    exfalso. unfold at_rev in Hm. rewrite lookup_ge_None_2 in Hm by lia. by destruct (0 <=? _). }
  split; [|done]. split; cbn; try done.
  - destruct bo_rep0. by split.
  - lia.
  - rewrite length_app. cbn. lia.
  - rewrite at_rev_snoc. by destruct (Z.eqb_spec (b_pendingRevision b + 1) (Z.of_nat (length h))); [|lia].
Qed.

(** The event that announces a change of the registry. *)
Lemma change_live_ok es h ep b p ph r : buf_ok es h ep b ->
  p = live_apply (LEvent ph r 0 0 []) (b_pending b) ->
  live_ok (h ++ [p]) (LEvent ph r (Z.of_nat (base.size p)) (b_pendingRevision b + 1) (b_feedID b)).
Proof.
  intros [] ->. split; cbn; [lia|]. exists (b_pending b). rewrite !at_rev_snoc.
  destruct (Z.eqb_spec (b_pendingRevision b + 1 - 1) (Z.of_nat (length h))); [lia|].
  destruct (Z.eqb_spec (b_pendingRevision b + 1) (Z.of_nat (length h))); [|lia].
  replace (b_pendingRevision b + 1 - 1) with (b_pendingRevision b) by lia. unfold live_apply. cbn. by destruct ph.
Qed.

Lemma pushLocked_ok es h ep b r : buf_ok es h ep b ->
  buf_ok (newest (rg_maxSize (b_ring b)) (es ++ [(b_nextSeq b + 1, r)])) h ep (pushLocked r b).1.1.
Proof. intros []. split; try done. by apply ring_push. Qed.

Lemma newest_in {T} n (l : list T) x : x ∈ newest n l -> x ∈ l.
Proof. intros H. unfold newest in H. rewrite <- (take_drop (length l - n) l). apply elem_of_app. by right. Qed.

Lemma buf_ok_epochs es h ep ep' b : buf_ok es h ep b -> ep ⊆ ep' -> buf_ok es h ep' b.
Proof. intros [] Hs. split; try done; by apply Hs. Qed.

(** Record under the locks. *)
Lemma Record_section_spec es h ep b n r b' ev ended : buf_ok es h ep b -> Record_section n r b = (b', ev, ended) ->
  exists h', let es' := newest (rg_maxSize (b_ring b)) (es ++ [(b_nextSeq b + 1, retainRecord r)]) in
  ev = REvent (retainRecord r) (b_nextSeq b + 1) (b_feedID b) /\
  buf_ok es' h' ep b' /\ later es h ep b es' h' ep b' /\
  b_nextSeq b' = b_nextSeq b + 1 /\ b_feedID b' = b_feedID b /\ b_finalRevision b' = b_finalRevision b + 1 /\
  live_change h b h' b' n (match ended with Some e => [e] | None => [] end).
Proof.
  intros Hb. unfold Record_section. pose proof (pushLocked_ok es h ep b (retainRecord r) Hb) as Hp.
  cbn [pushLocked fst] in Hp |- *. set (b1 := Buf _ _ _ _ _ _ _ _ _ _ _) in *. change (b_pending b1) with (b_pending b) in *.
  set (es' := newest _ _) in *.
  assert (Hin : forall q x, (q, x) ∈ es' -> (q, x) ∈ es \/ b_nextSeq b < q).
  { intros q x Hx. apply newest_in, elem_of_app in Hx as [Hx|Hx]; [by left|]. apply list_elem_of_singleton in Hx as [= -> ->]. right; lia. }
  destruct (b_pending b !! r_ID (retainRecord r)) as [x|] eqn:Ex; intros [= <- <- <-].
  - set (p := delete _ _). exists (h ++ [p]).
    destruct (set_pending_ok es' h ep b1 p Hp) as [Hb' Hold].
    { intros id y Hy. apply lookup_delete_Some in Hy as [_ Hy]. by apply (bo_ids _ _ _ _ Hb). }
    split; [done|]. split; [done|]. split; [split; cbn; [lia|lia|done|done|by right]|]. do 3 (split; [done|]).
    right. split; [done|]. destruct (Nat.ltb_spec 0 n); [right|left; split; [lia|done]]. eexists. split; [done|].
    split; [|done]. apply (change_live_ok es h ep b p PEnd (retainRecord r) Hb). done.
  - exists h. split; [done|]. split; [done|]. split; [split; cbn; [lia|lia|done|done|by right]|]. do 3 (split; [done|]).
    by left.
Qed.

(** PublishLive under the locks. *)
Lemma PublishLive_section_spec es h ep b n ph r b' ended : buf_ok es h ep b ->
  PublishLive_section n ph r b = Some (b', ended) ->
  exists h', buf_ok es h' ep b' /\ later es h ep b es h' ep b' /\
  b_nextSeq b' = b_nextSeq b /\ b_feedID b' = b_feedID b /\ b_finalRevision b' = b_finalRevision b /\
  live_change h b h' b' n (match ended with Some e => [e] | None => [] end).
Proof.
  intros Hb. unfold PublishLive_section. destruct (bool_decide _) eqn:Eph; [done|]. destruct (_ || _) eqn:Eg; [done|].
  intros [= <- <-]. apply bool_decide_eq_false in Eph. set (snap := retainRecordSnapshot r). set (p := <[_ := snap]> _).
  exists (h ++ [p]). destruct (set_pending_ok es h ep b p Hb) as [Hb' Hold].
  { intros id y Hy. unfold p in Hy. apply lookup_insert_Some in Hy as [[<- <-]|[_ Hy]]; [done|by apply (bo_ids _ _ _ _ Hb)]. }
  split; [done|]. split; [split; cbn; [lia|lia|done|done|right; auto]|]. do 3 (split; [done|]).
  right. split; [done|]. destruct (Nat.ltb_spec 0 n); [right|left; split; [lia|done]]. eexists. split; [done|].
  split; [|done]. apply (change_live_ok es h ep b p ph snap Hb). unfold live_apply. cbn. destruct ph; try done; exfalso; apply Eph; done.
Qed.

Lemma lchan_ok_closed h h' rev rev' k L (o : Prop) : ~ o -> lchan_ok h rev k L o -> (forall x, live_ok h x -> live_ok h' x) ->
  rev <= rev' -> lchan_ok h' rev' k L o.
Proof. intros Ho (H1 & H2 & _ & H4) Hh Hr. split; [done|]. split; [lia|]. split; [done|]. eapply Forall_impl; [exact H4|auto]. Qed.
Lemma live_chain_closed h h' b b' F rev L (o : Prop) : ~ o -> live_chain h b F rev L o -> (forall x, live_ok h x -> live_ok h' x) ->
  b_pendingRevision b <= b_pendingRevision b' -> b_feedID b' = b_feedID b -> live_chain h' b' F rev L o.
Proof.
  intros Ho (k & HL & Hk & Hskip) Hh Hr Hf. exists k. rewrite Hf. split; [by eapply lchan_ok_closed|]. done.
Qed.

(** A change of the registry, for every channel of the lifecycle. *)
Lemma live_moved h h' f f' L : chans_ok h f -> f_publish f = Idle -> f_liveSubs f' = f_liveSubs f ->
  pub_live (f_publish f') = L -> live_change h (f_buf f) h' (f_buf f') (live_count f) L ->
  b_feedID (f_buf f') = b_feedID (f_buf f) -> (forall x, live_ok h x -> live_ok h' x) ->
  forall ch, (forall F rev, live_chain h (f_buf f) F rev (comL f ch) (openL f ch) ->
      live_chain h' (f_buf f') F rev (comL f' ch) (openL f' ch)) /\
    exists k, lchan_ok h' (b_pendingRevision (f_buf f')) k (comL f' ch) (openL f' ch).
Proof.
  intros [_ Hreg _ Hl] Hidle Hsubs Hpub Hch Hfeed Hh ch. unfold comL, openL in *. rewrite Hsubs, Hpub, Hidle in *. cbn [pub_live] in *.
  destruct (Hl ch) as [k Hk]. destruct Hch as [(Hr & -> & ->)|(Hr & Hcase)].
  { rewrite Hr. split; [|by exists k]. intros F rev HF. eapply live_chain_keep; [exact HF|done|done|congruence|done]. }
  destruct (decide (ch ∈ reg_subs (f_liveSubs f))) as [Ho|Ho].
  - rewrite (coming_open _ L) by done. destruct Hcase as [[Hn ->]|(e & -> & He & Hre & Hfe)].
    { exfalso. unfold live_count in Hn. apply size_empty_iff in Hn. set_solver. }
    split.
    + intros F rev HF. by apply (live_chain_push h h' (f_buf f) (f_buf f') F rev _ e _ HF Hh He Hre Hr Hfe Hfeed).
    + exists k. rewrite Hr. by apply (lchan_ok_push h h' _ k _ e _ Hk Hh He Hre).
  - rewrite (coming_closed _ L) by done. split.
    + intros F rev HF. eapply live_chain_closed; [done|exact HF|done|lia|done].
    + exists k. eapply lchan_ok_closed; [done|exact Hk|done|lia].
Qed.

Lemma later_weaken es h ep b es' h' ep' ep'' b' : later es h ep b es' h' ep' b' -> ep' ⊆ ep'' -> later es h ep b es' h' ep'' b'.
Proof. intros [] Hs. split; try done. set_solver. Qed.

Lemma rep_max b es q r : rep b es -> (q, r) ∈ es -> q <= b_nextSeq b.
Proof.
  intros Hr Hin. pose proof (rp_range _ _ Hr) as H. rewrite Forall_fmap, Forall_forall in H. apply (H _ Hin).
Qed.

Section steps.
Variable render : list (option Rec) -> option bytes.
Notation Inv := (Inv render).

Lemma inv_record es h f r b ev ended : Inv es h f -> f_publish f = Idle ->
  Record_section (live_count f) r (f_buf f) = (b, ev, ended) ->
  exists es' h', Inv es' h' (publishing (PubRing ev ended) (with_buf b f)) /\ later_f es h f es' h' (with_buf b f) /\
    b_pendingRevision b <= b_pendingRevision (f_buf f) + 1.
Proof.
  intros [Hb Hc Hs Hd Hp] Hidle Hsec.
  destruct (Record_section_spec es h (f_epochs f) (f_buf f) _ r b ev ended Hb Hsec) as (h' & -> & Hb' & Hlt & Hn & Hf & Hfin & Hlive).
  set (es' := newest _ _) in *. set (ev := REvent _ _ _). exists es', h'.
  set (f' := publishing (PubRing ev ended) (with_buf b f)).
  assert (Hep : f_epochs f ⊆ f_epochs f') by (cbn; set_solver).
  assert (Hlt' : later_f es h f es' h' f') by (by eapply later_weaken).
  assert (Hmono : forall x, live_ok h x -> live_ok h' x) by (intros x; eapply live_ok_later; exact Hlt).
  assert (Hlm := live_moved h h' f f' _ Hc Hidle eq_refl eq_refl).
  specialize (Hlm ltac:(destruct ended; exact Hlive) Hf Hmono).
  assert (Hring : forall ch, rchan_ok b (comR f' ch)).
  { intros ch. pose proof (co_rchan _ _ Hc ch) as Hok. destruct (rchan_ok_append _ b _ ev Hok Hn eq_refl) as [H1 H2].
    unfold comR in *. rewrite Hidle in *. cbn [pub_ring f' f_publish publishing f_subs with_buf] in *.
    destruct (decide (ch ∈ reg_subs (f_subs f))); [by rewrite coming_open|by rewrite coming_closed]. }
  assert (Hone : b_pendingRevision b <= b_pendingRevision (f_buf f) + 1) by (destruct Hlive as [(-> & _)|(-> & _)]; lia).
  split; [split|done].
  - by eapply buf_ok_epochs.
  - destruct Hc. split; [done|done|exact Hring|]. intros ch. apply Hlm.
  - by destruct Hs; split.
  - eapply dashes_move; [exact Hd|exact Hlt'|done|done|]. intros st _. split; [|intros F rev _; apply Hlm].
    intros F tip HF Htip Hchain.
    assert (Hmax : forall q x, (q, x) ∈ es -> q <= b_nextSeq (f_buf f)) by (intros q x; apply rep_max, Hb).
    assert (Hnew : forall q x, (q, x) ∈ es' -> (q, x) ∈ es \/ (q, x) = (b_nextSeq (f_buf f) + 1, retainRecord r)).
    { intros q x [Hx|Hx]%newest_in%elem_of_app; [by left|right]. by apply list_elem_of_singleton in Hx. }
    destruct (ring_chain_append Hlt F tip _ _ (retainRecord r) HF Htip Hn Hmax Hnew Hchain) as [Ho Hcl].
    unfold comR, openR in *. rewrite Hidle in *. cbn [pub_ring f' f_publish publishing f_subs with_buf f_buf] in *.
    destruct (decide (st_sub st ∈ reg_subs (f_subs f))); [rewrite coming_open|rewrite coming_closed]; auto.
  - cbn. destruct Hp as [Hp1 Hp2]. split; [intros Hv; destruct (Hp1 Hv)|intros rev body Hr; destruct (Hp2 rev body Hr)]; split; lia.
Qed.

Lemma pub_live_published ended : pub_live (published ended) = match ended with Some e => [e] | None => [] end.
Proof. by destruct ended. Qed.
Lemma pub_ring_published ended : pub_ring (published ended) = [].
Proof. by destruct ended. Qed.

Lemma rchan_ok_same b b' L : b_nextSeq b' = b_nextSeq b -> rchan_ok b L -> rchan_ok b' L.
Proof. unfold rchan_ok. by intros ->. Qed.

Lemma inv_publish es h f ph r b ended : Inv es h f -> f_publish f = Idle ->
  PublishLive_section (live_count f) ph r (f_buf f) = Some (b, ended) ->
  exists h', Inv es h' (publishing (published ended) (with_buf b f)) /\ later_f es h f es h' (with_buf b f) /\
    b_pendingRevision b <= b_pendingRevision (f_buf f) + 1.
Proof.
  intros [Hb Hc Hs Hd Hp] Hidle Hsec.
  destruct (PublishLive_section_spec es h (f_epochs f) (f_buf f) _ ph r b ended Hb Hsec) as (h' & Hb' & Hlt & Hn & Hf & Hfin & Hlive).
  exists h'. set (f' := publishing (published ended) (with_buf b f)).
  assert (Hep : f_epochs f ⊆ f_epochs f') by (cbn; set_solver).
  assert (Hlt' : later_f es h f es h' f') by (by eapply later_weaken).
  assert (Hmono : forall x, live_ok h x -> live_ok h' x) by (intros x; eapply live_ok_later; exact Hlt).
  assert (Hlm := live_moved h h' f f' _ Hc Hidle eq_refl (pub_live_published ended) Hlive Hf Hmono).
  assert (HR : comR f' = comR f) by (unfold comR; cbn; by rewrite Hidle, pub_ring_published).
  assert (Hone : b_pendingRevision b <= b_pendingRevision (f_buf f) + 1) by (destruct Hlive as [(-> & _)|(-> & _)]; lia).
  split; [split|done].
  - by eapply buf_ok_epochs.
  - destruct Hc. split; [done|done| |intros ch; apply Hlm].
    intros ch. rewrite HR. by apply (rchan_ok_same (f_buf f)).
  - by destruct Hs; split.
  - eapply dashes_move; [exact Hd|exact Hlt'|done|done|]. intros st _. split; [|intros F rev _; apply Hlm].
    intros F tip HF Htip Hchain. rewrite HR. by eapply (ring_chain_later Hlt).
  - cbn. unfold prom_ok. by rewrite Hfin.
Qed.

Lemma inv_fan_ring es h f ev ended : Inv es h f -> f_publish f = PubRing ev ended ->
  Inv es h (publishing (published ended) (with_subs (fanout (f_subs f) ev) f)).
Proof.
  intros [Hb Hc Hs Hd Hp] Hpub. set (f' := publishing _ _). destruct Hc as [Hr1 Hl1 Hr2 Hl2].
  destruct (fanout_spec ev (f_subs f) Hr1) as [Hok Hfan].
  assert (HL : comL f' = comL f) by (unfold comL; cbn; by rewrite Hpub, pub_live_published).
  assert (HR : forall ch, comR f ch = coming (f_subs f) [ev] ch /\ comR f' ch = coming (fanout (f_subs f) ev) [] ch).
  { intros ch. unfold comR. cbn. by rewrite Hpub, pub_ring_published. }
  assert (Hlt : later_f es h f es h f') by (by apply later_refl).
  split; [done| | | |done].
  - split; [done|done| |by rewrite HL]. intros ch. specialize (Hr2 ch). destruct (HR ch) as [H1 H2]. rewrite H1 in Hr2. rewrite H2.
    destruct (Hfan ch) as [_ [[He _]|[He _]]]; [by rewrite He|]. rewrite <- He in Hr2. by eapply rchan_ok_init.
  - destruct Hs. split; [intros s st Hst Hsub; apply Hfan; eauto|done|done].
  - eapply dashes_move; [exact Hd|exact Hlt|done|done|]. intros st _. unfold moves. rewrite HL. split; [|done].
    intros F tip HF Htip Hchain. specialize (Hr2 (st_sub st)). destruct (HR (st_sub st)) as [H1 H2]. rewrite H1 in Hr2, Hchain. rewrite H2.
    destruct (Hfan (st_sub st)) as [_ [[He Ho]|(He & Ho1 & Ho2)]].
    + rewrite He. eapply ring_chain_weaken; [|exact Hchain]. unfold openR. cbn. naive_solver.
    + rewrite <- He in Hchain, Hr2. apply ring_chain_retire in Hchain; [|done]. by eapply ring_chain_weaken.
Qed.

Lemma inv_fan_live es h f ev : Inv es h f -> f_publish f = PubLive ev ->
  Inv es h (publishing Idle (with_liveSubs (fanout (f_liveSubs f) ev) f)).
Proof.
  intros [Hb Hc Hs Hd Hp] Hpub. set (f' := publishing _ _). destruct Hc as [Hr1 Hl1 Hr2 Hl2].
  destruct (fanout_spec ev (f_liveSubs f) Hl1) as [Hok Hfan].
  assert (HR : comR f' = comR f) by (unfold comR; cbn; by rewrite Hpub).
  assert (HL : forall ch, comL f ch = coming (f_liveSubs f) [ev] ch /\ comL f' ch = coming (fanout (f_liveSubs f) ev) [] ch).
  { intros ch. unfold comL. cbn. by rewrite Hpub. }
  assert (Hlt : later_f es h f es h f') by (by apply later_refl).
  split; [done| | | |done].
  - split; [done|done|by rewrite HR|]. intros ch. destruct (Hl2 ch) as [k Hk]. exists k. destruct (HL ch) as [H1 H2].
    rewrite H1 in Hk. rewrite H2. destruct (Hfan ch) as [_ [[He Ho]|(He & Ho1 & Ho2)]].
    + rewrite He. eapply lchan_ok_same; [exact Hk|done|]. unfold openL. cbn. naive_solver.
    + rewrite <- He in Hk. apply lchan_ok_init in Hk. eapply lchan_ok_same; [exact Hk|done|done].
  - destruct Hs. split; [done|intros s st Hst Hsub; apply Hfan; eauto|done].
  - eapply dashes_move; [exact Hd|exact Hlt|done|done|]. intros st _. unfold moves. rewrite HR. split; [done|].
    intros F rev HF Hchain. destruct (HL (st_live st)) as [H1 H2]. rewrite H1 in Hchain. rewrite H2.
    destruct (Hfan (st_live st)) as [_ [[He Ho]|(He & Ho1 & Ho2)]].
    + rewrite He. eapply live_chain_weaken; [|exact Hchain]. unfold openL. cbn. naive_solver.
    + rewrite <- He in Hchain. apply live_chain_retire in Hchain. by eapply live_chain_weaken.
Qed.

(** A section under the ring's lock alone changes the ring only together with
    the epoch, and the finalized revision with the ring. *)
Record upkept (id : bytes) (es : list (Z * Rec)) (b : Buffer) (es' : list (Z * Rec)) (b' : Buffer) : Prop := {
  uk_rep : rep b' es';
  uk_next : b_nextSeq b' = b_nextSeq b;
  uk_pending : (b_pending b', b_pendingRevision b', b_inFlight b') = (b_pending b, b_pendingRevision b, b_inFlight b);
  uk_feed : b_feedID b' = newFeedID id \/ b_feedID b' = b_feedID b /\ es' = es;
  uk_final : b_finalRevision b' = b_finalRevision b + 1 \/ b_finalRevision b' = b_finalRevision b /\ es' = es;
}.

Lemma keep_all bd pred es : length (gone_entries bd pred es) = 0%nat -> keep_entries bd pred es = es.
Proof.
  induction es as [|e es IH]; [done|]. rewrite keep_cons, gone_cons. destruct (gone bd pred e); [done|]. cbn. intros H. by rewrite IH.
Qed.

Lemma remove_upkept id bd pred es b : rep b es -> exists es', upkept id es b es' (removeWhereLocked id bd pred b).1.
Proof.
  intros Hr. destruct (ring_remove id bd pred b es Hr) as [Hk Hn]. exists (keep_entries bd pred es).
  assert (Hsame : (removeWhereLocked id bd pred b).2 <= 0 -> keep_entries bd pred es = es) by (intros H; apply keep_all; lia).
  revert Hk Hsame. clear Hn. unfold removeWhereLocked. destruct (remove_loop _ _ _ _) as [[[ks kq] n] ne]. cbn [fst snd].
  intros Hk Hsame. split; [exact Hk|..]; clear Hk.
  - destruct bd, pred; cbn [fst snd]; by destruct (0 <? n).
  - destruct bd, pred; cbn [fst snd]; by destruct (0 <? n).
  - destruct (Z.ltb_spec 0 n); destruct bd, pred; cbn; try (by left); right; auto.
  - destruct (Z.ltb_spec 0 n); destruct bd, pred; cbn; try (by left); right; auto.
Qed.

Lemma upkeep_upkept id es b b' : rep b es -> upkeep id b b' -> exists es', upkept id es b es' b'.
Proof.
  intros Hr Hu. destruct Hu.
  - exists []. split; [|done|done|by left|by left]. destruct Hr as [[] _ _ _ _ Hn]. by eapply empty_rep; [|done|].
  - by apply remove_upkept.
  - by apply remove_upkept.
  - exists es. split; [by destruct Hr; split|done|done|by right|by right].
  - exists es. split; [by destruct Hr; split|done|done|by right|by right].
Qed.

Lemma inv_upkeep es h f id b : Inv es h f -> newFeedID id ∉ f_epochs f -> upkeep id (f_buf f) b ->
  exists es', Inv es' h (with_buf b f) /\ later_f es h f es' h (with_buf b f).
Proof.
  intros [Hb Hc Hs Hd Hp] Hfresh Hu. destruct (upkeep_upkept id es _ b (bo_rep _ _ _ _ Hb) Hu) as (es' & [Hrep Hn Hpend Hfeed Hfin]).
  exists es'. injection Hpend as H1 H2 H3. set (f' := with_buf b f).
  assert (Hlt : later_f es h f es' h f').
  { split; cbn; [lia|lia|set_solver|done|]. destruct Hfeed as [->|[-> ->]]; [by left|right; auto]. }
  assert (HF : forall F, F ∈ f_epochs f -> F <> b_feedID (f_buf f) -> F <> b_feedID b) by (intros F; apply (feed_later Hlt)).
  split; [split|done].
  - destruct Hb. split; cbn; rewrite ?H1, ?H2, ?H3; try done; [set_solver|set_solver|].
    intros Hnil. destruct Hfeed as [Hf|[Hf _]]; [|congruence]. apply Hfresh. by rewrite <- Hf, Hnil.
  - destruct Hc. split; [done|done| |].
    + intros ch. apply (rchan_ok_same (f_buf f)); [exact Hn|apply co_rchan0].
    + intros ch. cbn. rewrite H2. apply co_lchan0.
  - by destruct Hs; split.
  - eapply dashes_move; [exact Hd|exact Hlt|done|done|]. intros st _. split.
    + intros F tip HFe Htip Hchain. by eapply (ring_chain_later Hlt).
    + intros F rev HFe Hchain. eapply live_chain_keep; [exact Hchain|done|done|auto|done].
  - cbn. unfold prom_ok in *. destruct Hp as [Hp1 Hp2].
    split; [intros Hv; destruct (Hp1 Hv) as [Hle He]|intros rev body Hr; destruct (Hp2 rev body Hr) as [Hle He]];
      (destruct Hfin as [Hf|[Hf ->]]; rewrite Hf; [split; lia|done]).
Qed.

(** ** Streams *)

Lemma moves_same es h f f' st : f_buf f' = f_buf f ->
  comR f' (st_sub st) = comR f (st_sub st) -> (openR f' (st_sub st) -> openR f (st_sub st)) ->
  comL f' (st_live st) = comL f (st_live st) -> (openL f' (st_live st) -> openL f (st_live st)) -> moves es h f es h f' st.
Proof.
  intros Hb HR HRo HL HLo. unfold moves. rewrite Hb, HR, HL. split.
  - intros F tip _ _. by apply ring_chain_weaken.
  - intros F rev _. by apply live_chain_weaken.
Qed.

(** A step of one stream. *)
Lemma inv_stream es h f f' s st st' : Inv es h f -> f_streams f !! s = Some st ->
  f_buf f' = f_buf f -> f_epochs f' = f_epochs f -> f_dashes f' = f_dashes f -> f_prom f' = f_prom f ->
  f_streams f' = <[s := st']> (f_streams f) -> chans_ok h f' -> streams_ok f' ->
  (forall s0 st0, s0 <> s -> f_streams f !! s0 = Some st0 -> has_live st0 -> moves es h f es h f' st0) ->
  (forall p n, reading es h f p n st -> reading es h f' p n st') -> Inv es h f'.
Proof.
  intros [Hb Hc Hs Hd Hp] Hst Hbuf Hep Hda Hpr Hstr Hc' Hs' Hm Hr. split; [by rewrite Hbuf, Hep|done|done| |by rewrite Hbuf, Hpr].
  intros i d Hi. rewrite Hda in Hi. destruct (Hd i d Hi) as [Hpg Hread]. split; [by rewrite Hbuf, Hep|].
  destruct (d_stream d) as [s0|]; [|done]. destruct Hread as (st0 & Hst0 & Hread). rewrite Hstr.
  destruct (decide (s = s0)) as [<-|Hne].
  - exists st'. rewrite lookup_insert_eq. split; [done|]. apply Hr. by simplify_eq.
  - exists st0. rewrite lookup_insert_ne by done. split; [done|]. eapply reading_moves; [|intros Hl; by eapply Hm|exact Hread].
    unfold later_f. rewrite Hbuf, Hep. by apply later_refl.
Qed.

(** The channels of streams after one of them has moved on. *)
Lemma streams_ok_insert f f' s st st' : streams_ok f -> f_streams f !! s = Some st ->
  f_streams f' = <[s := st']> (f_streams f) ->
  (forall ch, is_Some (reg_chans (f_subs f) !! ch) -> is_Some (reg_chans (f_subs f') !! ch)) ->
  (forall ch, is_Some (reg_chans (f_liveSubs f) !! ch) -> is_Some (reg_chans (f_liveSubs f') !! ch)) ->
  (has_sub st' -> has_sub st /\ st_sub st' = st_sub st \/
     reg_chans (f_subs f) !! st_sub st' = None /\ is_Some (reg_chans (f_subs f') !! st_sub st')) ->
  (has_live st' -> has_live st /\ st_live st' = st_live st \/
     reg_chans (f_liveSubs f) !! st_live st' = None /\ is_Some (reg_chans (f_liveSubs f') !! st_live st')) ->
  streams_ok f'.
Proof.
  intros [Hsub Hlive Hown] Hst Hstr HmR HmL Hs Hl.
  assert (Hone : forall s0 st0, s0 <> s -> f_streams f !! s0 = Some st0 ->
    (has_sub st0 -> has_sub st' -> st_sub st0 <> st_sub st') /\ (has_live st0 -> has_live st' -> st_live st0 <> st_live st')).
  { intros s0 st0 Hne H0. destruct (Hown s0 s st0 st H0 Hst Hne) as [H1 H2]. split.
    - intros Hh Hh'. destruct (Hs Hh') as [[Hh2 ->]|[Hn _]]; [by apply H1|]. intros E. destruct (Hsub s0 st0 H0 Hh). congruence.
    - intros Hh Hh'. destruct (Hl Hh') as [[Hh2 ->]|[Hn _]]; [by apply H2|]. intros E. destruct (Hlive s0 st0 H0 Hh). congruence. }
  split; rewrite Hstr.
  - intros s0 st0 [[<- <-]|[Hne H0]]%lookup_insert_Some Hh; [|eauto].
    destruct (Hs Hh) as [[Hh2 ->]|[_ Hn]]; [|done]. eauto.
  - intros s0 st0 [[<- <-]|[Hne H0]]%lookup_insert_Some Hh; [|eauto].
    destruct (Hl Hh) as [[Hh2 ->]|[_ Hn]]; [|done]. eauto.
  - intros s1 s2 st1 st2 [[<- <-]|[Hne1 H1]]%lookup_insert_Some [[<- <-]|[Hne2 H2]]%lookup_insert_Some Hne; [done| | |eauto].
    + destruct (Hone s2 st2 ltac:(by apply not_eq_sym) H2) as [Ha Hb]. split; intros; apply not_eq_sym; auto.
    + by apply (Hone s1).
Qed.

(** A frame is emitted. *)
Lemma pages_emit es h ep b p n out fr : (n <= length out)%nat -> Forall (page_ok es h ep b) (pages p (drop n out)) ->
  page_ok es h ep b (read_frame fr (replay p (drop n out))) ->
  (n <= length (out ++ [fr]))%nat /\ Forall (page_ok es h ep b) (pages p (drop n (out ++ [fr]))) /\
  replay p (drop n (out ++ [fr])) = read_frame fr (replay p (drop n out)).
Proof.
  intros Hn Hp Hfr. rewrite length_app, drop_app_le, pages_snoc, replay_snoc by done. split; [cbn; lia|]. split; [|done].
  apply Forall_app. split; [done|by apply Forall_singleton].
Qed.

Lemma replay_ok es h ep b p frs : Forall (page_ok es h ep b) (pages p frs) -> page_ok es h ep b (replay p frs).
Proof. rewrite Forall_forall. intros H. apply H, replay_pages. Qed.

Lemma has_live_sub st : has_live st -> has_sub st.
Proof. by intros [? ?]. Qed.

Lemma inv_snapshot es h f s st : Inv es h f -> f_streams f !! s = Some st -> st_stage st = SLive ->
  Inv es h (with_stream s (st_snapshot (f_buf f) st) f).
Proof.
  intros HI Hst Hstg. eapply inv_stream; [exact HI|exact Hst|done..| | | |]; destruct HI as [Hb Hc Hs Hd Hp].
  - by destruct Hc; split.
  - eapply streams_ok_insert; [exact Hs|exact Hst|done|done|done|..]; intros _; left; (split; [|done]);
      unfold has_live, has_sub; by rewrite Hstg.
  - intros s0 st0 Hne H0 Hl. by apply moves_same.
  - intros p n []. destruct rd_request0 as (Hout & Hfeed & Hcur); [by right; right|].
    rewrite Hout in *. cbn in rd_count0. replace n with 0%nat in * by lia. cbn [drop pages] in rd_pages0.
    apply Forall_cons in rd_pages0 as [Hpg _]. destruct Hb.
    destruct (snapshot_page es h (f_epochs f) (f_buf f) p (st_since st) (st_lastEventID st)) as (H1 & H2 & H3 & H4); [done..|].
    split; cbn [st_out st_snapshot st_stage]; rewrite Hout, Hfeed; cbn [app drop pages length replay fold_left]; [lia| |by intros [|[]]|].
    + apply Forall_cons. split; [exact Hpg|by apply Forall_singleton].
    + intros _. cbn zeta. split; [by split|]. split.
      * apply ring_chain_start; [apply (co_rchan _ _ Hc)|exact H4].
      * destruct (co_lchan _ _ Hc (st_live st)) as [k Hk]. rewrite H3. by eapply live_chain_start.
Qed.

Lemma inv_subscribe es h f s st ch : Inv es h f -> f_streams f !! s = Some st -> st_stage st = SFeedChan ->
  f_publish f = Idle -> reg_chans (f_subs f) !! ch = None ->
  Inv es h (with_stream s (st_subscribed ch st) (with_subs (subscribeChan ch (f_subs f)) f)).
Proof.
  intros HI Hst Hstg Hidle Hnew. set (f' := with_stream _ _ _).
  destruct (subscribe_spec ch (f_subs f) (co_ring _ _ (iv_chans _ _ _ _ HI)) Hnew) as (Hok & Hcome & _ & Hoth & Hin).
  assert (HL : comL f' = comL f) by done.
  assert (HR : forall ch', ch <> ch' -> comR f' ch' = comR f ch').
  { intros ch' Hne. destruct (Hoth ch' Hne) as [H1 H2]. unfold comR, coming, f'. cbn [f_subs with_stream with_subs f_publish]. rewrite H1.
    rewrite Hidle. by destruct (decide _), (decide _). }
  eapply inv_stream; [exact HI|exact Hst|done..| | | |]; destruct HI as [Hb Hc Hs Hd Hp].
  - destruct Hc. split; [exact Hok|done| |done]. intros ch'. destruct (decide (ch = ch')) as [<-|Hne]; [|by rewrite HR].
    unfold comR, f'. cbn [f_subs with_stream with_subs f_publish]. rewrite Hidle. cbn [pub_ring]. rewrite Hcome. split; by constructor.
  - eapply streams_ok_insert; [exact Hs|exact Hst|done| |done|..].
    + intros ch' Hs'. apply Hin. by right.
    + intros _. right. split; [exact Hnew|apply Hin; by left].
    + intros [_ Hx]. done.
  - intros s0 st0 Hne H0 Hl. assert (Hne' : ch <> st_sub st0).
    { intros ->. destruct (so_sub _ Hs s0 st0 H0 (has_live_sub _ Hl)). congruence. }
    apply moves_same; [done|by apply HR| |done|done]. unfold openR, f'. cbn [f_subs with_stream with_subs]. by apply Hoth.
  - intros p n []. destruct rd_request0 as (Hout & Hrest); [by left|]. by split.
Qed.

Lemma inv_sublive es h f s st ch : Inv es h f -> f_streams f !! s = Some st -> st_stage st = SSubscribed ->
  f_publish f = Idle -> reg_chans (f_liveSubs f) !! ch = None ->
  Inv es h (with_stream s (st_sublive ch st) (with_liveSubs (subscribeChan ch (f_liveSubs f)) f)).
Proof.
  intros HI Hst Hstg Hidle Hnew. set (f' := with_stream _ _ _).
  destruct (subscribe_spec ch (f_liveSubs f) (co_live _ _ (iv_chans _ _ _ _ HI)) Hnew) as (Hok & Hcome & _ & Hoth & Hin).
  assert (HR : comR f' = comR f) by done.
  assert (HL : forall ch', ch <> ch' -> comL f' ch' = comL f ch').
  { intros ch' Hne. destruct (Hoth ch' Hne) as [H1 H2]. unfold comL, coming, f'. cbn [f_liveSubs with_stream with_liveSubs f_publish]. rewrite H1.
    rewrite Hidle. by destruct (decide _), (decide _). }
  eapply inv_stream; [exact HI|exact Hst|done..| | | |]; destruct HI as [Hb Hc Hs Hd Hp].
  - destruct Hc. split; [done|exact Hok|done|]. intros ch'. destruct (decide (ch = ch')) as [<-|Hne].
    + exists (b_pendingRevision (f_buf f)). unfold comL, f'. cbn [f_liveSubs with_stream with_liveSubs f_publish]. rewrite Hidle.
      cbn [pub_live]. rewrite Hcome. split; [done|]. cbn. split; [lia|]. split; [lia|by constructor].
    + rewrite HL by done. destruct (co_lchan0 ch') as [k Hk]. exists k. eapply lchan_ok_same; [exact Hk|done|].
      unfold openL, f'. cbn [f_liveSubs with_stream with_liveSubs]. by apply Hoth.
  - eapply streams_ok_insert; [exact Hs|exact Hst|done|done| |..].
    + intros ch' Hs'. apply Hin. by right.
    + intros _. left. split; [|done]. unfold has_sub. by rewrite Hstg.
    + intros _. right. split; [exact Hnew|apply Hin; by left].
  - intros s0 st0 Hne H0 Hl. assert (Hne' : ch <> st_live st0).
    { intros ->. destruct (so_live _ Hs s0 st0 H0 Hl). congruence. }
    apply moves_same; [done|done|done|by apply HL|]. unfold openL, f'. cbn [f_liveSubs with_stream with_liveSubs]. by apply Hoth.
  - intros p n []. destruct rd_request0 as (Hout & Hrest); [by right; left|]. by split.
Qed.

Lemma coming_cons {T} ch (g g' : registry T) ev pub : reg_ok g -> receive ch g = Some (ev, g') ->
  coming g pub ch = ev :: coming g' pub ch /\
  (forall ch', ch <> ch' -> coming g' pub ch' = coming g pub ch') /\ reg_subs g' = reg_subs g /\ reg_ok g'.
Proof.
  intros Hg Hrec. destruct (receive_spec ch g g' ev Hg Hrec) as (H1 & H2 & H3 & H4 & _).
  split; [apply H3|]. split; [|done]. intros ch' Hne. unfold coming. by rewrite H4, H2.
Qed.

Lemma keeps_stage st st' : st_stage st = SRunning -> st_stage st' = SRunning -> st_sub st' = st_sub st -> st_live st' = st_live st ->
  (has_sub st' -> has_sub st /\ st_sub st' = st_sub st) /\ (has_live st' -> has_live st /\ st_live st' = st_live st).
Proof. intros H1 H2 H3 H4. unfold has_sub, has_live. rewrite H1. by repeat split. Qed.

Lemma inv_ring_event es h f s st ev g : Inv es h f -> f_streams f !! s = Some st -> st_stage st = SRunning ->
  receive (st_sub st) (f_subs f) = Some (ev, g) ->
  Inv es h (with_stream s (st_ring_event ev st) (with_subs g f)).
Proof.
  intros HI Hst Hstg Hrec. set (f' := with_stream _ _ _).
  pose proof (receive_spec _ _ _ _ (co_ring _ _ (iv_chans _ _ _ _ HI)) Hrec) as (_ & _ & _ & _ & Hmono).
  destruct (coming_cons _ _ _ _ (pub_ring (f_publish f)) (co_ring _ _ (iv_chans _ _ _ _ HI)) Hrec) as (Hcons & Hoth & Hsubs & Hok).
  assert (Hst' : st_stage (st_ring_event ev st) = SRunning /\ st_sub (st_ring_event ev st) = st_sub st /\
    st_live (st_ring_event ev st) = st_live st /\ st_feedID (st_ring_event ev st) = st_feedID st).
  { unfold st_ring_event. by case_match. }
  destruct Hst' as (E1 & E2 & E3 & E4).
  assert (HRo : forall ch, st_sub st <> ch -> comR f' ch = comR f ch) by (intros ch; apply Hoth).
  eapply inv_stream; [exact HI|exact Hst|done..| | | |]; destruct HI as [Hb Hc Hs Hd Hp]; pose proof (co_rchan _ _ Hc (st_sub st)) as Hrc.
  - destruct Hc. split; [exact Hok|done| |done]. intros ch. destruct (decide (st_sub st = ch)) as [<-|Hne].
    + unfold comR in Hrc. rewrite Hcons in Hrc. by eapply rchan_ok_tail.
    + rewrite HRo by done. apply co_rchan0.
  - destruct (keeps_stage st _ Hstg E1 E2 E3) as [K1 K2].
    eapply streams_ok_insert; [exact Hs|exact Hst|done|exact Hmono|done|..]; intros Hh; left; auto.
  - intros s0 st0 Hne H0 Hl. assert (Hne' : st_sub st <> st_sub st0).
    { apply (so_own _ Hs s s0 st st0 Hst H0 ltac:(done)); [by unfold has_sub; rewrite Hstg|by apply has_live_sub]. }
    apply moves_same; [done|by apply HRo| |done|done]. unfold openR, f'. cbn. by rewrite Hsubs.
  - intros p n []. specialize (rd_running0 Hstg). cbn zeta in rd_running0. destruct rd_running0 as ([R1 Hne] & R2 & R3).
    pose proof (replay_ok _ _ _ _ _ _ rd_pages0) as Hlast. unfold comR in Hrc. rewrite Hcons in R2, Hrc.
    assert (Hne' : p_feed (replay p (drop n (st_out st))) <> []) by (by rewrite R1).
    rewrite <- R1 in R2. pose proof (ring_chain_receive es h _ _ _ _ _ _ Hrc Hne' Hlast R2) as Hrcv. rewrite R1 in Hrcv.
    unfold st_ring_event in *. destruct (decide (ev_feedID ev = st_feedID st)) as [He|He].
    + rewrite bool_decide_eq_true_2 in * by done. destruct Hrcv as [Hpg Hch].
      destruct (pages_emit es h _ _ p n (st_out st) (FRecord (ev_Seq ev) (ev_Record ev)) rd_count0 rd_pages0 Hpg) as (P1 & P2 & P3).
      split; [done|done|by rewrite E1; intros [|[]]|]. intros _. cbn zeta. cbn [st_out st_emit st_feedID]. rewrite P3.
      split; [by split|]. split; [|exact R3]. cbn. by rewrite Hsubs.
    + rewrite bool_decide_eq_false_2 in * by done. split; [done|done|by rewrite E1; intros [|[]]|]. intros _.
      split; [by split|]. split; [|exact R3]. cbn. by rewrite Hsubs.
Qed.

Lemma inv_live_event es h f s st ev g : Inv es h f -> f_streams f !! s = Some st -> st_stage st = SRunning ->
  receive (st_live st) (f_liveSubs f) = Some (ev, g) ->
  Inv es h (with_stream s (st_live_event ev st) (with_liveSubs g f)).
Proof.
  intros HI Hst Hstg Hrec. set (f' := with_stream _ _ _).
  pose proof (receive_spec _ _ _ _ (co_live _ _ (iv_chans _ _ _ _ HI)) Hrec) as (_ & _ & _ & _ & Hmono).
  destruct (coming_cons _ _ _ _ (pub_live (f_publish f)) (co_live _ _ (iv_chans _ _ _ _ HI)) Hrec) as (Hcons & Hoth & Hsubs & Hok).
  assert (Hst' : st_stage (st_live_event ev st) = SRunning /\ st_sub (st_live_event ev st) = st_sub st /\
    st_live (st_live_event ev st) = st_live st /\ st_feedID (st_live_event ev st) = st_feedID st).
  { unfold st_live_event. by case_match. }
  destruct Hst' as (E1 & E2 & E3 & E4).
  assert (HLo : forall ch, st_live st <> ch -> comL f' ch = comL f ch) by (intros ch; apply Hoth).
  assert (HopenL : forall ch, openL f' ch -> openL f ch) by (intros ch; unfold openL, f'; cbn; by rewrite Hsubs).
  eapply inv_stream; [exact HI|exact Hst|done..| | | |]; destruct HI as [Hb Hc Hs Hd Hp].
  - destruct Hc. split; [done|exact Hok|done|]. intros ch. destruct (co_lchan0 ch) as [k Hk]. destruct (decide (st_live st = ch)) as [<-|Hne].
    + unfold comL in Hk. rewrite Hcons in Hk. exists (k + 1). eapply lchan_ok_same; [by eapply lchan_ok_tail|done|apply HopenL].
    + rewrite HLo by done. exists k. eapply lchan_ok_same; [exact Hk|done|apply HopenL].
  - destruct (keeps_stage st _ Hstg E1 E2 E3) as [K1 K2].
    eapply streams_ok_insert; [exact Hs|exact Hst|done|done|exact Hmono|..]; intros Hh; left; auto.
  - intros s0 st0 Hne H0 Hl. assert (Hne' : st_live st <> st_live st0).
    { apply (so_own _ Hs s s0 st st0 Hst H0 ltac:(done)); [by unfold has_live; rewrite Hstg|done]. }
    apply moves_same; [done|done|done|by apply HLo|apply HopenL].
  - intros p n []. specialize (rd_running0 Hstg). cbn zeta in rd_running0. destruct rd_running0 as ([R1 Hne] & R2 & R3).
    pose proof (replay_ok _ _ _ _ _ _ rd_pages0) as Hlast. rewrite Hcons, <- R1 in R3.
    pose proof (live_chain_receive es h _ _ _ _ _ _ Hlast R3) as Hrcv. rewrite R1 in Hrcv.
    unfold st_live_event in *. destruct (decide (le_feedID ev = st_feedID st)) as [He|He].
    + rewrite bool_decide_eq_true_2 in * by done. destruct Hrcv as [Hpg Hch].
      destruct (pages_emit es h _ _ p n (st_out st) (FLive ev) rd_count0 rd_pages0 Hpg) as (P1 & P2 & P3).
      split; [done|done|by rewrite E1; intros [|[]]|]. intros _. cbn zeta. cbn [st_out st_emit st_feedID]. rewrite P3.
      assert (Hpage : p_feed (read_frame (FLive ev) (replay p (drop n (st_out st)))) = p_feed (replay p (drop n (st_out st))) /\
        p_tip (read_frame (FLive ev) (replay p (drop n (st_out st)))) = p_tip (replay p (drop n (st_out st)))).
      { cbn [read_frame]. by case_match. }
      destruct Hpage as [-> ->]. split; [by split|]. split; [exact R2|]. cbn [with_stream with_liveSubs f_liveSubs f_publish f_buf f'].
      by rewrite Hsubs.
    + rewrite bool_decide_eq_false_2 in * by done. split; [done|done|by rewrite E1; intros [|[]]|]. intros _.
      split; [done|]. split; [exact R2|]. cbn. by rewrite Hsubs.
Qed.

(** ** Unwinding *)

Definition unwinding (st : stream) : Prop := st_stage st ∉ [SFeedChan; SSubscribed; SLive; SRunning].

Lemma reading_unwinds es h f f' p n st st' : f_buf f' = f_buf f -> f_epochs f' = f_epochs f -> unwinding st' ->
  (st_out st' = st_out st \/ exists feed, st_out st' = st_out st ++ [FReset feed]) ->
  reading es h f p n st -> reading es h f' p n st'.
Proof.
  intros Hb He Hu Hout []. assert (Hno : st_stage st' <> SFeedChan /\ st_stage st' <> SSubscribed /\ st_stage st' <> SLive /\ st_stage st' <> SRunning).
  { unfold unwinding in Hu. repeat split; intros E; apply Hu; rewrite E; set_solver. }
  destruct Hno as (N1 & N2 & N3 & N4).
  assert (Hp : (n <= length (st_out st'))%nat /\ Forall (page_ok es h (f_epochs f') (f_buf f')) (pages p (drop n (st_out st')))).
  { rewrite Hb, He. destruct Hout as [->|[feed ->]]; [done|].
    destruct (pages_emit es h _ _ p n (st_out st) (FReset feed) rd_count0 rd_pages0) as (P1 & P2 & _); [|done].
    by apply replay_ok. }
  destruct Hp. split; [done|done|by intros [|[]]|done].
Qed.

Lemma inv_unwind es h f f' s st st' : Inv es h f -> f_streams f !! s = Some st -> has_live st ->
  f_buf f' = f_buf f -> f_epochs f' = f_epochs f -> f_dashes f' = f_dashes f -> f_prom f' = f_prom f ->
  f_streams f' = <[s := st']> (f_streams f) ->
  st_sub st' = st_sub st -> st_live st' = st_live st -> unwinding st' ->
  (st_out st' = st_out st \/ exists feed, st_out st' = st_out st ++ [FReset feed]) ->
  reg_ok (f_subs f') -> reg_ok (f_liveSubs f') ->
  (forall ch, comR f' ch = comR f ch /\ (openR f' ch -> openR f ch) /\ (is_Some (reg_chans (f_subs f) !! ch) -> is_Some (reg_chans (f_subs f') !! ch))) ->
  (forall ch, comL f' ch = comL f ch /\ (openL f' ch -> openL f ch) /\ (is_Some (reg_chans (f_liveSubs f) !! ch) -> is_Some (reg_chans (f_liveSubs f') !! ch))) ->
  Inv es h f'.
Proof.
  intros HI Hst Hl Hb He Hd Hp Hs E1 E2 Hu Hout HrR HrL HR HL.
  eapply inv_stream; [exact HI|exact Hst|done..| | | |]; destruct HI as [_ Hc Hso _ _].
  - destruct Hc. split; [done|done| |].
    + intros ch. rewrite Hb. by rewrite (proj1 (HR ch)).
    + intros ch. destruct (co_lchan0 ch) as [k Hk]. exists k. rewrite Hb, (proj1 (HL ch)).
      eapply lchan_ok_same; [exact Hk|done|apply HL].
  - eapply streams_ok_insert; [exact Hso|exact Hst|done|intros ch; apply HR|intros ch; apply HL|..]; intros _; left;
      (split; [by apply has_live_sub || done|done]).
  - intros s0 st0 _ _ _. apply moves_same; [done|by apply HR|apply HR|by apply HL|apply HL].
  - intros p n. by apply reading_unwinds.
Qed.

Lemma same_regs f f' : f_subs f' = f_subs f -> f_liveSubs f' = f_liveSubs f -> f_publish f' = f_publish f ->
  (forall ch, comR f' ch = comR f ch /\ (openR f' ch -> openR f ch) /\ (is_Some (reg_chans (f_subs f) !! ch) -> is_Some (reg_chans (f_subs f') !! ch))) /\
  (forall ch, comL f' ch = comL f ch /\ (openL f' ch -> openL f ch) /\ (is_Some (reg_chans (f_liveSubs f) !! ch) -> is_Some (reg_chans (f_liveSubs f') !! ch))).
Proof. intros H1 H2 H3. unfold comR, comL, openR, openL. by rewrite H1, H2, H3. Qed.

Lemma inv_to es h f s st stg : Inv es h f -> f_streams f !! s = Some st -> has_live st ->
  stg ∉ [SFeedChan; SSubscribed; SLive; SRunning] -> Inv es h (with_stream s (st_to stg st) f).
Proof.
  intros HI Hst Hl Hu. destruct (same_regs f (with_stream s (st_to stg st) f)) as [HR HL]; [done..|].
  pose proof (iv_chans _ _ _ _ HI) as []. eapply inv_unwind; [exact HI|exact Hst|done..|by left|done|done|exact HR|exact HL].
Qed.

Lemma inv_reset es h f s st : Inv es h f -> f_streams f !! s = Some st -> st_stage st = SEnding ->
  Inv es h (with_stream s (st_to SUnsubLive (st_reset (f_buf f) st)) f).
Proof.
  intros HI Hst Hstg. assert (Hl : has_live st) by (unfold has_live; by rewrite Hstg).
  set (st' := st_to _ _). destruct (same_regs f (with_stream s st' f)) as [HR HL]; [done..|].
  assert (Hst' : st_sub st' = st_sub st /\ st_live st' = st_live st /\
    (st_out st' = st_out st \/ exists feed, st_out st' = st_out st ++ [FReset feed])).
  { unfold st', st_reset. case_match; (split; [done|]); (split; [done|]); [by left|right; by eexists]. }
  destruct Hst' as (E1 & E2 & E3). pose proof (iv_chans _ _ _ _ HI) as [].
  eapply inv_unwind; [exact HI|exact Hst|done..| |exact E3|done|done|exact HR|exact HL].
  unfold unwinding. cbn. set_solver.
Qed.

Lemma inv_unsublive es h f s st : Inv es h f -> f_streams f !! s = Some st -> st_stage st = SUnsubLive -> f_publish f = Idle ->
  Inv es h (with_stream s (st_to SUnsub st) (with_liveSubs (unsubscribeChan (st_live st) (f_liveSubs f)) f)).
Proof.
  intros HI Hst Hstg Hidle. assert (Hl : has_live st) by (unfold has_live; by rewrite Hstg). set (f' := with_stream _ _ _).
  pose proof (iv_chans _ _ _ _ HI) as [].
  destruct (unsubscribe_spec (st_live st) (f_liveSubs f) co_live0) as (Hok & Hcome & _ & Hmono).
  eapply inv_unwind; [exact HI|exact Hst|done..| |by left|done|exact Hok|done|].
  - unfold unwinding. cbn. set_solver.
  - intros ch. destruct (Hcome ch) as [H1 H2]. split; [|split; [exact H2|apply Hmono]]. unfold comL, f'. cbn. by rewrite Hidle.
Qed.

Lemma inv_unsub es h f s st : Inv es h f -> f_streams f !! s = Some st -> st_stage st = SUnsub -> f_publish f = Idle ->
  Inv es h (with_stream s (st_to SEnded st) (with_subs (unsubscribeChan (st_sub st) (f_subs f)) f)).
Proof.
  intros HI Hst Hstg Hidle. assert (Hl : has_live st) by (unfold has_live; by rewrite Hstg). set (f' := with_stream _ _ _).
  pose proof (iv_chans _ _ _ _ HI) as [].
  destruct (unsubscribe_spec (st_sub st) (f_subs f) co_ring0) as (Hok & Hcome & _ & Hmono).
  eapply inv_unwind; [exact HI|exact Hst|done..| |by left|exact Hok|done| |done].
  - unfold unwinding. cbn. set_solver.
  - intros ch. destruct (Hcome ch) as [H1 H2]. split; [|split; [exact H2|apply Hmono]]. unfold comR, f'. cbn. by rewrite Hidle.
Qed.

(** ** Dashboards *)

Lemma inv_dash es h f i d : Inv es h f -> dash_ok es h f d -> Inv es h (with_dash i d f).
Proof.
  intros [Hb Hc Hs Hd Hp] Hok. split; [done|by destruct Hc; split|by destruct Hs; split| |done].
  assert (Hsame : forall x, dash_ok es h f x -> dash_ok es h (with_dash i d f) x).
  { intros x [H1 H2]. split; [done|]. destruct (d_stream x); [|done]. destruct H2 as (st & Hst & []). exists st. by split; [|split]. }
  cbn [f_dashes with_dash]. intros j x [[<- <-]|[_ Hj]]%lookup_insert_Some; [by apply Hsame|]. by apply Hsame, (Hd j).
Qed.

Lemma blank_page_ok es h ep b : buf_ok es h ep b -> at_rev h 0 = Some ∅ -> page_ok es h ep b new_page.
Proof.
  intros [] H0. by split; cbn; try apply bo_rep0.
Qed.

Lemma inv_open es h f i p s since lastID : Inv es h f -> f_dashes f !! i = Some (Dash p None 0) -> f_streams f !! s = None ->
  cursorParam (p_feed p) since lastID (p_feed p) <= p_tip p ->
  Inv es h (with_stream s (Stream SFeedChan (p_feed p) since lastID (b_feedDone (f_buf f)) 0 0 [] []) (with_dash i (Dash p (Some s) 0) f)).
Proof.
  intros [Hb Hc Hs Hd Hp] Hi Hs0 Hcur. set (st := Stream _ _ _ _ _ _ _ _ _).
  split; [done|by destruct Hc; split| | |done].
  - destruct Hs. split; cbn.
    + intros s1 st1 [[<- <-]|[_ H1]]%lookup_insert_Some Hh; [done|eauto].
    + intros s1 st1 [[<- <-]|[_ H1]]%lookup_insert_Some Hh; [by destruct Hh|eauto].
    + intros s1 s2 st1 st2 [[<- <-]|[Hn1 H1]]%lookup_insert_Some [[<- <-]|[Hn2 H2]]%lookup_insert_Some Hne; [done| | |eauto].
      * split; [by intros []|by intros [[] _]].
      * split; [by intros _ []|by intros _ [[] _]].
  - cbn [f_dashes with_stream with_dash]. intros j d [[<- <-]|[_ Hj]]%lookup_insert_Some.
    + destruct (Hd i _ Hi) as [Hpg _]. split; [exact Hpg|]. exists st. cbn. rewrite lookup_insert_eq. split; [done|].
      split; cbn; [lia|by apply Forall_singleton|done|done].
    + destruct (Hd j d Hj) as [H1 H2]. split; [done|]. destruct (d_stream d) as [s1|]; [|done]. destruct H2 as (st1 & Hst1 & []).
      exists st1. cbn. rewrite lookup_insert_ne by congruence. by split; [|split].
Qed.

Lemma inv_read es h f i p s n st fr : Inv es h f -> f_dashes f !! i = Some (Dash p (Some s) n) -> f_streams f !! s = Some st ->
  st_out st !! n = Some fr -> Inv es h (with_dash i (Dash (read_frame fr p) (Some s) (S n)) f).
Proof.
  intros HI Hi Hst Hfr. apply inv_dash; [done|]. destruct (iv_dashes _ _ _ _ HI i _ Hi) as [_ (st' & Hst' & [])]. cbn in *. simplify_eq.
  rewrite (drop_S _ _ _ Hfr) in rd_pages0, rd_running0. cbn [pages replay fold_left] in *.
  apply Forall_cons in rd_pages0 as [_ Hpages]. apply lookup_lt_Some in Hfr as Hlt.
  split; [by eapply Forall_forall; [exact Hpages|apply pages_head]|]. exists st. split; [done|].
  split; [cbn; lia|done| |done]. intros Hstg. destruct (rd_request0 Hstg) as [Hout _]. by rewrite Hout in Hfr.
Qed.

(** ** Scrapes *)

Lemma Snapshot_rep b es : rep b es -> Snapshot b = Some <$> es.*2.
Proof. intros Hr. apply (rep_copies b es Hr). Qed.

Lemma inv_prom es h f p : Inv es h f -> prom_ok render es (f_buf f) p -> Inv es h (with_prom p f).
Proof.
  intros [Hb Hc Hs Hd _] Hp. split; [done|by destruct Hc; split|by destruct Hs; split| |done].
  cbn [f_dashes with_prom]. intros j d Hj. destruct (Hd j d Hj) as [H1 H2]. split; [done|]. destruct (d_stream d); [|done].
  destruct H2 as (st & Hst & []). exists st. by split; [|split].
Qed.

(** ** Runs *)

(** The history a step leaves: what was there, and perhaps its new registry. *)
Definition extends (h h' : history) (b' : Buffer) : Prop :=
  (forall rev m, at_rev h rev = Some m -> at_rev h' rev = Some m) /\
  (forall rev m, at_rev h' rev = Some m -> at_rev h rev = Some m \/ rev = b_pendingRevision b' /\ m = b_pending b').

Lemma at_rev_some h rev : 0 <= rev < Z.of_nat (length h) -> is_Some (at_rev h rev).
Proof. intros H. unfold at_rev. destruct (Z.leb_spec 0 rev); [|lia]. apply lookup_lt_is_Some. lia. Qed.
Lemma at_rev_range h rev m : at_rev h rev = Some m -> 0 <= rev < Z.of_nat (length h).
Proof. unfold at_rev. destruct (Z.leb_spec 0 rev); [|done]. intros Hm. apply lookup_lt_Some in Hm. lia. Qed.

Lemma extends_by es es' h h' ep ep' b b' : buf_ok es h ep b -> buf_ok es' h' ep' b' ->
  (forall rev m, at_rev h rev = Some m -> at_rev h' rev = Some m) -> b_pendingRevision b' <= b_pendingRevision b + 1 ->
  extends h h' b'.
Proof.
  intros [] Hb' Hmono Hone. split; [done|]. destruct Hb'. intros rev m Hm. pose proof (at_rev_range _ _ _ Hm) as Hr.
  destruct (decide (rev <= b_pendingRevision b)) as [Hle|Hgt].
  - destruct (at_rev_some h rev) as [m' Hm']; [lia|]. specialize (Hmono _ _ Hm'). left. congruence.
  - right. assert (rev = b_pendingRevision b') as -> by lia. split; [done|congruence].
Qed.

Lemma step_inv es h f f' : Inv es h f -> at_rev h 0 = Some ∅ -> step render f f' ->
  exists es' h', Inv es' h' f' /\ extends h h' (f_buf f').
Proof.
  intros HI H0 Hstep. assert (Hrefl : forall b, extends h h b) by (intros b; split; auto).
  destruct Hstep as [f r b ev ended Hi Hsec|f ph r b ended Hi Hsec|f ev ended Hp|f ev Hp|f id b Hf Hu|f s st ch Hst Hg Hi Hn
    |f s st ch Hst Hg Hi Hn|f s st Hst Hg|f s st ev g Hst Hg Hr|f s st ev g Hst Hg Hr|f s st Hst Hg|f s st Hst Hg|f s st Hst Hg
    |f s st Hst Hg Hi|f s st Hst Hg Hi|f i Hn|f i p since lastID Hd Hc|f i p s since lastID Hd Hs Hc|f i p s n st fr Hd Hst Hfr
    |f i d Hd|f Hn Hh|f Hn|f].
  - destruct (inv_record es h f r b ev ended HI Hi Hsec) as (es' & h' & HI' & Hlt & Hone). exists es', h'. split; [done|].
    eapply extends_by; [exact (iv_buf _ _ _ _ HI)|exact (iv_buf _ _ _ _ HI')|apply Hlt|done].
  - destruct (inv_publish es h f ph r b ended HI Hi Hsec) as (h' & HI' & Hlt & Hone). exists es, h'. split; [done|].
    eapply extends_by; [exact (iv_buf _ _ _ _ HI)|exact (iv_buf _ _ _ _ HI')|apply Hlt|done].
  - exists es, h. split; [by apply inv_fan_ring|done].
  - exists es, h. split; [by apply inv_fan_live|done].
  - destruct (inv_upkeep es h f id b HI Hf Hu) as (es' & HI' & _). by exists es', h.
  - exists es, h. split; [by apply inv_subscribe|done].
  - exists es, h. split; [by apply inv_sublive|done].
  - exists es, h. split; [by apply inv_snapshot|done].
  - exists es, h. split; [by apply inv_ring_event|done].
  - exists es, h. split; [by apply inv_live_event|done].
  - exists es, h. split; [|done]. apply inv_to; [done|done|unfold has_live; by rewrite Hg|set_solver].
  - exists es, h. split; [|done]. apply inv_to; [done|done|unfold has_live; by rewrite Hg|set_solver].
  - exists es, h. split; [by apply inv_reset|done].
  - exists es, h. split; [by apply inv_unsublive|done].
  - exists es, h. split; [by apply inv_unsub|done].
  - exists es, h. split; [|done]. apply inv_dash; [done|]. split; [|done]. apply blank_page_ok; [apply HI|done].
  - exists es, h. split; [|done]. apply inv_dash; [done|]. split; [|done]. cbn.
    destruct (iv_dashes _ _ _ _ HI i _ Hd) as [Hpg _]. destruct (iv_buf _ _ _ _ HI).
    by apply (snapshot_page es h (f_epochs f) (f_buf f) p since lastID).
  - exists es, h. split; [by apply inv_open|done].
  - exists es, h. split; [by eapply inv_read|done].
  - exists es, h. split; [|done]. apply inv_dash; [done|]. split; [|done]. apply (iv_dashes _ _ _ _ HI i d Hd).
  - exists es, h. split; [|done]. apply inv_prom; [done|]. destruct (iv_prom _ _ _ _ HI) as [Hp1 _]. by split.
  - exists es, h. split; [|done]. apply inv_prom; [done|]. destruct (iv_prom _ _ _ _ HI) as [Hp1 _]. unfold prom_render.
    rewrite (surjective_pairing (prometheusSnapshot (f_buf f))). split; cbn; [done|]. intros rev body.
    rewrite (Snapshot_rep _ es) by apply HI. destruct (render (Some <$> es.*2)) as [body'|]; [|done]. by intros [= <- <-].
  - exists es, h. split; [|done]. apply inv_prom; [done|]. destruct (iv_prom _ _ _ _ HI) as [Hp1 Hp2]. unfold prom_publish.
    destruct (pc_scrape (f_prom f)) as [| |rev body] eqn:Hs; split; cbn; rewrite ?Hs; try done. intros _. by apply Hp2.
Qed.

Lemma Backfill_ok h ep rows : forall es b, buf_ok es h ep b -> exists es', buf_ok es' h ep (Backfill rows b) /\
  b_feedID (Backfill rows b) = b_feedID b.
Proof.
  induction rows as [|[r|] rows IH]; intros es b Hb; cbn [Backfill]; [by exists es| |by eapply IH].
  pose proof (pushLocked_ok es h ep b (retainRecord r) Hb) as Hp. destruct (pushLocked (retainRecord r) b) as [[b' q] fd] eqn:E.
  cbn in Hp. destruct (IH _ _ Hp) as (es' & H1 & H2). exists es'. split; [done|]. rewrite H2.
  unfold pushLocked in E. by injection E as <- _ _.
Qed.

Lemma inv_start n id rows : newFeedID id <> [] -> exists es, Inv es [∅] (start n id rows).
Proof.
  intros Hid. destruct (Backfill_ok [∅] {[newFeedID id; []]} rows [] (NewBuffer n id)) as (es & Hb & Hf).
  { split; try done; [apply NewBuffer_rep|cbn; set_solver|set_solver]. }
  exists es. split; unfold start; cbn; [by rewrite Hf| | | |].
  - split; cbn; try (by intros ch; cbn; split; [set_solver|intros [q Hq]]).
    + intros ch. unfold comR, coming. cbn. rewrite lookup_empty. rewrite decide_False by set_solver. split; by constructor.
    + intros ch. exists 0. unfold comL, coming. cbn. rewrite lookup_empty, decide_False by set_solver. destruct Hb.
      split; [done|]. split; [cbn; lia|]. split; [unfold openL; cbn; set_solver|by constructor].
  - split; cbn; intros *; by rewrite ?lookup_empty.
  - intros i d Hd. by rewrite lookup_empty in Hd.
  - split; cbn; done.
Qed.

Lemma feed_run_inv tr f : run render tr f -> exists es h, Inv es h f /\ at_rev h 0 = Some ∅ /\
  forall rev m, at_rev h rev = Some m -> exists f0, f0 ∈ tr /\ b_pendingRevision (f_buf f0) = rev /\ b_pending (f_buf f0) = m.
Proof.
  induction 1 as [n id rows Hid|tr f f' _ (es & h & HI & H0 & Htr) Hstep].
  - destruct (inv_start n id rows Hid) as [es HI]. exists es, [∅]. split; [done|]. split; [done|]. intros rev m Hm.
    exists (start n id rows). split; [by left|]. pose proof (at_rev_range _ _ _ Hm) as Hr. cbn in Hr.
    assert (rev = 0) as -> by lia. destruct (iv_buf _ _ _ _ HI). cbn in bo_hist0.
    assert (b_pendingRevision (f_buf (start n id rows)) = 0) as Hz.
    { change (f_buf (start n id rows)) with (Backfill rows (NewBuffer n id)) in *. lia. }
    split; [done|]. rewrite Hz in bo_now0. congruence.
  - destruct (step_inv es h f f' HI H0 Hstep) as (es' & h' & HI' & Hm & Hnew). exists es', h'. split; [done|]. split; [by apply Hm|].
    intros rev m Hrev. destruct (Hnew rev m Hrev) as [Hold|[-> ->]].
    + destruct (Htr rev m Hold) as (f0 & Hin & Hf0). exists f0. split; [apply elem_of_app; by left|done].
    + exists f'. split; [apply elem_of_app; right; by left|done].
Qed.

Lemma run_dash tr f i d : run render tr f -> f_dashes f !! i = Some d -> exists es h, buf_ok es h (f_epochs f) (f_buf f) /\
  chans_ok h f /\ dash_ok es h f d /\
  forall rev m, at_rev h rev = Some m -> exists f0, f0 ∈ tr /\ b_pendingRevision (f_buf f0) = rev /\ b_pending (f_buf f0) = m.
Proof. intros Hr Hi. destruct (feed_run_inv tr f Hr) as (es & h & [] & _ & H). exists es, h. naive_solver. Qed.

(** A page that has read all there is: its stream runs, its channels are open
    and empty, and no publication is under way. *)
Record caught_up (f : feed) (d : dash) : Prop := {
  cu_idle : f_publish f = Idle;
  cu_current : p_feed (d_page d) = b_feedID (f_buf f);
  cu_stream : exists s st, d_stream d = Some s /\ f_streams f !! s = Some st /\ st_stage st = SRunning /\
    d_read d = length (st_out st) /\
    reg_chans (f_subs f) !! st_sub st = Some (Chan [] false) /\ reg_chans (f_liveSubs f) !! st_live st = Some (Chan [] false);
}.

Lemma coming_empty {T} (g : registry T) ch : reg_ok g -> reg_chans g !! ch = Some (Chan [] false) ->
  coming g [] ch = [] /\ ch ∈ reg_subs g.
Proof. intros Hg Hc. destruct (coming_at g [] ch [] false Hg Hc) as [-> H]. naive_solver. Qed.

Lemma dash_caught_up es h f d : buf_ok es h (f_epochs f) (f_buf f) -> chans_ok h f -> dash_ok es h f d -> caught_up f d ->
  (forall q r, (q, r) ∈ es -> q <= p_tip (d_page d)) /\ p_rev (d_page d) = b_pendingRevision (f_buf f).
Proof.
  intros Hb [Hok1 Hok2 _ _] [Hp Hd] [Hidle Hcur (s & st & Hs & Hst & Hstage & Hn & Hc1 & Hc2)]. rewrite Hs in Hd.
  destruct Hd as (st' & Hst' & []). replace st' with st in * by congruence. specialize (rd_running0 Hstage).
  rewrite Hn, drop_all in rd_running0. cbn in rd_running0. destruct rd_running0 as ([HF _] & Hrc & k & Hk & Hkr & _).
  rewrite Hidle in *. cbn [pub_ring pub_live] in *.
  destruct (coming_empty _ _ Hok1 Hc1) as [E1 Ho1]. destruct (coming_empty _ _ Hok2 Hc2) as [E2 Ho2].
  rewrite E1 in Hrc. rewrite E2 in Hk. destruct Hk as (_ & _ & Hk & _). specialize (Hk Ho2). cbn in Hk.
  assert (HF' : st_feedID st = b_feedID (f_buf f)) by congruence. destruct (Hrc HF') as (B & _ & HB & Hin & _).
  specialize (HB Ho1). split.
  - intros q r Hq. pose proof (rep_max _ _ _ _ (bo_rep _ _ _ _ Hb) Hq) as Hmax.
    destruct (Z.le_gt_cases q (p_tip (d_page d))) as [|Hgt]; [done|].
    specialize (Hin q r Hq ltac:(lia)). by apply elem_of_nil in Hin.
  - pose proof (pg_rev _ _ _ _ _ Hp). destruct Hkr as [Hkr|[Hkr _]]; [lia|congruence].
Qed.
End steps.

Lemma rep_unique b es es' : rep b es -> rep b es' -> es = es'.
Proof.
  intros [_ H1 H2 _ _ _] [_ H1' H2' _ _ _]. rewrite <- (zip_fst_snd es), <- (zip_fst_snd es'). rewrite H2 in H2'.
  rewrite H1 in H1'. apply (inj (fmap Some)) in H1'. by rewrite H2', H1'.
Qed.

(** ** Properties *)

(** C2. A dashboard never silently misses a record. In every interleaving of
    requests, purges, restarts of the epoch, stream handlers and readers, with
    channels that overflow and are retired, a page that holds the ring's epoch
    holds every record of the ring up to its tip, except those older than the
    limited snapshot it last started from. A page that has read an open, drained
    stream while no publication is under way holds every record of the ring, and
    its pending rows are the registry. *)
Theorem feed_never_misses render tr f es i d : run render tr f -> rep (f_buf f) es -> f_dashes f !! i = Some d ->
  p_feed (d_page d) = b_feedID (f_buf f) ->
  (forall q r, (q, r) ∈ es -> q <= p_tip (d_page d) -> r ∈ p_known (d_page d) \/ q < p_floor (d_page d)) /\
  (caught_up f d -> (forall q r, (q, r) ∈ es -> r ∈ p_known (d_page d) \/ q < p_floor (d_page d)) /\
    p_pending (d_page d) = b_pending (f_buf f)).
Proof.
  intros Hrun Hrep Hi Hf. destruct (run_dash _ _ _ _ _ Hrun Hi) as (es' & h & Hb & Hc & Hd & _).
  pose proof (rep_unique _ _ _ (bo_rep _ _ _ _ Hb) Hrep) as ->. destruct Hd as [Hp Hd].
  pose proof (pg_known _ _ _ _ _ Hp Hf) as Hk. split; [exact Hk|]. intros Hcu.
  destruct (dash_caught_up _ _ _ _ Hb Hc (conj Hp Hd) Hcu) as [Htip Hrev]. split; [intros q r Hq; by apply Hk; [|eapply Htip]|].
  pose proof (pg_pending _ _ _ _ _ Hp) as H1. rewrite Hrev in H1. pose proof (bo_now _ _ _ _ Hb) as H2. congruence.
Qed.

(** C20. The pending rows a dashboard shows are the registry of some instant: at
    any time they are exactly the buffer's pending records in some state the
    process went through, and the gauge beside them counts them. The buffer's own
    in-flight gauge is the size of its registry. *)
Theorem pending_replica render tr f i d : run render tr f -> f_dashes f !! i = Some d ->
  b_inFlight (f_buf f) = Z.of_nat (base.size (b_pending (f_buf f))) /\
  p_gauge (d_page d) = Z.of_nat (base.size (p_pending (d_page d))) /\
  exists f0, f0 ∈ tr /\ b_pendingRevision (f_buf f0) = p_rev (d_page d) /\ b_pending (f_buf f0) = p_pending (d_page d).
Proof.
  intros Hrun Hi. destruct (run_dash _ _ _ _ _ Hrun Hi) as (es & h & Hb & _ & [Hp _] & H).
  split; [apply Hb|]. split; [apply Hp|]. apply H, Hp.
Qed.

(** C21. A scrape is never stale: whatever appends, purges and renders
    interleave, a body the cache answers with is the rendering of the records
    the ring holds at that moment. *)
Theorem exposition_current render tr f body : run render tr f -> prom_hit (f_prom f) (f_buf f) = Some body ->
  render (Snapshot (f_buf f)) = Some body.
Proof.
  intros Hrun Hhit. destruct (feed_run_inv render tr f Hrun) as (es & h & [Hb _ _ _ [Hp _]] & _).
  rewrite (Snapshot_rep _ es) by apply Hb. unfold prom_hit in Hhit. destruct (pc_valid (f_prom f)); [|done].
  destruct (Z.eqb_spec (b_finalRevision (f_buf f)) (pc_revision (f_prom f))) as [Heq|]; [|done]. injection Hhit as <-.
  by apply Hp.
Qed.

(** ** A run: a process restores a record, a request begins, a dashboard opens
    its stream, reads the snapshot and the end of the request. *)

Definition demo_render (l : list (option Rec)) : option bytes := Some [Z.of_nat (length l)].
Definition demo_stream (stg : stage) (out : list frame) : stream :=
  Stream stg [] [] [] 0 0 0 (if bool_decide (stg = SRunning) then newFeedID [1] else []) out.
Definition demo0 : feed := start 4 [1] [Some (plain_rec [1] 200)].
Definition demo1 : feed := publishing Idle (with_buf (set_pending {[ [2] := plain_rec [2] 0 ]} (f_buf demo0)) demo0).
Definition demo2 : feed := with_dash 0 (Dash new_page None 0) demo1.
Definition demo3 : feed := with_stream 0 (demo_stream SFeedChan []) (with_dash 0 (Dash new_page (Some 0%nat) 0) demo2).
Definition demo4 : feed := with_stream 0 (st_subscribed 0 (demo_stream SFeedChan [])) (with_subs (subscribeChan 0 (f_subs demo3)) demo3).
Definition demo5 : feed := with_stream 0 (st_sublive 0 (st_subscribed 0 (demo_stream SFeedChan [])))
  (with_liveSubs (subscribeChan 0 (f_liveSubs demo4)) demo4).
Definition demo_snapshot : stream := st_snapshot (f_buf demo5) (st_sublive 0 (st_subscribed 0 (demo_stream SFeedChan []))).
Definition demo6 : feed := with_stream 0 demo_snapshot demo5.
Definition demo_page : page := read_frame (snapshot_frame [] [] [] (f_buf demo5)) new_page.
Definition demo7 : feed := with_dash 0 (Dash demo_page (Some 0%nat) 1) demo6.
Definition demo8 : feed := with_prom (prom_missed (f_prom demo7)) demo7.
Definition demo9 : feed := with_prom (prom_render demo_render (f_buf demo8) (f_prom demo8)) demo8.
Definition demo10 : feed := with_prom (prom_publish (f_prom demo9)) demo9.

Lemma demo_run : run demo_render [demo0; demo1; demo2; demo3; demo4; demo5; demo6; demo7; demo8; demo9; demo10] demo10.
Proof.
  assert (H0 : run demo_render [demo0] demo0) by (apply run_start; done).
  assert (H1 := run_step _ _ _ demo1 H0 (step_publish _ demo0 PBegin (plain_rec [2] 0) _ None eq_refl ltac:(vm_compute; reflexivity))).
  assert (H2 := run_step _ _ _ demo2 H1 (step_page _ demo1 0 ltac:(vm_compute; reflexivity || done))).
  assert (H3 := run_step _ _ _ demo3 H2 (step_open _ demo2 0 new_page 0 [] [] ltac:(vm_compute; reflexivity || done) ltac:(vm_compute; reflexivity || done) ltac:(vm_compute; reflexivity || done))).
  assert (H4 := run_step _ _ _ demo4 H3 (step_subscribe _ demo3 0 (demo_stream SFeedChan []) 0 ltac:(vm_compute; reflexivity) ltac:(vm_compute; reflexivity || done) ltac:(vm_compute; reflexivity || done) ltac:(vm_compute; reflexivity || done))).
  assert (H5 := run_step _ _ _ demo5 H4 (step_sublive _ demo4 0 _ 0 ltac:(vm_compute; reflexivity) ltac:(vm_compute; reflexivity || done) ltac:(vm_compute; reflexivity || done) ltac:(vm_compute; reflexivity || done))).
  assert (H6 := run_step _ _ _ demo6 H5 (step_snapshot _ demo5 0 _ ltac:(vm_compute; reflexivity) ltac:(vm_compute; reflexivity || done))).
  assert (H7 := run_step _ _ _ demo7 H6 (step_read _ demo6 0 new_page 0 0 demo_snapshot _ ltac:(vm_compute; reflexivity || done) ltac:(vm_compute; reflexivity || done) ltac:(vm_compute; reflexivity || done))).
  assert (H8 := run_step _ _ _ demo8 H7 (step_prom_miss _ demo7 eq_refl ltac:(vm_compute; reflexivity))).
  assert (H9 := run_step _ _ _ demo9 H8 (step_prom_render _ demo8 eq_refl)).
  exact (run_step _ _ _ demo10 H9 (step_prom_publish _ demo9)).
Qed.

Lemma demo_dash : f_dashes demo10 !! 0%nat = Some (Dash demo_page (Some 0%nat) 1).
Proof. vm_compute. reflexivity. Qed.

Lemma demo_caught_up : caught_up demo10 (Dash demo_page (Some 0%nat) 1).
Proof. split; [done|vm_compute; reflexivity|]. exists 0%nat, demo_snapshot. repeat split; vm_compute; reflexivity. Qed.

Lemma feed_never_misses_witness :
  (plain_rec [1] 200 ∈ p_known demo_page \/ 1 < p_floor demo_page) /\ p_pending demo_page = {[ [2] := plain_rec [2] 0 ]}.
Proof.
  assert (Hr : rep (f_buf demo10) [(1, plain_rec [1] 200)]).
  { repeat split; try (vm_compute; (reflexivity || discriminate)); repeat constructor; vm_compute; discriminate. }
  destruct (feed_never_misses demo_render _ _ _ _ _ demo_run Hr demo_dash ltac:(vm_compute; reflexivity)) as [_ H].
  destruct (H demo_caught_up) as [H1 H2]. split; [apply (H1 1); by left|exact H2].
Defined.

Lemma pending_replica_witness : p_gauge (d_page (Dash demo_page (Some 0%nat) 1)) = 1.
Proof. destruct (pending_replica demo_render _ _ _ _ demo_run demo_dash) as (_ & H & _). rewrite H. vm_compute. reflexivity. Defined.

Lemma exposition_current_witness : demo_render (Snapshot (f_buf demo10)) = Some [1].
Proof. exact (exposition_current demo_render _ _ _ demo_run ltac:(vm_compute; reflexivity)). Defined.
