(* ===== verification/NameSet.v ===== *)
(** proxy/pause.go: the vocabularies of names an operator can choose from
    (nameSet) - a bounded set that forgets the least recently observed name and
    never one that a live operator document pins. *)

From stdpp Require Import sorting.
From S2P Require Import Prelude GoOrder.

Record nameEntry := NameEntry { ne_seq : Z; ne_name : bytes }.

Record nameSet := NameSet {
  ns_names : gset bytes;
  ns_pinned : gset bytes;
  ns_pins : gmap bytes (gset bytes);
  ns_seq : gmap bytes Z;
  ns_order : list nameEntry;
  ns_next : Z;
  ns_revision : Z;
  ns_sorted : list bytes;
  ns_sortedRevision : Z;
}.

(** A zero nameSet is usable. *)
Definition emptyNames : nameSet := NameSet ∅ ∅ ∅ ∅ [] 0 0 [] 0.

Definition nameSetMax : Z := 4096.
Definition card (s : gset bytes) : Z := Z.of_nat (base.size s).

Definition seq_of (n : nameSet) (name : bytes) : Z := default 0 (ns_seq n !! name).

Definition with_order (order : list nameEntry) (n : nameSet) : nameSet :=
  NameSet (ns_names n) (ns_pinned n) (ns_pins n) (ns_seq n) order (ns_next n) (ns_revision n) (ns_sorted n) (ns_sortedRevision n).
Definition with_pinned (pinned : gset bytes) (n : nameSet) : nameSet :=
  NameSet (ns_names n) pinned (ns_pins n) (ns_seq n) (ns_order n) (ns_next n) (ns_revision n) (ns_sorted n) (ns_sortedRevision n).
Definition with_pins (pins : gmap bytes (gset bytes)) (n : nameSet) : nameSet :=
  NameSet (ns_names n) (ns_pinned n) pins (ns_seq n) (ns_order n) (ns_next n) (ns_revision n) (ns_sorted n) (ns_sortedRevision n).

(** The name is stored, at a new revision. *)
Definition store_name (name : bytes) (n : nameSet) : nameSet :=
  NameSet ({[name]} ∪ ns_names n) (ns_pinned n) (ns_pins n) (ns_seq n) (ns_order n) (ns_next n) (ns_revision n + 1)
    (ns_sorted n) (ns_sortedRevision n).

Definition bumpLocked (name : bytes) (n : nameSet) : nameSet :=
  NameSet (ns_names n) (ns_pinned n) (ns_pins n) (<[name := ns_next n + 1]> (ns_seq n)) (ns_order n) (ns_next n + 1)
    (ns_revision n) (ns_sorted n) (ns_sortedRevision n).
Definition append_order (name : bytes) (n : nameSet) : nameSet :=
  with_order (ns_order n ++ [NameEntry (seq_of n name) name]) n.

(** evictLocked; the loop drops stale entries from the head. *)
Definition drop_name (e : nameEntry) (order : list nameEntry) (n : nameSet) : nameSet :=
  NameSet (ns_names n ∖ {[ne_name e]}) (ns_pinned n) (ns_pins n) (delete (ne_name e) (ns_seq n)) order (ns_next n)
    (ns_revision n + 1) (ns_sorted n) (ns_sortedRevision n).
Fixpoint evict_loop (n : nameSet) (order : list nameEntry) : nameSet * bool :=
  match order with
  | [] => (with_order [] n, false)
  | e :: order => if negb (seq_of n (ne_name e) =? ne_seq e) then evict_loop n order else (drop_name e order n, true)
  end.
Definition evictLocked (n : nameSet) : nameSet * bool := evict_loop n (ns_order n).

(** compactLocked; the walk of [n.names] is sorted away. *)
Definition entry_le (a b : nameEntry) : Prop := ne_seq a <= ne_seq b.
#[export] Instance entry_le_dec a b : Decision (entry_le a b).
Proof. unfold entry_le. apply _. Defined.
Definition compactLocked (n : nameSet) : nameSet :=
  if Z.of_nat (length (ns_order n)) <=? 2 * card (ns_names n) + 64 then n else
  with_order (merge_sort entry_le ((fun name => NameEntry (seq_of n name) name) <$> elements (ns_names n ∖ ns_pinned n))) n.

(** [len(n.names) >= nameSetMax && !n.evictLocked()], negated. *)
Definition room (n : nameSet) : nameSet * bool := if nameSetMax <=? card (ns_names n) then evictLocked n else (n, true).

Definition observeLocked (name : bytes) (n : nameSet) : nameSet :=
  if decide (name = []) then n else
  if decide (name ∈ ns_names n) then
    if decide (name ∈ ns_pinned n) then n else compactLocked (append_order name (bumpLocked name n))
  else
    let '(n, ok) := room n in
    if ok then append_order name (bumpLocked name (store_name name n)) else n.
Definition add := observeLocked.
Definition seed (names : list bytes) (n : nameSet) : nameSet := fold_left (fun n name => observeLocked name n) names n.

(** setPins. [walk] is the order in which the release loop meets [n.pinned]. *)
Definition release_pin (want : gset bytes) (n : nameSet) (name : bytes) : nameSet :=
  if decide (name ∈ want) then n else append_order name (bumpLocked name (with_pinned (ns_pinned n ∖ {[name]}) n)).
Definition acquire_pin (st : nameSet * list bytes) (name : bytes) : nameSet * list bytes :=
  let '(n, dropped) := st in
  if decide (name ∈ ns_pinned n) then st else
  let '(n, ok) :=
    if decide (name ∈ ns_names n) then (n, true) else
    let '(n, ok) := room n in
    if ok then (store_name name n, true) else (n, false) in
  if ok then (let n := bumpLocked name n in with_pinned ({[name]} ∪ ns_pinned n) n, dropped)
  else (n, dropped ++ [name]).
Definition pins_with (source : bytes) (names : list bytes) (pins : gmap bytes (gset bytes)) : gmap bytes (gset bytes) :=
  let clean : gset bytes := list_to_set (filter (fun name => name <> []) names) in
  if decide (clean = ∅) then delete source pins else <[source := clean]> pins.
Definition wanted (pins : gmap bytes (gset bytes)) : gset bytes := ⋃ (map_to_list pins).*2.
Definition setPins (walk : list bytes) (source : bytes) (names : list bytes) (n : nameSet) : nameSet * list bytes :=
  let n := with_pins (pins_with source names (ns_pins n)) n in
  let want := wanted (ns_pins n) in
  let n := fold_left (release_pin want) walk n in
  let '(n, dropped) := fold_left acquire_pin (sorted_keys want) (n, []) in
  (compactLocked n, dropped).

(** list, and the set with its cached view. *)
Definition list_names (n : nameSet) : list bytes * nameSet :=
  if ns_sortedRevision n =? ns_revision n then (ns_sorted n, n) else
  let sorted := sorted_keys (ns_names n) in
  (sorted, NameSet (ns_names n) (ns_pinned n) (ns_pins n) (ns_seq n) (ns_order n) (ns_next n) (ns_revision n) sorted (ns_revision n)).

(** ** The vocabulary it implements *)

(** The observed names, the least recently observed first; the pinned ones; and
    each document family's names. *)
Record vocab := Vocab { v_observed : list bytes; v_pinned : gset bytes; v_pins : gmap bytes (gset bytes) }.

Definition v_names (v : vocab) : gset bytes := list_to_set (v_observed v) ∪ v_pinned v.
Definition v_full (v : vocab) : bool := nameSetMax <=? card (v_names v).

(** Room for one more name; [None] when every name is pinned. *)
Definition v_room (v : vocab) : option vocab :=
  if v_full v then match v_observed v with [] => None | _ :: l => Some (Vocab l (v_pinned v) (v_pins v)) end else Some v.

Definition v_observe (name : bytes) (v : vocab) : vocab :=
  if decide (name = [] \/ name ∈ v_pinned v) then v else
  if decide (name ∈ v_observed v) then Vocab (filter (fun x => x <> name) (v_observed v) ++ [name]) (v_pinned v) (v_pins v)
  else match v_room v with Some v => Vocab (v_observed v ++ [name]) (v_pinned v) (v_pins v) | None => v end.

Definition v_pin (st : vocab * list bytes) (name : bytes) : vocab * list bytes :=
  let '(v, dropped) := st in
  if decide (name ∈ v_pinned v) then st else
  match (if decide (name ∈ v_observed v) then Some v else v_room v) with
  | Some v => (Vocab (filter (fun x => x <> name) (v_observed v)) ({[name]} ∪ v_pinned v) (v_pins v), dropped)
  | None => (v, dropped ++ [name])
  end.
Definition v_setPins (walk : list bytes) (source : bytes) (names : list bytes) (v : vocab) : vocab * list bytes :=
  let pins := pins_with source names (v_pins v) in
  let want := wanted pins in
  fold_left v_pin (sorted_keys want)
    (Vocab (v_observed v ++ filter (fun x => x ∉ want) walk) (v_pinned v ∩ want) pins, []).

(** ** Representation *)

Definition is_live (n : nameSet) (e : nameEntry) : Prop := seq_of n (ne_name e) = ne_seq e.
#[export] Instance is_live_dec n e : Decision (is_live n e).
Proof. unfold is_live. apply _. Defined.
Definition live (n : nameSet) : list nameEntry := filter (is_live n) (ns_order n).
Definition observed (n : nameSet) : list bytes := ne_name <$> live n.
#[local] Arguments observed : simpl never.
Definition view (n : nameSet) : vocab := Vocab (observed n) (ns_pinned n) (ns_pins n).

(** A set between the steps of an operation: the names of [X] are stored but
    are about to be moved. *)
Record core (X : gset bytes) (n : nameSet) : Prop := {
  c_sorted : StronglySorted Z.lt (ne_seq <$> ns_order n);
  c_range : Forall (fun e => 1 <= ne_seq e <= ns_next n) (ns_order n);
  c_next : 0 <= ns_next n;
  c_live : forall name, name ∉ X -> name ∈ ns_names n /\ name ∉ ns_pinned n <-> name ∈ observed n;
  c_moving : X ⊆ ns_names n ∖ ns_pinned n;
  c_pinned : ns_pinned n ⊆ ns_names n;
  c_size : card (ns_names n) <= nameSetMax;
  c_blank : [] ∉ ns_names n;
  c_cache : ns_sortedRevision n <= ns_revision n /\
    (ns_sortedRevision n = ns_revision n -> ns_sorted n = sorted_keys (ns_names n));
}.

Definition short (n : nameSet) : Prop := Z.of_nat (length (ns_order n)) <= 2 * card (ns_names n) + 64.

Lemma card_insert (x : bytes) (s : gset bytes) : x ∉ s -> card ({[x]} ∪ s) = card s + 1.
Proof. intros. unfold card. rewrite size_union, size_singleton by set_solver. lia. Qed.
Lemma card_remove (x : bytes) (s : gset bytes) : x ∈ s -> card (s ∖ {[x]}) = card s - 1.
Proof. intros. unfold card. rewrite size_difference, size_singleton by set_solver. assert (base.size s <> 0%nat) by (intros H0%size_empty_inv; set_solver). lia. Qed.

Lemma sorted_entries_eq (l : list nameEntry) e e' : StronglySorted Z.lt (ne_seq <$> l) -> e ∈ l -> e' ∈ l ->
  ne_seq e = ne_seq e' -> e = e'.
Proof.
  induction l as [|x l IH]; cbn; intros Hs; [by intros ?%elem_of_nil|]. apply StronglySorted_cons in Hs as [Hx Hs].
  rewrite Forall_fmap, Forall_forall in Hx. unfold compose in Hx.
  intros [->|He]%elem_of_cons [->|He']%elem_of_cons Heq; [done|specialize (Hx _ He'); lia|specialize (Hx _ He); lia|by apply IH].
Qed.

Lemma filter_sorted P `{!forall e, Decision (P e)} (l : list nameEntry) :
  StronglySorted Z.lt (ne_seq <$> l) -> StronglySorted Z.lt (ne_seq <$> filter P l).
Proof.
  induction l as [|e l IH]; intros Hs; [constructor|]. rewrite filter_cons. rewrite fmap_cons, StronglySorted_cons in Hs. destruct Hs as [Hx Hs].
  destruct (decide (P e)); [rewrite fmap_cons|by apply IH]. apply StronglySorted_cons. split; [|by apply IH].
  rewrite Forall_fmap, Forall_forall in *. intros x [_ Hin]%list_elem_of_filter. by apply Hx.
Qed.

Lemma filter_ext_in {T} (P Q : T -> Prop) `{!forall x, Decision (P x)} `{!forall x, Decision (Q x)} (l : list T) :
  (forall x, x ∈ l -> P x <-> Q x) -> filter P l = filter Q l.
Proof.
  induction l as [|x l IH]; intros Hpq; [done|]. rewrite !filter_cons, IH by (intros y Hy; apply Hpq; by right).
  assert (P x <-> Q x) by (apply Hpq; by left). destruct (decide (P x)), (decide (Q x)); tauto.
Qed.

Lemma live_in n e : e ∈ live n <-> seq_of n (ne_name e) = ne_seq e /\ e ∈ ns_order n.
Proof. unfold live. by rewrite list_elem_of_filter. Qed.

Lemma observed_NoDup X n : core X n -> NoDup (observed n).
Proof.
  intros Hc. pose proof (c_sorted _ _ Hc) as Hs. unfold observed. apply (NoDup_fmap_2_strong ne_name).
  - intros e e' He He' Heq. rewrite live_in in *. apply (sorted_entries_eq (ns_order n)); [done|tauto|tauto|].
    destruct He as [<- _], He' as [<- _]. by rewrite Heq.
  - apply NoDup_filter. apply (NoDup_fmap_1 ne_seq). revert Hs. generalize (ne_seq <$> ns_order n). clear.
    induction l as [|x l IH]; intros Hs; [constructor|]. apply StronglySorted_cons in Hs as [Hx Hs]. constructor; [|by apply IH].
    intros Hin. rewrite Forall_forall in Hx. specialize (Hx x Hin). lia.
Qed.

(** ** Steps *)

Lemma live_bump name n X : core X n -> live (bumpLocked name n) = filter (fun e => ne_name e <> name) (live n).
Proof.
  intros Hc. pose proof (c_range _ _ Hc) as Hr. unfold live. rewrite list_filter_filter. cbn [bumpLocked ns_order].
  rewrite Forall_forall in Hr. apply filter_ext_in. intros e He. specialize (Hr e He).
  unfold is_live, seq_of. cbn [bumpLocked ns_seq]. destruct (decide (name = ne_name e)) as [->|Hne].
  - rewrite lookup_insert_eq. cbn. split; [lia|tauto].
  - rewrite lookup_insert_ne by done. naive_solver.
Qed.

Lemma filter_names P `{!forall x, Decision (P x)} (l : list nameEntry) :
  filter P (ne_name <$> l) = ne_name <$> filter (fun e => P (ne_name e)) l.
Proof. induction l as [|e l IH]; [done|]. rewrite fmap_cons, !filter_cons, IH. by destruct (decide (P (ne_name e))). Qed.

Lemma observed_bump name n X : core X n -> observed (bumpLocked name n) = filter (fun x => x <> name) (observed n).
Proof. intros Hc. unfold observed. by rewrite (live_bump name n X Hc), filter_names. Qed.

Lemma core_bump name n X : core X n -> name ∈ X ->
  core X (bumpLocked name n) /\ name ∉ observed (bumpLocked name n) /\ seq_of (bumpLocked name n) name = ns_next n + 1.
Proof.
  intros Hc Hx. split; [|split].
  - pose proof (observed_bump name n X Hc) as Ho. destruct Hc.
    split; cbn; try done; [eapply Forall_impl; [exact c_range0|cbn; lia]|lia|].
    intros x Hnx. rewrite Ho, list_elem_of_filter. rewrite (c_live0 x Hnx). set_solver.
  - rewrite (observed_bump name n X) by done. rewrite list_elem_of_filter. tauto.
  - unfold seq_of. cbn. by rewrite lookup_insert_eq.
Qed.

(** The name moves to the newest position. *)
Lemma touch_spec name n : core {[name]} n -> let n' := append_order name (bumpLocked name n) in
  core ∅ n' /\ observed n' = filter (fun x => x <> name) (observed n) ++ [name].
Proof.
  intros Hc n'. destruct (core_bump name n {[name]} Hc) as (Hb & Hno & Hseq); [set_solver|].
  assert (Hobs : observed n' = observed (bumpLocked name n) ++ [name]).
  { unfold n', observed, live. cbn [append_order with_order ns_order]. rewrite filter_app, fmap_app. f_equal.
    rewrite filter_cons_True by done. done. }
  rewrite <- (observed_bump name n {[name]} Hc). split; [|exact Hobs].
  pose proof (c_moving _ _ Hc) as Hm. destruct Hb. split; cbn in *; try done.
  - rewrite fmap_app. apply StronglySorted_app_2; [|done|repeat constructor]. cbn. intros x y Hx Hy.
    apply list_elem_of_singleton in Hy as ->. apply list_elem_of_fmap in Hx as (e & -> & He).
    pose proof (c_range _ _ Hc) as Hr. rewrite Forall_forall in Hr. specialize (Hr e He). rewrite Hseq. lia.
  - apply Forall_app. split; [done|]. constructor; [|done]. cbn. rewrite Hseq. pose proof (c_next _ _ Hc). lia.
  - intros x _. rewrite Hobs, elem_of_app, list_elem_of_singleton. destruct (decide (x = name)) as [->|Hne]; [set_solver|].
    rewrite (c_live0 x) by set_solver. naive_solver.
Qed.

(** The name becomes a pinned one. *)
Lemma hold_spec name n : core {[name]} n -> let n' := with_pinned ({[name]} ∪ ns_pinned n) (bumpLocked name n) in
  core ∅ n' /\ observed n' = filter (fun x => x <> name) (observed n).
Proof.
  intros Hc n'. destruct (core_bump name n {[name]} Hc) as (Hb & Hno & _); [set_solver|].
  rewrite <- (observed_bump name n {[name]} Hc). split; [|done]. pose proof (c_moving _ _ Hc) as Hm.
  destruct Hb. split; cbn in *; try done; [|set_solver].
  intros x _. change (observed n') with (observed (bumpLocked name n)). destruct (decide (x = name)) as [->|Hne]; [set_solver|].
  rewrite <- (c_live0 x) by set_solver. set_solver.
Qed.

Lemma store_spec name n : core ∅ n -> name ∉ ns_names n -> name <> [] -> card (ns_names n) < nameSetMax ->
  core {[name]} (store_name name n) /\ observed (store_name name n) = observed n.
Proof.
  intros Hc Hn Hne Hroom. split; [|done]. destruct Hc. assert (Hp : name ∉ ns_pinned n) by (intros H; by apply Hn, c_pinned0).
  split; cbn; try done.
  - intros x Hx. rewrite not_elem_of_singleton in Hx. change (observed (store_name name n)) with (observed n).
    rewrite <- (c_live0 x) by set_solver. rewrite elem_of_union, elem_of_singleton. tauto.
  - clear -Hp. set_solver.
  - clear -c_pinned0. set_solver.
  - rewrite card_insert by done. lia.
  - clear -c_blank0 Hne. set_solver.
  - split; [lia|]. lia.
Qed.

Lemma core_stored name n : core ∅ n -> name ∈ ns_names n -> name ∉ ns_pinned n -> core {[name]} n.
Proof. intros [] H1 H2. split; try done; [|set_solver]. intros x Hx. apply c_live0. set_solver. Qed.

Lemma core_unpin name n : core ∅ n -> name ∈ ns_pinned n -> core {[name]} (with_pinned (ns_pinned n ∖ {[name]}) n).
Proof.
  intros [] Hp. split; cbn; try done; [|set_solver|set_solver]. intros x Hx.
  change (observed (with_pinned _ n)) with (observed n). rewrite <- (c_live0 x) by set_solver. set_solver.
Qed.

Lemma core_pins pins n : core ∅ n -> core ∅ (with_pins pins n).
Proof. intros []. by split. Qed.

(** Eviction takes the head of the live entries. *)
Lemma evict_loop_spec n : forall order pre, ns_order n = pre ++ order -> Forall (fun e => ~ is_live n e) pre ->
  match filter (is_live n) order with
  | [] => evict_loop n order = (with_order [] n, false)
  | e :: _ => exists pre' order', ns_order n = pre' ++ e :: order' /\ Forall (fun e => ~ is_live n e) pre' /\ is_live n e /\
      evict_loop n order = (drop_name e order' n, true)
  end.
Proof.
  induction order as [|e order IH]; intros pre Hsplit Hpre; [done|]. rewrite filter_cons. cbn [evict_loop].
  unfold is_live at 1 3. unfold is_live at 1. destruct (decide (seq_of n (ne_name e) = ne_seq e)) as [Heq|Hne].
  - rewrite (proj2 (Z.eqb_eq _ _) Heq). cbn [negb]. by exists pre, order.
  - rewrite (proj2 (Z.eqb_neq _ _) Hne). cbn [negb]. apply (IH (pre ++ [e])); [by rewrite Hsplit, <- app_assoc|].
    apply Forall_app. by split; [|constructor].
Qed.

Lemma filter_none {T} (P : T -> Prop) `{!forall x, Decision (P x)} (l : list T) : Forall (fun x => ~ P x) l -> filter P l = [].
Proof. induction 1 as [|x l Hx _ IH]; [done|]. by rewrite filter_cons_False. Qed.

Lemma drop_name_spec n e pre order : core ∅ n -> ns_order n = pre ++ e :: order -> Forall (fun e => ~ is_live n e) pre ->
  is_live n e -> let n' := drop_name e order n in
  core ∅ n' /\ observed n = ne_name e :: observed n' /\ ne_name e ∈ ns_names n.
Proof.
  intros Hc Hsplit Hpre He n'.
  assert (Hlive : live n = e :: filter (is_live n) order).
  { unfold live. rewrite Hsplit, filter_app, (filter_none _ pre), filter_cons_True by done. done. }
  pose proof (observed_NoDup _ _ Hc) as Hnd. unfold observed in Hnd. rewrite Hlive in Hnd. apply NoDup_cons in Hnd as [Hnd _].
  assert (Hrest : live n' = filter (is_live n) order).
  { unfold live. cbn [n' drop_name ns_order]. apply filter_ext_in. intros x Hx. unfold is_live, seq_of. cbn [n' drop_name ns_seq].
    destruct (decide (ne_name e = ne_name x)) as [Heq|Hne]; [|by rewrite lookup_delete_ne].
    rewrite <- Heq, lookup_delete_eq. cbn. pose proof (c_range _ _ Hc) as Hr. rewrite Forall_forall in Hr.
    specialize (Hr x ltac:(rewrite Hsplit; set_solver)). split; [lia|]. intros Hl. exfalso. apply Hnd.
    apply list_elem_of_fmap. exists x. split; [done|]. apply list_elem_of_filter. split; [|done].
    unfold is_live, seq_of. by rewrite <- Heq. }
  assert (Hobs : observed n = ne_name e :: observed n') by (unfold observed; by rewrite Hlive, Hrest).
  assert (Hin : ne_name e ∈ ns_names n /\ ne_name e ∉ ns_pinned n).
  { apply (c_live _ _ Hc); [set_solver|]. rewrite Hobs. by left. }
  split; [|by split; [|apply Hin]]. assert (Hnd' : ne_name e ∉ observed n') by (unfold observed; by rewrite Hrest).
  destruct Hc. rewrite Hsplit in *. rewrite fmap_app, fmap_cons in c_sorted0. apply StronglySorted_app_1_r in c_sorted0.
  apply StronglySorted_cons in c_sorted0 as [_ c_sorted0]. apply Forall_app in c_range0 as [_ c_range0].
  apply Forall_cons in c_range0 as [_ c_range0]. split; cbn [n' drop_name ns_names ns_pinned ns_order ns_next ns_revision ns_sorted ns_sortedRevision]; try done.
  - intros x Hx. specialize (c_live0 x Hx). rewrite Hobs, elem_of_cons in c_live0. rewrite elem_of_difference, elem_of_singleton.
    destruct (decide (x = ne_name e)) as [->|Hne]; tauto.
  - clear -c_pinned0 Hin. set_solver.
  - rewrite card_remove by tauto. lia.
  - clear -c_blank0. set_solver.
  - split; [lia|]. lia.
Qed.

Lemma evict_oldest_spec n : core ∅ n ->
  match observed n with
  | [] => evictLocked n = (with_order [] n, false) /\ core ∅ (with_order [] n) /\ observed (with_order [] n) = []
  | x :: l => exists n', evictLocked n = (n', true) /\ core ∅ n' /\ observed n' = l /\ ns_pinned n' = ns_pinned n /\
      ns_pins n' = ns_pins n /\ x ∈ ns_names n /\ ns_names n' = ns_names n ∖ {[x]} /\
      (length (ns_order n') < length (ns_order n))%nat
  end.
Proof.
  intros Hc. pose proof (evict_loop_spec n (ns_order n) [] eq_refl ltac:(constructor)) as H. fold (live n) (evictLocked n) in H.
  unfold observed at 1. destruct (live n) as [|e l] eqn:El; cbn.
  - split; [done|]. assert (Ho : observed n = []) by (unfold observed; by rewrite El). split; [|done].
    destruct Hc. split; cbn; try done; [constructor|]. intros x Hx. specialize (c_live0 x Hx). rewrite Ho in c_live0. done.
  - destruct H as (pre & order & H1 & H2 & H3 & H4). exists (drop_name e order n).
    destruct (drop_name_spec n e pre order Hc H1 H2 H3) as (H5 & H6 & H7). unfold observed in H6 at 1. rewrite El in H6.
    injection H6 as H6. split; [done|]. split; [done|]. split; [done|]. cbn. rewrite H1, length_app. cbn. repeat split; try done. lia.
Qed.

#[local] Instance entry_le_trans : Transitive entry_le.
Proof. intros a b c. unfold entry_le. lia. Qed.
#[local] Instance entry_le_total : Total entry_le.
Proof. intros a b. unfold entry_le. lia. Qed.

(** The rebuilt order list is the live entries in their order. *)
Lemma compact_entries n : core ∅ n ->
  merge_sort entry_le ((fun name => NameEntry (seq_of n name) name) <$> elements (ns_names n ∖ ns_pinned n)) = live n.
Proof.
  intros Hc. pose proof (filter_sorted (is_live n) _ (c_sorted _ _ Hc)) as Hs. fold (live n) in Hs.
  set (entries := _ <$> _). assert (Hp : entries ≡ₚ live n).
  { apply NoDup_Permutation.
    - unfold entries. apply NoDup_fmap_2_strong; [by intros ? ? _ _ [=]|apply NoDup_elements].
    - pose proof (observed_NoDup _ _ Hc) as Hnd. by apply NoDup_fmap_1 in Hnd.
    - intros e. unfold entries. rewrite list_elem_of_fmap. setoid_rewrite elem_of_elements. setoid_rewrite elem_of_difference.
      pose proof (c_live _ _ Hc) as Hl. split.
      + intros (name & -> & Hin). apply (Hl name) in Hin; [|set_solver]. apply list_elem_of_fmap in Hin as ([q name'] & -> & He).
        pose proof (proj1 (live_in _ _) He) as [Hq _]. cbn in *. by rewrite Hq.
      + intros He. pose proof (proj1 (live_in _ _) He) as [Hq _]. exists (ne_name e). rewrite Hq.
        split; [by destruct e|]. apply Hl; [set_solver|]. apply list_elem_of_fmap. by exists e. }
  apply (StronglySorted_unique_strong entry_le).
  - intros e e' He He' H1 H2. rewrite merge_sort_Permutation, Hp in He. apply (sorted_entries_eq (live n)); [done|done|done|].
    unfold entry_le in *. lia.
  - apply StronglySorted_merge_sort; apply _.
  - clear -Hs. revert Hs. generalize (live n). induction l as [|e l IH]; [constructor|]. rewrite fmap_cons, StronglySorted_cons.
    intros [Hx Hs]. apply StronglySorted_cons. split; [|by apply IH]. rewrite Forall_fmap in Hx.
    eapply Forall_impl; [exact Hx|]. unfold entry_le, compose. cbn. lia.
  - by rewrite merge_sort_Permutation.
Qed.

Lemma compact_spec n : core ∅ n -> let n' := compactLocked n in
  core ∅ n' /\ view n' = view n /\ short n' /\ ns_names n' = ns_names n.
Proof.
  intros Hc n'. unfold n', compactLocked. destruct (Z.leb_spec (Z.of_nat (length (ns_order n))) (2 * card (ns_names n) + 64)) as [|Hlong]; [done|].
  rewrite compact_entries by done. set (c := with_order (live n) n).
  assert (Hlive : live c = live n).
  { unfold live at 1. cbn [c with_order ns_order]. change (is_live c) with (is_live n). apply filter_all, Forall_forall.
    intros e He. apply live_in, He. }
  assert (Hobs : observed c = observed n) by (unfold observed; by rewrite Hlive).
  split; [|split; [unfold view; by rewrite Hobs|split; [|done]]].
  - pose proof (filter_sorted (is_live n) _ (c_sorted _ _ Hc)) as Hs. destruct Hc. split; cbn; try done.
    + apply Forall_forall. intros e [_ He]%live_in. rewrite Forall_forall in c_range0. by apply c_range0.
    + intros x Hx. rewrite Hobs. by apply c_live0.
  - unfold short. cbn [c with_order ns_order ns_names]. rewrite <- (length_fmap ne_name). fold (observed n).
    pose proof (observed_NoDup _ _ Hc) as Hnd. unfold card.
    assert (length (observed n) <= base.size (ns_names n))%nat; [|lia].
    rewrite <- (size_list_to_set (C := gset bytes)) by done. apply subseteq_size. intros x Hx. apply elem_of_list_to_set in Hx.
    by apply (c_live _ _ Hc) in Hx as [? _]; [|set_solver].
Qed.

(** ** Operations *)

Lemma set_eq_names (X Y : gset bytes) : (forall x, x ∈ X <-> x ∈ Y) -> X = Y.
Proof. intros H. apply set_eq. exact H. Qed.

Lemma names_view n : core ∅ n -> v_names (view n) = ns_names n.
Proof.
  intros Hc. apply set_eq_names. intros x. unfold v_names. cbn. rewrite elem_of_union, elem_of_list_to_set.
  rewrite <- (c_live _ _ Hc x) by set_solver. pose proof (c_pinned _ _ Hc x). destruct (decide (x ∈ ns_pinned n)); tauto.
Qed.

Lemma room_spec n : core ∅ n ->
  match v_room (view n) with
  | Some v => exists n', room n = (n', true) /\ core ∅ n' /\ view n' = v /\ ns_names n' ⊆ ns_names n /\
      card (ns_names n') < nameSetMax /\
      (short n -> Z.of_nat (length (ns_order n')) + 1 <= 2 * (card (ns_names n') + 1) + 64)
  | None => exists n', room n = (n', false) /\ core ∅ n' /\ view n' = view n /\ short n' /\ ns_names n' = ns_names n
  end.
Proof.
  intros Hc. unfold v_room, v_full, room. rewrite names_view by done. destruct (Z.leb_spec nameSetMax (card (ns_names n))) as [Hf|Hf].
  - pose proof (evict_oldest_spec n Hc) as H. cbn [v_observed view]. destruct (observed n) as [|x l] eqn:Eo.
    + destruct H as (H1 & H2 & H3). exists (with_order [] n). split; [done|]. split; [done|]. unfold view. rewrite H3, Eo.
      split; [done|]. split; [|done]. unfold short. cbn. unfold card. lia.
    + destruct H as (n' & H1 & H2 & H3 & H4 & H5 & H6 & H7 & H8). exists n'. pose proof (c_size _ _ Hc) as Hsz.
      split; [done|]. split; [done|]. unfold view. rewrite H3, H4, H5. split; [done|]. rewrite H7, card_remove by done. unfold short.
      split; [set_solver|]. lia.
  - exists n. split; [done|]. split; [done|]. split; [done|]. split; [done|]. split; [done|]. unfold short. lia.
Qed.

Record wf (n : nameSet) : Prop := {
  w_core : core ∅ n;
  w_short : short n;
  w_wanted : ns_pinned n ⊆ wanted (ns_pins n);
  w_pins : [] ∉ wanted (ns_pins n);
}.

Lemma filter_neq_id (x : bytes) (l : list bytes) : x ∉ l -> filter (fun y => y <> x) l = l.
Proof. intros H. apply filter_all, Forall_forall. intros y Hy ->. done. Qed.

Lemma observe_spec name n : wf n -> wf (observeLocked name n) /\ view (observeLocked name n) = v_observe name (view n).
Proof.
  intros [Hc Hs Hw Hp]. unfold observeLocked, v_observe. cbn [v_observed v_pinned v_pins view].
  destruct (decide (name = [])) as [->|Hne]; [by rewrite decide_True by tauto|].
  pose proof (c_live _ _ Hc name ltac:(set_solver)) as Hl.
  destruct (decide (name ∈ ns_names n)) as [Hin|Hin]; [destruct (decide (name ∈ ns_pinned n)) as [Hpin|Hpin]|].
  - by rewrite decide_True by tauto.
  - rewrite decide_False, decide_True by tauto. destruct (touch_spec name n (core_stored name n Hc Hin Hpin)) as [H1 H2].
    destruct (compact_spec _ H1) as (H3 & H4 & H5 & _). rewrite H4. unfold view in *. injection H4 as _ H6 H7.
    cbn [append_order with_order bumpLocked ns_pinned ns_pins] in *. split; [|by rewrite H2]. split; [done|done|by rewrite H6, H7|by rewrite H7].
  - assert (Hpin : name ∉ ns_pinned n) by (intros H; by apply Hin, (c_pinned _ _ Hc)).
    rewrite !decide_False by tauto. pose proof (room_spec n Hc) as H. fold (view n).
    destruct (v_room (view n)) as [v|] eqn:Ev; destruct H as (n' & -> & H1 & H2 & H3).
    + destruct H3 as (H3 & H4 & H5). assert (Hno : name ∉ ns_names n') by (intros H; by apply Hin, H3).
      destruct (store_spec name n' H1 Hno Hne H4) as [H6 H7]. destruct (touch_spec name _ H6) as [H8 H9]. rewrite H7 in H9.
      rewrite filter_neq_id in H9 by (intros H; apply (c_live _ _ H1) in H as [H _]; [done|set_solver]).
      assert (Hvp : ns_pinned n' = ns_pinned n /\ ns_pins n' = ns_pins n).
      { rewrite <- H2 in Ev. unfold v_room in Ev. destruct (v_full _); [destruct (v_observed _); [done|]|]; by injection Ev as _ <- <-. }
      destruct Hvp as [Hvp1 Hvp2]. rewrite <- H2. unfold view at 1. rewrite H9. cbn. rewrite Hvp1, Hvp2. split; [|done].
      split; [done| |cbn; by rewrite Hvp1, Hvp2|cbn; by rewrite Hvp2]. unfold short. cbn. rewrite length_app, card_insert by done. cbn.
      specialize (H5 Hs). lia.
    + rewrite H2. split; [|done]. unfold view in H2. injection H2 as H2 H4 H5. destruct H3 as [H3 _]. split; [done|done|by rewrite H4, H5|by rewrite H5].
Qed.

Lemma v_room_keeps v v' : v_room v = Some v' -> v_pinned v' = v_pinned v /\ v_pins v' = v_pins v /\
  exists pre, v_observed v = pre ++ v_observed v'.
Proof.
  unfold v_room. destruct (v_full v); [destruct (v_observed v) as [|x l] eqn:E; [done|]|]; intros [= <-]; cbn.
  - split; [done|]. split; [done|]. by exists [x].
  - split; [done|]. split; [done|]. by exists [].
Qed.

Lemma unpin_spec want n name : core ∅ n -> name ∈ ns_pinned n -> name ∉ want -> let n' := release_pin want n name in
  core ∅ n' /\ view n' = Vocab (observed n ++ [name]) (ns_pinned n ∖ {[name]}) (ns_pins n).
Proof.
  intros Hc Hp Hw n'. unfold n', release_pin. rewrite decide_False by done.
  destruct (touch_spec name _ (core_unpin name n Hc Hp)) as [H1 H2]. split; [done|]. unfold view. rewrite H2.
  change (observed (with_pinned _ n)) with (observed n).
  rewrite filter_neq_id by (intros H; apply (c_live _ _ Hc) in H as [_ H]; [done|set_solver]). done.
Qed.

Lemma releases_spec want walk : forall n, core ∅ n -> NoDup walk -> Forall (fun x => x ∈ ns_pinned n) walk ->
  let n' := fold_left (release_pin want) walk n in
  core ∅ n' /\ view n' = Vocab (observed n ++ filter (fun x => x ∉ want) walk)
    (ns_pinned n ∖ list_to_set (filter (fun x => x ∉ want) walk)) (ns_pins n).
Proof.
  induction walk as [|x walk IH]; intros n Hc Hnd Hin; cbn [fold_left].
  { split; [done|]. unfold view. cbn. f_equal; [by rewrite app_nil_r|set_solver]. }
  apply NoDup_cons in Hnd as [Hx Hnd]. apply Forall_cons in Hin as [Hxp Hin]. rewrite filter_cons.
  destruct (decide (x ∉ want)) as [Hw|Hw].
  - destruct (unpin_spec want n x Hc Hxp Hw) as [H1 H2]. unfold view in H2 at 1. injection H2 as H2 H3 H4.
    destruct (IH (release_pin want n x) H1 Hnd) as [H5 H6].
    { eapply Forall_impl; [apply Forall_and; split; [exact Hin|]|].
      - apply Forall_forall. intros y Hy. instantiate (1 := fun y => y <> x). cbn. by intros ->.
      - cbn. intros y [Hy Hne]. rewrite H3. set_solver. }
    split; [done|]. rewrite H6, H2, H3, H4, <- app_assoc. cbn [list_to_set]. f_equal. apply set_eq_names. intros y. set_solver.
  - replace (release_pin want n x) with n; [by apply IH|]. unfold release_pin. rewrite decide_True; [done|].
    by destruct (decide (x ∈ want)).
Qed.

Lemma acquire_spec n d name : core ∅ n -> name <> [] -> let '(n', d') := acquire_pin (n, d) name in
  core ∅ n' /\ v_pin (view n, d) name = (view n', d').
Proof.
  intros Hc Hne. unfold acquire_pin, v_pin. cbn [v_observed v_pinned v_pins view].
  destruct (decide (name ∈ ns_pinned n)) as [Hp|Hp]; [done|].
  pose proof (c_live _ _ Hc name ltac:(set_solver)) as Hl. destruct (decide (name ∈ ns_names n)) as [Hin|Hin].
  - rewrite decide_True by tauto. destruct (hold_spec name n (core_stored name n Hc Hin Hp)) as [H1 H2]. split; [done|].
    unfold view. cbn. by rewrite H2.
  - rewrite decide_False by tauto. pose proof (room_spec n Hc) as H. fold (view n).
    destruct (v_room (view n)) as [v|] eqn:Ev; destruct H as (n' & -> & H1 & H2 & H3).
    + destruct H3 as (H3 & H4 & H5). assert (Hno : name ∉ ns_names n') by (intros H; by apply Hin, H3).
      destruct (store_spec name n' H1 Hno Hne H4) as [H6 H7]. destruct (hold_spec name _ H6) as [H8 H9]. rewrite H7 in H9.
      split; [done|]. rewrite <- H2. unfold view. cbn in *. by rewrite H9.
    + by rewrite H2.
Qed.

Lemma acquires_spec l : forall n d, core ∅ n -> Forall (fun x => x <> []) l -> let '(n', d') := fold_left acquire_pin l (n, d) in
  core ∅ n' /\ fold_left v_pin l (view n, d) = (view n', d').
Proof.
  induction l as [|x l IH]; intros n d Hc Hl; [done|]. apply Forall_cons in Hl as [Hx Hl]. cbn [fold_left].
  pose proof (acquire_spec n d x Hc Hx) as H. destruct (acquire_pin (n, d) x) as [n1 d1]. destruct H as [H1 H2]. rewrite H2. by apply IH.
Qed.

Lemma elem_of_wanted x pins : x ∈ wanted pins <-> exists source s, pins !! source = Some s /\ x ∈ s.
Proof.
  unfold wanted. rewrite elem_of_union_list. split.
  - intros (s & Hs & Hx). apply list_elem_of_fmap in Hs as ([source s'] & -> & Hs). apply elem_of_map_to_list in Hs. by exists source, s'.
  - intros (source & s & Hs & Hx). exists s. split; [|done]. apply list_elem_of_fmap. exists (source, s). split; [done|].
    by apply elem_of_map_to_list.
Qed.

Lemma pins_with_blank source names pins : [] ∉ wanted pins -> [] ∉ wanted (pins_with source names pins).
Proof.
  rewrite !elem_of_wanted. intros H (src & s & Hs & Hx). unfold pins_with in Hs. destruct (decide _) as [He|He].
  - apply lookup_delete_Some in Hs as [_ Hs]. apply H. by exists src, s.
  - apply lookup_insert_Some in Hs as [[_ <-]|[_ Hs]]; [|apply H; by exists src, s].
    apply elem_of_list_to_set, list_elem_of_filter in Hx. tauto.
Qed.

(** What the acquire loop leaves, on the vocabulary. *)
Definition saturated (v : vocab) : Prop := v_observed v = [] /\ nameSetMax <= card (v_names v).

Lemma v_room_none v : v_room v = None <-> saturated v.
Proof.
  unfold v_room, v_full, saturated. destruct (Z.leb_spec nameSetMax (card (v_names v))); [|split; [done|lia]].
  destruct (v_observed v); split; (done || by intros [? ?]).
Qed.

Record pin_step (want : gset bytes) (xs : list bytes) (v : vocab) (d : list bytes) (v' : vocab) (d' : list bytes) : Prop := {
  ps_pins : v_pins v' = v_pins v;
  ps_keeps : v_pinned v ⊆ v_pinned v';
  ps_want : v_pinned v' ⊆ want;
  ps_done : forall x, x ∈ xs -> x ∈ v_pinned v' \/ x ∈ d';
  ps_more : forall x, x ∈ d -> x ∈ d';
  ps_only : forall x, x ∈ d' -> x ∈ d \/ x ∈ xs;
  ps_full : d' = d \/ saturated v';
  ps_stuck : saturated v -> v' = v;
}.

Lemma v_pin_step want v d x : x ∈ want -> v_pinned v ⊆ want -> let '(v', d') := v_pin (v, d) x in pin_step want [x] v d v' d'.
Proof.
  intros Hx Hv. unfold v_pin. destruct (decide (x ∈ v_pinned v)) as [Hp|Hp].
  { split; try done; [|tauto|tauto]. intros y Hy%list_elem_of_singleton. subst. tauto. }
  destruct (if decide _ then _ else _) as [v1|] eqn:Ev.
  - assert (Hk : v_pinned v1 = v_pinned v /\ v_pins v1 = v_pins v).
    { destruct (decide _); [by injection Ev as <-|]. destruct (v_room_keeps _ _ Ev) as (? & ? & _). done. }
    destruct Hk as [Hk1 Hk2]. split; cbn; rewrite ?Hk1; try done; [set_solver|set_solver| |tauto|tauto|].
    + intros y Hy%list_elem_of_singleton. subst. set_solver.
    + intros Hs. destruct Hs as [Ho Hs]. rewrite decide_False in Ev by (rewrite Ho; apply not_elem_of_nil).
      by rewrite (proj2 (v_room_none v)) in Ev.
  - assert (Hs : saturated v) by (destruct (decide _); [done|]; by apply v_room_none). split; try done.
    + intros y Hy%list_elem_of_singleton. subst. right. apply elem_of_app. right. by left.
    + intros y Hy. apply elem_of_app. by left.
    + intros y Hy. by apply elem_of_app in Hy.
    + by right.
Qed.

Lemma v_pins_step want l : forall v d, (forall x, x ∈ l -> x ∈ want) -> v_pinned v ⊆ want ->
  let '(v', d') := fold_left v_pin l (v, d) in pin_step want l v d v' d'.
Proof.
  induction l as [|x l IH]; intros v d Hl Hv; cbn [fold_left].
  { split; try done; [by intros x ?%elem_of_nil|tauto|tauto]. }
  pose proof (v_pin_step want v d x ltac:(apply Hl; by left) Hv) as H1. destruct (v_pin (v, d) x) as [v1 d1].
  destruct H1 as [A1 A2 A3 A4 A5 A6 A7 A8].
  pose proof (IH v1 d1 ltac:(intros y Hy; apply Hl; by right) A3) as H2. destruct (fold_left v_pin l (v1, d1)) as [v' d'].
  destruct H2 as [B1 B2 B3 B4 B5 B6 B7 B8]. split; try done; [congruence|set_solver| | | | |].
  - intros y [->|Hy]%elem_of_cons; [|by apply B4]. destruct (A4 x ltac:(by left)) as [H|H]; [left; by apply B2|right; by apply B5].
  - intros y Hy. by apply B5, A5.
  - intros y Hy. rewrite elem_of_cons. destruct (B6 y Hy) as [H|H]; [|tauto]. destruct (A6 y H) as [H'|H'%list_elem_of_singleton]; tauto.
  - destruct B7 as [->|]; [|by right]. destruct A7 as [->|Hs]; [by left|]. right. by rewrite (B8 Hs).
  - intros Hs. rewrite (A8 Hs) in B8. by apply B8.
Qed.

Lemma setPins_spec walk source names n : wf n -> walk ≡ₚ elements (ns_pinned n) ->
  let '(n', dropped) := setPins walk source names n in
  wf n' /\ v_setPins walk source names (view n) = (view n', dropped).
Proof.
  intros [Hc Hs Hw Hp] Hwalk. unfold setPins, v_setPins. cbn [with_pins ns_pins v_pins v_observed v_pinned view].
  set (pins := pins_with source names (ns_pins n)). set (want := wanted pins). fold want.
  assert (Hblank : [] ∉ want) by by apply pins_with_blank.
  destruct (releases_spec want walk (with_pins pins n)) as [H1 H2].
  { by apply core_pins. } { rewrite Hwalk. apply NoDup_elements. }
  { rewrite Hwalk. apply Forall_forall. intros x Hx. by apply elem_of_elements in Hx. }
  set (n1 := fold_left (release_pin want) walk (with_pins pins n)) in *.
  replace (ns_pinned (with_pins pins n) ∖ _) with (ns_pinned n ∩ want) in H2.
  2: { apply set_eq_names. intros x. cbn. rewrite elem_of_difference, elem_of_list_to_set, list_elem_of_filter, Hwalk, elem_of_elements.
       rewrite elem_of_intersection. destruct (decide (x ∈ want)); tauto. }
  change (observed (with_pins pins n)) with (observed n) in H2. cbn [with_pins ns_pins] in H2. rewrite <- H2.
  pose proof (acquires_spec (sorted_keys want) n1 [] H1) as H3.
  pose proof (v_pins_step want (sorted_keys want) (view n1) []) as H4.
  destruct (fold_left acquire_pin (sorted_keys want) (n1, [])) as [n2 dropped].
  destruct H3 as [H3 H5]. { apply Forall_forall. intros x Hx ->. by apply elem_of_sorted_keys in Hx. }
  rewrite H5 in H4. destruct H4 as [P1 _ P3 _ _ _ _ _]. { intros x. apply elem_of_sorted_keys. } { rewrite H2. cbn. set_solver. }
  destruct (compact_spec n2 H3) as (H6 & H7 & H8 & _). rewrite H5, H7. split; [|done].
  assert (Hpins : ns_pins (compactLocked n2) = pins). { change (v_pins (view (compactLocked n2)) = pins). by rewrite H7, P1, H2. }
  split; [done|done| |by rewrite Hpins]. rewrite Hpins. change (v_pinned (view (compactLocked n2)) ⊆ want). by rewrite H7.
Qed.

(** ** Reachable sets *)

Inductive vocabulary : nameSet -> Prop :=
  | voc_empty : vocabulary emptyNames
  | voc_seed n names : vocabulary n -> vocabulary (seed names n)
  | voc_pins n walk source names : vocabulary n -> walk ≡ₚ elements (ns_pinned n) ->
      vocabulary (setPins walk source names n).1
  | voc_list n : vocabulary n -> vocabulary (list_names n).2.

Lemma empty_wf : wf emptyNames.
Proof.
  split; [|done|cbn; apply empty_subseteq|by intros (? & ? & ? & ?)%elem_of_wanted]. 
  split; try done; [constructor|]. intros x _. split; [intros [H _]; by apply elem_of_empty in H|by intros ?%elem_of_nil].
Qed.

Lemma seed_spec names : forall n, wf n -> wf (seed names n) /\ view (seed names n) = fold_left (fun v x => v_observe x v) names (view n).
Proof.
  induction names as [|x names IH]; intros n Hn; [done|]. cbn [seed fold_left]. destruct (observe_spec x n Hn) as [H1 H2].
  destruct (IH _ H1) as [H3 H4]. by rewrite <- H2.
Qed.

Lemma list_spec n : wf n -> (list_names n).1 = sorted_keys (ns_names n) /\ wf (list_names n).2 /\ view (list_names n).2 = view n.
Proof.
  intros [Hc Hs Hw Hp]. unfold list_names. pose proof (c_cache _ _ Hc) as [Hle Heq].
  destruct (Z.eqb_spec (ns_sortedRevision n) (ns_revision n)) as [He|He]; [by split; [apply Heq|]|].
  split; [done|]. split; [|done]. split; [|done|done|done]. destruct Hc. by split.
Qed.

Lemma vocabulary_wf n : vocabulary n -> wf n.
Proof.
  induction 1 as [|n names _ IH|n walk source names _ IH Hw|n _ IH]; [apply empty_wf|by apply seed_spec| |by apply list_spec].
  pose proof (setPins_spec walk source names n IH Hw) as H. destruct (setPins walk source names n). apply H.
Qed.

(** ** Recency *)

Lemma card_union_names (X Y : gset bytes) : card (X ∪ Y) <= card X + card Y.
Proof.
  unfold card. replace (X ∪ Y) with (X ∪ Y ∖ X) by (apply set_eq_names; intros x; destruct (decide (x ∈ X)); set_solver).
  rewrite size_union by set_solver. pose proof (subseteq_size (Y ∖ X) Y ltac:(set_solver)). lia.
Qed.
Lemma card_subset (X Y : gset bytes) : X ⊆ Y -> card X <= card Y.
Proof. intros H. apply subseteq_size in H. unfold card. lia. Qed.

(** [x] is observed, and everything observed after it is in [T]. *)
Definition recent (T : gset bytes) (x : bytes) (v : vocab) : Prop :=
  exists pre suf, v_observed v = pre ++ x :: suf /\ Forall (fun y => y ∈ T) suf.

Lemma recent_observe T x y v : y ∈ T -> card T + card (v_pinned v) < nameSetMax -> recent T x v ->
  recent T x (v_observe y v) /\ v_pinned (v_observe y v) = v_pinned v.
Proof.
  intros Hy Hroom (pre & suf & Hv & Hsuf). unfold v_observe.
  assert (Hsnoc : forall l, Forall (fun z => z ∈ T) l -> Forall (fun z => z ∈ T) (l ++ [y])).
  { intros l Hl. apply Forall_app. by repeat constructor. }
  destruct (decide (y = [] \/ y ∈ v_pinned v)) as [?|Hn]; [split; [by exists pre, suf|done]|].
  destruct (decide (y ∈ v_observed v)) as [Hin|Hin].
  - split; [|done]. cbn. unfold recent. cbn. rewrite Hv, filter_app, filter_cons. destruct (decide (x <> y)) as [Hne|He].
    + exists (filter (fun z => z <> y) pre), (filter (fun z => z <> y) suf ++ [y]). rewrite <- app_assoc. split; [done|].
      apply Hsnoc. apply Forall_forall. intros z [_ Hz]%list_elem_of_filter. rewrite Forall_forall in Hsuf. by apply Hsuf.
    + assert (x = y) as -> by (destruct (decide (x = y)); tauto). by eexists _, [].
  - destruct (v_room v) as [v'|] eqn:Er.
    + destruct (v_room_keeps v v' Er) as (Hp & _ & k & Hk). split; [|done]. cbn.
      assert (Hpre : exists pre', v_observed v' = pre' ++ x :: suf).
      { unfold v_room in Er. destruct (v_full v) eqn:Ef; [|injection Er as <-; by exists pre].
        rewrite Hv in Er. destruct pre as [|z pre]; cbn in Er; injection Er as <-; cbn; [exfalso|by exists pre].
        unfold v_full in Ef. apply Z.leb_le in Ef. unfold v_names in Ef. rewrite Hv in Ef.
        assert (Hsub : list_to_set ([] ++ x :: suf) ∪ v_pinned v ⊆ {[x]} ∪ T ∖ {[y]} ∪ v_pinned v).
        { intros z. rewrite Hv in Hin. rewrite Forall_forall in Hsuf. rewrite !elem_of_union, elem_of_list_to_set, elem_of_difference, !elem_of_singleton.
          intros [Hz|?]; [|tauto]. left. apply elem_of_cons in Hz as [->|Hz]; [tauto|]. right. split; [by apply Hsuf|]. intros ->.
          apply Hin. cbn. by right. }
        apply card_subset in Hsub. pose proof (card_union_names ({[x]} ∪ T ∖ {[y]}) (v_pinned v)).
        pose proof (card_union_names {[x]} (T ∖ {[y]})). rewrite (card_remove y T Hy) in *. unfold card in *. rewrite size_singleton in *. lia. }
      destruct Hpre as [pre' Hpre']. exists pre', (suf ++ [y]). cbn. rewrite Hpre', <- app_assoc. split; [done|]. by apply Hsnoc.
    + apply v_room_none in Er as [Er _]. rewrite Hv in Er. by destruct pre.
Qed.

Lemma recent_seed T x traffic : forall v, Forall (fun y => y ∈ T) traffic -> card T + card (v_pinned v) < nameSetMax ->
  recent T x v -> recent T x (fold_left (fun v y => v_observe y v) traffic v).
Proof.
  induction traffic as [|y traffic IH]; intros v Hin Hroom Hr; [done|]. apply Forall_cons in Hin as [Hy Hin]. cbn [fold_left].
  destruct (recent_observe T x y v Hy Hroom Hr) as [H1 H2]. apply IH; [done|by rewrite H2|done].
Qed.

Lemma observe_pinned x v : v_pinned (v_observe x v) = v_pinned v.
Proof.
  unfold v_observe. repeat destruct (decide _); try done. destruct (v_room v) as [v'|] eqn:Er; [|done]. cbn.
  by destruct (v_room_keeps v v' Er).
Qed.
Lemma seed_pinned traffic : forall v, v_pinned (fold_left (fun v y => v_observe y v) traffic v) = v_pinned v.
Proof. induction traffic as [|y traffic IH]; intros v; [done|]. cbn [fold_left]. by rewrite IH, observe_pinned. Qed.

(** ** Properties *)

(** C28. The operator-known vocabulary implements its description: a list of
    observed names from the least to the most recently observed, and a set of
    pinned ones. In every set the process can build, with any walk of Go's maps:
    an observation moves a name to the newest position and, in a full set,
    displaces the oldest observed name and never a pinned one; a change of one
    document family's pins releases and acquires exactly what the description
    says; the listing is the sorted vocabulary although it is cached; at most
    4096 names are stored, and the order list with its stale entries stays
    proportional to them. *)
Theorem nameSet_refines n : vocabulary n ->
  (forall name, view (add name n) = v_observe name (view n)) /\
  (forall walk source names, walk ≡ₚ elements (ns_pinned n) ->
    (view (setPins walk source names n).1, (setPins walk source names n).2) = v_setPins walk source names (view n)) /\
  (list_names n).1 = sorted_keys (v_names (view n)) /\
  card (v_names (view n)) <= nameSetMax /\ short n.
Proof.
  intros Hn%vocabulary_wf. split; [intros name; by apply observe_spec|]. split.
  { intros walk source names Hw. pose proof (setPins_spec walk source names n Hn Hw) as H.
    destruct (setPins walk source names n). destruct H as [_ H]. by rewrite H. }
  rewrite names_view by apply Hn. split; [by apply list_spec|]. split; [apply (w_core _ Hn)|apply Hn].
Qed.

(** Operator intent outranks traffic. After a document family's names
    change, each of them is listed or reported as dropped, and one is dropped
    only when all 4096 names are pinned; every pinned name is in the scope of a
    live document; and no traffic unpins or unlists one. A name observed once
    stays listed as long as the distinct names observed since leave room beside
    the pinned ones, however long the flood. *)
Theorem pins_outrank_traffic n walk source names traffic : vocabulary n -> walk ≡ₚ elements (ns_pinned n) ->
  let n' := (setPins walk source names n).1 in let dropped := (setPins walk source names n).2 in
  (forall x, x ∈ names -> x <> [] -> x ∈ ns_pinned n' \/ x ∈ dropped) /\
  (dropped <> [] -> ns_names n' = ns_pinned n' /\ card (ns_names n') = nameSetMax) /\
  (forall x, x ∈ ns_pinned n' -> exists family s, ns_pins n' !! family = Some s /\ x ∈ s) /\
  (forall x, x ∈ ns_pinned n' -> x ∈ (list_names (seed traffic n')).1) /\
  (forall x, x <> [] -> card (list_to_set traffic) + card (ns_pinned n') < nameSetMax ->
    x ∈ (list_names (seed traffic (add x n'))).1).
Proof.
  intros Hn%vocabulary_wf Hw n' dropped. pose proof (setPins_spec walk source names n Hn Hw) as Hset.
  unfold n', dropped. destruct (setPins walk source names n) as [n1 d] eqn:Es. destruct Hset as [Hn1 Hv]. cbn [fst snd].
  unfold v_setPins in Hv. set (pins := pins_with source names (v_pins (view n))) in Hv.
  pose proof (v_pins_step (wanted pins) (sorted_keys (wanted pins))) as Hstep.
  specialize (Hstep (Vocab (v_observed (view n) ++ filter (fun x => x ∉ wanted pins) walk) (v_pinned (view n) ∩ wanted pins) pins) []).
  rewrite Hv in Hstep. destruct Hstep as [P1 _ _ P4 _ _ P7 _]. { intros x. apply elem_of_sorted_keys. } { cbn. set_solver. }
  cbn in P1, P4. split; [|split; [|split; [|split]]].
  - intros x Hx Hne. apply P4. apply elem_of_sorted_keys, elem_of_wanted. unfold pins, pins_with.
    set (clean := list_to_set _). assert (Hc : x ∈ clean) by (by apply elem_of_list_to_set, list_elem_of_filter).
    rewrite decide_False by set_solver. exists source, clean. by rewrite lookup_insert_eq.
  - intros Hd. destruct P7 as [->|[Ho Hs]]; [done|]. rewrite names_view in Hs by apply Hn1.
    pose proof (c_size _ _ (w_core _ Hn1)). split; [|lia]. rewrite <- (names_view n1) at 1 by apply Hn1. unfold v_names.
    rewrite Ho. cbn. set_solver.
  - intros x Hx. apply elem_of_wanted. by apply (w_wanted _ Hn1).
  - intros x Hx. destruct (seed_spec traffic n1 Hn1) as [Hs1 Hs2]. rewrite (proj1 (list_spec _ Hs1)), elem_of_sorted_keys.
    apply (c_pinned _ _ (w_core _ Hs1)). change (x ∈ v_pinned (view (seed traffic n1))). by rewrite Hs2, seed_pinned.
  - intros x Hx Hroom. destruct (observe_spec x n1 Hn1) as [Ha1 Ha2]. fold (add x n1) in *. destruct (seed_spec traffic _ Ha1) as [Hs1 Hs2].
    rewrite (proj1 (list_spec _ Hs1)), elem_of_sorted_keys, <- (names_view _ (w_core _ Hs1)), Hs2, Ha2. unfold v_names.
    destruct (decide (x ∈ ns_pinned n1)) as [Hp|Hp].
    { apply elem_of_union. right. by rewrite seed_pinned, observe_pinned. }
    assert (Hr : recent (list_to_set traffic) x (v_observe x (view n1))).
    { unfold v_observe. rewrite decide_False by (cbn; tauto). destruct (decide _); [by eexists _, []|].
      destruct (v_room (view n1)) as [v|] eqn:Er; [by eexists _, []|]. exfalso. apply v_room_none in Er as [Ho Hf]. unfold v_names in Hf.
      rewrite Ho in Hf. cbn in Hf. pose proof (card_union_names ∅ (ns_pinned n1)). unfold card in *. rewrite size_empty in *. lia. }
    apply (recent_seed _ _ traffic) in Hr as (pre & suf & Ho & _).
    + rewrite Ho. apply elem_of_union. left. apply elem_of_list_to_set. set_solver.
    + apply Forall_forall. intros y. apply elem_of_list_to_set.
    + by rewrite observe_pinned.
Qed.

Lemma nameSet_refines_witness :
  let n := seed [[1]; [2]; [1]] emptyNames in
  view (add [2] n) = v_observe [2] (view n) /\ v_observed (view (add [2] n)) = [[1]; [2]].
Proof.
  intros n. assert (Hn : vocabulary n) by (apply voc_seed, voc_empty).
  destruct (nameSet_refines n Hn) as [H _]. split; [exact (H [2])|vm_compute; reflexivity].
Defined.

Lemma pins_outrank_traffic_witness :
  let n := seed [[1]; [2]] emptyNames in
  [7] ∈ (list_names (seed [[3]; [4]] (setPins [] (str "pause") [[7]; []; [2]] n).1)).1.
Proof.
  intros n. assert (Hn : vocabulary n) by (apply voc_seed, voc_empty).
  destruct (pins_outrank_traffic n [] (str "pause") [[7]; []; [2]] [[3]; [4]] Hn ltac:(vm_compute; constructor)) as (_ & _ & _ & H & _).
  apply H. apply (bool_decide_unpack _). vm_compute. exact I.
Defined.
