(* ===== verification/Persist.v ===== *)
(** proxy/throttle.go: how provider caps reach the store - the generation
    counters, the write loops that overlap, the one background writer, flush and
    close, as steps that interleave. *)

From S2P Require Import Prelude.

(** Who runs the write loop: an operator edit, the background writer, a flush or
    a close. The last two hold [persistMu] exclusively. *)
Inductive caller := Edit | Writer | Flush | Close.
#[export] Instance caller_eq_dec : EqDecision caller.
Proof. solve_decision. Defined.
Definition exclusive (c : caller) : bool := match c with Flush | Close => true | Edit | Writer => false end.

Section persister.
(** What latestThrottleSnap captures. *)
Context {doc : Type}.

(** ** The write loop: persistThrottleLatestLocked *)

(** Where it is: about to read the generation; about to snapshot; writing;
    about to compare the generation again, with the write's outcome. *)
Inductive place := AtRead | AtSnap (gen : Z) | AtWrite (gen : Z) (snap : doc) | AtCheck (gen : Z) (failed : bool).
Record loop := Loop { l_caller : caller; l_rewrite : bool; l_place : place }.

(** throttleRuntime, the policy the scheduler holds and the stored document.
    [t_applied] counts the changes of the policy whose generation is still to be
    counted; [t_marks] the signals still to be sent, and [t_marked] is the
    generation of the newest header change. *)
Inductive writer := NotStarted | Waiting | Quiet | Persisting | Retrying | Stopped.
Record throttleRuntime := Runtime {
  t_persist : bool;
  t_persistGen : Z;
  t_persistedGen : Z;
  t_started : bool;
  t_closed : bool;
  t_wake : bool;
  t_writer : writer;
  t_backoff : Z;
  t_policy : doc;
  t_store : doc;
  t_applied : nat;
  t_marks : nat;
  t_marked : Z;
  t_loops : gmap nat loop;
}.

Definition throttlePersistRetryMin : Z := 100000000.
Definition throttlePersistRetryMax : Z := 30000000000.

Definition set_gens (gen persisted : Z) (t : throttleRuntime) : throttleRuntime :=
  Runtime (t_persist t) gen persisted (t_started t) (t_closed t) (t_wake t) (t_writer t) (t_backoff t) (t_policy t)
    (t_store t) (t_applied t) (t_marks t) (t_marked t) (t_loops t).
Definition set_writer (w : writer) (t : throttleRuntime) : throttleRuntime :=
  Runtime (t_persist t) (t_persistGen t) (t_persistedGen t) (t_started t) (t_closed t) (t_wake t) w (t_backoff t)
    (t_policy t) (t_store t) (t_applied t) (t_marks t) (t_marked t) (t_loops t).
Definition set_wake (b : bool) (t : throttleRuntime) : throttleRuntime :=
  Runtime (t_persist t) (t_persistGen t) (t_persistedGen t) (t_started t) (t_closed t) b (t_writer t) (t_backoff t)
    (t_policy t) (t_store t) (t_applied t) (t_marks t) (t_marked t) (t_loops t).
Definition set_backoff (d : Z) (t : throttleRuntime) : throttleRuntime :=
  Runtime (t_persist t) (t_persistGen t) (t_persistedGen t) (t_started t) (t_closed t) (t_wake t) (t_writer t) d
    (t_policy t) (t_store t) (t_applied t) (t_marks t) (t_marked t) (t_loops t).
Definition set_store (d : doc) (t : throttleRuntime) : throttleRuntime :=
  Runtime (t_persist t) (t_persistGen t) (t_persistedGen t) (t_started t) (t_closed t) (t_wake t) (t_writer t)
    (t_backoff t) (t_policy t) d (t_applied t) (t_marks t) (t_marked t) (t_loops t).
Definition set_loops (ls : gmap nat loop) (t : throttleRuntime) : throttleRuntime :=
  Runtime (t_persist t) (t_persistGen t) (t_persistedGen t) (t_started t) (t_closed t) (t_wake t) (t_writer t)
    (t_backoff t) (t_policy t) (t_store t) (t_applied t) (t_marks t) (t_marked t) ls.
Definition set_marks (n : nat) (t : throttleRuntime) : throttleRuntime :=
  Runtime (t_persist t) (t_persistGen t) (t_persistedGen t) (t_started t) (t_closed t) (t_wake t) (t_writer t)
    (t_backoff t) (t_policy t) (t_store t) (t_applied t) n (t_marked t) (t_loops t).

(** A turn of the loop goes on or returns, with the error it returns. *)
Inductive turn := Goes (t : throttleRuntime) (l : loop) | Returns (t : throttleRuntime) (failed : bool).

Definition loop_read (t : throttleRuntime) (l : loop) : turn :=
  let gen := t_persistGen t in
  if (gen =? t_persistedGen t) && negb (l_rewrite l) then Returns t false
  else if negb (t_persist t) then Returns t false
  else Goes t (Loop (l_caller l) (l_rewrite l) (AtSnap gen)).

Definition loop_check (t : throttleRuntime) (l : loop) (gen : Z) (failed : bool) : turn :=
  if t_persistGen t =? gen then
    if failed then Returns t true else Returns (set_gens (t_persistGen t) gen t) false
  else Goes t (Loop (l_caller l) true AtRead).

(** ** The other sections *)

(** UpdateThrottle changed the policy; its caller has still to count it. *)
Definition apply_policy (p : doc) (t : throttleRuntime) : throttleRuntime :=
  Runtime (t_persist t) (t_persistGen t) (t_persistedGen t) (t_started t) (t_closed t) (t_wake t) (t_writer t)
    (t_backoff t) p (t_store t) (S (t_applied t)) (t_marks t) (t_marked t) (t_loops t).
(** persistThrottleSync's section, before its loop. *)
Definition count_edit (t : throttleRuntime) : throttleRuntime :=
  Runtime (t_persist t) (t_persistGen t + 1) (t_persistedGen t) (t_started t) (t_closed t) (t_wake t) (t_writer t)
    (t_backoff t) (t_policy t) (t_store t) (pred (t_applied t)) (t_marks t) (t_marked t) (t_loops t).

Definition start_writer (t : throttleRuntime) : throttleRuntime :=
  Runtime (t_persist t) (t_persistGen t) (t_persistedGen t) true (t_closed t) (t_wake t) Waiting (t_backoff t) (t_policy t)
    (t_store t) (t_applied t) (t_marks t) (t_marked t) (t_loops t).
(** markThrottleDirty's section; the goroutine it starts waits first. *)
Definition markThrottleDirty (t : throttleRuntime) : throttleRuntime :=
  let t := Runtime (t_persist t) (t_persistGen t + 1) (t_persistedGen t) (t_started t) (t_closed t) (t_wake t) (t_writer t)
    (t_backoff t) (t_policy t) (t_store t) (pred (t_applied t)) (S (t_marks t)) (t_persistGen t + 1) (t_loops t) in
  if negb (t_closed t) && negb (t_started t) && t_persist t then start_writer t else t.
Definition signal (t : throttleRuntime) : throttleRuntime := set_wake true (set_marks (pred (t_marks t)) t).
Definition attach (t : throttleRuntime) : throttleRuntime :=
  Runtime true (t_persistGen t) (t_persistedGen t) (t_started t) (t_closed t) (t_wake t) (t_writer t)
    (t_backoff t) (t_policy t) (t_store t) (t_applied t) (t_marks t) (t_marked t) (t_loops t).
Definition startThrottleWriterIfDirty (t : throttleRuntime) : throttleRuntime :=
  if negb (t_closed t) && negb (t_started t) && t_persist t && negb (t_persistGen t =? t_persistedGen t)
  then set_marks (S (t_marks t)) (start_writer t) else t.
Definition close_section (t : throttleRuntime) : throttleRuntime :=
  Runtime (t_persist t) (t_persistGen t) (t_persistedGen t) (t_started t) true (t_wake t) (t_writer t)
    (t_backoff t) (t_policy t) (t_store t) (t_applied t) (t_marks t) (t_marked t) (t_loops t).

(** waitThrottleRetry after its timer. *)
Definition next_backoff (d : Z) : Z := if throttlePersistRetryMax <? d * 2 then throttlePersistRetryMax else d * 2.

(** The writer takes a wake, and its debounce starts anew. *)
Definition woken (t : throttleRuntime) : throttleRuntime := set_writer Quiet (set_wake false t).
(** It calls persistThrottleLatest, [d] being its next backoff. *)
Definition persisting (i : nat) (d : Z) (t : throttleRuntime) : throttleRuntime :=
  set_backoff d (set_writer Persisting (set_loops (<[i := Loop Writer false AtRead]> (t_loops t)) t)).

(** What a return does to the caller: the writer waits again or backs off. *)
Definition returned (c : caller) (failed : bool) (t : throttleRuntime) : throttleRuntime :=
  match c with Writer => set_writer (if failed then Retrying else Waiting) t | _ => t end.

(** persistMu: an exclusive holder is alone. *)
Definition can_lock (c : caller) (ls : gmap nat loop) : Prop :=
  if exclusive c then ls = ∅ else map_Forall (fun _ l => exclusive (l_caller l) = false) ls.

Definition turned (i : nat) (c : caller) (r : turn) : throttleRuntime :=
  match r with
  | Goes t l => set_loops (<[i := l]> (t_loops t)) t
  | Returns t failed => returned c failed (set_loops (delete i (t_loops t)) t)
  end.
Definition loop_turn (t : throttleRuntime) (l : loop) : option turn :=
  match l_place l with
  | AtRead => Some (loop_read t l)
  | AtCheck gen failed => Some (loop_check t l gen failed)
  | _ => None
  end.
Definition turn_failed (r : turn) : bool := match r with Returns _ failed => failed | Goes _ _ => false end.

(** ** Runs

    The flag of a step tells that a loop that had been superseded gave up: its
    context ended or its last write failed. *)
Inductive step : bool -> throttleRuntime -> throttleRuntime -> Prop :=
  | step_apply t p : step false t (apply_policy p t)
  | step_count t : t_applied t <> 0%nat -> step false t (count_edit t)
  | step_mark t : t_applied t <> 0%nat -> step false t (markThrottleDirty t)
  | step_signal t : t_marks t <> 0%nat -> step false t (signal t)
  | step_attach t : t_persistGen t = 0 -> t_applied t = 0%nat -> step false t (attach t)
  | step_start t : step false t (startThrottleWriterIfDirty t)
  | step_close t : step false t (close_section t)
  (* a loop *)
  | step_call t i c : c <> Writer -> t_loops t !! i = None -> can_lock c (t_loops t) ->
      (c = Close -> t_closed t = true /\ (t_started t = true -> t_writer t = Stopped)) ->
      step false t (set_loops (<[i := Loop c false AtRead]> (t_loops t)) t)
  | step_turn t i l r : t_loops t !! i = Some l -> loop_turn t l = Some r ->
      step (turn_failed r && l_rewrite l) t (turned i (l_caller l) r)
  | step_expired t i l gen : t_loops t !! i = Some l -> l_place l = AtSnap gen -> l_caller l <> Writer ->
      step (l_rewrite l) t (turned i (l_caller l) (Returns t true))
  | step_snap t i l gen : t_loops t !! i = Some l -> l_place l = AtSnap gen ->
      step false t (turned i (l_caller l) (Goes t (Loop (l_caller l) (l_rewrite l) (AtWrite gen (t_policy t)))))
  | step_written t i l gen snap failed : t_loops t !! i = Some l -> l_place l = AtWrite gen snap ->
      step false t (set_store snap (turned i (l_caller l) (Goes t (Loop (l_caller l) (l_rewrite l) (AtCheck gen failed)))))
  | step_unwritten t i l gen snap : t_loops t !! i = Some l -> l_place l = AtWrite gen snap ->
      step false t (turned i (l_caller l) (Goes t (Loop (l_caller l) (l_rewrite l) (AtCheck gen true))))
  (* the background writer *)
  | step_wake t : t_writer t = Waiting \/ t_writer t = Quiet -> t_wake t = true -> step false t (woken t)
  | step_quiet t i : t_writer t = Quiet -> t_loops t !! i = None -> can_lock Writer (t_loops t) ->
      step false t (persisting i throttlePersistRetryMin t)
  | step_retry t i : t_writer t = Retrying -> t_loops t !! i = None -> can_lock Writer (t_loops t) ->
      step false t (persisting i (next_backoff (t_backoff t)) t)
  | step_stop t : t_closed t = true -> t_writer t = Waiting \/ t_writer t = Quiet \/ t_writer t = Retrying ->
      step false t (set_writer Stopped t).

(** A process that restored [d] from its store, or found none and keeps [d]. *)
Definition initial (d : doc) : throttleRuntime := Runtime false 0 0 false false false NotStarted 0 d d 0 0 0 ∅.

Inductive run (d : doc) : bool -> throttleRuntime -> Prop :=
  | run_init : run d false (initial d)
  | run_step b b' t t' : run d b t -> step b' t t' -> run d (b || b') t'.
End persister.
#[global] Arguments throttleRuntime : clear implicits.
#[global] Arguments place : clear implicits.
#[global] Arguments loop : clear implicits.
#[global] Arguments turn : clear implicits.

(** ** What holds of every run *)

Section invariant.
Context {doc : Type}.
Implicit Types (t : throttleRuntime doc) (l : loop doc).

Definition ver t : Z := t_persistGen t + Z.of_nat (t_applied t).
Definition at_ver (h : list doc) (v : Z) (d : doc) : Prop := 0 <= v /\ h !! Z.to_nat v = Some d.

(** A loop that will write again, or whose last write is not older than the store. *)
Definition obliged (sv : Z) l : Prop :=
  l_rewrite l = true \/ exists g failed, l_place l = AtCheck g failed /\ g <= sv.

(** The store is not older than [bound], or the loop [o] that wrote it last will
    renew it; [o] does not vouch for itself. *)
Definition covered (sv : Z) (o : nat) (ls : gmap nat (loop doc)) (i : option nat) (bound : Z) : Prop :=
  bound <= sv \/ i <> Some o /\ exists l, ls !! o = Some l /\ obliged sv l.

Definition place_ok (h : list doc) t (sv : Z) (o i : nat) (p : place doc) : Prop :=
  match p with
  | AtRead => True
  | AtSnap g => g <= t_persistGen t
  | AtWrite g d => g <= t_persistGen t /\ exists v, g <= v <= ver t /\ at_ver h v d
  | AtCheck g failed => g <= t_persistGen t /\ (failed = false -> covered sv o (t_loops t) (Some i) g)
  end.

(** [h] is the history of the policy, [sv] the version the store holds and [o]
    the loop that wrote it. *)
Record durable (h : list doc) (sv : Z) (o : nat) t : Prop := {
  du_len : Z.of_nat (length h) = ver t + 1;
  du_policy : at_ver h (ver t) (t_policy t);
  du_store : at_ver h sv (t_store t);
  du_ver : sv <= ver t;
  du_gens : 0 <= t_persistedGen t <= t_persistGen t;
  du_covered : covered sv o (t_loops t) None (t_persistedGen t);
  du_places : forall i l, t_loops t !! i = Some l -> place_ok h t sv o i (l_place l);
  du_target : forall i l, t_loops t !! i = Some l -> l_rewrite l = true \/ l_place l <> AtRead -> t_persist t = true;
  du_alone : forall i l, t_loops t !! i = Some l -> exclusive (l_caller l) = true -> t_loops t = {[i := l]};
}.

Lemma at_ver_app h v d x : at_ver h v d -> at_ver (h ++ [x]) v d.
Proof. intros [H1 H2]. split; [done|]. by apply lookup_app_l_Some. Qed.

Lemma place_ok_same h t t' sv o i p : t_persistGen t = t_persistGen t' -> t_applied t = t_applied t' -> t_loops t = t_loops t' ->
  place_ok h t sv o i p -> place_ok h t' sv o i p.
Proof. unfold place_ok, ver. by intros -> -> ->. Qed.

(** Steps that touch neither the policy nor the loops nor the store. *)
Lemma durable_same h sv o t t' : durable h sv o t ->
  (t_persistGen t', t_persistedGen t', t_applied t', t_loops t', t_policy t', t_store t') =
    (t_persistGen t, t_persistedGen t, t_applied t, t_loops t, t_policy t, t_store t) ->
  (t_persist t = true -> t_persist t' = true) -> durable h sv o t'.
Proof.
  intros [] [= H1 H2 H3 H4 H5 H6] Hp. unfold ver in *. split; unfold ver; rewrite ?H1, ?H2, ?H3, ?H4, ?H5, ?H6; try done; try lia.
  - intros i l Hl. specialize (du_places0 i l Hl). by eapply place_ok_same.
  - intros i l Hl Hr. by apply Hp, (du_target0 i l).
Qed.

Lemma covered_insert sv o ls i l l' k bound : ls !! i = Some l -> (obliged sv l -> obliged sv l') ->
  covered sv o ls k bound -> covered sv o (<[i := l']> ls) k bound.
Proof.
  intros Hi Ho [?|(Hk & m & Hm & Hom)]; [by left|]. right. split; [done|]. destruct (decide (i = o)) as [->|Hne].
  - exists l'. rewrite lookup_insert_eq. split; [done|]. apply Ho. congruence.
  - exists m. by rewrite lookup_insert_ne.
Qed.

Lemma place_ok_loops h t sv o i p ls : (forall k bound, covered sv o (t_loops t) k bound -> covered sv o ls k bound) ->
  place_ok h t sv o i p -> place_ok h (set_loops ls t) sv o i p.
Proof. intros Hc. destruct p as [|g|g d|g failed]; [done|done|done|]. intros [H1 H2]. split; [done|]. intros Hf. by apply Hc, H2. Qed.

(** A loop goes on. *)
Lemma durable_goes h sv o t i l l' : durable h sv o t -> t_loops t !! i = Some l -> l_caller l' = l_caller l ->
  (obliged sv l -> obliged sv l') -> place_ok h t sv o i (l_place l') ->
  (l_rewrite l' = true \/ l_place l' <> AtRead -> t_persist t = true) ->
  durable h sv o (set_loops (<[i := l']> (t_loops t)) t).
Proof.
  intros [] Hi Hc Ho Hp Ht. assert (Hcov : forall k b, covered sv o (t_loops t) k b -> covered sv o (<[i := l']> (t_loops t)) k b).
  { intros k b. by eapply covered_insert. }
  split; try done; [by apply Hcov| | |]; cbn [t_loops set_loops]; intros j m Hm.
  - apply lookup_insert_Some in Hm as [[<- <-]|[Hne Hm]]; apply place_ok_loops; try done. by apply du_places0.
  - apply lookup_insert_Some in Hm as [[<- <-]|[Hne Hm]]; [done|by eapply du_target0].
  - apply lookup_insert_Some in Hm as [[<- <-]|[Hne Hm]].
    + rewrite Hc. intros He. rewrite (du_alone0 i l Hi He). by rewrite insert_singleton_eq.
    + intros He. pose proof (du_alone0 j m Hm He) as Hs. rewrite Hs in Hi. by rewrite lookup_singleton_ne in Hi.
Qed.

(** A loop returns; the one that wrote the store last only when nothing is newer. *)
Lemma durable_return h sv o t i l : durable h sv o t -> t_loops t !! i = Some l ->
  (i = o -> obliged sv l -> t_persistGen t <= sv) -> durable h sv o (set_loops (delete i (t_loops t)) t).
Proof.
  intros [] Hi Ho. assert (Hcov : forall k b, b <= t_persistGen t -> covered sv o (t_loops t) k b -> covered sv o (delete i (t_loops t)) k b).
  { intros k b Hb [?|(Hk & m & Hm & Hom)]; [by left|]. destruct (decide (i = o)) as [->|Hne].
    - left. replace m with l in * by congruence. specialize (Ho eq_refl Hom). lia.
    - right. split; [done|]. exists m. by rewrite lookup_delete_ne. }
  split; try done; [apply Hcov; [apply du_gens0|done]| | |]; cbn [t_loops set_loops]; intros j m [Hne Hm]%lookup_delete_Some.
  - specialize (du_places0 j m Hm). destruct (l_place m) as [|g|g d|g failed]; try done. destruct du_places0 as [H1 H2].
    split; [done|]. intros Hf. apply Hcov; [done|by apply H2].
  - by eapply du_target0.
  - intros He. pose proof (du_alone0 j m Hm He) as Hs. rewrite Hs in Hi. by rewrite lookup_singleton_ne in Hi.
Qed.

(** The policy changes, or a change is counted. *)
Lemma durable_applied h sv o t p : durable h sv o t -> durable (h ++ [p]) sv o (apply_policy p t).
Proof.
  intros []. assert (Hv : ver (apply_policy p t) = ver t + 1) by (unfold ver; cbn [apply_policy t_persistGen t_applied]; lia).
  split; try done.
  - rewrite length_app, Hv. cbn. lia.
  - rewrite Hv. destruct du_policy0 as [H0 _]. split; [lia|]. rewrite lookup_app_r by lia.
    by replace (Z.to_nat (ver t + 1) - length h)%nat with 0%nat by lia.
  - by apply at_ver_app.
  - lia.
  - intros i l Hl. specialize (du_places0 i l Hl). destruct (l_place l) as [|g|g d|g failed]; try done.
    destruct du_places0 as (H1 & v & H2 & H3). split; [done|]. exists v. split; [lia|by apply at_ver_app].
Qed.

Lemma durable_counted h sv o t t' : durable h sv o t -> t_applied t <> 0%nat ->
  (t_persistGen t', t_persistedGen t', t_applied t', t_loops t', t_policy t', t_store t', t_persist t') =
    (t_persistGen t + 1, t_persistedGen t, pred (t_applied t), t_loops t, t_policy t, t_store t, t_persist t) -> durable h sv o t'.
Proof.
  intros [] Hn [= H1 H2 H3 H4 H5 H6 H7]. assert (Hv : ver t' = ver t) by (unfold ver; rewrite H1, H3; lia).
  split; rewrite ?Hv, ?H1, ?H2, ?H4, ?H5, ?H6, ?H7; try done; [lia|].
  intros i l Hl. specialize (du_places0 i l Hl). unfold place_ok in *. rewrite Hv, H1, H4. destruct (l_place l); [done|lia| |].
  - destruct du_places0 as [? ?]. split; [lia|done].
  - destruct du_places0 as [? ?]. split; [lia|done].
Qed.

(** A write lands. *)
Lemma durable_landed h sv o t i l g d failed : durable h sv o t -> t_loops t !! i = Some l -> l_place l = AtWrite g d -> exists sv',
  durable h sv' i (set_store d (set_loops (<[i := Loop (l_caller l) (l_rewrite l) (AtCheck g failed)]> (t_loops t)) t)).
Proof.
  intros [] Hi Hp. pose proof (du_places0 i l Hi) as Hpl. rewrite Hp in Hpl. destruct Hpl as (Hg & v & Hv & Hat). exists v.
  set (l' := Loop _ _ _). assert (Hob : obliged v l') by (right; exists g, failed; split; [done|lia]).
  assert (Hcov : forall k b, k <> Some i -> covered v i (<[i := l']> (t_loops t)) k b).
  { intros k b Hk. right. split; [done|]. exists l'. by rewrite lookup_insert_eq. }
  split; try done; [apply Hv|by apply Hcov| | |]; cbn [t_loops set_loops set_store]; intros j m Hm.
  - apply lookup_insert_Some in Hm as [[<- <-]|[Hne Hm]]; [split; [done|]; intros _; left; lia|].
    specialize (du_places0 j m Hm). destruct (l_place m) as [|g'|g' d'|g' f']; try done. destruct du_places0 as [H1 H2].
    split; [done|]. intros _. apply Hcov. congruence.
  - apply lookup_insert_Some in Hm as [[<- <-]|[Hne Hm]]; [|by eapply du_target0]. intros _. eapply (du_target0 i l Hi). right. by rewrite Hp.
  - apply lookup_insert_Some in Hm as [[<- <-]|[Hne Hm]].
    + intros He. rewrite (du_alone0 i l Hi He). by rewrite insert_singleton_eq.
    + intros He. pose proof (du_alone0 j m Hm He) as Hs. rewrite Hs in Hi. by rewrite lookup_singleton_ne in Hi.
Qed.

Lemma durable_returned h sv o t c failed : durable h sv o t -> durable h sv o (returned c failed t).
Proof. intros H. destruct c; try done. by eapply durable_same. Qed.

Lemma durable_turn h sv o t i l r : durable h sv o t -> t_loops t !! i = Some l -> loop_turn t l = Some r ->
  turn_failed r && l_rewrite l = false -> durable h sv o (turned i (l_caller l) r).
Proof.
  intros Hd Hi Hr Hf. pose proof (du_places _ _ _ _ Hd i l Hi) as Hp. pose proof (du_target _ _ _ _ Hd i l Hi) as Ht.
  unfold loop_turn in Hr. destruct (l_place l) as [|g|g d|g failed] eqn:Epl; try done; injection Hr as <-.
  - assert (Hno : l_rewrite l = false -> durable h sv o (turned i (l_caller l) (Returns t false))).
    { intros Hrw. apply durable_returned, (durable_return h sv o t i l Hd Hi). intros _ [?|(g & f & Hpl & _)]; congruence. }
    unfold loop_read in *. destruct ((t_persistGen t =? t_persistedGen t) && negb (l_rewrite l)) eqn:E1.
    { apply andb_true_iff in E1 as [_ E1%negb_true_iff]. by apply Hno. }
    destruct (negb (t_persist t)) eqn:E2.
    { apply negb_true_iff in E2. apply Hno. destruct (l_rewrite l); [|done]. rewrite Ht in E2 by auto. done. }
    apply negb_false_iff in E2. apply (durable_goes h sv o t i l _ Hd Hi); try done.
    + intros [?|(g & f & Hpl & _)]; [by left|congruence].
    + cbn. lia.
  - destruct Hp as [Hg Hcov]. unfold loop_check in *. destruct (Z.eqb_spec (t_persistGen t) g) as [Heq|Hne].
    + destruct failed; cbn [turn_failed andb] in Hf.
      { apply durable_returned, (durable_return h sv o t i l Hd Hi). intros _ [?|(g' & f & Hpl & Hle)]; [congruence|].
        rewrite Epl in Hpl. injection Hpl as <- <-. lia. }
      specialize (Hcov eq_refl). apply durable_returned.
      assert (Hd' : durable h sv o (set_loops (delete i (t_loops t)) t)).
      { apply (durable_return h sv o t i l Hd Hi). intros -> _. destruct Hcov as [?|[? _]]; [lia|done]. }
      destruct Hd'. split; try done; cbn [set_gens set_loops t_persistGen t_persistedGen t_loops t_persist] in *.
      * pose proof (du_gens _ _ _ _ Hd). lia.
      * destruct Hcov as [?|[Hne (m & Hm & Hom)]]; [by left|]. right. split; [done|]. exists m.
        rewrite lookup_delete_ne by congruence. done.
    + apply (durable_goes h sv o t i l _ Hd Hi); try done; [by left|]. intros _. apply Ht. right. congruence.
Qed.

Lemma durable_init d : durable [d] 0 0 (initial d).
Proof. split; try done; cbn; try lia; by left. Qed.

Lemma durable_call h sv o t i c : durable h sv o t -> t_loops t !! i = None -> can_lock c (t_loops t) ->
  durable h sv o (set_loops (<[i := Loop c false AtRead]> (t_loops t)) t).
Proof.
  intros Hd Hi Hlock. set (l' := Loop c false AtRead).
  assert (Hcov : forall k b, covered sv o (t_loops t) k b -> covered sv o (<[i := l']> (t_loops t)) k b).
  { intros k b [?|[Hk (m & Hm & Hom)]]; [by left|]. right. split; [done|]. exists m. rewrite lookup_insert_ne by congruence. done. }
  destruct Hd. split; try done; [by apply Hcov| | |]; cbn [t_loops set_loops]; intros j m Hm;
    (apply lookup_insert_Some in Hm as [[<- <-]|[Hne Hm]]; [try done|]).
  - apply place_ok_loops; [done|by apply du_places0].
  - by intros [?|?].
  - by eapply du_target0.
  - intros He. unfold can_lock in Hlock. cbn in He. rewrite He in Hlock. rewrite Hlock. by rewrite insert_empty.
  - intros He. unfold can_lock in Hlock. destruct (exclusive c); [rewrite Hlock in Hm; done|]. specialize (Hlock j m Hm). cbn in Hlock. congruence.
Qed.

Lemma step_durable t t' : step false t t' -> forall h sv o, durable h sv o t -> exists h' sv' o', durable h' sv' o' t'.
Proof.
  intros Hs. remember false as b eqn:Eb. destruct Hs as [t p|t Hn|t Hn|t Hn|t Hg Hn|t|t|t i c Hc Hi Hl Hcl|t i l r Hi Hr|t i l gen Hi Hp Hc|t i l gen Hi Hp
    |t i l gen snap failed Hi Hp|t i l gen snap Hi Hp|t Hw Hk|t i Hw Hi Hl|t i Hw Hi Hl|t Hc Hw]; intros h sv o Hd.
  - exists (h ++ [p]), sv, o. by apply durable_applied.
  - exists h, sv, o. by eapply durable_counted.
  - exists h, sv, o. unfold markThrottleDirty. case_match; by eapply durable_counted.
  - exists h, sv, o. by eapply durable_same.
  - exists h, sv, o. by eapply durable_same.
  - exists h, sv, o. unfold startThrottleWriterIfDirty. case_match; by eapply durable_same.
  - exists h, sv, o. by eapply durable_same.
  - exists h, sv, o. by apply durable_call.
  - exists h, sv, o. by eapply durable_turn.
  - exists h, sv, o. apply durable_returned, (durable_return h sv o t i l Hd Hi). intros _ [?|(g & f & Hpl & _)]; congruence.
  - exists h, sv, o. pose proof (du_places _ _ _ _ Hd i l Hi) as Hpl. rewrite Hp in Hpl. apply (durable_goes h sv o t i l _ Hd Hi); try done.
    + intros [?|(g & f & Hpl' & _)]; [by left|congruence].
    + split; [done|]. exists (ver t). split; [cbn in Hpl; unfold ver; lia|apply Hd].
    + intros _. apply (du_target _ _ _ _ Hd i l Hi). right. congruence.
  - destruct (durable_landed h sv o t i l gen snap failed Hd Hi Hp) as [sv' Hd']. by exists h, sv', i.
  - exists h, sv, o. pose proof (du_places _ _ _ _ Hd i l Hi) as Hpl. rewrite Hp in Hpl. apply (durable_goes h sv o t i l _ Hd Hi); try done.
    + intros [?|(g & f & Hpl' & _)]; [by left|congruence].
    + by split; [apply Hpl|].
    + intros _. apply (du_target _ _ _ _ Hd i l Hi). right. congruence.
  - exists h, sv, o. by eapply durable_same.
  - exists h, sv, o. eapply durable_same; [by apply (durable_call h sv o t i Writer)|done|done].
  - exists h, sv, o. eapply durable_same; [by apply (durable_call h sv o t i Writer)|done|done].
  - exists h, sv, o. by eapply durable_same.
Qed.

Lemma run_durable d b t : run d b t -> b = false -> exists h sv o, durable h sv o t.
Proof.
  induction 1 as [|b b' t t' _ IH Hs]; intros Hb; [exists [d], 0, 0%nat; apply durable_init|].
  apply orb_false_iff in Hb as [Hb ->]. destruct (IH Hb) as (h & sv & o & Hd). by eapply step_durable.
Qed.
End invariant.

(** ** The background writer *)

Section wakeups.
Context {doc : Type}.
Implicit Types (t : throttleRuntime doc) (l : loop doc).

Definition active t : Prop := t_writer t = Quiet \/ t_writer t = Persisting \/ t_writer t = Retrying.

Record awake t : Prop := {
  aw_persist : t_started t = true -> t_persist t = true;
  aw_started : t_writer t = NotStarted <-> t_started t = false;
  aw_stopped : t_writer t = Stopped -> t_closed t = true;
  aw_gens : t_marked t <= t_persistGen t /\ t_persistedGen t <= t_persistGen t;
  aw_wake : t_started t = true -> t_closed t = false -> t_marks t <> 0%nat \/ t_marked t <= t_persistedGen t \/ t_wake t = true \/ active t;
  aw_loop : t_writer t = Persisting <-> exists i l, t_loops t !! i = Some l /\ l_caller l = Writer;
  aw_one : forall i j l m, t_loops t !! i = Some l -> t_loops t !! j = Some m -> l_caller l = Writer -> l_caller m = Writer -> i = j;
  aw_backoff : t_writer t = Persisting \/ t_writer t = Retrying -> throttlePersistRetryMin <= t_backoff t <= throttlePersistRetryMax;
}.

Lemma awake_goes t i l l' : awake t -> t_loops t !! i = Some l -> l_caller l' = l_caller l -> awake (set_loops (<[i := l']> (t_loops t)) t).
Proof.
  intros [] Hi Hc. split; try done; cbn [t_loops set_loops t_writer].
  - rewrite aw_loop0. split; intros (j & m & Hj & Hw).
    + destruct (decide (i = j)) as [<-|Hne].
      * exists i, l'. rewrite lookup_insert_eq. split; [done|]. congruence.
      * exists j, m. by rewrite lookup_insert_ne.
    + apply lookup_insert_Some in Hj as [[<- <-]|[Hne Hj]]; [exists i, l; split; [done|congruence]|by exists j, m].
  - intros j k m n Hj Hk Hm Hn.
    assert (Hback : forall j m, <[i := l']> (t_loops t) !! j = Some m -> exists m0, t_loops t !! j = Some m0 /\ l_caller m0 = l_caller m).
    { intros a b [[<- <-]|[_ Ha]]%lookup_insert_Some; [exists l|exists b]; by rewrite ?Hc. }
    destruct (Hback _ _ Hj) as (m0 & H1 & H2). destruct (Hback _ _ Hk) as (n0 & H3 & H4). eapply aw_one0; [exact H1|exact H3|congruence|congruence].
Qed.

Lemma awake_same t t' : awake t -> t_loops t' = t_loops t -> t_writer t' = t_writer t -> t_backoff t' = t_backoff t ->
  t_started t' = t_started t -> (t_persist t = true -> t_persist t' = true) -> (t_closed t = true -> t_closed t' = true) ->
  t_marked t' <= t_persistGen t' /\ t_persistedGen t' <= t_persistGen t' ->
  (t_started t' = true -> t_closed t' = false -> t_marks t' <> 0%nat \/ t_marked t' <= t_persistedGen t' \/ t_wake t' = true \/ active t') ->
  awake t'.
Proof. intros [] H1 H2 H3 H4 H5 H6 H7 H8. rewrite H4 in H8. split; rewrite ?H1, ?H2, ?H3, ?H4; auto. Qed.

(** A return of a loop, with the generations it leaves. *)
Lemma awake_return t i l gen failed : awake t -> t_loops t !! i = Some l -> t_persistedGen t <= gen <= t_persistGen t ->
  (failed = false -> l_caller l = Writer -> t_marked t <= gen) ->
  awake (returned (l_caller l) failed (set_loops (delete i (t_loops t)) (set_gens (t_persistGen t) gen t))).
Proof.
  intros [] Hi Hg Hm. assert (Hdel : l_caller l <> Writer -> forall j m, t_loops t !! j = Some m -> l_caller m = Writer -> delete i (t_loops t) !! j = Some m).
  { intros Hc j m Hj Hw. rewrite lookup_delete_ne; [done|congruence]. }
  destruct (decide (l_caller l = Writer)) as [Hc|Hc].
  - assert (Hp : t_writer t = Persisting) by (apply aw_loop0; by exists i, l).
    assert (Hst : t_started t = true) by (destruct (t_started t); [done|]; destruct aw_started0 as [_ H]; rewrite H in Hp; done).
    assert (Hnone : ~ exists j m, delete i (t_loops t) !! j = Some m /\ l_caller m = Writer).
    { intros (j & m & [Hne Hj]%lookup_delete_Some & Hw). by specialize (aw_one0 _ _ _ _ Hi Hj Hc Hw). }
    rewrite Hc. unfold returned. split; cbn; try done.
    + rewrite Hst. by destruct failed.
    + by destruct failed.
    + lia.
    + intros _ Hcl. destruct failed; [right; right; right; by right; right|]. right. left. by apply Hm.
    + split; [by destruct failed|done].
    + intros j k m n Hj Hk Hmw. destruct Hnone. by exists j, m.
    + destruct failed; [|intros [?|?]; done]. intros _. apply aw_backoff0. by left.
  - replace (returned _ _ _) with (set_loops (delete i (t_loops t)) (set_gens (t_persistGen t) gen t)) by (by destruct (l_caller l)).
    split; cbn; try done.
    + lia.
    + intros H1 H2. destruct (aw_wake0 H1 H2) as [?|[?|[?|?]]]; [by left|right; left; lia|right; right; by left|by right; right; right].
    + rewrite aw_loop0. split; intros (j & m & Hj & Hw); exists j, m; [by split; [apply Hdel|]|].
      apply lookup_delete_Some in Hj as [_ Hj]. done.
    + intros j k m n [_ Hj]%lookup_delete_Some [_ Hk]%lookup_delete_Some. by eapply aw_one0.
Qed.

Lemma set_gens_id t : set_gens (t_persistGen t) (t_persistedGen t) t = t.
Proof. by destruct t. Qed.

Lemma awake_turn t i l r : awake t -> t_loops t !! i = Some l -> loop_turn t l = Some r -> awake (turned i (l_caller l) r).
Proof.
  intros Ha Hi Hr. pose proof (aw_gens _ Ha) as Hg.
  assert (Hret : forall failed, (failed = false -> l_caller l = Writer -> t_marked t <= t_persistedGen t) ->
    awake (turned i (l_caller l) (Returns t failed))).
  { intros failed Hf. pose proof (awake_return t i l (t_persistedGen t) failed Ha Hi ltac:(lia) Hf) as H. by rewrite set_gens_id in H. }
  unfold loop_turn, loop_read, loop_check in Hr. destruct (l_place l) as [|g|g d|g failed]; try done; injection Hr as <-.
  - destruct (Z.eqb_spec (t_persistGen t) (t_persistedGen t)) as [He|He]; cbn [andb].
    + destruct (negb (l_rewrite l)); [apply Hret; lia|]. destruct (t_persist t) eqn:Ep; [by apply (awake_goes t i l)|]. apply Hret. lia.
    + destruct (t_persist t) eqn:Ep; [by apply (awake_goes t i l)|]. apply Hret. intros _ Hc. exfalso.
      assert (Hp : t_writer t = Persisting) by (apply (aw_loop _ Ha); by exists i, l).
      pose proof (aw_persist _ Ha) as H. pose proof (aw_started _ Ha) as [_ H']. destruct (t_started t); [rewrite H in Ep; done|].
      rewrite H' in Hp; done.
  - destruct (Z.eqb_spec (t_persistGen t) g) as [<-|Hne]; [|by apply (awake_goes t i l)].
    destruct failed; [by apply Hret|]. by apply (awake_return t i l (t_persistGen t) false); [| |lia|lia].
Qed.

Lemma awake_call t i c w d : awake t -> t_loops t !! i = None -> (c = Writer -> active t /\ t_writer t <> Persisting) ->
  (if decide (c = Writer) then w = Persisting else w = t_writer t) ->
  (if decide (c = Writer) then throttlePersistRetryMin <= d <= throttlePersistRetryMax else d = t_backoff t) ->
  awake (set_backoff d (set_writer w (set_loops (<[i := Loop c false AtRead]> (t_loops t)) t))).
Proof.
  intros [] Hi Hc Hw Hd. destruct (decide (c = Writer)) as [->|Hne].
  - destruct (Hc eq_refl) as [Ha Hnp]. subst w. assert (Hnone : forall j m, t_loops t !! j = Some m -> l_caller m = Writer -> False).
    { intros j m Hj Hm. apply Hnp, aw_loop0. by exists j, m. }
    split; cbn; try done.
    + split; [done|]. intros H. apply aw_started0 in H. unfold active in Ha. rewrite H in Ha. by destruct Ha as [?|[?|?]].
    + intros _ _. right; right; right; right; by left.
    + split; [intros _|done]. exists i, (Loop Writer false AtRead). by rewrite lookup_insert_eq.
    + intros j k m n [[<- <-]|[_ Hj]]%lookup_insert_Some [[<- <-]|[_ Hk]]%lookup_insert_Some Hm Hn; [done|by destruct (Hnone _ _ Hk)|by destruct (Hnone _ _ Hj)|by destruct (Hnone _ _ Hk)].
  - subst w d. split; cbn; try done.
    + rewrite aw_loop0. split; intros (j & m & Hj & Hm).
      * exists j, m. rewrite lookup_insert_ne by congruence. done.
      * apply lookup_insert_Some in Hj as [[<- <-]|[_ Hj]]; [done|by exists j, m].
    + intros j k m n [[<- <-]|[_ Hj]]%lookup_insert_Some [[<- <-]|[_ Hk]]%lookup_insert_Some; try done. by eapply aw_one0.
Qed.

Lemma awake_init d : awake (initial d).
Proof. split; cbn; try done; try lia; [split; [done|by intros (i & l & H & _)]|by intros [?|?]]. Qed.

Lemma awake_started t marks : awake t -> t_started t = false -> t_persist t = true -> marks <> 0%nat -> awake (set_marks marks (start_writer t)).
Proof.
  intros [] Hs Hp Hm. apply aw_started0 in Hs as Hw. split; cbn; try done.
  - by left.
  - split; [done|]. intros H. apply aw_loop0 in H. congruence.
  - by intros [?|?].
Qed.

Lemma step_awake b t t' : step b t t' -> awake t -> awake t'.
Proof.
  intros Hs Ha. pose proof (aw_gens _ Ha) as Hg. pose proof (aw_wake _ Ha) as Hk.
  destruct Hs as [t p|t Hn|t Hn|t Hn|t Hg' Hn|t|t|t i c Hc Hi Hl Hcl|t i l r Hi Hr|t i l gen Hi Hp Hc|t i l gen Hi Hp
    |t i l gen snap failed Hi Hp|t i l gen snap Hi Hp|t Hw Hwk|t i Hw Hi Hl|t i Hw Hi Hl|t Hc Hw].
  - by eapply awake_same.
  - eapply awake_same; try done. cbn. lia.
  - unfold markThrottleDirty. set (m := Runtime _ _ _ _ _ _ _ _ _ _ _ _ _ _).
    assert (Hm : awake m) by (eapply awake_same; try done; [cbn; lia|by left]).
    destruct (negb (t_closed m) && negb (t_started m) && t_persist m) eqn:E; [|done].
    rewrite !andb_true_iff, !negb_true_iff in E. destruct E as [[_ E1] E2]. by apply (awake_started m (t_marks m) Hm).
  - eapply awake_same; try done. intros _ _. right; right; by left.
  - by eapply awake_same.
  - unfold startThrottleWriterIfDirty. destruct (_ && _) eqn:E; [|done]. rewrite !andb_true_iff, !negb_true_iff in E.
    destruct E as [[[_ E1] E2] _]. by apply awake_started.
  - by eapply awake_same.
  - apply (awake_call t i c (t_writer t) (t_backoff t) Ha Hi); [done|by rewrite decide_False|by rewrite decide_False].
  - by eapply awake_turn.
  - pose proof (awake_return t i l (t_persistedGen t) true Ha Hi ltac:(lia) ltac:(done)) as H. by rewrite set_gens_id in H.
  - by apply (awake_goes t i l).
  - eapply awake_same; [exact (awake_goes t i l (Loop (l_caller l) (l_rewrite l) (AtCheck gen failed)) Ha Hi eq_refl)|done..|exact Hk].
  - by apply (awake_goes t i l).
  - destruct Ha. split; cbn; try done; [| | |by intros [?|?]].
    + split; [done|]. intros H. apply aw_started0 in H. by destruct Hw as [Hw|Hw]; rewrite Hw in H.
    + intros _ _. right; right; right; by left.
    + split; [done|]. intros H. apply aw_loop0 in H. by destruct Hw as [Hw|Hw]; rewrite Hw in H.
  - by apply (awake_call t i Writer Persisting _ Ha Hi); [intros _; split; [left|rewrite Hw]|..].
  - apply (awake_call t i Writer Persisting _ Ha Hi); [intros _; split; [right; by right|by rewrite Hw]|done|].
    pose proof (aw_backoff _ Ha (or_intror Hw)) as Hb. rewrite decide_True by done. unfold next_backoff, throttlePersistRetryMin, throttlePersistRetryMax in *.
    destruct (Z.ltb_spec 30000000000 (t_backoff t * 2)); lia.
  - destruct Ha. split; cbn; try done.
    + split; [done|]. intros H. apply aw_started0 in H. by destruct Hw as [Hw|[Hw|Hw]]; rewrite Hw in H.
    + intros _ H. congruence.
    + split; [done|]. intros H. apply aw_loop0 in H. by destruct Hw as [Hw|[Hw|Hw]]; rewrite Hw in H.
    + by intros [?|?].
Qed.

Lemma run_awake d b t : run d b t -> awake t.
Proof. induction 1 as [|b b' t t' _ IH Hs]; [apply awake_init|by eapply step_awake]. Qed.
End wakeups.

Lemma lock_shared {doc} c (ls : gmap nat (loop doc)) : exclusive c = false ->
  bool_decide (map_Forall (fun _ l => exclusive (l_caller l) = false) ls) = true -> can_lock c ls.
Proof. intros Hc Hl. unfold can_lock. rewrite Hc. by apply bool_decide_eq_true in Hl. Qed.

(** A step of a concrete run: its premises compute. *)
Ltac step_premise := first [reflexivity | discriminate | (intros H; discriminate H) | (apply lock_shared; vm_compute; reflexivity)].
Ltac advance R tac := eapply run_step in R; [|tac (); step_premise]; vm_compute in R.

(** ** Properties *)

(** C25. A clean generation means a durable policy. In every interleaving of
    operator edits, header changes, overlapping write loops, the background
    writer, flushes and closes, with writes that fail or land although they are
    reported failed, and as long as no loop that was superseded gave up: when no
    loop runs, every change is counted and the generations are equal, the store
    holds the scheduler's policy; and a flush or a close that reports success
    leaves it there. *)
Theorem clean_is_durable {doc} (d : doc) t : run d false t -> t_applied t = 0%nat ->
  (t_loops t = ∅ -> t_persistedGen t = t_persistGen t -> t_store t = t_policy t) /\
  (forall i l t', t_loops t !! i = Some l -> exclusive (l_caller l) = true -> t_persist t = true ->
    loop_turn t l = Some (Returns t' false) -> t_store t' = t_policy t').
Proof.
  intros Hrun Ha. destruct (run_durable d false t Hrun eq_refl) as (h & sv & o & Hd). destruct (Hd) as [].
  assert (Hsame : t_persistGen t <= sv -> t_store t = t_policy t).
  { intros Hle. destruct du_policy0 as [_ H1], du_store0 as [_ H2]. unfold ver in *. rewrite Ha in *.
    replace sv with (t_persistGen t + Z.of_nat 0) in H2 by lia. congruence. }
  split.
  - intros Hno Hgen. apply Hsame. destruct du_covered0 as [?|[_ (l & Hl & _)]]; [lia|]. by rewrite Hno in Hl.
  - intros i l t' Hi He Hp Hr. pose proof (du_alone0 i l Hi He) as Hal. pose proof (du_places0 i l Hi) as Hpl.
    unfold loop_turn, loop_read, loop_check in Hr. destruct (l_place l) as [|g|g s|g failed] eqn:Epl; try done.
    + rewrite Hp in Hr. destruct (Z.eqb_spec (t_persistGen t) (t_persistedGen t)) as [Hg|]; [|done].
      destruct (l_rewrite l) eqn:Erw; [done|]. injection Hr as <-. apply Hsame.
      destruct du_covered0 as [?|[_ (m & Hm & Hob)]]; [lia|]. rewrite Hal in Hm. apply lookup_singleton_Some in Hm as [_ <-].
      destruct Hob as [?|(g & f & Hg' & _)]; congruence.
    + destruct Hpl as [Hg Hcov]. destruct (Z.eqb_spec (t_persistGen t) g) as [<-|]; [|done]. destruct failed; [done|]. injection Hr as <-.
      apply Hsame. destruct (Hcov eq_refl) as [?|[Hne (m & Hm & _)]]; [done|]. rewrite Hal in Hm.
      apply lookup_singleton_Some in Hm as [-> _]. done.
Qed.

(** C27. The hypothesis of clean_is_durable is necessary: the code forgets a
    failed rewrite. Two operator edits overlap; the later one stores its policy
    and marks its generation durable; the earlier one's write lands after it,
    and its rewrite gives up. The generations are equal, no loop runs, a flush
    reports success at once - and the store keeps the superseded policy. *)
Theorem failed_rewrite_forgotten {doc} (d0 d1 d2 : doc) : exists t, run d0 true t /\ t_loops t = ∅ /\ t_applied t = 0%nat /\
  t_persistedGen t = t_persistGen t /\ t_persist t = true /\ t_policy t = d2 /\ t_store t = d1 /\
  loop_turn t (Loop Flush false AtRead) = Some (Returns t false).
Proof.
  pose proof (run_init d0) as R.
  advance R ltac:(fun _ => eapply step_attach).
  advance R ltac:(fun _ => eapply (step_apply _ d1)).
  advance R ltac:(fun _ => eapply step_count).
  advance R ltac:(fun _ => eapply (step_call _ 0 Edit)).
  advance R ltac:(fun _ => eapply (step_turn _ 0 _ _)).
  advance R ltac:(fun _ => eapply (step_snap _ 0 _ 1)).
  advance R ltac:(fun _ => eapply (step_apply _ d2)).
  advance R ltac:(fun _ => eapply step_count).
  advance R ltac:(fun _ => eapply (step_call _ 1 Edit)).
  advance R ltac:(fun _ => eapply (step_turn _ 1 _ _)).
  advance R ltac:(fun _ => eapply (step_snap _ 1 _ 2)).
  advance R ltac:(fun _ => eapply (step_written _ 1 _ 2 d2 false)).
  advance R ltac:(fun _ => eapply (step_turn _ 1 _ _)).
  advance R ltac:(fun _ => eapply (step_written _ 0 _ 1 d1 false)).
  advance R ltac:(fun _ => eapply (step_turn _ 0 _ _)).
  advance R ltac:(fun _ => eapply (step_turn _ 0 _ _)).
  advance R ltac:(fun _ => eapply (step_expired _ 0 _ 2)).
  eexists. split; [exact R|]. repeat split.
Qed.

(** C26. No wakeup is lost. Whatever interleaves, a header change whose signal
    was sent and that is not durable yet leaves the started writer with a
    pending wake or already on its way to a write, until the runtime is closed;
    at most one background writer runs; and its retries are between 100ms and
    30s apart. *)
Theorem no_lost_wakeup {doc} (d : doc) b t : run d b t ->
  (t_started t = true -> t_closed t = false -> t_marks t = 0%nat -> t_persistedGen t < t_marked t -> t_wake t = true \/ active t) /\
  (t_writer t = Persisting -> exists i l, t_loops t !! i = Some l /\ l_caller l = Writer) /\
  (forall i j l m, t_loops t !! i = Some l -> t_loops t !! j = Some m -> l_caller l = Writer -> l_caller m = Writer -> i = j) /\
  (t_writer t = Retrying -> 100000000 <= t_backoff t <= 30000000000).
Proof.
  intros Hrun. destruct (run_awake d b t Hrun) as [_ _ _ _ Hw Hl Ho Hb]. split; [|split; [by apply Hl|split; [done|]]].
  - intros H1 H2 H3 H4. destruct (Hw H1 H2) as [?|[?|[?|?]]]; [done|lia|by left|by right].
  - intros H. apply Hb. by right.
Qed.

(** A process attaches its store and a header changes the policy. *)
Lemma header_run : run 0 false (signal (markThrottleDirty (apply_policy 7 (attach (initial 0))))).
Proof.
  pose proof (run_init 0) as R. advance R ltac:(fun _ => eapply step_attach).
  advance R ltac:(fun _ => eapply (step_apply _ 7)). advance R ltac:(fun _ => eapply step_mark).
  advance R ltac:(fun _ => eapply step_signal). exact R.
Qed.

Lemma no_lost_wakeup_witness : t_wake (signal (markThrottleDirty (apply_policy 7 (attach (initial 0))))) = true.
Proof. destruct (no_lost_wakeup 0 false _ header_run) as [H _]. by destruct (H eq_refl eq_refl eq_refl eq_refl) as [?|[?|[?|?]]]. Defined.

(** The flush that follows writes it. *)
Lemma flush_run : exists t, run 0 false t /\ t_persist t = true /\ t_applied t = 0%nat /\ t_policy t = 7 /\
  t_loops t = {[0%nat := Loop Flush false (AtCheck 1 false)]} /\ t_persistGen t = 1.
Proof.
  pose proof header_run as R.
 advance R ltac:(fun _ => eapply (step_call _ 0 Flush)).
  advance R ltac:(fun _ => eapply (step_turn _ 0 _ _)).
  advance R ltac:(fun _ => eapply (step_snap _ 0 _ 1)).
  advance R ltac:(fun _ => eapply (step_written _ 0 _ 1 7 false)).
  eexists. split; [exact R|]. repeat split.
Qed.

Lemma clean_is_durable_witness : exists t, run 0 false t /\ t_store t = 7.
Proof.
  destruct flush_run as (t & Hrun & Hp & Ha & Hpol & Hls & Hg). exists t. split; [done|].
  destruct (clean_is_durable 0 t Hrun Ha) as [_ H]. rewrite <- Hpol.
  refine (H 0%nat (Loop Flush false (AtCheck 1 false)) (set_gens 1 1 t) _ eq_refl Hp _).
  - by rewrite Hls.
  - unfold loop_turn, loop_check. cbn. by rewrite Hg.
Defined.
