(* ===== verification/Headers.v ===== *)
(** Header maps, and the header rules of proxy/request_client.go and
    proxy/request_target.go: which names belong to the proxy, the transport or
    one hop. *)

From S2P Require Import Prelude GoStrings GoUtf8.

(** ** net/http

    A header map is keyed by canonical names. *)

Abbreviation header := (gmap bytes (list bytes)).

Definition tchar (c : Z) : bool :=
  between 48 57 c || between 65 90 c || between 97 122 c || bool_decide (c ∈ str "!#$%&'*+-.^_`|~").

Definition upper (c : Z) : Z := if between 97 122 c then c - 32 else c.
Definition hyphen : Z := 45.

(** textproto.CanonicalMIMEHeaderKey: a name with a byte outside the token
    grammar is returned unchanged. *)
Fixpoint canon_from (start : bool) (s : bytes) : bytes :=
  match s with
  | [] => []
  | c :: s => (if start then upper c else lower c) :: canon_from (c =? hyphen) s
  end.
Definition CanonicalHeaderKey (s : bytes) : bytes := if forallb tchar s then canon_from true s else s.

Definition Values (h : header) (name : bytes) : list bytes := default [] (h !! CanonicalHeaderKey name).
Definition Get (h : header) (name : bytes) : bytes := default [] (head (Values h name)).
Definition Set_ (h : header) (name v : bytes) : header := <[CanonicalHeaderKey name := [v]]> h.
Definition Del (h : header) (name : bytes) : header := delete (CanonicalHeaderKey name) h.
Definition Add (h : header) (name v : bytes) : header := <[CanonicalHeaderKey name := Values h name ++ [v]]> h.

(** strings.Split at one byte. *)
Fixpoint Split (sep : Z) (s : bytes) : list bytes :=
  match s with
  | [] => [[]]
  | c :: s => if c =? sep then [] :: Split sep s else
      match Split sep s with p :: ps => (c :: p) :: ps | [] => [[c]] end
  end.

(** ** The proxy's rules *)

Definition hdrWarnings : bytes := str "X-Proxy-Warnings".

Definition proxyControlHeaderNames : list bytes := str <$> [
  "X-Proxy-Base-URL"; "X-Proxy-Auth-Header"; "X-Proxy-Auth-Prefix"; "X-Proxy-Path"; "X-Proxy-Query";
  "X-Proxy-Headers"; "X-Proxy-Key"; "X-Proxy-Refresh-Token"; "X-Proxy-Provider"; "X-Proxy-Access-Token";
  "X-Proxy-Timeout-Ms"; "X-Proxy-Format"; "X-Proxy-In-Format"; "X-Proxy-Max-Concurrency"; "X-Proxy-Session";
  "X-Proxy-Parent-Session"; "X-Proxy-Client";
  "X-Proxy-Limit-Concurrency"; "X-Proxy-Limit-Requests"; "X-Proxy-Limit-Tokens";
  "authorization"; "cookie"]%string.

Definition hopByHopNames : list bytes := str <$> [
  "Connection"; "Keep-Alive"; "Proxy-Authenticate"; "Proxy-Authorization";
  "Te"; "Trailer"; "Transfer-Encoding"; "Upgrade"]%string.

Definition isHopByHopCanonical (h : bytes) : bool := bool_decide (h ∈ hopByHopNames).
Definition canonicalHeaderSet (names : list bytes) : gset bytes := list_to_set (CanonicalHeaderKey <$> names).
Definition proxyControlHeaders : gset bytes := canonicalHeaderSet proxyControlHeaderNames.
Definition isProxyControlHeaderCanonical (h : bytes) : bool := bool_decide (h ∈ proxyControlHeaders).
Definition isTransportModeHeader (h : bytes) : bool := EqualFold h (str "Accept-Encoding") || EqualFold h (str "Range").
Definition stripTransportModeHeaders (h : header) : header := Del (Del h (str "Accept-Encoding")) (str "Range").

Definition value_tokens (v : bytes) : list bytes := filter (fun tok => tok <> []) (TrimSpace <$> Split 44 v).
Definition connectionTokens (h : header) : gset bytes :=
  list_to_set (CanonicalHeaderKey <$> mjoin (value_tokens <$> Values h (str "Connection"))).

Section folded.
Context `{!Unicode}.

Definition foldedHeaderSet (names : list bytes) : gset bytes := list_to_set (ToLower <$> names).
Definition proxyControlHeadersFolded : gset bytes := foldedHeaderSet proxyControlHeaderNames.
Definition isProxyControlHeader (h : bytes) : bool := bool_decide (ToLower h ∈ proxyControlHeadersFolded).
Definition isHopByHop (h : bytes) : bool := isHopByHopCanonical (CanonicalHeaderKey (ToLower h)).

Definition isEventStream (ct : bytes) : bool :=
  bool_decide (str "text/event-stream" `prefix_of` ToLower ct).
End folded.

(** copyResponseHeaders(dst, src): the walk of [src] sets distinct keys. *)
Definition responseHeaderDropped (nominated : gset bytes) (k : bytes) : bool :=
  isHopByHopCanonical k || bool_decide (k ∈ nominated) ||
  EqualFold k (str "Content-Length") || EqualFold k (str "Content-Encoding") || EqualFold k (str "Set-Cookie") ||
  EqualFold k hdrWarnings.
Definition copyResponseHeaders (dst src : header) : header :=
  filter (fun kv => responseHeaderDropped (connectionTokens src) kv.1 = false) src ∪ dst.

(** golang.org/x/net/http/httpguts, as documented: a field name is a token of
    RFC 7230. *)
Definition token (s : bytes) : Prop := s <> [] /\ forallb tchar s = true.
Class Httpguts := {
  ValidHeaderFieldName : bytes -> bool;
  ValidHeaderFieldName_token : forall s, ValidHeaderFieldName s = true <-> token s;
}.

(** config.ValidHeaderName, ValidHeaderValue and ValidateHeaderNames. *)
Definition ValidHeaderName `{!Httpguts} (name : bytes) : bool := ValidHeaderFieldName name.
Definition ValidHeaderValue (value : bytes) : bool :=
  forallb (fun c => (c =? 9) || (32 <=? c) && negb (c =? 127)) value.

Inductive name_err := NotToken (name : bytes) | DuplicateName (name : bytes).

Section names.
Context `{!Unicode, !Httpguts}.

Fixpoint validate_names (seen : gset bytes) (names : list bytes) : option name_err :=
  match names with
  | [] => None
  | name :: names =>
      if negb (ValidHeaderName name) then Some (NotToken name)
      else if decide (ToLower name ∈ seen) then Some (DuplicateName name)
      else validate_names ({[ToLower name]} ∪ seen) names
  end.
Definition ValidateHeaderNames (names : list bytes) : option name_err := validate_names ∅ names.

Definition isValidAuthHeader (h : bytes) : bool :=
  ValidHeaderName h &&
  negb (isHopByHop h || isProxyControlHeader h || isTransportModeHeader h ||
        EqualFold h (str "host") || EqualFold h (str "content-length")).
End names.

(** ** Canonical names *)

Lemma tchar_range c : tchar c = true -> 33 <= c <= 126.
Proof.
  unfold tchar. rewrite !orb_true_iff, !between_spec, bool_decide_eq_true. intros [[[H|H]|H]|H]; try lia.
  cbn in H. set_unfold in H. lia.
Qed.

Lemma tchar_ascii s : forallb tchar s = true -> ascii s = true.
Proof.
  unfold ascii. rewrite !forallb_forall. intros Hs c Hc. apply between_spec. specialize (Hs c Hc).
  apply tchar_range in Hs. lia.
Qed.

Lemma tchar_case c : tchar (upper c) = tchar c /\ tchar (lower c) = tchar c.
Proof.
  unfold upper, lower. split; between_cases; try done; unfold tchar.
  - rewrite (proj2 (between_spec 65 90 (c - 32))), (proj2 (between_spec 97 122 c)), !orb_true_r by lia. done.
  - rewrite (proj2 (between_spec 97 122 (c + 32))), (proj2 (between_spec 65 90 c)), !orb_true_r by lia. done.
Qed.

Lemma lower_upper c : lower (upper c) = lower c.
Proof. unfold lower, upper. between_cases; try done; lia. Qed.
Lemma upper_lower c : upper (lower c) = upper c.
Proof. unfold lower, upper. between_cases; try done; lia. Qed.
Lemma upper_idem c : upper (upper c) = upper c.
Proof. unfold upper. between_cases; try done; lia. Qed.
Lemma hyphen_lower c : (lower c =? hyphen) = (c =? hyphen).
Proof. unfold lower, hyphen. between_cases; [|done]. destruct (Z.eqb_spec (c + 32) 45), (Z.eqb_spec c 45); lia || done. Qed.
Lemma hyphen_upper c : (upper c =? hyphen) = (c =? hyphen).
Proof. unfold upper, hyphen. between_cases; [|done]. destruct (Z.eqb_spec (c - 32) 45), (Z.eqb_spec c 45); lia || done. Qed.

Lemma canon_from_lower start s : map lower (canon_from start s) = map lower s.
Proof.
  revert start. induction s as [|c s IH]; intros start; [done|]. cbn. rewrite IH.
  destruct start; by rewrite ?lower_upper, ?lower_idem.
Qed.
Lemma canon_from_of_lower start s : canon_from start (map lower s) = canon_from start s.
Proof.
  revert start. induction s as [|c s IH]; intros start; [done|]. cbn. rewrite hyphen_lower, IH.
  destruct start; by rewrite ?upper_lower, ?lower_idem.
Qed.
Lemma canon_from_idem start s : canon_from start (canon_from start s) = canon_from start s.
Proof. by rewrite <- canon_from_of_lower, canon_from_lower, canon_from_of_lower. Qed.
Lemma tchar_canon start s : forallb tchar (canon_from start s) = forallb tchar s.
Proof.
  revert start. induction s as [|c s IH]; intros start; [done|]. cbn. rewrite IH. f_equal.
  destruct start; apply tchar_case.
Qed.
Lemma tchar_lower s : forallb tchar (map lower s) = forallb tchar s.
Proof. induction s as [|c s IH]; [done|]. cbn. rewrite IH. f_equal. apply tchar_case. Qed.

Lemma CanonicalHeaderKey_idem s : CanonicalHeaderKey (CanonicalHeaderKey s) = CanonicalHeaderKey s.
Proof.
  unfold CanonicalHeaderKey. destruct (forallb tchar s) eqn:E; [|by rewrite E].
  by rewrite tchar_canon, E, canon_from_idem.
Qed.

Lemma CanonicalHeaderKey_token s : token (CanonicalHeaderKey s) <-> token s.
Proof.
  unfold CanonicalHeaderKey, token. destruct (forallb tchar s) eqn:E; [|by rewrite E].
  rewrite tchar_canon, E. destruct s; [done|]. by cbn.
Qed.

Lemma CanonicalHeaderKey_lower s : token s -> CanonicalHeaderKey (map lower s) = CanonicalHeaderKey s.
Proof. intros [_ Hs]. unfold CanonicalHeaderKey. by rewrite tchar_lower, Hs, canon_from_of_lower. Qed.

(** Two tokens name the same header when they are equal up to case. *)
Lemma same_header a b : token a -> token b ->
  CanonicalHeaderKey a = CanonicalHeaderKey b <-> map lower a = map lower b.
Proof.
  intros Ha Hb. split; intros He.
  - destruct Ha as [_ Ha], Hb as [_ Hb]. unfold CanonicalHeaderKey in He. rewrite Ha, Hb in He.
    by rewrite <- (canon_from_lower true a), He, canon_from_lower.
  - by rewrite <- CanonicalHeaderKey_lower, He, CanonicalHeaderKey_lower.
Qed.

Lemma EqualFold_token a b : token a -> token b -> EqualFold a b = bool_decide (CanonicalHeaderKey a = CanonicalHeaderKey b).
Proof.
  intros Ha Hb. rewrite EqualFold_lower by (by apply tchar_ascii; destruct Ha, Hb).
  apply bool_decide_ext. symmetry. by apply same_header.
Qed.

Section lemmas.
Context `{!Unicode}.

Lemma ToLower_token s : token s -> ToLower s = map lower s.
Proof. intros [_ Hs]. by apply ToLower_ascii, tchar_ascii. Qed.

Lemma ToLower_CanonicalHeaderKey s : token s -> ToLower (CanonicalHeaderKey s) = ToLower s.
Proof.
  intros Hs. rewrite !ToLower_token by (done || by apply CanonicalHeaderKey_token).
  destruct Hs as [_ Hs]. unfold CanonicalHeaderKey. by rewrite Hs, canon_from_lower.
Qed.

Lemma isHopByHop_token s : token s -> isHopByHop s = isHopByHopCanonical (CanonicalHeaderKey s).
Proof. intros Hs. unfold isHopByHop. by rewrite ToLower_token, CanonicalHeaderKey_lower. Qed.

Lemma isProxyControlHeader_token s : token s ->
  isProxyControlHeader s = isProxyControlHeaderCanonical (CanonicalHeaderKey s).
Proof.
  intros Hs. apply bool_decide_ext. unfold proxyControlHeadersFolded, foldedHeaderSet, proxyControlHeaders, canonicalHeaderSet.
  rewrite !elem_of_list_to_set, !list_elem_of_fmap.
  assert (Ht : forall n, n ∈ proxyControlHeaderNames -> token n).
  { apply Forall_forall, (bool_decide_unpack (Forall token proxyControlHeaderNames)). by vm_compute. }
  split; intros (n & Hn & Hin); exists n; (split; [|done]); apply Ht in Hin; [apply same_header|].
  - done.
  - done.
  - by rewrite <- !ToLower_token.
  - rewrite !ToLower_token by done. by apply same_header.
Qed.
End lemmas.

(** A decision procedure for the token grammar. *)
Definition token_name (s : bytes) : bool := bool_decide (s <> []) && forallb tchar s.
Lemma token_name_spec s : token_name s = true <-> token s.
Proof. unfold token_name, token. by rewrite andb_true_iff, bool_decide_eq_true. Qed.

Lemma transport_names k : token k -> CanonicalHeaderKey k = k -> isTransportModeHeader k = true ->
  k = str "Accept-Encoding" \/ k = str "Range".
Proof.
  intros Hk Hc. assert (Ha : token (str "Accept-Encoding")) by (apply token_name_spec; reflexivity).
  assert (Hr : token (str "Range")) by (apply token_name_spec; reflexivity).
  unfold isTransportModeHeader. rewrite (EqualFold_token k _ Hk Ha), (EqualFold_token k _ Hk Hr), Hc.
  rewrite orb_true_iff, !bool_decide_eq_true. intros [He|He]; [left|right]; exact He.
Qed.

(** Names the boundary accepts are tokens, and name different headers. *)
Lemma validate_names_spec `{!Unicode, !Httpguts} names : forall seen, validate_names seen names = None <->
  Forall token names /\ NoDup (CanonicalHeaderKey <$> names) /\ (forall n, n ∈ names -> ToLower n ∉ seen).
Proof.
  induction names as [|n names IH]; intros seen; cbn [validate_names fmap list_fmap].
  - split; [|done]. intros _. split_and!; [constructor|constructor|set_solver].
  - rewrite Forall_cons, NoDup_cons. unfold ValidHeaderName. pose proof (ValidHeaderFieldName_token n) as Ht.
    destruct (ValidHeaderFieldName n); cbn [negb].
    2: { split; [done|]. intros [[Hn _] _]. by apply Ht in Hn. }
    assert (Hn : token n) by by apply Ht. destruct (decide _) as [Hin|Hout].
    { split; [done|]. intros (_ & _ & Hf). by destruct (Hf n ltac:(set_solver)). }
    rewrite IH. split.
    + intros (Hall & Hnd & Hf). split_and!; try done.
      * intros (m & Hm & Hin)%list_elem_of_fmap. rewrite list.Forall_forall in Hall. apply (Hf m Hin).
        apply same_header in Hm; [|done|by apply Hall]. rewrite (ToLower_token m), <- Hm, <- ToLower_token by auto. set_solver.
      * intros m [->|Hm]%elem_of_cons; [done|]. specialize (Hf m Hm). set_solver.
    + intros ((_ & Hall) & [Hnew Hnd] & Hf). split_and!; try done. intros m Hm. rewrite list.Forall_forall in Hall.
      apply not_elem_of_union. split; [|apply Hf; set_solver]. rewrite elem_of_singleton. intros He. apply Hnew, list_elem_of_fmap.
      exists m. split; [|done]. apply same_header; [done|by apply Hall|]. rewrite <- !ToLower_token by auto. by symmetry.
Qed.

(** Concrete instances: no letters outside ASCII, and the token grammar. *)
Definition ascii_unicode : Unicode := {| lower_rune := fun r => r |}.
Definition token_httpguts : Httpguts := {| ValidHeaderFieldName := token_name; ValidHeaderFieldName_token := token_name_spec |}.
