(* ===== verification/Overrides.v ===== *)
(** config/config_validate_overrides.go and config/credentials.go: the load
    boundary of request overrides - which header names an operator may set or
    remove, and the canonical form of an accepted rule list. And the per-request
    merge of the rules, proxy/request_overrides.go. *)

From stdpp Require Import sorting.
From S2P Require Import Prelude GoStrings GoOrder GoUtf8 Headers.

(** ** Credential-class names (credentials.go) *)

(** strings.Contains. *)
Fixpoint contains (s word : bytes) : bool :=
  bool_decide (word `prefix_of` s) || match s with [] => false | _ :: s => contains s word end.
Definition containsAny (s : bytes) (words : list bytes) : bool := existsb (contains s) words.

Definition nonSecretKeyWords : list bytes := str <$> [
  "key-id"; "keyid"; "key_id"; "key-name"; "keyname"; "key_name"; "idempotency"; "cache"]%string.
Definition nonSecretTokenWords : list bytes := str <$> [
  "count"; "total"; "used"; "usage"; "budget"; "remaining"; "reset";
  "limit"; "size"; "length"; "estimate"; "rate"; "window"; "quota";
  "capacity"; "max"; "tokens"; "tokenizer"]%string.
Definition nonSecretExactHeaderNames : list bytes := str <$> ["x-authorized-scopes"; "key"]%string.
Definition credentialExactHeaderNames : list bytes := str <$> [
  "cookie"; "set-cookie"; "x-proxy-refresh-token"; "x-proxy-access-token"; "x-proxy-key"; "x-proxy-headers"]%string.
Definition strongCredentialMarkers : list bytes := str <$> [
  "authorization"; "authorisation"; "auth"; "api-key"; "apikey"; "api_key";
  "secret"; "password"; "passwd"; "passphrase"; "pwd"; "credential";
  "bearer"; "jwt"; "signature"; "cookie"]%string.

Section credentials.
Context `{!Unicode}.

Definition credential_name (n : bytes) : bool :=
  if decide (n = []) then false
  else if decide (n ∈ credentialExactHeaderNames) then true
  else if decide (n ∈ nonSecretExactHeaderNames) then false
  else
    let strong := containsAny n strongCredentialMarkers in
    let hasKey := contains n (str "key") && negb (containsAny n nonSecretKeyWords && negb strong) in
    let hasToken := contains n (str "token") && negb (containsAny n nonSecretTokenWords && negb strong) in
    if hasKey || hasToken then true else strong.
Definition CredentialHeaderName (name : bytes) : bool := credential_name (ToLower (TrimSpace name)).
End credentials.

(** ** Rules (config_types.go) *)

Record OverrideBody := Body { MaxTokens : option Z; MaxCompletionTokens : option Z }.
Record RequestOverride := Override {
  Client : bytes;
  Provider : bytes;
  Model : bytes;
  Headers : gmap bytes bytes;
  RemoveHeaders : list bytes;
  RuleBody : option OverrideBody;
}.

Definition RequestOverridesMax : Z := 64.

Definition overrideBodyEmpty (b : option OverrideBody) : bool :=
  match b with None | Some (Body None None) => true | _ => false end.

Inductive reason := Credential | Protocol | Control.

(** forbiddenOverrideHeaders, keyed by the lower-case name. *)
Definition forbiddenCredential : list bytes := str <$> ["authorization"; "cookie"; "proxy-authorization"]%string.
Definition forbiddenProtocol : list bytes := str <$> [
  "host"; "content-type"; "content-length"; "transfer-encoding"; "te"; "connection"; "keep-alive";
  "proxy-authenticate"; "proxy-connection"; "trailer"; "upgrade"]%string.

(** What fmt.Errorf is given. When a name is both set and removed, the map's
    walk picks which one is reported. *)
Inductive override_err :=
  | TooManyRules (n : Z)
  | NoScope (rule : nat)
  | NoAction (rule : nat)
  | EmptyName (rule : nat)
  | InvalidName (rule : nat) (name : bytes)
  | ForbiddenName (rule : nat) (name : bytes) (why : reason)
  | DuplicateHeader (rule : nat) (name : bytes)
  | BadValue (rule : nat) (name : bytes)
  | SetAndRemoved (rule : nat)
  | BadCeiling (rule : nat) (value : Z)
  | DuplicateScope (rule first : nat).

Section validation.
Context `{!Unicode, !Httpguts}.

Definition forbidden_lower (n : bytes) : option reason :=
  if decide (n ∈ forbiddenCredential) then Some Credential
  else if decide (n ∈ forbiddenProtocol) then Some Protocol
  else if decide (str "x-proxy-" `prefix_of` n) then Some Control
  else if CredentialHeaderName n then Some Credential
  else None.
Definition ForbiddenOverrideHeader (name : bytes) : option reason := forbidden_lower (ToLower (TrimSpace name)).

(** The checks both lists share; [Ok] is the canonical name. *)
Definition check_name (rule : nat) (name : bytes) : result override_err bytes :=
  let trimmed := TrimSpace name in
  if decide (trimmed = []) then Err (EmptyName rule)
  else if negb (ValidHeaderName trimmed) then Err (InvalidName rule trimmed)
  else match ForbiddenOverrideHeader trimmed with
       | Some why => Err (ForbiddenName rule trimmed why)
       | None => Ok (CanonicalHeaderKey trimmed)
       end.

Fixpoint set_headers (rule : nat) (given headers : gmap bytes bytes) (names : list bytes)
    : result override_err (gmap bytes bytes) :=
  match names with
  | [] => Ok headers
  | name :: names =>
      try canon <- check_name rule name;
      if decide (is_Some (headers !! canon)) then Err (DuplicateHeader rule (TrimSpace name)) else
      let value := TrimSpace (default [] (given !! name)) in
      if decide (value = []) then Err (BadValue rule canon)
      else if negb (ValidHeaderValue value) then Err (BadValue rule canon)
      else set_headers rule given (<[canon := value]> headers) names
  end.

Fixpoint remove_headers (rule : nat) (seen : gset bytes) (names : list bytes) : result override_err (list bytes) :=
  match names with
  | [] => Ok []
  | name :: names =>
      try canon <- check_name rule name;
      if decide (canon ∈ seen) then Err (DuplicateHeader rule (TrimSpace name)) else
      try rest <- remove_headers rule ({[canon]} ∪ seen) names;
      Ok (canon :: rest)
  end.

Definition normalizeOverrideHeaders (rule : nat) (r : RequestOverride) : result override_err RequestOverride :=
  try headers <- set_headers rule (Headers r) ∅ (sorted_keys (dom (Headers r)));
  try remove <- remove_headers rule ∅ (RemoveHeaders r);
  if decide (dom headers ## (list_to_set remove : gset bytes)) then
    Ok (Override (Client r) (Provider r) (Model r) headers remove (RuleBody r))
  else Err (SetAndRemoved rule).

Definition check_ceiling (rule : nat) (value : option Z) : result override_err unit :=
  match value with
  | Some v => if (v <? 1) || (1000000 <? v) then Err (BadCeiling rule v) else Ok tt
  | None => Ok tt
  end.

Definition check_body (rule : nat) (b : option OverrideBody) : result override_err (option OverrideBody) :=
  match b with
  | None => Ok None
  | Some ob =>
      try _ <- check_ceiling rule (MaxTokens ob);
      try _ <- check_ceiling rule (MaxCompletionTokens ob);
      Ok (if overrideBodyEmpty b then None else b)
  end.

Definition scope : Type := bytes * bytes * bytes.
Definition rule_scope (r : RequestOverride) : scope := (Client r, Provider r, Model r).

(** The loop's body, up to the scope check. *)
Definition validate_rule (rule : nat) (r : RequestOverride) : result override_err RequestOverride :=
  let r := Override (TrimSpace (Client r)) (TrimSpace (Provider r)) (TrimSpace (Model r)) (Headers r) (RemoveHeaders r) (RuleBody r) in
  if decide (rule_scope r = ([], [], [])) then Err (NoScope rule)
  else if decide (Headers r = ∅ /\ RemoveHeaders r = [] /\ overrideBodyEmpty (RuleBody r) = true) then Err (NoAction rule)
  else
    try r <- normalizeOverrideHeaders rule r;
    try body <- check_body rule (RuleBody r);
    Ok (Override (Client r) (Provider r) (Model r) (Headers r) (RemoveHeaders r) body).

Fixpoint validate_rules (rule : nat) (scopes : gmap scope nat) (rules : list RequestOverride)
    : result override_err (list RequestOverride) :=
  match rules with
  | [] => Ok []
  | r :: rules =>
      try r <- validate_rule rule r;
      match scopes !! rule_scope r with
      | Some first => Err (DuplicateScope rule first)
      | None =>
          try rules <- validate_rules (S rule) (<[rule_scope r := rule]> scopes) rules;
          Ok (r :: rules)
      end
  end.

Definition validateRequestOverrides (rules : list RequestOverride) : result override_err (list RequestOverride) :=
  if RequestOverridesMax <? Z.of_nat (length rules) then Err (TooManyRules (Z.of_nat (length rules)))
  else validate_rules 0 ∅ rules.
End validation.

(** ** The merge of one request (request_overrides.go) *)

Record resolvedOverride := Resolved {
  rv_headers : gmap bytes bytes;
  rv_removes : list bytes;
  rv_body : option OverrideBody;
}.

(** The rules' effect so far: the set names, the removed names, the body. *)
Definition merge_state : Type := gmap bytes bytes * gset bytes * option OverrideBody.

Definition rule_matches (client provider model : bytes) (r : RequestOverride) : bool :=
  negb ((negb (bool_decide (Client r = [])) && negb (bool_decide (Client r = client))) ||
        (negb (bool_decide (Provider r = [])) && negb (bool_decide (Provider r = provider))) ||
        (negb (bool_decide (Model r = [])) && negb (bool_decide (Model r = model)))).

Definition merge_remove (st : gmap bytes bytes * gset bytes) (name : bytes) : gmap bytes bytes * gset bytes :=
  (delete name st.1, {[name]} ∪ st.2).
Definition merge_body (body : option OverrideBody) (rule : option OverrideBody) : option OverrideBody :=
  match rule with
  | None => body
  | Some rb =>
      let b := default (Body None None) body in
      Some (Body (match MaxTokens rb with Some v => Some v | None => MaxTokens b end)
                 (match MaxCompletionTokens rb with Some v => Some v | None => MaxCompletionTokens b end))
  end.
(** A rule's walk of its headers sets distinct names, in any order. *)
Definition merge_rule (st : merge_state) (r : RequestOverride) : merge_state :=
  let '(headers, removed, body) := st in
  let '(headers, removed) :=
    fold_left merge_remove (RemoveHeaders r) (Headers r ∪ headers, removed ∖ dom (Headers r)) in
  (headers, removed, merge_body body (RuleBody r)).

(** One turn of the walk, with [matched]. *)
Definition merge_turn (client provider model : bytes) (acc : merge_state * bool) (r : RequestOverride) : merge_state * bool :=
  if rule_matches client provider model r then (merge_rule acc.1 r, true) else acc.
Definition resolveRequestOverrides (rules : list RequestOverride) (client provider model : bytes)
    : option resolvedOverride :=
  match rules with
  | [] => None
  | _ =>
      let '(headers, removed, body, matched) := fold_left (merge_turn client provider model) rules (∅, ∅, None, false) in
      if matched then Some (Resolved headers (sorted_keys removed) body) else None
  end.

(** ** The merge is the last action *)

(** What a rule does to a name: nothing, set it, or remove it. *)
Definition rule_action (name : bytes) (r : RequestOverride) : option (option bytes) :=
  if decide (name ∈ RemoveHeaders r) then Some None else Some <$> Headers r !! name.
Definition rule_max_tokens (r : RequestOverride) : option Z := b ← RuleBody r; MaxTokens b.
Definition rule_max_completion_tokens (r : RequestOverride) : option Z := b ← RuleBody r; MaxCompletionTokens b.

(** The value the last rule that has one gives. *)
Definition last_of {A} (f : RequestOverride -> option A) (rules : list RequestOverride) : option A := last (omap f rules).

Lemma last_of_Some {A} (f : RequestOverride -> option A) rules a : last_of f rules = Some a -> exists r, r ∈ rules /\ f r = Some a.
Proof. intros (r & Hr & Hf)%last_Some_elem_of%list_elem_of_omap. eauto. Qed.

Lemma last_of_snoc {A} (f : RequestOverride -> option A) rules r :
  last_of f (rules ++ [r]) = match f r with Some a => Some a | None => last_of f rules end.
Proof.
  unfold last_of. rewrite omap_app. cbn. destruct (f r); [by rewrite last_snoc|]. by rewrite app_nil_r.
Qed.

Lemma merge_remove_all names st :
  (forall name, (fold_left merge_remove names st).1 !! name = if decide (name ∈ names) then None else st.1 !! name) /\
  (fold_left merge_remove names st).2 = list_to_set names ∪ st.2.
Proof.
  revert st. induction names as [|n names IH]; intros [h rm]; cbn [fold_left].
  - split; [|set_solver]. intros name. by rewrite decide_False by set_solver.
  - destruct (IH (merge_remove (h, rm) n)) as [H1 H2]. cbn [merge_remove fst snd] in H1, H2. split; [|rewrite H2; set_solver].
    intros name. rewrite H1. destruct (decide (name ∈ names)); [by rewrite decide_True by set_solver|].
    destruct (decide (name = n)) as [->|]; [by rewrite lookup_delete_eq, decide_True by set_solver|].
    by rewrite lookup_delete_ne, decide_False by set_solver.
Qed.

(** The state after a list of rules. *)
Definition merged (rules : list RequestOverride) (st : merge_state) : Prop :=
  (forall name, st.1.1 !! name = mjoin (last_of (rule_action name) rules)) /\
  (forall name, name ∈ st.1.2 <-> last_of (rule_action name) rules = Some None) /\
  (st.2 ≫= MaxTokens) = last_of rule_max_tokens rules /\
  (st.2 ≫= MaxCompletionTokens) = last_of rule_max_completion_tokens rules.

Lemma merged_rule rules st r : merged rules st -> merged (rules ++ [r]) (merge_rule st r).
Proof.
  destruct st as [[h rm] b]. intros (Hh & Hrm & Hm & Hc). cbn [fst snd] in *. unfold merge_rule.
  destruct (merge_remove_all (RemoveHeaders r) (Headers r ∪ h, rm ∖ dom (Headers r))) as [H1 H2].
  destruct (fold_left merge_remove _ _) as [h' rm'] eqn:E. cbn [fst snd] in H1, H2. subst rm'.
  unfold merged. cbn [fst snd]. split_and!.
  - intros name. rewrite H1, last_of_snoc. unfold rule_action at 1. destruct (decide _); [done|].
    destruct (Headers r !! name) as [v|] eqn:Ev; cbn; [by apply lookup_union_Some_l|]. by rewrite lookup_union_r, Hh.
  - intros name. rewrite elem_of_union, elem_of_list_to_set, elem_of_difference, Hrm, elem_of_dom, last_of_snoc.
    unfold rule_action at 2. destruct (decide _); [naive_solver|].
    destruct (Headers r !! name); cbn; [|naive_solver]. split; [|done]. intros [?|[_ []]]; [done|]. eauto.
  - rewrite last_of_snoc, <- Hm. unfold rule_max_tokens at 1. destruct (RuleBody r) as [rb|]; cbn; [|done].
    destruct (MaxTokens rb); [done|]. by destruct b.
  - rewrite last_of_snoc, <- Hc. unfold rule_max_completion_tokens at 1. destruct (RuleBody r) as [rb|]; cbn; [|done].
    destruct (MaxCompletionTokens rb); [done|]. by destruct b.
Qed.

Lemma merge_walk client provider model rules :
  let matching := filter (fun r => rule_matches client provider model r = true) rules in
  let acc := fold_left (merge_turn client provider model) rules (∅, ∅, None, false) in
  merged matching acc.1 /\ acc.2 = negb (bool_decide (matching = [])).
Proof.
  induction rules as [|r rules [IH1 IH2]] using rev_ind; cbn.
  - split; [|done]. by split_and!.
  - rewrite fold_left_app, filter_app, filter_cons, filter_nil. cbn [fold_left]. unfold merge_turn at 1 3.
    destruct (rule_matches _ _ _ r) eqn:E.
    + rewrite decide_True by done. split; [by apply merged_rule|]. cbn [snd]. symmetry. apply negb_true_iff, bool_decide_eq_false.
      by intros [_ [=]]%app_eq_nil.
    + rewrite decide_False by congruence. rewrite app_nil_r. by split.
Qed.

(** The last matching action wins. Nothing is resolved exactly when no rule
    matches; otherwise, for every header name, the merged value is the one set by
    the last matching rule that mentions the name, or the name is removed when
    that rule removes it (a rule that did both would remove it), the removals are
    listed once and in order, and each body ceiling is that of the last matching
    rule that names one. *)
Lemma resolve_spec rules client provider model :
  let matching := filter (fun r => rule_matches client provider model r = true) rules in
  match resolveRequestOverrides rules client provider model with
  | None => matching = []
  | Some rv => matching <> [] /\
      (forall name v, rv_headers rv !! name = Some v <-> last_of (rule_action name) matching = Some (Some v)) /\
      (forall name, name ∈ rv_removes rv <-> last_of (rule_action name) matching = Some None) /\
      NoDup (rv_removes rv) /\ StronglySorted before (rv_removes rv) /\
      (rv_body rv ≫= MaxTokens) = last_of rule_max_tokens matching /\
      (rv_body rv ≫= MaxCompletionTokens) = last_of rule_max_completion_tokens matching
  end.
Proof.
  destruct (merge_walk client provider model rules) as [(Hh & Hr & Hm & Hc) Hma].
  cbv zeta. unfold resolveRequestOverrides. destruct rules as [|r0 rules]; [done|].
  destruct (fold_left _ _ _) as [[[h rm] b] matched]. cbn [fst snd] in *. destruct matched.
  - symmetry in Hma. apply negb_true_iff, bool_decide_eq_false in Hma. cbn. split_and!; try done.
    + intros name v. rewrite Hh. destruct (last_of (rule_action name) _) as [[w|]|]; cbn; naive_solver.
    + intros name. by rewrite elem_of_sorted_keys.
    + apply NoDup_sorted_keys.
    + apply sorted_keys_sorted.
  - symmetry in Hma. by apply negb_false_iff, bool_decide_eq_true in Hma.
Qed.

(** ** What the load boundary accepts *)

Section acceptance.
Context `{!Unicode, !Httpguts}.

Definition canon_name (n : bytes) : bytes := CanonicalHeaderKey (TrimSpace n).
Definition ok_name (n : bytes) : Prop := token (TrimSpace n) /\ ForbiddenOverrideHeader (TrimSpace n) = None.
Definition ok_value (v : bytes) : Prop := TrimSpace v <> [] /\ ValidHeaderValue (TrimSpace v) = true.
Definition value_of (m : gmap bytes bytes) (n : bytes) : bytes := default [] (m !! n).
Definition ok_ceiling (v : option Z) : Prop := match v with Some v => 1 <= v <= 1000000 | None => True end.

Definition ok_rule (r : RequestOverride) : Prop :=
  (TrimSpace (Client r), TrimSpace (Provider r), TrimSpace (Model r)) <> ([], [], []) /\
  ~ (Headers r = ∅ /\ RemoveHeaders r = [] /\ overrideBodyEmpty (RuleBody r) = true) /\
  (forall n v, Headers r !! n = Some v -> ok_name n /\ ok_value v) /\
  Forall ok_name (RemoveHeaders r) /\
  NoDup (canon_name <$> (elements (dom (Headers r)) ++ RemoveHeaders r)) /\
  ok_ceiling (RuleBody r ≫= MaxTokens) /\ ok_ceiling (RuleBody r ≫= MaxCompletionTokens).

(** The canonical form of an accepted rule. *)
Definition entry (m : gmap bytes bytes) (n : bytes) : bytes * bytes := (canon_name n, TrimSpace (value_of m n)).
Definition canonical_rule (r : RequestOverride) : RequestOverride :=
  Override (TrimSpace (Client r)) (TrimSpace (Provider r)) (TrimSpace (Model r))
    (list_to_map (entry (Headers r) <$> elements (dom (Headers r)))) (canon_name <$> RemoveHeaders r)
    (if overrideBodyEmpty (RuleBody r) then None else RuleBody r).

Lemma check_name_spec rule n c : check_name rule n = Ok c <-> ok_name n /\ c = canon_name n.
Proof.
  unfold check_name, ok_name, canon_name, ValidHeaderName. pose proof (ValidHeaderFieldName_token (TrimSpace n)) as Hv.
  destruct (decide _) as [E|Hne]; [rewrite E; split; [done|intros [[[] ?] ?]]; done|].
  destruct (ValidHeaderFieldName _); cbn; [|naive_solver]. destruct (ForbiddenOverrideHeader _); naive_solver.
Qed.

Lemma set_headers_spec rule given names : forall headers out, NoDup names ->
  set_headers rule given headers names = Ok out <->
  Forall (fun n => ok_name n /\ ok_value (value_of given n)) names /\ NoDup (canon_name <$> names) /\
  (forall n, n ∈ names -> headers !! canon_name n = None) /\ out = list_to_map (entry given <$> names) ∪ headers.
Proof.
  induction names as [|n names IH]; intros headers out Hnd; cbn [set_headers fmap list_fmap].
  - rewrite list_to_map_nil, (left_id_L ∅ (∪)). split; [intros [= ->]|by intros (_ & _ & _ & ->)]. split_and!; [done|constructor|set_solver|done].
  - apply NoDup_cons in Hnd as [Hn Hnd]. rewrite Forall_cons, NoDup_cons.
    change (entry given n) with (canon_name n, TrimSpace (value_of given n)). rewrite list_to_map_cons.
    destruct (check_name rule n) as [c|e] eqn:Ec.
    2: { split; [done|]. intros ([[Ho _] _] & _). by rewrite (proj2 (check_name_spec rule n _) (conj Ho eq_refl)) in Ec. }
    apply check_name_spec in Ec as [Hok ->]. fold (value_of given n).
    destruct (decide (is_Some _)) as [[v Hv]|Hnone].
    { split; [done|]. intros (_ & _ & Hf & _). specialize (Hf n ltac:(set_solver)). congruence. }
    apply eq_None_not_Some in Hnone. unfold ok_value.
    destruct (decide _) as [Hempty|Hne]; [naive_solver|]. destruct (ValidHeaderValue _) eqn:Ev; cbn [negb]; [|naive_solver].
    rewrite IH by done. split.
    + intros (Hall & Hdup & Hfree & ->). split_and!; try done.
      * intros (m & Hm & Hin)%list_elem_of_fmap. specialize (Hfree m Hin). rewrite Hm, lookup_insert_eq in Hfree. done.
      * intros m [->|Hm]%elem_of_cons; [done|]. specialize (Hfree m Hm). by apply lookup_insert_None in Hfree as [? _].
      * rewrite <- insert_union_l, insert_union_r; [done|]. apply not_elem_of_list_to_map_1.
        rewrite <- list_fmap_compose. intros (m & Hm & Hin)%list_elem_of_fmap. cbn in Hm.
        specialize (Hfree m Hin). by rewrite <- Hm, lookup_insert_eq in Hfree.
    + intros ([_ Hall] & [Hnew Hdup] & Hfree & ->). split_and!; try done.
      * intros m Hm. apply lookup_insert_None. split; [apply Hfree; set_solver|]. intros He. apply Hnew, list_elem_of_fmap. eauto.
      * rewrite <- insert_union_l, insert_union_r; [done|]. apply not_elem_of_list_to_map_1.
        rewrite <- list_fmap_compose. intros (m & Hm & Hin)%list_elem_of_fmap. apply Hnew, list_elem_of_fmap. eauto.
Qed.

Lemma remove_headers_spec rule names : forall seen out,
  remove_headers rule seen names = Ok out <->
  Forall ok_name names /\ NoDup (canon_name <$> names) /\ (forall n, n ∈ names -> canon_name n ∉ seen) /\ out = canon_name <$> names.
Proof.
  induction names as [|n names IH]; intros seen out; cbn [remove_headers fmap list_fmap].
  - split; [intros [= <-]|by intros (_ & _ & _ & ->)]. split_and!; [done|constructor|set_solver|done].
  - rewrite Forall_cons, NoDup_cons. destruct (check_name rule n) as [c|e] eqn:Ec.
    2: { split; [done|]. intros ([Ho _] & _). by rewrite (proj2 (check_name_spec rule n _) (conj Ho eq_refl)) in Ec. }
    apply check_name_spec in Ec as [Hok ->]. destruct (decide _) as [Hin|Hout]; [split; [done|]; set_solver|].
    destruct (remove_headers _ _ names) as [rest|e] eqn:Er.
    + apply IH in Er as (Hall & Hdup & Hfree & ->). split; [intros [= <-]|by intros (_ & _ & _ & ->)]. split_and!; try done; [|set_solver].
      intros (m & Hm & Hin)%list_elem_of_fmap. specialize (Hfree m Hin). set_solver.
    + split; [done|]. intros ([_ Hall] & [Hnew Hdup] & Hfree & _).
      assert (He : remove_headers rule ({[canon_name n]} ∪ seen) names = Ok (canon_name <$> names)); [|congruence].
      apply IH. split_and!; try done. intros m Hm. apply not_elem_of_union. split; [|set_solver].
      rewrite elem_of_singleton. intros He. apply Hnew, list_elem_of_fmap. eauto.
Qed.

Lemma entries_dom m names : dom (list_to_map (entry m <$> names) : gmap bytes bytes) = list_to_set (canon_name <$> names).
Proof. by rewrite dom_list_to_map_L, <- list_fmap_compose. Qed.

Lemma normalize_spec rule r out : normalizeOverrideHeaders rule r = Ok out <->
  (forall n v, Headers r !! n = Some v -> ok_name n /\ ok_value v) /\ Forall ok_name (RemoveHeaders r) /\
  NoDup (canon_name <$> (elements (dom (Headers r)) ++ RemoveHeaders r)) /\
  out = Override (Client r) (Provider r) (Model r) (list_to_map (entry (Headers r) <$> elements (dom (Headers r))))
    (canon_name <$> RemoveHeaders r) (RuleBody r).
Proof.
  set (m := Headers r). set (names := sorted_keys (dom m)).
  assert (Hperm : names ≡ₚ elements (dom m)) by apply merge_sort_Permutation.
  assert (Hall : (forall n v, m !! n = Some v -> ok_name n /\ ok_value v) <->
                 Forall (fun n => ok_name n /\ ok_value (value_of m n)) names).
  { rewrite list.Forall_forall. unfold value_of, names. split.
    - intros Hv n Hn. apply elem_of_sorted_keys, elem_of_dom in Hn as [v Hn]. rewrite Hn. by apply Hv.
    - intros Hv n v Hn. specialize (Hv n). rewrite Hn in Hv. apply Hv, elem_of_sorted_keys, elem_of_dom. eauto. }
  assert (Hdup : NoDup (canon_name <$> (elements (dom m) ++ RemoveHeaders r)) <-> NoDup (canon_name <$> names) /\
    (forall x, x ∈ canon_name <$> names -> x ∉ canon_name <$> RemoveHeaders r) /\ NoDup (canon_name <$> RemoveHeaders r)).
  { rewrite <- NoDup_app, <- fmap_app. apply NoDup_Permutation_proper, fmap_Permutation. by rewrite Hperm. }
  rewrite Hdup, Hall. clear Hall Hdup.
  assert (Hmap : NoDup (canon_name <$> names) -> list_to_map (entry m <$> elements (dom m)) =@{gmap bytes bytes} list_to_map (entry m <$> names)).
  { intros Hnd. symmetry. apply list_to_map_proper; [by rewrite <- list_fmap_compose|by rewrite Hperm]. }
  unfold normalizeOverrideHeaders. fold m. fold names.
  pose proof (set_headers_spec rule m names ∅) as Hset. pose proof (remove_headers_spec rule (RemoveHeaders r) ∅) as Hrem.
  assert (Hnd : NoDup names) by apply NoDup_sorted_keys.
  assert (Hdisj : forall rm, dom (list_to_map (entry m <$> names) : gmap bytes bytes) ## (list_to_set (canon_name <$> rm) : gset bytes) <->
      forall x, x ∈ canon_name <$> names -> x ∉ canon_name <$> rm).
  { intros rm. rewrite entries_dom. clear. set_solver. }
  split.
  - destruct (set_headers _ _ _ _) as [h|] eqn:Eh; [|done]. destruct (remove_headers _ _ _) as [rm|] eqn:Er; [|done].
    destruct (proj1 (Hset h Hnd) eq_refl) as (Ha & Hd & _ & ->). destruct (proj1 (Hrem rm) eq_refl) as (Hb & He & _ & ->).
    rewrite map_union_empty. destruct (decide _) as [Hx|]; [|done]. rewrite Hdisj in Hx. intros [= <-].
    split_and!; try done. by rewrite Hmap.
  - intros (Ha & Hb & (Hd & Hx & He) & ->). rewrite (Hmap Hd).
    rewrite (proj2 (Hset _ Hnd)) by (split_and!; [done|done|done|reflexivity]).
    rewrite (proj2 (Hrem _)) by (split_and!; [done|done|set_solver|reflexivity]).
    rewrite map_union_empty. by rewrite decide_True by (by apply Hdisj).
Qed.

Lemma check_body_spec rule b out : check_body rule b = Ok out <->
  ok_ceiling (b ≫= MaxTokens) /\ ok_ceiling (b ≫= MaxCompletionTokens) /\ out = if overrideBodyEmpty b then None else b.
Proof.
  assert (Hc : forall v, check_ceiling rule v = Ok tt <-> ok_ceiling v).
  { intros [v|]; cbn; [|done]. destruct (Z.ltb_spec v 1), (Z.ltb_spec 1000000 v); cbn; (split; [done || lia|]); done || lia. }
  destruct b as [[mt mc]|]; cbn; [|naive_solver]. rewrite <- !Hc.
  destruct (check_ceiling rule mt) as [[]|]; [|naive_solver]. destruct (check_ceiling rule mc) as [[]|]; naive_solver.
Qed.

Lemma validate_rule_spec rule r out : validate_rule rule r = Ok out <-> ok_rule r /\ out = canonical_rule r.
Proof.
  unfold validate_rule, ok_rule, canonical_rule, rule_scope. cbn [Client Provider Model Headers RemoveHeaders RuleBody].
  destruct (decide _) as [Hs|Hscope]; [by split; [done|]; intros [[Hn _] _]|].
  destruct (decide _) as [Ha|Hact]; [by split; [done|]; intros [(_ & Hn & _) _]|].
  destruct (normalizeOverrideHeaders _ _) as [r'|] eqn:En.
  - apply normalize_spec in En as (H1 & H2 & H3 & ->). cbn [Client Provider Model Headers RemoveHeaders RuleBody] in *.
    destruct (check_body _ _) as [b|] eqn:Eb.
    + apply check_body_spec in Eb as (H4 & H5 & ->). split; [intros [= <-]|by intros [_ ->]]. by split_and!.
    + split; [done|]. intros ((_ & _ & _ & _ & _ & H4 & H5) & _).
      by rewrite (proj2 (check_body_spec rule _ _) (conj H4 (conj H5 eq_refl))) in Eb.
  - split; [done|]. intros ((_ & _ & H1 & H2 & H3 & _) & _).
    match type of En with normalizeOverrideHeaders _ ?r' = _ =>
      by rewrite (proj2 (normalize_spec rule r' _) (conj H1 (conj H2 (conj H3 eq_refl)))) in En end.
Qed.

Lemma validate_rules_spec rules : forall rule scopes out,
  validate_rules rule scopes rules = Ok out <->
  Forall ok_rule rules /\ NoDup ((fun r => rule_scope (canonical_rule r)) <$> rules) /\
  (forall r, r ∈ rules -> scopes !! rule_scope (canonical_rule r) = None) /\ out = canonical_rule <$> rules.
Proof.
  induction rules as [|r rules IH]; intros rule scopes out; cbn [validate_rules fmap list_fmap].
  - split; [intros [= <-]|by intros (_ & _ & _ & ->)]. split_and!; [done|constructor|set_solver|done].
  - rewrite Forall_cons, NoDup_cons. destruct (validate_rule rule r) as [r'|] eqn:Er.
    2: { split; [done|]. intros ([Hr _] & _). by rewrite (proj2 (validate_rule_spec rule r _) (conj Hr eq_refl)) in Er. }
    apply validate_rule_spec in Er as [Hr ->]. destruct (scopes !! _) eqn:Es.
    { split; [done|]. intros (_ & _ & Hf & _). specialize (Hf r ltac:(set_solver)). congruence. }
    pose proof (IH (S rule) (<[rule_scope (canonical_rule r) := rule]> scopes)) as IHr.
    destruct (validate_rules _ _ rules) as [rest|].
    + destruct (proj1 (IHr rest) eq_refl) as (Hall & Hdup & Hfree & ->). split; [intros [= <-]|by intros (_ & _ & _ & ->)].
      split_and!; try done.
      * intros (r' & He & Hin)%list_elem_of_fmap. specialize (Hfree r' Hin). by rewrite <- He, lookup_insert_eq in Hfree.
      * intros r' [->|Hin]%elem_of_cons; [done|]. by apply Hfree, lookup_insert_None in Hin as [? _].
    + split; [done|]. intros ([_ Hall] & [Hnew Hdup] & Hfree & _).
      discriminate (proj2 (IHr _) (conj Hall (conj Hdup (conj (fun r' Hin => proj2 (lookup_insert_None _ _ _ _)
        (conj (Hfree r' (proj2 (elem_of_cons _ _ _) (or_intror Hin))) (fun He => Hnew (proj2 (list_elem_of_fmap _ _ _) (ex_intro _ r' (conj He Hin)))))) eq_refl)))).
Qed.

(** A rule list the load boundary accepts. *)
Definition acceptable (rules : list RequestOverride) : Prop :=
  Z.of_nat (length rules) <= RequestOverridesMax /\ Forall ok_rule rules /\
  NoDup ((fun r => rule_scope (canonical_rule r)) <$> rules).

Lemma validate_spec rules out : validateRequestOverrides rules = Ok out <->
  Z.of_nat (length rules) <= RequestOverridesMax /\ Forall ok_rule rules /\
  NoDup ((fun r => rule_scope (canonical_rule r)) <$> rules) /\ out = canonical_rule <$> rules.
Proof.
  unfold validateRequestOverrides. destruct (Z.ltb_spec RequestOverridesMax (Z.of_nat (length rules))).
  - split; [done|lia].
  - rewrite validate_rules_spec. split; [by intros (? & ? & _ & ?)|]. intros (_ & ? & ? & ->). split_and!; try done.
Qed.

(** C11. The load boundary accepts exactly the rule lists it documents, and stores
    their canonical form. A list is accepted if and only if it has at most 64
    rules; each has a scope after trimming, an action, header names that are
    RFC 7230 tokens and not forbidden, non-empty printable header values, no name
    twice - in one list or in both - up to case, and ceilings in 1..1000000; and
    no two rules have the same scope. What is stored is each rule with trimmed
    scope and values, canonical names, and no empty body. *)
Theorem validate_exact rules :
  match validateRequestOverrides rules with
  | Ok out => acceptable rules /\ out = canonical_rule <$> rules
  | Err _ => ~ acceptable rules
  end.
Proof.
  destruct (validateRequestOverrides rules) as [out|e] eqn:E.
  - apply validate_spec in E as (? & ? & ? & ->). by split; [split_and!|].
  - intros (H1 & H2 & H3). by rewrite (proj2 (validate_spec rules _) (conj H1 (conj H2 (conj H3 eq_refl)))) in E.
Qed.

(** ** The canonical form is stable *)

Lemma TrimSpace_token n : token n -> TrimSpace n = n.
Proof.
  intros [Hne Hn]. rewrite <- (app_nil_r n) at 1. apply TrimSpace_blanks; [done| |constructor].
  apply list.Forall_forall. intros c Hc. apply tchar_range. rewrite forallb_forall in Hn. by apply Hn, list_elem_of_In.
Qed.

Lemma canon_name_fixed n : ok_name n -> canon_name (canon_name n) = canon_name n /\ ok_name (canon_name n).
Proof.
  intros [Ht Hf]. unfold canon_name, ok_name. assert (Hc : token (CanonicalHeaderKey (TrimSpace n))) by by apply CanonicalHeaderKey_token.
  rewrite (TrimSpace_token _ Hc), CanonicalHeaderKey_idem. split_and!; try done.
  unfold ForbiddenOverrideHeader in *. by rewrite TrimSpace_token, ToLower_CanonicalHeaderKey, <- TrimSpace_idem.
Qed.

Lemma canon_names_fixed (names : list bytes) : (forall n, n ∈ names -> ok_name n) -> canon_name <$> (canon_name <$> names) = canon_name <$> names.
Proof.
  intros Hok. rewrite <- list_fmap_compose. apply list_fmap_ext. intros i n Hn. apply list_elem_of_lookup_2 in Hn.
  by apply canon_name_fixed, Hok.
Qed.

Lemma canonical_headers (m : gmap bytes bytes) :
  let m' := list_to_map (entry m <$> elements (dom m)) : gmap bytes bytes in
  (forall n, n ∈ elements (dom m) -> ok_name n) -> NoDup (canon_name <$> elements (dom m)) ->
  elements (dom m') ≡ₚ canon_name <$> elements (dom m) /\
  (forall n, n ∈ elements (dom m) -> value_of m' (canon_name n) = TrimSpace (value_of m n)) /\
  list_to_map (entry m' <$> elements (dom m')) = m'.
Proof.
  intros m' Hok Hnd. set (els := elements (dom m)) in *.
  assert (Hdom : elements (dom m') ≡ₚ canon_name <$> els) by (unfold m'; rewrite entries_dom; by apply elements_list_to_set).
  assert (Hval : forall n, n ∈ els -> value_of m' (canon_name n) = TrimSpace (value_of m n)).
  { intros n Hn. unfold value_of, m'. rewrite (elem_of_list_to_map_1 _ _ (TrimSpace (value_of m n))); [done| |].
    - by rewrite <- list_fmap_compose.
    - apply list_elem_of_fmap. by exists n. }
  split_and!; try done.
  assert (Hentry : entry m' <$> (canon_name <$> els) = entry m <$> els).
  { rewrite <- list_fmap_compose. apply list_fmap_ext. intros i n Hn. apply list_elem_of_lookup_2 in Hn. unfold entry, compose.
    rewrite Hval, TrimSpace_idem by done. f_equal. by apply canon_name_fixed, Hok. }
  unfold m' at 3. rewrite <- Hentry. apply list_to_map_proper; [|by rewrite Hdom].
  rewrite <- list_fmap_compose. change (compose fst (entry m')) with canon_name.
  by rewrite (fmap_Permutation canon_name _ _ Hdom), canon_names_fixed.
Qed.

Lemma canonical_fixed r : ok_rule r -> ok_rule (canonical_rule r) /\ canonical_rule (canonical_rule r) = canonical_rule r.
Proof.
  intros (Hs & Ha & Hh & Hr & Hd & Hm & Hc). rewrite fmap_app, NoDup_app in Hd. destruct Hd as (Hd1 & Hd2 & Hd3).
  assert (Hok : forall n, n ∈ elements (dom (Headers r)) -> ok_name n).
  { intros n [v Hn]%elem_of_elements%elem_of_dom. by destruct (Hh n v Hn). }
  assert (Hrm : canon_name <$> (canon_name <$> RemoveHeaders r) = canon_name <$> RemoveHeaders r).
  { apply canon_names_fixed. by apply list.Forall_forall. }
  destruct (canonical_headers (Headers r) Hok Hd1) as (Hdom & Hval & Hmap).
  unfold canonical_rule at 2 3. unfold ok_rule, canonical_rule. cbn [Client Provider Model Headers RemoveHeaders RuleBody].
  rewrite !TrimSpace_idem, Hmap, Hrm. split; [|by destruct (overrideBodyEmpty (RuleBody r)) eqn:E; rewrite ?E]. split_and!; try done.
  - intros (He & Hre & Hb). apply Ha. split_and!.
    + apply map_empty. intros n. apply eq_None_not_Some. intros Hn%elem_of_dom.
      apply (f_equal dom) in He. rewrite entries_dom, dom_empty_L in He.
      apply (not_elem_of_empty (C := gset bytes) (canon_name n)). rewrite <- He. apply elem_of_list_to_set, list_elem_of_fmap.
      exists n. split; [done|]. by apply elem_of_elements.
    + by apply fmap_nil_inv in Hre.
    + destruct (overrideBodyEmpty (RuleBody r)) eqn:E; congruence.
  - intros n v Hn. apply elem_of_list_to_map_2, list_elem_of_fmap in Hn as (k & [= -> ->] & Hk).
    split; [by apply canon_name_fixed, Hok|]. apply elem_of_elements, elem_of_dom in Hk as [v Hk].
    destruct (Hh k v Hk) as [_ Hv]. unfold ok_value, value_of. by rewrite Hk, TrimSpace_idem.
  - apply Forall_fmap. eapply Forall_impl; [done|]. intros n Hn. by apply canon_name_fixed.
  - rewrite fmap_app, Hrm, NoDup_app. pose proof (fmap_Permutation canon_name _ _ Hdom) as Hp.
    rewrite canon_names_fixed in Hp by done. split_and!; [by rewrite Hp| |done]. intros x. rewrite Hp. apply Hd2.
  - by destruct (overrideBodyEmpty (RuleBody r)).
  - by destruct (overrideBodyEmpty (RuleBody r)).
Qed.

Lemma accepted_names rules out : validateRequestOverrides rules = Ok out ->
  Forall (fun r => forall n, n ∈ dom (Headers r) \/ n ∈ RemoveHeaders r ->
    token n /\ CanonicalHeaderKey n = n /\ ForbiddenOverrideHeader n = None) out.
Proof.
  intros (_ & Hok & _ & ->)%validate_spec.
  apply Forall_fmap. eapply Forall_impl; [done|]. intros r (_ & _ & Hh & Hr & _) n Hn.
  assert (Hc : exists k, ok_name k /\ n = canon_name k).
  { cbn [canonical_rule Headers RemoveHeaders] in Hn. rewrite entries_dom in Hn. rewrite list.Forall_forall in Hr.
    destruct Hn as [(k & -> & Hk)%elem_of_list_to_set%list_elem_of_fmap|(k & -> & Hk)%list_elem_of_fmap]; exists k; split; auto.
    apply elem_of_elements, elem_of_dom in Hk as [v Hk]. by destruct (Hh k v Hk). }
  destruct Hc as (k & Hk & ->). destruct (canon_name_fixed k Hk) as [He [Ht Hf]].
  assert (Htok : token (canon_name k)) by by apply CanonicalHeaderKey_token, Hk.
  rewrite TrimSpace_token in Hf by done. split_and!; try done. unfold canon_name. apply CanonicalHeaderKey_idem.
Qed.

(** C12. The canonical form is a fixed point: what the load boundary stored, it
    accepts again and leaves as it is; and every stored name is a token in its
    canonical spelling that is neither credential-, protocol- nor
    control-owned. *)
Theorem validate_stable rules out : validateRequestOverrides rules = Ok out ->
  validateRequestOverrides out = Ok out /\
  Forall (fun r => forall n, n ∈ dom (Headers r) \/ n ∈ RemoveHeaders r ->
    token n /\ CanonicalHeaderKey n = n /\ ForbiddenOverrideHeader n = None) out.
Proof.
  intros Hv. pose proof (accepted_names rules out Hv) as Hnames. apply validate_spec in Hv as (Hlen & Hok & Hnd & ->). rewrite validate_spec.
  assert (Hfix : canonical_rule <$> (canonical_rule <$> rules) = canonical_rule <$> rules).
  { rewrite <- list_fmap_compose. apply list_fmap_ext. intros i r Hr. rewrite Forall_lookup in Hok. by apply canonical_fixed, (Hok i). }
  split_and!.
  - by rewrite length_fmap.
  - apply Forall_fmap. eapply Forall_impl; [done|]. intros r Hr. by apply canonical_fixed.
  - change (fun r => rule_scope (canonical_rule r)) with (compose rule_scope canonical_rule) in *. by rewrite list_fmap_compose, Hfix, <- list_fmap_compose.
  - done.
  - done.
Qed.
End acceptance.

(** ** A configuration *)

#[local] Instance sample_unicode : Unicode := ascii_unicode.
#[local] Instance sample_httpguts : Httpguts := token_httpguts.

Definition sample_rules : list RequestOverride :=
  [Override (str " app ") [] [] {[str "x-flavor" := str " plain "]} [str "user-agent"] (Some (Body (Some 256) None))].
Definition sample_stored : list RequestOverride :=
  [Override (str "app") [] [] {[str "X-Flavor" := str "plain"]} [str "User-Agent"] (Some (Body (Some 256) None))].

Lemma sample_loaded : validateRequestOverrides sample_rules = Ok sample_stored.
Proof. vm_compute. reflexivity. Qed.
Lemma sample_refused : validateRequestOverrides
  [Override (str "app") [] [] {[str "X-Api-Key" := str "sk"]} [] None] = Err (ForbiddenName 0 (str "X-Api-Key") Credential).
Proof. vm_compute. reflexivity. Qed.

Lemma validate_stable_witness : validateRequestOverrides sample_stored = Ok sample_stored.
Proof. exact (proj1 (validate_stable _ _ sample_loaded)). Defined.
Lemma validate_exact_witness : acceptable sample_rules /\
  ~ acceptable [Override (str "app") [] [] {[str "X-Api-Key" := str "sk"]} [] None].
Proof.
  pose proof (validate_exact sample_rules) as Ha. rewrite sample_loaded in Ha. split; [exact (proj1 Ha)|].
  pose proof (validate_exact [Override (str "app") [] [] {[str "X-Api-Key" := str "sk"]} [] None]) as Hb.
  rewrite sample_refused in Hb. exact Hb.
Defined.
