(* ===== verification/Upstream.v ===== *)
(** proxy/request_upstream.go and the header part of proxy/request_overrides.go:
    the headers of the request sent to the provider. *)

From S2P Require Import Prelude GoStrings GoOrder GoUtf8 Headers Overrides.

(** ** Templates

    [mint] holds the identifiers drawn for one header value. *)

Record templates := Templates { tp_uuid4 : bytes; tp_platform : bytes; tp_msg : bytes; tp_ses : bytes }.

(** strings.ReplaceAll, for a word that is not empty. *)
Fixpoint replace_fuel (fuel : nat) (s old new : bytes) : bytes :=
  match fuel, s with
  | O, _ => s
  | S _, [] => []
  | S fuel, c :: r =>
      if bool_decide (old `prefix_of` s) then new ++ replace_fuel fuel (drop (length old) s) old new
      else c :: replace_fuel fuel r old new
  end.
Definition ReplaceAll (s old new : bytes) : bytes := replace_fuel (length s) s old new.

Definition expandHeaderTemplates (mint : templates) (v : bytes) : bytes :=
  if negb (contains v (str "{{")) then v else
  let v := ReplaceAll v (str "{{uuid4}}") (tp_uuid4 mint) in
  let v := ReplaceAll v (str "{{platform}}") (tp_platform mint) in
  let v := ReplaceAll v (str "{{opencode-msg-id}}") (tp_msg mint) in
  ReplaceAll v (str "{{opencode-ses-id}}") (tp_ses mint).

Example expand_ex : expandHeaderTemplates (Templates (str "u") (str "linux; x86_64") (str "m") (str "s"))
  (str "cli ({{platform}}) {{uuid4}}{{x}}") = str "cli (linux; x86_64) u{{x}}".
Proof. reflexivity. Qed.

(** ** The target's part *)

(** What resolveTarget leaves of the routing headers for this stage. The maps
    are given as the walks Go makes of them. *)
Record target := Target { authHeader : bytes; authPrefix : bytes; extraHeader : list (bytes * list bytes) }.

Definition setResolvedAuth (h : header) (t : target) (key : bytes) : header :=
  if decide (key <> []) then Set_ h (authHeader t) (authPrefix t ++ key) else h.

(** applyProviderHeaders; no entry of [walk] when the provider has none. *)
Definition applyProviderHeaders (mint : bytes -> templates) (walk : list (bytes * bytes)) (h : header) : header :=
  fold_left (fun h '(name, value) => Set_ h name (expandHeaderTemplates (mint name) value)) walk h.

Section assembly.
Context `{!Unicode}.

Definition overrideHeaderAuthOwned (name auth : bytes) : bool :=
  EqualFold name (str "Authorization") || (negb (bool_decide (auth = [])) && EqualFold name auth) || CredentialHeaderName name.

(** applyOverrideHeaders; [walk] is the order of the loop over [rv_headers]. *)
Definition applyOverrideHeaders (h : header) (ov : option (list (bytes * bytes) * list bytes)) (auth : bytes) : header :=
  match ov with
  | None => h
  | Some (walk, removes) =>
      let h := fold_left (fun h '(name, value) => if overrideHeaderAuthOwned name auth then h else Set_ h name value) walk h in
      fold_left (fun h name => if overrideHeaderAuthOwned name auth then h else Del h name) removes h
  end.

(** The loop that forwards the client's headers. *)
Definition not_forwarded (nominated : gset bytes) (k : bytes) : bool :=
  isProxyControlHeaderCanonical k || isHopByHopCanonical k || bool_decide (k ∈ nominated) || isTransportModeHeader k.
Definition forwarded (client : header) : header :=
  filter (fun kv => not_forwarded (connectionTokens client) kv.1 = false) client.

(** The loop over X-Proxy-Headers. *)
Definition extra_refused (k : bytes) : bool := isHopByHop k || isProxyControlHeader k || isTransportModeHeader k.
Definition add_extra (h : header) (e : bytes * list bytes) : header :=
  let '(k, vs) := e in
  if extra_refused k then h else fold_left (fun h v => Add h k v) vs (Del h k).

(** buildUpstreamRequest, from the forwarding loop on. *)
Definition upstreamHeaders (mint : bytes -> templates) (client : header) (t : target) (key : bytes)
    (provider : list (bytes * bytes)) (ov : option (list (bytes * bytes) * list bytes)) : header :=
  let h := forwarded client in
  let h := Del (Del h (str "Authorization")) (authHeader t) in
  let h := setResolvedAuth h t key in
  let h := applyProviderHeaders mint provider h in
  let h := fold_left add_extra (extraHeader t) h in
  let h := applyOverrideHeaders h ov (authHeader t) in
  stripTransportModeHeaders h.

(** ** Walks that touch each name once *)

(** The entry of a walk for the header [k]. *)
Definition named {A} (k : bytes) (walk : list (bytes * A)) : option (bytes * A) :=
  find (fun e => bool_decide (CanonicalHeaderKey e.1 = k)) walk.
Definition distinct {A} (walk : list (bytes * A)) : Prop := NoDup (CanonicalHeaderKey ∘ fst <$> walk).

Lemma named_Some {A} k (walk : list (bytes * A)) n v : named k walk = Some (n, v) -> (n, v) ∈ walk /\ CanonicalHeaderKey n = k.
Proof. intros [Hin Hk]%find_some. split; [by apply list_elem_of_In|]. by apply bool_decide_eq_true in Hk. Qed.
Lemma named_None {A} k (walk : list (bytes * A)) n v : named k walk = None -> (n, v) ∈ walk -> CanonicalHeaderKey n <> k.
Proof. intros Hnone Hin%list_elem_of_In. apply (find_none _ _ Hnone), bool_decide_eq_false in Hin. done. Qed.

(** A walk whose turns each write one header decides every header by its own
    turn. [put] is what a turn leaves under its name. *)
Lemma walk_lookup {A} (f : header -> bytes * A -> header) (put : bytes -> A -> option (list bytes) -> option (list bytes)) walk h k :
  (forall h n v k, f h (n, v) !! k = if decide (CanonicalHeaderKey n = k) then put n v (h !! k) else h !! k) ->
  distinct walk ->
  fold_left f walk h !! k = match named k walk with Some (n, v) => put n v (h !! k) | None => h !! k end.
Proof.
  intros Hf. revert h. induction walk as [|[n v] walk IH]; intros h Hd; [done|]. apply NoDup_cons in Hd as [Hn Hd].
  cbn [fold_left]. rewrite IH, Hf by done. unfold named. cbn [find fst]. fold (named k walk). case_bool_decide as E.
  - rewrite decide_True by done. destruct (named k walk) as [[m w]|] eqn:Ef; [|done].
    apply named_Some in Ef as [Hin Hm]. exfalso. apply Hn, list_elem_of_fmap. exists (m, w). cbn. split; [congruence|done].
  - by rewrite decide_False by done.
Qed.

Lemma Set_lookup h n v k : Set_ h n v !! k = if decide (CanonicalHeaderKey n = k) then Some [v] else h !! k.
Proof. unfold Set_. destruct (decide _) as [->|]; [by rewrite lookup_insert_eq|by rewrite lookup_insert_ne]. Qed.
Lemma Del_lookup h n k : Del h n !! k = if decide (CanonicalHeaderKey n = k) then None else h !! k.
Proof. unfold Del. destruct (decide _) as [->|]; [by rewrite lookup_delete_eq|by rewrite lookup_delete_ne]. Qed.
Lemma Add_all_lookup k vs : forall h k',
  fold_left (fun h v => Add h k v) vs h !! k' =
    if decide (CanonicalHeaderKey k = k') then match default [] (h !! k') ++ vs with [] => h !! k' | all => Some all end else h !! k'.
Proof.
  induction vs as [|v vs IH]; intros h k'; cbn [fold_left].
  - destruct (decide _); [|done]. rewrite app_nil_r. destruct (h !! k') as [[|]|]; done.
  - rewrite IH. unfold Add, Values. destruct (decide _) as [->|]; [|by rewrite lookup_insert_ne].
    rewrite lookup_insert_eq. cbn. rewrite <- app_assoc. by destruct (h !! k') as [[|? ?]|].
Qed.

Lemma add_extra_lookup h k vs k' : add_extra h (k, vs) !! k' =
  if decide (CanonicalHeaderKey k = k') then (if extra_refused k then h !! k' else match vs with [] => None | _ => Some vs end) else h !! k'.
Proof.
  cbn [add_extra]. destruct (extra_refused k); [by destruct (decide _)|]. rewrite Add_all_lookup, Del_lookup.
  destruct (decide _); [|done]. cbn. by destruct vs.
Qed.

Lemma Del_walk_lookup (skip : bytes -> bool) removes : forall h k,
  fold_left (fun h name => if skip name then h else Del h name) removes h !! k =
    if existsb (fun n => bool_decide (CanonicalHeaderKey n = k) && negb (skip n)) removes then None else h !! k.
Proof.
  induction removes as [|n removes IH]; intros h k; [done|]. cbn [fold_left existsb]. rewrite IH. destruct (existsb _ removes); [by rewrite orb_true_r|].
  rewrite orb_false_r. destruct (skip n); [by rewrite andb_false_r|]. rewrite Del_lookup, andb_true_r.
  by destruct (decide _), (bool_decide_reflect (CanonicalHeaderKey n = k)).
Qed.

(** ** The precedence of the sources *)

(** The reference: who decides the header [k], from the weakest source to the
    strongest. *)
Definition own_header (client : header) (t : target) (key : bytes) (k : bytes) : option (list bytes) :=
  if decide (k = CanonicalHeaderKey (authHeader t)) then (if decide (key <> []) then Some [authPrefix t ++ key] else None)
  else if decide (k = str "Authorization") then None
  else if not_forwarded (connectionTokens client) k then None else client !! k.
Definition provider_layer (mint : bytes -> templates) (provider : list (bytes * bytes)) (k : bytes) (own : option (list bytes)) :=
  match named k provider with Some (n, v) => Some [expandHeaderTemplates (mint n) v] | None => own end.
Definition extra_layer (t : target) (k : bytes) (own : option (list bytes)) : option (list bytes) :=
  match named k (extraHeader t) with
  | Some (n, vs) => if extra_refused n then own else match vs with [] => None | _ => Some vs end
  | None => own
  end.
Definition override_layer (t : target) (ov : option (list (bytes * bytes) * list bytes)) (k : bytes) (own : option (list bytes)) :=
  match ov with
  | Some (walk, removes) =>
      if existsb (fun n => bool_decide (CanonicalHeaderKey n = k) && negb (overrideHeaderAuthOwned n (authHeader t))) removes then None
      else match named k walk with
           | Some (n, v) => if overrideHeaderAuthOwned n (authHeader t) then own else Some [v]
           | None => own
           end
  | None => own
  end.
Definition header_of (mint : bytes -> templates) (client : header) (t : target) (key : bytes)
    (provider : list (bytes * bytes)) (ov : option (list (bytes * bytes) * list bytes)) (k : bytes) : option (list bytes) :=
  if decide (k = str "Accept-Encoding" \/ k = str "Range") then None
  else override_layer t ov k (extra_layer t k (provider_layer mint provider k (own_header client t key k))).

Lemma forwarded_lookup client k : forwarded client !! k = if not_forwarded (connectionTokens client) k then None else client !! k.
Proof.
  unfold forwarded. destruct (client !! k) as [vs|] eqn:E.
  - destruct (not_forwarded _ _) eqn:En.
    + apply map_lookup_filter_None. right. intros vs' _. cbn. congruence.
    + apply map_lookup_filter_Some. by split.
  - rewrite map_lookup_filter_None_2 by (by left). by destruct (not_forwarded _ _).
Qed.

Lemma upstream_lookup mint client t key provider ov k :
  distinct provider -> distinct (extraHeader t) -> (forall walk removes, ov = Some (walk, removes) -> distinct walk) ->
  upstreamHeaders mint client t key provider ov !! k = header_of mint client t key provider ov k.
Proof.
  intros Hp He Hov. unfold upstreamHeaders, stripTransportModeHeaders, header_of.
  rewrite !Del_lookup. change (CanonicalHeaderKey (str "Range")) with (str "Range").
  change (CanonicalHeaderKey (str "Accept-Encoding")) with (str "Accept-Encoding").
  destruct (decide (str "Range" = k)) as [Hr|Hr]; [by rewrite decide_True by (by right)|].
  destruct (decide (str "Accept-Encoding" = k)) as [Ha|Ha]; [by rewrite decide_True by (by left)|].
  rewrite decide_False by naive_solver.
  assert (Hextra : fold_left add_extra (extraHeader t) (applyProviderHeaders mint provider
      (setResolvedAuth (Del (Del (forwarded client) (str "Authorization")) (authHeader t)) t key)) !! k =
    extra_layer t k (provider_layer mint provider k (own_header client t key k))).
  { rewrite (walk_lookup _ (fun n vs old => if extra_refused n then old else match vs with [] => None | _ => Some vs end))
      by (done || apply add_extra_lookup). unfold extra_layer.
    unfold applyProviderHeaders. rewrite (walk_lookup _ (fun n v _ => Some [expandHeaderTemplates (mint n) v])) by (done || intros; apply Set_lookup).
    fold (provider_layer mint provider k (setResolvedAuth (Del (Del (forwarded client) (str "Authorization")) (authHeader t)) t key !! k)).
    replace (setResolvedAuth _ t key !! k) with (own_header client t key k); [done|]. unfold setResolvedAuth, own_header.
    destruct (decide (key <> [])); rewrite ?Set_lookup, !Del_lookup, forwarded_lookup;
      change (CanonicalHeaderKey (str "Authorization")) with (str "Authorization"); repeat case_decide; congruence. }
  unfold override_layer. destruct ov as [[walk removes]|]; cbn [applyOverrideHeaders]; [|exact Hextra].
  rewrite Del_walk_lookup. destruct (existsb _ _); [done|].
  rewrite (walk_lookup _ (fun n v old => if overrideHeaderAuthOwned n (authHeader t) then old else Some [v])).
  - by rewrite Hextra.
  - intros h n v k'. destruct (overrideHeaderAuthOwned _ _); [by case_decide|]. apply Set_lookup.
  - by apply (Hov walk removes).
Qed.

(** ** Requests *)

Context `{!Httpguts}.

(** resolveRequestOverrides of a loaded configuration, as this request walks
    it. *)
Definition override_walk (accepted : list RequestOverride) (client provider model : bytes)
    (ov : option (list (bytes * bytes) * list bytes)) : Prop :=
  match resolveRequestOverrides accepted client provider model, ov with
  | None, None => True
  | Some rv, Some (walk, removes) => walk ≡ₚ map_to_list (rv_headers rv) /\ removes = rv_removes rv
  | _, _ => False
  end.

(** A request past the routing boundary: the client's header map is net/http's;
    the auth header is the default or passed isValidAuthHeader; the
    X-Proxy-Headers map and the provider's headers passed their validators. *)
Record valid_request (client : header) (t : target) (provider : list (bytes * bytes)) : Prop := {
  vr_client : forall k vs, client !! k = Some vs -> CanonicalHeaderKey k = k;
  vr_auth : authHeader t = str "Authorization" \/ isValidAuthHeader (authHeader t) = true;
  vr_extra_names : ValidateHeaderNames (extraHeader t).*1 = None;
  vr_extra : forall k vs, (k, vs) ∈ extraHeader t -> isValidAuthHeader k = true;
  vr_provider : ValidateHeaderNames provider.*1 = None;
}.

Lemma distinct_names {A} (walk : list (bytes * A)) : ValidateHeaderNames walk.*1 = None -> distinct walk.
Proof. intros (_ & Hnd & _)%validate_names_spec. by rewrite <- list_fmap_compose in Hnd. Qed.

Lemma Authorization_token : token (str "Authorization").
Proof. by apply token_name_spec. Qed.

Lemma valid_auth_token h : h = str "Authorization" \/ isValidAuthHeader h = true -> token h.
Proof.
  intros [->|Hv]; [apply Authorization_token|]. apply andb_true_iff in Hv as [Hv _]. by apply ValidHeaderFieldName_token.
Qed.

Section accepted.
Context (rules accepted : list RequestOverride) (Haccepted : validateRequestOverrides rules = Ok accepted).

Lemma accepted_action r n a : r ∈ accepted -> rule_action n r = Some a ->
  token n /\ CanonicalHeaderKey n = n /\ ForbiddenOverrideHeader n = None.
Proof.
  intros Hr Ha. pose proof (accepted_names _ _ Haccepted) as Hn. rewrite list.Forall_forall in Hn.
  apply (Hn r Hr). unfold rule_action in Ha. destruct (decide _) as [Hin|_]; [by right|]. left.
  apply elem_of_dom. destruct (Headers r !! n); [eauto|done].
Qed.

Lemma last_action_name client provider model n a :
  last_of (rule_action n) (filter (fun r => rule_matches client provider model r = true) accepted) = Some a ->
  token n /\ CanonicalHeaderKey n = n /\ ForbiddenOverrideHeader n = None.
Proof. intros (r & [_ Hr]%list_elem_of_filter & Ha)%last_of_Some. by apply (accepted_action r n a). Qed.

Lemma override_walk_spec client provider model walk removes :
  override_walk accepted client provider model (Some (walk, removes)) ->
  let action n := last_of (rule_action n) (filter (fun r => rule_matches client provider model r = true) accepted) in
  distinct walk /\ (forall n v, (n, v) ∈ walk <-> action n = Some (Some v)) /\ (forall n, n ∈ removes <-> action n = Some None).
Proof.
  unfold override_walk. pose proof (resolve_spec accepted client provider model) as Hspec. cbv zeta in *.
  destruct (resolveRequestOverrides _ _ _ _) as [rv|]; [|done]. destruct Hspec as (_ & Hh & Hr & _). intros [Hw ->].
  assert (Hin : forall n v, (n, v) ∈ walk <-> rv_headers rv !! n = Some v).
  { intros n v. by rewrite Hw, elem_of_map_to_list. }
  split_and!; [|intros n v; by rewrite Hin|done]. unfold distinct.
  assert (He : CanonicalHeaderKey ∘ fst <$> walk = walk.*1).
  { apply list_fmap_ext. intros i [n v] Hl. apply list_elem_of_lookup_2, Hin, Hh, last_action_name in Hl. cbn. tauto. }
  rewrite He, Hw. apply NoDup_fst_map_to_list.
Qed.

(** The belt of the send stage refuses, of the names the load gate lets
    through, only the target's own auth header. *)
Lemma gate_covers_belt n auth : token n -> CanonicalHeaderKey n = n -> ForbiddenOverrideHeader n = None -> token auth ->
  overrideHeaderAuthOwned n auth = bool_decide (n = CanonicalHeaderKey auth).
Proof.
  intros Hn Hc Hf Ha. unfold ForbiddenOverrideHeader in Hf. rewrite TrimSpace_token, ToLower_token in Hf by done.
  assert (Hl : token (map lower n)) by (split; [by destruct Hn, n|rewrite tchar_lower; apply Hn]).
  unfold forbidden_lower in Hf. destruct (decide _) as [|Hcred] in Hf; [done|]. do 2 (destruct (decide _) in Hf; [done|]).
  destruct (CredentialHeaderName _) eqn:Ecred in Hf; [done|]. unfold CredentialHeaderName in Ecred.
  rewrite TrimSpace_token, ToLower_token in Ecred by done.
  replace (map lower (map lower n)) with (map lower n) in Ecred by (rewrite map_map; apply map_ext; intros; by rewrite lower_idem).
  unfold overrideHeaderAuthOwned, CredentialHeaderName. rewrite TrimSpace_token, ToLower_token, Ecred, orb_false_r by done.
  rewrite !EqualFold_token by (done || apply Authorization_token). rewrite Hc.
  rewrite bool_decide_eq_false_2.
  - rewrite (bool_decide_eq_false_2 (auth = [])) by (by destruct Ha). done.
  - intros He. apply Hcred. change (CanonicalHeaderKey (str "Authorization")) with (str "Authorization") in He. rewrite He. set_solver.
Qed.

Lemma valid_lookup mint client t key provider ov c p m k : valid_request client t provider -> override_walk accepted c p m ov ->
  upstreamHeaders mint client t key provider ov !! k = header_of mint client t key provider ov k.
Proof.
  intros [_ _ He _ Hp] Hov. apply upstream_lookup; [by apply distinct_names|by apply distinct_names|].
  intros walk removes ->. by apply override_walk_spec in Hov as [? _].
Qed.
End accepted.

(** C10. The headers of the upstream request, one by one. For every header name
    the request sent to the provider has exactly what the strongest source that
    mentions it says: the transport owns Accept-Encoding and Range; then the
    operator's overrides (never on a credential header), the client's explicit
    X-Proxy-Headers map, the provider's configured headers, the resolved
    credential in its auth header, and last the client's own headers less the
    routing controls, Authorization, Cookie, the hop-by-hop headers and those the
    Connection header nominates - for every order in which Go walks the maps. *)
Theorem upstream_headers_exact rules accepted mint client t key provider ov c p m :
  validateRequestOverrides rules = Ok accepted -> valid_request client t provider -> override_walk accepted c p m ov ->
  forall k, upstreamHeaders mint client t key provider ov !! k = header_of mint client t key provider ov k.
Proof. intros Ha Hv Hov k. by apply (valid_lookup rules accepted Ha _ _ _ _ _ _ c p m). Qed.

(** A header of the client that must not travel on. *)
Definition private (client : header) (k : bytes) : Prop := not_forwarded (connectionTokens client) k = true.

Lemma valid_extra_allowed client t provider n vs : valid_request client t provider -> (n, vs) ∈ extraHeader t ->
  token n /\ isHopByHopCanonical (CanonicalHeaderKey n) = false /\ isProxyControlHeaderCanonical (CanonicalHeaderKey n) = false.
Proof.
  intros Hv Hin. apply (vr_extra _ _ _ Hv) in Hin. unfold isValidAuthHeader in Hin. apply andb_true_iff in Hin as [Ht Hb].
  apply ValidHeaderFieldName_token in Ht. rewrite negb_true_iff, !orb_false_iff in Hb.
  rewrite isHopByHop_token, isProxyControlHeader_token in Hb by done. tauto.
Qed.

(** Where a header of the upstream request can come from. *)
Inductive source (mint : bytes -> templates) (client : header) (t : target) (key : bytes) (provider : list (bytes * bytes))
    (ov : option (list (bytes * bytes) * list bytes)) (k : bytes) (vs : list bytes) : Prop :=
  | from_credential : k = CanonicalHeaderKey (authHeader t) -> vs = [authPrefix t ++ key] -> key <> [] -> source mint client t key provider ov k vs
  | from_client : client !! k = Some vs -> ~ private client k -> source mint client t key provider ov k vs
  | from_provider n v : (n, v) ∈ provider -> CanonicalHeaderKey n = k -> vs = [expandHeaderTemplates (mint n) v] -> source mint client t key provider ov k vs
  | from_extra n : (n, vs) ∈ extraHeader t -> CanonicalHeaderKey n = k -> source mint client t key provider ov k vs
  | from_override walk removes n v : ov = Some (walk, removes) -> (n, v) ∈ walk -> CanonicalHeaderKey n = k -> vs = [v] ->
      source mint client t key provider ov k vs.

Lemma header_source mint client t key provider ov k vs :
  header_of mint client t key provider ov k = Some vs -> source mint client t key provider ov k vs.
Proof.
  assert (Hown : own_header client t key k = Some vs -> source mint client t key provider ov k vs).
  { unfold own_header. destruct (decide (k = CanonicalHeaderKey (authHeader t))) as [Ha|Ha].
    { destruct (decide (key <> [])) as [Hk|Hk]; intros He; [|discriminate He]. injection He as He.
      apply from_credential; [exact Ha|symmetry; exact He|exact Hk]. }
    destruct (decide (k = str "Authorization")) as [Hb|Hb]; [intros He; discriminate He|].
    destruct (not_forwarded _ _) eqn:En; [done|]. intros Hk. apply from_client; [done|]. unfold private. by rewrite En. }
  unfold header_of, override_layer, extra_layer, provider_layer. case_decide; [done|].
  assert (Hprov : match named k provider with Some (n, v) => Some [expandHeaderTemplates (mint n) v] | None => own_header client t key k end = Some vs ->
    source mint client t key provider ov k vs).
  { destruct (named k provider) as [[n v]|] eqn:En; [|done]. apply named_Some in En as [Hin Hk]. intros [= <-]. by eapply from_provider. }
  set (own := match named k (extraHeader t) with Some _ => _ | None => _ end).
  assert (Hextra : own = Some vs -> source mint client t key provider ov k vs).
  { unfold own. destruct (named k (extraHeader t)) as [[n ws]|] eqn:En; [|done]. apply named_Some in En as [Hin Hk].
    destruct (extra_refused n); [done|]. destruct ws; [done|]. intros [= <-]. by eapply from_extra. }
  clearbody own. destruct ov as [[walk removes]|]; [|done]. destruct (existsb _ removes); [done|].
  destruct (named k walk) as [[n v]|] eqn:En; [|done]. apply named_Some in En as [Hin Hk].
  destruct (overrideHeaderAuthOwned _ _); [done|]. intros [= <-]. by eapply from_override.
Qed.

(** What X-Proxy-Headers can add under a private name is only what the
    Connection header nominated. *)
Lemma private_extra client t provider n vs : valid_request client t provider -> (n, vs) ∈ extraHeader t ->
  private client (CanonicalHeaderKey n) ->
  CanonicalHeaderKey n <> str "Accept-Encoding" -> CanonicalHeaderKey n <> str "Range" -> CanonicalHeaderKey n ∈ connectionTokens client.
Proof.
  intros Hv Hin Hpriv Hae Hr. destruct (valid_extra_allowed _ _ _ _ _ Hv Hin) as (Htok & Hhop & Hctl).
  unfold private, not_forwarded in Hpriv. rewrite Hhop, Hctl in Hpriv. cbn in Hpriv.
  apply orb_true_iff in Hpriv as [Hn|Ht]; [by apply bool_decide_eq_true in Hn|]. exfalso.
  destruct (transport_names (CanonicalHeaderKey n)) as [He|He]; [by apply CanonicalHeaderKey_token|apply CanonicalHeaderKey_idem|exact Ht|by apply Hae|by apply Hr].
Qed.


(** The effect of the loaded rules on one header. *)
Lemma override_layer_spec rules accepted t ov c p m k own :
  validateRequestOverrides rules = Ok accepted -> token (authHeader t) -> override_walk accepted c p m ov ->
  override_layer t ov k own =
    if decide (k = CanonicalHeaderKey (authHeader t)) then own
    else match last_of (rule_action k) (filter (fun r => rule_matches c p m r = true) accepted) with
         | Some (Some v) => Some [v]
         | Some None => None
         | None => own
         end.
Proof.
  intros Ha Ht Hov. unfold override_layer. destruct ov as [[walk removes]|].
  2: { unfold override_walk in Hov. pose proof (resolve_spec accepted c p m) as Hspec. cbv zeta in Hspec.
    destruct (resolveRequestOverrides _ _ _ _); [done|]. rewrite Hspec. by case_decide. }
  destruct (override_walk_spec rules accepted Ha _ _ _ _ _ Hov) as (_ & Hw & Hr). set (matching := filter _ accepted) in *.
  assert (Hname : forall n a, last_of (rule_action n) matching = Some a ->
      CanonicalHeaderKey n = n /\ overrideHeaderAuthOwned n (authHeader t) = bool_decide (n = CanonicalHeaderKey (authHeader t))).
  { intros n a Hn. destruct (last_action_name rules accepted Ha c p m n a Hn) as (H1 & H2 & H3).
    split; [exact H2|]. by apply gate_covers_belt. }
  assert (Hnamed : forall n v, named k walk = Some (n, v) -> n = k /\ last_of (rule_action k) matching = Some (Some v)).
  { intros n v [Hin Hk]%named_Some. apply Hw in Hin. destruct (Hname _ _ Hin) as [Hc _]. rewrite Hc in Hk. by subst n. }
  destruct (existsb _ removes) eqn:Ee.
  - apply existsb_exists in Ee as (n & Hin & Hn). apply list_elem_of_In, Hr in Hin. destruct (Hname _ _ Hin) as [Hc Hb].
    rewrite Hb, Hc, andb_true_iff, negb_true_iff, bool_decide_eq_true, bool_decide_eq_false in Hn. destruct Hn as [-> Hne].
    by rewrite decide_False, Hin by exact Hne.
  - destruct (decide (k = _)) as [Hauth|Hauth].
    + destruct (named k walk) as [[n v]|] eqn:En; [|done]. destruct (Hnamed n v eq_refl) as [-> Hl].
      destruct (Hname _ _ Hl) as [_ Hb]. by rewrite Hb, bool_decide_eq_true_2.
    + destruct (last_of (rule_action k) matching) as [[v|]|] eqn:El.
      * destruct (Hname _ _ El) as [Hc Hb]. destruct (named k walk) as [[n w]|] eqn:En.
        -- destruct (Hnamed n w eq_refl) as [-> [= ->]]. by rewrite Hb, bool_decide_eq_false_2.
        -- apply Hw in El. by destruct (named_None _ _ _ _ En El).
      * exfalso. destruct (Hname _ _ El) as [Hc Hb]. apply Hr, list_elem_of_In in El.
        rewrite <- not_true_iff_false, existsb_exists in Ee. apply Ee. exists k. split; [exact El|].
        by rewrite Hb, Hc, bool_decide_eq_true_2, bool_decide_eq_false_2.
      * destruct (named k walk) as [[n w]|] eqn:En; [|done]. by destruct (Hnamed n w eq_refl) as [_ ?].
Qed.

(** An operator's override reaches the wire. For a configuration the load
    boundary accepted, every header but the target's own auth header and the two
    the transport owns is decided by the last matching rule that mentions it: set
    to its value, or removed, whatever the client and the provider's
    configuration say; a header no matching rule mentions, and the auth header,
    are as they would be without overrides. *)
Theorem override_wins rules accepted mint client t key provider ov c p m :
  validateRequestOverrides rules = Ok accepted -> valid_request client t provider -> override_walk accepted c p m ov ->
  forall k, upstreamHeaders mint client t key provider ov !! k =
    if decide (k = str "Accept-Encoding" \/ k = str "Range") then None
    else if decide (k = CanonicalHeaderKey (authHeader t)) then upstreamHeaders mint client t key provider None !! k
    else match last_of (rule_action k) (filter (fun r => rule_matches c p m r = true) accepted) with
         | Some (Some v) => Some [v]
         | Some None => None
         | None => upstreamHeaders mint client t key provider None !! k
         end.
Proof.
  intros Ha Hv Hov k. rewrite (valid_lookup rules accepted Ha _ _ _ _ _ _ c p m) by done.
  rewrite upstream_lookup by (done || apply distinct_names; apply Hv).
  unfold header_of. destruct (decide (k = str "Accept-Encoding" \/ k = str "Range")); [done|]. cbn [override_layer].
  apply (override_layer_spec rules accepted); [done|apply valid_auth_token, Hv|done].
Qed.
End assembly.

(** ** A request *)

#[local] Instance demo_unicode : Unicode := ascii_unicode.
#[local] Instance demo_httpguts : Httpguts := token_httpguts.

Definition demo_rules : list RequestOverride :=
  [Override (str " app ") [] [] {[str "x-flavor" := str " plain "]} [str "user-agent"] (Some (Body (Some 256) None));
   Override [] (str "openai.com") [] {[str "X-Flavor" := str "vanilla"]} [] None].
Definition demo_accepted : list RequestOverride :=
  match validateRequestOverrides demo_rules with Ok out => out | Err _ => [] end.
Definition demo_client : header := list_to_map [
  (str "User-Agent", [str "app/1"]); (str "Authorization", [str "Bearer operator"]); (str "Cookie", [str "a=b"]);
  (str "X-Proxy-Base-Url", [str "https://api.openai.com"]); (str "Connection", [str "keep-alive, x-secret"]);
  (str "X-Secret", [str "1"]); (str "Range", [str "bytes=0-"]); (str "X-App", [str "1"; str "2"])].
Definition demo_target : target := Target (str "x-api-key") [] [(str "x-trace", [str "t"])].
Definition demo_provider : list (bytes * bytes) := [(str "x-client", str "cli")].
Definition demo_mint (_ : bytes) : templates := Templates [] [] [] [].
Definition demo_override : option (list (bytes * bytes) * list bytes) :=
  (fun rv => (map_to_list (rv_headers rv), rv_removes rv)) <$>
    resolveRequestOverrides demo_accepted (str "app") (str "openai.com") (str "gpt").
Definition demo_sent : header := upstreamHeaders demo_mint demo_client demo_target (str "sk") demo_provider demo_override.

Lemma demo_loaded : validateRequestOverrides demo_rules = Ok demo_accepted.
Proof. vm_compute. reflexivity. Qed.
Lemma demo_walk : override_walk demo_accepted (str "app") (str "openai.com") (str "gpt") demo_override.
Proof. unfold override_walk, demo_override. destruct (resolveRequestOverrides _ _ _ _); [by split|exact I]. Qed.
Lemma demo_valid : valid_request demo_client demo_target demo_provider.
Proof.
  split.
  - apply (bool_decide_unpack (map_Forall (fun k _ => CanonicalHeaderKey k = k) demo_client)). by vm_compute.
  - right. vm_compute. reflexivity.
  - vm_compute. reflexivity.
  - intros k vs Hin. apply list_elem_of_singleton in Hin. injection Hin as -> ->. vm_compute. reflexivity.
  - vm_compute. reflexivity.
Qed.

Lemma upstream_headers_exact_witness :
  demo_sent !! str "X-Flavor" = Some [str "vanilla"] /\ demo_sent !! str "X-Api-Key" = Some [str "sk"] /\
  demo_sent !! str "X-App" = Some [str "1"; str "2"] /\ demo_sent !! str "X-Secret" = None /\ demo_sent !! str "User-Agent" = None.
Proof.
  unfold demo_sent. rewrite !(upstream_headers_exact _ _ _ _ _ _ _ _ _ _ _ demo_loaded demo_valid demo_walk).
  vm_compute. repeat split.
Defined.


Lemma override_wins_witness : demo_sent !! str "X-Flavor" = Some [str "vanilla"] /\ demo_sent !! str "User-Agent" = None.
Proof.
  pose proof (override_wins demo_rules demo_accepted demo_mint demo_client demo_target (str "sk") demo_provider demo_override
    (str "app") (str "openai.com") (str "gpt") demo_loaded demo_valid demo_walk) as Hw.
  split; unfold demo_sent; rewrite Hw; vm_compute; reflexivity.
Defined.
