(* ===== verification/Pacer.v ===== *)
(** proxy/sse_keepalive.go: the response writer of a streaming request, its idle
    ticker and its keepalive comments. *)

From S2P Require Import Prelude GoStrings GoUtf8 Headers.

(** ** The response writer under the pacer

    An http.ResponseWriter is seen through the calls made on it. A status call
    and a write carry the header map of that moment; a write carries the bytes
    that were accepted. The status net/http adds to a body written without one is
    not a call. The writer supports Flush and write deadlines. *)

Inductive author := Handler | Keepalive (forced : bool).
Inductive call :=
  | CHeader (at_ : Z) (code : Z) (hdr : header)
  | CDeadline (at_ : Z)
  | CWrite (at_ : Z) (who : author) (b : bytes)
  | CFlush.

(** [w_dead]: a write has failed. *)
Record ResponseWriter := Writer { w_header : header; w_calls : list call; w_dead : bool }.

(** What a write answers: the count accepted, and whether it failed. An error
    comes with a short count, and is final. *)
Record answer := Answer { a_n : nat; a_failed : bool }.
Definition answers (w : ResponseWriter) (b : bytes) (a : answer) : Prop :=
  (a_n a <= length b)%nat /\ (a_failed a = false -> a_n a = length b) /\
  (w_dead w = true -> a_failed a = true /\ a_n a = 0%nat).

Definition with_header (h : header) (w : ResponseWriter) : ResponseWriter := Writer h (w_calls w) (w_dead w).
Definition called (c : call) (w : ResponseWriter) : ResponseWriter := Writer (w_header w) (w_calls w ++ [c]) (w_dead w).
Definition net_Write (now : Z) (who : author) (b : bytes) (a : answer) (w : ResponseWriter) : ResponseWriter :=
  Writer (w_header w) (w_calls w ++ [CWrite now who (take (a_n a) b)]) (w_dead w || a_failed a).
Definition net_WriteHeader (now code : Z) (w : ResponseWriter) : ResponseWriter := called (CHeader now code (w_header w)) w.

(** ** The pacer *)

Definition sseKeepaliveComment : bytes := str ": keepalive" ++ [10].

Record ssePacer := Pacer {
  p_w : ResponseWriter;
  p_armed : bool;
  p_started : bool;
  p_sse : bool;
  p_modeSet : bool;
  p_stopped : bool;
  p_stopClosed : bool;
  p_lastWrite : Z;
  p_atLineStart : bool;
  p_interval : Z;
  p_writeProgress : Z;
}.

Definition newSSEPacer (w : ResponseWriter) (now interval writeProgress : Z) : ssePacer :=
  Pacer w false false false false false false now true interval writeProgress.

Definition upd_w (f : ResponseWriter -> ResponseWriter) (p : ssePacer) : ssePacer :=
  Pacer (f (p_w p)) (p_armed p) (p_started p) (p_sse p) (p_modeSet p) (p_stopped p) (p_stopClosed p) (p_lastWrite p)
    (p_atLineStart p) (p_interval p) (p_writeProgress p).
Definition set_mode (started sse modeSet : bool) (p : ssePacer) : ssePacer :=
  Pacer (p_w p) (p_armed p) started sse modeSet (p_stopped p) (p_stopClosed p) (p_lastWrite p)
    (p_atLineStart p) (p_interval p) (p_writeProgress p).
Definition set_lastWrite (t : Z) (p : ssePacer) : ssePacer :=
  Pacer (p_w p) (p_armed p) (p_started p) (p_sse p) (p_modeSet p) (p_stopped p) (p_stopClosed p) t
    (p_atLineStart p) (p_interval p) (p_writeProgress p).
Definition set_atLineStart (b : bool) (p : ssePacer) : ssePacer :=
  Pacer (p_w p) (p_armed p) (p_started p) (p_sse p) (p_modeSet p) (p_stopped p) (p_stopClosed p) (p_lastWrite p)
    b (p_interval p) (p_writeProgress p).
Definition set_armed (p : ssePacer) : ssePacer :=
  Pacer (p_w p) true (p_started p) (p_sse p) (p_modeSet p) (p_stopped p) (p_stopClosed p) (p_lastWrite p)
    (p_atLineStart p) (p_interval p) (p_writeProgress p).
Definition set_stopped (p : ssePacer) : ssePacer :=
  Pacer (p_w p) (p_armed p) (p_started p) (p_sse p) (p_modeSet p) true true (p_lastWrite p)
    (p_atLineStart p) (p_interval p) (p_writeProgress p).

(** metrics.SetStreamHeaders *)
Definition hasNoStoreCacheControl (values : list bytes) : bool :=
  existsb (fun value => existsb (fun directive => EqualFold (TrimSpace directive) (str "no-store")) (Split 44 value)) values.
Definition SetStreamHeaders (h : header) : header :=
  let h := Set_ h (str "Content-Type") (str "text/event-stream") in
  let h := if negb (hasNoStoreCacheControl (Values h (str "Cache-Control"))) then Set_ h (str "Cache-Control") (str "no-cache") else h in
  Set_ h (str "Connection") (str "keep-alive").
Definition streamHeaders : header := SetStreamHeaders ∅.
(** writeSSEHeaders on a writer that wraps no pacer. *)
Definition writeSSEHeaders (now status : Z) (w : ResponseWriter) : ResponseWriter :=
  let status := if status =? 0 then 200 else status in
  net_WriteHeader now status (with_header (copyResponseHeaders (w_header w) streamHeaders) w).

Definition content_type (w : ResponseWriter) : bytes := Get (w_header w) (str "Content-Type").

Definition copy_headers (hdr : option header) (w : ResponseWriter) : ResponseWriter :=
  match hdr with Some hdr => with_header (copyResponseHeaders (w_header w) hdr) w | None => w end.

Section ops.
Context `{!Unicode}.

Definition applyStatus (now : Z) (hdr : option header) (status : Z) (p : ssePacer) : ssePacer * bool :=
  if p_stopped p || p_started p then (p, false) else
  let p := upd_w (copy_headers hdr) p in
  let p := set_mode true (isEventStream (content_type (p_w p))) true p in
  (upd_w (net_WriteHeader now status) (set_lastWrite now p), true).

Definition statusCommitted (p : ssePacer) : bool := p_started p && negb (p_stopped p).

Definition WriteHeader (now code : Z) (p : ssePacer) : ssePacer :=
  if p_started p || p_stopped p then p else
  let sse := if negb (p_modeSet p) && (code <? 400) then true else p_sse p in
  upd_w (net_WriteHeader now code) (set_lastWrite now (set_mode true sse true p)).

Definition commitSSELocked (now : Z) (p : ssePacer) : ssePacer :=
  if p_started p || p_stopped p || (p_modeSet p && negb (p_sse p)) then p
  else set_lastWrite now (set_mode true true true (upd_w (writeSSEHeaders now 200) p)).

(** [a] is the answer of the write under it. *)
Definition writeSSELocked (now : Z) (who : author) (b : bytes) (a : answer) (p : ssePacer) : ssePacer :=
  let p := if 0 <? p_writeProgress p then upd_w (called (CDeadline (now + p_writeProgress p))) p else p in
  let p := upd_w (net_Write now who b a) p in
  if Nat.ltb 0 (a_n a) then set_atLineStart (nth (a_n a - 1) b 0 =? 10) p else p.

(** [None]: io.ErrClosedPipe. *)
Definition Write (now : Z) (b : bytes) (a : answer) (p : ssePacer) : ssePacer * option answer :=
  if p_stopped p then (p, None) else
  let p := if negb (p_started p) then commitSSELocked now p else p in
  (writeSSELocked now Handler b a (set_lastWrite now p), Some a).

Definition Flush (p : ssePacer) : ssePacer := upd_w (called CFlush) p.

(** [true]: the goroutine of [loop] is started. *)
Definition ensureArmedLocked (p : ssePacer) : ssePacer * bool :=
  if p_armed p || p_stopped p then (p, false) else (set_armed p, true).
Definition Arm := ensureArmedLocked.

(** Start's critical section; the second answer is [first]: writeComment(true)
    follows. *)
Definition Start (now : Z) (p : ssePacer) : ssePacer * bool * bool :=
  if p_stopped p then (p, false, false) else
  let '(p, go) := ensureArmedLocked p in
  if p_modeSet p && negb (p_sse p) then (p, go, false) else
  let first := negb (p_started p) in
  (if first then commitSSELocked now p else p, go, first).

(** The test of a tick: [true], and writeComment(false) follows. *)
Definition tick_idle (now : Z) (p : ssePacer) : bool :=
  let idle := negb (p_stopped p) && (p_interval p <=? now - p_lastWrite p) in
  negb (p_stopped p || negb idle || negb (p_started p) || negb (p_sse p)).

Definition writeComment (force : bool) (now : Z) (a : answer) (p : ssePacer) : ssePacer * bool :=
  if p_stopped p then (p, false)
  else if negb (p_sse p) then (p, true)
  else if negb (p_atLineStart p) then (p, true)
  else if negb force && (now - p_lastWrite p <? p_interval p) then (p, true)
  else
    let p := writeSSELocked now (Keepalive force) sseKeepaliveComment a p in
    if a_failed a then (p, false) else (Flush (set_lastWrite now p), true).

Definition Stop (p : ssePacer) : ssePacer := if negb (p_armed p) then p else set_stopped p.

Definition applyUpstream (hdr : option header) (p : ssePacer) : ssePacer * bool :=
  if p_stopped p || p_started p then (p, p_sse p) else
  let p := upd_w (copy_headers hdr) p in
  (set_mode (p_started p) (isEventStream (content_type (p_w p))) true p, false).

Definition commitStatus (now status : Z) (p : ssePacer) : ssePacer * bool :=
  if p_stopped p || p_started p then (p, false) else
  (upd_w (net_WriteHeader now status) (set_lastWrite now (set_mode true (p_sse p) (p_modeSet p) p)), true).

Definition errorHeaders (h : header) : header :=
  Set_ (Set_ h (str "Content-Type") (str "application/json")) (str "X-Content-Type-Options") (str "nosniff").
(** writeProtocolHTTPErrorHdr with the rendered envelope [body]. *)
Definition writeProtocolHTTPErrorHdr (now code : Z) (extra : option header) (body : bytes) (a : answer) (w : ResponseWriter) : ResponseWriter :=
  let w := copy_headers extra w in
  let w := with_header (errorHeaders (w_header w)) w in
  net_Write now Handler body a (net_WriteHeader now code w).

Definition commitError (now code : Z) (extra : option header) (body : bytes) (a : answer) (p : ssePacer) : ssePacer * bool :=
  if p_stopped p then (p, false)
  else if p_sse p then (p, true)
  else if p_started p then (p, false)
  else
    let p := upd_w (writeProtocolHTTPErrorHdr now code extra body a) p in
    (set_lastWrite now (set_mode true (p_sse p) (p_modeSet p) p), false).

(** ** The pacer and its goroutines *)

(** The goroutine of [loop]: in its select, between its test and writeComment,
    before it reports a failed comment, returned. *)
Inductive ticker := NoTicker | Selecting | Ticked | Reporting | Exited.

(** [y_starting], [y_reporting]: calls of Start past their critical section and
    before writeComment(true), and before [gone]. [y_gone] counts onGone. *)
Record sys := Sys {
  y_p : ssePacer;
  y_now : Z;
  y_ticker : ticker;
  y_starting : nat;
  y_reporting : nat;
  y_gone : nat;
}.

Definition on_pacer (now : Z) (p : ssePacer) (y : sys) : sys :=
  Sys p now (y_ticker y) (y_starting y) (y_reporting y) (y_gone y).
Definition launch (go : bool) (t : ticker) : ticker := if go then Selecting else t.

(** Edits of the header map that keep the declared body mode, once there is
    one. *)
Definition keeps_mode (p : ssePacer) (h : header) : Prop :=
  p_modeSet p = true -> isEventStream (Get h (str "Content-Type")) = isEventStream (content_type (p_w p)).

(** A step of any goroutine, at a time the clock has reached. A critical section
    is one step, with one reading of the clock. A bare WriteHeader of a success
    status, before any body mode is known, comes from writeSSEHeaders: its header
    map already declares an event stream. *)
Inductive pace : sys -> sys -> Prop :=
  | pace_header y h : keeps_mode (y_p y) h -> pace y (on_pacer (y_now y) (upd_w (with_header h) (y_p y)) y)
  | pace_applyStatus y now hdr status p ok : y_now y <= now ->
      applyStatus now hdr status (y_p y) = (p, ok) -> pace y (on_pacer now p y)
  | pace_WriteHeader y now code : y_now y <= now ->
      (p_modeSet (y_p y) = false -> code < 400 -> isEventStream (content_type (p_w (y_p y))) = true) ->
      pace y (on_pacer now (WriteHeader now code (y_p y)) y)
  | pace_Write y now b a p r : y_now y <= now -> answers (p_w (y_p y)) b a ->
      Write now b a (y_p y) = (p, r) -> pace y (on_pacer now p y)
  | pace_Flush y : pace y (on_pacer (y_now y) (Flush (y_p y)) y)
  | pace_Arm y p go : Arm (y_p y) = (p, go) ->
      pace y (Sys p (y_now y) (launch go (y_ticker y)) (y_starting y) (y_reporting y) (y_gone y))
  | pace_Start y now p go first : y_now y <= now -> Start now (y_p y) = (p, go, first) ->
      pace y (Sys p now (launch go (y_ticker y)) ((if first then 1 else 0) + y_starting y) (y_reporting y) (y_gone y))
  | pace_first y now a n p ok : y_now y <= now -> y_starting y = S n -> answers (p_w (y_p y)) sseKeepaliveComment a ->
      writeComment true now a (y_p y) = (p, ok) ->
      pace y (Sys p now (y_ticker y) n ((if ok then 0 else 1) + y_reporting y) (y_gone y))
  | pace_gone y n : y_reporting y = S n -> pace y (Sys (y_p y) (y_now y) (y_ticker y) (y_starting y) n (S (y_gone y)))
  | pace_tick y now : y_now y <= now -> y_ticker y = Selecting -> 0 < p_interval (y_p y) ->
      pace y (Sys (y_p y) now (if tick_idle now (y_p y) then Ticked else Selecting) (y_starting y) (y_reporting y) (y_gone y))
  | pace_comment y now a p ok : y_now y <= now -> y_ticker y = Ticked -> answers (p_w (y_p y)) sseKeepaliveComment a ->
      writeComment false now a (y_p y) = (p, ok) ->
      pace y (Sys p now (if ok then Selecting else Reporting) (y_starting y) (y_reporting y) (y_gone y))
  | pace_tick_gone y : y_ticker y = Reporting ->
      pace y (Sys (y_p y) (y_now y) Exited (y_starting y) (y_reporting y) (S (y_gone y)))
  | pace_stopped y : y_ticker y = Selecting -> p_stopClosed (y_p y) = true ->
      pace y (Sys (y_p y) (y_now y) Exited (y_starting y) (y_reporting y) (y_gone y))
  | pace_Stop y : pace y (on_pacer (y_now y) (Stop (y_p y)) y)
  | pace_applyUpstream y hdr p already : applyUpstream hdr (y_p y) = (p, already) -> pace y (on_pacer (y_now y) p y)
  | pace_commitStatus y now status p ok : y_now y <= now ->
      commitStatus now status (y_p y) = (p, ok) -> pace y (on_pacer now p y)
  | pace_commitError y now code extra body a p already : y_now y <= now -> answers (p_w (y_p y)) body a ->
      commitError now code extra body a (y_p y) = (p, already) -> pace y (on_pacer now p y).

(** A request's response: a writer on which nothing was called. *)
Definition fresh (h : header) (now interval writeProgress : Z) : sys :=
  Sys (newSSEPacer (Writer h [] false) now interval writeProgress) now NoTicker 0 0 0.

Inductive paced_run (h : header) (now interval writeProgress : Z) : sys -> Prop :=
  | run_fresh : paced_run h now interval writeProgress (fresh h now interval writeProgress)
  | run_step y y' : paced_run h now interval writeProgress y -> pace y y' -> paced_run h now interval writeProgress y'.
End ops.

(** ** What a client reads

    The reference reader of an event stream: lines end with LF, CR or CRLF; a
    line that starts with a colon is a comment; an empty line dispatches the
    event collected so far, if it has data. *)

Record reader := Stream {
  ss_line : bytes;
  ss_cr : bool;
  ss_type : bytes;
  ss_data : list bytes;
  ss_id : bytes;
  ss_events : list (bytes * list bytes * bytes);
}.
Definition no_stream : reader := Stream [] false [] [] [] [].

Definition strip_space (v : bytes) : bytes := match v with 32 :: v => v | _ => v end.
Definition field_line (l : bytes) (s : reader) : reader :=
  let '(name, rest) := span (fun c => negb (c =? 58)) l in
  let value := strip_space (tail rest) in
  if decide (name = str "event") then Stream (ss_line s) (ss_cr s) value (ss_data s) (ss_id s) (ss_events s)
  else if decide (name = str "data") then Stream (ss_line s) (ss_cr s) (ss_type s) (ss_data s ++ [value]) (ss_id s) (ss_events s)
  else if decide (name = str "id" /\ 0 ∉ value) then Stream (ss_line s) (ss_cr s) (ss_type s) (ss_data s) value (ss_events s)
  else s.
Definition dispatch (s : reader) : reader :=
  match ss_data s with
  | [] => Stream (ss_line s) (ss_cr s) [] [] (ss_id s) (ss_events s)
  | data => Stream (ss_line s) (ss_cr s) [] [] (ss_id s) (ss_events s ++ [(ss_type s, data, ss_id s)])
  end.
Definition read_line (l : bytes) (s : reader) : reader :=
  match l with
  | [] => dispatch s
  | 58 :: _ => s
  | _ => field_line l s
  end.
Definition read_byte (s : reader) (c : Z) : reader :=
  if ss_cr s && (c =? 10) then Stream (ss_line s) false (ss_type s) (ss_data s) (ss_id s) (ss_events s)
  else if (c =? 10) || (c =? 13) then
    read_line (ss_line s) (Stream [] (c =? 13) (ss_type s) (ss_data s) (ss_id s) (ss_events s))
  else Stream (ss_line s ++ [c]) false (ss_type s) (ss_data s) (ss_id s) (ss_events s).
Definition reads (s : reader) (b : bytes) : reader := fold_left read_byte b s.

Example reads_ex : ss_events (reads no_stream (str "event: a" ++ [10] ++ str ": keepalive" ++ [10] ++ str "data:x" ++ [13; 10; 13; 10])) =
  [(str "a", [str "x"], [])].
Proof. reflexivity. Qed.

(** The reader is between two lines. *)
Definition at_line (s : reader) : Prop := ss_line s = [] /\ ss_cr s = false.

Lemma reads_app s a b : reads s (a ++ b) = reads (reads s a) b.
Proof. apply fold_left_app. Qed.

Lemma reads_comment s : at_line s -> reads s sseKeepaliveComment = s.
Proof. destruct s as [l cr ty d i ev]. intros [Hl Hc]. cbn in Hl, Hc. subst. reflexivity. Qed.

Lemma reads_comment_prefix s n : at_line s -> ss_events (reads s (take n sseKeepaliveComment)) = ss_events s.
Proof.
  intros Hs. destruct (decide (n < 12)%nat) as [Hn|Hn].
  - destruct s as [l cr ty d i ev]. destruct Hs as [Hl Hc]. cbn in Hl, Hc. subst.
    do 12 (destruct n as [|n]; [reflexivity|]). lia.
  - rewrite take_ge by (cbn; lia). by rewrite reads_comment.
Qed.

Lemma dispatch_line s : ss_line (dispatch s) = ss_line s /\ ss_cr (dispatch s) = ss_cr s.
Proof. unfold dispatch. by destruct (ss_data s). Qed.
Lemma field_line_line l s : ss_line (field_line l s) = ss_line s /\ ss_cr (field_line l s) = ss_cr s.
Proof. unfold field_line. destruct (span _ l). by repeat case_decide. Qed.
Lemma read_line_line l s : ss_line (read_line l s) = ss_line s /\ ss_cr (read_line l s) = ss_cr s.
Proof.
  unfold read_line. destruct l as [|c l]; [apply dispatch_line|].
  repeat match goal with |- context [match ?c with _ => _ end] => is_var c; destruct c end; apply field_line_line || done.
Qed.

(** After a CR the collected line is empty. *)
Definition fine (s : reader) : Prop := ss_cr s = true -> ss_line s = [].
Lemma read_byte_fine s c : fine s -> fine (read_byte s c).
Proof.
  unfold fine, read_byte. intros Hs. destruct (ss_cr s && (c =? 10)); [done|]. destruct ((c =? 10) || (c =? 13)); [|done].
  by destruct (read_line_line (ss_line s) (Stream [] (c =? 13) (ss_type s) (ss_data s) (ss_id s) (ss_events s))) as [-> _].
Qed.
Lemma reads_fine b : fine (reads no_stream b).
Proof.
  induction b as [|c b IH] using rev_ind; [done|]. rewrite reads_app. by apply read_byte_fine.
Qed.

(** A line feed ends a line whatever came before. *)
Lemma read_newline s : fine s -> at_line (read_byte s 10).
Proof.
  intros Hs. unfold read_byte, at_line. destruct (ss_cr s) eqn:Ec; cbn; [split; [by apply Hs|done]|]. apply read_line_line.
Qed.
Lemma at_line_after b : last b = Some 10 -> at_line (reads no_stream b).
Proof.
  intros Hl. destruct b as [|c b _] using rev_ind; [done|]. rewrite last_snoc in Hl. injection Hl as ->.
  rewrite reads_app. apply read_newline, reads_fine.
Qed.

(** ** The invariant *)

Definition sent (c : call) : bytes := match c with CWrite _ _ b => b | _ => [] end.
Definition sent_by_handler (c : call) : bytes := match c with CWrite _ Handler b => b | _ => [] end.
(** The bytes of the response, and those of them the handler wrote. *)
Definition wire (w : ResponseWriter) : bytes := mjoin (sent <$> w_calls w).
Definition body (w : ResponseWriter) : bytes := mjoin (sent_by_handler <$> w_calls w).
Definition is_status (c : call) : bool := match c with CHeader _ _ _ => true | _ => false end.
Definition statuses (calls : list call) : nat := length (List.filter is_status calls).

Lemma wire_snoc w c : wire (called c w) = wire w ++ sent c.
Proof. unfold wire, called. cbn. rewrite fmap_app, join_app. cbn. by rewrite app_nil_r. Qed.
Lemma body_snoc w c : body (called c w) = body w ++ sent_by_handler c.
Proof. unfold body, called. cbn. rewrite fmap_app, join_app. cbn. by rewrite app_nil_r. Qed.
Lemma statuses_snoc calls c : statuses (calls ++ [c]) = (statuses calls + if is_status c then 1 else 0)%nat.
Proof. unfold statuses. rewrite List.filter_app, length_app. cbn. by destruct (is_status c). Qed.

Section theory.
Context `{!Unicode}.

(** A status whose headers declare an event stream. *)
Definition declared (calls : list call) : Prop :=
  exists at_ code hdr, CHeader at_ code hdr ∈ calls /\ isEventStream (Get hdr (str "Content-Type")) = true.

(** The last of the response's own activity: statuses and the handler's writes. *)
Definition touched (t : Z) (c : call) : Prop :=
  match c with CHeader t' _ _ | CWrite t' Handler _ => t' <= t | _ => True end.

(** A keepalive comes after a status that declared an event stream, and, unless
    Start forced it, an interval after the last activity. *)
Definition comment_ok (interval : Z) (pre : list call) (c : call) : Prop :=
  match c with
  | CWrite t (Keepalive forced) _ => declared pre /\ (forced = false -> Forall (touched (t - interval)) pre)
  | _ => True
  end.
Definition comments_ok (interval : Z) (calls : list call) : Prop :=
  forall pre c post, calls = pre ++ c :: post -> comment_ok interval pre c.

Lemma comments_snoc interval calls c : comments_ok interval calls -> comment_ok interval calls c -> comments_ok interval (calls ++ [c]).
Proof.
  intros Hc Hn pre c' post He. destruct post as [|c'' post _] using rev_ind.
  - apply app_inj_tail in He as [-> ->]. done.
  - rewrite app_comm_cons, app_assoc in He. apply app_inj_tail in He as [He _]. by apply (Hc pre c' post).
Qed.

Record ok (now : Z) (p : ssePacer) : Prop := {
  ok_seen : if w_dead (p_w p) then ss_events (reads no_stream (wire (p_w p))) = ss_events (reads no_stream (body (p_w p)))
            else reads no_stream (wire (p_w p)) = reads no_stream (body (p_w p));
  ok_line : w_dead (p_w p) = false -> p_atLineStart p = true ->
            at_line (reads no_stream (wire (p_w p))) \/ (p_started p = true /\ p_sse p = false);
  ok_mode : p_sse p = true -> p_modeSet p = true /\
            (if p_started p then declared (w_calls (p_w p)) else isEventStream (content_type (p_w p)) = true);
  ok_status : statuses (w_calls (p_w p)) = if p_started p then 1%nat else 0%nat;
  ok_comments : comments_ok (p_interval p) (w_calls (p_w p));
  ok_touched : Forall (touched (p_lastWrite p)) (w_calls (p_w p)) /\ p_lastWrite p <= now;
}.

(** A call that is neither a status nor a write. *)
Lemma ok_neutral now p c : ok now p -> sent c = [] -> sent_by_handler c = [] -> is_status c = false ->
  (forall interval pre, comment_ok interval pre c) -> (forall t, touched t c) -> ok now (upd_w (called c) p).
Proof.
  intros [] Hs Hb Hi Hc Ht. unfold upd_w. split; cbn [p_w p_atLineStart p_started p_sse p_modeSet p_interval p_lastWrite];
    rewrite ?wire_snoc, ?body_snoc, ?Hs, ?Hb, ?app_nil_r; cbn [called w_calls w_dead]; try done.
  - intros Hsse. destruct (ok_mode0 Hsse) as [Hm Hd]. split; [done|]. destruct (p_started p); [|done].
    destruct Hd as (t & code & hdr & Hin & Hev). exists t, code, hdr. split; [|done]. apply elem_of_app. by left.
  - by rewrite statuses_snoc, Hi, Nat.add_0_r.
  - by apply comments_snoc.
  - split; [|tauto]. apply Forall_app. split; [tauto|]. by apply Forall_singleton.
Qed.

Lemma declared_app calls c : declared calls -> declared (calls ++ [c]).
Proof. intros (t & code & hdr & Hin & Hev). exists t, code, hdr. split; [|done]. apply elem_of_app. by left. Qed.

Lemma touched_mono t t' c : t <= t' -> touched t c -> touched t' c.
Proof. intros Hle. destruct c as [? ? ?|?|? [|] ?|]; cbn; lia || done. Qed.

Lemma ok_lastWrite now p : ok now p -> ok now (set_lastWrite now p).
Proof.
  intros []. split; try done. cbn. destruct ok_touched0 as [Ht Hl]. split; [|lia]. eapply Forall_impl; [exact Ht|].
  intros c. by apply touched_mono.
Qed.

(** The status is committed. *)
Lemma ok_commit now now' code sse modeSet p : ok now p -> now <= now' -> p_started p = false ->
  (sse = true -> modeSet = true /\ isEventStream (content_type (p_w p)) = true) ->
  ok now' (upd_w (net_WriteHeader now' code) (set_lastWrite now' (set_mode true sse modeSet p))).
Proof.
  intros [] Hle Hst Hmode. unfold upd_w, set_lastWrite, set_mode, net_WriteHeader.
  split; cbn [p_w p_atLineStart p_started p_sse p_modeSet p_interval p_lastWrite];
    rewrite ?wire_snoc, ?body_snoc, ?app_nil_r; cbn [sent sent_by_handler called w_calls w_dead]; rewrite ?app_nil_r; try done.
  - intros Hd Hl. destruct (ok_line0 Hd Hl) as [|[? _]]; [by left|congruence].
  - intros Hsse. destruct (Hmode Hsse) as [Hm Hct]. split; [done|]. exists now', code, (w_header (p_w p)). split; [|done].
    apply elem_of_app. right. by apply list_elem_of_singleton.
  - rewrite statuses_snoc, ok_status0, Hst. done.
  - by apply comments_snoc.
  - destruct ok_touched0 as [Ht Hl]. split; [|lia]. apply Forall_app. split; [|apply Forall_singleton; cbn; lia].
    eapply Forall_impl; [exact Ht|]. intros c. apply touched_mono. lia.
Qed.

(** Later times, and other header maps. *)
Lemma ok_later now now' p : ok now p -> now <= now' -> ok now' p.
Proof. intros [] Hle. split; try done. destruct ok_touched0. split; [done|lia]. Qed.

Lemma ok_header now h sse modeSet p : ok now p ->
  (sse = true -> modeSet = true /\ (p_started p = true -> p_sse p = true) /\
     (p_started p = false -> isEventStream (Get h (str "Content-Type")) = true)) ->
  (p_started p = true -> p_sse p = false -> sse = false) ->
  ok now (set_mode (p_started p) sse modeSet (upd_w (with_header h) p)).
Proof.
  intros [] Hmode Hkeep. unfold upd_w, set_mode, with_header.
  split; cbn [p_w p_atLineStart p_started p_sse p_modeSet p_interval p_lastWrite w_dead w_calls]; try done.
  - intros Hd Hl. destruct (ok_line0 Hd Hl) as [|[? ?]]; [by left|right; auto].
  - intros Hsse. destruct (Hmode Hsse) as (Hm & Hs & Hct). split; [done|]. destruct (p_started p); [|by apply Hct].
    by destruct (ok_mode0 (Hs eq_refl)).
Qed.

(** ** Writes *)

(** What the client has read is what it would read of the handler's bytes. *)
Definition seen (w : ResponseWriter) : Prop :=
  if w_dead w then ss_events (reads no_stream (wire w)) = ss_events (reads no_stream (body w))
  else reads no_stream (wire w) = reads no_stream (body w).

Lemma net_Write_wire now who b a w : wire (net_Write now who b a w) = wire w ++ take (a_n a) b.
Proof. unfold wire, net_Write. cbn [w_calls]. rewrite fmap_app, join_app. cbn. by rewrite app_nil_r. Qed.
Lemma net_Write_body now who b a w :
  body (net_Write now who b a w) = body w ++ match who with Handler => take (a_n a) b | _ => [] end.
Proof. unfold body, net_Write. cbn [w_calls]. rewrite fmap_app, join_app. cbn. by rewrite app_nil_r; destruct who. Qed.

Lemma seen_handler now b a w : seen w -> answers w b a -> seen (net_Write now Handler b a w).
Proof.
  unfold seen. intros Hs (Hn & Hfull & Hdead). rewrite net_Write_wire, net_Write_body. cbn [net_Write w_dead].
  destruct (w_dead w); cbn [orb].
  - destruct (Hdead eq_refl) as [_ ->]. by rewrite take_0, !app_nil_r.
  - rewrite !reads_app, Hs. by destruct (a_failed a).
Qed.

Lemma seen_comment now forced a w : seen w -> answers w sseKeepaliveComment a ->
  (w_dead w = false -> at_line (reads no_stream (wire w))) ->
  seen (net_Write now (Keepalive forced) sseKeepaliveComment a w).
Proof.
  unfold seen. intros Hs (Hn & Hfull & Hdead) Hline. rewrite net_Write_wire, net_Write_body, app_nil_r. cbn [net_Write w_dead].
  destruct (w_dead w); cbn [orb].
  - destruct (Hdead eq_refl) as [_ ->]. by rewrite take_0, !app_nil_r.
  - specialize (Hline eq_refl). rewrite reads_app, Hs in *. destruct (a_failed a).
    + by apply reads_comment_prefix.
    + rewrite (Hfull eq_refl), firstn_all. by apply reads_comment.
Qed.

(** The last accepted byte. *)
Lemma last_accepted b a : (a_n a <= length b)%nat -> (0 < a_n a)%nat -> (nth (a_n a - 1) b 0 =? 10) = true ->
  last (take (a_n a) b) = Some 10.
Proof.
  intros Hn Hpos Hl. apply Z.eqb_eq in Hl. rewrite last_lookup, length_take_le, lookup_take_lt by lia.
  replace (Init.Nat.pred (a_n a)) with (a_n a - 1)%nat by lia. rewrite <- Hl. symmetry.
  destruct (lookup_lt_is_Some_2 b (a_n a - 1)%nat ltac:(lia)) as [x Hx]. rewrite Hx. f_equal. symmetry. by apply nth_lookup_Some with (d := 0) in Hx.
Qed.

(** A write, after which the pacer holds [line] for the start of a line. *)
Lemma ok_net_Write now who b a line p : ok now p -> seen (net_Write now who b a (p_w p)) ->
  (line = true -> w_dead (net_Write now who b a (p_w p)) = false ->
     at_line (reads no_stream (wire (net_Write now who b a (p_w p)))) \/ (p_started p = true /\ p_sse p = false)) ->
  match who with
  | Handler => p_lastWrite p = now
  | Keepalive forced => comment_ok (p_interval p) (w_calls (p_w p)) (CWrite now who (take (a_n a) b))
  end ->
  ok now (set_atLineStart line (upd_w (net_Write now who b a) p)).
Proof.
  intros [] Hseen Hline Hwho. unfold set_atLineStart, upd_w.
  split; cbn [p_w p_atLineStart p_started p_sse p_modeSet p_interval p_lastWrite]; try done.
  - by intros Hd Hl; apply Hline.
  - intros Hsse. destruct (ok_mode0 Hsse) as [Hm Hd]. split; [done|]. destruct (p_started p); [|done]. by apply declared_app.
  - unfold net_Write. cbn [w_calls]. by rewrite statuses_snoc, Nat.add_0_r.
  - apply comments_snoc; [done|]. by destruct who.
  - destruct ok_touched0 as [Ht Hl]. split; [|done]. apply Forall_app. split; [done|]. apply Forall_singleton. destruct who; cbn; [lia|done].
Qed.

Lemma ok_write now who b a p : ok now p -> answers (p_w p) b a ->
  seen (net_Write now who b a (p_w p)) ->
  match who with
  | Handler => p_lastWrite p = now
  | Keepalive forced => comment_ok (p_interval p) (w_calls (p_w p)) (CWrite now who (take (a_n a) b))
  end ->
  ok now (writeSSELocked now who b a p).
Proof.
  intros Hok Hans Hseen Hwho. unfold writeSSELocked.
  set (p1 := if 0 <? p_writeProgress p then upd_w (called (CDeadline (now + p_writeProgress p))) p else p).
  assert (H1 : ok now p1 /\ answers (p_w p1) b a /\ seen (net_Write now who b a (p_w p1)) /\
    match who with
    | Handler => p_lastWrite p1 = now
    | Keepalive forced => comment_ok (p_interval p1) (w_calls (p_w p1)) (CWrite now who (take (a_n a) b))
    end).
  { unfold p1. destruct (0 <? p_writeProgress p); [|done].
    split; [by apply ok_neutral|]. split; [done|]. split.
    - unfold seen in *. rewrite net_Write_wire, net_Write_body in *. unfold upd_w. cbn [p_w]. rewrite wire_snoc, body_snoc, !app_nil_r. done.
    - destruct who as [|forced]; [done|]. cbn. destruct Hwho as [Hd Ht]. split; [by apply declared_app|].
      intros Hf. apply Forall_app. split; [by apply Ht|]. by apply Forall_singleton. }
  clearbody p1. destruct H1 as (Hok1 & (Hn & Hfull & Hdead) & Hs1 & Hc).
  destruct (Nat.ltb_spec 0 (a_n a)).
  - apply ok_net_Write; [done|done| |done]. intros Hl Hd. left. rewrite net_Write_wire. apply at_line_after.
    by rewrite last_app, (last_accepted b a).
  - assert (Hz : a_n a = 0%nat) by lia.
    replace (upd_w (net_Write now who b a) p1) with (set_atLineStart (p_atLineStart p1) (upd_w (net_Write now who b a) p1)) by (by destruct p1).
    apply ok_net_Write; [done|done| |done]. intros Hl Hd. rewrite net_Write_wire, Hz, take_0, app_nil_r.
    apply (ok_line _ _ Hok1); [|done]. cbn [net_Write w_dead] in Hd. by apply orb_false_iff in Hd as [-> _].
Qed.

(** ** The operations *)

Lemma ok_armed now p : ok now p -> ok now (set_armed p).
Proof. intros []. by split. Qed.
Lemma ok_stop now p : ok now p -> ok now (Stop p).
Proof. intros Hok. unfold Stop. destruct (negb _); [done|]. destruct Hok. by split. Qed.
Lemma ok_Flush now p : ok now p -> ok now (Flush p).
Proof. intros Hok. by apply ok_neutral. Qed.

Lemma stream_declared h : isEventStream (Get (copyResponseHeaders h streamHeaders) (str "Content-Type")) = true.
Proof.
  assert (Hk : copyResponseHeaders h streamHeaders !! CanonicalHeaderKey (str "Content-Type") = Some [str "text/event-stream"]).
  { unfold copyResponseHeaders. apply lookup_union_Some_l. vm_compute. reflexivity. }
  unfold Get, Values. rewrite Hk. reflexivity.
Qed.

Lemma copy_headers_form hdr w : exists h, copy_headers hdr w = with_header h w.
Proof. destruct hdr; cbn; eauto. exists (w_header w). by destruct w. Qed.

Lemma ok_commitSSE now now' p : ok now p -> now <= now' -> ok now' (commitSSELocked now' p).
Proof.
  intros Hok Hle. unfold commitSSELocked. destruct (_ || _) eqn:E; [by apply (ok_later now)|].
  rewrite !orb_false_iff in E. destruct E as [[Hst Hstop] _].
  pose proof (ok_header now (copyResponseHeaders (w_header (p_w p)) streamHeaders) false false p Hok) as Hh.
  rewrite Hst in Hh. eapply (ok_commit now now' 200 true true) in Hh; [exact Hh| | |..]; try done.
  intros _. split; [done|]. apply stream_declared.
Qed.

Lemma ok_applyStatus now now' hdr status p : ok now p -> now <= now' -> ok now' (applyStatus now' hdr status p).1.
Proof.
  intros Hok Hle. unfold applyStatus. destruct (_ || _) eqn:E; [by apply (ok_later now)|]. cbn [fst].
  apply orb_false_iff in E as [_ Hst]. destruct (copy_headers_form hdr (p_w p)) as [h Hh].
  replace (upd_w (copy_headers hdr) p) with (upd_w (with_header h) p) by (unfold upd_w; by rewrite Hh).
  pose proof (ok_header now h false false p Hok) as Ho. rewrite Hst in Ho.
  eapply (ok_commit now now' status (isEventStream (content_type (p_w (upd_w (with_header h) p)))) true) in Ho; try done.
Qed.

Lemma ok_WriteHeader now now' code p : ok now p -> now <= now' ->
  (p_modeSet p = false -> code < 400 -> isEventStream (content_type (p_w p)) = true) -> ok now' (WriteHeader now' code p).
Proof.
  intros Hok Hle Hmode. unfold WriteHeader. destruct (_ || _) eqn:E; [by apply (ok_later now)|].
  apply orb_false_iff in E as [Hst _]. apply (ok_commit now); try done. intros Hsse. split; [done|].
  destruct (p_modeSet p) eqn:Em; cbn in Hsse; [|destruct (Z.ltb_spec code 400); cbn in Hsse; [by apply Hmode|]].
  - destruct (ok_mode _ _ Hok Hsse) as [_ Hd]. by rewrite Hst in Hd.
  - destruct (ok_mode _ _ Hok Hsse). congruence.
Qed.

Lemma ok_Write now now' b a p : ok now p -> now <= now' -> answers (p_w p) b a -> ok now' (Write now' b a p).1.
Proof.
  intros Hok Hle Hans. unfold Write. destruct (p_stopped p); [by apply (ok_later now)|]. cbn [fst].
  set (p1 := if negb (p_started p) then commitSSELocked now' p else p).
  assert (H1 : ok now' p1 /\ w_dead (p_w p1) = w_dead (p_w p)).
  { unfold p1. destruct (negb _); [|by split; [apply (ok_later now)|]]. split; [by apply (ok_commitSSE now)|].
    unfold commitSSELocked. by destruct (_ || _). }
  destruct H1 as [Hok1 Hd1]. assert (Hok2 : ok now' (set_lastWrite now' p1)).
  { by apply ok_lastWrite. }
  assert (Hans2 : answers (p_w (set_lastWrite now' p1)) b a) by (unfold answers in *; cbn [set_lastWrite p_w]; by rewrite Hd1).
  apply ok_write; [done|done| |done]. apply seen_handler; [|done]. apply (ok_seen _ _ Hok2).
Qed.

Lemma ok_applyUpstream now hdr p : ok now p -> ok now (applyUpstream hdr p).1.
Proof.
  intros Hok. unfold applyUpstream. destruct (_ || _) eqn:E; [done|]. cbn [fst].
  apply orb_false_iff in E as [_ Hst]. destruct (copy_headers_form hdr (p_w p)) as [h Hh].
  replace (upd_w (copy_headers hdr) p) with (upd_w (with_header h) p) by (unfold upd_w; by rewrite Hh).
  change (p_started (upd_w (with_header h) p)) with (p_started p). apply ok_header; [done| |by rewrite Hst].
  intros Hct. split; [done|]. split; [by rewrite Hst|]. done.
Qed.

Lemma ok_commitStatus now now' status p : ok now p -> now <= now' -> ok now' (commitStatus now' status p).1.
Proof.
  intros Hok Hle. unfold commitStatus. destruct (_ || _) eqn:E; [by apply (ok_later now)|]. cbn [fst].
  apply orb_false_iff in E as [_ Hst]. apply (ok_commit now); try done. intros Hsse. destruct (ok_mode _ _ Hok Hsse) as [Hm Hd].
  by rewrite Hst in Hd.
Qed.

Lemma error_form now code extra body a w : exists h,
  writeProtocolHTTPErrorHdr now code extra body a w = net_Write now Handler body a (net_WriteHeader now code (with_header h w)).
Proof.
  unfold writeProtocolHTTPErrorHdr. destruct (copy_headers_form extra w) as [h0 ->].
  exists (errorHeaders h0). generalize errorHeaders. intros f. reflexivity.
Qed.

Lemma ok_commitError now now' code extra b a p : ok now p -> now <= now' -> answers (p_w p) b a ->
  ok now' (commitError now' code extra b a p).1.
Proof.
  intros Hok Hle Hans. unfold commitError. destruct (p_stopped p); [by apply (ok_later now)|].
  destruct (p_sse p) eqn:Esse; [by apply (ok_later now)|]. destruct (p_started p) eqn:Est; [by apply (ok_later now)|]. cbn [fst].
  destruct (error_form now' code extra b a (p_w p)) as [h Hh]. revert Hh.
  generalize (writeProtocolHTTPErrorHdr now' code extra b a). intros hdr Hh.
  pose proof (ok_header now h false (p_modeSet p) p Hok) as Ho. rewrite Est in Ho.
  eapply (ok_commit now now' code false (p_modeSet p)) in Ho; try done.
  eapply (ok_net_Write now' Handler b a (p_atLineStart p)) in Ho; [|by apply seen_handler; [apply (ok_seen _ _ Ho)|]|by right|done].
  match type of Ho with ok _ ?q => match goal with |- ok _ ?r => replace r with q; [exact Ho|] end end.
  clear -Hh Esse. destruct p. cbn in Hh, Esse.
  cbv [upd_w set_lastWrite set_mode set_atLineStart p_w p_armed p_started p_sse p_modeSet p_stopped p_stopClosed p_lastWrite p_atLineStart p_interval p_writeProgress].
  by rewrite Hh, Esse.
Qed.

Lemma ok_comment force now now' a p : ok now p -> now <= now' -> answers (p_w p) sseKeepaliveComment a -> p_started p = true ->
  ok now' (writeComment force now' a p).1.
Proof.
  intros Hok Hle Hans Hst. apply (ok_later now now') in Hok; [|done]. unfold writeComment. destruct (p_stopped p); [done|].
  destruct (p_sse p) eqn:Esse; [|done]. destruct (p_atLineStart p) eqn:El; [|done]. cbn [negb].
  destruct (negb force && _) eqn:Ei; [done|].
  assert (Hw : ok now' (writeSSELocked now' (Keepalive force) sseKeepaliveComment a p)).
  { apply ok_write; [done|done| |].
    - apply seen_comment; [apply (ok_seen _ _ Hok)|done|]. intros Hd. destruct (ok_line _ _ Hok Hd El) as [|[_ ?]]; [done|congruence].
    - destruct (ok_mode _ _ Hok Esse) as [_ Hd]. rewrite Hst in Hd. split; [done|]. intros ->. cbn in Ei. apply Z.ltb_ge in Ei.
      destruct (ok_touched _ _ Hok) as [Ht _]. eapply Forall_impl; [exact Ht|]. intros c. apply touched_mono. lia. }
  destruct (a_failed a); [done|]. apply ok_Flush. by apply ok_lastWrite.
Qed.

(** ** Every run *)

Record sys_ok (y : sys) : Prop := {
  so_pacer : ok (y_now y) (y_p y);
  so_starting : (0 < y_starting y)%nat -> p_started (y_p y) = true;
  so_ticked : y_ticker y = Ticked -> p_started (y_p y) = true;
  so_closed : p_stopClosed (y_p y) = p_stopped (y_p y);
  so_armed : y_ticker y = NoTicker <-> p_armed (y_p y) = false;
  so_stopped : p_stopped (y_p y) = true -> p_armed (y_p y) = true;
}.

(** What the writes leave of the flags. *)
Definition flags (p : ssePacer) : bool * bool * bool * bool * bool :=
  (p_started p, p_sse p, p_stopped p, p_stopClosed p, p_armed p).

Lemma flags_locked now who b a p : flags (writeSSELocked now who b a p) = flags p.
Proof. unfold writeSSELocked. by destruct (0 <? p_writeProgress p), (Nat.ltb 0 (a_n a)). Qed.

Lemma flags_comment force now a p : flags (writeComment force now a p).1 = flags p.
Proof.
  unfold writeComment. destruct (p_stopped p); [done|]. destruct (negb (p_sse p)); [done|]. destruct (negb (p_atLineStart p)); [done|].
  destruct (negb force && _); [done|]. destruct (a_failed a); cbn [fst]; [apply flags_locked|].
  etransitivity; [|apply (flags_locked now (Keepalive force) sseKeepaliveComment a)]. done.
Qed.

Lemma flags_commitSSE now p : let p' := commitSSELocked now p in
  (p_started p = true -> p_started p' = true) /\ p_stopped p' = p_stopped p /\ p_stopClosed p' = p_stopClosed p /\ p_armed p' = p_armed p.
Proof. unfold commitSSELocked. by destruct (_ || _). Qed.

Lemma flags_Write now b a p : let p' := (Write now b a p).1 in
  (p_started p = true -> p_started p' = true) /\ p_stopped p' = p_stopped p /\ p_stopClosed p' = p_stopClosed p /\ p_armed p' = p_armed p.
Proof.
  unfold Write. destruct (p_stopped p) eqn:E; [done|]. cbv zeta. cbn [fst].
  set (p1 := if negb (p_started p) then commitSSELocked now p else p).
  pose proof (flags_locked now Handler b a (set_lastWrite now p1)) as Hf. injection Hf as -> _ -> -> ->. cbn.
  unfold p1. destruct (negb (p_started p)); [|done]. destruct (flags_commitSSE now p) as (? & Hs & ? & ?). rewrite E in Hs. done.
Qed.

(** A step of a pacer operation that keeps the goroutines. *)
Lemma sys_ok_op y now p : sys_ok y -> ok now p ->
  (p_started (y_p y) = true -> p_started p = true) -> p_stopped p = p_stopped (y_p y) ->
  p_stopClosed p = p_stopClosed (y_p y) -> p_armed p = p_armed (y_p y) -> sys_ok (on_pacer now p y).
Proof. intros [] Hok Hst Hs Hc Ha. split; cbn; rewrite ?Hs, ?Hc, ?Ha; auto. Qed.

(** Start: the ticker goes exactly when it was not armed, and a comment follows
    only a committed status. *)
Lemma Start_facts now now' p p' go first : ok now p -> now <= now' -> Start now' p = (p', go, first) ->
  ok now' p' /\ p_stopped p' = p_stopped p /\ p_stopClosed p' = p_stopClosed p /\
  (p_started p = true -> p_started p' = true) /\ (first = true -> p_started p' = true) /\
  (if p_stopped p then p' = p /\ go = false else p_armed p' = true /\ go = negb (p_armed p)).
Proof.
  intros Hok Hle. unfold Start, ensureArmedLocked. destruct (p_stopped p) eqn:Es.
  { intros [= <- <- <-]. rewrite Es. split; [by apply (ok_later now)|]. done. }
  rewrite orb_false_r. set (p1 := if p_armed p then p else set_armed p).
  assert (H1 : ok now p1 /\ p_stopped p1 = false /\ p_stopClosed p1 = p_stopClosed p /\ p_started p1 = p_started p /\ p_armed p1 = true).
  { unfold p1. destruct (p_armed p) eqn:Ea; [done|]. split; [by apply ok_armed|]. done. }
  replace (if p_armed p then (p, false) else (set_armed p, true)) with (p1, negb (p_armed p)) by (unfold p1; by destruct (p_armed p)).
  destruct H1 as (Hok1 & Hs1 & Hc1 & Hst1 & Ha1). destruct (p_modeSet p1 && negb (p_sse p1)) eqn:Em.
  { intros [= <- <- <-]. split; [by apply (ok_later now)|]. by rewrite Hst1. }
  intros [= <- <- <-]. destruct (p_started p1) eqn:E1; cbn [negb].
  - split; [by apply (ok_later now)|]. by rewrite E1.
  - split; [by apply (ok_commitSSE now)|]. unfold commitSSELocked. rewrite E1, Hs1, Em. cbn. by rewrite Hs1, Hc1, Ha1.
Qed.

Lemma pace_ok y y' : sys_ok y -> pace y y' -> sys_ok y'.
Proof.
  intros Hsys Hstep. pose proof (so_pacer _ Hsys) as Hok. destruct Hstep as [y h Hk|y now hdr st p r Hle Hop|y now code Hle Hm|y now b a p r Hle Hans Hop| |y p go Hop|y now p go first Hle Hop|y now a n p r Hle Hs Hans Hop|y n Hr|y now Hle Ht Hi|y now a p r Hle Ht Hans Hop|y Ht|y Ht Hc| |y hdr p r Hop|y now st p r Hle Hop|y now code extra b a p r Hle Hans Hop].
  - apply sys_ok_op; try done.
    replace (upd_w (with_header h) (y_p y)) with (set_mode (p_started (y_p y)) (p_sse (y_p y)) (p_modeSet (y_p y)) (upd_w (with_header h) (y_p y))) by done.
    apply ok_header; [done| |done]. intros Hsse. destruct (ok_mode _ _ Hok Hsse) as [Hms Hd]. split; [done|]. split; [done|].
    intros Hst. rewrite Hst in Hd. by rewrite (Hk Hms).
  - pose proof (ok_applyStatus _ now hdr st _ Hok Hle) as Ho. rewrite Hop in Ho. unfold applyStatus in Hop.
    destruct (_ || _) in Hop; injection Hop as <- <-; by apply sys_ok_op.
  - apply sys_ok_op; [done|by apply (ok_WriteHeader (y_now y))| | | |]; unfold WriteHeader; by destruct (_ || _).
  - pose proof (ok_Write _ now b a _ Hok Hle Hans) as Ho. destruct (flags_Write now b a (y_p y)) as (F1 & F2 & F3 & F4).
    rewrite Hop in Ho, F1, F2, F3, F4. by apply sys_ok_op.
  - apply sys_ok_op; try done. by apply ok_Flush.
  - unfold Arm, ensureArmedLocked in Hop. destruct Hsys. destruct (_ || _) eqn:E in Hop; injection Hop as <- <-; [by split|].
    apply orb_false_iff in E as [Ea Es]. split; cbn; try done. by apply ok_armed.
  - destruct (Start_facts _ now _ p go first Hok Hle Hop) as (Ho & Hs & Hc & Hst & Hf & Ha). destruct Hsys. split; cbn; try done.
    + intros Hn. destruct first; [by apply Hf|]. cbn in Hn. auto.
    + destruct (p_stopped (y_p y)); [destruct Ha as [-> ->]; cbn; auto|]. destruct go; [done|]. cbn. auto.
    + by rewrite Hs, Hc.
    + destruct (p_stopped (y_p y)); [by destruct Ha as [-> ->]|]. destruct Ha as [-> ->].
      destruct (p_armed (y_p y)) eqn:Ea; cbn; [|done]. by rewrite so_armed0.
    + rewrite Hs. destruct (p_stopped (y_p y)); [|done]. by destruct Ha as [-> ->].
  - assert (Hst : p_started (y_p y) = true) by (apply (so_starting _ Hsys); lia).
    pose proof (ok_comment true _ now a _ Hok Hle Hans Hst) as Ho. pose proof (flags_comment true now a (y_p y)) as Hf.
    rewrite Hop in Ho, Hf. cbn in Ho, Hf. injection Hf as F1 F2 F3 F4 F5. destruct Hsys. split; cbn; rewrite ?F1, ?F3, ?F4, ?F5; auto.
  - destruct Hsys. by split.
  - destruct Hsys. split; cbn; try done; [by apply (ok_later (y_now y))| |].
    + unfold tick_idle. destruct (p_started (y_p y)); [done|]. rewrite !orb_true_r. done.
    + rewrite <- so_armed0, Ht. by destruct (tick_idle _ _).
  - assert (Hst : p_started (y_p y) = true) by by apply (so_ticked _ Hsys).
    pose proof (ok_comment false _ now a _ Hok Hle Hans Hst) as Ho. pose proof (flags_comment false now a (y_p y)) as Hf.
    rewrite Hop in Ho, Hf. cbn in Ho, Hf. injection Hf as F1 F2 F3 F4 F5. destruct Hsys.
    split; cbn; rewrite ?F1, ?F3, ?F4, ?F5; auto. rewrite <- so_armed0, Ht. by destruct r.
  - destruct Hsys. split; cbn; try done. by rewrite <- so_armed0, Ht.
  - destruct Hsys. split; cbn; try done. by rewrite <- so_armed0, Ht.
  - destruct Hsys. unfold Stop. destruct (p_armed (y_p y)) eqn:Ea; cbn [negb]; [|by split; cbn; rewrite ?Ea].
    pose proof (ok_stop _ _ Hok) as Ho. unfold Stop in Ho. rewrite Ea in Ho. split; cbn; try done. by rewrite Ea.
  - pose proof (ok_applyUpstream _ hdr _ Hok) as Ho. rewrite Hop in Ho. unfold applyUpstream in Hop.
    destruct (_ || _) in Hop; injection Hop as <- <-; by apply sys_ok_op.
  - pose proof (ok_commitStatus _ now st _ Hok Hle) as Ho. rewrite Hop in Ho. unfold commitStatus in Hop.
    destruct (_ || _) in Hop; injection Hop as <- <-; by apply sys_ok_op.
  - pose proof (ok_commitError _ now code extra b a _ Hok Hle Hans) as Ho. rewrite Hop in Ho. unfold commitError in Hop.
    destruct (p_stopped (y_p y)), (p_sse (y_p y)), (p_started (y_p y)) in Hop; injection Hop as <- <-; by apply sys_ok_op.
Qed.

Lemma run_ok h now interval progress y : paced_run h now interval progress y -> sys_ok y.
Proof.
  induction 1 as [|y y' _ IH Hstep]; [|by apply (pace_ok y)]. split; cbn; try done; [|lia].
  split; cbn; try done; [by left; done|by intros [|? ?] ? ? [=]].
Qed.

(** C13. Keepalives are invisible. Whatever the handler, the upstream's arrival,
    the waits that commit the stream early, the ticker, failing writes and Stop
    interleave, a reader of the response receives exactly the events of the bytes
    the handler wrote: a comment never splits a line, never ends an event and
    never carries one. *)
Theorem keepalives_invisible h now interval progress y : paced_run h now interval progress y ->
  ss_events (reads no_stream (wire (p_w (y_p y)))) = ss_events (reads no_stream (body (p_w (y_p y)))).
Proof.
  intros Hrun. apply run_ok in Hrun. pose proof (ok_seen _ _ (so_pacer _ Hrun)) as Hs.
  destruct (w_dead (p_w (y_p y))); [done|]. by rewrite Hs.
Qed.

(** C14. The status line is written once, and comments are kept to event streams.
    In every run WriteHeader is called on the response at most once, exactly when
    the pacer counts itself started; a comment comes only after a status whose
    headers declare an event stream, so a JSON body never gets one; and a comment
    of the ticker comes at least an interval after the status and after every
    write of the handler before it. *)
Theorem pacer_commits_once h now interval progress y : paced_run h now interval progress y ->
  let calls := w_calls (p_w (y_p y)) in
  statuses calls = (if p_started (y_p y) then 1%nat else 0%nat) /\
  forall pre at_ forced b post, calls = pre ++ CWrite at_ (Keepalive forced) b :: post ->
    declared pre /\ (forced = false -> Forall (touched (at_ - p_interval (y_p y))) pre).
Proof.
  intros Hrun. apply run_ok in Hrun. destruct (so_pacer _ Hrun). split; [done|].
  intros pre at_ forced b post Hc. by apply (ok_comments0 pre (CWrite at_ (Keepalive forced) b) post).
Qed.

(** ** Stop *)

Lemma stopped_step y y' : p_stopped (y_p y) = true -> pace y y' ->
  p_stopped (y_p y') = true /\ statuses (w_calls (p_w (y_p y'))) = statuses (w_calls (p_w (y_p y))) /\
  wire (p_w (y_p y')) = wire (p_w (y_p y)).
Proof.
  intros Hs Hstep.
  destruct Hstep as [y h Hk|y now hdr st p r Hle Hop|y now code Hle Hm|y now b a p r Hle Hans Hop| |y p go Hop|y now p go first Hle Hop|y now a n p r Hle Hst Hans Hop|y n Hr|y now Hle Ht Hi|y now a p r Hle Ht Hans Hop|y Ht|y Ht Hc| |y hdr p r Hop|y now st p r Hle Hop|y now code extra b a p r Hle Hans Hop]; cbn.
  - done.
  - unfold applyStatus in Hop. rewrite Hs in Hop. by injection Hop as <- <-.
  - unfold WriteHeader. rewrite Hs, orb_true_r. done.
  - unfold Write in Hop. rewrite Hs in Hop. by injection Hop as <- <-.
  - split; [done|]. split.
    { change (statuses (w_calls (p_w (y_p y)) ++ [CFlush]) = statuses (w_calls (p_w (y_p y)))). by rewrite statuses_snoc, Nat.add_0_r. }
    change (wire (called CFlush (p_w (y_p y))) = wire (p_w (y_p y))). by rewrite wire_snoc, app_nil_r.
  - unfold Arm, ensureArmedLocked in Hop. rewrite Hs, orb_true_r in Hop. by injection Hop as <- <-.
  - unfold Start in Hop. rewrite Hs in Hop. by injection Hop as <- <- <-.
  - unfold writeComment in Hop. rewrite Hs in Hop. by injection Hop as <- <-.
  - done.
  - done.
  - unfold writeComment in Hop. rewrite Hs in Hop. by injection Hop as <- <-.
  - done.
  - done.
  - unfold Stop. by destruct (negb _).
  - unfold applyUpstream in Hop. rewrite Hs in Hop. by injection Hop as <- <-.
  - unfold commitStatus in Hop. rewrite Hs in Hop. by injection Hop as <- <-.
  - unfold commitError in Hop. rewrite Hs in Hop. by injection Hop as <- <-.
Qed.

(** C15. Stop ends the response and returns. Once Stop of an armed pacer has taken
    the lock, no step of any goroutine writes another byte or status; and from
    every such state the ticker's goroutine, on its own, reaches its return, so
    the wait for it ends. *)
Theorem stop_is_final h now interval progress y : paced_run h now interval progress y ->
  p_stopped (y_p y) = true ->
  (forall y', rtc pace y y' -> statuses (w_calls (p_w (y_p y'))) = statuses (w_calls (p_w (y_p y))) /\
     wire (p_w (y_p y')) = wire (p_w (y_p y))) /\
  exists y', rtc pace y y' /\ y_ticker y' = Exited /\ w_calls (p_w (y_p y')) = w_calls (p_w (y_p y)).
Proof.
  intros Hrun Hs. apply run_ok in Hrun. split.
  - intros y' Hsteps. clear Hrun. induction Hsteps as [y|y y1 y' Hstep _ IH]; [done|].
    destruct (stopped_step y y1 Hs Hstep) as (Hs1 & Hst & Hw). destruct (IH Hs1) as [-> ->]. done.
  - pose proof (so_closed _ Hrun) as Hc. pose proof (so_stopped _ Hrun Hs) as Ha. pose proof (so_armed _ Hrun) as Hn.
    assert (Hr : forall z, y_ticker z = Reporting -> p_stopped (y_p z) = true -> exists y', rtc pace z y' /\ y_ticker y' = Exited /\ w_calls (p_w (y_p y')) = w_calls (p_w (y_p z))).
    { intros z Hz _. eexists. split; [apply rtc_once, pace_tick_gone, Hz|]. done. }
    destruct (y_ticker y) eqn:Et.
    + rewrite (proj1 Hn eq_refl) in Ha. done.
    + eexists. split; [apply rtc_once, pace_stopped; [done|congruence]|]. done.
    + assert (Hstep : pace y (Sys (y_p y) (y_now y) Reporting (y_starting y) (y_reporting y) (y_gone y))).
      { apply (pace_comment y (y_now y) (Answer 0 true) (y_p y) false); [lia|done| |].
        - repeat split; cbn; try done. lia.
        - unfold writeComment. by rewrite Hs. }
      destruct (Hr (Sys (y_p y) (y_now y) Reporting (y_starting y) (y_reporting y) (y_gone y)) eq_refl Hs) as (y' & Hy & He & Hw).
      exists y'. split; [by eapply rtc_l|]. done.
    + apply Hr; done.
    + exists y. done.
Qed.
End theory.

(** ** Runs *)

#[local] Instance pacer_unicode : Unicode := ascii_unicode.

(** The steps of a concrete run, and what they do where they can happen. *)
Inductive event :=
  | EArm | EStart (now : Z) | EFirst (now : Z) (a : answer) | EGone
  | EWrite (now : Z) (b : bytes) (a : answer) | EUpstream (hdr : header) | EStatus (now status : Z)
  | EError (now code : Z) (body : bytes) (a : answer)
  | ETick (now : Z) | EComment (now : Z) (a : answer) | ETickGone | EStopped | EStop.

Definition answersb (w : ResponseWriter) (b : bytes) (a : answer) : bool :=
  (a_n a <=? length b)%nat && (a_failed a || (a_n a =? length b)%nat) && (negb (w_dead w) || (a_failed a && (a_n a =? 0)%nat)).
Lemma answersb_ok w b a : answersb w b a = true -> answers w b a.
Proof.
  unfold answersb, answers. intros [[H1 H2]%andb_prop H3]%andb_prop. apply Nat.leb_le in H1.
  destruct (a_failed a), (w_dead w); cbn in H2, H3;
    try (apply Nat.eqb_eq in H2); try (apply Nat.eqb_eq in H3); repeat split; done || lia.
Qed.

Definition perform (e : event) (y : sys) : option sys :=
  match e with
  | EArm => let '(p, go) := Arm (y_p y) in
      Some (Sys p (y_now y) (launch go (y_ticker y)) (y_starting y) (y_reporting y) (y_gone y))
  | EStart now => if y_now y <=? now then
      let '(p, go, first) := Start now (y_p y) in
      Some (Sys p now (launch go (y_ticker y)) ((if first : bool then 1 else 0) + y_starting y) (y_reporting y) (y_gone y)) else None
  | EFirst now a =>
      match y_starting y with
      | S n => if (y_now y <=? now) && answersb (p_w (y_p y)) sseKeepaliveComment a then
          let '(p, ok) := writeComment true now a (y_p y) in
          Some (Sys p now (y_ticker y) n ((if ok : bool then 0 else 1) + y_reporting y) (y_gone y)) else None
      | O => None
      end
  | EGone =>
      match y_reporting y with
      | S n => Some (Sys (y_p y) (y_now y) (y_ticker y) (y_starting y) n (S (y_gone y)))
      | O => None
      end
  | EWrite now b a => if (y_now y <=? now) && answersb (p_w (y_p y)) b a then Some (on_pacer now (Write now b a (y_p y)).1 y) else None
  | EUpstream hdr => Some (on_pacer (y_now y) (applyUpstream (Some hdr) (y_p y)).1 y)
  | EStatus now status => if y_now y <=? now then Some (on_pacer now (commitStatus now status (y_p y)).1 y) else None
  | EError now code b a => if (y_now y <=? now) && answersb (p_w (y_p y)) b a then
      Some (on_pacer now (commitError now code None b a (y_p y)).1 y) else None
  | ETick now =>
      match y_ticker y with
      | Selecting => if (y_now y <=? now) && (0 <? p_interval (y_p y)) then
          Some (Sys (y_p y) now (if tick_idle now (y_p y) then Ticked else Selecting) (y_starting y) (y_reporting y) (y_gone y)) else None
      | _ => None
      end
  | EComment now a =>
      match y_ticker y with
      | Ticked => if (y_now y <=? now) && answersb (p_w (y_p y)) sseKeepaliveComment a then
          let '(p, ok) := writeComment false now a (y_p y) in
          Some (Sys p now (if ok : bool then Selecting else Reporting) (y_starting y) (y_reporting y) (y_gone y)) else None
      | _ => None
      end
  | ETickGone =>
      match y_ticker y with
      | Reporting => Some (Sys (y_p y) (y_now y) Exited (y_starting y) (y_reporting y) (S (y_gone y)))
      | _ => None
      end
  | EStopped =>
      match y_ticker y with
      | Selecting => if p_stopClosed (y_p y) then Some (Sys (y_p y) (y_now y) Exited (y_starting y) (y_reporting y) (y_gone y)) else None
      | _ => None
      end
  | EStop => Some (on_pacer (y_now y) (Stop (y_p y)) y)
  end.

Lemma perform_step e y y' : perform e y = Some y' -> pace y y'.
Proof.
  destruct e; cbn [perform]; intros H;
    repeat match type of H with
    | (match ?x with _ => _ end) = _ => let E := fresh "E" in destruct x eqn:E; try done
    end; injection H as <-;
    repeat match goal with
    | H : (_ && _) = true |- _ => apply andb_prop in H as [? ?]
    | H : (_ <=? _) = true |- _ => apply Z.leb_le in H
    | H : (_ <? _) = true |- _ => apply Z.ltb_lt in H
    | H : answersb _ _ _ = true |- _ => apply answersb_ok in H
    end; try (econstructor; done || apply surjective_pairing).
Qed.

Definition performs (es : list event) (y : sys) : option sys :=
  fold_left (fun y e => y ≫= perform e) es (Some y).
Lemma performs_run h now interval progress es y : performs es (fresh h now interval progress) = Some y ->
  paced_run h now interval progress y.
Proof.
  revert y. induction es as [|e es IH] using rev_ind; intros y; unfold performs.
  - intros [= <-]. constructor.
  - rewrite fold_left_app. cbn. intros H. apply bind_Some in H as (y1 & Hy & He).
    eapply run_step; [by apply IH|by apply (perform_step e)].
Qed.

Definition line (s : string) : bytes := str s ++ [10].
Definition whole (b : bytes) : answer := Answer (length b) false.
Definition writes (now : Z) (b : bytes) : event := EWrite now b (whole b).

(** A request waits in the queue: the stream is committed, with a comment. The
    upstream answers, pauses inside a line and then inside an event, and the
    request ends while a tick is due. *)
Definition stream_events : list event :=
  [EArm; EStart 1; EFirst 2 (whole sseKeepaliveComment); writes 5 (str "eve"); ETick 15; EComment 15 (whole sseKeepaliveComment);
   writes 16 (line "nt: a"); ETick 30; EComment 31 (whole sseKeepaliveComment); writes 32 (line "data: 1" ++ [10]);
   ETick 42; EStop].
Definition stream_state : sys :=
  match performs stream_events (fresh ∅ 0 10 0) with Some y => y | None => fresh ∅ 0 10 0 end.
Lemma stream_run : paced_run ∅ 0 10 0 stream_state.
Proof. apply (performs_run _ _ _ _ stream_events). vm_compute. reflexivity. Qed.

Lemma keepalives_invisible_witness :
  wire (p_w (y_p stream_state)) = sseKeepaliveComment ++ line "event: a" ++ sseKeepaliveComment ++ line "data: 1" ++ [10] /\
  body (p_w (y_p stream_state)) = line "event: a" ++ line "data: 1" ++ [10] /\
  ss_events (reads no_stream (wire (p_w (y_p stream_state)))) = [(str "a", [str "1"], [])] /\
  ss_events (reads no_stream (wire (p_w (y_p stream_state)))) = ss_events (reads no_stream (body (p_w (y_p stream_state)))).
Proof.
  split; [vm_compute; reflexivity|]. split; [vm_compute; reflexivity|]. split; [vm_compute; reflexivity|].
  apply (keepalives_invisible ∅ 0 10 0 stream_state stream_run).
Defined.

Lemma pacer_commits_once_witness :
  (length (w_calls (p_w (y_p stream_state))) = 8%nat /\ p_started (y_p stream_state) = true) /\
  statuses (w_calls (p_w (y_p stream_state))) = (if p_started (y_p stream_state) then 1%nat else 0%nat).
Proof.
  split; [split; vm_compute; reflexivity|]. apply (pacer_commits_once ∅ 0 10 0 stream_state stream_run).
Defined.

Lemma stop_is_final_witness :
  y_ticker stream_state = Ticked /\
  exists y', rtc pace stream_state y' /\ y_ticker y' = Exited /\ w_calls (p_w (y_p y')) = w_calls (p_w (y_p stream_state)).
Proof.
  split; [vm_compute; reflexivity|]. apply (stop_is_final ∅ 0 10 0 stream_state stream_run). vm_compute. reflexivity.
Defined.

(** onGone without a dead client: the request ends between a tick's test and its
    comment. writeComment finds the pacer stopped, and the loop reports it the
    way it reports a failed write. *)
Lemma gone_without_failure : exists y, paced_run ∅ 0 10 0 y /\ y_gone y = 1%nat /\ w_dead (p_w (y_p y)) = false.
Proof.
  eexists. split; [apply (performs_run _ _ _ _ (stream_events ++ [EComment 43 (whole sseKeepaliveComment); ETickGone])); vm_compute; reflexivity|].
  split; reflexivity.
Qed.

(** A failed first comment of Start is reported, and the ticker reports its own
    again: the two calls of onGone. *)
Lemma gone_twice : exists y, paced_run ∅ 0 10 0 y /\ y_gone y = 2%nat.
Proof.
  eexists. split; [apply (performs_run _ _ _ _ [EStart 0; EFirst 1 (Answer 0 true); EGone; ETick 11; EComment 11 (Answer 0 true); ETickGone]);
    vm_compute; reflexivity|]. reflexivity.
Qed.

(** A JSON answer: its status is its own, and the ticker stays silent. *)
Lemma json_run : exists y, paced_run ∅ 0 10 0 y /\ wire (p_w (y_p y)) = str "{}" /\ y_ticker y = Selecting /\
  statuses (w_calls (p_w (y_p y))) = 1%nat.
Proof.
  eexists. split; [apply (performs_run _ _ _ _ [EArm; ETick 20; EError 25 502 (str "{}") (whole (str "{}")); ETick 40]); vm_compute; reflexivity|].
  repeat split.
Qed.
