(* ===== verification/ErrClass.v ===== *)
(** metrics/errorclass.go: the canonical classification of an outcome, the
    operator's extensions of its vocabularies and their installation; the quota
    vocabulary of metrics.go; and config_validate.go's rules for extensions. *)

From S2P Require Import Prelude GoStrings GoUtf8.

(** ** Vocabularies *)

Definition nonRetryableQuotaClasses : list bytes := str <$> [
  "insufficient_quota"; "insufficient_credits"; "credit_balance_exhausted"; "organization_spend_limit_exceeded";
  "project_spend_limit_exceeded"; "organization_usage_limit_exceeded"; "billing_hard_limit_reached";
  "billing_not_active"; "exceeded_current_quota_error"; "1113"; "1309"; "1311"; "1314"; "1315"]%string.
Definition clientFaultClasses : list bytes := str <$> [
  "invalid_request_error"; "authentication_error"; "permission_error"; "not_found_error"; "request_too_large";
  "billing_error"; "context_length_exceeded"]%string.
Definition overridesClientFault : list bytes := str <$> ["engine_overloaded"]%string.
Definition rateLimitClasses : list bytes := str <$> [
  "rate_limit_error"; "rate_limit_exceeded"; "rate_limit"; "ratelimiterror"; "too_many_requests";
  "too_many_requests_error"; "tier_limit_exceeded"; "membership_limit_exceeded"; "requests_per_minute_exceeded";
  "rpm_limit_exceeded"; "tpm_limit_exceeded"; "tokens_per_minute_exceeded"; "resource_exhausted"; "quota_exceeded";
  "slow_down"]%string.
Definition retryableClasses : list bytes := str <$> [
  "server_error"; "service_unavailable"; "service_unavailable_error"; "server_is_overloaded"; "api_error";
  "internal_error"; "internal_server_error"; "overloaded_error"; "engine_overloaded"; "upstream_error";
  "bad_gateway"; "gateway_timeout"]%string.
Definition timeoutClasses : list bytes := str <$> [
  "timeout_error"; "timeout"; "request_timeout"; "deadline_exceeded"; "gateway_timeout"]%string.
Definition contentClasses : list bytes := str <$> [
  "empty_completion"; "empty_tool_call"; "truncated"; "reasoning_only"; "empty_turn"]%string.
Definition proxyClasses : list bytes := str <$> [
  "transform_error"; "translation_error"; "stream_read_error"; "response_too_large"; "response_buffer_budget";
  "queue_full"; "storm_queue_full"; "queue_drained"; "invalid_usage"]%string.
Definition TypeQueueDrained : bytes := str "queue_drained".
Definition TypeUpstreamUnreachable : bytes := str "upstream_unreachable".

Definition known (vocabulary : list bytes) (spelling : bytes) : bool := bool_decide (spelling ∈ vocabulary).
Definition either (vocabulary : list bytes) (typ code : bytes) : bool := known vocabulary typ || known vocabulary code.

(** ** Classes *)

Inductive ErrorClass :=
  | ClassNone | ClassRateLimit | ClassQuota | ClassUnavailable | ClassUnreachable | ClassTimeout | ClassContent
  | ClassClientError | ClassProxy | ClassCanceled | ClassUpstream.
#[global] Instance ErrorClass_eq_dec : EqDecision ErrorClass.
Proof. solve_decision. Defined.

Definition Retryable (c : ErrorClass) : bool :=
  match c with ClassRateLimit | ClassUnavailable | ClassUnreachable | ClassTimeout => true | _ => false end.
Definition ErrorClass_IsError (c : ErrorClass) : bool :=
  match c with ClassNone | ClassRateLimit | ClassCanceled => false | _ => true end.
Definition IsRateLimit (c : ErrorClass) : bool := bool_decide (c = ClassRateLimit).

Record ErrorFacts := Facts { f_Status : Z; f_Type : bytes; f_Code : bytes; f_Transport : bool; f_Local : bool }.

(** ** Extensions *)

Record ClassExtensions := Ext { x_RateLimit : list bytes; x_Quota : list bytes; x_Retryable : list bytes }.
#[global] Instance ClassExtensions_eq_dec : EqDecision ClassExtensions.
Proof. solve_decision. Defined.
Definition no_extensions : ClassExtensions := Ext [] [] [].

Section classify.
Context {unicode : Unicode}.

Definition spell (s : bytes) : bytes := ToLower (TrimSpace s).

Fixpoint normalize_from (seen : list bytes) (l : list bytes) : list bytes :=
  match l with
  | [] => []
  | v :: l =>
      let v := spell v in
      if bool_decide (v = []) || bool_decide (v ∈ seen) then normalize_from seen l else v :: normalize_from (v :: seen) l
  end.
Definition normalizeExtension (l : list bytes) : list bytes := normalize_from [] l.
Definition installed (e : ClassExtensions) : ClassExtensions :=
  Ext (normalizeExtension (x_RateLimit e)) (normalizeExtension (x_Quota e)) (normalizeExtension (x_Retryable e)).

Definition extensionMatches (ext : list bytes) (typ code : bytes) : bool :=
  existsb (fun v => bool_decide (v = typ) || bool_decide (v = code)) ext.

(** The built-in test and the operator's, in this order; [x] is what is
    installed. *)
Definition NonRetryableQuotaClass (x : ClassExtensions) (typ code : bytes) : bytes :=
  let typ := ToLower typ in let code := ToLower code in
  if known nonRetryableQuotaClasses typ then typ
  else if known nonRetryableQuotaClasses code then code
  else default [] (head (filter (fun v => v = typ \/ v = code) (x_Quota x))).
Definition IsNonRetryableQuotaErr (x : ClassExtensions) (typ code : bytes) : bool :=
  negb (bool_decide (NonRetryableQuotaClass x typ code = [])).

Definition IsRateLimitClass (x : ClassExtensions) (typ code : bytes) : bool :=
  let typ := spell typ in let code := spell code in
  if either rateLimitClasses typ code then true else extensionMatches (x_RateLimit x) typ code.
Definition IsRetryableClass (x : ClassExtensions) (typ code : bytes) : bool :=
  let typ := spell typ in let code := spell code in
  if either retryableClasses typ code then true else extensionMatches (x_Retryable x) typ code.

Definition isClientFault (typ code : bytes) : bool :=
  if negb (known clientFaultClasses typ) then false
  else if bool_decide (typ = str "invalid_request_error") && known overridesClientFault code then false
  else true.

Definition localClass (typ code : bytes) : option ErrorClass :=
  if either proxyClasses typ code then
    if bool_decide (typ = TypeQueueDrained) || bool_decide (code = TypeQueueDrained) then Some ClassUnavailable else Some ClassProxy
  else if either contentClasses typ code then Some ClassContent else None.
Definition contentClass (typ code : bytes) : option ErrorClass :=
  if either contentClasses typ code then Some ClassContent else None.
Definition isTimeoutClass (typ code : bytes) : bool := either timeoutClasses typ code.

Definition is_2xx (status : Z) : bool := (200 <=? status) && (status <? 300).
Definition absent (s : bytes) : bool := bool_decide (s = []).

Definition Classify (x : ClassExtensions) (f : ErrorFacts) : ErrorClass :=
  let typ := spell (f_Type f) in let code := spell (f_Code f) in
  if is_2xx (f_Status f) && absent typ && absent code && negb (f_Transport f) then ClassNone
  else if negb (absent (NonRetryableQuotaClass x typ code)) then ClassQuota
  else if (f_Status f =? 429) || IsRateLimitClass x typ code then ClassRateLimit
  else if isClientFault typ code && negb (extensionMatches (x_Retryable x) typ code) then ClassClientError
  else if f_Local f then default ClassProxy (localClass typ code)
  else if f_Transport f then if isTimeoutClass typ code then ClassTimeout else ClassUnreachable
  else if is_2xx (f_Status f) then default ClassUpstream (contentClass typ code)
  else if isTimeoutClass typ code then ClassTimeout
  else if 500 <=? f_Status f then ClassUnavailable
  else if IsRetryableClass x typ code then ClassUnavailable
  else if (f_Status f =? 499) && absent typ && absent code then ClassCanceled
  else if (400 <=? f_Status f) && (f_Status f <=? 499) && negb (f_Status f =? 499) then ClassClientError
  else if negb (absent typ) || negb (absent code) then ClassUpstream
  else ClassNone.

Definition InBandRetryable (x : ClassExtensions) (typ code : bytes) : bool :=
  let typ := spell typ in let code := spell code in
  if IsNonRetryableQuotaErr x typ code then false
  else if extensionMatches (x_Retryable x) typ code then true
  else if isClientFault typ code then false
  else either retryableClasses typ code || either timeoutClasses typ code.

Definition IsLocalErrorType (t : bytes) : bool :=
  if bool_decide (t = []) then true else known proxyClasses t || bool_decide (t = TypeUpstreamUnreachable).

(** BuiltinClass; [None] for the empty answer. *)
Inductive builtin := BQuota | BRateLimit | BRetryable | BTimeout | BContent | BProxy | BClientError.
#[global] Instance builtin_eq_dec : EqDecision builtin.
Proof. solve_decision. Defined.
Definition builtin_class (spelling : bytes) : option builtin :=
  if known nonRetryableQuotaClasses spelling then Some BQuota
  else if known rateLimitClasses spelling then Some BRateLimit
  else if known retryableClasses spelling then Some BRetryable
  else if known timeoutClasses spelling then Some BTimeout
  else if known contentClasses spelling then Some BContent
  else if known proxyClasses spelling || bool_decide (spelling = TypeUpstreamUnreachable) then Some BProxy
  else if known clientFaultClasses spelling then Some BClientError
  else None.
Definition BuiltinClass (spelling : bytes) : option builtin := builtin_class (spell spelling).

(** ** Validation *)

Inductive list_key := RetryableList | RateLimitList | QuotaList.
Inductive ext_error :=
  | BlankEntry (l : list_key) (entry : bytes)
  | DuplicateEntry (l : list_key) (entry : bytes) (prev : list_key)
  | DurableEntry (l : list_key) (entry : bytes)
  | MovedEntry (l : list_key) (entry : bytes) (b : builtin).

Definition may_name (l : list_key) : list builtin :=
  match l with RetryableList => [BRetryable; BClientError] | RateLimitList => [BRateLimit] | QuotaList => [BQuota] end.

Fixpoint check_entries (l : list_key) (entries : list bytes) (seen : gmap bytes list_key) : result ext_error (gmap bytes list_key) :=
  match entries with
  | [] => Ok seen
  | entry :: entries =>
      if bool_decide (TrimSpace entry = []) then Err (BlankEntry l entry) else
      let lowered := ToLower entry in
      match seen !! lowered with
      | Some prev => Err (DuplicateEntry l entry prev)
      | None =>
          let seen := <[lowered := l]> seen in
          match BuiltinClass entry with
          | None => check_entries l entries seen
          | Some b =>
              if bool_decide (b ∈ may_name l) then check_entries l entries seen
              else if bool_decide (b = BQuota) then Err (DurableEntry l entry) else Err (MovedEntry l entry b)
          end
      end
  end.
Definition validateErrorClassExtensions (c : ClassExtensions) : result ext_error unit :=
  match check_entries RetryableList (x_Retryable c) ∅ with
  | Err e => Err e
  | Ok seen =>
      match check_entries RateLimitList (x_RateLimit c) seen with
      | Err e => Err e
      | Ok seen => match check_entries QuotaList (x_Quota c) seen with Err e => Err e | Ok _ => Ok tt end
      end
  end.

(** ** Extensions only add *)

Lemma normalize_from_in v seen l : v ∈ normalize_from seen l -> exists e, e ∈ l /\ v = spell e.
Proof.
  revert seen. induction l as [|e l IH]; intros seen; cbn [normalize_from]; [by intros ?%elem_of_nil|].
  destruct (_ || _).
  - intros (e' & ? & ->)%IH. exists e'. split; [by right|done].
  - intros [->|(e' & ? & ->)%IH]%elem_of_cons; [exists e|exists e']; (split; [|done]); [by left|by right].
Qed.

Lemma check_entries_allowed l entries seen seen' e : check_entries l entries seen = Ok seen' -> e ∈ entries ->
  forall b, BuiltinClass e = Some b -> b ∈ may_name l.
Proof.
  revert seen. induction entries as [|e0 entries IH]; intros seen; [by intros _ ?%elem_of_nil|]. cbn [check_entries].
  destruct (bool_decide (TrimSpace e0 = [])); [done|]. destruct (seen !! ToLower e0); [done|].
  destruct (BuiltinClass e0) as [b0|] eqn:E0.
  - destruct (bool_decide (b0 ∈ may_name l)) eqn:Ea; [|by destruct (bool_decide (b0 = BQuota))]. apply bool_decide_eq_true in Ea.
    intros Hc [->|Hin]%elem_of_cons b Hb; [by simplify_eq|by eapply IH].
  - intros Hc [->|Hin]%elem_of_cons b Hb; [congruence|by eapply IH].
Qed.

(** An installed spelling of an accepted list is not a built-in one of another
    class. *)
Definition only_adds (l : list_key) (ext : list bytes) : Prop :=
  Forall (fun v => forall b, builtin_class v = Some b -> b ∈ may_name l) ext.
Lemma accepted_adds c : validateErrorClassExtensions c = Ok tt ->
  only_adds RetryableList (x_Retryable (installed c)) /\ only_adds RateLimitList (x_RateLimit (installed c)) /\
  only_adds QuotaList (x_Quota (installed c)).
Proof.
  unfold validateErrorClassExtensions. destruct (check_entries RetryableList _ _) as [s1|] eqn:E1; [|done].
  destruct (check_entries RateLimitList _ _) as [s2|] eqn:E2; [|done].
  destruct (check_entries QuotaList _ _) as [s3|] eqn:E3; [|done]. intros _.
  unfold only_adds, installed, normalizeExtension. cbn [x_Retryable x_RateLimit x_Quota].
  split_and!; apply Forall_forall; intros v (e & Hin & ->)%normalize_from_in b Hb; by eapply check_entries_allowed.
Qed.

Lemma extensionMatches_spec ext typ code : extensionMatches ext typ code = true <-> typ ∈ ext \/ code ∈ ext.
Proof.
  unfold extensionMatches. rewrite existsb_exists. split.
  - intros (v & Hin & [->%bool_decide_eq_true| ->%bool_decide_eq_true]%orb_true_iff); apply list_elem_of_In in Hin; tauto.
  - intros [H|H]; apply list_elem_of_In in H; eexists; (split; [exact H|]); rewrite orb_true_iff, !bool_decide_eq_true; tauto.
Qed.

Lemma normalize_from_present seen l : Forall (fun v => v <> []) (normalize_from seen l).
Proof.
  revert seen. induction l as [|e l IH]; intros seen; [constructor|]. cbn [normalize_from].
  destruct (bool_decide (spell e = [])) eqn:E; cbn [orb]; [apply IH|]. apply bool_decide_eq_false in E.
  destruct (bool_decide (spell e ∈ seen)); [apply IH|by constructor].
Qed.

(** A member of an envelope that is empty or a built-in spelling. *)
Definition settled (s : bytes) : Prop := s = [] \/ exists b, builtin_class s = Some b.

Definition builtins : list bytes :=
  nonRetryableQuotaClasses ++ rateLimitClasses ++ retryableClasses ++ timeoutClasses ++ contentClasses ++ proxyClasses ++
  [TypeUpstreamUnreachable] ++ clientFaultClasses.
Lemma known_spec l s : known l s = true <-> s ∈ l.
Proof. apply bool_decide_eq_true. Qed.
Lemma builtin_in s b : builtin_class s = Some b -> s ∈ builtins.
Proof.
  unfold builtin_class, builtins. rewrite !elem_of_app, list_elem_of_singleton.
  repeat match goal with |- context [known ?l s] => destruct (known l s) eqn:?; [rewrite known_spec in *; tauto|] end.
  cbn [orb]. destruct (bool_decide _) eqn:E; [|done]. apply bool_decide_eq_true in E. tauto.
Qed.
Lemma builtins_ascii : Forall (fun s => ascii s = true /\ map lower s = s /\ TrimSpace s = s) builtins.
Proof.
  assert (H : forallb (fun s => ascii s && bool_decide (map lower s = s) && bool_decide (TrimSpace s = s)) builtins = true)
    by (vm_compute; reflexivity).
  rewrite Forall_forall. intros s Hs%list_elem_of_In. rewrite forallb_forall in H.
  destruct (andb_prop _ _ (H s Hs)) as [[H1 H2%bool_decide_eq_true]%andb_prop H3%bool_decide_eq_true]. done.
Qed.
Lemma settled_fixed s : settled s -> ToLower s = s /\ spell s = s.
Proof.
  intros [->|[b Hb%builtin_in]]; [done|]. pose proof builtins_ascii as Ha. rewrite Forall_forall in Ha.
  destruct (Ha _ Hb) as (H1 & H2 & H3). unfold spell. rewrite H3. by rewrite ToLower_ascii.
Qed.

(** An accepted extension that matches a settled member names its own class, or
    overrides a client fault. *)
Lemma adds_match l ext typ code : only_adds l ext -> Forall (fun v => v <> []) ext -> settled typ -> settled code ->
  extensionMatches ext typ code = true -> exists s b, (s = typ \/ s = code) /\ builtin_class s = Some b /\ b ∈ may_name l.
Proof.
  unfold only_adds. rewrite !Forall_forall. intros Ha Hp Ht Hc [H|H]%extensionMatches_spec;
    [exists typ; destruct Ht as [->|[b Hb]]|exists code; destruct Hc as [->|[b Hb]]]; try (by destruct (Hp [])); exists b; eauto.
Qed.

Lemma extensionMatches_nil typ code : extensionMatches [] typ code = false.
Proof. done. Qed.

Lemma builtin_quota s : builtin_class s = Some BQuota -> known nonRetryableQuotaClasses s = true.
Proof. unfold builtin_class. destruct (known nonRetryableQuotaClasses s); [done|]. by repeat case_match. Qed.
Lemma builtin_rate s : builtin_class s = Some BRateLimit -> known rateLimitClasses s = true.
Proof.
  unfold builtin_class. destruct (known nonRetryableQuotaClasses s); [done|]. destruct (known rateLimitClasses s); [done|].
  by repeat case_match.
Qed.
Lemma builtin_retryable s : builtin_class s = Some BRetryable -> known retryableClasses s = true.
Proof.
  unfold builtin_class. destruct (known nonRetryableQuotaClasses s); [done|]. destruct (known rateLimitClasses s); [done|].
  destruct (known retryableClasses s); [done|]. by repeat case_match.
Qed.
Lemma builtin_client s : builtin_class s = Some BClientError -> known clientFaultClasses s = true.
Proof.
  unfold builtin_class. repeat (destruct (known _ s); [done|]).
  destruct (_ || _); [done|]. by destruct (known clientFaultClasses s).
Qed.

(** What an installation of accepted extensions satisfies. *)
Record accepted (x : ClassExtensions) : Prop := {
  acc_retryable : only_adds RetryableList (x_Retryable x);
  acc_rate : only_adds RateLimitList (x_RateLimit x);
  acc_quota : only_adds QuotaList (x_Quota x);
  acc_present : Forall (fun v => v <> []) (x_Retryable x) /\ Forall (fun v => v <> []) (x_RateLimit x) /\ Forall (fun v => v <> []) (x_Quota x);
}.
Lemma validated_accepted c : validateErrorClassExtensions c = Ok tt -> accepted (installed c).
Proof. intros (? & ? & ?)%accepted_adds. split; try done. split_and!; apply normalize_from_present. Qed.

Lemma quota_adds x typ code : accepted x -> settled typ -> settled code ->
  NonRetryableQuotaClass x typ code = NonRetryableQuotaClass no_extensions typ code.
Proof.
  intros [_ _ Hq (_ & _ & Hp)] Ht Hc. unfold NonRetryableQuotaClass.
  destruct (settled_fixed _ Ht) as [-> _]. destruct (settled_fixed _ Hc) as [-> _].
  destruct (known _ typ) eqn:Et; [done|]. destruct (known _ code) eqn:Ec; [done|].
  enough (Hf : filter (fun v => v = typ \/ v = code) (x_Quota x) = []) by by rewrite Hf.
  destruct (filter _ (x_Quota x)) as [|v l] eqn:Ef; [done|]. exfalso.
  assert (Hv : v ∈ filter (fun v => v = typ \/ v = code) (x_Quota x)) by (rewrite Ef; by left).
  apply list_elem_of_filter in Hv as [Hm Hv].
  destruct (adds_match QuotaList (x_Quota x) typ code) as (s & b & Hs & Hb & Hin%list_elem_of_singleton); try done.
  - apply extensionMatches_spec. destruct Hm as [->| ->]; tauto.
  - subst b. apply builtin_quota in Hb. destruct Hs as [->| ->]; congruence.
Qed.

Lemma rate_adds x typ code : accepted x -> settled typ -> settled code ->
  IsRateLimitClass x typ code = IsRateLimitClass no_extensions typ code.
Proof.
  intros [_ Hr _ (_ & Hp & _)] Ht Hc. unfold IsRateLimitClass.
  destruct (settled_fixed _ Ht) as [_ ->]. destruct (settled_fixed _ Hc) as [_ ->].
  destruct (either rateLimitClasses typ code) eqn:E; [done|]. cbn [x_RateLimit no_extensions]. rewrite extensionMatches_nil.
  destruct (extensionMatches (x_RateLimit x) typ code) eqn:Em; [|done].
  destruct (adds_match RateLimitList _ _ _ Hr Hp Ht Hc Em) as (s & b & Hs & Hb & Hin%list_elem_of_singleton). subst b.
  apply builtin_rate in Hb. unfold either in E. destruct Hs as [->| ->]; rewrite Hb in E; [done|by rewrite orb_true_r in E].
Qed.

Lemma retryable_adds x typ code : accepted x -> settled typ -> settled code ->
  known clientFaultClasses typ = false -> known clientFaultClasses code = false ->
  IsRetryableClass x typ code = IsRetryableClass no_extensions typ code.
Proof.
  intros [Hr _ _ (Hp & _ & _)] Ht Hc Hft Hfc. unfold IsRetryableClass.
  destruct (settled_fixed _ Ht) as [_ ->]. destruct (settled_fixed _ Hc) as [_ ->].
  destruct (either retryableClasses typ code) eqn:E; [done|]. cbn [x_Retryable no_extensions]. rewrite extensionMatches_nil.
  destruct (extensionMatches (x_Retryable x) typ code) eqn:Em; [|done].
  destruct (adds_match RetryableList _ _ _ Hr Hp Ht Hc Em) as (s & b & Hs & Hb & Hin).
  cbn in Hin. apply elem_of_cons in Hin as [->|Hin%list_elem_of_singleton].
  - apply builtin_retryable in Hb. unfold either in E. destruct Hs as [->| ->]; rewrite Hb in E; [done|by rewrite orb_true_r in E].
  - subst b. apply builtin_client in Hb. destruct Hs as [->| ->]; congruence.
Qed.

(** C16. An accepted extension only adds. Whatever lists the load boundary
    accepted and installed, an outcome whose type and code are empty or built-in
    spellings keeps its built-in class, with the one documented exception: a
    client fault that a retryable entry names or accompanies. *)
Theorem extensions_only_add c f : validateErrorClassExtensions c = Ok tt ->
  let typ := spell (f_Type f) in let code := spell (f_Code f) in
  settled typ -> settled code ->
  Classify (installed c) f = Classify no_extensions f \/
  (extensionMatches (x_Retryable (installed c)) typ code = true /\ either clientFaultClasses typ code = true).
Proof.
  intros Hv typ code Ht Hc. apply validated_accepted in Hv. revert Hv. generalize (installed c) as x. intros x Hx.
  unfold Classify. fold typ code. rewrite (quota_adds x typ code) by done. rewrite (rate_adds x typ code) by done.
  destruct (extensionMatches (x_Retryable x) typ code) eqn:Em.
  - destruct (either clientFaultClasses typ code) eqn:Ef; [by right|]. left. apply orb_false_iff in Ef as [Hft Hfc].
    rewrite (retryable_adds x typ code) by done. unfold isClientFault. by rewrite Hft.
  - left. rewrite extensionMatches_nil. unfold IsRetryableClass.
    destruct (settled_fixed _ Ht) as [_ ->]. destruct (settled_fixed _ Hc) as [_ ->]. by rewrite Em.
Qed.

(** C17. One envelope, one answer. An error status of the 4xx family that is
    neither a 429 nor the client's own 499, and the same envelope inside a 200,
    agree on whether a re-send may help - except for rate limits, which the
    ladder retries and a stream relays. *)
Theorem rescue_agrees x f : 400 <= f_Status f < 499 -> f_Status f <> 429 -> f_Transport f = false -> f_Local f = false ->
  let typ := spell (f_Type f) in let code := spell (f_Code f) in
  spell typ = typ -> spell code = code ->
  Classify x f = ClassRateLimit /\ IsRateLimitClass x (f_Type f) (f_Code f) = true \/
  Retryable (Classify x f) = InBandRetryable x (f_Type f) (f_Code f).
Proof.
  intros Hs H429 Htr Hl typ code Ht Hc. unfold Classify, InBandRetryable, IsNonRetryableQuotaErr. fold typ code.
  rewrite Htr, Hl. unfold is_2xx. replace (f_Status f <? 300) with false by (symmetry; apply Z.ltb_ge; lia).
  replace (f_Status f =? 429) with false by (symmetry; by apply Z.eqb_neq). rewrite andb_false_r. cbn [andb orb].
  unfold absent. destruct (bool_decide (NonRetryableQuotaClass x typ code = [])); cbn [negb]; [|by right].
  replace (IsRateLimitClass x (f_Type f) (f_Code f)) with (IsRateLimitClass x typ code)
    by (unfold IsRateLimitClass; by rewrite Ht, Hc).
  destruct (IsRateLimitClass x typ code); [by left|]. right.
  replace (500 <=? f_Status f) with false by (symmetry; apply Z.leb_gt; lia).
  replace (f_Status f =? 499) with false by (symmetry; apply Z.eqb_neq; lia). cbn [andb].
  replace (400 <=? f_Status f) with true by (symmetry; apply Z.leb_le; lia).
  replace (f_Status f <=? 499) with true by (symmetry; apply Z.leb_le; lia). cbn [andb negb].
  unfold isTimeoutClass, IsRetryableClass. rewrite Ht, Hc.
  destruct (extensionMatches (x_Retryable x) typ code); cbn [negb]; rewrite ?andb_false_r, ?andb_true_r.
  - destruct (either timeoutClasses typ code); [done|]. by destruct (either retryableClasses typ code).
  - destruct (isClientFault typ code); [done|].
    destruct (either timeoutClasses typ code), (either retryableClasses typ code); done.
Qed.
End classify.

(** ** Installation *)

(** The atomic pointer: what it points to, and how often it was swapped. Two
    loads see the same pointer exactly when no swap came between. *)
Record cell := Cell { c_swaps : nat; c_ext : option ClassExtensions }.
Definition installedClassExtensions (c : cell) : ClassExtensions := default no_extensions (c_ext c).

Definition sameClassExtensions (a b : ClassExtensions) : bool := bool_decide (a = b).
Definition emptyClassExtensions (e : ClassExtensions) : bool :=
  bool_decide (x_RateLimit e = []) && bool_decide (x_Quota e = []) && bool_decide (x_Retryable e = []).

(** A call of InstallClassExtensions with the normalized [e]: before its load,
    before its compare-and-swap, before it advances the revision, returned. *)
Inductive installer :=
  | Loading (e : ClassExtensions)
  | Loaded (e : ClassExtensions) (swaps : nat) (old : option ClassExtensions)
  | Swapped (e : ClassExtensions)
  | Returned (e : ClassExtensions).

(** One atomic operation of a call, on the pointer and the revision. *)
Definition install_turn (c : cell) (rev : Z) (t : installer) : cell * Z * installer :=
  match t with
  | Loading e => (c, rev, Loaded e (c_swaps c) (c_ext c))
  | Loaded e swaps old =>
      match old with
      | Some o => if sameClassExtensions o e then (c, rev, Returned e)
                  else if decide (c_swaps c = swaps) then (Cell (S (c_swaps c)) (Some e), rev, Swapped e) else (c, rev, Loading e)
      | None => if decide (c_swaps c = swaps) then
                  (Cell (S (c_swaps c)) (Some e), rev, if emptyClassExtensions e then Returned e else Swapped e)
                else (c, rev, Loading e)
      end
  | Swapped e => (c, u64 (rev + 1), Returned e)
  | Returned e => (c, rev, Returned e)
  end.

(** [i_past]: every vocabulary that was effective, the newest first. *)
Record installs := Installs { i_cell : cell; i_rev : Z; i_calls : list installer; i_past : list ClassExtensions }.
Definition effective (w : installs) : ClassExtensions := installedClassExtensions (i_cell w).

Inductive install_step : installs -> installs -> Prop :=
  | install_call w e : install_step w (Installs (i_cell w) (i_rev w) (i_calls w ++ [Loading e]) (i_past w))
  | install_run w i t c rev t' : i_calls w !! i = Some t -> install_turn (i_cell w) (i_rev w) t = (c, rev, t') ->
      install_step w (Installs c rev (<[i := t']> (i_calls w))
        (if decide (c_swaps c = c_swaps (i_cell w)) then i_past w else installedClassExtensions c :: i_past w)).

Definition process_start : installs := Installs (Cell 0 None) 0 [] [no_extensions].

(** How often the effective vocabulary changed. *)
Fixpoint changes (past : list ClassExtensions) : nat :=
  match past with
  | a :: (b :: _) as rest => ((if decide (a = b) then 0 else 1) + changes rest)%nat
  | _ => 0%nat
  end.
Definition advancing (t : installer) : bool := match t with Swapped _ => true | _ => false end.
Definition pending_advances (calls : list installer) : nat := length (List.filter advancing calls).

Lemma emptyClassExtensions_spec e : emptyClassExtensions e = true <-> e = no_extensions.
Proof.
  unfold emptyClassExtensions, no_extensions. rewrite !andb_true_iff, !bool_decide_eq_true. split.
  - destruct e; cbn. by intros [[-> ->] ->].
  - by intros ->.
Qed.

(** What a call knows of the pointer, and what it left. *)
Definition call_ok (c : cell) (past : list ClassExtensions) (t : installer) : Prop :=
  match t with
  | Loading _ => True
  | Loaded e swaps old => (swaps <= c_swaps c)%nat /\ (swaps = c_swaps c -> old = c_ext c) /\ (forall o, old = Some o -> o ∈ past)
  | Swapped e | Returned e => e ∈ past
  end.
Record installs_ok (w : installs) : Prop := {
  io_head : exists rest, i_past w = effective w :: rest;
  io_rev : u64 (i_rev w + Z.of_nat (pending_advances (i_calls w))) = u64 (Z.of_nat (changes (i_past w)));
  io_range : i_rev w = u64 (i_rev w);
  io_ext : forall o, c_ext (i_cell w) = Some o -> o ∈ i_past w;
  io_calls : Forall (call_ok (i_cell w) (i_past w)) (i_calls w);
}.

Lemma pending_cons t calls : pending_advances (t :: calls) = ((if advancing t then 1 else 0) + pending_advances calls)%nat.
Proof. unfold pending_advances. cbn. by destruct (advancing t). Qed.
Lemma pending_insert calls i t t' : calls !! i = Some t ->
  (pending_advances (<[i := t']> calls) + (if advancing t then 1 else 0) = pending_advances calls + (if advancing t' then 1 else 0))%nat.
Proof.
  revert i. induction calls as [|t0 calls IH]; intros [|i]; try done.
  - intros [= ->]. change (<[0%nat := t']> (t :: calls)) with (t' :: calls). rewrite !pending_cons. lia.
  - intros Hi. specialize (IH i Hi). change (<[S i := t']> (t0 :: calls)) with (t0 :: <[i := t']> calls). rewrite !pending_cons. lia.
Qed.

(** The turns that leave the pointer. *)
Lemma quiet_turn w i t t' : installs_ok w -> i_calls w !! i = Some t -> advancing t = false -> advancing t' = false ->
  call_ok (i_cell w) (i_past w) t' -> installs_ok (Installs (i_cell w) (i_rev w) (<[i := t']> (i_calls w)) (i_past w)).
Proof.
  intros [Hh Hr Hg Hx Hc] Hi Ha Ha' Ht. pose proof (pending_insert _ _ _ t' Hi) as Hp. rewrite Ha, Ha' in Hp.
  split; cbn [i_cell i_rev i_calls i_past]; try done.
  - replace (pending_advances (<[i := t']> (i_calls w))) with (pending_advances (i_calls w)) by lia. done.
  - by apply Forall_insert.
Qed.

Lemma call_ok_swap c e past t : call_ok c past t -> call_ok (Cell (S (c_swaps c)) (Some e)) (e :: past) t.
Proof.
  destruct t; cbn; try done.
  - intros (? & _ & Ho). split_and!; [lia|lia|]. intros o Hold. right. by apply Ho.
  - by right.
  - by right.
Qed.

(** A successful compare-and-swap. *)
Lemma swap_turn w i e old (t' : installer) : installs_ok w -> i_calls w !! i = Some (Loaded e (c_swaps (i_cell w)) old) ->
  t' = (if decide (e = effective w) then Returned e else Swapped e) ->
  installs_ok (Installs (Cell (S (c_swaps (i_cell w))) (Some e)) (i_rev w) (<[i := t']> (i_calls w)) (e :: i_past w)).
Proof.
  intros [[rest Hh] Hr Hg Hx Hc] Hi Ht. pose proof (pending_insert _ _ _ t' Hi) as Hp. cbn [advancing] in Hp.
  split; cbn [i_cell i_rev i_calls i_past]; try done.
  - exists (i_past w). done.
  - rewrite Hh in *. cbn [changes]. subst t'. destruct (decide (e = effective w)); cbn [advancing] in Hp.
    + replace (pending_advances (<[i := Returned e]> (i_calls w))) with (pending_advances (i_calls w)) by lia. done.
    + replace (pending_advances (<[i := Swapped e]> (i_calls w))) with (S (pending_advances (i_calls w))) by lia.
      rewrite Nat2Z.inj_succ, <- Z.add_1_l, Nat2Z.inj_add, Z.add_assoc, (Z.add_comm (i_rev w) 1), <- Z.add_assoc.
      unfold u64 in *. rewrite Z.add_mod, Hr, <- Z.add_mod; done.
  - intros o [= <-]. by left.
  - apply Forall_insert; [eapply Forall_impl; [exact Hc|]; intros t; apply call_ok_swap|].
    subst t'. destruct (decide _); cbn; by left.
Qed.

Lemma install_step_ok w w' : installs_ok w -> install_step w w' -> installs_ok w'.
Proof.
  intros Hok Hstep. destruct Hstep as [w e|w i t c rev t' Hi Hturn].
  { destruct Hok as [Hh Hr Hg Hx Hc]. split; cbn; try done.
    - unfold pending_advances. rewrite List.filter_app, length_app. cbn. by rewrite Nat.add_0_r.
    - apply Forall_app. split; [done|]. by apply Forall_singleton. }
  pose proof (Forall_lookup_1 _ _ _ _ (io_calls _ Hok) Hi) as Ht.
  destruct t as [e|e swaps old|e|e]; cbn in Hturn.
  - injection Hturn as <- <- <-. rewrite decide_True by done. eapply quiet_turn; try done.
    split_and!; [done|done|apply (io_ext _ Hok)].
  - destruct Ht as (Hle & Heq & Hin). destruct (io_head _ Hok) as [rest Hrest].
    assert (Hback : installs_ok (Installs (i_cell w) (i_rev w) (<[i := Loading e]> (i_calls w)) (i_past w))) by by eapply quiet_turn.
    assert (Hswap : forall t'', swaps = c_swaps (i_cell w) -> t'' = (if decide (e = effective w) then Returned e else Swapped e) ->
      installs_ok (Installs (Cell (S (c_swaps (i_cell w))) (Some e)) (i_rev w) (<[i := t'']> (i_calls w)) (e :: i_past w))).
    { intros t'' -> Ht''. by eapply swap_turn. }
    destruct old as [o|]; [destruct (sameClassExtensions o e) eqn:Es|].
    + injection Hturn as <- <- <-. rewrite decide_True by done. apply bool_decide_eq_true in Es. subst o.
      eapply quiet_turn; try done. by apply Hin.
    + destruct (decide (c_swaps (i_cell w) = swaps)) as [E|E]; injection Hturn as <- <- <-; cbn.
      * rewrite decide_False by lia. apply Hswap; [done|]. apply bool_decide_eq_false in Es.
        unfold effective, installedClassExtensions. rewrite <- Heq by done. cbn. by rewrite decide_False.
      * by rewrite decide_True.
    + destruct (decide (c_swaps (i_cell w) = swaps)) as [E|E]; injection Hturn as <- <- <-; cbn.
      * rewrite decide_False by lia. apply Hswap; [done|].
        unfold effective, installedClassExtensions. rewrite <- Heq by done. cbn.
        destruct (emptyClassExtensions e) eqn:Ee; [apply emptyClassExtensions_spec in Ee; by rewrite decide_True|].
        rewrite decide_False; [done|]. intros ->. done.
      * by rewrite decide_True.
  - injection Hturn as <- <- <-. rewrite decide_True by done. destruct Hok as [Hh Hr Hg Hx Hc].
    pose proof (pending_insert _ _ _ (Returned e) Hi) as Hp. cbn [advancing] in Hp. split; cbn [i_cell i_rev i_calls i_past]; try done.
    + rewrite <- Hr. replace (Z.of_nat (pending_advances (i_calls w)))
        with (1 + Z.of_nat (pending_advances (<[i := Returned e]> (i_calls w)))) by lia.
      rewrite Z.add_assoc. unfold u64. by rewrite Zplus_mod_idemp_l.
    + unfold u64. by rewrite Zmod_mod.
    + by apply Forall_insert.
  - injection Hturn as <- <- <-. rewrite decide_True by done. by eapply quiet_turn.
Qed.

Lemma start_ok : installs_ok process_start.
Proof. split; cbn; try done. by exists []. Qed.

Lemma run_installs_ok w w' : installs_ok w -> rtc install_step w w' -> installs_ok w' /\ exists new, i_past w' = new ++ i_past w.
Proof.
  intros Hok Hr. induction Hr as [w|w w1 w' Hstep _ IH]; [split; [done|by exists []]|].
  destruct (IH (install_step_ok _ _ Hok Hstep)) as [Hw' [new Hnew]]. split; [done|].
  assert (Hone : exists n1, i_past w1 = n1 ++ i_past w).
  { destruct Hstep; cbn; [by exists []|]. destruct (decide _); [by exists []|by eexists [_]]. }
  destruct Hone as [n1 H1]. exists (new ++ n1). by rewrite Hnew, H1, app_assoc.
Qed.

Lemma changes_app new a rest : (changes (a :: rest) <= changes (new ++ a :: rest))%nat /\
  (changes (new ++ a :: rest) = changes (a :: rest) -> head (new ++ a :: rest) = Some a).
Proof.
  induction new as [|b new [IHle IHeq]]; [done|]. rewrite <- app_comm_cons.
  destruct (new ++ a :: rest) as [|c l] eqn:El; [by destruct new|].
  change (changes (b :: c :: l)) with ((if decide (b = c) then 0 else 1) + changes (c :: l))%nat. destruct (decide (b = c)) as [->|Hne].
  - split; [lia|]. intros H. by apply IHeq.
  - split; [lia|]. lia.
Qed.


(** ** Examples *)

#[local] Instance class_unicode : Unicode := {| lower_rune := fun r => r |}.

Definition operator_lists : ClassExtensions :=
  Ext [str "acct_busy"] [str " Acct_Frozen "] [str "invalid_request_error"; str "gateway_restarting"].
Definition gateway_400 (typ code : string) : ErrorFacts := Facts 400 (str typ) (str code) false false.

Lemma extensions_only_add_witness :
  Classify (installed operator_lists) (gateway_400 " Tier_Limit_Exceeded" "") = ClassRateLimit /\
  (Classify (installed operator_lists) (gateway_400 " Tier_Limit_Exceeded" "") = Classify no_extensions (gateway_400 " Tier_Limit_Exceeded" "") \/
   (extensionMatches (x_Retryable (installed operator_lists)) (spell (str " Tier_Limit_Exceeded")) (spell (str "")) = true /\
    either clientFaultClasses (spell (str " Tier_Limit_Exceeded")) (spell (str "")) = true)).
Proof.
  split; [vm_compute; reflexivity|].
  apply (extensions_only_add operator_lists (gateway_400 " Tier_Limit_Exceeded" "")).
  - vm_compute. reflexivity.
  - right. exists BRateLimit. vm_compute. reflexivity.
  - left. vm_compute. reflexivity.
Defined.

Lemma rescue_agrees_witness :
  InBandRetryable (installed operator_lists) (str "invalid_request_error") (str "bad") = true /\
  (Classify (installed operator_lists) (gateway_400 "invalid_request_error" "bad") = ClassRateLimit /\
     IsRateLimitClass (installed operator_lists) (str "invalid_request_error") (str "bad") = true \/
   Retryable (Classify (installed operator_lists) (gateway_400 "invalid_request_error" "bad")) =
     InBandRetryable (installed operator_lists) (str "invalid_request_error") (str "bad")).
Proof.
  split; [vm_compute; reflexivity|].
  apply (rescue_agrees (installed operator_lists) (gateway_400 "invalid_request_error" "bad")); try reflexivity; cbn; lia.
Defined.

(** A reload that installs [operator_lists], then the same lists again. *)
Definition once_installed : installs :=
  Installs (Cell 1 (Some (installed operator_lists))) 1 [Returned (installed operator_lists)] [installed operator_lists; no_extensions].
Definition twice_installed : installs :=
  Installs (Cell 1 (Some (installed operator_lists))) 1
    [Returned (installed operator_lists); Returned (installed operator_lists)] [installed operator_lists; no_extensions].

Lemma first_install : rtc install_step process_start once_installed.
Proof.
  eapply rtc_l; [apply (install_call process_start (installed operator_lists))|].
  eapply rtc_l; [by eapply (install_run _ 0)|]. eapply rtc_l; [by eapply (install_run _ 0)|].
  eapply rtc_l; [by eapply (install_run _ 0)|]. apply rtc_refl.
Qed.
Lemma second_install : rtc install_step once_installed twice_installed.
Proof.
  eapply rtc_l; [apply (install_call once_installed (installed operator_lists))|].
  eapply rtc_l; [by eapply (install_run _ 1)|]. eapply rtc_l; [by eapply (install_run _ 1)|]. apply rtc_refl.
Qed.


(** An accepted retryable entry that is already a built-in retryable spelling
    changes an answer: it overrides the client fault it accompanies. *)
Lemma builtin_entry_overrides :
  validateErrorClassExtensions (Ext [] [] [str "server_error"]) = Ok tt /\
  Classify no_extensions (gateway_400 "invalid_request_error" "server_error") = ClassClientError /\
  Classify (installed (Ext [] [] [str "server_error"])) (gateway_400 "invalid_request_error" "server_error") = ClassUnavailable.
Proof. split_and!; vm_compute; reflexivity. Qed.

(** The load boundary compares spellings before it trims them: one spelling is
    accepted in two lists. *)
Lemma padded_spelling_in_two_lists :
  let c := Ext [] [str " acct_frozen"] [str "acct_frozen"] in
  validateErrorClassExtensions c = Ok tt /\ x_Quota (installed c) = x_Retryable (installed c).
Proof. split; vm_compute; reflexivity. Qed.
